(* ===== verification/_CoqProject ===== *)
-Q . S2P
Prelude.v
RustStd.v
RustText.v
Core.v
Wire.v
Xorb.v
Shard.v
MemStore.v
FsStore.v
BlobStore.v
S3Store.v
S3Toy.v
MetaCommon.v
Db.v
Sqlite.v
Accounting.v
Tokens.v
Authz.v
MetaSpec.v
SqliteSpec.v
Postgres.v
PostgresSpec.v
PostgresTx.v
PostgresToy.v
MetaTyped.v
Http.v
HttpAuth.v
HttpStore.v
HttpServe.v
Router.v
RouterSpec.v
ServerMain.v
Pktline.v
CleanCache.v
Config.v
PathFacts.v
Repo.v
Filter.v
FilterSpec.v
CleanSpec.v
SmudgeSpec.v
FilterToy.v
Gc.v
GcSpec.v
GcToy.v
Remote.v
Resolver.v
ResolverSpec.v
Push.v
PushSpec.v
PushToy.v
Prune.v
PruneSpec.v
PruneToy.v
Vfs.v
VfsTree.v
VfsServe.v
VfsSpec.v
VfsDiff.v
VfsToy.v
Reader.v
ReaderSpec.v
ReaderToy.v
Fuse.v
FuseSpec.v
FuseToy.v
Progress.v
Track.v
Install.v
InstallSpec.v
InstallToy.v
Cli.v
CliSpec.v
CliToy.v
