(* ===== verification/Prelude.v ===== *)
(** * Bale for Git: a verification library

    Bale stores the large files of a git repository as deduplicated chunks.  The
    repository has a server (crates [bale-server-*]) and a client (crate
    [git-bale]).

    On the server, [bale-server-http] serves uploads and downloads over three
    traits of [bale-server-core]: a blob store (xorbs, the bundles of compressed
    chunks, and shards, the metadata uploads), a metadata store (which file is
    which list of terms, each a chunk range of a xorb; quotas and usage), and an
    authorizer.  On the client, git runs [git-bale] as a filter process: clean
    turns a file's content into a small pointer and keeps the chunks in a local
    object store, smudge turns a pointer back into the content; gc reclaims what
    was staged and abandoned, prune compacts a store that several repositories
    share, the pre-push hook uploads what a push advertises, and a mount shows a
    revision or a diff as a file system whose pointers read as their contents.

    ** Files, in dependency order

    Foundations: [Prelude] (outcomes with panic and divergence, the state and
    error monad [ST], its triples [wp]/[wps] and the tactics [wstep], [wsteps],
    [inv_ok]), [RustStd] (the part of Rust's library the sources use: integers
    at their width, bytes, strings as UTF-8, radix text), [RustText] (trimming,
    splitting, lines and searching of strings).

    Server:
    - [Core]: [bale-server-core], types and traits; each trait is a class of
      operations, and a second class states what its implementations promise.
    - [Wire]: [bale-server-wire], hashes as text.
    - [Xorb], [Shard]: [bale-server-shard], parsing and verifying of the two
      binary formats.
    - [MemStore], [FsStore], [BlobStore]: the stores of [bale-server-storage-mem]
      and [-fs] and what a client may rely on; [FsStore] has a file system with
      unsynced data, failing calls, crashes and interfering writers.
    - [S3Store], [S3Toy]: [bale-server-storage-s3] over a service whose calls are
      a parameter with laws, and one such service.
    - [MetaCommon], [Db], [Sqlite], [Accounting], [MetaSpec], [SqliteSpec]:
      [bale-server-meta-common] and [-sqlite], tables as finite maps, statements
      that may fail, transactions that roll back; the contract of a metadata
      store and its refinement.
    - [Postgres], [PostgresSpec], [PostgresTx], [PostgresToy]:
      [bale-server-meta-postgres], the same contract, and the statements of
      concurrent transactions at READ COMMITTED with their locks.
    - [MetaTyped]: what is in the rows of both SQL stores.
    - [Tokens], [Authz]: [bale-server-tokens], [-authz-mem], [-authz-http].
    - [Http], [HttpAuth], [HttpStore], [HttpServe]: the handlers of
      [bale-server-http], proved against the classes of [Core] and [MetaSpec];
      [Router] its table of routes with the token check, the extractors and the
      counter of requests, [RouterSpec] histories of requests.
    - [ServerMain]: [bale-server-bin], from the environment to serving.

    Client ([git-bale/src]):
    - [Pktline]: [pktline.rs], packets over two pipes whose writes may fail.
    - [CleanCache]: [clean_cache.rs], fingerprints and their verification, the
      parallel workers as a step relation over a shared flag.
    - [Config]: [config.rs], the paths of [store.rs], the cache root and scopes of
      [main.rs].
    - [PathFacts]: lemmas on joined paths and their last names.
    - [Repo]: [pointer.rs], [fs_util.rs], [staging.rs], the files of
      [clean_cache.rs] and [manifest_cache.rs], [local_reconstruct.rs]; every
      call of the file system takes its result from the list [faults].
    - [Filter]: [filter_process.rs] and [remote_manifest.rs], the whole session.
    - [FilterSpec], [CleanSpec], [SmudgeSpec], [FilterToy]: its promises, proved
      from laws of the crates that [FilterToy] instantiates.
    - [Gc], [GcSpec], [GcToy]: [gc.rs], over a record of what gix reads.
    - [Remote], [Resolver], [ResolverSpec]: [remote.rs] and [resolver.rs], the
      conversation with the forge as recorded events of a network that answers
      anything, and a protocol over transcripts of events and answers that says
      which event may follow.
    - [Push], [PushSpec], [PushToy]: [push_pending.rs], from the updates git
      prints on a pipe to the drained markers.
    - [Prune], [PruneSpec], [PruneToy]: [prune.rs] and the registry of
      [store.rs], over a machine of stores and repositories.
    - [Vfs]: [mount/vfs.rs], [mount/diff.rs], [mount/mod.rs]; [VfsTree] the
      invariant of its inodes, [VfsServe] sessions of lookups and listings,
      [VfsSpec] a mounted revision, [VfsDiff] a mounted diff, [VfsToy] examples.
    - [Reader], [ReaderSpec], [ReaderToy]: [mount/reader.rs], handles, the
      budgeted cache and the sources of content.
    - [Fuse], [FuseSpec], [FuseToy]: [mount/backend/libfuse.rs] and
      [winfsp.rs] (Modules [Libfuse] and [Winfsp]), and the two mount commands.
    - [Progress]: [progress.rs], the thread that draws and its line, with rates and
      sizes in binary64.
    - [Track]: [track.rs]; [Install], [InstallSpec], [InstallToy]: [install.rs].
    - [Cli], [CliSpec], [CliToy]: [main.rs], the commands until another module
      takes over, and what switching local mode on means for the next command.

    ** How the parts meet

    [Http] is written over the classes [BlobStore], [MetadataStore] and
    [RepoAuthz] of [Core]; its theorems use their laws, which [BlobStore],
    [S3Store], [SqliteSpec] and [PostgresSpec] discharge for the four stores.
    [ServerMain] picks the implementations and ends with the grants that
    [Authz] decides by.  On the client [Filter], [Gc], [Push], [Prune] and
    [Reader] share the repository of [Repo] and its invariant of [FilterSpec];
    [Fuse] runs the tree of [Vfs] and the reader of [Reader] side by side, and
    its specification quotients both to a file system of paths.  [Cli] runs
    [Install], [Track] and [Prune] over one process, and [CliSpec] follows a
    setting from the command that makes git store it to the next process, which
    reads it back through [Config].

    ** What the theorems show

    Formats: an upload is accepted exactly when its content has the hash; a
    serialised shard parses back and the parser is total; packets written by one
    end are read by the other; every spelling of a remote parses to its parts.

    Stores: the memory store's cap holds under any interleaving of the
    compare-and-swap loop; a blob of the file-system store is complete or absent
    at every point of any interleaving and after a crash; a store answers reads
    with the part of the body that was put, the S3 store too; a registered file
    reads back as it was first registered, the accounting queries agree with
    the registrations, and both SQL stores refine the contract of a metadata
    store with rows that are typed; concurrent registrations in PostgreSQL
    commit what some order of them one by one would.

    Server: it starts only as configured; who is granted what, tokens and
    signed URLs, uploads that are kept whole or not at all, downloads and
    reconstruction plans that are exactly the file, dedup answers that name
    stored xorbs; through any history of requests what was served stays served,
    and only an upload with a write token changes anything.

    Client: a cache hit means an unchanged content; in local mode a clean
    answers a pointer that a smudge, after any history of requests, turns back
    into the same bytes; the watchdog aborts exactly the stalled downloads; a
    session always ends; gc and prune keep everything a push or a checkout could
    need; a push that succeeds has made every advertised file available and
    drained only its own markers; resolving sends each secret only to whom it
    belongs, traced to the answer it came from; a mount, of a revision or a diff, answers any session of its
    kernel as an abstract read-only file system of the tree; installing keeps
    the user's hooks, tracking adds lines and loses none, and local mode is on
    for every command after it was asked for; the progress line ends with the
    upload.

    Some examples prove a behaviour that the sources, their comments or the
    documents do not mean; the doc comment before each says which.

    ** Conventions and bounds

    Integers are [Z] with the wrap-around of release builds written out
    ([as_u32], [as_u64], saturating and checked operations where the source has
    them); bytes and strings are lists of bytes.  A call answers [Ok], [Err],
    [Panic] or [Diverged]; an error keeps the effects before it.  Loops that are
    not structural carry fuel computed from their input (the length of what is
    left to read, plus one), and a theorem of the file shows that it is enough.
    Failing calls of a disk, a pipe or a database are a list of faults in the
    state, arbitrary in the theorems unless they say otherwise.

    A mount's theorems ask that its inode numbers stay below 2^64, counted from
    the width of its directories and the number of components asked for, and
    that reads times the cache's budget do; a session in practice is far from
    either.

    Third-party code (xet-core's chunking, hashes and sessions, gix, the JWT,
    MAC and HTTP libraries, JSON, compression, the S3 service, the forge, FUSE)
    is a parameter, and what is relied on is a law of a class or a hypothesis of
    a section, instantiated by the witnesses.  No hash is assumed injective:
    where a collision matters, the hypothesis speaks of the two contents at hand.

    ** Not modelled

    The migration of the SQL schemas, the exporters of telemetry, the histogram of
    latencies and the metrics' text, the parsing of the command line, log lines,
    and the layout of the C structures of FUSE and WinFsp are calls or declarations
    for libraries.  A COMMIT that fails leaves the tables as they were; one that
    takes effect although its answer is lost is not modelled.  JSON text, the matching of paths, HTTP framing and TLS belong
    to libraries.  The profiling example and the tests are left out.  Waiting
    for a lock that another process holds, sleeping, empty directories, opens of
    the mount's reader that interleave, and the network's content in server mode
    are outside the state. *)

From stdpp Require Export base tactics gmap sets list strings vector countable
  numbers pretty option fin_maps relations sorting.
From Stdlib Require Export Lia ZArith.
From Stdlib Require Import Strings.Byte.

#[export] Set Default Proof Using "Type".

Declare Scope bale_scope.
Delimit Scope bale_scope with bale.
Open Scope Z_scope.

(** ** Outcomes of a computation

    A Rust call returns [Ok] or [Err], or unwinds with a panic.  [Diverged] is
    the answer of a fuelled loop whose fuel ran out; every loop below has a
    theorem that it is never the answer with the fuel it is given. *)
Inductive outcome (E A : Type) : Type :=
  | Ok (a : A)
  | Err (e : E)
  | Panic
  | Diverged.
Arguments Ok {E A} a.
Arguments Err {E A} e.
Arguments Panic {E A}.
Arguments Diverged {E A}.

#[global] Instance outcome_ret {E} : MRet (outcome E) := λ A a, Ok a.
#[global] Instance outcome_bind {E} : MBind (outcome E) := λ A B f o,
  match o with
  | Ok a => f a
  | Err e => Err e
  | Panic => Panic
  | Diverged => Diverged
  end.
#[global] Instance outcome_fmap {E} : FMap (outcome E) := λ A B f o,
  match o with
  | Ok a => Ok (f a)
  | Err e => Err e
  | Panic => Panic
  | Diverged => Diverged
  end.

(** [Result::map_err]. *)
Definition map_err {E F A} (f : E → F) (o : outcome E A) : outcome F A :=
  match o with
  | Ok a => Ok a
  | Err e => Err (f e)
  | Panic => Panic
  | Diverged => Diverged
  end.

(** The call came back: it neither panicked nor ran out of fuel. *)
Definition returned {E A} (o : outcome E A) : bool :=
  match o with Ok _ | Err _ => true | Panic | Diverged => false end.

Definition is_ok {E A} (o : outcome E A) : bool :=
  match o with Ok _ => true | _ => false end.

(** [Option::ok_or]. *)
Definition ok_or {E A} (e : E) (o : option A) : outcome E A :=
  match o with Some a => Ok a | None => Err e end.

(** A Rust index or [expect]: [None] is a panic. *)
Definition or_panic {E A} (o : option A) : outcome E A :=
  match o with Some a => Ok a | None => Panic end.

#[global] Instance outcome_eq_dec {E A} `{EqDecision E, EqDecision A} :
  EqDecision (outcome E A).
Proof. solve_decision. Defined.

(** ** Stateful computations with errors

    An error keeps the state reached so far: Rust's [?] does not undo the
    effects that came before it.  Rollback is written where the code has it. *)
Definition ST (S E A : Type) : Type := S → outcome E A * S.

#[global] Instance ST_ret {S E} : MRet (ST S E) := λ A a s, (Ok a, s).
#[global] Instance ST_bind {S E} : MBind (ST S E) := λ A B f m s,
  match m s with
  | (Ok a, s') => f a s'
  | (Err e, s') => (Err e, s')
  | (Panic, s') => (Panic, s')
  | (Diverged, s') => (Diverged, s')
  end.

Section st_ops.
Context {S E : Type}.
Definition throw {A} (e : E) : ST S E A := λ s, (Err e, s).
Definition lift {A} (o : outcome E A) : ST S E A := λ s, (o, s).
Definition gets {A} (f : S → A) : ST S E A := λ s, (Ok (f s), s).
Definition modify (f : S → S) : ST S E unit := λ s, (Ok tt, f s).
Definition st_map_err {F A} (f : E → F) (m : ST S E A) : ST S F A :=
  λ s, let '(o, s') := m s in (map_err f o, s').

(** [for x in l { f(x)?; }] *)
Fixpoint for_each {A} (f : A → ST S E unit) (l : list A) : ST S E unit :=
  match l with
  | [] => mret tt
  | x :: l => f x ≫= λ _, for_each f l
  end.

(** [for x in l { acc = f(acc, x)?; }] *)
Fixpoint fold_st {A B} (f : B → A → ST S E B) (acc : B) (l : list A) : ST S E B :=
  match l with
  | [] => mret acc
  | x :: l => acc ← f acc x; fold_st f acc l
  end.

(** [loop { ... }] with an explicit continue ([inl]) or break ([inr]). *)
Fixpoint loop_st {A B} (fuel : nat) (body : A → ST S E (A + B)) (a : A) : ST S E B :=
  match fuel with
  | O => λ s, (Diverged, s)
  | Datatypes.S fuel =>
      body a ≫= λ r,
      match r with
      | inl a' => loop_st fuel body a'
      | inr b => mret b
      end
  end.
End st_ops.

(** Run a computation on a component of a larger state. *)
Definition zoom {S T E A} (proj : T → S) (upd : S → T → T) (m : ST S E A) : ST T E A :=
  λ t, let '(o, s') := m (proj t) in (o, upd s' t).

(** The loop of a pure computation. *)
Fixpoint loop_out {E A B} (fuel : nat) (body : A → outcome E (A + B)) (a : A) : outcome E B :=
  match fuel with
  | O => Diverged
  | S fuel =>
      match body a with
      | Ok (inl a') => loop_out fuel body a'
      | Ok (inr b) => Ok b
      | Err e => Err e
      | Panic => Panic
      | Diverged => Diverged
      end
  end.

(** [for x in l { acc = f(acc, x)?; }] *)
Fixpoint fold_out {E A B} (f : B → A → outcome E B) (acc : B) (l : list A) : outcome E B :=
  match l with
  | [] => Ok acc
  | x :: l => f acc x ≫= λ acc', fold_out f acc' l
  end.

(** [l[i]] and [l[i] = x], with the panic of an index out of bounds. *)
Definition index {E A} (l : list A) (i : nat) : outcome E A := or_panic (l !! i).
Definition index_set {E A} (l : list A) (i : nat) (x : A) : outcome E (list A) :=
  if (i <? length l)%nat then Ok (<[i := x]> l) else Panic.

(** ** Tactics *)

(** [lia] with quotients and remainders by constants. *)
Ltac div_lia := Z.to_euclidean_division_equations; lia.

(** Split a successful bind in a hypothesis. *)
Lemma outcome_bind_Ok {E A B} (f : A → outcome E B) (o : outcome E A) b :
  o ≫= f = Ok b ↔ ∃ a, o = Ok a ∧ f a = Ok b.
Proof. destruct o; naive_solver. Qed.

Lemma outcome_bind_assoc {E A B C} (o : outcome E A) (f : A → outcome E B) (g : B → outcome E C) :
  (o ≫= f) ≫= g = o ≫= (λ a, f a ≫= g).
Proof. by destruct o. Qed.

Lemma outcome_bind_ext {E A B} (o : outcome E A) (f g : A → outcome E B) :
  (∀ a, f a = g a) → o ≫= f = o ≫= g.
Proof. destruct o; simpl; auto. Qed.

Lemma ST_bind_Ok {S E A B} (f : A → ST S E B) (m : ST S E A) s b s'' :
  (m ≫= f) s = (Ok b, s'') ↔ ∃ a s', m s = (Ok a, s') ∧ f a s' = (Ok b, s'').
Proof.
  unfold mbind, ST_bind. destruct (m s) as [[a|e| |] s1]; naive_solver.
Qed.

Lemma ST_bind_step {S E A B} (f : A → ST S E B) (m : ST S E A) s a s' :
  m s = (Ok a, s') → (m ≫= f) s = f a s'.
Proof. unfold mbind, ST_bind. by intros ->. Qed.

Lemma ST_bind_err {S E A B} (f : A → ST S E B) (m : ST S E A) s e s' :
  m s = (Err e, s') → (m ≫= f) s = (Err e, s').
Proof. unfold mbind, ST_bind. by intros ->. Qed.

Lemma ST_bind_assoc {S E A B C} (m : ST S E A) (f : A → ST S E B) (g : B → ST S E C) s :
  ((m ≫= f) ≫= g) s = (m ≫= (λ a, f a ≫= g)) s.
Proof. unfold mbind, ST_bind. by destruct (m s) as [[?|?| |] ?]. Qed.

Lemma ST_ret_bind {S E A B} (a : A) (f : A → ST S E B) s :
  (mret a ≫= f) s = f a s.
Proof. done. Qed.

(** Decompose every successful monadic step among the hypotheses. *)
Ltac inv_ok :=
  repeat match goal with
  | H : (_ ≫= _) _ = (Ok _, _) |- _ =>
      apply ST_bind_Ok in H; destruct H as (? & ? & ? & H)
  | H : _ ≫= _ = Ok _ |- _ =>
      apply outcome_bind_Ok in H; destruct H as (? & ? & H)
  | H : mret _ _ = (Ok _, _) |- _ => unfold mret, ST_ret in H; simplify_eq
  | H : mret _ = Ok _ |- _ => unfold mret, outcome_ret in H; simplify_eq
  | H : lift _ _ = (_, _) |- _ => unfold lift in H; simplify_eq
  | H : gets _ _ = (_, _) |- _ => unfold gets in H; simplify_eq
  | H : modify _ _ = (_, _) |- _ => unfold modify in H; simplify_eq
  | H : throw _ _ = (Ok _, _) |- _ => unfold throw in H; simplify_eq
  | H : Err _ = Ok _ |- _ => discriminate H
  end.

(** ** Total correctness

    [wp o Q R]: the call comes back, with an answer in [Q] or an error in [R].
    [wps] is the same for a stateful call run from a given state. *)
Definition wp {E A} (o : outcome E A) (Q : A → Prop) (R : E → Prop) : Prop :=
  match o with Ok a => Q a | Err e => R e | Panic | Diverged => False end.

Definition wps {S E A} (m : ST S E A) (s : S) (Q : A → S → Prop) (R : E → S → Prop) : Prop :=
  match m s with
  | (Ok a, s') => Q a s'
  | (Err e, s') => R e s'
  | (Panic, _) | (Diverged, _) => False
  end.

Lemma wp_bind {E A B} (o : outcome E A) (f : A → outcome E B) Q R :
  wp (o ≫= f) Q R ↔ wp o (λ a, wp (f a) Q R) R.
Proof. by destruct o. Qed.

Lemma wp_mono {E A} (o : outcome E A) (Q Q' : A → Prop) (R R' : E → Prop) :
  wp o Q R → (∀ a, Q a → Q' a) → (∀ e, R e → R' e) → wp o Q' R'.
Proof. destruct o; simpl; auto. Qed.

Lemma wp_returned {E A} (o : outcome E A) : returned o ↔ wp o (λ _, True) (λ _, True).
Proof. by destruct o. Qed.

Lemma wps_bind {S E A B} (m : ST S E A) (f : A → ST S E B) s Q R :
  wps (m ≫= f) s Q R ↔ wps m s (λ a s', wps (f a) s' Q R) R.
Proof. unfold wps, mbind, ST_bind. by destruct (m s) as [[?|?| |] ?]. Qed.

Lemma wps_mono {S E A} (m : ST S E A) s (Q Q' : A → S → Prop) (R R' : E → S → Prop) :
  wps m s Q R → (∀ a s', Q a s' → Q' a s') → (∀ e s', R e s' → R' e s') → wps m s Q' R'.
Proof. unfold wps. destruct (m s) as [[?|?| |] ?]; auto. Qed.

Lemma wps_ret {S E A} (a : A) (s : S) (Q : A → S → Prop) (R : E → S → Prop) :
  Q a s → wps (mret a) s Q R.
Proof. done. Qed.
Lemma wps_gets {S E A} (f : S → A) s (Q : A → S → Prop) (R : E → S → Prop) :
  Q (f s) s → wps (gets f) s Q R.
Proof. done. Qed.
Lemma wps_modify {S E} (f : S → S) s (Q : unit → S → Prop) (R : E → S → Prop) :
  Q tt (f s) → wps (modify f) s Q R.
Proof. done. Qed.
Lemma wps_throw {S E A} (e : E) s (Q : A → S → Prop) (R : E → S → Prop) :
  R e s → wps (throw e) s Q R.
Proof. done. Qed.
Lemma wps_lift {S E A} (o : outcome E A) (s : S) (Q : A → S → Prop) (R : E → S → Prop) :
  wp o (λ a, Q a s) (λ e, R e s) → wps (lift o) s Q R.
Proof. by destruct o. Qed.
Lemma wps_map_err {S E F A} (f : E → F) (m : ST S E A) s (Q : A → S → Prop) (R : F → S → Prop) :
  wps m s Q (λ e s', R (f e) s') → wps (st_map_err f m) s Q R.
Proof. unfold wps, st_map_err. by destruct (m s) as [[?|?| |] ?]. Qed.

(** The run itself is known afterwards. *)
Lemma wps_run {S E A} (m : ST S E A) s (Q : A → S → Prop) (R : E → S → Prop) :
  wps m s Q R → wps m s (λ a s', Q a s' ∧ m s = (Ok a, s')) (λ e s', R e s' ∧ m s = (Err e, s')).
Proof. unfold wps. by destruct (m s) as [[?|?| |] ?]. Qed.

(** One step of symbolic execution. *)
Ltac wstep :=
  match goal with
  | |- wps (_ ≫= _) _ _ _ => apply wps_bind
  | |- wps (mret _) _ _ _ => apply wps_ret
  | |- wps (gets _) _ _ _ => apply wps_gets
  | |- wps (modify _) _ _ _ => apply wps_modify
  | |- wps (throw _) _ _ _ => apply wps_throw
  | |- wps (lift _) _ _ _ => apply wps_lift
  | |- wps (st_map_err _ _) _ _ _ => apply wps_map_err
  | |- wp (_ ≫= _) _ _ => apply wp_bind
  end; cbv beta.
Ltac wsteps := repeat wstep.

Lemma wps_for_each {S E A} (f : A → ST S E unit) (Inv : S → Prop) (R : E → S → Prop) l :
  (∀ x s, x ∈ l → Inv s → wps (f x) s (λ _, Inv) R) →
  ∀ s, Inv s → wps (for_each f l) s (λ _, Inv) R.
Proof.
  induction l as [|x l IH]; intros Hf s Hs; simpl; [done|].
  apply wps_bind. eapply wps_mono; [apply Hf; [set_solver|done]| |done].
  intros u s' Hs'. apply IH; [|done]. intros y t Hy. apply Hf. set_solver.
Qed.

Lemma wps_fold_st {S E A B} (f : B → A → ST S E B) (Inv : list A → B → S → Prop) (R : E → S → Prop) l :
  (∀ dn acc x rest s, l = dn ++ x :: rest → Inv dn acc s →
    wps (f acc x) s (λ acc' s', Inv (dn ++ [x]) acc' s') R) →
  ∀ acc s, Inv [] acc s → wps (fold_st f acc l) s (λ acc' s', Inv l acc' s') R.
Proof.
  assert (Hgen : ∀ rest dn, l = dn ++ rest →
    (∀ dn acc x rest s, l = dn ++ x :: rest → Inv dn acc s →
      wps (f acc x) s (λ acc' s', Inv (dn ++ [x]) acc' s') R) →
    ∀ acc s, Inv dn acc s → wps (fold_st f acc rest) s (λ acc' s', Inv l acc' s') R).
  { induction rest as [|x rest IH]; intros dn -> Hf acc s Hs; simpl.
    - rewrite app_nil_r. exact Hs.
    - apply wps_bind. eapply wps_mono; [by eapply Hf| |done].
      intros acc' s' Hs'. apply (IH (dn ++ [x])); [by rewrite <-app_assoc|done|done]. }
  intros Hf acc s Hs. by apply (Hgen l []).
Qed.

Lemma wp_fold_out {E A B} (f : B → A → outcome E B) (Inv : B → Prop) (R : E → Prop) l :
  (∀ acc x, x ∈ l → Inv acc → wp (f acc x) Inv R) →
  ∀ acc, Inv acc → wp (fold_out f acc l) Inv R.
Proof.
  induction l as [|x l IH]; intros Hf acc Hacc; simpl; [done|].
  apply wp_bind. eapply wp_mono; [apply Hf; [set_solver|done]| |done].
  intros acc' Hacc'. apply IH; [|done]. intros y t Hy. apply Hf. set_solver.
Qed.

Lemma fold_out_app {E A B} (f : B → A → outcome E B) acc l k :
  fold_out f acc (l ++ k) = fold_out f acc l ≫= λ acc', fold_out f acc' k.
Proof.
  revert acc. induction l as [|x l IH]; intros acc; simpl; [done|].
  destruct (f acc x); simpl; auto.
Qed.

Lemma fold_out_ext {E A B} (f g : B → A → outcome E B) l :
  (∀ acc x, f acc x = g acc x) → ∀ acc, fold_out f acc l = fold_out g acc l.
Proof.
  intros Hfg. induction l as [|x l IH]; intros acc; simpl; [done|].
  rewrite Hfg. destruct (g acc x); simpl; auto.
Qed.

(** A stateful loop of fallible pure steps is a fold, when it succeeds. *)
Lemma for_each_modify {S E A D} (g : A → outcome E D) (G : S → D → S) l s s' :
  for_each (λ x, d ← lift (g x); modify (λ s, G s d)) l s = (Ok tt, s') ↔
  fold_out (λ s x, d ← g x; mret (G s d)) s l = Ok s'.
Proof.
  revert s. induction l as [|x l IH]; intros s; simpl.
  { split; [by intros [= ->]|by intros [= ->]]. }
  unfold mbind at 1 2, ST_bind at 1 2. unfold lift, modify.
  destruct (g x) as [d| | |]; simpl; [apply IH|split; intros; simplify_eq..].
Qed.

(** Two nested loops are one loop over the pairs. *)
Lemma fold_out_nested {E A B C} (f : A → C → B → outcome E C) (inner : A → list B) acc xs :
  fold_out (λ acc x, fold_out (f x) acc (inner x)) acc xs
  = fold_out (λ acc p, f p.1 acc p.2) acc (flat_map (λ x, pair x <$> inner x) xs).
Proof.
  revert acc. induction xs as [|x xs IH]; intros acc; simpl; [done|].
  rewrite fold_out_app.
  assert (H : ∀ l acc, fold_out (λ acc p, f p.1 acc p.2) acc (pair x <$> l) = fold_out (f x) acc l).
  { induction l as [|y l IHl]; intros acc'; simpl; [done|]. by destruct (f x acc' y); simpl. }
  rewrite H. destruct (fold_out _ acc _); simpl; auto.
Qed.

(** A loop that writes a computed value at its own place of an array. *)
Lemma fold_out_set {E A B} (g : A → outcome E B) (q : A → nat) l : ∀ out out',
  NoDup (q <$> l) → Forall (λ i, q i < length out)%nat l →
  fold_out (λ out i, b ← g i; index_set out (q i) b) out l = Ok out' ↔
  length out' = length out ∧
  Forall (λ i, ∃ b, out' !! q i = Some b ∧ g i = Ok b) l ∧
  (∀ j, j ∉ q <$> l → out' !! j = out !! j).
Proof.
  induction l as [|i l IH]; intros out out' Hnd Hlt; simpl.
  { split; [intros [= ->]; naive_solver|]. intros (_ & _ & H). f_equal.
    apply list_eq. intros j. symmetry. apply H. set_solver. }
  inversion Hlt as [|?? Hi Hl]; subst. rewrite fmap_cons, NoDup_cons in Hnd.
  destruct Hnd as [Hni Hnd]. rewrite Forall_cons.
  destruct (g i) as [b|e| |] eqn:Hg; simpl; [|naive_solver..].
  unfold index_set. rewrite (proj2 (Nat.ltb_lt _ _) Hi). simpl.
  rewrite IH; [|done|by rewrite length_insert]. rewrite length_insert. split.
  - intros (Hlen & Hf & Hout). split; [done|]. split.
    + split; [|done]. exists b. split; [|done].
      rewrite Hout by done. by rewrite list_lookup_insert_eq.
    + intros j Hj. rewrite not_elem_of_cons in Hj.
      rewrite Hout by set_solver. rewrite list_lookup_insert_ne; naive_solver.
  - intros (Hlen & [(b' & Hb' & Heq) Hf] & Hout). simplify_eq.
    split_and!; [done..|]. intros j Hj. destruct (decide (j = q i)) as [->|Hne].
    + by rewrite list_lookup_insert_eq.
    + rewrite list_lookup_insert_ne by done. apply Hout. set_solver.
Qed.

(** ** Loops terminate when a measure decreases *)

Lemma loop_out_settles {E A B} (body : A → outcome E (A + B)) (measure : A → nat)
    (Inv : A → Prop) :
  (∀ a, Inv a →
    match body a with
    | Ok (inl a') => Inv a' ∧ (measure a' < measure a)%nat
    | Ok (inr _) | Err _ => True
    | Panic | Diverged => False
    end) →
  ∀ fuel a, Inv a → (measure a < fuel)%nat → returned (loop_out fuel body a).
Proof.
  intros Hstep. induction fuel as [|fuel IH]; intros a Ha Hm; [lia|]. simpl.
  specialize (Hstep a Ha). destruct (body a) as [[a'|b]| | |]; try done.
  destruct Hstep. apply IH; [done|lia].
Qed.

(** A fact established by every way out of the loop. *)
Lemma loop_out_inv {E A B} (body : A → outcome E (A + B)) (Inv : A → Prop)
    (Post : outcome E B → Prop) :
  (∀ a, Inv a →
    match body a with
    | Ok (inl a') => Inv a'
    | Ok (inr b) => Post (Ok b)
    | Err e => Post (Err e)
    | Panic => Post Panic
    | Diverged => Post Diverged
    end) →
  Post Diverged →
  ∀ fuel a, Inv a → Post (loop_out fuel body a).
Proof.
  intros Hstep Hd. induction fuel as [|fuel IH]; intros a Ha; [done|]. simpl.
  specialize (Hstep a Ha). destruct (body a) as [[a'|b]| | |]; try done.
  by apply IH.
Qed.

Lemma loop_st_settles {S E A B} (body : A → ST S E (A + B)) (measure : S → nat)
    (Inv : A → S → Prop) :
  (∀ a s, Inv a s →
    match body a s with
    | (Ok (inl a'), s') => Inv a' s' ∧ (measure s' < measure s)%nat
    | (Ok (inr _), _) | (Err _, _) => True
    | (Panic, _) | (Diverged, _) => False
    end) →
  ∀ fuel a s, Inv a s → (measure s < fuel)%nat → returned (loop_st fuel body a s).1.
Proof.
  intros Hstep. induction fuel as [|fuel IH]; intros a s Ha Hm; [lia|]. simpl.
  specialize (Hstep a s Ha). unfold mbind, ST_bind.
  destruct (body a s) as [[[a'|b]| | |] s']; try done.
  destruct Hstep. apply IH; [done|lia].
Qed.

(** ** Lists *)

Definition len {A} (l : list A) : Z := Z.of_nat (length l).

Lemma len_nonneg {A} (l : list A) : 0 ≤ len l.
Proof. unfold len. lia. Qed.

Lemma len_app {A} (l k : list A) : len (l ++ k) = len l + len k.
Proof. unfold len. rewrite length_app. lia. Qed.

Lemma len_cons {A} (x : A) l : len (x :: l) = 1 + len l.
Proof. unfold len. simpl. lia. Qed.

Definition sumZ (l : list Z) : Z := foldr Z.add 0 l.

Lemma sumZ_cons x l : sumZ (x :: l) = x + sumZ l.
Proof. done. Qed.

Lemma sumZ_app l k : sumZ (l ++ k) = sumZ l + sumZ k.
Proof. induction l as [|x l IH]; simpl; [done|]. unfold sumZ in *. lia. Qed.

Lemma sumZ_nonneg l : Forall (λ z, 0 ≤ z) l → 0 ≤ sumZ l.
Proof. induction 1; unfold sumZ in *; simpl; lia. Qed.

#[global] Instance sumZ_perm : Proper ((≡ₚ) ==> eq) sumZ.
Proof. induction 1; unfold sumZ in *; simpl in *; lia. Qed.

Lemma sumZ_insert l i (x y : Z) : l !! i = Some x → sumZ (<[i := y]> l) = sumZ l - x + y.
Proof.
  revert i. induction l as [|z l IH]; intros [|i] H; simplify_eq/=; unfold sumZ in *; simpl; [lia|].
  rewrite IH by done. lia.
Qed.

(** The sum of a measure over the values of a finite map. *)
Definition map_sum {K A} `{Countable K} (f : A → Z) (m : gmap K A) : Z :=
  sumZ ((λ p, f p.2) <$> map_to_list m).

Section map_sum.
Context {K A} `{Countable K} (f : A → Z).
Implicit Types m : gmap K A.

Lemma map_sum_empty : map_sum f (∅ : gmap K A) = 0.
Proof. unfold map_sum. by rewrite map_to_list_empty. Qed.

Lemma map_sum_insert m k a : m !! k = None → map_sum f (<[k := a]> m) = f a + map_sum f m.
Proof. intros Hk. unfold map_sum. by rewrite map_to_list_insert. Qed.

Lemma map_sum_delete m k a : m !! k = Some a → map_sum f m = f a + map_sum f (delete k m).
Proof.
  intros Hk. rewrite <-(insert_delete_id m k a) at 1 by done.
  apply map_sum_insert, lookup_delete_eq.
Qed.

Lemma map_sum_nonneg m : (∀ a, 0 ≤ f a) → 0 ≤ map_sum f m.
Proof. intros Hf. apply sumZ_nonneg, Forall_fmap, Forall_true. intros [? ?]. apply Hf. Qed.
End map_sum.

(** [l[a..b]]: the slice, and the panic of a range out of bounds. *)
Definition slice {A} (l : list A) (a b : nat) : option (list A) :=
  if (a <=? b)%nat && (b <=? length l)%nat then Some (take (b - a) (drop a l)) else None.

Lemma slice_ok {A} (l : list A) a b :
  (a ≤ b)%nat → (b ≤ length l)%nat → slice l a b = Some (take (b - a) (drop a l)).
Proof. intros. unfold slice. by rewrite !(proj2 (Nat.leb_le _ _)). Qed.

Lemma slice_length {A} (l : list A) a b k :
  slice l a b = Some k → length k = (b - a)%nat ∧ (a ≤ b ≤ length l)%nat.
Proof.
  unfold slice. intros H. destruct (_ && _) eqn:Hb; simplify_eq.
  apply andb_prop in Hb as [H1%Nat.leb_le H2%Nat.leb_le].
  rewrite length_take, length_drop. lia.
Qed.

(** [chunks(n)] of a slice: consecutive pieces of [n], the last one shorter. *)
Fixpoint chunks_fuel {A} (fuel n : nat) (l : list A) : list (list A) :=
  match fuel, l with
  | _, [] => []
  | O, _ => []
  | S fuel, _ => take n l :: chunks_fuel fuel n (drop n l)
  end.
Definition chunks_of {A} (n : nat) (l : list A) : list (list A) :=
  chunks_fuel (length l) n l.

Lemma concat_chunks_fuel {A} fuel n (l : list A) :
  (0 < n)%nat → (length l ≤ fuel)%nat → concat (chunks_fuel fuel n l) = l.
Proof.
  intros Hn. revert l. induction fuel as [|fuel IH]; intros [|x l] Hl; simpl in *; try done; [lia|].
  destruct n as [|n]; [lia|]. rewrite firstn_cons, skipn_cons. simpl. f_equal.
  rewrite IH; [by rewrite take_drop|]. rewrite length_drop. lia.
Qed.

Lemma concat_chunks_of {A} n (l : list A) : (0 < n)%nat → concat (chunks_of n l) = l.
Proof. intros. by apply concat_chunks_fuel. Qed.

Lemma chunks_fuel_bound {A} fuel n (l : list A) :
  Forall (λ c, (length c ≤ n)%nat) (chunks_fuel fuel n l).
Proof.
  revert l. induction fuel as [|fuel IH]; intros [|x l]; simpl; try by constructor.
  constructor; [|apply IH]. rewrite length_take. lia.
Qed.

Lemma chunks_fuel_nonempty {A} fuel n (l : list A) : (0 < n)%nat → Forall (λ c, c ≠ []) (chunks_fuel fuel n l).
Proof.
  intros Hn. revert l. induction fuel as [|fuel IH]; intros [|x l]; simpl; try by constructor.
  constructor; [destruct n; [lia|done]|apply IH].
Qed.

(** What fits is one piece. *)
Lemma chunks_of_piece {A} n (l : list A) : l ≠ [] → (length l ≤ n)%nat → chunks_of n l = [l].
Proof.
  intros Hl Hn. unfold chunks_of. destruct l as [|x l]; [done|]. cbn [length chunks_fuel].
  rewrite take_ge, drop_ge by done. by destruct (length l).
Qed.
