(* ===== verification/RustStd.v ===== *)
(** * The part of Rust's standard library that the program uses

    Machine integers with their wrap-around, bytes and little-endian
    conversions, [str] as its UTF-8 bytes with the methods the sources call
    ([split_once], [strip_prefix], [trim], [from_utf8], ...), radix parsing and
    formatting.  Nothing here is a definition of the program itself. *)

From Stdlib Require Export Strings.Byte.
From S2P Require Import Prelude.

(** ** Bytes *)

#[global] Instance byte_eq_dec : EqDecision byte := Byte.byte_eq_dec.
#[global] Instance byte_countable : Countable byte :=
  inj_countable Byte.to_N Byte.of_N Byte.of_to_N.
#[global] Instance byte_inhabited : Inhabited byte := populate x00.

Abbreviation bytes := (list byte).
(** A Rust [String] or [&str]: its UTF-8 bytes. *)
Abbreviation str := (list byte).

Definition byte_to_Z (b : byte) : Z := Z.of_N (Byte.to_N b).
Definition byte_of_Z (z : Z) : byte := default x00 (Byte.of_N (Z.to_N (z mod 256))).

Lemma byte_to_Z_range b : 0 ≤ byte_to_Z b < 256.
Proof.
  unfold byte_to_Z. pose proof (Byte.to_N_bounded b). lia.
Qed.

Lemma byte_of_to_Z b : byte_of_Z (byte_to_Z b) = b.
Proof. destruct b; vm_compute; reflexivity. Qed.

Lemma byte_to_of_Z z : byte_to_Z (byte_of_Z z) = z mod 256.
Proof.
  unfold byte_to_Z, byte_of_Z. pose proof (Z.mod_pos_bound z 256 ltac:(lia)).
  destruct (Byte.of_N (Z.to_N (z mod 256))) as [b|] eqn:Hb; simpl.
  - apply Byte.to_of_N in Hb. rewrite Hb. lia.
  - apply Byte.of_N_None_iff in Hb. lia.
Qed.

Lemma byte_to_Z_inj b c : byte_to_Z b = byte_to_Z c → b = c.
Proof. intros H. by rewrite <-(byte_of_to_Z b), H, byte_of_to_Z. Qed.

(** A string literal of the source. *)
Definition lit (s : string) : str := String.list_byte_of_string s.

(** ** Machine integers *)

Definition u8_max : Z := 2 ^ 8 - 1.
Definition u32_max : Z := 2 ^ 32 - 1.
Definition u64_max : Z := 2 ^ 64 - 1.
Definition is_u32 (z : Z) : Prop := 0 ≤ z < 2 ^ 32.
Definition is_u64 (z : Z) : Prop := 0 ≤ z < 2 ^ 64.
Definition as_u32 (z : Z) : Z := z mod 2 ^ 32.
Definition as_u64 (z : Z) : Z := z mod 2 ^ 64.
(** [x as i64] of a [u64]. *)
Definition as_i64 (z : Z) : Z :=
  let m := z mod 2 ^ 64 in if m <? 2 ^ 63 then m else m - 2 ^ 64.
Definition saturating_add (a b : Z) : Z := Z.min (a + b) u64_max.
Definition saturating_sub (a b : Z) : Z := Z.max (a - b) 0.

#[global] Instance is_u32_dec z : Decision (is_u32 z).
Proof. unfold is_u32. apply _. Defined.
#[global] Instance is_u64_dec z : Decision (is_u64 z).
Proof. unfold is_u64. apply _. Defined.

Lemma as_u32_id z : is_u32 z → as_u32 z = z.
Proof. apply Z.mod_small. Qed.
Lemma as_u64_id z : is_u64 z → as_u64 z = z.
Proof. apply Z.mod_small. Qed.
Lemma as_u32_range z : is_u32 (as_u32 z).
Proof. apply Z.mod_pos_bound. lia. Qed.
Lemma as_u64_range z : is_u64 (as_u64 z).
Proof. apply Z.mod_pos_bound. lia. Qed.
Lemma as_i64_id z : 0 ≤ z < 2 ^ 63 → as_i64 z = z.
Proof.
  intros. unfold as_i64. rewrite Z.mod_small by lia.
  by rewrite (proj2 (Z.ltb_lt _ _)) by lia.
Qed.

(** Joining bit fields that do not overlap is addition. *)
Lemma lor_shiftl a b n : 0 ≤ n → 0 ≤ a < 2 ^ n → Z.lor a (Z.shiftl b n) = a + b * 2 ^ n.
Proof.
  intros Hn Ha. assert (Hland : Z.land a (Z.shiftl b n) = 0).
  { apply Z.bits_inj'. intros i Hi. rewrite Z.land_spec, Z.bits_0.
    destruct (decide (i < n)); [by rewrite Z.shiftl_spec_low, andb_false_r by lia|].
    rewrite <-(Z.mod_small a (2 ^ n)) by lia. by rewrite Z.mod_pow2_bits_high by lia. }
  pose proof (Z.add_lor_land a (Z.shiftl b n)) as Hadd.
  rewrite Hland, Z.shiftl_mul_pow2 in Hadd by lia. rewrite Z.shiftl_mul_pow2 by lia. lia.
Qed.

(** ** Little-endian integers *)

Fixpoint to_le (n : nat) (z : Z) : bytes :=
  match n with
  | O => []
  | S n => byte_of_Z z :: to_le n (z / 256)
  end.

Fixpoint of_le (l : bytes) : Z :=
  match l with
  | [] => 0
  | b :: l => byte_to_Z b + 256 * of_le l
  end.

Lemma length_to_le n z : length (to_le n z) = n.
Proof. revert z. induction n; intros; simpl; auto. Qed.

Lemma of_le_range l : 0 ≤ of_le l < 256 ^ len l.
Proof.
  induction l as [|b l IH]; [simpl; unfold len; simpl; lia|].
  rewrite len_cons, Z.pow_add_r by (pose proof (len_nonneg l); lia). simpl.
  pose proof (byte_to_Z_range b). lia.
Qed.

Lemma of_to_le n z : of_le (to_le n z) = z mod 256 ^ Z.of_nat n.
Proof.
  revert z. induction n as [|n IH]; intros z; [simpl; by rewrite Z.mod_1_r|].
  simpl to_le. simpl of_le. rewrite IH, byte_to_of_Z.
  rewrite Nat2Z.inj_succ, Z.pow_succ_r by lia.
  pose proof (Z.pow_pos_nonneg 256 (Z.of_nat n) ltac:(lia) ltac:(lia)).
  by rewrite (Z.rem_mul_r z 256 (256 ^ Z.of_nat n)) by lia.
Qed.

Lemma of_to_le_id n z : 0 ≤ z < 256 ^ Z.of_nat n → of_le (to_le n z) = z.
Proof. intros. rewrite of_to_le. by apply Z.mod_small. Qed.

Lemma to_of_le l : to_le (length l) (of_le l) = l.
Proof.
  induction l as [|b l IH]; [done|]. simpl.
  pose proof (byte_to_Z_range b) as Hb. f_equal.
  - apply byte_to_Z_inj. rewrite byte_to_of_Z.
    rewrite (Z.mul_comm 256), Z_mod_plus_full. by apply Z.mod_small.
  - etrans; [|exact IH]. f_equal. rewrite (Z.mul_comm 256), Z_div_plus_full by lia.
    rewrite Z.div_small by lia. lia.
Qed.

Definition u32_le (z : Z) : bytes := to_le 4 z.
Definition u64_le (z : Z) : bytes := to_le 8 z.

Lemma of_le_u32 z : is_u32 z → of_le (u32_le z) = z.
Proof. intros H. apply of_to_le_id. apply H. Qed.
Lemma of_le_u64 z : is_u64 z → of_le (u64_le z) = z.
Proof. intros H. apply of_to_le_id. apply H. Qed.

(** ** Fixed-size arrays *)

(** [let mut out = [0; n]; out.copy_from_slice(s)] for [s] of length [n]. *)
Fixpoint array_of (n : nat) (l : bytes) : vec byte n :=
  match n with
  | O => [#]
  | S n => match l with
           | [] => x00 ::: array_of n []
           | b :: l => b ::: array_of n l
           end
  end.

Lemma array_of_vec {n} (v : vec byte n) : array_of n (vec_to_list v) = v.
Proof. induction v as [|b n v IH]; simpl; [done|by rewrite IH]. Qed.

Lemma vec_array_of n l : length l = n → vec_to_list (array_of n l) = l.
Proof.
  revert l. induction n as [|n IH]; intros [|b l] H; simpl in *; try done.
  by rewrite IH by lia.
Qed.

(** ** Radix formatting and parsing *)

(** The lower-case digit of [z], [0 <= z < 36]. *)
Definition digit_char (z : Z) : byte :=
  if z <? 10 then byte_of_Z (48 + z) else byte_of_Z (87 + z).

(** [char::to_digit(radix)]: upper and lower case letters. *)
Definition to_digit (radix : Z) (c : byte) : option Z :=
  let z := byte_to_Z c in
  let d := if (48 <=? z) && (z <=? 57) then z - 48
           else if (97 <=? z) && (z <=? 122) then z - 87
           else if (65 <=? z) && (z <=? 90) then z - 55
           else radix in
  if d <? radix then Some d else None.

Fixpoint digits (fuel : nat) (radix z : Z) : str :=
  match fuel with
  | O => []
  | S fuel =>
      if z <? radix then [digit_char z]
      else digits fuel radix (z / radix) ++ [digit_char (z mod radix)]
  end.

Definition fmt_radix (radix z : Z) : str := digits (S (Z.to_nat (Z.log2 z))) radix z.
(** [to_string] of an unsigned integer. *)
Definition to_string (z : Z) : str := fmt_radix 10 z.
(** [{:0w$x}]. *)
Definition fmt_0x (w : nat) (z : Z) : str :=
  let d := fmt_radix 16 z in replicate (w - length d) x30 ++ d.
(** [{:02x}] of a byte. *)
Definition fmt_02x (b : byte) : str := fmt_0x 2 (byte_to_Z b).

Fixpoint parse_digits (radix max acc : Z) (s : str) : option Z :=
  match s with
  | [] => Some acc
  | c :: s =>
      d ← to_digit radix c;
      let acc' := acc * radix + d in
      if acc' <=? max then parse_digits radix max acc' s else None
  end.

(** [from_str_radix] of an unsigned type with the given maximum: an optional
    leading plus sign, at least one digit, no overflow. *)
Definition from_str_radix (radix max : Z) (s : str) : option Z :=
  match s with
  | [] => None
  | [c] => if decide (c = x2b) then None else parse_digits radix max 0 s
  | c :: s' => if decide (c = x2b) then parse_digits radix max 0 s'
               else parse_digits radix max 0 s
  end.
(** [str::parse::<u64>]. *)
Definition parse_u64 (s : str) : option Z := from_str_radix 10 u64_max s.

Lemma to_digit_char radix z :
  0 ≤ z < radix → radix ≤ 36 → to_digit radix (digit_char z) = Some z.
Proof.
  intros Hz Hr. unfold to_digit, digit_char. destruct (Z.ltb_spec z 10).
  - rewrite byte_to_of_Z, Z.mod_small by lia.
    replace (_ && _) with true by (symmetry; rewrite andb_true_iff, !Z.leb_le; lia).
    replace (48 + z - 48) with z by lia. by rewrite (proj2 (Z.ltb_lt _ _)) by lia.
  - rewrite byte_to_of_Z, Z.mod_small by lia.
    replace (_ && _) with false by (symmetry; rewrite andb_false_iff, !Z.leb_gt; lia).
    replace (_ && _) with true by (symmetry; rewrite andb_true_iff, !Z.leb_le; lia).
    replace (87 + z - 87) with z by lia. by rewrite (proj2 (Z.ltb_lt _ _)) by lia.
Qed.

Lemma parse_digits_app radix max acc s t :
  parse_digits radix max acc (s ++ t)
  = parse_digits radix max acc s ≫= λ acc', parse_digits radix max acc' t.
Proof.
  revert acc. induction s as [|c s IH]; intros acc; simpl; [done|].
  destruct (to_digit radix c); simpl; [|done]. by case_match.
Qed.

Lemma parse_digits_digits radix max fuel z :
  2 ≤ radix ≤ 36 → 0 ≤ z ≤ max → z < radix ^ Z.of_nat fuel →
  parse_digits radix max 0 (digits fuel radix z) = Some z.
Proof.
  intros Hr. revert z. induction fuel as [|fuel IH]; intros z Hz Hf.
  { change (Z.of_nat 0) with 0 in Hf. rewrite Z.pow_0_r in Hf.
    assert (z = 0) as -> by lia. done. }
  rewrite Nat2Z.inj_succ, Z.pow_succ_r in Hf by lia.
  simpl. destruct (Z.ltb_spec z radix) as [Hs|Hs].
  - simpl. rewrite to_digit_char by lia. simpl. by rewrite (proj2 (Z.leb_le _ _)) by lia.
  - rewrite parse_digits_app, IH; simpl.
    + pose proof (Z.mod_pos_bound z radix ltac:(lia)). rewrite to_digit_char by lia. simpl.
      pose proof (Z.div_mod z radix ltac:(lia)). rewrite (proj2 (Z.leb_le _ _)) by lia.
      f_equal. lia.
    + split; [apply Z.div_pos; lia|]. apply Z.div_le_upper_bound; nia.
    + apply Z.div_lt_upper_bound; lia.
Qed.

Lemma digits_head fuel radix z :
  2 ≤ radix ≤ 36 → 0 ≤ z →
  ∃ d s, digits (S fuel) radix z = digit_char d :: s ∧ 0 ≤ d < radix.
Proof.
  intros Hr. revert z. induction fuel as [|fuel IH]; intros z Hz.
  - simpl. pose proof (Z.mod_pos_bound z radix ltac:(lia)).
    destruct (Z.ltb_spec z radix); simpl; eauto.
  - change (digits (S (S fuel)) radix z) with
      (if z <? radix then [digit_char z]
       else digits (S fuel) radix (z / radix) ++ [digit_char (z mod radix)]).
    destruct (Z.ltb_spec z radix); [eauto|].
    destruct (IH (z / radix)) as (d & s & -> & Hd); [apply Z.div_pos; lia|].
    exists d, (s ++ [digit_char (z mod radix)]). done.
Qed.

Lemma digit_char_not_plus d : 0 ≤ d < 36 → digit_char d ≠ x2b.
Proof.
  intros Hd H%(f_equal byte_to_Z). unfold digit_char in H.
  destruct (Z.ltb_spec d 10); rewrite byte_to_of_Z, Z.mod_small in H by lia;
    change (byte_to_Z x2b) with 43 in H; lia.
Qed.

(** Formatting then parsing gives the number back. *)
Lemma from_str_radix_fmt radix max z :
  2 ≤ radix ≤ 36 → 0 ≤ z ≤ max → from_str_radix radix max (fmt_radix radix z) = Some z.
Proof.
  intros Hr Hz. unfold fmt_radix.
  assert (Hp : parse_digits radix max 0 (digits (S (Z.to_nat (Z.log2 z))) radix z) = Some z).
  { apply parse_digits_digits; [done..|].
    rewrite Nat2Z.inj_succ, Z2Nat.id by apply Z.log2_nonneg.
    destruct (Z.eq_dec z 0) as [->|]; [simpl; lia|].
    pose proof (Z.log2_spec z ltac:(lia)). pose proof (Z.log2_nonneg z).
    apply Z.lt_le_trans with (2 ^ Z.succ (Z.log2 z)); [lia|].
    apply Z.pow_le_mono_l. lia. }
  destruct (digits_head (Z.to_nat (Z.log2 z)) radix z Hr ltac:(lia)) as (d & s & Hd & Hr').
  rewrite Hd in Hp |- *. unfold from_str_radix.
  destruct s; by rewrite decide_False by (apply digit_char_not_plus; lia).
Qed.

Lemma parse_u64_to_string z : is_u64 z → parse_u64 (to_string z) = Some z.
Proof. intros [? ?]. apply from_str_radix_fmt; unfold u64_max; lia. Qed.

(** The four digits of a packet length. *)
Lemma fmt_04x_digits z :
  0 ≤ z < 65536 →
  fmt_0x 4 z = [digit_char (z / 4096); digit_char (z / 256 mod 16);
                digit_char (z / 16 mod 16); digit_char (z mod 16)].
Proof.
  intros Hz. unfold fmt_0x, fmt_radix.
  assert (H0 : digit_char 0 = x30) by reflexivity.
  assert (Hlog : z < 2 ^ Z.succ (Z.log2 z)).
  { destruct (Z.eq_dec z 0) as [->|]; [simpl; lia|]. apply Z.log2_spec. lia. }
  assert (Hstep : ∀ f y, digits (S f) 16 y = if y <? 16 then [digit_char y]
    else digits f 16 (y / 16) ++ [digit_char (y mod 16)]) by done.
  pose proof (Z.log2_nonneg z).
  destruct (Z.ltb_spec z 16) as [Hc1|Hc1].
  { rewrite Hstep, (proj2 (Z.ltb_lt _ _)) by lia. simpl.
    rewrite !(Z.div_small z), Z.mod_small by lia.
    rewrite (Z.mod_small z 16) by lia. by rewrite H0. }
  assert (4 ≤ Z.log2 z) by (change 4 with (Z.log2 16); apply Z.log2_le_mono; lia).
  destruct (Z.to_nat (Z.log2 z)) as [|[|[|f]]] eqn:Hf; [lia..|].
  rewrite Hstep, (proj2 (Z.ltb_ge _ _)) by lia.
  destruct (Z.ltb_spec (z / 16) 16) as [Hc2|Hc2].
  { rewrite Hstep, (proj2 (Z.ltb_lt _ _)) by lia. simpl.
    assert (z < 256) by div_lia.
    rewrite (Z.div_small z 4096), (Z.div_small z 256) by lia.
    rewrite (Z.mod_small (z / 16) 16) by div_lia.
    by rewrite H0. }
  rewrite Hstep, (proj2 (Z.ltb_ge _ _)) by lia.
  rewrite Z.div_div by lia. change (16 * 16) with 256.
  destruct (Z.ltb_spec (z / 256) 16) as [Hc3|Hc3].
  { rewrite Hstep, (proj2 (Z.ltb_lt _ _)) by lia. simpl.
    assert (z < 4096) by div_lia.
    rewrite (Z.div_small z 4096) by lia.
    rewrite (Z.mod_small (z / 256) 16) by div_lia. by rewrite H0. }
  rewrite Hstep, (proj2 (Z.ltb_ge _ _)) by lia.
  rewrite Z.div_div by lia. change (256 * 16) with 4096.
  rewrite Hstep, (proj2 (Z.ltb_lt _ _)) by div_lia. done.
Qed.

(** ** Methods of [str] *)

Fixpoint starts_with (s p : str) {struct p} : bool :=
  match p, s with
  | [], _ => true
  | c :: p, d :: s => bool_decide (c = d) && starts_with s p
  | _ :: _, [] => false
  end.

Definition strip_prefix (s p : str) : option str :=
  if starts_with s p then Some (drop (length p) s) else None.

Definition strip_suffix (s p : str) : option str :=
  if starts_with (rev s) (rev p) then Some (take (length s - length p) s) else None.

(** [contains]. *)
Fixpoint str_contains (s p : str) : bool :=
  starts_with s p || match s with [] => false | _ :: s => str_contains s p end.

(** [split_once(c)] at the first occurrence of an ASCII character. *)
Fixpoint split_once (s : str) (c : byte) : option (str * str) :=
  match s with
  | [] => None
  | d :: s => if decide (d = c) then Some ([], s)
              else '(a, b) ← split_once s c; Some (d :: a, b)
  end.

(** [rsplit_once(c)] at the last occurrence. *)
Definition rsplit_once (s : str) (c : byte) : option (str * str) :=
  '(a, b) ← split_once (rev s) c; Some (rev b, rev a).

Fixpoint trim_start_matches (s : str) (c : byte) : str :=
  match s with
  | [] => []
  | d :: s' => if decide (d = c) then trim_start_matches s' c else s
  end.
Definition trim_end_matches (s : str) (c : byte) : str :=
  rev (trim_start_matches (rev s) c).

(** The number of bytes of a Unicode [White_Space] character at the front. *)
Definition whitespace_len (s : str) : nat :=
  match s with
  | (x09 | x0a | x0b | x0c | x0d | x20) :: _ => 1
  | xc2 :: (x85 | xa0) :: _ => 2
  | xe1 :: x9a :: x80 :: _ => 3
  | xe2 :: x80 :: (x80 | x81 | x82 | x83 | x84 | x85 | x86 | x87 | x88 | x89 | x8a
                   | xa8 | xa9 | xaf) :: _ => 3
  | xe2 :: x81 :: x9f :: _ => 3
  | xe3 :: x80 :: x80 :: _ => 3
  | _ => 0
  end.

Fixpoint trim_start_fuel (fuel : nat) (s : str) : str :=
  match fuel with
  | O => s
  | S fuel => match whitespace_len s with
              | O => s
              | n => trim_start_fuel fuel (drop n s)
              end
  end.
(** [trim_start]: each round removes at least one byte, so the length is fuel enough. *)
Definition trim_start (s : str) : str := trim_start_fuel (length s) s.

(** The same on the reversed string. *)
Definition whitespace_len_rev (r : str) : nat :=
  if decide (whitespace_len (take 1 r) = 1%nat) then 1
  else if decide (whitespace_len (rev (take 2 r)) = 2%nat) then 2
  else if decide (whitespace_len (rev (take 3 r)) = 3%nat) then 3
  else 0.
Fixpoint trim_end_fuel (fuel : nat) (r : str) : str :=
  match fuel with
  | O => r
  | S fuel => match whitespace_len_rev r with
              | O => r
              | n => trim_end_fuel fuel (drop n r)
              end
  end.
Definition trim_end (s : str) : str := rev (trim_end_fuel (length s) (rev s)).
Definition trim (s : str) : str := trim_end (trim_start s).

(** [str::from_utf8] succeeds: the well-formed byte sequences of Unicode, table 3-7. *)
Definition in_range (b : byte) (lo hi : Z) : bool :=
  (lo <=? byte_to_Z b) && (byte_to_Z b <=? hi).
Definition cont (b : byte) : bool := in_range b 128 191.

Fixpoint utf8_valid (s : bytes) : bool :=
  match s with
  | [] => true
  | b0 :: s1 =>
      if in_range b0 0 127 then utf8_valid s1
      else match s1 with
      | [] => false
      | b1 :: s2 =>
          if in_range b0 194 223 then cont b1 && utf8_valid s2
          else match s2 with
          | [] => false
          | b2 :: s3 =>
              if in_range b0 224 224 then in_range b1 160 191 && cont b2 && utf8_valid s3
              else if in_range b0 237 237 then in_range b1 128 159 && cont b2 && utf8_valid s3
              else if in_range b0 225 239 then cont b1 && cont b2 && utf8_valid s3
              else match s3 with
              | [] => false
              | b3 :: s4 =>
                  if in_range b0 240 240
                  then in_range b1 144 191 && cont b2 && cont b3 && utf8_valid s4
                  else if in_range b0 241 243
                  then cont b1 && cont b2 && cont b3 && utf8_valid s4
                  else if in_range b0 244 244
                  then in_range b1 128 143 && cont b2 && cont b3 && utf8_valid s4
                  else false
              end
          end
      end
  end.

Lemma starts_with_spec s p : starts_with s p = true ↔ ∃ k, s = p ++ k.
Proof.
  revert s. induction p as [|c p IH]; intros s; simpl; [split; eauto|].
  destruct s as [|d s]; [naive_solver|]. rewrite andb_true_iff, bool_decide_eq_true, IH.
  naive_solver.
Qed.

Lemma strip_prefix_app p k : strip_prefix (p ++ k) p = Some k.
Proof.
  unfold strip_prefix. rewrite (proj2 (starts_with_spec _ _)) by eauto.
  by rewrite drop_app_length.
Qed.

Lemma strip_prefix_Some s p k : strip_prefix s p = Some k ↔ s = p ++ k.
Proof.
  split; [|intros ->; apply strip_prefix_app]. unfold strip_prefix.
  destruct (starts_with s p) eqn:H; [|done]. intros [= <-].
  apply starts_with_spec in H as [k ->]. by rewrite drop_app_length.
Qed.

Lemma split_once_Some s c a b :
  split_once s c = Some (a, b) ↔ s = a ++ c :: b ∧ c ∉ a.
Proof.
  revert a b. induction s as [|d s IH]; intros a b; simpl.
  - split; [done|]. intros [H _]. by destruct a.
  - case_decide as Hd.
    + subst. split; [intros [= <- <-]; split; [done|set_solver]|].
      intros [H Hn]. destruct a as [|e a]; simplify_eq/=; [done|]. set_solver.
    + destruct (split_once s c) as [[a' b']|] eqn:Hs; simpl.
      * split.
        -- intros [= <- <-]. destruct (proj1 (IH a' b') eq_refl) as [-> ?]. set_solver.
        -- intros [H Hn]. destruct a as [|e a]; simplify_eq/=.
           assert (Some (a', b') = Some (a, b)) as [= -> ->]; [|done].
           apply IH. set_solver.
      * split; [done|]. intros [H Hn]. destruct a as [|e a]; simplify_eq/=.
        assert (None = Some (a, b)); [|done]. apply IH. set_solver.
Qed.

Lemma split_once_None s c : split_once s c = None ↔ c ∉ s.
Proof.
  induction s as [|d s IH]; simpl; [set_solver|]. case_decide; [set_solver|].
  destruct (split_once s c) as [[??]|] eqn:Hs; simpl; [|set_solver].
  apply split_once_Some in Hs as [-> ?]. set_solver.
Qed.

(** ** Decimal text *)

Definition is_digit (c : byte) : bool := in_range c 48 57.

Lemma to_string_is_digits z : 0 ≤ z → Forall (λ c, is_digit c = true) (to_string z).
Proof.
  intros Hz. unfold to_string, fmt_radix. generalize (S (Z.to_nat (Z.log2 z))) as fuel. intros fuel.
  assert (Hd : ∀ d, 0 ≤ d < 10 → is_digit (digit_char d) = true).
  { intros d Hd. unfold is_digit, in_range, digit_char. rewrite (proj2 (Z.ltb_lt _ _)) by lia.
    rewrite byte_to_of_Z, Z.mod_small by lia. apply andb_true_intro. split; apply Z.leb_le; lia. }
  revert z Hz. induction fuel as [|fuel IH]; intros z Hz; cbn [digits]; [constructor|].
  destruct (Z.ltb_spec z 10).
  - constructor; [apply Hd; lia|constructor].
  - apply Forall_app. split; [apply IH, Z.div_pos; lia|]. constructor; [|constructor].
    apply Hd, Z.mod_pos_bound. lia.
Qed.

Lemma to_string_not_in c z : 0 ≤ z → is_digit c = false → c ∉ to_string z.
Proof.
  intros Hz Hc Hin. pose proof (to_string_is_digits z Hz) as H. rewrite Forall_forall in H.
  apply H in Hin. congruence.
Qed.

Lemma to_string_inj a b : is_u64 a → is_u64 b → to_string a = to_string b → a = b.
Proof. intros Ha Hb H. apply parse_u64_to_string in Ha, Hb. congruence. Qed.

Lemma whitespace_len_digits s : Forall (λ c, is_digit c = true) s → whitespace_len s = O.
Proof. intros [|c l Hc _]; [done|]. by destruct c. Qed.

Lemma trim_digits s : Forall (λ c, is_digit c = true) s → trim s = s.
Proof.
  intros Hs. assert (Hst : trim_start s = s).
  { unfold trim_start. destruct (length s); [done|]. cbn [trim_start_fuel]. by rewrite whitespace_len_digits. }
  unfold trim. rewrite Hst. unfold trim_end.
  assert (Hr : whitespace_len_rev (rev s) = O).
  { assert (Hrev : Forall (λ c, is_digit c = true) (rev s)) by by apply Forall_rev.
    assert (Ht : ∀ n, Forall (λ c, is_digit c = true) (rev (take n (rev s))))
      by (intros n; by apply Forall_rev, Forall_take).
    unfold whitespace_len_rev. rewrite (whitespace_len_digits (take 1 _)) by by apply Forall_take.
    by rewrite !(whitespace_len_digits _ (Ht _)). }
  destruct (length s); cbn [trim_end_fuel]; [|rewrite Hr]; by rewrite rev_involutive.
Qed.

(** ** [str::from_utf8] and its error *)

(** Width of the sequence that a non-ASCII byte starts and the range of its second byte. *)
Definition utf8_lead (b : byte) : option (nat * Z * Z) :=
  if in_range b 194 223 then Some (2%nat, 128, 191)
  else if in_range b 224 224 then Some (3%nat, 160, 191)
  else if in_range b 237 237 then Some (3%nat, 128, 159)
  else if in_range b 225 239 then Some (3%nat, 128, 191)
  else if in_range b 240 240 then Some (4%nat, 144, 191)
  else if in_range b 241 243 then Some (4%nat, 128, 191)
  else if in_range b 244 244 then Some (4%nat, 128, 143)
  else None.

(** [Utf8Error]: where the valid prefix ends, and the length of the bad
    sequence, unknown when the input ends in the middle of one. *)
Fixpoint utf8_error (fuel i : nat) (s : bytes) : option (nat * option nat) :=
  match fuel, s with
  | O, _ | _, [] => None
  | S fuel, b0 :: s1 =>
      if in_range b0 0 127 then utf8_error fuel (i + 1) s1
      else match utf8_lead b0, s1 with
      | None, _ => Some (i, Some 1%nat)
      | Some _, [] => Some (i, None)
      | Some (w, lo, hi), b1 :: s2 =>
          if negb (in_range b1 lo hi) then Some (i, Some 1%nat)
          else if (w =? 2)%nat then utf8_error fuel (i + 2) s2
          else match s2 with
          | [] => Some (i, None)
          | b2 :: s3 =>
              if negb (cont b2) then Some (i, Some 2%nat)
              else if (w =? 3)%nat then utf8_error fuel (i + 3) s3
              else match s3 with
              | [] => Some (i, None)
              | b3 :: s4 =>
                  if negb (cont b3) then Some (i, Some 3%nat) else utf8_error fuel (i + 4) s4
              end
          end
      end
  end.

Definition utf8_error_text (s : bytes) : str :=
  match utf8_error (length s) 0 s with
  | Some (i, Some n) => lit "invalid utf-8 sequence of " ++ to_string (Z.of_nat n) ++
      lit " bytes from index " ++ to_string (Z.of_nat i)
  | Some (i, None) => lit "incomplete utf-8 byte sequence from index " ++ to_string (Z.of_nat i)
  | None => []
  end.

Definition from_utf8 (s : bytes) : outcome str str :=
  if utf8_valid s then Ok s else Err (utf8_error_text s).

(** ** Zero-padded hexadecimal *)

Lemma digits_length fuel radix z k :
  2 ≤ radix → 0 ≤ z < radix ^ Z.of_nat (S k) → (length (digits fuel radix z) ≤ S k)%nat.
Proof.
  intros Hr. revert z k. induction fuel as [|fuel IH]; intros z k Hz; [simpl; lia|]. cbn [digits].
  destruct (Z.ltb_spec z radix); [simpl; lia|]. rewrite length_app. simpl.
  destruct k as [|k]; [change (Z.of_nat 1) with 1 in Hz; rewrite Z.pow_1_r in Hz; lia|].
  rewrite Nat2Z.inj_succ, Z.pow_succ_r in Hz by lia.
  pose proof (IH (z / radix) k). assert (0 ≤ z / radix < radix ^ Z.of_nat (S k)); [|lia].
  split; [apply Z.div_pos; lia|]. apply Z.div_lt_upper_bound; lia.
Qed.

Lemma fmt_0x_length w z : 0 ≤ z < 16 ^ Z.of_nat (S w) → length (fmt_0x (S w) z) = S w.
Proof.
  intros Hz. unfold fmt_0x, fmt_radix. rewrite length_app, length_replicate.
  pose proof (digits_length (S (Z.to_nat (Z.log2 z))) 16 z w ltac:(lia) Hz). lia.
Qed.

Lemma parse_digits_zeros max k s : 0 ≤ max → parse_digits 16 max 0 (replicate k x30 ++ s) = parse_digits 16 max 0 s.
Proof.
  intros Hm. induction k as [|k IH]; [done|]. cbn [replicate app parse_digits].
  change (to_digit 16 x30) with (Some 0). cbn [mbind option_bind]. by rewrite (proj2 (Z.leb_le _ _)) by lia.
Qed.

Lemma from_str_radix_0x w max z : 0 ≤ z ≤ max → from_str_radix 16 max (fmt_0x w z) = Some z.
Proof.
  intros Hz. unfold fmt_0x. destruct (w - length (fmt_radix 16 z))%nat as [|k] eqn:Hk; [by apply from_str_radix_fmt|].
  pose proof (from_str_radix_fmt 16 max z ltac:(lia) Hz) as Hf. revert Hf. unfold fmt_radix.
  destruct (digits_head (Z.to_nat (Z.log2 z)) 16 z ltac:(lia) ltac:(lia)) as (d & s & -> & Hd). intros Hf.
  assert (parse_digits 16 max 0 (digit_char d :: s) = Some z) as Hp.
  { unfold from_str_radix in Hf. by destruct s; rewrite decide_False in Hf by (apply digit_char_not_plus; lia). }
  cbn [replicate app from_str_radix]. destruct (replicate k x30 ++ digit_char d :: s) eqn:Hr;
    [by destruct k|]. rewrite decide_False by discriminate. rewrite <-Hr.
  change (x30 :: replicate k x30 ++ digit_char d :: s) with (replicate (S k) x30 ++ digit_char d :: s).
  rewrite parse_digits_zeros by lia. done.
Qed.
