(* ===== verification/RustText.v ===== *)
(** * More of Rust's strings

    Splitting at a separator, lines, words, and the lossy reading of bytes, as
    the command line's modules use them. *)

From stdpp Require Import list.
From S2P Require Import Prelude RustStd.

(** [split_once] at a string. *)
Fixpoint split_once_str (s p : str) : option (str * str) :=
  if starts_with s p then Some ([], drop (length p) s)
  else match s with
  | [] => None
  | c :: s => '(a, b) ← split_once_str s p; Some (c :: a, b)
  end.

(** [lines]: what ends at a line feed, less a carriage return before it; an
    empty rest is no line. *)
Definition strip_cr (l : str) : str := default l (strip_suffix l [x0d]).
Fixpoint lines_from (s line : str) : list str :=
  match s with
  | [] => match line with [] => [] | _ => [line] end
  | c :: s => if decide (c = x0a) then strip_cr line :: lines_from s [] else lines_from s (line ++ [c])
  end.
Definition lines (s : str) : list str := lines_from s [].

(** [split_whitespace]: the maximal runs without white space.  Every round drops
    at least one byte. *)
Fixpoint words_fuel (fuel : nat) (s word : str) : list str :=
  let close := match word with [] => [] | _ => [word] end in
  match fuel, s with
  | O, _ | _, [] => close
  | S fuel, c :: rest =>
      match whitespace_len s with
      | O => words_fuel fuel rest (word ++ [c])
      | n => close ++ words_fuel fuel (drop n s) []
      end
  end.
Definition split_whitespace (s : str) : list str := words_fuel (S (length s)) s [].

(** [split] at an ASCII character. *)
Fixpoint split_char (c : byte) (s : str) : list str :=
  match s with
  | [] => [[]]
  | d :: s => if decide (d = c) then [] :: split_char c s
              else match split_char c s with w :: ws => (d :: w) :: ws | [] => [[d]] end
  end.

(** [from_utf8_lossy]: every bad sequence becomes the replacement character. *)
Definition replacement : str := [xef; xbf; xbd].
Fixpoint lossy_fuel (fuel : nat) (s : bytes) : str :=
  match fuel with
  | O => []
  | S fuel =>
      match utf8_error (length s) 0 s with
      | None => s
      | Some (i, Some n) => take i s ++ replacement ++ lossy_fuel fuel (drop (i + n) s)
      | Some (i, None) => take i s ++ replacement
      end
  end.
Definition from_utf8_lossy (s : bytes) : str := lossy_fuel (S (length s)) s.

Definition u16_max : Z := 2 ^ 16 - 1.
Definition parse_u16 (s : str) : option Z := from_str_radix 10 u16_max s.

(** ** Facts *)

(** A closed decidable fact about literals. *)
Ltac by_lit := apply (bool_decide_unpack _); vm_compute; exact I.

Lemma strip_suffix_app p k : strip_suffix (k ++ p) p = Some k.
Proof.
  unfold strip_suffix. rewrite rev_app_distr.
  assert (starts_with (rev p ++ rev k) (rev p) = true) as -> by (apply starts_with_spec; eauto).
  rewrite length_app, Nat.add_sub. by rewrite take_app_length.
Qed.

Lemma starts_with_app_cons s c p : starts_with (c :: s) (c :: p) = starts_with s p.
Proof. cbn. by rewrite bool_decide_true. Qed.

(** The separator's first byte does not occur before it. *)
Lemma split_once_str_app a c p b : c ∉ a → split_once_str (a ++ (c :: p) ++ b) (c :: p) = Some (a, b).
Proof.
  intros Ha. induction a as [|d a IH].
  - simpl app. cbn [split_once_str]. rewrite starts_with_app_cons.
    rewrite (proj2 (starts_with_spec (p ++ b) p)) by eauto. do 2 f_equal. cbn. by rewrite drop_app_length.
  - change ((d :: a) ++ (c :: p) ++ b) with (d :: (a ++ (c :: p) ++ b)). cbn [split_once_str starts_with].
    rewrite bool_decide_false by set_solver. cbn [andb]. by rewrite IH by set_solver.
Qed.

Lemma str_contains_app a p b : str_contains (a ++ p ++ b) p = true.
Proof.
  induction a as [|d a IH].
  - destruct (p ++ b) as [|x l] eqn:Hp; cbn [app].
    + by destruct p.
    + cbn [str_contains]. rewrite <-Hp. rewrite (proj2 (starts_with_spec (p ++ b) p)) by eauto. done.
  - cbn [app str_contains]. rewrite IH. by rewrite orb_true_r.
Qed.

Lemma str_contains_not s c p : c ∉ s → str_contains s (c :: p) = false.
Proof.
  induction s as [|d s IH]; intros Hc; [done|]. cbn [str_contains starts_with].
  rewrite bool_decide_false by set_solver. cbn [andb orb]. apply IH. set_solver.
Qed.

Lemma rsplit_once_app a b c : c ∉ b → rsplit_once (a ++ c :: b) c = Some (a, b).
Proof.
  intros Hc. unfold rsplit_once. rewrite rev_app_distr. cbn [rev]. rewrite <-app_assoc. cbn [app].
  assert (split_once (rev b ++ c :: rev a) c = Some (rev b, rev a)) as ->.
  { apply split_once_Some. split; [done|]. by rewrite list_elem_of_In, <-in_rev, <-list_elem_of_In. }
  cbn. by rewrite !rev_involutive.
Qed.

Lemma rsplit_once_None b c : c ∉ b → rsplit_once b c = None.
Proof.
  intros Hc. unfold rsplit_once. rewrite (proj2 (split_once_None (rev b) c)); [done|].
  by rewrite list_elem_of_In, <-in_rev, <-list_elem_of_In.
Qed.

(** Text of printable ASCII has nothing to trim. *)
Definition graphic (s : str) : Prop := Forall (λ c, in_range c 33 126 = true) s.
Lemma graphic_app s t : graphic (s ++ t) ↔ graphic s ∧ graphic t.
Proof. apply Forall_app. Qed.

Lemma whitespace_len_graphic s : graphic s → whitespace_len s = O.
Proof. intros Hs. destruct Hs as [|c s Hc _]; [done|]. unfold in_range in Hc. by destruct c. Qed.

Lemma trim_graphic s : graphic s → trim s = s.
Proof.
  intros Hs. unfold trim, trim_start. destruct s as [|c s]; [done|].
  assert (trim_start_fuel (length (c :: s)) (c :: s) = c :: s) as ->.
  { cbn [length trim_start_fuel]. by rewrite whitespace_len_graphic. }
  unfold trim_end. revert Hs. generalize (c :: s) as t. intros t Hs.
  assert (Hr : graphic (rev t)) by (by apply Forall_rev).
  destruct (length t) eqn:Ht; [cbn; by rewrite rev_involutive|]. cbn [trim_end_fuel].
  assert (whitespace_len_rev (rev t) = O) as ->; [|by rewrite rev_involutive].
  unfold whitespace_len_rev.
  rewrite !whitespace_len_graphic; [by rewrite !decide_False by done|..].
  - apply Forall_rev. by apply Forall_take.
  - apply Forall_rev. by apply Forall_take.
  - by apply Forall_take.
Qed.
