(* ===== verification/Core.v ===== *)
(** * Domain types and traits of the server ([crates/bale-server-core])

    The hashes, the rows that travel between the HTTP layer and the stores, the
    error type, and the three traits a server is assembled from.  A trait is a
    class of operations; what its implementations promise to the HTTP layer is
    a second class of laws over an abstract view of the store. *)

From S2P Require Import Prelude RustStd.

(** ** Hashes *)

Definition HASH_LEN : nat := 32.

Record Hash32 := mkHash32 { hash_bytes : vec byte HASH_LEN }.

Definition Hash32_ZERO : Hash32 := mkHash32 (Vector.const x00 HASH_LEN).
Definition Hash32_ALL_ONES : Hash32 := mkHash32 (Vector.const xff HASH_LEN).
Definition as_bytes (h : Hash32) : bytes := vec_to_list (hash_bytes h).
Definition from_bytes (b : vec byte HASH_LEN) : Hash32 := mkHash32 b.

(** [Debug]: plain hex. *)
Definition Hash32_debug (h : Hash32) : str := concat (map fmt_02x (as_bytes h)).

#[global] Instance Hash32_eq_dec : EqDecision Hash32.
Proof. solve_decision. Defined.

(** The hash of 32 bytes copied from a slice. *)
Definition hash_of (l : bytes) : Hash32 := mkHash32 (array_of HASH_LEN l).

Lemma hash_of_as_bytes h : hash_of (as_bytes h) = h.
Proof. destruct h as [v]. unfold hash_of, as_bytes. cbv [hash_bytes]. f_equal. apply array_of_vec. Qed.

Lemma as_bytes_hash_of l : length l = 32%nat → as_bytes (hash_of l) = l.
Proof. intros Hl. unfold hash_of, as_bytes. cbv [hash_bytes]. by apply vec_array_of. Qed.

#[global] Instance Hash32_countable : Countable Hash32 :=
  inj_countable' as_bytes hash_of hash_of_as_bytes.

(** [hash_newtype!]: one wrapper per use of a hash, so that they do not mix. *)
Inductive hash_kind := KChunk | KXorb | KFile | KShard.
Record hash_newtype (k : hash_kind) := newtype { unwrap : Hash32 }.
Arguments newtype {k} _.
Arguments unwrap {k} _.

#[global] Instance hash_newtype_eq_dec k : EqDecision (hash_newtype k).
Proof. solve_decision. Defined.
#[global] Instance hash_newtype_countable k : Countable (hash_newtype k) :=
  inj_countable' unwrap newtype (λ '(newtype _), eq_refl).

Definition ChunkHash := hash_newtype KChunk.
Definition XorbHash := hash_newtype KXorb.
Definition FileHash := hash_newtype KFile.
Definition ShardHash := hash_newtype KShard.

#[global] Instance ChunkHash_eq_dec : EqDecision ChunkHash := _.
#[global] Instance XorbHash_eq_dec : EqDecision XorbHash := _.
#[global] Instance FileHash_eq_dec : EqDecision FileHash := _.
#[global] Instance ShardHash_eq_dec : EqDecision ShardHash := _.
#[global] Instance ChunkHash_countable : Countable ChunkHash := hash_newtype_countable _.
#[global] Instance XorbHash_countable : Countable XorbHash := hash_newtype_countable _.
#[global] Instance FileHash_countable : Countable FileHash := hash_newtype_countable _.
#[global] Instance ShardHash_countable : Countable ShardHash := hash_newtype_countable _.

Lemma length_as_bytes h : length (as_bytes h) = 32%nat.
Proof. apply length_vec_to_list. Qed.

Lemma as_bytes_inj h k : as_bytes h = as_bytes k → h = k.
Proof.
  destruct h, k. unfold as_bytes. simpl. intros H. f_equal. by apply vec_to_list_inj2.
Qed.

(** ** Repositories, scopes and claims *)

Inductive Scope := Read | Write.
Inductive RepoType := Model | Dataset | Space.

#[global] Instance Scope_eq_dec : EqDecision Scope.
Proof. solve_decision. Defined.
#[global] Instance RepoType_eq_dec : EqDecision RepoType.
Proof. solve_decision. Defined.

Record RepoRef := mkRepoRef {
  repo_type : RepoType;
  repo_id : str;
  revision : str;
}.

#[global] Instance RepoRef_eq_dec : EqDecision RepoRef.
Proof. solve_decision. Defined.

(** The namespace before the first slash; also [split_once('/').map_or(...)] in
    the stores. *)
Definition owner_of_id (id : str) : str :=
  match split_once id x2f with
  | Some (owner, _) => owner
  | None => id
  end.
Definition owner (r : RepoRef) : str := owner_of_id (repo_id r).

Record UserId := mkUserId { user_id : str }.

Record TokenClaims := mkTokenClaims {
  claim_user : UserId;
  claim_repo : RepoRef;
  claim_scope : Scope;
  expires_at : Z;
}.

(** ** Rows *)

Record FileTerm := mkFileTerm {
  ft_xorb : XorbHash;
  ft_chunk_idx_start : Z;
  ft_chunk_idx_end : Z;
  ft_unpacked_segment_bytes : Z;
  ft_verification : option Hash32;
}.

Record ChunkRow := mkChunkRow {
  cr_chunk_hash : ChunkHash;
  cr_chunk_index : Z;
  cr_byte_start : Z;
  cr_unpacked_segment_bytes : Z;
}.

Record XorbInfo := mkXorbInfo {
  xi_xorb : XorbHash;
  xi_num_chunks : Z;
  xi_num_bytes_in_cas : Z;
  xi_num_bytes_on_disk : Z;
}.

Record ChunkOffsetRow := mkChunkOffsetRow {
  co_chunk_hash : ChunkHash;
  co_chunk_index : Z;
  co_byte_start : Z;
  co_unpacked_segment_bytes : Z;
}.

Record XorbFrameRow := mkXorbFrameRow {
  xf_frame_index : Z;
  xf_on_disk_start : Z;
  xf_on_disk_len : Z;
  xf_uncompressed_len : Z;
}.

#[global] Instance FileTerm_eq_dec : EqDecision FileTerm.
Proof. solve_decision. Defined.
#[global] Instance ChunkRow_eq_dec : EqDecision ChunkRow.
Proof. solve_decision. Defined.
#[global] Instance XorbInfo_eq_dec : EqDecision XorbInfo.
Proof. solve_decision. Defined.
#[global] Instance ChunkOffsetRow_eq_dec : EqDecision ChunkOffsetRow.
Proof. solve_decision. Defined.
#[global] Instance XorbFrameRow_eq_dec : EqDecision XorbFrameRow.
Proof. solve_decision. Defined.

(** The integer fields are [u32]s. *)
Definition wf_term (t : FileTerm) : Prop :=
  is_u32 (ft_chunk_idx_start t) ∧ is_u32 (ft_chunk_idx_end t) ∧
  is_u32 (ft_unpacked_segment_bytes t).
Definition wf_frame_row (f : XorbFrameRow) : Prop :=
  is_u32 (xf_frame_index f) ∧ is_u32 (xf_on_disk_start f) ∧
  is_u32 (xf_on_disk_len f) ∧ is_u32 (xf_uncompressed_len f).
Definition wf_chunk_row (c : ChunkRow) : Prop :=
  is_u32 (cr_chunk_index c) ∧ is_u32 (cr_byte_start c) ∧ is_u32 (cr_unpacked_segment_bytes c).
Definition wf_xorb_info (i : XorbInfo) : Prop :=
  is_u32 (xi_num_chunks i) ∧ is_u32 (xi_num_bytes_in_cas i) ∧ is_u32 (xi_num_bytes_on_disk i).

(** ** Errors *)

Inductive CoreError :=
  | NotFound
  | Conflict (m : str)
  | BadRequest (m : str)
  | Unauthorized
  | Forbidden
  | Internal (m : str).

#[global] Instance CoreError_eq_dec : EqDecision CoreError.
Proof. solve_decision. Defined.

Abbreviation CoreResult := (outcome CoreError).

(** ** Traits *)

(** [BlobStore].  [presign_xorb_range] has a default, given below. *)
Class BlobStore (B : Type) := {
  put_xorb : XorbHash → bytes → ST B CoreError bool;
  blob_exists : XorbHash → ST B CoreError bool;
  get_xorb_range : XorbHash → Z → Z → ST B CoreError bytes;
  put_shard : ShardHash → bytes → ST B CoreError unit;
  get_shard : ShardHash → ST B CoreError bytes;
  presign_xorb_range : XorbHash → Z → Z → Z → ST B CoreError (option str);
}.

Definition presign_default {B} (h : XorbHash) (a b ttl : Z) : ST B CoreError (option str) :=
  mret None.

(** [MetadataStore]. *)
Class MetadataStore (M : Type) := {
  register_xorb : XorbInfo → list ChunkRow → ST M CoreError unit;
  register_file : FileHash → RepoRef → list FileTerm → ST M CoreError unit;
  register_files : RepoRef → list (FileHash * list FileTerm) → ST M CoreError unit;
  register_xorb_layout : XorbHash → list XorbFrameRow → ST M CoreError unit;
  xorb_frame_layout : XorbHash → ST M CoreError (list XorbFrameRow);
  xorb_frame_layouts : list XorbHash → ST M CoreError (gmap XorbHash (list XorbFrameRow));
  meta_xorb_exists : XorbHash → ST M CoreError bool;
  lookup_file : FileHash → ST M CoreError (option (list FileTerm));
  file_in_repo : FileHash → str → ST M CoreError bool;
  xorbs_near_chunk : ChunkHash → nat → ST M CoreError (list XorbInfo);
  xorb_chunk_offsets : XorbHash → ST M CoreError (list ChunkOffsetRow);
  raw_bytes_for_owner : str → ST M CoreError Z;
  stored_bytes_for_owner : str → ST M CoreError Z;
  get_owner_quota : str → ST M CoreError (option Z);
  set_owner_quota : str → option Z → ST M CoreError unit;
  unaccounted_xorb_bytes_for_owner : str → list XorbHash → ST M CoreError Z;
  raw_bytes_for_repo : str → ST M CoreError Z;
  stored_bytes_for_repo : str → ST M CoreError Z;
  exclusive_stored_bytes_for_repo : str → ST M CoreError Z;
}.

(** The default [register_files]: a loop, one file after the other. *)
Definition register_files_default {M}
    (register_file : FileHash → RepoRef → list FileTerm → ST M CoreError unit)
    (repo : RepoRef) (files : list (FileHash * list FileTerm)) : ST M CoreError unit :=
  for_each (λ '(file_hash, terms), register_file file_hash repo terms) files.

(** The default [xorb_frame_layouts]: a loop that omits empty layouts. *)
Fixpoint xorb_frame_layouts_default {M}
    (xorb_frame_layout : XorbHash → ST M CoreError (list XorbFrameRow))
    (xorbs : list XorbHash) (out : gmap XorbHash (list XorbFrameRow))
    : ST M CoreError (gmap XorbHash (list XorbFrameRow)) :=
  match xorbs with
  | [] => mret out
  | x :: xorbs =>
      rows ← xorb_frame_layout x;
      xorb_frame_layouts_default xorb_frame_layout xorbs
        (match rows with [] => out | _ => <[x := rows]> out end)
  end.

(** [RepoAuthz].  The implementations keep no mutable state. *)
Class RepoAuthz (A : Type) := {
  verify_xet_token : A → str → CoreResult TokenClaims;
  check_repo_access : A → str → RepoRef → Scope → CoreResult UserId;
  mint_xet_token : A → UserId → RepoRef → Scope → CoreResult (str * Z);
}.

(** ** What a blob store promises

    The view is the body under each hash.  A put stores one body and changes no
    other (a store may write again a body whose presence it failed to see); a
    put that fails may have stored its body, since a remote store may lose the
    answer; a read is the clamped range, or nothing for an empty range, of
    which a store need not look at the body; no call panics.  [blob_ok] is the
    implementation's own invariant; [blob_healthy] says that no fault of the
    medium is pending. *)
Definition stored_or_not (body : bytes) (old new : option bytes) : Prop := new = old ∨ new = Some body.

Definition range_answer (x : option bytes) (a b : Z) (r : bytes) : Prop :=
  a ≤ b ∧ ((a = b ∧ r = []) ∨
    ∃ body, x = Some body ∧ a ≤ len body ∧
      slice body (Z.to_nat a) (Z.to_nat (Z.min b (len body))) = Some r).

Lemma range_answer_of body a b r :
  range_answer (Some body) a b r → 0 ≤ a → a ≤ len body →
  slice body (Z.to_nat a) (Z.to_nat (Z.min b (len body))) = Some r.
Proof.
  intros [Hab [[<- ->]|(body' & [= <-] & _ & Hs)]] Ha Hl; [|done].
  unfold len in *. rewrite slice_ok by lia. rewrite Z.min_l by lia. by rewrite Nat.sub_diag.
Qed.

Lemma range_answer_some x a b r :
  range_answer x a b r → a < b → ∃ body, x = Some body ∧ a ≤ len body ∧
    slice body (Z.to_nat a) (Z.to_nat (Z.min b (len body))) = Some r.
Proof. intros [_ [[-> _]|H]] Hlt; [lia|done]. Qed.

Class BlobStoreSpec (B : Type) `{BlobStore B} := {
  blob_ok : B → Prop;
  blob_healthy : B → Prop;
  blob_xorb : B → XorbHash → option bytes;
  blob_shard : B → ShardHash → option bytes;
  put_xorb_spec h body s : blob_ok s →
    wps (put_xorb h body) s
      (λ fresh s', blob_ok s' ∧ (∀ k, blob_shard s' k = blob_shard s k) ∧
        if fresh : bool
        then blob_xorb s' h = Some body ∧ ∀ k, k ≠ h → blob_xorb s' k = blob_xorb s k
        else is_Some (blob_xorb s h) ∧ (∀ k, blob_xorb s' k = blob_xorb s k))
      (λ _ s', blob_ok s' ∧ stored_or_not body (blob_xorb s h) (blob_xorb s' h) ∧
        (∀ k, k ≠ h → blob_xorb s' k = blob_xorb s k) ∧ (∀ k, blob_shard s' k = blob_shard s k));
  blob_exists_spec h s : blob_ok s →
    wps (blob_exists h) s
      (λ b s', blob_ok s' ∧ (b = true → is_Some (blob_xorb s h)) ∧
               (∀ k, blob_xorb s' k = blob_xorb s k) ∧ (∀ k, blob_shard s' k = blob_shard s k))
      (λ _ s', blob_ok s' ∧ (∀ k, blob_xorb s' k = blob_xorb s k) ∧ (∀ k, blob_shard s' k = blob_shard s k));
  get_xorb_range_spec h a b s : blob_ok s → 0 ≤ a →
    wps (get_xorb_range h a b) s
      (λ r s', blob_ok s' ∧ (∀ k, blob_xorb s' k = blob_xorb s k) ∧ (∀ k, blob_shard s' k = blob_shard s k) ∧
        range_answer (blob_xorb s h) a b r)
      (λ _ s', blob_ok s' ∧ (∀ k, blob_xorb s' k = blob_xorb s k) ∧ (∀ k, blob_shard s' k = blob_shard s k));
  get_xorb_range_live h a b s body : blob_ok s → blob_healthy s →
    blob_xorb s h = Some body → 0 ≤ a ≤ b → a ≤ len body → a = b ∨ a < len body →
    is_ok (get_xorb_range h a b s).1 = true;
  put_shard_spec h body s : blob_ok s →
    wps (put_shard h body) s
      (λ _ s', blob_ok s' ∧ (∀ k, blob_xorb s' k = blob_xorb s k) ∧
        (blob_shard s' h = Some body ∨ is_Some (blob_shard s h) ∧ blob_shard s' h = blob_shard s h) ∧
        ∀ k, k ≠ h → blob_shard s' k = blob_shard s k)
      (λ _ s', blob_ok s' ∧ (∀ k, blob_xorb s' k = blob_xorb s k) ∧
        stored_or_not body (blob_shard s h) (blob_shard s' h) ∧
        ∀ k, k ≠ h → blob_shard s' k = blob_shard s k);
  get_shard_spec h s : blob_ok s →
    wps (get_shard h) s
      (λ r s', blob_ok s' ∧ (∀ k, blob_xorb s' k = blob_xorb s k) ∧ (∀ k, blob_shard s' k = blob_shard s k) ∧
        blob_shard s h = Some r)
      (λ _ s', blob_ok s' ∧ (∀ k, blob_xorb s' k = blob_xorb s k) ∧ (∀ k, blob_shard s' k = blob_shard s k));
  presign_spec h a b ttl s : blob_ok s →
    wps (presign_xorb_range h a b ttl) s
      (λ _ s', blob_ok s' ∧ (∀ k, blob_xorb s' k = blob_xorb s k) ∧ (∀ k, blob_shard s' k = blob_shard s k))
      (λ _ s', blob_ok s' ∧ (∀ k, blob_xorb s' k = blob_xorb s k) ∧ (∀ k, blob_shard s' k = blob_shard s k));
}.
