(* ===== verification/Wire.v ===== *)
(** * Wire types ([crates/bale-server-wire])

    The textual form of a hash in paths and JSON (each group of eight bytes
    reversed, then lower-case hex) and the response bodies.  The JSON text
    itself is produced by serde and is not modelled: a response is the value
    that is serialised. *)

From S2P Require Import Prelude RustStd Core.

Inductive HexError := BadLength | BadHex.

#[global] Instance HexError_eq_dec : EqDecision HexError.
Proof. solve_decision. Defined.

(** The texts of [#[error(...)]]. *)
Definition HexError_display (e : HexError) : str :=
  match e with
  | BadLength => lit "hash hex string must be 64 lowercase chars"
  | BadHex => lit "hash hex string contains non-hex characters"
  end.

(** ** Hash text *)

Definition hash_at (h : Hash32) (i : nat) : byte := default x00 (as_bytes h !! i).

Definition encode_hash (h : Hash32) : str :=
  flat_map (λ group, let start := (group * 8)%nat in
    flat_map (λ i, fmt_02x (hash_at h (start + i))) (rev (seq 0 8))) (seq 0 4).

Definition hex_nibble (c : byte) : outcome HexError Z :=
  if in_range c 48 57 then Ok (byte_to_Z c - 48)
  else if in_range c 97 102 then Ok (byte_to_Z c - 97 + 10)
  else Err BadHex.

Definition decode_hash (s : str) : outcome HexError Hash32 :=
  if negb (length s =? HASH_LEN * 2)%nat then Err BadLength
  else
    out ← fold_out (λ out group,
      let str_off := (group * 16)%nat in
      let byte_off := (group * 8)%nat in
      fold_out (λ out i,
        c ← index s (str_off + i * 2);
        hi ← hex_nibble c;
        d ← index s (str_off + i * 2 + 1);
        lo ← hex_nibble d;
        index_set out (byte_off + (7 - i)) (byte_of_Z (Z.lor (Z.shiftl hi 4) lo)))
      out (seq 0 8)) (replicate HASH_LEN x00) (seq 0 4);
    mret (hash_of out).

(** ** Bodies *)

Record RangeJson := mkRangeJson { start : Z; end_ : Z }.

Record CASReconstructionTerm := mkCASReconstructionTerm {
  term_hash : str;
  unpacked_length : Z;
  term_range : RangeJson;
}.

Record CASReconstructionFetchInfo := mkFetchInfo {
  fetch_range : RangeJson;
  fetch_url : str;
  url_range : RangeJson;
}.

Record QueryReconstructionResponse := mkQueryReconstructionResponse {
  offset_into_first_range : Z;
  response_terms : list CASReconstructionTerm;
  fetch_info : gmap str (list CASReconstructionFetchInfo);
}.

Record UploadXorbResponse := mkUploadXorbResponse { was_inserted : bool }.
Record UploadShardResponse := mkUploadShardResponse { shard_result : Z }.

Record XetTokenResponse := mkXetTokenResponse {
  access_token : str;
  token_exp : Z;
  cas_url : str;
}.

Record OwnerUsageResponse := mkOwnerUsageResponse {
  usage_owner : str;
  usage_raw_bytes : Z;
  usage_stored_bytes : Z;
  usage_dedup_savings_bytes : Z;
  usage_quota_bytes : option Z;
}.

Record SetOwnerQuotaRequest := mkSetOwnerQuotaRequest { limit_bytes : option Z }.

Record RepoUsageResponse := mkRepoUsageResponse {
  repo_usage_id : str;
  repo_raw_bytes : Z;
  repo_stored_bytes : Z;
  repo_dedup_savings_bytes : Z;
  repo_exclusive_bytes : Z;
}.

#[global] Instance RangeJson_eq_dec : EqDecision RangeJson.
Proof. solve_decision. Defined.
#[global] Instance CASReconstructionFetchInfo_eq_dec : EqDecision CASReconstructionFetchInfo.
Proof. solve_decision. Defined.

(** ** Lemmas *)

(** One byte of the text: its two digits, as the inner loop reads them. *)
Definition decode_pair (c d : byte) : outcome HexError byte :=
  hi ← hex_nibble c;
  lo ← hex_nibble d;
  mret (byte_of_Z (Z.lor (Z.shiftl hi 4) lo)).

Lemma hex_nibble_range c n : hex_nibble c = Ok n → 0 ≤ n < 16.
Proof.
  unfold hex_nibble, in_range. intros H.
  repeat case_match; simplify_eq; rewrite andb_true_iff, !Z.leb_le in *; lia.
Qed.

Lemma hex_nibble_digit n : 0 ≤ n < 16 → hex_nibble (digit_char n) = Ok n.
Proof.
  intros Hn. assert (Hall : forallb (λ n, bool_decide (hex_nibble (digit_char n) = Ok n))
    (map Z.of_nat (seq 0 16)) = true) by (vm_compute; reflexivity).
  rewrite forallb_forall in Hall. eapply bool_decide_eq_true_1, Hall, in_map_iff.
  exists (Z.to_nat n). split; [lia|]. apply in_seq. lia.
Qed.

(** Only the lower-case digits are accepted. *)
Lemma hex_nibble_Ok c n : hex_nibble c = Ok n ↔ c = digit_char n ∧ 0 ≤ n < 16.
Proof.
  split.
  - intros H. split; [|by eapply hex_nibble_range].
    destruct c; vm_compute in H; try discriminate H; injection H as <-; reflexivity.
  - intros [-> ?]. by apply hex_nibble_digit.
Qed.

Lemma fmt_02x_digits b :
  fmt_02x b = [digit_char (byte_to_Z b / 16); digit_char (byte_to_Z b mod 16)].
Proof. destruct b; reflexivity. Qed.

Lemma nibbles_of_byte hi lo :
  0 ≤ hi < 16 → 0 ≤ lo < 16 →
  byte_to_Z (byte_of_Z (Z.lor (Z.shiftl hi 4) lo)) = 16 * hi + lo.
Proof.
  intros Hh Hl. rewrite Z.lor_comm, lor_shiftl by lia. change (2 ^ 4) with 16.
  rewrite byte_to_of_Z, Z.mod_small; lia.
Qed.

(** One byte of the text is its two digits. *)
Lemma decode_pair_fmt c d b : decode_pair c d = Ok b ↔ fmt_02x b = [c; d].
Proof.
  rewrite fmt_02x_digits. unfold decode_pair. split.
  - intros H. inv_ok. apply hex_nibble_Ok in H0 as [-> ?], H1 as [-> ?].
    rewrite nibbles_of_byte by done. f_equal; [|f_equal]; f_equal; div_lia.
  - intros [= <- <-]. pose proof (byte_to_Z_range b).
    rewrite !hex_nibble_digit by div_lia. unfold mbind, outcome_bind, mret, outcome_ret.
    f_equal. apply byte_to_Z_inj. rewrite nibbles_of_byte by div_lia. div_lia.
Qed.

(** The byte that the decoder reads at a place of the text. *)
Definition read_byte (s : str) (p : nat * nat) : outcome HexError byte :=
  c ← index s (p.1 * 16 + p.2 * 2);
  hi ← hex_nibble c;
  d ← index s (p.1 * 16 + p.2 * 2 + 1);
  lo ← hex_nibble d;
  mret (byte_of_Z (Z.lor (Z.shiftl hi 4) lo)).

(** The places in the order of the loops. *)
Definition places : list (nat * nat) := flat_map (λ g, pair g <$> seq 0 8) (seq 0 4).

Lemma decode_hash_fold s :
  decode_hash s = if negb (length s =? 64)%nat then Err BadLength else
    out ← fold_out (λ out p, b ← read_byte s p; index_set out (p.1 * 8 + (7 - p.2)) b)
            (replicate 32 x00) places;
    mret (hash_of out).
Proof.
  unfold decode_hash. change (HASH_LEN * 2)%nat with 64%nat. destruct (negb _); [done|].
  f_equal. rewrite (fold_out_nested (λ group out i, _)). apply fold_out_ext.
  intros out p. unfold read_byte.
  repeat (rewrite ?outcome_bind_assoc; apply outcome_bind_ext; intros ?). done.
Qed.

Lemma read_byte_Ok s p b :
  read_byte s p = Ok b ↔
  ∃ c d, s !! (p.1 * 16 + p.2 * 2)%nat = Some c ∧ s !! (p.1 * 16 + p.2 * 2 + 1)%nat = Some d ∧
         fmt_02x b = [c; d].
Proof.
  setoid_rewrite <-decode_pair_fmt. unfold read_byte, index, decode_pair.
  generalize (p.1 * 16 + p.2 * 2)%nat. intros i.
  destruct (s !! i) as [c|] eqn:Hc; [|simpl; naive_solver].
  destruct (s !! (i + 1)%nat) as [d|] eqn:Hd; simpl.
  - split; [intros H; exists c, d; done|]. intros (c' & d' & Hc' & Hd' & H). simplify_eq. done.
  - split; [|naive_solver]. destruct (hex_nibble c); simpl; intros; discriminate.
Qed.

(** The text of a hash holds each byte's digits at the place the decoder reads. *)
Lemma encode_hash_places s h :
  s = encode_hash h ↔ length s = 64%nat ∧
  Forall (λ p, ∃ c d, s !! (p.1 * 16 + p.2 * 2)%nat = Some c ∧
    s !! (p.1 * 16 + p.2 * 2 + 1)%nat = Some d ∧
    fmt_02x (hash_at h (p.1 * 8 + (7 - p.2))) = [c; d]) places.
Proof.
  unfold encode_hash. cbn [flat_map seq rev app Nat.mul Nat.add].
  unfold places. cbn [flat_map seq app fmap list_fmap].
  split.
  - intros ->. rewrite !fmt_02x_digits. split; [reflexivity|].
    repeat (apply Forall_cons; split; [do 2 eexists; split_and!; [reflexivity..|apply fmt_02x_digits]|]).
    by apply Forall_nil.
  - intros [Hlen Hp]. do 64 (destruct s as [|? s]; [discriminate|]).
    destruct s; [clear Hlen|discriminate].
    repeat (apply Forall_cons in Hp; destruct Hp as [(? & ? & ? & ? & ?) Hp]).
    cbn [fst snd Nat.mul Nat.add Nat.sub lookup list_lookup] in *.
    repeat match goal with H : Some _ = Some _ |- _ => injection H as <- end.
    by repeat match goal with H : fmt_02x _ = _ |- _ => rewrite H; clear H end.
Qed.

Lemma places_nodup : NoDup ((λ p, p.1 * 8 + (7 - p.2))%nat <$> places).
Proof. apply (bool_decide_unpack _). vm_compute. exact I. Qed.

Lemma places_cover i : (i < 32)%nat → i ∈ (λ p, p.1 * 8 + (7 - p.2))%nat <$> places.
Proof.
  intros Hi. assert (H : Forall (λ i, i ∈ (λ p, p.1 * 8 + (7 - p.2))%nat <$> places) (seq 0 32))
    by (apply (bool_decide_unpack _); vm_compute; exact I).
  rewrite Forall_forall in H. apply H, elem_of_seq. lia.
Qed.

Lemma decode_hash_spec s h : decode_hash s = Ok h ↔ s = encode_hash h.
Proof.
  rewrite encode_hash_places, decode_hash_fold.
  destruct (Nat.eqb_spec (length s) 64) as [Hl|Hl]; simpl negb; cbv iota; [|naive_solver].
  assert (Hlt : Forall (λ p, p.1 * 8 + (7 - p.2) < length (replicate 32 x00))%nat places)
    by (apply (bool_decide_unpack _); vm_compute; exact I).
  rewrite outcome_bind_Ok. setoid_rewrite fold_out_set; [|exact places_nodup|exact Hlt].
  rewrite length_replicate. setoid_rewrite read_byte_Ok. unfold mret, outcome_ret. split.
  - intros (out & (Hlen & Hf & _) & [= <-]). split; [done|].
    eapply Forall_impl; [exact Hf|]. intros p (b & Hb & Hcd). unfold hash_at.
    rewrite as_bytes_hash_of by done. by rewrite Hb.
  - intros [_ Hf]. exists (as_bytes h). split; [split_and!|].
    + apply length_as_bytes.
    + rewrite Forall_forall in Hf, Hlt |- *. intros p Hp. exists (hash_at h (p.1 * 8 + (7 - p.2))).
      split; [|by apply Hf]. specialize (Hlt p Hp). rewrite length_replicate in Hlt.
      unfold hash_at. destruct (as_bytes h !! _) as [b|] eqn:Hb; [done|].
      apply lookup_ge_None in Hb. rewrite length_as_bytes in Hb. lia.
    + intros j Hj. destruct (decide (j < 32)%nat) as [Hj'|].
      * by destruct Hj; apply places_cover.
      * rewrite !lookup_ge_None_2; [done|..]; rewrite ?length_replicate, ?length_as_bytes; lia.
    + by rewrite hash_of_as_bytes.
Qed.

Lemma encode_decode_hash h : decode_hash (encode_hash h) = Ok h.
Proof. by apply decode_hash_spec. Qed.

Lemma encode_hash_inj h k : encode_hash h = encode_hash k → h = k.
Proof.
  intros H. pose proof (encode_decode_hash h) as Hh. rewrite H, encode_decode_hash in Hh.
  congruence.
Qed.

(** The decoder never indexes outside the text or the array. *)
Lemma decode_hash_returns s : wp (decode_hash s) (λ _, True)
  (λ e, e = if decide (length s = 64%nat) then BadHex else BadLength).
Proof.
  rewrite decode_hash_fold.
  destruct (Nat.eqb_spec (length s) 64) as [Hl|Hl]; simpl negb; cbv iota.
  2: { simpl. by rewrite decide_False. }
  rewrite decide_True by done. apply wp_bind.
  eapply wp_mono; [|done|done].
  apply (wp_fold_out _ (λ out, length out = 32%nat)); [|apply length_replicate].
  intros out p Hp Hout.
  assert (Hb : (p.1 < 4 ∧ p.2 < 8)%nat).
  { assert (H : Forall (λ p, p.1 < 4 ∧ p.2 < 8)%nat places)
      by (apply (bool_decide_unpack _); vm_compute; exact I).
    rewrite Forall_forall in H. by apply H. }
  unfold read_byte, index.
  destruct (lookup_lt_is_Some_2 s (p.1 * 16 + p.2 * 2)) as [c ->]; [lia|].
  destruct (lookup_lt_is_Some_2 s (p.1 * 16 + p.2 * 2 + 1)) as [d ->]; [lia|].
  assert (Hn : ∀ c, wp (hex_nibble c) (λ _, True) (λ e, e = BadHex))
    by (intros x; unfold hex_nibble; by repeat case_match).
  rewrite wp_bind. cbn [or_panic mbind outcome_bind].
  rewrite wp_bind. eapply wp_mono; [apply Hn| |done]. intros hi _.
  rewrite wp_bind. eapply wp_mono; [apply Hn| |done]. intros lo _. simpl.
  unfold index_set. rewrite (proj2 (Nat.ltb_lt _ _)) by lia. simpl. by rewrite length_insert.
Qed.

(** Hash text is canonical and its decoder is total: a string decodes to a
    hash exactly when it is the encoding of that hash (so encoding then decoding
    gives the hash back, and upper-case digits are rejected), and otherwise the
    answer is [BadLength] or [BadHex] by the length alone, never a panic. *)
Theorem decode_hash_canonical s :
  match decode_hash s with
  | Ok h => s = encode_hash h
  | Err e => (∀ h, s ≠ encode_hash h) ∧
             e = if decide (length s = 64%nat) then BadHex else BadLength
  | _ => False
  end.
Proof.
  pose proof (decode_hash_returns s) as Hr.
  destruct (decode_hash s) as [h|e| |] eqn:Hd; try done.
  - by apply decode_hash_spec.
  - split; [|done]. intros h ->. by rewrite encode_decode_hash in Hd.
Qed.
