(* ===== verification/Xorb.v ===== *)
(** * Xorb bodies ([crates/bale-server-shard/src/xorb.rs])

    The frame parser, the content-hash check of an upload and the
    decompression of the bytes of a reconstruction term.  The hash functions
    and the decompressors belong to [xet_core_structures] and are parameters. *)

From S2P Require Import Prelude RustStd Core.

Record XorbChunkFrame := mkXorbChunkFrame {
  on_disk_start : Z;
  on_disk_len : Z;
  uncompressed_len : Z;
  compression_scheme : byte;
}.

#[global] Instance XorbChunkFrame_eq_dec : EqDecision XorbChunkFrame.
Proof. solve_decision. Defined.

Inductive XorbParseError :=
  | Empty
  | Truncated (frame_index need have_ : Z)
  | BadCompressionScheme (frame_index : Z) (scheme : byte)
  | TooLarge (actual max : Z).

Inductive XorbVerifyError :=
  | Parse (e : XorbParseError)
  | DecompressFailed (frame_index : Z) (message : str)
  | LengthMismatch (frame_index declared actual : Z)
  | HashMismatch.

Definition XorbParseError_display (e : XorbParseError) : str :=
  match e with
  | Empty => lit "xorb contained no chunk frames"
  | Truncated i need have_ =>
      lit "frame " ++ to_string i ++ lit " truncated: declared " ++ to_string need
      ++ lit " bytes, only " ++ to_string have_ ++ lit " remain"
  | BadCompressionScheme i scheme =>
      lit "frame " ++ to_string i ++ lit " has invalid compression scheme " ++ to_string (byte_to_Z scheme)
  | TooLarge actual max =>
      lit "xorb body exceeds " ++ to_string max ++ lit " bytes (" ++ to_string actual ++ lit " given)"
  end.

Definition XorbVerifyError_display (e : XorbVerifyError) : str :=
  match e with
  | Parse e => XorbParseError_display e
  | DecompressFailed i message => lit "frame " ++ to_string i ++ lit " failed to decompress: " ++ message
  | LengthMismatch i declared actual =>
      lit "frame " ++ to_string i ++ lit " length mismatch: header declared " ++ to_string declared
      ++ lit ", decompressed " ++ to_string actual
  | HashMismatch => lit "xorb content hash does not match URL hash"
  end.

#[global] Instance XorbParseError_eq_dec : EqDecision XorbParseError.
Proof. solve_decision. Defined.
#[global] Instance XorbVerifyError_eq_dec : EqDecision XorbVerifyError.
Proof. solve_decision. Defined.

(** ** The frame parser *)

Definition HEADER_LEN : nat := 8.

Definition u24_le {E} (b : bytes) : outcome E Z :=
  b0 ← index b 0;
  b1 ← index b 1;
  b2 ← index b 2;
  mret (Z.lor (Z.lor (byte_to_Z b0) (Z.shiftl (byte_to_Z b1) 8)) (Z.shiftl (byte_to_Z b2) 16)).

(** [usize::checked_add] on a 64-bit target. *)
Definition usize_checked_add (a b : Z) : option Z :=
  if a + b <=? u64_max then Some (a + b) else None.

(** One round of the [while] loop; the state is the frames so far and [pos]. *)
Definition parse_step (body : bytes) (st : list XorbChunkFrame * nat)
    : outcome XorbParseError (list XorbChunkFrame * nat + list XorbChunkFrame) :=
  let '(frames, pos) := st in
  if negb (pos + HEADER_LEN <=? length body)%nat then mret (inr frames)
  else
    header ← or_panic (slice body pos (pos + HEADER_LEN));
    version ← index header 0;
    if negb (bool_decide (version = x00)) then mret (inr frames)
    else
      h1 ← or_panic (slice header 1 4);
      compressed_length ← u24_le h1;
      scheme ← index header 4;
      h5 ← or_panic (slice header 5 8);
      uncompressed_length ← u24_le h5;
      if negb (in_range scheme 0 2) then Err (BadCompressionScheme (len frames) scheme)
      else
        frame_len ← ok_or (Truncated (len frames) u64_max (len body - Z.of_nat pos))
          (usize_checked_add (Z.of_nat HEADER_LEN) compressed_length);
        if len body <? Z.of_nat pos + frame_len
        then Err (Truncated (len frames) frame_len (len body - Z.of_nat pos))
        else mret (inl (frames ++ [mkXorbChunkFrame (as_u32 (Z.of_nat pos)) (as_u32 frame_len)
                                     uncompressed_length scheme],
                        (pos + Z.to_nat frame_len)%nat)).

Definition parse_xorb_frames (body : bytes) : outcome XorbParseError (list XorbChunkFrame) :=
  if u32_max <? len body then Err (TooLarge (len body) u32_max)
  else
    frames ← loop_out (S (length body)) (parse_step body) ([], O);
    match frames with
    | [] => Err Empty
    | _ => mret frames
    end.

(** ** Hash check and decompression *)

Inductive CompressionScheme := SchemeNone | LZ4 | ByteGrouping4LZ4.

(** [match f.compression_scheme { ... }]. *)
Definition scheme_of (i : nat) (f : XorbChunkFrame) : outcome XorbVerifyError CompressionScheme :=
  match compression_scheme f with
  | x00 => mret SchemeNone
  | x01 => mret LZ4
  | x02 => mret ByteGrouping4LZ4
  | other => Err (Parse (BadCompressionScheme (Z.of_nat i) other))
  end.

Section verify.
(** [xet_core_structures]: the Merkle hash type with its conversion from 32
    bytes, the two hash functions, and [CompressionScheme::decompress_from_slice]. *)
Context {MerkleHash : Type} `{!EqDecision MerkleHash}.
Variable merkle_from : Hash32 → MerkleHash.
Variable compute_data_hash : bytes → MerkleHash.
Variable compute_xorb_merkle_hash : list (MerkleHash * Z) → MerkleHash.
Variable decompress_from_slice : CompressionScheme → bytes → outcome str bytes.

(** The part that the loops of both functions share: the payload of a frame,
    decompressed, with the length its header declares. *)
Definition decompress_frame (body : bytes) (i : nat) (f : XorbChunkFrame)
    : outcome XorbVerifyError bytes :=
  let payload_start := (Z.to_nat (on_disk_start f) + HEADER_LEN)%nat in
  let payload_end := (Z.to_nat (on_disk_start f) + Z.to_nat (on_disk_len f))%nat in
  payload ← or_panic (slice body payload_start payload_end);
  scheme ← scheme_of i f;
  decompressed ← map_err (DecompressFailed (Z.of_nat i)) (decompress_from_slice scheme payload);
  if negb (len decompressed =? uncompressed_len f)
  then Err (LengthMismatch (Z.of_nat i) (uncompressed_len f) (len decompressed))
  else mret decompressed.

Definition verify_xorb_body (body : bytes) (expected : XorbHash)
    : outcome XorbVerifyError unit :=
  frames ← map_err Parse (parse_xorb_frames body);
  entries ← fold_out (λ entries (p : nat * XorbChunkFrame),
    decompressed ← decompress_frame body p.1 p.2;
    let chunk_hash := compute_data_hash decompressed in
    mret (entries ++ [(chunk_hash, len decompressed)])) [] (imap pair frames);
  let computed := compute_xorb_merkle_hash entries in
  let expected_mh := merkle_from (unwrap expected) in
  if negb (bool_decide (computed = expected_mh)) then Err HashMismatch else mret tt.

(** [out] is the caller's buffer: what was appended before an error stays. *)
Definition decompress_xorb_chunks_into (body : bytes) : ST bytes XorbVerifyError unit :=
  frames ← lift (map_err Parse (parse_xorb_frames body));
  for_each (λ p : nat * XorbChunkFrame,
    decompressed ← lift (decompress_frame body p.1 p.2);
    modify (λ out, out ++ decompressed)) (imap pair frames).
End verify.

(** ** The grammar of a body

    A frame as the uploader wrote it: scheme, declared length and payload. *)
Record chunk := mkChunk { ck_scheme : byte; ck_ulen : Z; ck_payload : bytes }.

Definition frame_bytes (c : chunk) : bytes :=
  x00 :: to_le 3 (len (ck_payload c)) ++ ck_scheme c :: to_le 3 (ck_ulen c) ++ ck_payload c.

Definition wf_chunk (c : chunk) : Prop :=
  len (ck_payload c) < 2 ^ 24 ∧ 0 ≤ ck_ulen c < 2 ^ 24 ∧ in_range (ck_scheme c) 0 2 = true.

Definition body_of (cs : list chunk) : bytes := flat_map frame_bytes cs.

(** What may follow the frames: fewer than eight bytes, or a non-zero version. *)
Definition footer_ok (t : bytes) : Prop := (length t < 8)%nat ∨ ∃ v r, t = v :: r ∧ v ≠ x00.

Fixpoint layout_from (pos : Z) (cs : list chunk) : list XorbChunkFrame :=
  match cs with
  | [] => []
  | c :: cs => mkXorbChunkFrame pos (8 + len (ck_payload c)) (ck_ulen c) (ck_scheme c)
                 :: layout_from (pos + 8 + len (ck_payload c)) cs
  end.

(** ** Lemmas *)

Lemma u24_le_of_le {E} a b c : u24_le (E:=E) [a; b; c] = Ok (of_le [a; b; c]).
Proof.
  unfold u24_le, index. simpl. unfold mret, outcome_ret. f_equal.
  pose proof (byte_to_Z_range a). pose proof (byte_to_Z_range b). pose proof (byte_to_Z_range c).
  rewrite (lor_shiftl (byte_to_Z a)) by lia. rewrite lor_shiftl by lia. lia.
Qed.

(** One round of the loop at the end of [pre], by the bytes that follow. *)
Lemma parse_step_app pre rest frames :
  len (pre ++ rest) ≤ u32_max →
  parse_step (pre ++ rest) (frames, length pre) =
  match rest with
  | v :: a1 :: a2 :: a3 :: sc :: b1 :: b2 :: b3 :: r =>
      if decide (v = x00) then
        if in_range sc 0 2 then
          let cl := of_le [a1; a2; a3] in
          if len r <? cl then Err (Truncated (len frames) (8 + cl) (len rest))
          else Ok (inl (frames ++ [mkXorbChunkFrame (len pre) (8 + cl) (of_le [b1; b2; b3]) sc],
                        length pre + Z.to_nat (8 + cl))%nat)
        else Err (BadCompressionScheme (len frames) sc)
      else Ok (inr frames)
  | _ => Ok (inr frames)
  end.
Proof.
  intros Hmax. unfold parse_step, HEADER_LEN. rewrite length_app.
  destruct (Nat.leb_spec (length pre + 8) (length pre + length rest)) as [Hl|Hl]; simpl negb; cbv iota.
  2: { do 8 (destruct rest as [|? rest]; [done|]). simpl in Hl. lia. }
  destruct rest as [|v [|b0 [|b1 [|b2 [|sc [|c0 [|c1 [|c2 rest]]]]]]]]; try (simpl in Hl; lia).
  rewrite slice_ok by (rewrite ?length_app; simpl; lia).
  rewrite drop_app_length. replace (length pre + 8 - length pre)%nat with 8%nat by lia.
  cbn [take firstn or_panic mbind outcome_bind index lookup list_lookup].
  change (slice (?a :: ?b :: ?c :: ?d :: ?e) 1 4) with (Some [b; c; d]).
  change (slice (?a :: ?b :: ?c :: ?d :: ?e :: ?f :: ?g :: ?h :: _) 5 8) with (Some [f; g; h]).
  cbn [or_panic mbind outcome_bind]. rewrite !u24_le_of_le. cbn [mbind outcome_bind].
  destruct (decide _) as [->|Hv]; [rewrite bool_decide_true by done|by rewrite bool_decide_false by done].
  cbn [negb]. destruct (in_range _ 0 2); [|done]. cbn [negb].
  set (cl := of_le [b0; b1; b2]).
  assert (Hcl : 0 ≤ cl < 2 ^ 24) by (apply (of_le_range [_; _; _])).
  rewrite len_app, !len_cons in *. pose proof (len_nonneg pre). pose proof (len_nonneg rest).
  unfold usize_checked_add. rewrite (proj2 (Z.leb_le _ _)) by (unfold u64_max; lia).
  cbn [ok_or mbind outcome_bind]. change (Z.of_nat (length pre)) with (len pre).
  change (Z.of_nat 8) with 8. unfold u32_max in Hmax.
  destruct (Z.ltb_spec (len rest) cl) as [Hlt|Hlt].
  - rewrite (proj2 (Z.ltb_lt _ _)) by lia. do 2 f_equal. lia.
  - rewrite (proj2 (Z.ltb_ge _ _)) by lia.
    by rewrite !as_u32_id by (unfold is_u32; lia).
Qed.

Lemma length_frame_bytes c : length (frame_bytes c) = (8 + length (ck_payload c))%nat.
Proof. unfold frame_bytes. cbn [length]. rewrite length_app, length_to_le. cbn [length]. rewrite length_app, length_to_le. lia. Qed.

Lemma to_le_3 z : to_le 3 z = [byte_of_Z z; byte_of_Z (z / 256); byte_of_Z (z / 256 / 256)].
Proof. done. Qed.

(** The header of a well-formed frame is read back. *)
Lemma parse_step_frame pre c rest frames :
  wf_chunk c → len (pre ++ frame_bytes c ++ rest) ≤ u32_max →
  parse_step (pre ++ frame_bytes c ++ rest) (frames, length pre) =
  Ok (inl (frames ++ [mkXorbChunkFrame (len pre) (8 + len (ck_payload c)) (ck_ulen c) (ck_scheme c)],
           length (pre ++ frame_bytes c))).
Proof.
  intros (Hp & Hu & Hs) Hmax. rewrite parse_step_app by done.
  unfold frame_bytes at 1. rewrite !to_le_3. cbn [app]. rewrite decide_True by done.
  pose proof (len_nonneg (ck_payload c)).
  rewrite Hs, <-!to_le_3, !(of_to_le_id 3) by (change (256 ^ Z.of_nat 3) with (2 ^ 24); lia).
  cbv zeta.
  rewrite len_app. pose proof (len_nonneg rest). rewrite (proj2 (Z.ltb_ge _ _)) by lia.
  rewrite length_app, length_frame_bytes. do 3 f_equal. unfold len. lia.
Qed.

(** A round that goes on has read a well-formed frame. *)
Lemma parse_step_inl pre rest frames st :
  len (pre ++ rest) ≤ u32_max →
  parse_step (pre ++ rest) (frames, length pre) = Ok (inl st) →
  ∃ c rest', wf_chunk c ∧ rest = frame_bytes c ++ rest' ∧
    st = (frames ++ [mkXorbChunkFrame (len pre) (8 + len (ck_payload c)) (ck_ulen c) (ck_scheme c)],
          length (pre ++ frame_bytes c)).
Proof.
  intros Hmax. rewrite parse_step_app by done.
  destruct rest as [|v [|a0 [|a1 [|a2 [|sc [|c0 [|c1 [|c2 rest]]]]]]]]; try done.
  case_decide as Hv; [subst v|done]. destruct (in_range sc 0 2) eqn:Hsc; [|done]. cbv zeta.
  destruct (Z.ltb_spec (len rest) (of_le [a0; a1; a2])) as [|Hl]; [done|].
  pose proof (of_le_range [a0; a1; a2]) as Hr. pose proof (of_le_range [c0; c1; c2]) as Hr'.
  set (cl := of_le [a0; a1; a2]) in *. set (ul := of_le [c0; c1; c2]) in *.
  change (256 ^ len [_; _; _]) with (2 ^ 24) in *. intros [= <-].
  set (c := mkChunk sc ul (take (Z.to_nat cl) rest)).
  assert (Hpl : len (take (Z.to_nat cl) rest) = cl) by (unfold len in *; rewrite length_take; lia).
  assert (Heq : frame_bytes c = x00 :: [a0; a1; a2] ++ sc :: [c0; c1; c2] ++ take (Z.to_nat cl) rest).
  { unfold frame_bytes, c. simpl ck_payload. simpl ck_ulen. rewrite Hpl. unfold cl, ul.
    by rewrite !(to_of_le [_; _; _]). }
  exists c, (drop (Z.to_nat cl) rest). split; [|split].
  - unfold wf_chunk. simpl. rewrite Hpl. lia || (split_and!; [lia..|done]).
  - rewrite Heq. simpl. by rewrite take_drop.
  - rewrite length_app, length_frame_bytes. simpl ck_payload. rewrite Hpl.
    f_equal. unfold len in Hpl. lia.
Qed.

Lemma parse_step_inr pre rest frames fs :
  len (pre ++ rest) ≤ u32_max →
  parse_step (pre ++ rest) (frames, length pre) = Ok (inr fs) → fs = frames ∧ footer_ok rest.
Proof.
  intros Hmax. rewrite parse_step_app by done. unfold footer_ok.
  destruct rest as [|v [|a0 [|a1 [|a2 [|sc [|c0 [|c1 [|c2 rest]]]]]]]];
    try (intros [= <-]; split; [done|left; simpl; lia]).
  case_decide; [|intros [= <-]; eauto 6]. cbv zeta. by repeat case_match.
Qed.

Lemma parse_step_returns pre rest frames :
  len (pre ++ rest) ≤ u32_max → returned (parse_step (pre ++ rest) (frames, length pre)).
Proof. intros Hmax. rewrite parse_step_app by done. cbv zeta. by repeat case_match. Qed.

Lemma layout_from_app pos cs ds :
  layout_from pos (cs ++ ds) = layout_from pos cs ++ layout_from (pos + len (body_of cs)) ds.
Proof.
  revert pos. induction cs as [|c cs IH]; intros pos; cbn [app layout_from].
  { simpl. unfold len. simpl. f_equal. lia. }
  rewrite IH. change (body_of (c :: cs)) with (frame_bytes c ++ body_of cs).
  rewrite len_app. do 3 f_equal. unfold len. rewrite length_frame_bytes. lia.
Qed.

Lemma length_layout_from pos cs : length (layout_from pos cs) = length cs.
Proof. revert pos. induction cs; intros; simpl; auto. Qed.

(** The loop, from the end of the frames already read. *)
Lemma parse_loop_complete fuel pre cs footer frames :
  Forall wf_chunk cs → footer_ok footer → len (pre ++ body_of cs ++ footer) ≤ u32_max →
  (length (body_of cs ++ footer) < fuel)%nat →
  loop_out fuel (parse_step (pre ++ body_of cs ++ footer)) (frames, length pre)
  = Ok (frames ++ layout_from (len pre) cs).
Proof.
  intros Hcs Hf. revert fuel pre frames. induction Hcs as [|c cs Hc Hcs IH]; intros fuel pre frames Hmax Hfuel.
  - destruct fuel as [|fuel]; [lia|]. cbn [loop_out]. rewrite parse_step_app by done.
    cbn [body_of flat_map app] in *. rewrite app_nil_r.
    destruct Hf as [Hf|(v & r & -> & Hv)]; [by do 8 (destruct footer as [|? footer]; [done|]); simpl in Hf; lia|].
    do 7 (destruct r as [|? r]; [done|]). by rewrite decide_False.
  - destruct fuel as [|fuel]; [lia|]. cbn [loop_out].
    change (body_of (c :: cs)) with (frame_bytes c ++ body_of cs) in *.
    rewrite <-app_assoc in Hmax, Hfuel |- *. rewrite parse_step_frame by done. cbv iota.
    rewrite (app_assoc pre) in Hmax |- *. rewrite IH; [|done|].
    + rewrite <-app_assoc. do 2 f_equal. cbn [app layout_from]. do 2 f_equal.
      rewrite len_app. unfold len. rewrite length_frame_bytes. lia.
    + rewrite length_app, length_frame_bytes in Hfuel. lia.
Qed.

Lemma parse_loop_sound fuel pre rest frames :
  len (pre ++ rest) ≤ u32_max → (length rest < fuel)%nat →
  wp (loop_out fuel (parse_step (pre ++ rest)) (frames, length pre))
     (λ fs, ∃ cs footer, rest = body_of cs ++ footer ∧ Forall wf_chunk cs ∧ footer_ok footer ∧
            fs = frames ++ layout_from (len pre) cs)
     (λ _, True).
Proof.
  revert pre rest frames. induction fuel as [|fuel IH]; intros pre rest frames Hmax Hfuel; [lia|].
  cbn [loop_out]. destruct (parse_step _ _) as [[st|fs]| | |] eqn:Hst; [| |done|..].
  - apply parse_step_inl in Hst as (c & rest' & Hc & -> & ->); [|done].
    rewrite (app_assoc pre) in Hmax |- *.
    eapply wp_mono; [apply IH; [done|]| |done].
    { rewrite length_app, length_frame_bytes in Hfuel. lia. }
    intros fs (cs & footer & -> & Hcs & Hf & ->). exists (c :: cs), footer.
    split_and!; [by rewrite app_assoc|by constructor|done|].
    rewrite <-app_assoc. cbn [app layout_from]. do 4 f_equal.
    rewrite len_app. unfold len. rewrite length_frame_bytes. lia.
  - apply parse_step_inr in Hst as [-> Hf]; [|done]. exists [], rest. simpl.
    rewrite app_nil_r. eauto.
  - by apply (parse_step_returns pre rest frames) in Hmax; rewrite Hst in Hmax.
  - by apply (parse_step_returns pre rest frames) in Hmax; rewrite Hst in Hmax.
Qed.

Lemma parse_xorb_frames_spec body fs :
  parse_xorb_frames body = Ok fs ↔
  len body ≤ u32_max ∧ ∃ cs footer, body = body_of cs ++ footer ∧ cs ≠ [] ∧ Forall wf_chunk cs ∧
    footer_ok footer ∧ fs = layout_from 0 cs.
Proof.
  unfold parse_xorb_frames. destruct (Z.ltb_spec u32_max (len body)) as [Hl|Hl].
  { split; [done|]. intros [? _]. lia. }
  split.
  - intros H. inv_ok. split; [done|].
    pose proof (parse_loop_sound (S (length body)) [] body [] Hl ltac:(lia)) as Hs.
    simpl app in Hs. change (length []) with O in Hs. rewrite H0 in Hs.
    destruct Hs as (cs & footer & Hb & Hcs & Hf & ->). exists cs, footer. simpl in H.
    destruct cs; [done|]. injection H as <-. done.
  - intros (_ & cs & footer & -> & Hne & Hcs & Hf & ->).
    pose proof (parse_loop_complete (S (length (body_of cs ++ footer))) [] cs footer []
      Hcs Hf Hl ltac:(lia)) as Hc.
    simpl app in Hc. change (length []) with O in Hc. rewrite Hc.
    by destruct cs.
Qed.

Lemma parse_xorb_frames_returns body : returned (parse_xorb_frames body).
Proof.
  apply wp_returned. unfold parse_xorb_frames.
  destruct (Z.ltb_spec u32_max (len body)) as [Hl|Hl]; [done|]. apply wp_bind.
  eapply wp_mono; [apply (parse_loop_sound _ [] body []); [done|lia]| |done].
  intros fs _. by destruct fs.
Qed.

(** The frame parser accepts exactly the bodies of the frame grammar: a
    non-empty sequence of well-formed frames followed by nothing parseable (at
    most seven bytes, or a footer), at most [u32::MAX] bytes in all; its answer
    is the layout of those frames, contiguous from offset 0 with no truncated
    integer; every other body is an error, never a panic or an endless loop. *)
Theorem parse_xorb_frames_grammar body :
  let grammar fs := len body ≤ u32_max ∧ ∃ cs footer, body = body_of cs ++ footer ∧ cs ≠ [] ∧
    Forall wf_chunk cs ∧ footer_ok footer ∧ fs = layout_from 0 cs in
  match parse_xorb_frames body with
  | Ok fs => grammar fs
  | Err _ => ∀ fs, ¬ grammar fs
  | _ => False
  end.
Proof.
  cbv zeta. pose proof (parse_xorb_frames_returns body) as Hr.
  destruct (parse_xorb_frames body) as [fs|e| |] eqn:Hp; try done.
  - by apply parse_xorb_frames_spec.
  - intros fs Hg%parse_xorb_frames_spec. congruence.
Qed.

Section verify_lemmas.
Context {MerkleHash : Type} `{!EqDecision MerkleHash}.
Variable merkle_from : Hash32 → MerkleHash.
Variable compute_data_hash : bytes → MerkleHash.
Variable compute_xorb_merkle_hash : list (MerkleHash * Z) → MerkleHash.
Variable decompress_from_slice : CompressionScheme → bytes → outcome str bytes.

(** The content of a frame, by its own bytes alone. *)
Definition scheme_byte (b : byte) : CompressionScheme :=
  match b with x00 => SchemeNone | x01 => LZ4 | _ => ByteGrouping4LZ4 end.
Definition chunk_content (c : chunk) (d : bytes) : Prop :=
  decompress_from_slice (scheme_byte (ck_scheme c)) (ck_payload c) = Ok d ∧ len d = ck_ulen c.

Lemma scheme_of_wf i pos n u b :
  in_range b 0 2 = true → scheme_of i (mkXorbChunkFrame pos n u b) = Ok (scheme_byte b).
Proof. unfold scheme_of. by destruct b. Qed.

Lemma frame_payload_slice pre c rest :
  slice (pre ++ frame_bytes c ++ rest) (Z.to_nat (len pre) + 8)
    (Z.to_nat (len pre) + Z.to_nat (8 + len (ck_payload c))) = Some (ck_payload c).
Proof.
  rewrite slice_ok.
  2: { unfold len. lia. }
  2: { rewrite !length_app, length_frame_bytes. unfold len. lia. }
  f_equal. rewrite <-drop_drop.
  replace (Z.to_nat (len pre)) with (length pre) by (unfold len; lia).
  rewrite drop_app_length. unfold frame_bytes. rewrite !to_le_3. cbn [app skipn].
  rewrite drop_0. rewrite take_app_length'; [done|]. unfold len. lia.
Qed.

Lemma decompress_frame_Ok pre c rest i d :
  wf_chunk c →
  decompress_frame decompress_from_slice (pre ++ frame_bytes c ++ rest) i
    (mkXorbChunkFrame (len pre) (8 + len (ck_payload c)) (ck_ulen c) (ck_scheme c)) = Ok d
  ↔ chunk_content c d.
Proof.
  intros (Hp & Hu & Hs). unfold decompress_frame, chunk_content, HEADER_LEN.
  cbn [on_disk_start on_disk_len uncompressed_len].
  rewrite scheme_of_wf by done.
  rewrite frame_payload_slice. cbn [or_panic mbind outcome_bind].
  destruct (decompress_from_slice _ _) as [d'|e| |]; simpl;
    [|split; [done|by intros [? _]]..].
  destruct (Z.eqb_spec (len d') (ck_ulen c)); simpl;
    (split; [intros [= <-]; done|intros [[= ->] ?]; done]).
Qed.

(** The loop over the frames computes the contents in order. *)
Lemma contents_fold {B} (G : B → bytes → B) cs : ∀ pre rest n acc acc',
  Forall wf_chunk cs →
  fold_out (λ acc p,
      d ← decompress_frame decompress_from_slice (pre ++ body_of cs ++ rest) p.1 p.2;
      mret (G acc d)) acc (imap (λ i f, (n + i, f)%nat) (layout_from (len pre) cs)) = Ok acc'
  ↔ ∃ ds, Forall2 chunk_content cs ds ∧ acc' = foldl G acc ds.
Proof.
  induction cs as [|c cs IH]; intros pre rest n acc acc' Hwf.
  { simpl. split; [intros [= <-]; by exists []|]. intros (ds & H & ->). by inversion H. }
  inversion Hwf as [|?? Hc Hcs]; subst. cbn [layout_from imap fold_out].
  change (body_of (c :: cs)) with (frame_bytes c ++ body_of cs). rewrite <-app_assoc.
  rewrite outcome_bind_Ok. setoid_rewrite outcome_bind_Ok.
  setoid_rewrite decompress_frame_Ok; [|done].
  assert (Hl : len pre + 8 + len (ck_payload c) = len (pre ++ frame_bytes c)).
  { rewrite len_app. unfold len. rewrite length_frame_bytes. lia. }
  rewrite Hl. rewrite (app_assoc pre (frame_bytes c) (body_of cs ++ rest)).
  assert (Himap : imap ((λ i f, (n + i, f)%nat) ∘ S) (layout_from (len (pre ++ frame_bytes c)) cs)
    = imap (λ i f, (S n + i, f)%nat) (layout_from (len (pre ++ frame_bytes c)) cs)).
  { apply imap_ext. intros. simpl. f_equal. lia. }
  rewrite Himap. setoid_rewrite IH; [|done].
  unfold mret, outcome_ret. split.
  - intros (acc1 & (d & Hd & [= <-]) & ds & Hds & ->). exists (d :: ds). split; [by constructor|done].
  - intros (ds & Hds & ->). inversion Hds as [|? d ? ds' Hd Hds']; subst. eauto 10.
Qed.

Lemma foldl_app_concat (ds : list bytes) out : foldl (λ out d, out ++ d) out ds = out ++ concat ds.
Proof.
  revert out. induction ds as [|d ds IH]; intros out; simpl; [by rewrite app_nil_r|].
  by rewrite IH, app_assoc.
Qed.

Lemma foldl_snoc_map {D F} (g : D → F) ds acc : foldl (λ acc d, acc ++ [g d]) acc ds = acc ++ (g <$> ds).
Proof.
  revert acc. induction ds as [|d ds IH]; intros acc; simpl; [by rewrite app_nil_r|].
  by rewrite IH, <-app_assoc.
Qed.

Lemma imap_pair_0 {F} (l : list F) : imap pair l = imap (λ i f, (0 + i, f)%nat) l.
Proof. apply imap_ext. done. Qed.

(** Decompression appends the contents of the frames of the body. *)
Lemma decompress_into_spec body out out' :
  decompress_xorb_chunks_into decompress_from_slice body out = (Ok tt, out') ↔
  len body ≤ u32_max ∧ ∃ cs footer ds, body = body_of cs ++ footer ∧ cs ≠ [] ∧
    Forall wf_chunk cs ∧ footer_ok footer ∧ Forall2 chunk_content cs ds ∧
    out' = out ++ concat ds.
Proof.
  pose proof (parse_xorb_frames_spec body) as Hp.
  unfold decompress_xorb_chunks_into. rewrite ST_bind_Ok.
  setoid_rewrite (for_each_modify (λ p, decompress_frame decompress_from_slice body p.1 p.2)
    (λ out d, out ++ d)).
  split.
  - intros (fs & s1 & Hl & Hf). unfold lift in Hl. injection Hl as Hl <-.
    destruct (parse_xorb_frames body) as [fs'| | |]; simplify_eq/=.
    destruct (proj1 (Hp fs) eq_refl) as (Hl & cs & footer & -> & Hne & Hcs & Hft & ->).
    rewrite imap_pair_0 in Hf. apply (contents_fold _ cs [] footer 0%nat) in Hf as (ds & Hds & ->); [|done].
    rewrite foldl_app_concat. split; [done|]. by exists cs, footer, ds.
  - intros (Hl & cs & footer & ds & -> & Hne & Hcs & Hft & Hds & ->).
    exists (layout_from 0 cs), out. rewrite (proj2 (Hp _)) by eauto 10. split; [done|].
    rewrite imap_pair_0. apply (contents_fold _ cs [] footer 0%nat); [done|].
    exists ds. by rewrite foldl_app_concat.
Qed.

(** The hash check accepts a body when its frames' contents hash to the name. *)
Lemma verify_xorb_body_spec body expected :
  verify_xorb_body merkle_from compute_data_hash compute_xorb_merkle_hash decompress_from_slice
    body expected = Ok tt ↔
  len body ≤ u32_max ∧ ∃ cs footer ds, body = body_of cs ++ footer ∧ cs ≠ [] ∧
    Forall wf_chunk cs ∧ footer_ok footer ∧ Forall2 chunk_content cs ds ∧
    compute_xorb_merkle_hash ((λ d, (compute_data_hash d, len d)) <$> ds)
      = merkle_from (unwrap expected).
Proof.
  pose proof (parse_xorb_frames_spec body) as Hp. unfold verify_xorb_body.
  rewrite outcome_bind_Ok. setoid_rewrite outcome_bind_Ok. split.
  - intros (fs & Hl & entries & Hf & Hv).
    destruct (parse_xorb_frames body) as [fs'| | |]; simplify_eq/=.
    destruct (proj1 (Hp fs) eq_refl) as (Hl & cs & footer & -> & Hne & Hcs & Hft & ->).
    rewrite imap_pair_0 in Hf.
    apply (contents_fold (λ es d, es ++ [(compute_data_hash d, len d)]) cs [] footer 0%nat)
      in Hf as (ds & Hds & ->); [|done].
    rewrite foldl_snoc_map in Hv. simpl in Hv. case_bool_decide; [|done]. eauto 12.
  - intros (Hl & cs & footer & ds & -> & Hne & Hcs & Hft & Hds & Heq).
    exists (layout_from 0 cs). rewrite (proj2 (Hp _)) by eauto 10. split; [done|].
    exists ((λ d, (compute_data_hash d, len d)) <$> ds). split.
    + rewrite imap_pair_0.
      apply (contents_fold (λ es d, es ++ [(compute_data_hash d, len d)]) cs [] footer 0%nat); [done|].
      exists ds. by rewrite foldl_snoc_map.
    + simpl. by rewrite bool_decide_true.
Qed.

Lemma layout_lookup pos cs i f :
  layout_from pos cs !! i = Some f ↔ ∃ c, cs !! i = Some c ∧
    f = mkXorbChunkFrame (pos + len (body_of (take i cs))) (8 + len (ck_payload c))
          (ck_ulen c) (ck_scheme c).
Proof.
  revert pos i. induction cs as [|c cs IH]; intros pos [|i]; cbn [layout_from take firstn].
  - naive_solver.
  - naive_solver.
  - simpl. unfold len at 2. simpl. rewrite Z.add_0_r. naive_solver.
  - cbn [lookup list_lookup]. change (body_of (c :: take i cs)) with (frame_bytes c ++ body_of (take i cs)).
    rewrite len_app. replace (len (frame_bytes c)) with (8 + len (ck_payload c))
      by (unfold len; rewrite length_frame_bytes; lia).
    rewrite !Z.add_assoc. apply IH.
Qed.

(** Neither checker nor decompressor panics, if the library's decompressor does not. *)
Lemma decompress_frame_returns cs footer n i f :
  (∀ sc p, returned (decompress_from_slice sc p)) → Forall wf_chunk cs →
  layout_from 0 cs !! i = Some f →
  returned (decompress_frame decompress_from_slice (body_of cs ++ footer) n f).
Proof.
  intros Hd Hwf (c & Hc & ->)%layout_lookup.
  assert (Hb : body_of cs ++ footer
    = body_of (take i cs) ++ frame_bytes c ++ (body_of (drop (S i) cs) ++ footer)).
  { rewrite <-(take_drop_middle cs i c) at 1 by done. unfold body_of. rewrite flat_map_app. cbn [flat_map].
    by rewrite <-!app_assoc. }
  rewrite Hb, Z.add_0_l. unfold decompress_frame, HEADER_LEN. cbn [on_disk_start on_disk_len uncompressed_len].
  rewrite frame_payload_slice, scheme_of_wf by (rewrite Forall_lookup in Hwf; by apply (Hwf _ _ Hc)).
  cbn [or_panic mbind outcome_bind]. specialize (Hd (scheme_byte (ck_scheme c)) (ck_payload c)).
  destruct (decompress_from_slice _ _); try done. simpl. by case_match.
Qed.

Lemma parsed_frames_returns body fs n f :
  (∀ sc p, returned (decompress_from_slice sc p)) → parse_xorb_frames body = Ok fs → f ∈ fs →
  returned (decompress_frame decompress_from_slice body n f).
Proof.
  intros Hd (_ & cs & footer & -> & _ & Hwf & _ & ->)%parse_xorb_frames_spec Hf.
  apply list_elem_of_lookup in Hf as [i Hi]. by eapply decompress_frame_returns.
Qed.

Lemma elem_of_imap_pair {F} (l : list F) p : p ∈ imap pair l → p.2 ∈ l.
Proof.
  intros [i Hi]%list_elem_of_lookup. apply list_lookup_imap_Some in Hi as (x & Hx & ->).
  by eapply list_elem_of_lookup_2.
Qed.

Lemma verify_xorb_body_returns body expected :
  (∀ sc p, returned (decompress_from_slice sc p)) →
  returned (verify_xorb_body merkle_from compute_data_hash compute_xorb_merkle_hash decompress_from_slice body expected).
Proof.
  intros Hd. apply wp_returned. unfold verify_xorb_body.
  pose proof (parse_xorb_frames_returns body) as Hr. wsteps.
  destruct (parse_xorb_frames body) as [fs|e| |] eqn:Hp; try done. cbn [map_err wp]. wsteps.
  apply (wp_mono _ (λ _, True) _ (λ _, True)); [|intros; by case_match|done].
  apply wp_fold_out; [|done]. intros acc p Hin _. wsteps.
  pose proof (parsed_frames_returns body fs p.1 p.2 Hd Hp (elem_of_imap_pair _ _ Hin)) as Hf.
  by destruct (decompress_frame _ _ _ _).
Qed.

Lemma decompress_into_returns body out :
  (∀ sc p, returned (decompress_from_slice sc p)) →
  returned (decompress_xorb_chunks_into decompress_from_slice body out).1.
Proof.
  intros Hd. assert (H : wps (decompress_xorb_chunks_into decompress_from_slice body) out (λ _ _, True) (λ _ _, True)).
  { unfold decompress_xorb_chunks_into. pose proof (parse_xorb_frames_returns body) as Hr. wsteps.
    destruct (parse_xorb_frames body) as [fs|e| |] eqn:Hp; try done. cbn [map_err wp].
    apply (wps_for_each _ (λ _, True)); [|done]. intros p s Hin _. wsteps.
    pose proof (parsed_frames_returns body fs p.1 p.2 Hd Hp (elem_of_imap_pair _ _ Hin)) as Hf.
    by destruct (decompress_frame _ _ _ _). }
  unfold wps in H. by destruct (decompress_xorb_chunks_into _ _ _) as [[?|?| |] ?].
Qed.

Lemma uncompressed_len_layout pos cs : uncompressed_len <$> layout_from pos cs = ck_ulen <$> cs.
Proof. revert pos. induction cs; intros pos; simpl; [done|]. by f_equal. Qed.

Lemma contents_lens cs ds : Forall2 chunk_content cs ds → len <$> ds = ck_ulen <$> cs.
Proof. induction 1 as [|c d cs ds [_ ?] _ IH]; simpl; [done|]. by f_equal. Qed.

Lemma len_concat (ds : list bytes) : len (concat ds) = sumZ (len <$> ds).
Proof. induction ds as [|d ds IH]; [done|]. simpl. rewrite len_app, IH. done. Qed.

Lemma concat_lens_inj (ds es : list bytes) :
  len <$> ds = len <$> es → concat ds = concat es → ds = es.
Proof.
  revert es. induction ds as [|d ds IH]; intros [|e es] Hl Hc; simplify_eq/=; [done|].
  apply app_inj_1 in Hc as [-> Hc]; [|unfold len in *; lia]. f_equal. auto.
Qed.

Lemma concat_sub (ds : list bytes) i n :
  take (length (concat (take n (drop i ds)))) (drop (length (concat (take i ds))) (concat ds))
  = concat (take n (drop i ds)).
Proof.
  rewrite <-(take_drop i ds) at 3. rewrite concat_app, drop_app_length.
  rewrite <-(take_drop n (drop i ds)) at 2. by rewrite concat_app, take_app_length.
Qed.

Lemma body_of_app cs cs' : body_of (cs ++ cs') = body_of cs ++ body_of cs'.
Proof. apply flat_map_app. Qed.

(** The bytes from one frame to another are the body of those frames. *)
Lemma frame_range_body cs footer i j fi fl :
  (i < j)%nat → layout_from 0 cs !! i = Some fi → layout_from 0 cs !! (j - 1)%nat = Some fl →
  slice (body_of cs ++ footer) (Z.to_nat (on_disk_start fi))
    (Z.to_nat (on_disk_start fl + on_disk_len fl)) = Some (body_of (take (j - i) (drop i cs))).
Proof.
  intros Hij Hi Hl. apply layout_lookup in Hi as (ci & Hci & ->), Hl as (cl & Hcl & ->).
  cbn [on_disk_start on_disk_len]. rewrite !Z.add_0_l.
  assert (Hend : len (body_of (take (j - 1) cs)) + (8 + len (ck_payload cl))
    = len (body_of (take j cs))).
  { replace j with (S (j - 1)) at 2 by lia. rewrite (take_S_r _ _ cl) by done.
    rewrite body_of_app, len_app. f_equal. unfold body_of. cbn [flat_map].
    rewrite app_nil_r. unfold len. rewrite length_frame_bytes. lia. }
  rewrite Hend. unfold len. rewrite !Nat2Z.id.
  set (mid := take (j - i) (drop i cs)).
  assert (Hbody : body_of cs ++ footer
    = body_of (take i cs) ++ body_of mid ++ body_of (drop j cs) ++ footer).
  { rewrite <-(take_drop i cs) at 1. rewrite <-(take_drop (j - i) (drop i cs)), drop_drop.
    replace (i + (j - i))%nat with j by lia. by rewrite !body_of_app, <-!app_assoc. }
  assert (Htj : take j cs = take i cs ++ mid).
  { unfold mid. replace j with (i + (j - i))%nat at 1 by lia. by rewrite take_take_drop. }
  rewrite Hbody, Htj, body_of_app, length_app, slice_ok.
  - f_equal. rewrite drop_app_length. apply take_app_length'. lia.
  - lia.
  - rewrite !length_app. lia.
Qed.

Lemma decompress_range body fs data i j fi fl :
  parse_xorb_frames body = Ok fs →
  decompress_xorb_chunks_into decompress_from_slice body [] = (Ok tt, data) →
  (i < j)%nat → fs !! i = Some fi → fs !! (j - 1)%nat = Some fl →
  ∃ piece, slice body (Z.to_nat (on_disk_start fi)) (Z.to_nat (on_disk_start fl + on_disk_len fl))
             = Some piece ∧
    ∀ out, decompress_xorb_chunks_into decompress_from_slice piece out = (Ok tt, out ++
      take (Z.to_nat (sumZ (uncompressed_len <$> take (j - i) (drop i fs))))
        (drop (Z.to_nat (sumZ (uncompressed_len <$> take i fs))) data)).
Proof.
  intros Hp Hd Hij Hi Hl.
  apply decompress_into_spec in Hd as (Hlen & cs & footer & ds & -> & Hne & Hcs & Hf & Hds & ->).
  assert (fs = layout_from 0 cs) as ->.
  { assert (parse_xorb_frames (body_of cs ++ footer) = Ok (layout_from 0 cs)); [|congruence].
    apply parse_xorb_frames_spec. eauto 10. }
  exists (body_of (take (j - i) (drop i cs))). split; [by apply frame_range_body|].
  intros out. apply decompress_into_spec. split.
  { pose proof (frame_range_body cs footer i j fi fl Hij Hi Hl) as [Hs ?]%slice_length.
    unfold len in *. lia. }
  exists (take (j - i) (drop i cs)), [], (take (j - i) (drop i ds)). split_and!.
  - by rewrite app_nil_r.
  - apply layout_lookup in Hi as (c & Hc & _). rewrite (drop_S _ c) by done.
    by replace (j - i)%nat with (S (j - i - 1)) by lia.
  - by apply Forall_take, Forall_drop.
  - left. simpl. lia.
  - by apply Forall2_take, Forall2_drop.
  - rewrite !fmap_take, !fmap_drop, uncompressed_len_layout, <-(contents_lens _ _ Hds).
    rewrite <-fmap_drop, <-!fmap_take, <-!len_concat. unfold len. rewrite !Nat2Z.id.
    by rewrite concat_sub.
Qed.

(** A reconstruction term can be served from the byte range of its frames
    alone: when the whole body decompresses to [data], the bytes from the
    start of frame [i] to the end of frame [j - 1] decompress to exactly the
    part of [data] that those frames declare, appended to the buffer. *)
Theorem decompress_frame_range body fs data i j fi fl :
  parse_xorb_frames body = Ok fs →
  decompress_xorb_chunks_into decompress_from_slice body [] = (Ok tt, data) →
  (i < j)%nat → fs !! i = Some fi → fs !! (j - 1)%nat = Some fl →
  ∃ piece, slice body (Z.to_nat (on_disk_start fi)) (Z.to_nat (on_disk_start fl + on_disk_len fl))
             = Some piece ∧
    ∀ out, decompress_xorb_chunks_into decompress_from_slice piece out = (Ok tt, out ++
      take (Z.to_nat (sumZ (uncompressed_len <$> take (j - i) (drop i fs))))
        (drop (Z.to_nat (sumZ (uncompressed_len <$> take i fs))) data)).
Proof. apply decompress_range. Qed.

(** C25. An upload is accepted exactly when its frames decompress to the
    lengths they declare and the chunk hashes of the contents, in order, have
    the Merkle hash of the URL; the accepted body then always decompresses,
    to those contents. *)
Theorem verify_xorb_body_iff body expected :
  verify_xorb_body merkle_from compute_data_hash compute_xorb_merkle_hash decompress_from_slice
    body expected = Ok tt ↔
  ∃ fs ds, parse_xorb_frames body = Ok fs ∧ len <$> ds = uncompressed_len <$> fs ∧
    (∀ out, decompress_xorb_chunks_into decompress_from_slice body out
            = (Ok tt, out ++ concat ds)) ∧
    compute_xorb_merkle_hash ((λ d, (compute_data_hash d, len d)) <$> ds)
      = merkle_from (unwrap expected).
Proof.
  rewrite verify_xorb_body_spec. split.
  - intros (Hl & cs & footer & ds & -> & Hne & Hcs & Hf & Hds & Heq).
    exists (layout_from 0 cs), ds. split_and!; [|..|done].
    + apply parse_xorb_frames_spec. eauto 10.
    + by rewrite uncompressed_len_layout, (contents_lens _ _ Hds).
    + intros out. apply decompress_into_spec. eauto 12.
  - intros (fs & ds & Hp & Hlens & Hd & Heq).
    specialize (Hd []).
    apply decompress_into_spec in Hd as (Hl & cs & footer & ds' & -> & Hne & Hcs & Hf & Hds & Hc).
    assert (fs = layout_from 0 cs) as ->.
    { assert (parse_xorb_frames (body_of cs ++ footer) = Ok (layout_from 0 cs)); [|congruence].
      apply parse_xorb_frames_spec. eauto 10. }
    assert (ds' = ds) as ->; [|eauto 12]. apply concat_lens_inj; [|done].
    by rewrite Hlens, uncompressed_len_layout, (contents_lens _ _ Hds).
Qed.
End verify_lemmas.

(** A body of two stored chunks, "ab" and "c", and a footer. *)
Definition example_body : bytes :=
  [x00; x02; x00; x00; x00; x02; x00; x00; x61; x62;
   x00; x01; x00; x00; x00; x01; x00; x00; x63; x58].
Definition example_decompress (s : CompressionScheme) (p : bytes) : outcome str bytes :=
  match s with SchemeNone => Ok p | _ => Err (lit "unsupported") end.

Lemma decompress_frame_range_witness :
  decompress_xorb_chunks_into example_decompress example_body [] = (Ok tt, lit "abc") ∧
  ∃ piece, slice example_body 10 19 = Some piece ∧
    ∀ out, decompress_xorb_chunks_into example_decompress piece out = (Ok tt, out ++ lit "c").
Proof.
  split; [vm_compute; reflexivity|].
  destruct (decompress_frame_range example_decompress example_body
    [mkXorbChunkFrame 0 10 2 x00; mkXorbChunkFrame 10 9 1 x00] (lit "abc") 1 2
    (mkXorbChunkFrame 10 9 1 x00) (mkXorbChunkFrame 10 9 1 x00)) as (piece & Hp & Hd);
    [vm_compute; reflexivity..|lia|reflexivity|reflexivity|].
  exists piece. split; [exact Hp|exact Hd].
Defined.
