(* ===== verification/Shard.v ===== *)
(** * The shard format ([crates/bale-server-shard/src/lib.rs])

    Parser and serializer of the binary metadata shard: a header, the file
    section and the CAS section each closed by a bookend entry, and an optional
    footer.  The parser runs on a cursor over the upload. *)

From S2P Require Import Prelude RustStd Core.

Definition ENTRY_SIZE : nat := 48.
Definition HEADER_SIZE : nat := 48.
Definition FOOTER_SIZE : Z := 200.

Definition MDB_SHARD_HEADER_VERSION : Z := 2.
Definition MDB_SHARD_FOOTER_VERSION : Z := 1.

Definition FLAG_WITH_VERIFICATION : Z := Z.shiftl 1 31.
Definition FLAG_WITH_METADATA_EXT : Z := Z.shiftl 1 30.

Definition MDB_SHARD_HEADER_TAG : bytes :=
  lit "HFRepoMetaData" ++ map byte_of_Z
    [0; 85; 105; 103; 69; 106; 123; 129; 87; 131; 165; 189; 217; 92; 205; 209; 74; 169].

Inductive ShardError :=
  | Truncated (offset needed : Z)
  | BadHeaderVersion (v : Z)
  | BadFooterVersion (v : Z)
  | BadFooterOffset (declared len : Z)
  | TooLarge (n : Z).

Definition ShardError_display (e : ShardError) : str :=
  match e with
  | Truncated offset needed =>
      lit "shard truncated: needed " ++ to_string needed ++ lit " more bytes at offset " ++ to_string offset
  | BadHeaderVersion v => lit "unsupported header version " ++ to_string v
  | BadFooterVersion v => lit "unsupported footer version " ++ to_string v
  | BadFooterOffset declared len =>
      lit "declared footer offset " ++ to_string declared ++ lit " exceeds shard length " ++ to_string len
  | TooLarge n => lit "shard too large (" ++ to_string n ++ lit " bytes, max 64 MiB)"
  end.

Definition MAX_SHARD_BYTES : Z := 64 * 1024 * 1024.

Record ShardHeader := mkShardHeader {
  tag : vec byte HASH_LEN;
  header_version : Z;
  footer_size : Z;
}.

Record FileTermEntry := mkFileTermEntry {
  fe_xorb : XorbHash;
  fe_cas_flags : Z;
  fe_unpacked_segment_bytes : Z;
  fe_chunk_idx_start : Z;
  fe_chunk_idx_end : Z;
}.

Record ParsedFile := mkParsedFile {
  file_hash : FileHash;
  file_flags : Z;
  entries : list FileTermEntry;
  verifications : list Hash32;
  sha256 : option Hash32;
}.

Record CasChunkEntry := mkCasChunkEntry {
  ce_chunk_hash : ChunkHash;
  ce_byte_start : Z;
  ce_unpacked_segment_bytes : Z;
}.

Record ParsedCasBlock := mkParsedCasBlock {
  cas_xorb : XorbHash;
  cas_flags : Z;
  num_bytes_in_cas : Z;
  num_bytes_on_disk : Z;
  cas_chunks : list CasChunkEntry;
}.

Record ShardFooter := mkShardFooter {
  footer_version : Z;
  file_info_offset : Z;
  cas_info_offset : Z;
  chunk_hash_hmac_key : Hash32;
  shard_creation_timestamp : Z;
  shard_key_expiry : Z;
  footer_offset : Z;
}.

Record ParsedShard := mkParsedShard {
  header : ShardHeader;
  files : list ParsedFile;
  cas_blocks : list ParsedCasBlock;
  footer : option ShardFooter;
}.

#[global] Instance ShardError_eq_dec : EqDecision ShardError.
Proof. solve_decision. Defined.
#[global] Instance ShardHeader_eq_dec : EqDecision ShardHeader.
Proof. solve_decision. Defined.
#[global] Instance FileTermEntry_eq_dec : EqDecision FileTermEntry.
Proof. solve_decision. Defined.
#[global] Instance ParsedFile_eq_dec : EqDecision ParsedFile.
Proof. solve_decision. Defined.
#[global] Instance CasChunkEntry_eq_dec : EqDecision CasChunkEntry.
Proof. solve_decision. Defined.
#[global] Instance ParsedCasBlock_eq_dec : EqDecision ParsedCasBlock.
Proof. solve_decision. Defined.
#[global] Instance ShardFooter_eq_dec : EqDecision ShardFooter.
Proof. solve_decision. Defined.
#[global] Instance ParsedShard_eq_dec : EqDecision ParsedShard.
Proof. solve_decision. Defined.

(** ** The cursor *)

Record Cursor := mkCursor { buf : bytes; pos : nat }.
Abbreviation C := (ST Cursor ShardError).

Definition Cursor_new (b : bytes) : Cursor := mkCursor b 0.
Definition remaining (c : Cursor) : nat := length (buf c) - pos c.

Definition need (n : nat) : C unit := λ c,
  if (length (buf c) - pos c <? n)%nat
  then (Err (Truncated (Z.of_nat (pos c)) (Z.of_nat n - (len (buf c) - Z.of_nat (pos c)))), c)
  else (Ok tt, c).

(** [take]: [need(n)?], then the slice and the advance. *)
Definition advance (n : nat) : C bytes := λ c,
  match slice (buf c) (pos c) (pos c + n) with
  | Some s => (Ok s, mkCursor (buf c) (pos c + n))
  | None => (Panic, c)
  end.
Definition take_bytes (n : nat) : C bytes := _ ← need n; advance n.

Definition c_u32 : C Z := s ← take_bytes 4; mret (of_le s).
Definition c_u64 : C Z := s ← take_bytes 8; mret (of_le s).
Definition c_hash : C Hash32 := s ← take_bytes HASH_LEN; mret (hash_of s).
Definition skip (n : nat) : C unit := _ ← take_bytes n; mret tt.

(** Byte order reversed within each group of eight. *)
Definition swap_u64_groups (input : Hash32) : Hash32 :=
  hash_of (flat_map (λ group, map (λ i, default x00 (as_bytes input !! (group * 8 + (7 - i))%nat))
                                (seq 0 8)) (seq 0 4)).

Definition is_bookend_hash (h : Hash32) : bool :=
  forallb (λ b, bool_decide (b = xff)) (as_bytes h).

(** [for _ in 0..n { out.push(m?) }] *)
Fixpoint read_n {A} (n : nat) (m : C A) : C (list A) :=
  match n with
  | O => mret []
  | S n => x ← m; l ← read_n n m; mret (x :: l)
  end.

(** The allocation guards: the declared count must fit in what is left. *)
Definition alloc_guard (num_entries : Z) : C unit := λ c,
  if Z.of_nat (remaining c / ENTRY_SIZE) <? num_entries
  then (Err (Truncated (Z.of_nat (pos c))
              (Z.min (num_entries * Z.of_nat ENTRY_SIZE) u64_max - Z.of_nat (remaining c))), c)
  else (Ok tt, c).

(** The first guard compares in [u32]. *)
Definition alloc_guard_u32 (num_entries : Z) : C unit := λ c,
  let max_entries := as_u32 (Z.of_nat (remaining c / ENTRY_SIZE)) in
  if max_entries <? num_entries
  then (Err (Truncated (Z.of_nat (pos c))
              (Z.min (num_entries * Z.of_nat ENTRY_SIZE) u64_max - Z.of_nat (remaining c))), c)
  else (Ok tt, c).

Definition has_flag (flags flag : Z) : bool := negb (Z.land flags flag =? 0).

Definition read_entry : C FileTermEntry :=
  cas_hash ← c_hash;
  cas_flags ← c_u32;
  unpacked_segment_bytes ← c_u32;
  chunk_idx_start ← c_u32;
  chunk_idx_end ← c_u32;
  mret (mkFileTermEntry (newtype cas_hash) cas_flags unpacked_segment_bytes
          chunk_idx_start chunk_idx_end).

Definition read_verification : C Hash32 :=
  range_hash ← c_hash;
  _ ← skip 16;
  mret range_hash.

(** One round of the file loop. *)
Definition parse_file (acc : list ParsedFile) : C (list ParsedFile + list ParsedFile) :=
  file_hash ← c_hash;
  file_flags ← c_u32;
  num_entries ← c_u32;
  _ ← skip 8;
  if is_bookend_hash file_hash then mret (inr acc)
  else
    _ ← alloc_guard_u32 num_entries;
    entries ← read_n (Z.to_nat num_entries) read_entry;
    verifications ←
      (if has_flag file_flags FLAG_WITH_VERIFICATION then
         _ ← alloc_guard num_entries;
         read_n (Z.to_nat num_entries) read_verification
       else mret []);
    sha256 ←
      (if has_flag file_flags FLAG_WITH_METADATA_EXT then
         h ← c_hash;
         _ ← skip 16;
         mret (Some (swap_u64_groups h))
       else mret None);
    mret (inl (acc ++ [mkParsedFile (newtype file_hash) file_flags entries verifications sha256])).

Definition read_chunk : C CasChunkEntry :=
  chunk_hash ← c_hash;
  byte_start ← c_u32;
  unpacked_segment_bytes ← c_u32;
  _ ← skip 8;
  mret (mkCasChunkEntry (newtype chunk_hash) byte_start unpacked_segment_bytes).

(** One round of the CAS loop. *)
Definition parse_cas (acc : list ParsedCasBlock) : C (list ParsedCasBlock + list ParsedCasBlock) :=
  cas_hash ← c_hash;
  cas_flags ← c_u32;
  num_entries ← c_u32;
  num_bytes_in_cas ← c_u32;
  num_bytes_on_disk ← c_u32;
  if is_bookend_hash cas_hash then mret (inr acc)
  else
    _ ← alloc_guard num_entries;
    chunks ← read_n (Z.to_nat num_entries) read_chunk;
    mret (inl (acc ++ [mkParsedCasBlock (newtype cas_hash) cas_flags num_bytes_in_cas
                         num_bytes_on_disk chunks])).

Definition parse_footer (total : Z) (footer_size : Z) : C (option ShardFooter) :=
  if footer_size =? FOOTER_SIZE then
    fv ← c_u64;
    if negb (fv =? MDB_SHARD_FOOTER_VERSION) then throw (BadFooterVersion fv)
    else
      file_info_offset ← c_u64;
      cas_info_offset ← c_u64;
      _ ← skip 48;
      hmac_key ← c_hash;
      shard_creation_timestamp ← c_u64;
      shard_key_expiry ← c_u64;
      _ ← skip 72;
      footer_offset ← c_u64;
      if total <? footer_offset then throw (BadFooterOffset footer_offset total)
      else mret (Some (mkShardFooter fv file_info_offset cas_info_offset hmac_key
                         shard_creation_timestamp shard_key_expiry footer_offset))
  else mret None.

(** Every round of a loop that goes on consumes an entry, so the length of the
    upload is fuel enough. *)
Definition parse_cursor (total : Z) (fuel : nat) : C ParsedShard :=
  tag_slice ← take_bytes HASH_LEN;
  let tag := array_of HASH_LEN tag_slice in
  version ← c_u64;
  if negb (version =? MDB_SHARD_HEADER_VERSION) then throw (BadHeaderVersion version)
  else
    footer_size ← c_u64;
    files ← loop_st fuel parse_file [];
    cas_blocks ← loop_st fuel parse_cas [];
    footer ← parse_footer total footer_size;
    mret (mkParsedShard (mkShardHeader tag version footer_size) files cas_blocks footer).

Definition parse (b : bytes) : outcome ShardError ParsedShard :=
  if MAX_SHARD_BYTES <? len b then Err (TooLarge (len b))
  else (parse_cursor (len b) (S (length b)) (Cursor_new b)).1.

(** ** The serializer *)

Definition zeros (n : nat) : bytes := replicate n x00.

Definition entry_bytes (e : FileTermEntry) : bytes :=
  as_bytes (unwrap (fe_xorb e)) ++ u32_le (fe_cas_flags e) ++
  u32_le (fe_unpacked_segment_bytes e) ++ u32_le (fe_chunk_idx_start e) ++
  u32_le (fe_chunk_idx_end e).

Definition verification_bytes (v : Hash32) : bytes := as_bytes v ++ zeros 16.

Definition file_bytes (f : ParsedFile) : bytes :=
  as_bytes (unwrap (file_hash f)) ++ u32_le (file_flags f) ++
  u32_le (as_u32 (len (entries f))) ++ zeros 8 ++
  flat_map entry_bytes (entries f) ++
  (if has_flag (file_flags f) FLAG_WITH_VERIFICATION
   then flat_map verification_bytes (verifications f) else []) ++
  (if has_flag (file_flags f) FLAG_WITH_METADATA_EXT
   then as_bytes (swap_u64_groups (default Hash32_ZERO (sha256 f))) ++ zeros 16 else []).

Definition bookend : bytes := replicate HASH_LEN xff ++ zeros 16.

Definition chunk_bytes (ce : CasChunkEntry) : bytes :=
  as_bytes (unwrap (ce_chunk_hash ce)) ++ u32_le (ce_byte_start ce) ++
  u32_le (ce_unpacked_segment_bytes ce) ++ zeros 8.

Definition cas_bytes (cb : ParsedCasBlock) : bytes :=
  as_bytes (unwrap (cas_xorb cb)) ++ u32_le (cas_flags cb) ++
  u32_le (as_u32 (len (cas_chunks cb))) ++ u32_le (num_bytes_in_cas cb) ++
  u32_le (num_bytes_on_disk cb) ++ flat_map chunk_bytes (cas_chunks cb).

Definition footer_bytes (file_info_offset cas_info_offset footer_offset : Z)
    (ft : ShardFooter) : bytes :=
  u64_le (footer_version ft) ++ u64_le file_info_offset ++ u64_le cas_info_offset ++
  flat_map u64_le [footer_offset; 0; footer_offset; 0; footer_offset; 0] ++
  as_bytes (chunk_hash_hmac_key ft) ++ u64_le (shard_creation_timestamp ft) ++
  u64_le (shard_key_expiry ft) ++ zeros 72 ++ u64_le footer_offset.

Definition serialize (s : ParsedShard) : bytes :=
  let out := vec_to_list (tag (header s)) ++ u64_le (header_version (header s)) ++
             u64_le (footer_size (header s)) in
  let file_info_offset := len out in
  let out := out ++ flat_map file_bytes (files s) ++ bookend in
  let cas_info_offset := len out in
  let out := out ++ flat_map cas_bytes (cas_blocks s) ++ bookend in
  let footer_offset := len out in
  match footer s with
  | Some ft => out ++ footer_bytes file_info_offset cas_info_offset footer_offset ft
  | None => out
  end.

(** ** Well-formed shards

    The integers fit their width, no hash is the bookend's, the optional parts
    agree with the flags and the header. *)
Definition wf_entry (e : FileTermEntry) : Prop :=
  is_u32 (fe_cas_flags e) ∧ is_u32 (fe_unpacked_segment_bytes e) ∧
  is_u32 (fe_chunk_idx_start e) ∧ is_u32 (fe_chunk_idx_end e).

Definition wf_file (f : ParsedFile) : Prop :=
  is_bookend_hash (unwrap (file_hash f)) = false ∧ is_u32 (file_flags f) ∧
  Forall wf_entry (entries f) ∧ is_u32 (len (entries f)) ∧
  length (verifications f) = (if has_flag (file_flags f) FLAG_WITH_VERIFICATION
                              then length (entries f) else O) ∧
  (is_Some (sha256 f) ↔ has_flag (file_flags f) FLAG_WITH_METADATA_EXT = true).

Definition wf_cas_chunk (c : CasChunkEntry) : Prop :=
  is_u32 (ce_byte_start c) ∧ is_u32 (ce_unpacked_segment_bytes c).

Definition wf_cas (b : ParsedCasBlock) : Prop :=
  is_bookend_hash (unwrap (cas_xorb b)) = false ∧ is_u32 (cas_flags b) ∧
  is_u32 (num_bytes_in_cas b) ∧ is_u32 (num_bytes_on_disk b) ∧
  Forall wf_cas_chunk (cas_chunks b) ∧ is_u32 (len (cas_chunks b)).

Definition wf_footer (ft : ShardFooter) : Prop :=
  footer_version ft = MDB_SHARD_FOOTER_VERSION ∧
  is_u64 (shard_creation_timestamp ft) ∧ is_u64 (shard_key_expiry ft).

Definition wf_shard (s : ParsedShard) : Prop :=
  header_version (header s) = MDB_SHARD_HEADER_VERSION ∧ is_u64 (footer_size (header s)) ∧
  Forall wf_file (files s) ∧ Forall wf_cas (cas_blocks s) ∧
  match footer s with
  | Some ft => footer_size (header s) = FOOTER_SIZE ∧ wf_footer ft
  | None => footer_size (header s) ≠ FOOTER_SIZE
  end.

#[global] Instance wf_shard_dec s : Decision (wf_shard s).
Proof.
  unfold wf_shard, wf_file, wf_cas, wf_entry, wf_cas_chunk, wf_footer.
  repeat first [apply and_dec | apply iff_dec | apply _ | case_match
               | apply Forall_dec; intros ?].
Defined.

(** Where the serializer puts the sections. *)
Definition cas_offset (s : ParsedShard) : Z := 48 + len (flat_map file_bytes (files s)) + 48.
Definition end_offset (s : ParsedShard) : Z :=
  cas_offset s + len (flat_map cas_bytes (cas_blocks s)) + 48.

(** The shard with the offsets that the serializer writes. *)
Definition relocate (s : ParsedShard) : ParsedShard :=
  mkParsedShard (header s) (files s) (cas_blocks s)
    (match footer s with
     | Some ft => Some (mkShardFooter (footer_version ft) 48 (cas_offset s)
         (chunk_hash_hmac_key ft) (shard_creation_timestamp ft) (shard_key_expiry ft)
         (end_offset s))
     | None => None
     end).

(** ** Reading what was written

    [reads m bs a]: at any place of a buffer of legal size where [bs] comes next, [m] consumes
    exactly [bs] and answers [a]. *)
Definition reads {A} (m : C A) (bs : bytes) (a : A) : Prop :=
  ∀ pre rest, len (pre ++ bs ++ rest) ≤ MAX_SHARD_BYTES →
              m (mkCursor (pre ++ bs ++ rest) (length pre))
              = (Ok a, mkCursor (pre ++ bs ++ rest) (length pre + length bs)).

Lemma reads_ret {A} (a : A) : reads (mret a) [] a.
Proof. intros pre rest _. simpl. by rewrite Nat.add_0_r. Qed.

Lemma reads_bind {A B} (m : C A) (k : A → C B) bs cs a b :
  reads m bs a → reads (k a) cs b → reads (m ≫= k) (bs ++ cs) b.
Proof.
  intros Hm Hk pre rest. rewrite <-app_assoc. intros Hmax.
  erewrite ST_bind_step by by apply Hm.
  rewrite (app_assoc pre bs) in Hmax |- *. rewrite <-length_app, Hk by done.
  by rewrite !length_app, Nat.add_assoc.
Qed.

(** The last step of a block answers without reading. *)
Lemma reads_bind_ret {A B} (m : C A) (f : A → B) bs a :
  reads m bs a → reads (x ← m; mret (f x)) bs (f a).
Proof.
  intros Hm. rewrite <-(app_nil_r bs). eapply reads_bind; [exact Hm|]. apply reads_ret.
Qed.

Lemma reads_take n bs : length bs = n → reads (take_bytes n) bs bs.
Proof.
  intros <- pre rest _. unfold take_bytes, need, advance, mbind, ST_bind. cbn [buf pos].
  rewrite (proj2 (Nat.ltb_ge _ _)) by (rewrite !length_app; lia).
  cbn [buf pos]. rewrite slice_ok by (rewrite ?length_app; lia).
  rewrite drop_app_length. replace (length pre + length bs - length pre)%nat with (length bs) by lia.
  by rewrite take_app_length.
Qed.

Lemma reads_u32 z : is_u32 z → reads c_u32 (u32_le z) z.
Proof.
  intros Hz. rewrite <-(of_le_u32 z) at 2 by done. apply reads_bind_ret, reads_take, length_to_le.
Qed.
Lemma reads_u64 z : is_u64 z → reads c_u64 (u64_le z) z.
Proof.
  intros Hz. rewrite <-(of_le_u64 z) at 2 by done. apply reads_bind_ret, reads_take, length_to_le.
Qed.
Lemma reads_hash h : reads c_hash (as_bytes h) h.
Proof.
  rewrite <-(hash_of_as_bytes h) at 2. apply reads_bind_ret, reads_take, length_as_bytes.
Qed.
Lemma reads_skip n bs : length bs = n → reads (skip n) bs tt.
Proof. intros. apply (reads_bind_ret _ (λ _, tt) bs bs). by apply reads_take. Qed.

Lemma reads_n {A} (m : C A) (ser : A → bytes) (P : A → Prop) l :
  (∀ x, P x → reads m (ser x) x) → Forall P l → reads (read_n (length l) m) (flat_map ser l) l.
Proof.
  intros Hm. induction 1 as [|x l Hx _ IH]; simpl; [apply reads_ret|].
  eapply reads_bind; [by apply Hm|]. by apply (reads_bind_ret _ (λ l, x :: l)).
Qed.

(** The guards pass when the entries are really there. *)
Lemma remaining_at pre bs : remaining (mkCursor (pre ++ bs) (length pre)) = length bs.
Proof. unfold remaining. simpl. rewrite length_app. lia. Qed.

Lemma reads_guard {A} (m : C A) num bs a :
  num * 48 ≤ len bs → reads m bs a → reads (_ ← alloc_guard num; m) bs a.
Proof.
  intros Hn Hm pre rest Hmax. unfold alloc_guard, mbind, ST_bind. rewrite remaining_at.
  rewrite (proj2 (Z.ltb_ge _ _)); [by apply Hm|]. unfold ENTRY_SIZE, len in *.
  rewrite length_app, Nat2Z.inj_div, Nat2Z.inj_add. change (Z.of_nat 48) with 48.
  apply Z.div_le_lower_bound; lia.
Qed.

Lemma reads_guard_u32 {A} (m : C A) num bs a :
  num * 48 ≤ len bs → reads m bs a → reads (_ ← alloc_guard_u32 num; m) bs a.
Proof.
  intros Hn Hm pre rest Hmax. unfold alloc_guard_u32, mbind, ST_bind. rewrite remaining_at.
  rewrite as_u32_id.
  - rewrite (proj2 (Z.ltb_ge _ _)); [by apply Hm|]. unfold ENTRY_SIZE, len in *.
    rewrite length_app, Nat2Z.inj_div, Nat2Z.inj_add. change (Z.of_nat 48) with 48.
    apply Z.div_le_lower_bound; lia.
  - rewrite !len_app in Hmax. unfold ENTRY_SIZE, MAX_SHARD_BYTES, len, is_u32 in *.
    rewrite length_app, Nat2Z.inj_div. change (Z.of_nat 48) with 48. div_lia.
Qed.

Lemma reads_bind_last {A B} (m : C A) (k : A → C B) bs a b :
  reads m bs a → reads (k a) [] b → reads (m ≫= k) bs b.
Proof. intros. rewrite <-(app_nil_r bs). by eapply reads_bind. Qed.

Lemma reads_bind_skip {A B} (m : C A) (k : A → C B) bs a b :
  reads m [] a → reads (k a) bs b → reads (m ≫= k) bs b.
Proof. intros. rewrite <-(app_nil_l bs). by eapply reads_bind. Qed.

(** Blocks of fields: peel one read after the other. *)
Ltac one_field :=
  first [by apply reads_hash|by apply reads_u32|by apply reads_u64
        |apply reads_skip; reflexivity].
Ltac read_fields :=
  repeat match goal with
  | |- reads (_ ≫= _) (_ ++ _) _ => eapply reads_bind; [one_field|]; cbv beta
  end;
  try (eapply reads_bind_last; [one_field|]); try apply reads_ret.

Lemma reads_entry e : wf_entry e → reads read_entry (entry_bytes e) e.
Proof.
  destruct e as [[h] ? ? ? ?]. intros (?&?&?&?). unfold read_entry, entry_bytes. read_fields.
Qed.

Lemma reads_verification v : reads read_verification (verification_bytes v) v.
Proof. unfold read_verification, verification_bytes. read_fields. Qed.

Lemma reads_chunk c : wf_cas_chunk c → reads read_chunk (chunk_bytes c) c.
Proof.
  destruct c as [[h] ? ?]. intros (?&?). unfold read_chunk, chunk_bytes. read_fields.
Qed.

Lemma length_entry_bytes e : length (entry_bytes e) = 48%nat.
Proof. unfold entry_bytes, u32_le. rewrite !length_app, length_as_bytes, !length_to_le. done. Qed.
Lemma length_verification_bytes v : length (verification_bytes v) = 48%nat.
Proof. unfold verification_bytes, zeros. by rewrite !length_app, length_as_bytes, length_replicate. Qed.
Lemma length_chunk_bytes c : length (chunk_bytes c) = 48%nat.
Proof.
  unfold chunk_bytes, u32_le, zeros. by rewrite !length_app, length_as_bytes, !length_to_le, length_replicate.
Qed.

Lemma len_flat_map_const {A} (f : A → bytes) n l :
  (∀ x, length (f x) = n) → len (flat_map f l) = len l * Z.of_nat n.
Proof.
  intros Hf. induction l as [|x l IH]; [done|]. simpl. rewrite len_app, len_cons, IH.
  unfold len at 1. rewrite Hf. lia.
Qed.

Lemma swap_u64_groups_involutive h : swap_u64_groups (swap_u64_groups h) = h.
Proof.
  apply as_bytes_inj. unfold swap_u64_groups. rewrite !as_bytes_hash_of by done.
  pose proof (length_as_bytes h) as Hl. revert Hl. generalize (as_bytes h). intros l Hl.
  do 32 (destruct l as [|? l]; [discriminate|]). by destruct l.
Qed.

Lemma reads_file f acc :
  wf_file f → reads (parse_file acc) (file_bytes f) (inl (acc ++ [f])).
Proof.
  destruct f as [[h] flags es vs sha]. intros (Hb & Hfl & Hes & Hn & Hvs & Hsha).
  cbn [file_hash file_flags entries verifications sha256 unwrap] in *.
  unfold parse_file, file_bytes. cbn [file_hash file_flags entries verifications sha256 unwrap].
  rewrite as_u32_id by done.
  do 4 (eapply reads_bind; [one_field|]; cbv beta). rewrite Hb.
  assert (Hes48 : len (flat_map entry_bytes es) = len es * 48)
    by apply (len_flat_map_const _ 48), length_entry_bytes.
  apply reads_guard_u32.
  { rewrite len_app. pose proof (len_nonneg ((if has_flag flags FLAG_WITH_VERIFICATION
      then flat_map verification_bytes vs else []) ++ (if has_flag flags FLAG_WITH_METADATA_EXT
      then as_bytes (swap_u64_groups (default Hash32_ZERO sha)) ++ zeros 16 else []))). lia. }
  replace (Z.to_nat (len es)) with (length es) by (unfold len; lia).
  eapply reads_bind; [by apply (reads_n _ _ wf_entry); [apply reads_entry|]|].
  eapply reads_bind with (a := vs).
  { destruct (has_flag flags FLAG_WITH_VERIFICATION).
    - apply reads_guard.
      + rewrite (len_flat_map_const _ 48) by apply length_verification_bytes. unfold len. lia.
      + rewrite <-Hvs. apply (reads_n _ _ (λ _, True)); [intros; apply reads_verification|].
        by apply Forall_true.
    - destruct vs; [|done]. apply reads_ret. }
  apply (reads_bind_ret _ (λ sha, inl (acc ++ [mkParsedFile (newtype h) flags es vs sha]))).
  destruct (has_flag flags FLAG_WITH_METADATA_EXT).
  - destruct Hsha as [_ [s ->]]; [done|]. simpl default.
    rewrite <-(swap_u64_groups_involutive s) at 2. read_fields.
  - destruct sha as [s|]; [|apply reads_ret]. destruct Hsha as [Hsha _]. by discriminate Hsha.
Qed.

Lemma reads_cas b acc :
  wf_cas b → reads (parse_cas acc) (cas_bytes b) (inl (acc ++ [b])).
Proof.
  destruct b as [[h] flags nc nd cs]. intros (Hb & Hfl & Hc & Hd & Hcs & Hn).
  cbn [cas_xorb cas_flags num_bytes_in_cas num_bytes_on_disk cas_chunks unwrap] in *.
  unfold parse_cas, cas_bytes.
  cbn [cas_xorb cas_flags num_bytes_in_cas num_bytes_on_disk cas_chunks unwrap].
  rewrite as_u32_id by done.
  do 5 (eapply reads_bind; [one_field|]; cbv beta). rewrite Hb.
  apply reads_guard.
  { rewrite (len_flat_map_const _ 48) by apply length_chunk_bytes. lia. }
  replace (Z.to_nat (len cs)) with (length cs) by (unfold len; lia).
  apply (reads_bind_ret _ (λ cs, inl (acc ++ [mkParsedCasBlock (newtype h) flags nc nd cs]))).
  by apply (reads_n _ _ wf_cas_chunk); [apply reads_chunk|].
Qed.

Lemma bookend_hash : as_bytes Hash32_ALL_ONES = replicate HASH_LEN xff.
Proof. done. Qed.

Lemma reads_file_bookend acc : reads (parse_file acc) bookend (inr acc).
Proof.
  unfold parse_file, bookend. rewrite <-bookend_hash.
  change (zeros 16) with (u32_le 0 ++ u32_le 0 ++ zeros 8).
  do 3 (eapply reads_bind; [one_field|]; cbv beta). eapply reads_bind_last; [one_field|].
  apply reads_ret.
Qed.

Lemma reads_cas_bookend acc : reads (parse_cas acc) bookend (inr acc).
Proof.
  unfold parse_cas, bookend. rewrite <-bookend_hash.
  change (zeros 16) with (u32_le 0 ++ u32_le 0 ++ u32_le 0 ++ u32_le 0).
  do 4 (eapply reads_bind; [one_field|]; cbv beta). eapply reads_bind_last; [one_field|].
  apply reads_ret.
Qed.

(** A section: the loop reads every block and stops at the bookend. *)
Lemma reads_section {A} (body : list A → C (list A + list A)) (ser : A → bytes) (P : A → Prop)
    (endmark : bytes) l :
  (∀ acc x, P x → reads (body acc) (ser x) (inl (acc ++ [x]))) →
  (∀ acc, reads (body acc) endmark (inr acc)) →
  Forall P l → ∀ acc fuel, (length l < fuel)%nat →
  reads (loop_st fuel body acc) (flat_map ser l ++ endmark) (acc ++ l).
Proof.
  intros Hx He. induction 1 as [|x l Hp _ IH]; intros acc [|fuel] Hf; simpl in Hf; try lia; simpl.
  - rewrite app_nil_r. eapply reads_bind_last; [apply He|]. apply reads_ret.
  - rewrite <-app_assoc. eapply reads_bind; [by apply Hx|]. cbv beta iota.
    replace (acc ++ x :: l) with ((acc ++ [x]) ++ l) by by rewrite <-app_assoc.
    apply IH. lia.
Qed.

Definition relocated_footer (s : ParsedShard) (ft : ShardFooter) : ShardFooter :=
  mkShardFooter (footer_version ft) 48 (cas_offset s) (chunk_hash_hmac_key ft)
    (shard_creation_timestamp ft) (shard_key_expiry ft) (end_offset s).

Lemma reads_footer total a b o ft :
  wf_footer ft → is_u64 a → is_u64 b → is_u64 o → o ≤ total →
  reads (parse_footer total FOOTER_SIZE) (footer_bytes a b o ft)
    (Some (mkShardFooter (footer_version ft) a b (chunk_hash_hmac_key ft)
             (shard_creation_timestamp ft) (shard_key_expiry ft) o)).
Proof.
  intros (Hv & Hc & Hx) Ha Hb Ho Ht. unfold parse_footer, footer_bytes.
  rewrite (Z.eqb_refl FOOTER_SIZE). rewrite Hv.
  eapply reads_bind; [by apply reads_u64|]. cbv beta. rewrite Z.eqb_refl. cbn [negb].
  do 7 (eapply reads_bind; [one_field|]; cbv beta). eapply reads_bind_last; [one_field|].
  rewrite (proj2 (Z.ltb_ge _ _)) by done. apply reads_ret.
Qed.

(** The serialized shard as consecutive sections. *)
Lemma serialize_sections s :
  serialize s = vec_to_list (tag (header s)) ++ u64_le (header_version (header s)) ++
    u64_le (footer_size (header s)) ++ (flat_map file_bytes (files s) ++ bookend) ++
    (flat_map cas_bytes (cas_blocks s) ++ bookend) ++
    match footer s with
    | Some ft => footer_bytes 48 (cas_offset s) (end_offset s) ft
    | None => []
    end.
Proof.
  unfold serialize. cbv zeta.
  assert (Hb : len bookend = 48) by done.
  assert (Hh : len (vec_to_list (tag (header s)) ++ u64_le (header_version (header s)) ++
             u64_le (footer_size (header s))) = 48).
  { rewrite !len_app. unfold len, u64_le. by rewrite length_vec_to_list, !length_to_le. }
  rewrite !(len_app (_ ++ _ ++ _)), Hh, !len_app, Hb.
  replace (48 + (len (flat_map file_bytes (files s)) + 48)) with (cas_offset s)
    by (unfold cas_offset; lia).
  replace (cas_offset s + (len (flat_map cas_bytes (cas_blocks s)) + 48)) with (end_offset s)
    by (unfold end_offset; lia).
  destruct (footer s); by rewrite <-!app_assoc, ?app_nil_r.
Qed.

Lemma length_file_bytes_ge f : (1 ≤ length (file_bytes f))%nat.
Proof. unfold file_bytes. rewrite length_app, length_as_bytes. lia. Qed.
Lemma length_cas_bytes_ge b : (1 ≤ length (cas_bytes b))%nat.
Proof. unfold cas_bytes. rewrite length_app, length_as_bytes. lia. Qed.

Lemma length_flat_map_ge {A} (f : A → bytes) l :
  (∀ x, 1 ≤ length (f x))%nat → (length l ≤ length (flat_map f l))%nat.
Proof.
  intros Hf. induction l as [|x l IH]; simpl; [lia|]. rewrite length_app. specialize (Hf x). lia.
Qed.

Lemma end_offset_bound s :
  0 ≤ cas_offset s ≤ end_offset s ∧ end_offset s ≤ len (serialize s).
Proof.
  pose proof (len_nonneg (flat_map file_bytes (files s))).
  pose proof (len_nonneg (flat_map cas_bytes (cas_blocks s))).
  rewrite serialize_sections, !len_app. unfold end_offset, cas_offset, u64_le, bookend, zeros.
  unfold len in *. rewrite !length_app, length_vec_to_list, !length_to_le, !length_replicate.
  unfold HASH_LEN. lia.
Qed.

Lemma sections_count s :
  (length (files s) ≤ length (serialize s) ∧ length (cas_blocks s) ≤ length (serialize s))%nat.
Proof.
  pose proof (length_flat_map_ge file_bytes (files s) length_file_bytes_ge).
  pose proof (length_flat_map_ge cas_bytes (cas_blocks s) length_cas_bytes_ge).
  rewrite serialize_sections, !length_app. lia.
Qed.

Lemma reads_shard s total fuel :
  wf_shard s → len (serialize s) ≤ total ≤ MAX_SHARD_BYTES → (length (serialize s) < fuel)%nat →
  reads (parse_cursor total fuel) (serialize s) (relocate s).
Proof.
  intros (Hv & Hfs & Hf & Hc & Hft) Hmax Hfuel.
  pose proof (end_offset_bound s) as Hend. pose proof (sections_count s) as Hcount.
  destruct s as [[tg v fsz] fl cs ft]. cbn [header header_version footer_size files cas_blocks footer] in *.
  subst v. set (s := mkParsedShard _ _ _ _) in *. rewrite (serialize_sections s).
  cbn [header header_version footer_size files cas_blocks footer tag s]. unfold parse_cursor.
  eapply reads_bind; [apply reads_take, length_vec_to_list|]. cbv beta zeta.
  eapply reads_bind; [by apply reads_u64|]. change (negb (_ =? _)) with false. cbv iota.
  eapply reads_bind; [by apply reads_u64|].
  eapply reads_bind; [apply (reads_section _ _ wf_file); [intros; by apply reads_file|apply reads_file_bookend|done|lia]|].
  eapply reads_bind; [apply (reads_section _ _ wf_cas); [intros; by apply reads_cas|apply reads_cas_bookend|done|lia]|].
  cbv beta. rewrite array_of_vec. unfold relocate. cbn [header files cas_blocks footer s].
  apply (reads_bind_ret _ (λ ft, mkParsedShard (mkShardHeader tg _ fsz) fl cs ft)).
  destruct ft as [ft|].
  - destruct Hft as [-> Hft]. unfold MAX_SHARD_BYTES in *. apply reads_footer; [done|..|lia]; unfold is_u64; lia.
  - unfold parse_footer. rewrite (proj2 (Z.eqb_neq _ _)) by done. apply reads_ret.
Qed.

Lemma parse_serialize_wf s :
  wf_shard s → len (serialize s) ≤ MAX_SHARD_BYTES → parse (serialize s) = Ok (relocate s).
Proof.
  intros Hwf Hmax. unfold parse. rewrite (proj2 (Z.ltb_ge _ _)) by done.
  pose proof (reads_shard s (len (serialize s)) (S (length (serialize s))) Hwf ltac:(lia) ltac:(lia)
    [] []) as Hr.
  rewrite app_nil_r in Hr. unfold Cursor_new. simpl app in Hr. change (length []) with O in Hr.
  by rewrite Hr.
Qed.

(** ** Whatever the upload holds

    [safe_at b p m Q]: from place [p] of the upload [b], [m] answers or refuses,
    never leaves the buffer, and an answer [a] that consumed [n] bytes has [Q a n]. *)
Definition safe_at {A} (b : bytes) (p : nat) (m : C A) (Q : A → nat → Prop) : Prop :=
  wps m (mkCursor b p)
    (λ a c, ∃ n, c = mkCursor b (p + n) ∧ (p + n ≤ length b)%nat ∧ Q a n) (λ _ _, True).
Definition safe {A} (m : C A) (Q : A → nat → Prop) : Prop :=
  ∀ b p, (p ≤ length b)%nat → safe_at b p m Q.

Lemma safe_at_bind {A B} b p (m : C A) (k : A → C B) Q Q' :
  safe_at b p m Q →
  (∀ a n, Q a n → (p + n ≤ length b)%nat → safe_at b (p + n) (k a) (λ r n', Q' r (n + n')%nat)) →
  safe_at b p (m ≫= k) Q'.
Proof.
  intros Hm Hk. unfold safe_at. apply wps_bind. eapply wps_mono; [exact Hm| |done].
  intros a c (n & -> & Hn & HQ). eapply wps_mono; [by apply Hk| |done].
  intros r c (n' & -> & Hn' & HQ'). exists (n + n')%nat. by rewrite Nat.add_assoc.
Qed.

Lemma safe_bind {A B} (m : C A) (k : A → C B) Q Q' :
  safe m Q → (∀ a n, Q a n → safe (k a) (λ r n', Q' r (n + n')%nat)) → safe (m ≫= k) Q'.
Proof. intros Hm Hk b p Hp. eapply safe_at_bind; [by apply Hm|]. intros. by apply Hk. Qed.

Lemma safe_mono {A} (m : C A) (Q Q' : A → nat → Prop) :
  safe m Q → (∀ a n, Q a n → Q' a n) → safe m Q'.
Proof.
  intros Hm HQ b p Hp. eapply wps_mono; [by apply Hm| |done]. naive_solver.
Qed.

Lemma safe_ret {A} (a : A) (Q : A → nat → Prop) : Q a O → safe (mret a) Q.
Proof. intros HQ b p Hp. exists O. by rewrite Nat.add_0_r. Qed.

Lemma safe_throw {A} e (Q : A → nat → Prop) : safe (throw e) Q.
Proof. intros b p Hp. exact I. Qed.

Lemma safe_take k : safe (take_bytes k) (λ s n, length s = k ∧ n = k).
Proof.
  intros b p Hp. unfold safe_at, wps, take_bytes, need, advance, mbind, ST_bind.
  cbn [buf pos]. destruct (Nat.ltb_spec (length b - p) k) as [|Hk]; [done|]. cbn [buf pos].
  rewrite slice_ok by lia. exists k. split_and!; [done|lia| |done].
  rewrite length_take, length_drop. lia.
Qed.

Lemma safe_u32 : safe c_u32 (λ z n, is_u32 z ∧ n = 4%nat).
Proof.
  eapply safe_bind; [apply safe_take|]. intros s n [Hs ->]. apply safe_ret.
  split; [|done]. pose proof (of_le_range s) as Hr. unfold len in Hr. by rewrite Hs in Hr.
Qed.
Lemma safe_u64 : safe c_u64 (λ z n, is_u64 z ∧ n = 8%nat).
Proof.
  eapply safe_bind; [apply safe_take|]. intros s n [Hs ->]. apply safe_ret.
  split; [|done]. pose proof (of_le_range s) as Hr. unfold len in Hr. by rewrite Hs in Hr.
Qed.
Lemma safe_hash : safe c_hash (λ _ n, n = 32%nat).
Proof. eapply safe_bind; [apply safe_take|]. intros s n [Hs ->]. by apply safe_ret. Qed.
Lemma safe_skip k : safe (skip k) (λ _ n, n = k).
Proof. eapply safe_bind; [apply safe_take|]. intros s n [Hs ->]. by apply safe_ret. Qed.
Lemma safe_guard num : safe (alloc_guard num) (λ _ n, n = O).
Proof.
  intros b p Hp. unfold safe_at, wps, alloc_guard. destruct (_ <? _); [done|].
  exists O. by rewrite Nat.add_0_r.
Qed.
Lemma safe_guard_u32 num : safe (alloc_guard_u32 num) (λ _ n, n = O).
Proof.
  intros b p Hp. unfold safe_at, wps, alloc_guard_u32. cbv zeta. destruct (_ <? _); [done|].
  exists O. by rewrite Nat.add_0_r.
Qed.

Lemma safe_n {A} (m : C A) (P : A → Prop) k j :
  safe m (λ x n, P x ∧ n = k) →
  safe (read_n j m) (λ l n, Forall P l ∧ length l = j ∧ n = (j * k)%nat).
Proof.
  intros Hm. induction j as [|j IH]; simpl; [by apply safe_ret|].
  eapply safe_bind; [exact Hm|]. intros x n [Hx ->].
  eapply safe_bind; [exact IH|]. intros l n (Hl & Hlen & ->). apply safe_ret.
  split_and!; [by constructor|simpl; lia|lia].
Qed.

(** Blocks of fields. *)
Ltac safe_field :=
  eapply safe_bind; [first [apply safe_hash|apply safe_u32|apply safe_u64|apply safe_skip]|];
  let a := fresh "x" in let n := fresh "n" in let H := fresh "Hx" in
  intros a n H; cbv beta in H;
  match type of H with
  | _ ∧ _ => let H' := fresh in destruct H as [H H']; subst n
  | _ => subst n
  end.

Lemma safe_entry : safe read_entry (λ e n, wf_entry e ∧ n = 48%nat).
Proof. unfold read_entry. repeat safe_field. by apply safe_ret. Qed.
Lemma safe_verification : safe read_verification (λ _ n, True ∧ n = 48%nat).
Proof. unfold read_verification. repeat safe_field. by apply safe_ret. Qed.
Lemma safe_chunk : safe read_chunk (λ c n, wf_cas_chunk c ∧ n = 48%nat).
Proof. unfold read_chunk. repeat safe_field. by apply safe_ret. Qed.

Lemma length_file_bytes f :
  length (file_bytes f) = (48 + length (entries f) * 48 +
    (if has_flag (file_flags f) FLAG_WITH_VERIFICATION then length (verifications f) * 48 else 0) +
    (if has_flag (file_flags f) FLAG_WITH_METADATA_EXT then 48 else 0))%nat.
Proof.
  unfold file_bytes, u32_le, zeros. rewrite !length_app, length_as_bytes, !length_to_le, length_replicate.
  pose proof (len_flat_map_const entry_bytes 48 (entries f) length_entry_bytes) as He.
  pose proof (len_flat_map_const verification_bytes 48 (verifications f) length_verification_bytes) as Hv.
  unfold len in He, Hv.
  destruct (has_flag _ FLAG_WITH_VERIFICATION), (has_flag _ FLAG_WITH_METADATA_EXT);
    rewrite ?length_app, ?length_as_bytes, ?length_replicate; simpl length; lia.
Qed.

Lemma length_cas_bytes b : length (cas_bytes b) = (48 + length (cas_chunks b) * 48)%nat.
Proof.
  unfold cas_bytes, u32_le. rewrite !length_app, length_as_bytes, !length_to_le.
  pose proof (len_flat_map_const chunk_bytes 48 (cas_chunks b) length_chunk_bytes) as Hc.
  unfold len in Hc. lia.
Qed.

(** What one round of a section loop may answer. *)
Definition section_round {A} (ser : A → bytes) (P : A → Prop) (acc : list A)
    (r : list A + list A) (n : nat) : Prop :=
  match r with
  | inl acc' => ∃ x, acc' = acc ++ [x] ∧ P x ∧ n = length (ser x)
  | inr acc' => acc' = acc ∧ n = 48%nat
  end.

Lemma safe_file acc : safe (parse_file acc) (section_round file_bytes wf_file acc).
Proof.
  unfold parse_file. do 4 safe_field.
  destruct (is_bookend_hash x) eqn:Hb; [by apply safe_ret|].
  eapply safe_bind; [apply safe_guard_u32|]. intros _ n ->.
  eapply safe_bind; [apply safe_n, safe_entry|]. intros es n (Hes & Hlen & ->).
  eapply (safe_bind _ _ (λ vs n, length vs = (if has_flag x0 FLAG_WITH_VERIFICATION
    then Z.to_nat x1 else O) ∧ n = (length vs * 48)%nat)).
  { destruct (has_flag x0 FLAG_WITH_VERIFICATION); [|by apply safe_ret].
    eapply safe_bind; [apply safe_guard|]. intros _ n ->.
    eapply safe_mono; [apply (safe_n _ (λ _, True)), safe_verification|]. naive_solver. }
  intros vs n [Hvs ->].
  eapply (safe_bind _ _ (λ sha n, (is_Some sha ↔ has_flag x0 FLAG_WITH_METADATA_EXT = true) ∧
    n = if has_flag x0 FLAG_WITH_METADATA_EXT then 48%nat else O)).
  { destruct (has_flag x0 FLAG_WITH_METADATA_EXT).
    - repeat safe_field. apply safe_ret. split; [|done]. split; [done|by eexists].
    - apply safe_ret. split; [|done]. split; [by intros []|done]. }
  intros sha n [Hsha ->]. apply safe_ret. eexists. split; [done|]. split.
  - unfold wf_file. cbn [file_hash file_flags entries verifications sha256 unwrap].
    split_and!; try done; [|by rewrite Hlen]. unfold is_u32, len in *. lia.
  - rewrite length_file_bytes. cbn [entries verifications file_flags]. 
    destruct (has_flag _ FLAG_WITH_VERIFICATION), (has_flag _ FLAG_WITH_METADATA_EXT); lia.
Qed.

Lemma safe_cas acc : safe (parse_cas acc) (section_round cas_bytes wf_cas acc).
Proof.
  unfold parse_cas. do 5 safe_field.
  destruct (is_bookend_hash x) eqn:Hb; [by apply safe_ret|].
  eapply safe_bind; [apply safe_guard|]. intros _ n ->.
  eapply safe_bind; [apply safe_n, safe_chunk|]. intros cs n (Hcs & Hlen & ->).
  apply safe_ret. eexists. split; [done|]. split.
  - unfold wf_cas. cbn [cas_xorb cas_flags num_bytes_in_cas num_bytes_on_disk cas_chunks unwrap].
    split_and!; try done. unfold is_u32, len in *. lia.
  - rewrite length_cas_bytes. cbn [cas_chunks]. lia.
Qed.

Lemma safe_section {A} (body : list A → C (list A + list A)) (ser : A → bytes) (P : A → Prop) :
  (∀ acc, safe (body acc) (section_round ser P acc)) → (∀ x, 1 ≤ length (ser x))%nat →
  ∀ fuel acc b p, (p ≤ length b)%nat → (length b - p < fuel)%nat →
  safe_at b p (loop_st fuel body acc) (λ r n, ∃ l, r = acc ++ l ∧ Forall P l ∧
    n = (length (flat_map ser l) + 48)%nat).
Proof.
  intros Hbody Hser. induction fuel as [|fuel IH]; intros acc b p Hp Hf; [lia|]. simpl.
  eapply safe_at_bind; [by apply Hbody|]. intros [acc'|acc'] n Hr Hn; simpl in Hr.
  - destruct Hr as (x & -> & Hx & ->). specialize (Hser x).
    eapply wps_mono; [apply IH; lia| |done].
    intros r c (n & -> & Hle & l & -> & Hl & ->). exists (length (flat_map ser l) + 48)%nat.
    split_and!; [done|done|]. exists (x :: l). rewrite <-app_assoc. simpl. rewrite length_app.
    split_and!; [done|by constructor|lia].
  - destruct Hr as [-> ->]. apply safe_ret; [|done]. exists []. rewrite app_nil_r. by split_and!.
Qed.

Lemma safe_footer total fsz :
  safe (parse_footer total fsz) (λ r n,
    match r with
    | Some ft => fsz = FOOTER_SIZE ∧ wf_footer ft ∧ n = 200%nat
    | None => fsz ≠ FOOTER_SIZE ∧ n = O
    end).
Proof.
  unfold parse_footer. destruct (Z.eqb_spec fsz FOOTER_SIZE) as [->|Hne]; [|by apply safe_ret].
  safe_field. destruct (Z.eqb_spec x MDB_SHARD_FOOTER_VERSION) as [->|]; [|apply safe_throw].
  cbn [negb]. do 8 safe_field. destruct (total <? x6); [apply safe_throw|].
  apply safe_ret. by split_and!.
Qed.

Lemma length_footer_bytes a b o ft : length (footer_bytes a b o ft) = 200%nat.
Proof.
  unfold footer_bytes, u64_le, zeros. cbn [flat_map].
  rewrite !length_app, length_as_bytes, !length_to_le, length_replicate. done.
Qed.

Lemma length_serialize s :
  length (serialize s) = (48 + (length (flat_map file_bytes (files s)) + 48) +
    (length (flat_map cas_bytes (cas_blocks s)) + 48) +
    match footer s with Some _ => 200 | None => 0 end)%nat.
Proof.
  rewrite serialize_sections. unfold bookend, u64_le, zeros.
  rewrite !length_app, length_vec_to_list, !length_to_le, !length_replicate.
  destruct (footer s); rewrite ?length_footer_bytes; unfold HASH_LEN; simpl length; lia.
Qed.

Lemma safe_parse_cursor total b :
  safe_at b 0 (parse_cursor total (S (length b)))
    (λ s n, wf_shard s ∧ n = length (serialize s)).
Proof.
  unfold parse_cursor. eapply safe_at_bind; [apply safe_take; lia|]. intros tg n [Htg ->] Hn. cbv zeta.
  eapply safe_at_bind; [apply safe_u64; lia|]. intros v n [Hv ->] Hn1.
  destruct (Z.eqb_spec v MDB_SHARD_HEADER_VERSION) as [->|]; [|by apply safe_throw].
  cbn [negb]. eapply safe_at_bind; [apply safe_u64; lia|]. intros fsz n [Hfsz ->] Hn2.
  eapply safe_at_bind; [apply (safe_section _ file_bytes wf_file safe_file length_file_bytes_ge); lia|].
  intros fl n (fl' & -> & Hfl & ->) Hn3.
  eapply safe_at_bind; [apply (safe_section _ cas_bytes wf_cas safe_cas length_cas_bytes_ge); lia|].
  intros cb n (cb' & -> & Hcb & ->) Hn4.
  eapply safe_at_bind; [by apply safe_footer|]. intros ft n Hft Hn5.
  apply safe_ret; [|done]. rewrite length_serialize. unfold wf_shard. simpl.
  destruct ft as [ft|]; [destruct Hft as (-> & ? & ->)|destruct Hft as [? ->]];
    (split; [by split_and!|unfold HASH_LEN; lia]).
Qed.

Lemma serialize_relocate s : serialize (relocate s) = serialize s.
Proof. rewrite !serialize_sections. destruct s as [hd fl cb [ft|]]; reflexivity. Qed.

Lemma parse_sound b :
  wp (parse b) (λ s, wf_shard s ∧ len (serialize s) ≤ len b ∧ len b ≤ MAX_SHARD_BYTES) (λ _, True).
Proof.
  unfold parse. destruct (Z.ltb_spec MAX_SHARD_BYTES (len b)); [done|].
  pose proof (safe_parse_cursor (len b) b) as Hs. unfold safe_at, wps, Cursor_new in *.
  destruct (parse_cursor _ _ _) as [[s|e| |] c]; try done. simpl.
  destruct Hs as (n & -> & Hn & Hwf & ->). split; [done|]. unfold len in *. lia.
Qed.

(** C24. Writing then reading a well-formed shard gives it back, with the
    footer's offsets pointing at the sections where the serializer put them. *)
Theorem parse_serialize s :
  wf_shard s → len (serialize s) ≤ MAX_SHARD_BYTES → parse (serialize s) = Ok (relocate s).
Proof. apply parse_serialize_wf. Qed.

(** C23. The shard parser is total on hostile uploads: it never panics nor
    loops, and whatever it accepts is well-formed, needs no more bytes than the
    upload had (so no declared count can force an allocation beyond it), and is
    stable: serialized, it is accepted again and serializes to the same bytes. *)
Theorem parse_total b :
  match parse b with
  | Ok s => wf_shard s ∧ len (serialize s) ≤ len b ∧
      ∃ s', parse (serialize s) = Ok s' ∧ serialize s' = serialize s
  | Err e => MAX_SHARD_BYTES < len b → e = TooLarge (len b)
  | Panic | Diverged => False
  end.
Proof.
  pose proof (parse_sound b) as Hs. destruct (parse b) as [s|e| |] eqn:Hp; try done.
  - destruct Hs as (Hwf & Hle & Hmax). split_and!; [done|done|]. exists (relocate s).
    split; [apply parse_serialize_wf; [done|lia]|apply serialize_relocate].
  - intros Hm. unfold parse in Hp. rewrite (proj2 (Z.ltb_lt _ _)) in Hp by done. congruence.
Qed.

(** A shard with every optional part. *)
Definition example_hash (b : byte) : Hash32 := mkHash32 (Vector.const b HASH_LEN).
Definition example_shard : ParsedShard :=
  mkParsedShard (mkShardHeader (array_of HASH_LEN MDB_SHARD_HEADER_TAG) 2 200)
    [mkParsedFile (newtype (example_hash x01)) (2 ^ 31 + 2 ^ 30)
       [mkFileTermEntry (newtype (example_hash x02)) 0 10 0 1] [example_hash x03]
       (Some (hash_of (map byte_of_Z (map Z.of_nat (seq 0 32)))))]
    [mkParsedCasBlock (newtype (example_hash x02)) 0 10 18
       [mkCasChunkEntry (newtype (example_hash x04)) 0 10]]
    (Some (mkShardFooter 1 0 0 Hash32_ZERO 7 8 0)).

Lemma parse_serialize_witness :
  len (serialize example_shard) = 632 ∧
  parse (serialize example_shard) = Ok (relocate example_shard).
Proof.
  split; [vm_compute; reflexivity|]. apply (parse_serialize example_shard).
  - apply (bool_decide_unpack (wf_shard example_shard)). vm_compute. exact I.
  - vm_compute. discriminate.
Defined.
