(* ===== verification/MemStore.v ===== *)
(** * The in-memory blob store ([crates/bale-server-storage-mem])

    The two maps, the byte counter with its cap, and the compare-and-swap loop
    of [reserve], first run alone inside an operation, then interleaved with
    any number of concurrent reservations. *)

From S2P Require Import Prelude RustStd Core.

Record MemBlobStore := mkMemBlobStore {
  xorbs : gmap XorbHash bytes;
  shards : gmap ShardHash bytes;
  stored_bytes : Z;
  max_bytes : option Z;
}.

Definition Mem_new : MemBlobStore := mkMemBlobStore ∅ ∅ 0 None.
Definition with_max_bytes (m : Z) (s : MemBlobStore) : MemBlobStore :=
  mkMemBlobStore (xorbs s) (shards s) (stored_bytes s) (Some m).

Definition set_xorbs x (s : MemBlobStore) : MemBlobStore :=
  mkMemBlobStore x (shards s) (stored_bytes s) (max_bytes s).
Definition set_shards x (s : MemBlobStore) : MemBlobStore :=
  mkMemBlobStore (xorbs s) x (stored_bytes s) (max_bytes s).
Definition set_stored n (s : MemBlobStore) : MemBlobStore :=
  mkMemBlobStore (xorbs s) (shards s) n (max_bytes s).

Abbreviation Mem := (ST MemBlobStore CoreError).

Definition checked_add_u64 (a b : Z) : option Z :=
  if a + b <=? u64_max then Some (a + b) else None.

(** What a round of [reserve] decides from the counter it loaded. *)
Definition reserve_decide (max cur n : Z) : CoreResult Z :=
  next ← ok_or (BadRequest (lit "mem store byte counter overflow")) (checked_add_u64 cur n);
  if max <? next then Err (BadRequest (lit "mem store capacity exhausted")) else mret next.

(** [AtomicU64::compare_exchange]. *)
Definition compare_exchange (cur next : Z) : Mem bool := λ s,
  if stored_bytes s =? cur then (Ok true, set_stored next s) else (Ok false, s).

(** The loop with nobody else running: one round is enough. *)
Definition reserve (n : Z) : Mem unit :=
  m ← gets max_bytes;
  match m with
  | None => mret tt
  | Some max =>
      loop_st 1 (λ _ : unit,
        cur ← gets stored_bytes;
        next ← lift (reserve_decide max cur n);
        done ← compare_exchange cur next;
        mret (if done : bool then inr tt else inl tt)) tt
  end.

Definition mem_put_xorb (hash : XorbHash) (body : bytes) : Mem bool :=
  g ← gets xorbs;
  match g !! hash with
  | Some _ => mret false
  | None =>
      _ ← reserve (len body);
      _ ← modify (set_xorbs (<[hash := body]> g));
      mret true
  end.

Definition mem_xorb_exists (hash : XorbHash) : Mem bool :=
  gets (λ s, bool_decide (is_Some (xorbs s !! hash))).

Definition mem_get_xorb_range (hash : XorbHash) (start end_ : Z) : Mem bytes :=
  if end_ <? start then throw (BadRequest (lit "inverted byte range"))
  else
    g ← gets xorbs;
    body ← lift (ok_or NotFound (g !! hash));
    if len body <? start then throw (BadRequest (lit "range start past end"))
    else lift (or_panic (slice body (Z.to_nat start) (Z.to_nat (Z.min end_ (len body))))).

Definition mem_put_shard (hash : ShardHash) (body : bytes) : Mem unit :=
  g ← gets shards;
  _ ← (match g !! hash with
       | None => reserve (len body)
       | Some _ => mret tt
       end);
  modify (set_shards (<[hash := body]> g)).

Definition mem_get_shard (hash : ShardHash) : Mem bytes :=
  g ← gets shards;
  lift (ok_or NotFound (g !! hash)).

#[global] Instance MemBlobStore_ops : BlobStore MemBlobStore := {|
  put_xorb := mem_put_xorb;
  blob_exists := mem_xorb_exists;
  get_xorb_range := mem_get_xorb_range;
  put_shard := mem_put_shard;
  get_shard := mem_get_shard;
  presign_xorb_range := presign_default;
|}.

(** ** Concurrent reservations

    Each caller of [reserve(n)] is at one of these places; a step of the system
    is one atomic access of one caller to the counter. *)
Inductive caller :=
  | Start (n : Z)
  | Loaded (n cur : Z)
  | Reserved (n : Z)
  | Refused (n : Z).

Inductive cas_step (max : Z) : Z * list caller → Z * list caller → Prop :=
  | cas_load cur cs i n :
      cs !! i = Some (Start n) →
      cas_step max (cur, cs) (cur, <[i := Loaded n cur]> cs)
  | cas_refuse cur cs i n seen e :
      cs !! i = Some (Loaded n seen) → reserve_decide max seen n = Err e →
      cas_step max (cur, cs) (cur, <[i := Refused n]> cs)
  | cas_exchange cur cs i n next :
      cs !! i = Some (Loaded n cur) → reserve_decide max cur n = Ok next →
      cas_step max (cur, cs) (next, <[i := Reserved n]> cs)
  | cas_retry cur cs i n seen next :
      cs !! i = Some (Loaded n seen) → reserve_decide max seen n = Ok next → seen ≠ cur →
      cas_step max (cur, cs) (cur, <[i := Start n]> cs).

Definition reserved_of (c : caller) : Z := match c with Reserved n => n | _ => 0 end.
Definition reserved_total (cs : list caller) : Z := sumZ (reserved_of <$> cs).

(** ** Lemmas *)

Lemma reserve_decide_Ok max cur n next :
  reserve_decide max cur n = Ok next ↔ next = cur + n ∧ next ≤ u64_max ∧ next ≤ max.
Proof.
  unfold reserve_decide, checked_add_u64.
  destruct (Z.leb_spec (cur + n) u64_max); cbn [ok_or mbind outcome_bind].
  2: { split; [done|]. intros (-> & ? & ?). lia. }
  destruct (Z.ltb_spec max (cur + n)).
  - split; [done|]. intros (-> & ? & ?). lia.
  - split; [intros [= <-]; lia|]. by intros (-> & _).
Qed.

Lemma reserve_decide_wp max cur n :
  wp (reserve_decide max cur n) (λ next, next = cur + n ∧ next ≤ u64_max ∧ next ≤ max)
    (λ e, e = BadRequest (lit "mem store byte counter overflow") ∨
          e = BadRequest (lit "mem store capacity exhausted")).
Proof.
  pose proof (reserve_decide_Ok max cur n) as H. unfold reserve_decide, checked_add_u64 in *.
  destruct (_ <=? _); [|by left]. cbn [ok_or mbind outcome_bind] in *.
  destruct (max <? cur + n); [by right|]. by apply H.
Qed.

(** [reserve] adds to the counter when it fits, and otherwise changes nothing. *)
Lemma reserve_spec n s :
  wps (reserve n) s
    (λ _ s', match max_bytes s with
             | None => s' = s
             | Some m => s' = set_stored (stored_bytes s + n) s ∧ stored_bytes s + n ≤ m
             end)
    (λ e s', s' = s ∧ (e = BadRequest (lit "mem store byte counter overflow") ∨
                       e = BadRequest (lit "mem store capacity exhausted"))).
Proof.
  unfold reserve. wsteps. destruct (max_bytes s) as [m|] eqn:Hm; [|done].
  cbn [loop_st]. wsteps. eapply wp_mono; [apply reserve_decide_wp| |auto].
  intros next (-> & ? & ?). wsteps. unfold compare_exchange, wps.
  rewrite Z.eqb_refl. done.
Qed.

#[global] Program Instance MemBlobStore_spec : BlobStoreSpec MemBlobStore := {|
  blob_ok _ := True;
  blob_healthy _ := True;
  blob_xorb s h := xorbs s !! h;
  blob_shard s h := shards s !! h;
|}.
Next Obligation.
  intros h body s _. simpl. unfold mem_put_xorb. wsteps.
  destruct (xorbs s !! h) as [b|] eqn:Hh; wsteps; [done|].
  eapply wps_mono; [apply reserve_spec| |intros e s' [-> _]; split_and!; [done|by left|done..]].
  intros u s' Hs'. wsteps. simpl.
  assert (shards s' = shards s) as -> by (destruct (max_bytes s); [by destruct Hs' as [-> _]|by subst]).
  split_and!; [done|done|apply lookup_insert_eq|].
  intros k Hk. by apply lookup_insert_ne.
Qed.
Next Obligation.
  intros h s _. simpl. unfold mem_xorb_exists. wsteps. by rewrite bool_decide_eq_true.
Qed.
Next Obligation.
  intros h a b s _ Ha. simpl. unfold mem_get_xorb_range.
  destruct (Z.ltb_spec b a); wsteps; [done|].
  destruct (xorbs s !! h) as [body|]; [|done]. cbn [ok_or wp].
  destruct (Z.ltb_spec (len body) a); wsteps; [done|].
  assert (Hs : is_Some (slice body (Z.to_nat a) (Z.to_nat (Z.min b (len body))))).
  { unfold len in *. rewrite slice_ok by lia. by eexists. }
  destruct Hs as [r Hr]. rewrite Hr. cbn [or_panic wp]. split_and!; [done..|].
  split; [lia|]. right. exists body. split_and!; done.
Qed.
Next Obligation.
  intros h a b s body _ _ Hb Hab Hl _. simpl. unfold mem_get_xorb_range.
  rewrite (proj2 (Z.ltb_ge _ _)) by lia. unfold mbind, ST_bind, gets, lift. rewrite Hb. simpl.
  rewrite (proj2 (Z.ltb_ge _ _)) by lia. unfold len in *. by rewrite slice_ok by lia.
Qed.
Next Obligation.
  intros h body s _. simpl. unfold mem_put_shard. wsteps.
  assert (Hins : ∀ s', xorbs s' = xorbs s →
    let s'' := set_shards (<[h := body]> (shards s)) s' in
    True ∧ (∀ k, xorbs s'' !! k = xorbs s !! k) ∧
    (shards s'' !! h = Some body ∨ is_Some (shards s !! h) ∧ shards s'' !! h = shards s !! h) ∧
    ∀ k, k ≠ h → shards s'' !! k = shards s !! k).
  { intros s' Hs'. simpl. rewrite Hs'. split_and!; [done|done| |].
    - left. apply lookup_insert_eq.
    - intros k Hk. by apply lookup_insert_ne. }
  destruct (shards s !! h) as [b|] eqn:Hh; wsteps; [by apply Hins|].
  eapply wps_mono; [apply reserve_spec| |intros e s' [-> _]; split_and!; [done..|by left|done]].
  intros u s' Hs'. wsteps. apply Hins.
  destruct (max_bytes s); [by destruct Hs' as [-> _]|by subst].
Qed.
Next Obligation.
  intros h s _. simpl. unfold mem_get_shard. wsteps. by destruct (shards s !! h).
Qed.
Next Obligation. done. Qed.

(** C38. The compare-and-swap loop is safe under any interleaving: whatever
    callers run [reserve] concurrently and however their loads, refusals,
    exchanges and retries interleave, the counter is exactly the initial count
    plus the granted reservations and never exceeds the cap. *)
Theorem reserve_concurrent_cap max cur0 ns cur cs :
  cur0 ≤ max → rtc (cas_step max) (cur0, Start <$> ns) (cur, cs) →
  cur = cur0 + reserved_total cs ∧ cur ≤ max.
Proof.
  intros Hmax Hsteps.
  assert (Hinit : reserved_total (Start <$> ns) = 0).
  { unfold reserved_total. clear. induction ns as [|n ns IH]; [done|]. exact IH. }
  revert Hsteps. apply (rtc_ind_r (λ st : Z * list caller,
    st.1 = cur0 + reserved_total st.2 ∧ st.1 ≤ max)); [simpl; lia|].
  clear Hinit. unfold reserved_total. intros st st' _ Hstep [IH1 IH2].
  destruct Hstep as [c cs' i n Hi|c cs' i n seen e Hi Hd|c cs' i n next Hi Hd|c cs' i n seen next Hi Hd Hne];
    simpl in *; rewrite list_fmap_insert;
    (erewrite sumZ_insert by (by rewrite list_lookup_fmap, Hi)); simpl; try lia.
  apply reserve_decide_Ok in Hd. lia.
Qed.

Lemma reserve_concurrent_cap_witness :
  rtc (cas_step 10) (0, [Start 6; Start 6]) (6, [Reserved 6; Refused 6]) ∧
  6 = 0 + reserved_total [Reserved 6; Refused 6] ∧ 6 ≤ 10.
Proof.
  assert (Hr : rtc (cas_step 10) (0, Start <$> [6; 6]) (6, [Reserved 6; Refused 6])).
  { eapply rtc_l; [apply (cas_load 10 0 _ 0%nat 6); reflexivity|]. simpl.
    eapply rtc_l; [apply (cas_load 10 0 _ 1%nat 6); reflexivity|]. simpl.
    eapply rtc_l; [apply (cas_exchange 10 0 _ 0%nat 6 6); reflexivity|]. simpl.
    eapply rtc_l; [apply (cas_retry 10 6 _ 1%nat 6 0 6); done|]. simpl.
    eapply rtc_l; [apply (cas_load 10 6 _ 1%nat 6); reflexivity|]. simpl.
    eapply rtc_l; [eapply (cas_refuse 10 6 _ 1%nat 6 6); reflexivity|]. apply rtc_refl. }
  split; [exact Hr|]. apply (reserve_concurrent_cap 10 0 [6; 6] 6 [Reserved 6; Refused 6]); [lia|exact Hr].
Defined.

(** ** The cap over a history of puts *)

Inductive mem_op := PutXorb (h : XorbHash) (b : bytes) | PutShard (h : ShardHash) (b : bytes).

(** A put, whatever its answer. *)
Definition mem_apply (o : mem_op) (s : MemBlobStore) : MemBlobStore :=
  match o with
  | PutXorb h b => (mem_put_xorb h b s).2
  | PutShard h b => (mem_put_shard h b s).2
  end.

Definition held_bytes (s : MemBlobStore) : Z := map_sum len (xorbs s) + map_sum len (shards s).

(** The shard bodies are the ones their hashes name. *)
Definition shard_content (content : ShardHash → bytes) (o : mem_op) : Prop :=
  match o with PutShard h b => b = content h | PutXorb _ _ => True end.

Definition mem_inv (content : ShardHash → bytes) (m : Z) (s : MemBlobStore) : Prop :=
  max_bytes s = Some m ∧ stored_bytes s = held_bytes s ∧ stored_bytes s ≤ m ∧
  map_Forall (λ h b, b = content h) (shards s).

Lemma mem_apply_inv content m o s :
  shard_content content o → mem_inv content m s → mem_inv content m (mem_apply o s).
Proof.
  intros Ho (Hm & Hst & Hle & Hc). unfold mem_inv, held_bytes in *.
  pose proof (λ n, reserve_spec n s) as Hres. unfold wps in Hres. rewrite Hm in Hres.
  destruct o as [h b|h b]; simpl in *.
  - unfold mem_put_xorb, mbind, ST_bind, gets.
    destruct (xorbs s !! h) as [b'|] eqn:Hh; [done|]. specialize (Hres (len b)).
    destruct (reserve (len b) s) as [[[]|e| |] s']; [|by destruct Hres as [-> _]|done..].
    destruct Hres as [-> ?]. simpl. rewrite map_sum_insert by done. split_and!; [done|lia|done|done].
  - unfold mem_put_shard, mbind, ST_bind, gets. subst b.
    destruct (shards s !! h) as [b'|] eqn:Hh.
    + simpl. rewrite insert_id; [by split_and!|]. rewrite Hh. f_equal. by eapply Hc.
    + specialize (Hres (len (content h))).
      destruct (reserve _ s) as [[[]|e| |] s']; [|by destruct Hres as [-> _]|done..].
      destruct Hres as [-> ?]. simpl. rewrite map_sum_insert by done. split_and!; [done|lia|done|].
      by apply map_Forall_insert_2.
Qed.

(** The memory store never holds more than its cap: after any sequence of
    xorb and shard puts, accepted or refused, the bodies held add up to the
    counter and to at most [max_bytes] (shard bodies being the ones their hash
    names, which is what content addressing means). *)
Theorem mem_store_capacity content m ops :
  0 ≤ m → Forall (shard_content content) ops →
  let s := foldl (λ s o, mem_apply o s) (with_max_bytes m Mem_new) ops in
  held_bytes s = stored_bytes s ∧ held_bytes s ≤ m.
Proof.
  intros Hm Hops. cbv zeta.
  assert (Hinv : mem_inv content m (with_max_bytes m Mem_new)).
  { unfold mem_inv, held_bytes. simpl. rewrite !map_sum_empty. split_and!; [done|done|lia|].
    apply map_Forall_empty. }
  revert Hinv. generalize (with_max_bytes m Mem_new). induction Hops as [|o ops Ho _ IH]; intros s Hs; simpl.
  - destruct Hs as (_ & ? & ? & _). lia.
  - by apply IH, mem_apply_inv.
Qed.

Lemma mem_store_capacity_witness :
  let ops := [PutXorb (newtype Hash32_ZERO) (lit "abc"); PutShard (newtype Hash32_ZERO) (lit "shard");
              PutXorb (newtype Hash32_ALL_ONES) (lit "de")] in
  let s := foldl (λ s o, mem_apply o s) (with_max_bytes 6 Mem_new) ops in
  stored_bytes s = 5 ∧ held_bytes s = stored_bytes s ∧ held_bytes s ≤ 6.
Proof.
  split; [vm_compute; reflexivity|].
  apply (mem_store_capacity (λ _, lit "shard") 6); [lia|]. repeat constructor.
Defined.
