(* ===== verification/FsStore.v ===== *)
(** * The file-system blob store ([crates/bale-server-storage-fs])

    [write_atomic] is a program of file-system calls, each of which may fail;
    the calls act on a small model of a POSIX file system in which a file's
    data may not have reached the disk yet and a renamed entry may not survive
    a crash.  The store's operations run the program; its crash and
    interference properties are about every point of its execution. *)

From S2P Require Import Prelude RustStd Core.

(** ** The file system *)

Definition path := list str.

Record file := mkFile {
  content : bytes;
  synced : bool;   (** the data has reached the disk *)
  linked : bool;   (** the directory entry has reached the disk *)
}.

Record fs := mkFs {
  files : gmap path file;
  dirs : gset path;
}.

Definition parent (p : path) : path := take (length p - 1) p.

Fixpoint prefixes (p : path) : list path :=
  match p with
  | [] => [[]]
  | c :: p => [] :: (cons c <$> prefixes p)
  end.

(** The calls the store makes.  A file handle is its path, since the store
    never opens two; the answer of [Metadata] is used for its length only. *)
Inductive fs_op :=
  | Stat (p : path)
  | CreateDirAll (p : path)
  | CreateNew (p : path)
  | WriteAll (p : path) (b : bytes)
  | SyncAll (p : path)
  | RemoveFile (p : path)
  | Rename (p q : path)
  | OpenDir (p : path)
  | SyncDir (p : path)
  | ReadFile (p : path)
  | OpenFile (p : path)
  | Metadata (p : path)
  | Seek (p : path) (n : Z)
  | ReadExact (p : path) (start want : Z).

(** A call may fail for a reason of its own, with a message; a failing write
    may have stored a part of the data. *)
Inductive fault := NoFault | Fault (msg : str) (partial : nat).

Inductive io_error := IoNotFound | IoOther (msg : str).
Abbreviation io_result := (outcome io_error bytes).

Definition set_files f (s : fs) : fs := mkFs f (dirs s).
Definition set_dirs d (s : fs) : fs := mkFs (files s) d.

Definition is_file (s : fs) (p : path) : bool := bool_decide (is_Some (files s !! p)).
Definition is_dir (s : fs) (p : path) : bool := bool_decide (p ∈ dirs s).
Definition exists_path (s : fs) (p : path) : bool := is_file s p || is_dir s p.

Definition ok_unit : io_result := Ok [].
Definition other (m : string) : io_result := Err (IoOther (lit m)).

Definition fs_exec (o : fs_op) (ft : fault) (s : fs) : io_result * fs :=
  match ft with
  | Fault msg n =>
      (Err (IoOther msg),
       match o with
       | WriteAll p b =>
           set_files (alter (λ f, mkFile (content f ++ take n b) false (linked f)) p (files s)) s
       | _ => s
       end)
  | NoFault =>
      match o with
      | Stat p => if exists_path s p then (ok_unit, s) else (Err IoNotFound, s)
      | CreateDirAll p =>
          if existsb (is_file s) (prefixes p) then (other "not a directory", s)
          else (ok_unit, set_dirs (list_to_set (prefixes p) ∪ dirs s) s)
      | CreateNew p =>
          if exists_path s p then (other "file exists", s)
          else if negb (is_dir s (parent p)) then (Err IoNotFound, s)
          else (ok_unit, set_files (<[p := mkFile [] false false]> (files s)) s)
      | WriteAll p b =>
          (ok_unit, set_files (alter (λ f, mkFile (content f ++ b) false (linked f)) p (files s)) s)
      | SyncAll p =>
          (ok_unit, set_files (alter (λ f, mkFile (content f) true (linked f)) p (files s)) s)
      | RemoveFile p =>
          if is_file s p then (ok_unit, set_files (delete p (files s)) s)
          else (Err IoNotFound, s)
      | Rename p q =>
          match files s !! p with
          | Some f =>
              if is_dir s q || negb (is_dir s (parent q)) then (other "cannot rename", s)
              else (ok_unit, set_files (<[q := mkFile (content f) (synced f) false]>
                                          (delete p (files s))) s)
          | None => (Err IoNotFound, s)
          end
      | OpenDir p => if is_dir s p then (ok_unit, s) else (Err IoNotFound, s)
      | SyncDir p =>
          (ok_unit, set_files (map_imap (λ q f, Some (if decide (parent q = p)
             then mkFile (content f) (synced f) true else f)) (files s)) s)
      | ReadFile p | Metadata p =>
          match files s !! p with
          | Some f => (Ok (content f), s)
          | None => (Err IoNotFound, s)
          end
      | OpenFile p => if is_file s p then (ok_unit, s) else (Err IoNotFound, s)
      | Seek p n => (ok_unit, s)
      | ReadExact p start want =>
          match files s !! p with
          | Some f =>
              match slice (content f) (Z.to_nat start) (Z.to_nat (start + want)) with
              | Some r => (Ok r, s)
              | None => (other "failed to fill whole buffer", s)
              end
          | None => (Err IoNotFound, s)
          end
      end
  end.

(** A program of calls. *)
Inductive prog (A : Type) :=
  | Ret (a : A)
  | Do (o : fs_op) (k : io_result → prog A).
Arguments Ret {A} a.
Arguments Do {A} o k.

(** [match r { Ok(x) => x, Err(e) => e }] by cases. *)
Definition io_case {A} (r : io_result) (ok : bytes → A) (err : io_error → A) (other : A) : A :=
  match r with Ok b => ok b | Err e => err e | _ => other end.

Section store.
(** [hex::encode]; the environment variable of the failure test; how an I/O
    error prints. *)
Variable hex_encode : bytes → str.
Variable test_fs_write_fail : bool.
Variable show_error : io_error → str.

Definition display (p : path) : str := x2f :: concat (p ≫= λ c, [c; [x2f]]).

Definition fanout (kind : str) (h : Hash32) : path :=
  let hex := hex_encode (as_bytes h) in
  let aa := take 2 hex in
  let bb := take 2 (drop 2 hex) in
  [kind; aa; bb; hex].

Definition xorb_path (root : path) (h : XorbHash) : path := root ++ fanout (lit "xorbs") (unwrap h).
Definition shard_path (root : path) (h : ShardHash) : path := root ++ fanout (lit "shards") (unwrap h).
Definition tmp_path (root : path) (uuid : str) : path := root ++ [lit "tmp"; uuid].

Definition internal (m : string) (e : io_error) : CoreError := Internal (lit m ++ show_error e).

(** [rename], and what follows each of its answers. *)
Definition after_write (tmp dst : path) : prog (CoreResult bool) :=
  Do (Rename tmp dst) (λ r, io_case r
    (λ _, Do (OpenDir (parent dst)) (λ r, io_case r
       (λ _, Do (SyncDir (parent dst)) (λ _, Ret (Ok true)))
       (λ _, Ret (Ok true)) (Ret Panic)))
    (λ e, Do (Stat dst) (λ r, io_case r
       (λ _, Do (RemoveFile tmp) (λ _, Ret (Ok false)))
       (λ _, Do (RemoveFile tmp) (λ _,
          Ret (Err (Internal (lit "rename to " ++ display dst ++ lit ": " ++ show_error e)))))
       (Ret Panic)))
    (Ret Panic)).

Definition write_failed (tmp : path) (e : io_error) : prog (CoreResult bool) :=
  Do (RemoveFile tmp) (λ _, Ret (Err (internal "write tmp: " e))).

Definition write_atomic (tmp dst : path) (body : bytes) : prog (CoreResult bool) :=
  Do (Stat dst) (λ r, io_case r
    (λ _, Ret (Ok false))
    (λ _, Do (CreateDirAll (parent dst)) (λ r, io_case r
      (λ _, Do (CreateNew tmp) (λ r, io_case r
        (λ _, Do (WriteAll tmp body) (λ r, io_case r
          (λ _, if test_fs_write_fail
                then write_failed tmp (IoOther (lit "BALE_TEST_FS_WRITE_FAIL"))
                else Do (SyncAll tmp) (λ r, io_case r
                  (λ _, after_write tmp dst)
                  (write_failed tmp) (Ret Panic)))
          (write_failed tmp) (Ret Panic)))
        (λ e, Ret (Err (internal "create tmp: " e))) (Ret Panic)))
      (λ e, Ret (Err (Internal (lit "mkdir " ++ display (parent dst) ++ lit ": " ++ show_error e))))
      (Ret Panic)))
    (Ret Panic)).

(** ** The store

    The disk, the faults the next calls will meet, and the supply of UUIDs. *)
Record FsBlobStore := mkFsBlobStore {
  root : path;
  disk : fs;
  faults : list fault;
  uuids : nat;
}.

Variable new_uuid : nat → str.

Abbreviation Fs := (ST FsBlobStore CoreError).

Definition next_fault (s : FsBlobStore) : fault := default NoFault (head (faults s)).

(** One call on the store's disk. *)
Definition io (o : fs_op) (s : FsBlobStore) : io_result * FsBlobStore :=
  let '(r, d) := fs_exec o (next_fault s) (disk s) in
  (r, mkFsBlobStore (root s) d (tail (faults s)) (uuids s)).

Fixpoint run {A} (p : prog (CoreResult A)) (s : FsBlobStore) : CoreResult A * FsBlobStore :=
  match p with
  | Ret a => (a, s)
  | Do o k => let '(r, s') := io o s in run (k r) s'
  end.

Definition fresh_tmp : Fs path := λ s,
  (Ok (tmp_path (root s) (new_uuid (uuids s))),
   mkFsBlobStore (root s) (disk s) (faults s) (S (uuids s))).

Definition fs_write (dst : path) (body : bytes) : Fs bool :=
  tmp ← fresh_tmp;
  run (write_atomic tmp dst body).

Definition fs_put_xorb (hash : XorbHash) (body : bytes) : Fs bool :=
  r ← gets root;
  fs_write (xorb_path r hash) body.

Definition fs_xorb_exists (hash : XorbHash) : Fs bool :=
  r ← gets root;
  run (Do (Stat (xorb_path r hash)) (λ r, io_case r (λ _, Ret (Ok true)) (λ _, Ret (Ok false))
        (Ret Panic))).

Definition read_range (path : path) (start end_ : Z) : prog (CoreResult bytes) :=
  Do (OpenFile path) (λ r, io_case r
    (λ _, Do (Metadata path) (λ r, io_case r
      (λ data,
         let n := len data in
         if n <? start then Ret (Err (BadRequest (lit "range start past end")))
         else
           let end_ := Z.min end_ n in
           let want := end_ - start in
           Do (Seek path start) (λ r, io_case r
             (λ _, Do (ReadExact path start want) (λ r, io_case r
               (λ buf, Ret (Ok buf))
               (λ e, Ret (Err (internal "read xorb: " e))) (Ret Panic)))
             (λ e, Ret (Err (internal "seek xorb: " e))) (Ret Panic)))
      (λ e, Ret (Err (internal "stat xorb: " e))) (Ret Panic)))
    (λ e, Ret (Err (match e with
                    | IoNotFound => NotFound
                    | _ => internal "open xorb: " e
                    end)))
    (Ret Panic)).

Definition fs_get_xorb_range (hash : XorbHash) (start end_ : Z) : Fs bytes :=
  if end_ <? start then throw (BadRequest (lit "inverted byte range"))
  else
    r ← gets root;
    run (read_range (xorb_path r hash) start end_).

Definition fs_put_shard (hash : ShardHash) (body : bytes) : Fs unit :=
  r ← gets root;
  _ ← fs_write (shard_path r hash) body;
  mret tt.

Definition fs_get_shard (hash : ShardHash) : Fs bytes :=
  r ← gets root;
  run (Do (ReadFile (shard_path r hash)) (λ r, io_case r
    (λ data, Ret (Ok data))
    (λ e, Ret (Err (match e with
                    | IoNotFound => NotFound
                    | _ => internal "read shard: " e
                    end)))
    (Ret Panic))).

(** [open]: the three directories. *)
Definition fs_open (root : path) (d : fs) (fts : list fault) : CoreResult unit * FsBlobStore :=
  for_each (λ sub : str, λ s,
    let '(r, s') := io (CreateDirAll (root ++ [sub])) s in
    (io_case r (λ _, Ok tt) (λ e, Err (Internal (lit "mkdir " ++ sub ++ lit ": " ++ show_error e)))
       Panic, s'))
    [lit "xorbs"; lit "shards"; lit "tmp"] (mkFsBlobStore root d fts O).

Definition FsBlobStore_ops : BlobStore FsBlobStore := {|
  put_xorb := fs_put_xorb;
  blob_exists := fs_xorb_exists;
  get_xorb_range := fs_get_xorb_range;
  put_shard := fs_put_shard;
  get_shard := fs_get_shard;
  presign_xorb_range := presign_default;
|}.
End store.

(** ** Reasoning about programs

    [pwp E G p s Q]: run from [s], with other activity in [E] between its
    calls, [p] makes only transitions in [G], and ends with [Q]. *)
Section pwp.
Context {A : Type} (E G : fs → fs → Prop).
Fixpoint pwp (p : prog A) (s : fs) (Q : A → fs → Prop) : Prop :=
  match p with
  | Ret a => Q a s
  | Do o k => ∀ s1 ft, E s s1 →
      G s1 (fs_exec o ft s1).2 ∧ pwp (k (fs_exec o ft s1).1) (fs_exec o ft s1).2 Q
  end.

Lemma pwp_env p s s' Q :
  Transitive E → (∀ a t t', Q a t → E t t' → Q a t') → E s s' → pwp p s Q → pwp p s' Q.
Proof.
  intros HE HQ Hs. destruct p as [a|o k]; simpl; [by eauto|].
  intros Hp s1 ft H1. apply Hp. by trans s'.
Qed.
End pwp.

Lemma fs_exec_returns o ft s : returned (fs_exec o ft s).1.
Proof. destruct ft, o; simpl; repeat case_match; done. Qed.

(** The program alone on the store's disk. *)
Lemma pwp_run {A} (p : prog (CoreResult A)) (Q : CoreResult A → fs → Prop) s :
  pwp eq (λ _ _, True) p (disk s) Q →
  let '(r, s') := run p s in Q r (disk s') ∧ root s' = root s.
Proof.
  revert s. induction p as [a|o k IH]; intros s Hp; simpl; [done|].
  unfold io. simpl in Hp. specialize (Hp (disk s) (next_fault s) eq_refl).
  destruct (fs_exec o (next_fault s) (disk s)) as [r d] eqn:He. simpl in Hp. destruct Hp as [_ Hp].
  specialize (IH r (mkFsBlobStore (root s) d (tail (faults s)) (uuids s)) Hp). exact IH.
Qed.

(** ** The file system's calls on a path *)

Lemma prefixes_length p q : q ∈ prefixes p → (length q ≤ length p)%nat.
Proof.
  revert q. induction p as [|c p IH]; intros q; simpl; [intros ->%list_elem_of_singleton; done|].
  rewrite elem_of_cons, list_elem_of_fmap. intros [->|(q' & -> & Hq)]; simpl; [lia|].
  apply IH in Hq. lia.
Qed.

Lemma parent_length p : length (parent p) = (length p - 1)%nat.
Proof. unfold parent. rewrite length_take. lia. Qed.

(** ** Concurrent writers

    Blob paths lie four names below the root, temporary files two.  [good p b]
    says that [b] is the body that the path [p] names. *)
Section writers.
Variable rootp : path.
Variable good : path → bytes → Prop.

Definition blob_path (p : path) : Prop := length p = (length rootp + 4)%nat.
Definition tmp_file (p : path) : Prop := length p = (length rootp + 2)%nat.

(** Every blob entry is complete and on the disk. *)
Definition blob_inv (s : fs) : Prop :=
  ∀ p, blob_path p → (p ∉ dirs s) ∧
    ∀ f, files s !! p = Some f → good p (content f) ∧ synced f = true.
Definition keeps (s s' : fs) : Prop :=
  ∀ p, blob_path p → is_Some (files s !! p) → is_Some (files s' !! p).

(** What a writer with temporary file [t] does, and what it tolerates. *)
Definition guarantee (t : path) (s s' : fs) : Prop :=
  blob_inv s' ∧ keeps s s' ∧
  ∀ p, tmp_file p → p ≠ t → files s' !! p = files s !! p.
Definition rely (t : path) (s s' : fs) : Prop :=
  blob_inv s' ∧ keeps s s' ∧ files s' !! t = files s !! t.

#[global] Instance rely_trans t : Transitive (rely t).
Proof.
  intros x y z (? & Hk & Hf) (? & Hk' & Hf'). split_and!; [done| |congruence].
  intros p Hp Hs. by apply Hk', Hk.
Qed.

Lemma guarantee_rely t u s s' : tmp_file u → u ≠ t → guarantee t s s' → rely u s s'.
Proof. intros Hu Hne (? & ? & Hf). split_and!; [done|done|by apply Hf]. Qed.

Lemma guarantee_refl t s : blob_inv s → guarantee t s s.
Proof. intros. split_and!; [done|by intros ???|done]. Qed.

(** A change at one temporary file. *)
Lemma guarantee_tmp t s m :
  tmp_file t → blob_inv s → (∀ p, p ≠ t → m !! p = files s !! p) →
  guarantee t s (set_files m s).
Proof.
  intros Ht Hb Hm. assert (Hne : ∀ p, blob_path p → p ≠ t).
  { intros p Hp ->. unfold blob_path, tmp_file in *. lia. }
  split_and!.
  - intros p Hp. simpl. rewrite Hm by auto. by apply Hb.
  - intros p Hp. simpl. by rewrite Hm by auto.
  - intros p Hp Hpt. simpl. by apply Hm.
Qed.

Lemma exec_tmp t o ft s :
  tmp_file t → blob_inv s →
  match o with
  | CreateNew p | WriteAll p _ | SyncAll p | RemoveFile p => p = t
  | Stat _ | OpenDir _ => True
  | _ => False
  end → guarantee t s (fs_exec o ft s).2.
Proof.
  intros Ht Hb Ho. destruct ft, o; simpl in *; try done; subst; simpl;
    repeat case_match; simpl; try (by apply guarantee_refl);
    apply guarantee_tmp; try done; intros q Hq.
  all: first [by rewrite lookup_alter_ne|by rewrite lookup_insert_ne|by rewrite lookup_delete_ne].
Qed.

Lemma exec_mkdir t p ft s :
  blob_inv s → (length p < length rootp + 4)%nat → guarantee t s (fs_exec (CreateDirAll p) ft s).2.
Proof.
  intros Hb Hp. destruct ft; simpl; [|by apply guarantee_refl].
  case_match; simpl; [by apply guarantee_refl|]. split_and!; [|by intros ???|done].
  intros q Hq. split; [|by apply Hb]. simpl. rewrite elem_of_union, elem_of_list_to_set.
  intros [Hin|Hin]; [|by apply (Hb q)]. apply prefixes_length in Hin. unfold blob_path in *. lia.
Qed.

Lemma exec_syncdir t p ft s :
  blob_inv s → length p ≠ (length rootp + 1)%nat → guarantee t s (fs_exec (SyncDir p) ft s).2.
Proof.
  intros Hb Hp. destruct ft; simpl; [|by apply guarantee_refl]. split_and!.
  - intros q Hq. split; [by apply (Hb q)|]. intros f. simpl. rewrite map_lookup_imap.
    destruct (files s !! q) as [g|] eqn:Hg; simpl; [|done].
    destruct (proj2 (Hb q Hq) g Hg). intros [= <-]. by case_decide.
  - intros q Hq. simpl. rewrite map_lookup_imap. intros [g ->]. by eexists.
  - intros q Hq Hqt. simpl. rewrite map_lookup_imap. destruct (files s !! q) as [g|]; simpl; [|done].
    rewrite decide_False; [done|]. intros <-. rewrite parent_length in Hp.
    unfold tmp_file in Hq. lia.
Qed.

Lemma exec_rename t dst ft s f :
  tmp_file t → blob_path dst → blob_inv s → files s !! t = Some f →
  good dst (content f) → synced f = true →
  guarantee t s (fs_exec (Rename t dst) ft s).2 ∧
  ((fs_exec (Rename t dst) ft s).1 = ok_unit →
   is_Some (files (fs_exec (Rename t dst) ft s).2 !! dst)).
Proof.
  intros Ht Hd Hb Hf Hg Hs. destruct ft as [|msg n]; simpl; [|split; [by apply guarantee_refl|done]].
  rewrite Hf. case_match; simpl; [split; [by apply guarantee_refl|done]|].
  split; [|intros _; rewrite lookup_insert_eq; by eexists]. split_and!.
  - intros p Hp. split; [by apply (Hb p)|]. simpl. intros g.
    destruct (decide (p = dst)) as [->|Hne]; [rewrite lookup_insert_eq; by intros [= <-]|].
    rewrite lookup_insert_ne by done. intros [_ Hg']%lookup_delete_Some. by apply (Hb p).
  - intros p Hp Hsome. simpl. destruct (decide (p = dst)) as [->|Hne].
    + rewrite lookup_insert_eq. by eexists.
    + rewrite lookup_insert_ne, lookup_delete_ne; [done| |done].
      intros <-. unfold blob_path, tmp_file in *. lia.
  - intros p Hp Hpt. simpl. rewrite lookup_insert_ne, lookup_delete_ne; [done|done|].
    intros ->. unfold blob_path, tmp_file in *. lia.
Qed.

Variable show_error : io_error → str.

(** The answer of a writer: success means that the blob is there. *)
Definition written (dst : path) (r : CoreResult bool) (s : fs) : Prop :=
  match r with Ok _ => is_Some (files s !! dst) | Err _ => True | _ => False end.

Lemma written_stable t dst r s s' :
  blob_path dst → written dst r s → rely t s s' → written dst r s'.
Proof. intros Hd. destruct r; simpl; try done. intros Hs (_ & Hk & _). by apply Hk. Qed.

(** A call that ends the program one way or the other. *)
Lemma pwp_remove t s r dst :
  tmp_file t → written dst r s → blob_path dst →
  pwp (rely t) (guarantee t) (Do (RemoveFile t) (λ _, Ret r)) s (written dst).
Proof.
  intros Ht Hr Hd s1 ft HE. pose proof HE as (Hb & _).
  pose proof (exec_tmp t (RemoveFile t) ft s1 Ht Hb eq_refl) as HG. split; [done|]. simpl.
  eapply written_stable in HE; [|done..].
  destruct r; try done. destruct HG as (_ & Hk & _). by apply Hk.
Qed.

Lemma stat_blob ft s p :
  blob_path p → blob_inv s → (fs_exec (Stat p) ft s).1 = ok_unit → is_Some (files s !! p).
Proof.
  intros Hp Hb. destruct ft; simpl; [|done]. unfold exists_path, is_file, is_dir.
  destruct (bool_decide (is_Some _)) eqn:Hf; [by apply bool_decide_eq_true in Hf|].
  rewrite bool_decide_false by (by apply (Hb p)). done.
Qed.

Lemma after_write_pwp t dst s f :
  tmp_file t → blob_path dst → files s !! t = Some f → good dst (content f) → synced f = true →
  pwp (rely t) (guarantee t) (after_write show_error t dst) s (written dst).
Proof.
  intros Ht Hd Hf Hg Hs s1 ft HE. pose proof HE as (Hb & _ & Ht1). rewrite Hf in Ht1.
  destruct (exec_rename t dst ft s1 f Ht Hd Hb Ht1 Hg Hs) as [HG Hok]. split; [done|].
  pose proof (fs_exec_returns (Rename t dst) ft s1) as Hret.
  destruct (fs_exec (Rename t dst) ft s1) as [[b|e| |] s2] eqn:He; try done; cbn [io_case fst snd] in *.
  - assert (Hs2 : is_Some (files s2 !! dst)).
    { apply Hok. destruct ft; simpl in He; repeat case_match; simplify_eq; done. }
    intros s3 ft3 HE3. pose proof HE3 as (Hb3 & Hk3 & _).
    split; [by apply exec_tmp|].
    assert (Hs3 : fs_exec (OpenDir (parent dst)) ft3 s3 = ((fs_exec (OpenDir (parent dst)) ft3 s3).1, s3))
      by (destruct ft3; simpl; by repeat case_match).
    rewrite Hs3. pose proof (fs_exec_returns (OpenDir (parent dst)) ft3 s3) as Hr3.
    destruct (fs_exec (OpenDir (parent dst)) ft3 s3).1; try done; cbn [io_case fst snd].
    + intros s4 ft4 HE4. pose proof HE4 as (Hb4 & Hk4 & _).
      assert (HG4 : guarantee t s4 (fs_exec (SyncDir (parent dst)) ft4 s4).2).
      { apply exec_syncdir; [done|]. rewrite parent_length. unfold blob_path in Hd. lia. }
      split; [done|]. simpl. destruct HG4 as (_ & Hk & _). by apply Hk, Hk4, Hk3.
    + simpl. by apply Hk3.
  - intros s3 ft3 HE3. pose proof HE3 as (Hb3 & Hk3 & _). split; [by apply exec_tmp|].
    assert (Hs3 : (fs_exec (Stat dst) ft3 s3).2 = s3) by (destruct ft3; simpl; by repeat case_match).
    pose proof (stat_blob ft3 s3 dst Hd Hb3) as Hst.
    pose proof (fs_exec_returns (Stat dst) ft3 s3) as Hr3. rewrite Hs3.
    destruct (fs_exec (Stat dst) ft3 s3).1 as [b3|e3| |] eqn:He3; try done; cbn [io_case].
    + apply pwp_remove; [done| |done]. apply Hst.
      destruct ft3; simpl in He3; [|done]. case_match; [done|discriminate].
    + by apply pwp_remove.
Qed.

Lemma write_atomic_pwp flag t dst body s :
  tmp_file t → blob_path dst → good dst body →
  pwp (rely t) (guarantee t) (write_atomic flag show_error t dst body) s (written dst).
Proof.
  intros Ht Hd Hg s1 ft1 HE1. pose proof HE1 as (Hb1 & _). split; [by apply exec_tmp|].
  assert (Hs1 : (fs_exec (Stat dst) ft1 s1).2 = s1) by (destruct ft1; simpl; by repeat case_match).
  pose proof (stat_blob ft1 s1 dst Hd Hb1) as Hst. rewrite Hs1.
  pose proof (fs_exec_returns (Stat dst) ft1 s1) as Hr1.
  destruct (fs_exec (Stat dst) ft1 s1).1 as [b1|e1| |] eqn:He1; try done; cbn [io_case].
  { simpl. apply Hst. destruct ft1; simpl in He1; [|done]. case_match; [done|discriminate]. }
  intros s2 ft2 HE2. pose proof HE2 as (Hb2 & _). split.
  { apply exec_mkdir; [done|]. rewrite parent_length. unfold blob_path in Hd. lia. }
  pose proof (fs_exec_returns (CreateDirAll (parent dst)) ft2 s2) as Hr2.
  destruct (fs_exec (CreateDirAll (parent dst)) ft2 s2).1; try done; cbn [io_case].
  intros s3 ft3 HE3. pose proof HE3 as (Hb3 & _). split; [by apply exec_tmp|].
  pose proof (fs_exec_returns (CreateNew t) ft3 s3) as Hr3.
  assert (Hnew : is_ok (fs_exec (CreateNew t) ft3 s3).1 = true →
    files (fs_exec (CreateNew t) ft3 s3).2 !! t = Some (mkFile [] false false)).
  { destruct ft3; simpl; [|done]. repeat case_match; try done. intros _. apply lookup_insert_eq. }
  destruct (fs_exec (CreateNew t) ft3 s3) as [[b3|e3| |] s3'] eqn:He3; try done; cbn [io_case fst snd] in *.
  specialize (Hnew eq_refl).
  intros s4 ft4 HE4. pose proof HE4 as (Hb4 & _ & Ht4). rewrite Hnew in Ht4. split; [by apply exec_tmp|].
  destruct ft4 as [|msg n]; cbn [fs_exec fst snd io_case ok_unit].
  2: { unfold write_failed. by apply pwp_remove. }
  destruct flag; [unfold write_failed; by apply pwp_remove|].
  intros s5 ft5 HE5. pose proof HE5 as (Hb5 & _ & Ht5). split; [by apply exec_tmp|].
  cbn [set_files files] in Ht5. rewrite lookup_alter_eq, Ht4 in Ht5. simpl in Ht5.
  destruct ft5 as [|msg n]; cbn [fs_exec fst snd io_case ok_unit].
  2: { unfold write_failed. by apply pwp_remove. }
  apply (after_write_pwp t dst _ (mkFile body true false)); [done|done| |done|done].
  cbn [set_files files]. by rewrite lookup_alter_eq, Ht5.
Qed.

(** ** Any number of writers, in any interleaving, with any faults *)
Record writer := mkWriter { w_tmp : path; w_dst : path; w_body : bytes }.

Definition wf_writer (w : writer) : Prop :=
  tmp_file (w_tmp w) ∧ blob_path (w_dst w) ∧ good (w_dst w) (w_body w).

Inductive pool_step : list (prog (CoreResult bool)) * fs → list (prog (CoreResult bool)) * fs → Prop :=
  | pool_call ps s i o k ft :
      ps !! i = Some (Do o k) →
      pool_step (ps, s) (<[i := k (fs_exec o ft s).1]> ps, (fs_exec o ft s).2).

Definition pool_inv (ws : list writer) (st : list (prog (CoreResult bool)) * fs) : Prop :=
  blob_inv st.2 ∧ length st.1 = length ws ∧
  ∀ i w p, ws !! i = Some w → st.1 !! i = Some p →
    pwp (rely (w_tmp w)) (guarantee (w_tmp w)) p st.2 (written (w_dst w)).

Lemma pool_step_inv ws st st' :
  Forall wf_writer ws → NoDup (w_tmp <$> ws) →
  pool_inv ws st → pool_step st st' → pool_inv ws st'.
Proof.
  intros Hwf Hnd (Hb & Hlen & Hall) Hstep. destruct Hstep as [ps s i o k ft Hi]. simpl in *.
  destruct (lookup_lt_is_Some_2 ws i) as [w Hw].
  { rewrite <-Hlen. by eapply lookup_lt_Some. }
  rewrite Forall_forall in Hwf.
  assert (Hrefl : rely (w_tmp w) s s) by (split_and!; [done|by intros ???|done]).
  destruct (Hall i w _ Hw Hi s ft Hrefl) as [HG Hk]. split; [apply HG|].
  split; [simpl; by rewrite length_insert|]. simpl. intros j w' p Hw' Hp.
  destruct (decide (i = j)) as [<-|Hne].
  - rewrite list_lookup_insert_eq in Hp by (by eapply lookup_lt_Some). by simplify_eq.
  - rewrite list_lookup_insert_ne in Hp by done.
    destruct (Hwf w') as (Ht' & Hd' & _); [by apply (list_elem_of_lookup_2 _ j)|].
    eapply pwp_env; [apply _| | |by apply (Hall j)].
    + intros r t1 t2 Hr HR. by eapply written_stable.
    + apply (guarantee_rely (w_tmp w)); [done| |done]. intros Heq. apply Hne.
      eapply (NoDup_lookup _ i j (w_tmp w)); [done|by rewrite list_lookup_fmap, Hw|].
      by rewrite list_lookup_fmap, Hw', <-Heq.
Qed.

Lemma pool_reachable flag ws s st :
  Forall wf_writer ws → NoDup (w_tmp <$> ws) → blob_inv s →
  rtc pool_step ((λ w, write_atomic flag show_error (w_tmp w) (w_dst w) (w_body w)) <$> ws, s) st →
  pool_inv ws st.
Proof.
  intros Hwf Hnd Hb. apply (rtc_ind_r (pool_inv ws)).
  - split; [done|]. split; [apply length_fmap|]. intros i w p Hw Hp. simpl in *.
    rewrite list_lookup_fmap, Hw in Hp. simplify_eq/=.
    rewrite Forall_forall in Hwf. destruct (Hwf w) as (? & ? & ?); [by apply (list_elem_of_lookup_2 _ i)|].
    by apply write_atomic_pwp.
  - intros st1 st2 _ Hstep Hinv. by eapply pool_step_inv.
Qed.

(** A crash: data that was not synced may be anything, an entry that was not
    synced may be gone. *)
Definition crash (s s' : fs) : Prop :=
  ∀ p, blob_path p → (p ∈ dirs s' → p ∈ dirs s) ∧
    match files s !! p, files s' !! p with
    | None, None => True
    | Some f, None => linked f = false
    | Some f, Some f' => synced f' = true ∧ (synced f = true → content f' = content f)
    | None, Some _ => False
    end.

Lemma crash_blob_inv s s' : blob_inv s → crash s s' → blob_inv s'.
Proof.
  intros Hb Hc p Hp. destruct (Hb p Hp) as [Hd Hf], (Hc p Hp) as [Hd' Hm].
  split; [auto|]. intros f' Hf'. rewrite Hf' in Hm.
  destruct (files s !! p) as [f|]; [|done]. destruct (Hf f eq_refl) as [Hg Hs].
  destruct Hm as [? Heq]. by rewrite Heq.
Qed.

(** C9. Blob writes are atomic under concurrency, faults and crashes: however
    the calls of any number of writers interleave, whichever of them fail and
    wherever the machine crashes, every entry at a content-addressed path holds
    the complete body that the path names; and a writer that answered success
    left its blob in place, where it stays whatever the others do. *)
Theorem write_atomic_concurrent flag ws s ps s1 s2 :
  Forall wf_writer ws → NoDup (w_tmp <$> ws) → blob_inv s →
  rtc pool_step ((λ w, write_atomic flag show_error (w_tmp w) (w_dst w) (w_body w)) <$> ws, s)
    (ps, s1) →
  crash s1 s2 →
  blob_inv s1 ∧ blob_inv s2 ∧
  ∀ i w b, ws !! i = Some w → ps !! i = Some (Ret (Ok b)) → is_Some (files s1 !! w_dst w).
Proof.
  intros Hwf Hnd Hb Hsteps Hc. destruct (pool_reachable _ _ _ _ Hwf Hnd Hb Hsteps) as (Hb1 & _ & Hall).
  split_and!; [done|by eapply crash_blob_inv|]. intros i w b Hw Hp. exact (Hall i w _ Hw Hp).
Qed.
End writers.

(** ** One operation at a time

    What a call of [write_atomic] does to the blobs when nothing else runs. *)
Section sequential.
Variable rootp : path.
Variable show_error : io_error → str.

Definition view (s : fs) (p : path) : option bytes := content <$> files s !! p.
Definition no_blob_dir (s : fs) : Prop := ∀ p, blob_path rootp p → p ∉ dirs s.
Definition same (s s' : fs) : Prop :=
  no_blob_dir s' ∧ ∀ p, blob_path rootp p → view s' p = view s p.

Definition write_post (s : fs) (dst : path) (body : bytes) (r : CoreResult bool) (s' : fs) : Prop :=
  match r with
  | Ok true => no_blob_dir s' ∧ view s' dst = Some body ∧
      ∀ p, blob_path rootp p → p ≠ dst → view s' p = view s p
  | Ok false => is_Some (view s dst) ∧ same s s'
  | Err _ => same s s'
  | _ => False
  end.

Lemma same_refl s : no_blob_dir s → same s s.
Proof. by split. Qed.
Lemma same_trans s1 s2 s3 : same s1 s2 → same s2 s3 → same s1 s3.
Proof. intros [? H1] [? H2]. split; [done|]. intros p Hp. by rewrite H2, H1. Qed.

Lemma same_tmp s m t :
  tmp_file rootp t → no_blob_dir s → (∀ p, p ≠ t → m !! p = files s !! p) → same s (set_files m s).
Proof.
  intros Ht Hn Hm. split; [exact Hn|]. intros p Hp. unfold view. simpl. rewrite Hm; [done|].
  intros ->. unfold blob_path, tmp_file in *. lia.
Qed.

(** Every call of the program but the rename leaves the blobs as they are. *)
Lemma exec_same t o ft s :
  tmp_file rootp t → no_blob_dir s →
  match o with
  | CreateNew p | WriteAll p _ | SyncAll p | RemoveFile p => p = t
  | CreateDirAll p => (length p < length rootp + 4)%nat
  | Stat _ | OpenDir _ | SyncDir _ => True
  | _ => False
  end → same s (fs_exec o ft s).2.
Proof.
  intros Ht Hn Ho. destruct ft as [|msg n], o; simpl in *; try done; subst; simpl; unfold other;
    repeat case_match; simpl; try (by apply same_refl);
    try (apply (same_tmp _ _ t); [done|done|]; intros q Hq;
         first [by rewrite lookup_alter_ne|by rewrite lookup_insert_ne|by rewrite lookup_delete_ne]).
  - split; [|done]. intros q Hq. simpl. rewrite elem_of_union, elem_of_list_to_set.
    intros [Hin|Hin]; [|by eapply Hn]. apply prefixes_length in Hin. unfold blob_path in *. lia.
  - split; [exact Hn|]. intros q Hq. unfold view. simpl. rewrite map_lookup_imap.
    destruct (files s !! q); simpl; [|done]. by case_decide.
Qed.

Lemma same_post s s1 dst body r s2 :
  blob_path rootp dst → same s s1 → write_post s1 dst body r s2 → write_post s dst body r s2.
Proof.
  intros Hd Hs. destruct r as [[]|e| |]; simpl; try done.
  - intros (? & ? & H). split_and!; [done|done|]. intros p Hp Hne. rewrite H by done. by apply Hs.
  - intros [? ?]. split; [by rewrite <-(proj2 Hs)|by eapply same_trans].
  - intros. by eapply same_trans.
Qed.

Lemma pwp_post {A} (p : prog A) s (Q Q' : A → fs → Prop) :
  (∀ a t, Q a t → Q' a t) → pwp eq (λ _ _, True) p s Q → pwp eq (λ _ _, True) p s Q'.
Proof.
  intros HQ. revert s. induction p as [a|o k IH]; intros s; simpl; [by auto|].
  intros Hp s1 ft Heq. split; [done|]. apply IH. by apply Hp.
Qed.

(** A quiet call in front of a program. *)
Lemma pwp_quiet t o k s dst body :
  tmp_file rootp t → blob_path rootp dst → no_blob_dir s →
  match o with
  | CreateNew p | WriteAll p _ | SyncAll p | RemoveFile p => p = t
  | CreateDirAll p => (length p < length rootp + 4)%nat
  | Stat _ | OpenDir _ | SyncDir _ => True
  | _ => False
  end →
  (∀ r s', returned r → same s s' → (∃ ft, fs_exec o ft s = (r, s')) →
     pwp eq (λ _ _, True) (k r) s' (write_post s' dst body)) →
  pwp eq (λ _ _, True) (Do o k) s (write_post s dst body).
Proof.
  intros Ht Hd Hn Ho Hk s1 ft <-. split; [done|].
  pose proof (exec_same t o ft s Ht Hn Ho) as Hsame.
  eapply pwp_post; [intros a u; by apply (same_post _ (fs_exec o ft s).2)|].
  apply Hk; [apply fs_exec_returns|done|exists ft; apply surjective_pairing].
Qed.

Lemma stat_view ft s p s' :
  blob_path rootp p → no_blob_dir s → fs_exec (Stat p) ft s = (ok_unit, s') → is_Some (view s p).
Proof.
  intros Hp Hn. destruct ft; simpl; [|done]. unfold exists_path, is_file, is_dir, view.
  rewrite (bool_decide_false (p ∈ dirs s)) by (by apply Hn). rewrite orb_false_r.
  case_bool_decide as Hf; [|done]. intros _. by apply fmap_is_Some.
Qed.

Lemma after_write_seq t dst s f :
  tmp_file rootp t → blob_path rootp dst → no_blob_dir s → files s !! t = Some f →
  pwp eq (λ _ _, True) (after_write show_error t dst) s (write_post s dst (content f)).
Proof.
  intros Ht Hd Hn Hf s1 ft <-. split; [done|].
  assert (Hfail : ∀ e, pwp eq (λ _ _, True)
    (Do (Stat dst) (λ r, io_case r
       (λ _, Do (RemoveFile t) (λ _, Ret (Ok false)))
       (λ _, Do (RemoveFile t) (λ _,
          Ret (Err (Internal (lit "rename to " ++ display dst ++ lit ": " ++ show_error e)))))
       (Ret Panic))) s (write_post s dst (content f))).
  { intros e. apply (pwp_quiet t); [done..|]. intros r s' Hr Hs (ft' & He).
    assert (s' = s) as -> by (destruct ft'; simpl in He; by repeat case_match; simplify_eq).
    destruct r; try done; cbn [io_case].
    - assert (Hsome : is_Some (view s dst)).
      { eapply stat_view; [done..|]. rewrite He. f_equal.
        destruct ft'; simpl in He; repeat case_match; by simplify_eq. }
      intros s1 ft1 <-. split; [done|]. split; [done|]. by apply (exec_same t).
    - intros s1 ft1 <-. split; [done|]. by apply (exec_same t). }
  destruct ft as [|msg n]; [|apply Hfail]. simpl. rewrite Hf.
  destruct (is_dir s dst || negb (is_dir s (parent dst))); [apply Hfail|].
  cbn [fst snd io_case ok_unit]. set (s2 := set_files _ s).
  assert (Hpost : ∀ s', same s2 s' → write_post s dst (content f) (Ok true) s').
  { intros s' [Hn' Hv]. simpl. split_and!; [done| |].
    - rewrite Hv by done. unfold view, s2. simpl. by rewrite lookup_insert_eq.
    - intros p Hp Hne. rewrite Hv by done. unfold view, s2. simpl.
      rewrite lookup_insert_ne, lookup_delete_ne; [done| |done].
      intros <-. unfold blob_path, tmp_file in *. lia. }
  intros s3 ft3 <-. split; [done|].
  assert (H3 : same s2 (fs_exec (OpenDir (parent dst)) ft3 s2).2) by (by apply (exec_same t)).
  pose proof (fs_exec_returns (OpenDir (parent dst)) ft3 s2).
  destruct (fs_exec (OpenDir (parent dst)) ft3 s2) as [[b|e| |] s3]; try done; cbn [fst snd io_case] in *.
  - intros s4 ft4 <-. split; [done|]. apply Hpost. eapply same_trans; [done|].
    apply (exec_same t); [done|apply H3|done].
  - by apply Hpost.
Qed.

Lemma write_failed_seq t dst body s e :
  tmp_file rootp t → blob_path rootp dst → no_blob_dir s →
  pwp eq (λ _ _, True) (write_failed show_error t e) s (write_post s dst body).
Proof. intros Ht Hd Hn s1 ft <-. split; [done|]. by apply (exec_same t). Qed.

Lemma write_atomic_seq flag t dst body s :
  tmp_file rootp t → blob_path rootp dst → no_blob_dir s →
  pwp eq (λ _ _, True) (write_atomic flag show_error t dst body) s (write_post s dst body).
Proof.
  intros Ht Hd Hn. apply (pwp_quiet t); [done..|]. intros r s1 Hr Hs1 (ft & He).
  destruct r; try done; cbn [io_case].
  { assert (s1 = s) as -> by (destruct ft; simpl in He; by repeat case_match; simplify_eq).
    split; [|done]. eapply stat_view; [done..|]. rewrite He. f_equal.
    destruct ft; simpl in He; repeat case_match; by simplify_eq. }
  clear He. apply (pwp_quiet t); [done|done|apply Hs1| |].
  { rewrite parent_length. unfold blob_path in Hd. lia. }
  intros r s2 Hr2 Hs2 _. destruct r; try done; cbn [io_case]; [|by apply same_refl, Hs2].
  apply (pwp_quiet t); [done|done|apply Hs2|done|].
  intros r s3 Hr3 Hs3 (ft3 & He3). destruct r; try done; cbn [io_case]; [|by apply same_refl, Hs3].
  assert (H3 : files s3 !! t = Some (mkFile [] false false)).
  { destruct ft3; simpl in He3; repeat case_match; simplify_eq. apply lookup_insert_eq. }
  apply (pwp_quiet t); [done|done|apply Hs3|done|].
  intros r s4 Hr4 Hs4 (ft4 & He4). destruct r; try done; cbn [io_case];
    [|by apply write_failed_seq; [..|apply Hs4]].
  destruct flag; [by apply write_failed_seq; [..|apply Hs4]|].
  assert (H4 : files s4 !! t = Some (mkFile body false false)).
  { destruct ft4; simpl in He4; simplify_eq. simpl. by rewrite lookup_alter_eq, H3. }
  apply (pwp_quiet t); [done|done|apply Hs4|done|].
  intros r s5 Hr5 Hs5 (ft5 & He5). destruct r; try done; cbn [io_case];
    [|by apply write_failed_seq; [..|apply Hs5]].
  apply (after_write_seq t dst s5 (mkFile body true false)); [done|done|apply Hs5|].
  destruct ft5; simpl in He5; simplify_eq. simpl. by rewrite lookup_alter_eq, H4.
Qed.
End sequential.

(** ** The store keeps the promise of [BlobStore] *)
Section spec.
#[local] Set Default Proof Using "Type*".
Variable hex_encode : bytes → str.
Variable flag : bool.
Variable show_error : io_error → str.
Variable new_uuid : nat → str.
(** Different hashes have different hex texts. *)
Hypothesis hex_inj : ∀ a b, hex_encode a = hex_encode b → a = b.

Abbreviation xpath := (xorb_path hex_encode).
Abbreviation spath := (shard_path hex_encode).

Lemma xorb_path_blob r h : blob_path r (xpath r h).
Proof. unfold blob_path, xorb_path, fanout. rewrite length_app. simpl. done. Qed.
Lemma shard_path_blob r h : blob_path r (spath r h).
Proof. unfold blob_path, shard_path, fanout. rewrite length_app. simpl. done. Qed.
Lemma tmp_path_tmp r u : tmp_file r (tmp_path r u).
Proof. unfold tmp_file, tmp_path. rewrite length_app. simpl. done. Qed.

Lemma xorb_path_inj r h k : xpath r h = xpath r k → h = k.
Proof.
  intros [= _ _ H]%app_inv_head. apply hex_inj, as_bytes_inj in H.
  destruct h, k. simpl in *. by subst.
Qed.
Lemma shard_path_inj r h k : spath r h = spath r k → h = k.
Proof.
  intros [= _ _ H]%app_inv_head. apply hex_inj, as_bytes_inj in H.
  destruct h, k. simpl in *. by subst.
Qed.
Lemma xorb_shard_ne r h k : xpath r h ≠ spath r k.
Proof. by intros [=]%app_inv_head. Qed.

Lemma fs_write_spec dst body s :
  blob_path (root s) dst → no_blob_dir (root s) (disk s) →
  wps (fs_write flag show_error new_uuid dst body) s
    (λ b s', root s' = root s ∧ write_post (root s) (disk s) dst body (Ok b) (disk s'))
    (λ e s', root s' = root s ∧ same (root s) (disk s) (disk s')).
Proof.
  intros Hd Hn. unfold fs_write, fresh_tmp. unfold wps, mbind, ST_bind.
  set (s1 := mkFsBlobStore _ _ _ _).
  pose proof (pwp_run _ _ s1 (write_atomic_seq (root s) show_error flag
    (tmp_path (root s) (new_uuid (uuids s))) dst body (disk s) (tmp_path_tmp _ _) Hd Hn)) as Hrun.
  destruct (run _ s1) as [[b|e| |] s']; simpl in Hrun; destruct Hrun as [? ?]; done.
Qed.

(** A program that only reads. *)
Lemma read_range_seq p start end_ s :
  0 ≤ start ≤ end_ →
  pwp eq (λ _ _, True) (read_range show_error p start end_) s (λ r s', s' = s ∧
    match r with
    | Ok d => ∃ body, view s p = Some body ∧ start ≤ len body ∧
        slice body (Z.to_nat start) (Z.to_nat (Z.min end_ (len body))) = Some d
    | Err _ => True
    | _ => False
    end).
Proof.
  intros Hse s1 ft <-. split; [done|]. destruct ft as [|msg n]; [|done]. simpl. unfold is_file.
  case_bool_decide as Hf; [|done]. intros s1 ft <-. split; [done|].
  destruct ft as [|msg n]; [|done]. simpl. destruct Hf as [f Hf]. rewrite Hf. cbn [fst snd io_case].
  destruct (Z.ltb_spec (len (content f)) start) as [|Hl]; [done|].
  intros s1 ft <-. split; [done|]. destruct ft as [|msg n]; [|done]. cbn [fs_exec fst snd io_case ok_unit].
  intros s1 ft <-. split; [done|]. destruct ft as [|msg n]; [|done]. simpl. rewrite Hf.
  replace (start + (Z.min end_ (len (content f)) - start)) with (Z.min end_ (len (content f))) by lia.
  destruct (slice _ _ _) as [d|] eqn:Hs; [|done]. cbn [fst snd io_case]. split; [done|].
  exists (content f). unfold view. by rewrite Hf.
Qed.

(** Without faults a range of a stored body is answered. *)
Lemma fs_range_live h a b s body : faults s = [] → view (disk s) (xpath (root s) h) = Some body → 0 ≤ a ≤ b → a ≤ len body →
  is_ok (fs_get_xorb_range hex_encode show_error h a b s).1 = true.
Proof using Type.
  intros Hh Hb Hab Hl. unfold fs_get_xorb_range, view in *.
  rewrite (proj2 (Z.ltb_ge _ _)) by lia. unfold mbind, ST_bind, gets.
  destruct (files (disk s) !! _) as [f|] eqn:Hf; simplify_eq/=. unfold read_range.
  do 4 (cbn [run]; unfold io, next_fault; rewrite ?Hh; cbn [head default fs_exec faults disk tail];
    unfold is_file; rewrite ?Hf; cbn [io_case ok_unit];
    rewrite ?bool_decide_true by done; cbn [io_case ok_unit];
    rewrite ?(proj2 (Z.ltb_ge (len (content f)) a)) by lia).
  rewrite slice_ok; [done|..]; unfold len in *; lia.
Qed.

Definition fs_ops : BlobStore FsBlobStore := FsBlobStore_ops hex_encode flag show_error new_uuid.
#[local] Existing Instance fs_ops.

Program Definition fs_spec : BlobStoreSpec FsBlobStore := {|
  blob_ok s := no_blob_dir (root s) (disk s);
  blob_healthy s := faults s = [];
  blob_xorb s h := view (disk s) (xpath (root s) h);
  blob_shard s h := view (disk s) (spath (root s) h);
|}.
Next Obligation.
  intros h body s Hn. simpl in *. unfold fs_put_xorb. wsteps.
  eapply wps_mono; [by apply fs_write_spec; [apply xorb_path_blob|]|..].
  - intros b s' [Hr Hp]. rewrite !Hr. destruct b; simpl in Hp.
    + destruct Hp as (Hn' & Hv & Hne). split_and!; [done| |done|].
      * intros k. apply Hne; [apply shard_path_blob|]. apply not_eq_sym, xorb_shard_ne.
      * intros k Hk. apply Hne; [apply xorb_path_blob|]. by intros ->%xorb_path_inj.
    + destruct Hp as [? [? Hs]]. split_and!; auto using xorb_path_blob, shard_path_blob.
  - intros e s' [Hr [Hn' Hs]]. rewrite !Hr. unfold stored_or_not. split_and!; auto using xorb_path_blob, shard_path_blob.
Qed.
Next Obligation.
  intros h s Hn. simpl in *. unfold fs_xorb_exists. wsteps. unfold wps. cbn [run]. unfold io.
  destruct (fs_exec (Stat (xpath (root s) h)) (next_fault s) (disk s)) as [r d] eqn:He.
  assert (d = disk s) as -> by (destruct (next_fault s); simpl in He; by repeat case_match; simplify_eq).
  pose proof (fs_exec_returns (Stat (xpath (root s) h)) (next_fault s) (disk s)) as Hr.
  rewrite He in Hr. destruct r; try done; simpl; split_and!; try done. intros _.
  eapply stat_view; [apply xorb_path_blob|done|]. rewrite He. f_equal.
  destruct (next_fault s); simpl in He; repeat case_match; by simplify_eq.
Qed.
Next Obligation.
  intros h a b s Hn Ha. simpl in *. unfold fs_get_xorb_range.
  destruct (Z.ltb_spec b a) as [|Hab]; wsteps; [done|]. unfold wps.
  pose proof (pwp_run _ _ s (read_range_seq (xpath (root s) h) a b (disk s) ltac:(lia))) as Hrun.
  destruct (run _ s) as [[d|e| |] s']; simpl in Hrun; destruct Hrun as [[Hd Hp] Hr]; rewrite ?Hd, ?Hr; try done.
  split_and!; [done..|]. unfold range_answer. naive_solver.
Qed.
Next Obligation. intros h a b s body _ Hh Hb Hab Hl _. by eapply fs_range_live. Qed.
Next Obligation.
  intros h body s Hn. simpl in *. unfold fs_put_shard. wsteps.
  eapply wps_mono; [by apply fs_write_spec; [apply shard_path_blob|]|..].
  - intros b s' [Hr Hp]. wsteps. rewrite !Hr. destruct b; simpl in Hp.
    + destruct Hp as (Hn' & Hv & Hne). split_and!; [done| |by left|].
      * intros k. apply Hne; [apply xorb_path_blob|]. apply xorb_shard_ne.
      * intros k Hk. apply Hne; [apply shard_path_blob|]. by intros ->%shard_path_inj.
    + destruct Hp as [? [? Hs]]. split_and!; auto using xorb_path_blob, shard_path_blob.
  - intros e s' [Hr [Hn' Hs]]. rewrite !Hr. unfold stored_or_not. split_and!; auto using xorb_path_blob, shard_path_blob.
Qed.
Next Obligation.
  intros h s Hn. simpl in *. unfold fs_get_shard. wsteps. unfold wps. cbn [run]. unfold io.
  destruct (next_fault s) as [|msg n]; simpl; [|done]. unfold view.
  by destruct (files (disk s) !! spath (root s) h).
Qed.
Next Obligation. done. Qed.
End spec.
