(* ===== verification/BlobStore.v ===== *)
(** * What a client of a blob store may rely on

    Histories of calls, from the laws of [BlobStoreSpec] alone, and what follows
    for the store in memory and the one on disk; and executions of the latter. *)

From S2P Require Import Prelude RustStd Core Wire MemStore FsStore.

(** ** Histories *)

Inductive blob_op :=
  | OpPutXorb (h : XorbHash) (body : bytes)
  | OpExists (h : XorbHash)
  | OpGet (h : XorbHash) (a b : Z)
  | OpPutShard (h : ShardHash) (body : bytes)
  | OpGetShard (h : ShardHash).

(** The state after a call, whatever its answer. *)
Definition blob_apply {B} `{BlobStore B} (o : blob_op) (s : B) : B :=
  match o with
  | OpPutXorb h body => (put_xorb h body s).2
  | OpExists h => (blob_exists h s).2
  | OpGet h a b => (get_xorb_range h a b s).2
  | OpPutShard h body => (put_shard h body s).2
  | OpGetShard h => (get_shard h s).2
  end.

(** Uploads are verified before they are put: a body is the one its hash names. *)
Definition content_addressed (content : XorbHash → bytes) (o : blob_op) : Prop :=
  match o with
  | OpPutXorb h body => body = content h
  | OpGet _ a _ => 0 ≤ a
  | _ => True
  end.

Section client.
Context {B : Type} `{BS : BlobStoreSpec B}.
Variable content : XorbHash → bytes.

Definition faithful (s : B) : Prop :=
  blob_ok s ∧ ∀ h b, blob_xorb s h = Some b → b = content h.

Lemma put_xorb_faithful h s :
  faithful s →
  wps (put_xorb h (content h)) s (λ _ s', faithful s' ∧ blob_xorb s' h = Some (content h) ∧
      ∀ k, is_Some (blob_xorb s k) → is_Some (blob_xorb s' k))
    (λ _ s', faithful s' ∧ ∀ k, is_Some (blob_xorb s k) → is_Some (blob_xorb s' k)).
Proof.
  intros [Hok Hc]. eapply wps_mono; [by apply put_xorb_spec|..].
  - intros fresh s' (Hok' & _ & Hf). destruct fresh.
    + destruct Hf as [Hh Hne]. split_and!; [split; [done|]|done|].
      * intros k b Hk. destruct (decide (k = h)) as [->|]; [congruence|].
        rewrite Hne in Hk by done. by apply Hc.
      * intros k Hk. destruct (decide (k = h)) as [->|]; [rewrite Hh; by eexists|].
        by rewrite Hne.
    + destruct Hf as [[b Hb] Hsame]. split_and!; [split; [done|]|..].
      * intros k b'. rewrite Hsame. apply Hc.
      * rewrite Hsame, Hb. f_equal. by apply Hc.
      * intros k. by rewrite Hsame.
  - intros e s' (Hok' & Hh & Hx & _). split; [split; [done|]|]; intros k.
    + intros b Hk. destruct (decide (k = h)) as [->|Hne]; [|rewrite Hx in Hk by done; by apply Hc].
      destruct Hh as [Hh|Hh]; rewrite Hh in Hk; [by apply Hc|congruence].
    + intros Hk. destruct (decide (k = h)) as [->|Hne]; [|by rewrite Hx].
      destruct Hh as [->| ->]; [done|by eexists].
Qed.

Lemma blob_apply_faithful o s :
  content_addressed content o → faithful s →
  faithful (blob_apply o s) ∧ ∀ k, is_Some (blob_xorb s k) → is_Some (blob_xorb (blob_apply o s) k).
Proof.
  assert (Hsame : ∀ s' : B, faithful s → blob_ok s' → (∀ k, blob_xorb s' k = blob_xorb s k) →
    faithful s' ∧ ∀ k, is_Some (blob_xorb s k) → is_Some (blob_xorb s' k)).
  { intros s' [_ Hc] Hok' Hx. split; [split; [done|]|]; intros k; rewrite Hx; [apply Hc|done]. }
  intros Ho Hs. pose proof Hs as [Hok _]. destruct o as [h body|h|h a b|h body|h]; simpl in *.
  - subst. pose proof (put_xorb_faithful h s Hs) as Hw. unfold wps in Hw.
    destruct (put_xorb h _ s) as [[?|?| |] s']; simpl; tauto.
  - pose proof (blob_exists_spec h s Hok) as Hw. unfold wps in Hw.
    destruct (blob_exists h s) as [[?|?| |] s']; simpl; try done; apply Hsame; tauto.
  - pose proof (get_xorb_range_spec h a b s Hok Ho) as Hw. unfold wps in Hw.
    destruct (get_xorb_range h a b s) as [[?|?| |] s']; simpl; try done; apply Hsame; tauto.
  - pose proof (put_shard_spec h body s Hok) as Hw. unfold wps in Hw.
    destruct (put_shard h body s) as [[?|?| |] s']; simpl; try done; apply Hsame; tauto.
  - pose proof (get_shard_spec h s Hok) as Hw. unfold wps in Hw.
    destruct (get_shard h s) as [[?|?| |] s']; simpl; try done; apply Hsame; tauto.
Qed.

Lemma blob_history ops s :
  Forall (content_addressed content) ops → faithful s →
  faithful (foldl (λ s o, blob_apply o s) s ops) ∧
  ∀ k, is_Some (blob_xorb s k) → is_Some (blob_xorb (foldl (λ s o, blob_apply o s) s ops) k).
Proof.
  intros Hops. revert s. induction Hops as [|o ops Ho _ IH]; intros s Hs; simpl; [done|].
  destruct (blob_apply_faithful o s Ho Hs) as [Hf Hk], (IH _ Hf) as [Hf' Hk']. auto.
Qed.

(** A read after a history: the part that was asked for, of the body that the
    accepted put stored, or an error. *)
Lemma put_then_get h s fresh s1 ops a b :
  faithful s → put_xorb h (content h) s = (Ok fresh, s1) →
  Forall (content_addressed content) ops → 0 ≤ a ≤ b → a ≤ len (content h) →
  let s2 := foldl (λ s o, blob_apply o s) s1 ops in
  blob_ok s2 ∧ blob_xorb s2 h = Some (content h) ∧
  match get_xorb_range h a b s2 with
  | (Ok r, _) => slice (content h) (Z.to_nat a) (Z.to_nat (Z.min b (len (content h)))) = Some r
  | (Err _, _) => True
  | _ => False
  end.
Proof.
  intros Hs Hput Hops Hab Hl. cbv zeta.
  pose proof (put_xorb_faithful h s Hs) as Hw. unfold wps in Hw. rewrite Hput in Hw.
  destruct Hw as (Hs1 & Hh & _). destruct (blob_history ops s1 Hops Hs1) as [[Hok2 Hc2] Hk2].
  set (s2 := foldl _ s1 ops) in *. destruct (Hk2 h) as [body Hb]; [rewrite Hh; by eexists|].
  assert (body = content h) as -> by by apply Hc2. split; [done|]. split; [done|].
  pose proof (get_xorb_range_spec h a b s2 Hok2 ltac:(lia)) as Hg. unfold wps in Hg.
  destruct (get_xorb_range h a b s2) as [[r|e| |] s3]; try done.
  destruct Hg as (_ & _ & _ & Hr). rewrite Hb in Hr. apply range_answer_of; [done|lia..].
Qed.
End client.

(** ** The memory and the file-system store *)

Definition mem_call (s : MemBlobStore) (o : blob_op) : MemBlobStore :=
  match o with
  | OpPutXorb h body => (mem_put_xorb h body s).2
  | OpExists h => (mem_xorb_exists h s).2
  | OpGet h a b => (mem_get_xorb_range h a b s).2
  | OpPutShard h body => (mem_put_shard h body s).2
  | OpGetShard h => (mem_get_shard h s).2
  end.

Section stores.
Variable hex_encode : bytes → str.
Variable flag : bool.
Variable show_error : io_error → str.
Variable new_uuid : nat → str.

Definition fs_call (s : FsBlobStore) (o : blob_op) : FsBlobStore :=
  match o with
  | OpPutXorb h body => (fs_put_xorb hex_encode flag show_error new_uuid h body s).2
  | OpExists h => (fs_xorb_exists hex_encode h s).2
  | OpGet h a b => (fs_get_xorb_range hex_encode show_error h a b s).2
  | OpPutShard h body => (fs_put_shard hex_encode flag show_error new_uuid h body s).2
  | OpGetShard h => (fs_get_shard hex_encode show_error h s).2
  end.

Lemma foldl_ext {A B} (f g : A → B → A) l : (∀ s o, f s o = g s o) → ∀ s, foldl f s l = foldl g s l.
Proof. intros H. induction l as [|o l IH]; intros s; simpl; [done|]. by rewrite H, IH. Qed.

(** C18. A stored xorb can always be read back.  Once a put of a verified body was
    accepted, then after any further calls, failed or not, a read of [[a, b)] that
    starts inside the body or at its end answers exactly that part of it, cut at
    its end: always, from the store in memory; from the store on disk, whose calls
    meet faults of the medium, unless a fault is pending, and then it is that part
    or an error, never other bytes and never a panic.  The store on disk starts
    without a directory in the place of a blob, and the texts of different hashes
    differ. *)
Theorem put_get_xorb (content : XorbHash → bytes) :
  (∀ x y, hex_encode x = hex_encode y → x = y) →
  (∀ h s fresh s1 ops a b,
    (∀ k body, xorbs s !! k = Some body → body = content k) →
    mem_put_xorb h (content h) s = (Ok fresh, s1) →
    Forall (content_addressed content) ops → 0 ≤ a ≤ b → a ≤ len (content h) →
    let s2 := foldl mem_call s1 ops in
    ∃ part, mem_get_xorb_range h a b s2 = (Ok part, s2) ∧
      slice (content h) (Z.to_nat a) (Z.to_nat (Z.min b (len (content h)))) = Some part) ∧
  (∀ h s fresh s1 ops a b,
    no_blob_dir (root s) (disk s) →
    (∀ k body, view (disk s) (xorb_path hex_encode (root s) k) = Some body → body = content k) →
    fs_put_xorb hex_encode flag show_error new_uuid h (content h) s = (Ok fresh, s1) →
    Forall (content_addressed content) ops → 0 ≤ a ≤ b → a ≤ len (content h) →
    let s2 := foldl fs_call s1 ops in
    match fs_get_xorb_range hex_encode show_error h a b s2 with
    | (Ok part, _) => slice (content h) (Z.to_nat a) (Z.to_nat (Z.min b (len (content h)))) = Some part
    | (Err _, _) => faults s2 ≠ []
    | _ => False
    end).
Proof.
  intros Hinj. split; intros h s fresh s1 ops a b.
  - intros Hc Hput Hops Hab Hl s2.
    assert (Hf : faithful content s) by (split; [exact I|exact Hc]).
    destruct (put_then_get content h s fresh s1 ops a b Hf Hput Hops Hab Hl) as (_ & Hb & _).
    rewrite (foldl_ext _ mem_call) in Hb by (by intros ? []). fold s2 in Hb. cbn [blob_xorb MemBlobStore_spec] in Hb.
    unfold mem_get_xorb_range. rewrite (proj2 (Z.ltb_ge _ _)) by lia. unfold mbind, ST_bind, gets, lift. rewrite Hb. cbn [ok_or].
    rewrite (proj2 (Z.ltb_ge _ _)) by lia. unfold len in *. rewrite slice_ok by lia. by eexists.
  - intros Hn Hc Hput Hops Hab Hl s2.
    assert (Hf : faithful (BS := fs_spec hex_encode flag show_error new_uuid Hinj) content s) by (split; [exact Hn|exact Hc]).
    destruct (put_then_get (BS := fs_spec hex_encode flag show_error new_uuid Hinj) content h s fresh s1 ops a b
      Hf Hput Hops Hab Hl) as (_ & Hb & Hg).
    rewrite (foldl_ext _ fs_call) in Hb, Hg by (by intros ? []). fold s2 in Hb, Hg.
    pose proof (λ Hh, fs_range_live hex_encode show_error h a b s2 _ Hh Hb Hab Hl) as Hlive.
    cbn [get_xorb_range fs_ops FsBlobStore_ops] in Hg.
    destruct (fs_get_xorb_range hex_encode show_error h a b s2) as [[part|e| |] s3]; try done.
    intros Hh. by specialize (Hlive Hh).
Qed.
End stores.

(** ** Executions of the file-system store *)

Definition example_hex (b : bytes) : str := flat_map fmt_02x b.

Lemma example_hex_inj a b : example_hex a = example_hex b → a = b.
Proof.
  revert b. induction a as [|x a IH]; intros [|y b]; unfold example_hex; cbn [flat_map];
    rewrite ?fmt_02x_digits; intros H; try discriminate; [done|].
  rewrite <-!fmt_02x_digits in H. apply app_inj_1 in H as [Hx H]; [|by rewrite !fmt_02x_digits].
  f_equal; [|by apply IH]. rewrite (fmt_02x_digits y) in Hx.
  apply decode_pair_fmt in Hx. pose proof (proj2 (decode_pair_fmt _ _ y) (fmt_02x_digits y)). congruence.
Qed.

Definition to_string_nat (n : nat) : str := to_string (Z.of_nat n).

Definition example_show (e : io_error) : str :=
  match e with IoNotFound => lit "not found" | IoOther m => m end.

(** An empty store under [/r], with its temporary directory. *)
Definition example_root : path := [lit "r"].
Definition example_disk : fs := mkFs ∅ {[ []; example_root; example_root ++ [lit "tmp"] ]}.
Definition example_fs (fts : list fault) : FsBlobStore :=
  mkFsBlobStore example_root example_disk fts 0.

Lemma example_no_blob_dir : no_blob_dir example_root example_disk.
Proof.
  intros p Hp. unfold blob_path in Hp. simpl in *. rewrite !elem_of_union, !elem_of_singleton.
  intros [[->| ->]| ->]; discriminate Hp.
Qed.

Definition example_xorb : XorbHash := newtype Hash32_ZERO.
Definition example_put : bytes → FsBlobStore → CoreResult bool * FsBlobStore :=
  fs_put_xorb example_hex false example_show to_string_nat example_xorb.

(** The second put meets a full disk. *)
Definition example_s0 : FsBlobStore :=
  example_fs (replicate 11 NoFault ++ [Fault (lit "disk full") 2]).
Definition example_s1 : FsBlobStore := (example_put (lit "abcd") example_s0).2.
Definition example_ops : list blob_op :=
  [OpPutXorb (newtype Hash32_ALL_ONES) (lit "abcd"); OpGetShard (newtype Hash32_ZERO)].
Definition example_s2 : FsBlobStore := foldl (fs_call example_hex false example_show to_string_nat) example_s1 example_ops.
Definition example_m1 : MemBlobStore := (mem_put_xorb example_xorb (lit "abcd") Mem_new).2.

Lemma put_get_xorb_witness :
  (∃ s, mem_get_xorb_range example_xorb 1 9 (foldl mem_call example_m1 example_ops) = (Ok (lit "bcd"), s)) ∧
  view (disk example_s2) (xorb_path example_hex example_root (newtype Hash32_ALL_ONES)) = None ∧
  match fs_get_xorb_range example_hex example_show example_xorb 1 9 example_s2 with
  | (Ok r, _) => slice (lit "abcd") 1 4 = Some r
  | (Err _, _) => faults example_s2 ≠ []
  | _ => False
  end.
Proof.
  destruct (put_get_xorb example_hex false example_show to_string_nat (λ _, lit "abcd") example_hex_inj) as [Hmem Hfs].
  split; [|split; [vm_compute; reflexivity|]].
  - assert (Hput : mem_put_xorb example_xorb (lit "abcd") Mem_new = (Ok true, example_m1)) by (vm_compute; reflexivity).
    destruct (Hmem example_xorb Mem_new true example_m1 example_ops 1 9) as (part & Hget & Hs);
      [done|exact Hput|repeat constructor|lia|vm_compute; discriminate|].
    exists (foldl mem_call example_m1 example_ops). rewrite Hget. vm_compute in Hs. by injection Hs as <-.
  - assert (Hput : example_put (lit "abcd") example_s0 = (Ok true, example_s1)).
    { unfold example_s1. rewrite (surjective_pairing (example_put _ _)) at 1. f_equal. }
    refine (Hfs example_xorb example_s0 true example_s1 example_ops 1 9 example_no_blob_dir _ Hput _ _ _);
      [intros k body Hb; discriminate Hb|repeat constructor|lia|vm_compute; discriminate].
Defined.

(** Two writers of different blobs, interleaved by a schedule of (writer, fault). *)
Definition pool_run (sched : list (nat * fault)) (st : list (prog (CoreResult bool)) * fs)
    : list (prog (CoreResult bool)) * fs :=
  foldl (λ st c, match st.1 !! c.1 with
                 | Some (Do o k) => (<[c.1 := k (fs_exec o c.2 st.2).1]> st.1, (fs_exec o c.2 st.2).2)
                 | _ => st
                 end) st sched.

Lemma pool_run_rtc sched st : rtc pool_step st (pool_run sched st).
Proof.
  revert st. induction sched as [|[i ft] sched IH]; intros [ps s]; simpl; [apply rtc_refl|].
  destruct (ps !! i) as [[a|o k]|] eqn:Hi; [apply IH| |apply IH].
  eapply rtc_l; [by apply pool_call|]. apply IH.
Qed.

Lemma crash_refl rootp good s : blob_inv rootp good s → crash rootp s s.
Proof.
  intros Hb p Hp. split; [done|]. destruct (files s !! p) as [f|] eqn:Hf; [|done].
  destruct (Hb p Hp) as [_ H]. by destruct (H f Hf).
Qed.

Definition example_writers : list writer :=
  [mkWriter (tmp_path example_root (lit "t0")) (xorb_path example_hex example_root example_xorb) (lit "body");
   mkWriter (tmp_path example_root (lit "t1")) (xorb_path example_hex example_root example_xorb) (lit "body")].
Definition example_pool := (λ w, write_atomic false example_show (w_tmp w) (w_dst w) (w_body w)) <$> example_writers.
(** Both check, both write; the second's write fails half-way, the first goes on. *)
Definition example_schedule : list (nat * fault) :=
  [(0, NoFault); (1, NoFault); (0, NoFault); (1, NoFault); (0, NoFault); (1, NoFault);
   (0, NoFault); (1, Fault (lit "disk full") 2); (0, NoFault); (0, NoFault); (1, NoFault)]%nat.
Definition example_end := pool_run example_schedule (example_pool, example_disk).

Lemma write_atomic_concurrent_witness :
  view example_end.2 (xorb_path example_hex example_root example_xorb) = Some (lit "body") ∧
  blob_inv example_root (λ _ b, b = lit "body") example_end.2.
Proof.
  split; [vm_compute; reflexivity|].
  assert (Hinit : blob_inv example_root (λ _ b, b = lit "body") example_disk).
  { intros p Hp. split; [by apply example_no_blob_dir|]. intros f Hf. discriminate Hf. }
  assert (Hwf : Forall (wf_writer example_root (λ _ b, b = lit "body")) example_writers)
    by (repeat constructor).
  assert (Hnd : NoDup (w_tmp <$> example_writers)) by (apply (bool_decide_unpack _); vm_compute; exact I).
  assert (Hrun : rtc pool_step (example_pool, example_disk) (example_end.1, example_end.2)).
  { rewrite <-surjective_pairing. apply pool_run_rtc. }
  assert (Hb : blob_inv example_root (λ _ b, b = lit "body") example_end.2).
  { exact (proj1 (pool_reachable example_root (λ _ b, b = lit "body") example_show false example_writers
      example_disk example_end Hwf Hnd Hinit (pool_run_rtc _ _))). }
  exact (proj1 (write_atomic_concurrent example_root (λ _ b, b = lit "body") example_show false
    example_writers example_disk example_end.1 example_end.2 example_end.2 Hwf Hnd Hinit Hrun
    (crash_refl _ _ _ Hb))).
Defined.
