(* ===== verification/S3Store.v ===== *)
(** * The S3 blob store ([crates/bale-server-storage-s3])

    The service is a parameter ([S3]): requests on the objects of a bucket, each
    of which may fail.  What the store relies on is stated as [S3Laws]; under
    them the store keeps the promises of [BlobStore]. *)

From stdpp Require Import gmap.
From S2P Require Import Prelude RustStd Core.

(** ** The service *)

(** [SdkError]: the service answered with an error, or something else failed. *)
Inductive SdkError (E : Type) := ServiceError (e : E) | SdkOther (msg : str).
Arguments ServiceError {E}.
Arguments SdkOther {E}.

Inductive HeadObjectError := HeadNotFound | HeadOther (msg : str).
Inductive GetObjectError := NoSuchKey | GetOther (msg : str).

(** What a client is built from. *)
Record Client := mkClient {
  cl_region : option str;
  cl_credentials : option (str * str * option str);
  cl_path_style : bool;
  cl_endpoint : option str;
}.

(** The requests, on bucket, key and header values.  The body of an answer is a
    stream, whose collection may fail. *)
Class S3 (W : Type) := {
  head_bucket : Client → str → ST W (SdkError str) unit;
  head_object : Client → str → str → ST W (SdkError HeadObjectError) unit;
  put_object_send : Client → str → str → bytes → bool → ST W (SdkError str) unit;
  get_object : Client → str → str → option str → ST W (SdkError GetObjectError) (outcome str bytes);
  expires_in : Z → outcome str unit;
  presigned : Client → str → str → str → Z → outcome (SdkError str) str;
  show_head_error : HeadObjectError → str;
  show_get_error : GetObjectError → str;
}.

Record S3Config := mkS3Config {
  cfg_bucket : str;
  cfg_region : option str;
  cfg_endpoint_url : option str;
  cfg_public_endpoint_url : option str;
  cfg_force_path_style : bool;
  cfg_prefix : str;
  cfg_access_key_id : option str;
  cfg_secret_access_key : option str;
  cfg_session_token : option str;
  cfg_disable_sse : bool;
}.

Record S3BlobStore (W : Type) := mkS3BlobStore {
  client : Client;
  presign_client : Client;
  bucket : str;
  prefix : str;
  sse_enabled : bool;
  service : W;
}.
Arguments mkS3BlobStore {W}.
Arguments client {W}.
Arguments presign_client {W}.
Arguments bucket {W}.
Arguments prefix {W}.
Arguments sse_enabled {W}.
Arguments service {W}.

(** ** The store *)
Section store.
Context {W : Type} `{S3 W}.
(** [hex::encode], and [{:?}] of a duration. *)
Variable hex_encode : bytes → str.
Variable show_ttl : Z → str.

Abbreviation S3M := (ST (S3BlobStore W) CoreError).

Definition set_service (w : W) (s : S3BlobStore W) : S3BlobStore W :=
  mkS3BlobStore (client s) (presign_client s) (bucket s) (prefix s) (sse_enabled s) w.

(** A request; its error as a value, for the code that looks at it. *)
Definition send {E A} (r : S3BlobStore W → ST W E A) : ST (S3BlobStore W) CoreError (A + E) := λ s,
  match r s (service s) with
  | (Ok a, w) => (Ok (inl a), set_service w s)
  | (Err e, w) => (Ok (inr e), set_service w s)
  | (Panic, w) => (Panic, set_service w s)
  | (Diverged, w) => (Diverged, set_service w s)
  end.

Definition display_sdk_error {E} (show : E → str) (err : SdkError E) : str :=
  match err with ServiceError e => lit "service error: " ++ show e | SdkOther m => m end.

Definition is_not_found_head (err : SdkError HeadObjectError) : bool :=
  match err with ServiceError HeadNotFound => true | _ => false end.
Definition is_not_found_get (err : SdkError GetObjectError) : bool :=
  match err with ServiceError NoSuchKey => true | _ => false end.

(** The endpoint is set per client; the rest is shared. *)
Definition make_client (cfg : S3Config) (endpoint : option str) : Client :=
  mkClient (cfg_region cfg)
    (match cfg_access_key_id cfg, cfg_secret_access_key cfg with
     | Some ak, Some sk => Some (ak, sk, cfg_session_token cfg)
     | _, _ => None
     end)
    (cfg_force_path_style cfg) endpoint.

Definition s3_open (cfg : S3Config) (w : W) : CoreResult (S3BlobStore W) :=
  match cfg_bucket cfg with
  | [] => Err (Internal (lit "S3 bucket must be non-empty"))
  | _ =>
      let client := make_client cfg (cfg_endpoint_url cfg) in
      let presign_client :=
        match cfg_public_endpoint_url cfg with
        | Some public =>
            if bool_decide (Some public = cfg_endpoint_url cfg) then None
            else Some (make_client cfg (Some public))
        | None => None
        end in
      let store := mkS3BlobStore client (default client presign_client) (cfg_bucket cfg)
                     (cfg_prefix cfg) (negb (cfg_disable_sse cfg)) w in
      match head_bucket client (bucket store) w with
      | (Panic, _) => Panic
      | (Diverged, _) => Diverged
      | (_, w') => Ok (set_service w' store)
      end
  end.

(** [format!("{prefix}{kind}/{}/{}/{}", &hex[0..2], &hex[2..4], hex)]. *)
Definition fanout (prefix kind : str) (h : Hash32) : str :=
  let hex := hex_encode (as_bytes h) in
  prefix ++ kind ++ lit "/" ++ take 2 hex ++ lit "/" ++ take 2 (drop 2 hex) ++ lit "/" ++ hex.
Definition xorb_key (s : S3BlobStore W) (h : XorbHash) : str := fanout (prefix s) (lit "xorbs") (unwrap h).
Definition shard_key (s : S3BlobStore W) (h : ShardHash) : str := fanout (prefix s) (lit "shards") (unwrap h).

Definition object_exists (key : str) : S3M bool :=
  r ← send (λ s, head_object (client s) (bucket s) key);
  match r with
  | inl _ => mret true
  | inr e =>
      if is_not_found_head e then mret false
      else throw (Internal (lit "s3 head_object " ++ key ++ lit ": " ++ display_sdk_error show_head_error e))
  end.

Definition put_object (key : str) (body : bytes) : S3M unit :=
  r ← send (λ s, put_object_send (client s) (bucket s) key body (sse_enabled s));
  match r with
  | inl _ => mret tt
  | inr e => throw (Internal (lit "s3 put_object " ++ key ++ lit ": " ++ display_sdk_error id e))
  end.

Definition s3_put_xorb (hash : XorbHash) (body : bytes) : S3M bool :=
  key ← gets (λ s, xorb_key s hash);
  found ← object_exists key;
  if found : bool then mret false
  else _ ← put_object key body; mret true.

Definition s3_xorb_exists (hash : XorbHash) : S3M bool :=
  key ← gets (λ s, xorb_key s hash); object_exists key.

(** [get_object], its errors told apart, and the body collected. *)
Definition get_body (key : str) (range : option str) : S3M bytes :=
  r ← send (λ s, get_object (client s) (bucket s) key range);
  match r with
  | inl resp => lift (map_err (λ e, Internal (lit "s3 body collect: " ++ e)) resp)
  | inr e =>
      if is_not_found_get e then throw NotFound
      else throw (Internal (lit "s3 get_object " ++ key ++ lit ": " ++ display_sdk_error show_get_error e))
  end.

(** [n - 1] of a [u64], wrapping around at zero. *)
Definition pred_u64 (n : Z) : Z := if n =? 0 then u64_max else n - 1.

(** [Range:] is inclusive on both ends. *)
Definition range_header (start end_ : Z) : str :=
  lit "bytes=" ++ to_string start ++ lit "-" ++ to_string (pred_u64 end_).

Definition s3_get_xorb_range (hash : XorbHash) (start end_ : Z) : S3M bytes :=
  if end_ <? start then throw (BadRequest (lit "inverted byte range"))
  else if end_ =? start then mret []
  else
    key ← gets (λ s, xorb_key s hash);
    get_body key (Some (range_header start end_)).

Definition s3_put_shard (hash : ShardHash) (body : bytes) : S3M unit :=
  key ← gets (λ s, shard_key s hash);
  found ← object_exists key;
  if found : bool then mret tt else put_object key body.

Definition s3_get_shard (hash : ShardHash) : S3M bytes :=
  key ← gets (λ s, shard_key s hash); get_body key None.

Definition s3_presign_xorb_range (hash : XorbHash) (start end_ ttl : Z) : S3M (option str) :=
  if end_ <? start then throw (BadRequest (lit "inverted byte range"))
  else
    _ ← lift (map_err (λ e, Internal (lit "s3 presign config (ttl=" ++ show_ttl ttl ++ lit "): " ++ e)) (expires_in ttl));
    s ← gets id;
    uri ← lift (map_err (λ e, Internal (lit "s3 presign: " ++ display_sdk_error id e))
            (presigned (presign_client s) (bucket s) (xorb_key s hash) (range_header start end_) ttl));
    mret (Some uri).

Definition S3BlobStore_ops : BlobStore (S3BlobStore W) := {|
  put_xorb := s3_put_xorb;
  blob_exists := s3_xorb_exists;
  get_xorb_range := s3_get_xorb_range;
  put_shard := s3_put_shard;
  get_shard := s3_get_shard;
  presign_xorb_range := s3_presign_xorb_range;
|}.
End store.

(** ** What the store relies on

    An object is the last body put under its key, and an answer that it does not
    exist is true; a put that fails may have stored its body; a range starts
    inside of the object and is cut at its end; requests on one key change no
    other. *)
Class S3Laws (W : Type) `{S3 W} := {
  s3_object : W → str → str → option bytes;
  s3_up : W → Prop;
  head_bucket_law c b w : wps (head_bucket c b) w (λ _ _, True) (λ _ _, True);
  head_object_law c b k w :
    wps (head_object c b k) w
      (λ _ w', s3_object w' = s3_object w ∧ is_Some (s3_object w b k))
      (λ e w', s3_object w' = s3_object w ∧ (e = ServiceError HeadNotFound → s3_object w b k = None));
  put_object_law c b k body sse w :
    wps (put_object_send c b k body sse) w
      (λ _ w', s3_object w' b k = Some body ∧ ∀ k', k' ≠ k → s3_object w' b k' = s3_object w b k')
      (λ _ w', stored_or_not body (s3_object w b k) (s3_object w' b k) ∧
         ∀ k', k' ≠ k → s3_object w' b k' = s3_object w b k');
  get_object_law c b k w :
    wps (get_object c b k None) w
      (λ r w', s3_object w' = s3_object w ∧ wp r (λ body, s3_object w b k = Some body) (λ _, True))
      (λ e w', s3_object w' = s3_object w ∧ (e = ServiceError NoSuchKey → s3_object w b k = None));
  get_range_law c b k x y w : 0 ≤ x ≤ y →
    wps (get_object c b k (Some (lit "bytes=" ++ to_string x ++ lit "-" ++ to_string y))) w
      (λ r w', s3_object w' = s3_object w ∧ wp r (λ piece, ∃ body, s3_object w b k = Some body ∧ x < len body ∧
         slice body (Z.to_nat x) (Z.to_nat (Z.min (y + 1) (len body))) = Some piece) (λ _, True))
      (λ e w', s3_object w' = s3_object w ∧ (e = ServiceError NoSuchKey → s3_object w b k = None));
  get_range_live c b k x y w body : 0 ≤ x ≤ y → s3_up w → s3_object w b k = Some body → x < len body →
    ∃ r w', get_object c b k (Some (lit "bytes=" ++ to_string x ++ lit "-" ++ to_string y)) w = (Ok (Ok r), w');
  expires_in_law ttl : returned (expires_in ttl);
  presigned_law c b k r ttl : returned (presigned c b k r ttl);
}.

(** ** The store keeps the promises of a blob store *)
Section spec.
#[local] Set Default Proof Using "Type*".
Context {W : Type} `{SL : S3Laws W}.
Variable hex_encode : bytes → str.
Variable show_ttl : Z → str.
Hypothesis hex_inj : ∀ a b, hex_encode a = hex_encode b → a = b.
Hypothesis hex_length : ∀ b, length (hex_encode b) = (2 * length b)%nat.

Abbreviation key := (fanout hex_encode).

Lemma fanout_suffix p kind h : ∃ q, key p kind h = q ++ hex_encode (as_bytes h).
Proof.
  unfold fanout. eexists (p ++ kind ++ lit "/" ++ take 2 _ ++ lit "/" ++ take 2 (drop 2 _) ++ lit "/").
  by rewrite <-!app_assoc.
Qed.

Lemma fanout_inj p kind h k : key p kind h = key p kind k → h = k.
Proof.
  destruct (fanout_suffix p kind h) as [q ->], (fanout_suffix p kind k) as [q' ->]. intros Heq.
  apply app_inj_2 in Heq as [_ Heq].
  - by apply hex_inj, as_bytes_inj in Heq.
  - rewrite !hex_length. by rewrite !length_as_bytes.
Qed.

Lemma fanout_ne {n} p kind (h k : hash_newtype n) : k ≠ h → key p kind (unwrap k) ≠ key p kind (unwrap h).
Proof. intros Hk Heq%fanout_inj. destruct k, h. simpl in *. by subst. Qed.

Lemma fanout_kinds p h k : key p (lit "xorbs") h ≠ key p (lit "shards") k.
Proof. unfold fanout. intros Heq%app_inv_head. discriminate Heq. Qed.

Abbreviation S3M := (ST (S3BlobStore W) CoreError).

(** A request changes the service only. *)
Lemma wps_send {E A} (r : S3BlobStore W → ST W E A) s Q R :
  wps (r s) (service s) (λ a w, Q (inl a) (set_service w s)) (λ e w, Q (inr e) (set_service w s)) →
  wps (send r) s Q R.
Proof. unfold wps, send. by destruct (r s (service s)) as [[?|?| |] ?]. Qed.

(** The objects of the store. *)
Definition object (s : S3BlobStore W) (k : str) : option bytes := s3_object (service s) (bucket s) k.

Definition same_objects (s s' : S3BlobStore W) : Prop :=
  bucket s' = bucket s ∧ prefix s' = prefix s ∧ ∀ k, object s' k = object s k.

Lemma same_service w s : s3_object w = s3_object (service s) → same_objects s (set_service w s).
Proof. intros Hw. unfold same_objects, object. split_and!; [done..|]. intros k. simpl. by rewrite Hw. Qed.

Lemma object_exists_wps k s :
  wps (object_exists k) s
    (λ b s', same_objects s s' ∧ (b = true ↔ is_Some (object s k)))
    (λ _ s', same_objects s s').
Proof.
  unfold object_exists. apply wps_bind, wps_send.
  eapply wps_mono; [apply head_object_law|..]; cbv beta iota.
  - intros _ w [Hw Hk]. apply wps_ret. split; [by apply same_service|done].
  - intros e w [Hw Hk]. unfold is_not_found_head. destruct e as [[|m]|m]; try by apply same_service.
    apply wps_ret. split; [by apply same_service|]. split; [done|]. intros [? Hs]. unfold object in Hs. by rewrite Hk in Hs.
Qed.

Definition put_at (k : str) (s s' : S3BlobStore W) (P : option bytes → Prop) : Prop :=
  bucket s' = bucket s ∧ prefix s' = prefix s ∧ P (object s' k) ∧ ∀ k', k' ≠ k → object s' k' = object s k'.

Lemma put_object_wps k body s :
  wps (put_object k body) s
    (λ _ s', put_at k s s' (λ x, x = Some body))
    (λ _ s', put_at k s s' (stored_or_not body (object s k))).
Proof.
  unfold put_object, put_at, object. apply wps_bind, wps_send.
  eapply wps_mono; [apply put_object_law|..]; simpl; [by intros _ w [? ?]|by intros e w [? ?]].
Qed.

(** Check, then put. *)
Lemma put_if_absent_wps {A} k body (yes no : A) s :
  wps (found ← object_exists k; if found : bool then mret no else _ ← put_object k body; mret yes) s
    (λ a s', a = no ∧ same_objects s s' ∧ is_Some (object s k) ∨
       a = yes ∧ object s k = None ∧ put_at k s s' (λ x, x = Some body))
    (λ _ s', put_at k s s' (stored_or_not body (object s k))).
Proof.
  apply wps_bind. eapply wps_mono; [apply object_exists_wps| |].
  2: { intros e s1 (Hb & Hp & Ho). split_and!; [done..| |by intros]. left. apply Ho. }
  intros [|] s1 [(Hb & Hp & Ho) Hk]; [apply wps_ret; left; split_and!; [done|by split_and!|by apply Hk]|]. apply wps_bind.
  assert (Hnone : object s k = None) by (destruct (object s k) as [x|]; [discriminate (proj2 Hk (ex_intro _ x eq_refl))|done]).
  eapply wps_mono; [apply put_object_wps| |]; unfold put_at; rewrite Hb, Hp.
  - intros [] s2 (? & ? & ? & Hne). apply wps_ret. right. split; [done|]. split; [done|]. split_and!; try done. intros k' Hk'. by rewrite Hne, Ho.
  - intros e s2 (? & ? & Hst & Hne). rewrite Ho in Hst. split_and!; try done. intros k' Hk'. by rewrite Hne, Ho.
Qed.

Lemma get_body_wps k range s (Q : bytes → Prop) :
  wps (get_object (client s) (bucket s) k range) (service s)
    (λ r w', s3_object w' = s3_object (service s) ∧ wp r Q (λ _, True))
    (λ e w', s3_object w' = s3_object (service s) ∧ (e = ServiceError NoSuchKey → object s k = None)) →
  wps (get_body k range) s (λ r s', same_objects s s' ∧ Q r) (λ e s', same_objects s s' ∧ (e = NotFound → object s k = None)).
Proof.
  intros Hr. unfold get_body. apply wps_bind, wps_send.
  eapply wps_mono; [exact Hr|..]; cbv beta iota.
  - intros r w [Hw Hq]. apply wps_lift. destruct r; simpl in *; try done; (split; [by apply same_service|done]).
  - intros e w [Hw Hk]. destruct e as [[|m]|m]; (split; [by apply same_service|first [discriminate|intros _; by apply Hk]]).
Qed.

Definition S3_ops : BlobStore (S3BlobStore W) := S3BlobStore_ops hex_encode show_ttl.
#[local] Existing Instance S3_ops.

Lemma pred_u64_pos n : 0 < n → pred_u64 n = n - 1.
Proof. intros Hn. unfold pred_u64. by rewrite (proj2 (Z.eqb_neq _ _)) by lia. Qed.

Lemma s3_range_wps h a b s : 0 ≤ a →
  wps (s3_get_xorb_range hex_encode h a b) s
    (λ r s', same_objects s s' ∧ range_answer (object s (key (prefix s) (lit "xorbs") (unwrap h))) a b r)
    (λ e s', same_objects s s' ∧ (e = NotFound → object s (key (prefix s) (lit "xorbs") (unwrap h)) = None)).
Proof.
  intros Ha. unfold s3_get_xorb_range. destruct (Z.ltb_spec b a); [by split|].
  destruct (Z.eqb_spec b a) as [->|]; [split; [done|]; split; [lia|by left]|].
  apply wps_bind, wps_gets, get_body_wps. unfold range_header. rewrite pred_u64_pos by lia.
  eapply wps_mono; [apply get_range_law; lia| |by intros e w [? ?]]. cbv beta. intros r w [Hw Hr]. split; [done|].
  eapply wp_mono; [exact Hr| |done]. intros piece (body & Hbody & Hlt & Hs). split; [lia|]. right.
  exists body. split_and!; [done|lia|]. by replace (b - 1 + 1) with b in Hs by lia.
Qed.

Lemma s3_range_live h a b s body :
  s3_up (service s) → object s (key (prefix s) (lit "xorbs") (unwrap h)) = Some body → 0 ≤ a ≤ b → a = b ∨ a < len body →
  is_ok (s3_get_xorb_range hex_encode h a b s).1 = true.
Proof.
  intros Hup Hbody Hab Hl. unfold s3_get_xorb_range. rewrite (proj2 (Z.ltb_ge _ _)) by lia.
  destruct (Z.eqb_spec b a) as [->|Hne]; [done|]. destruct Hl as [->|Hl]; [done|].
  unfold get_body, send, range_header, gets, mbind, ST_bind. rewrite pred_u64_pos by lia. cbv beta.
  destruct (get_range_live (client s) (bucket s) (xorb_key hex_encode s h) a (b - 1) (service s) body) as (r & w & ->);
    [lia|done..].
Qed.

Program Definition s3_spec : BlobStoreSpec (S3BlobStore W) := {|
  blob_ok _ := True;
  blob_healthy s := s3_up (service s);
  blob_xorb s h := object s (key (prefix s) (lit "xorbs") (unwrap h));
  blob_shard s h := object s (key (prefix s) (lit "shards") (unwrap h));
|}.
Next Obligation.
  intros h body s _. simpl. unfold s3_put_xorb. apply wps_bind, wps_gets.
  eapply wps_mono; [apply put_if_absent_wps|..]; cbv beta.
  - intros b s' [(-> & (Hb & Hp & Ho) & Hk)|(-> & _ & Hb & Hp & Hx & Ho)]; rewrite Hp; split_and!; auto.
    + intros k. apply Ho. apply not_eq_sym, fanout_kinds.
    + intros k Hk. by apply Ho, fanout_ne.
  - intros e s' (Hb & Hp & Hx & Ho). rewrite Hp. split_and!; auto; intros k.
    + intros Hk. by apply Ho, fanout_ne.
    + apply Ho. apply not_eq_sym, fanout_kinds.
Qed.
Next Obligation.
  intros h s _. simpl. unfold s3_xorb_exists. apply wps_bind, wps_gets.
  eapply wps_mono; [apply object_exists_wps|..]; cbv beta.
  - intros b s' [(Hb & Hp & Ho) [Hk _]]. rewrite Hp. auto.
  - intros e s' (Hb & Hp & Ho). rewrite Hp. auto.
Qed.
Next Obligation.
  intros h a b s _ Ha. simpl. eapply wps_mono; [by apply s3_range_wps|..]; cbv beta.
  - intros r s' [(Hb & Hp & Ho) Hr]. rewrite Hp. auto.
  - intros e s' [(Hb & Hp & Ho) _]. rewrite Hp. auto.
Qed.
Next Obligation. intros h a b s body _ Hup Hb Hab _ Hl. by apply (s3_range_live _ _ _ _ body). Qed.
Next Obligation.
  intros h body s _. simpl. unfold s3_put_shard. apply wps_bind, wps_gets.
  assert (Heq : ∀ k, (found ← object_exists k; if found : bool then mret tt else put_object k body) s
    = (found ← object_exists k; if found : bool then mret tt else _ ← put_object k body; mret tt : S3M unit) s).
  { intros k. unfold mbind, ST_bind. destruct (object_exists k s) as [[[]|?| |] s1]; try done.
    by destruct (put_object k body s1) as [[[]|?| |] ?]. }
  unfold wps. rewrite Heq. apply (wps_mono _ _ _ _ _ _ (put_if_absent_wps _ _ tt tt s)); cbv beta.
  - intros [] s' [(_ & (Hb & Hp & Ho) & Hk)|(_ & _ & Hb & Hp & Hx & Ho)]; rewrite Hp; split_and!; auto.
    + intros k. apply Ho, fanout_kinds.
    + intros k Hk. by apply Ho, fanout_ne.
  - intros e s' (Hb & Hp & Hx & Ho). rewrite Hp. split_and!; auto; intros k.
    + apply Ho, fanout_kinds.
    + intros Hk. by apply Ho, fanout_ne.
Qed.
Next Obligation.
  intros h s _. simpl. unfold s3_get_shard. apply wps_bind, wps_gets.
  eapply wps_mono; [eapply get_body_wps, get_object_law|..]; cbv beta.
  - intros r s' [(Hb & Hp & Ho) Hr]. rewrite Hp. auto.
  - intros e s' [(Hb & Hp & Ho) _]. rewrite Hp. auto.
Qed.
Next Obligation.
  intros h a b ttl s _. simpl. unfold s3_presign_xorb_range. destruct (b <? a); [done|].
  apply wps_bind, wps_lift. pose proof (expires_in_law ttl) as Ht.
  destruct (expires_in ttl); simpl in *; try done. apply wps_bind, wps_gets, wps_bind, wps_lift.
  pose proof (presigned_law (presign_client s) (bucket s) (xorb_key hex_encode s h) (range_header a b) ttl) as Hp.
  unfold id. by destruct (presigned _ _ _ _ _).
Qed.

(** C19. The S3 store implements what a blob store promises, in every state, over
    objects named by prefix, kind and hash.  Whether a xorb is there is answered
    exactly; a put of a xorb answers that it was new exactly when there was none,
    has then stored the body under its own key, or else left what was there, and
    touched no other object; a put that fails has stored the body or not; a range
    [[a, b)] of a stored body is asked for as [a] to [b - 1] and answered exactly,
    cut at the end; a xorb or a shard is reported missing only when it is; no call
    panics, whatever request fails. *)
Theorem s3_refines_spec :
  (∃ spec : BlobStoreSpec (S3BlobStore W),
    (∀ s, blob_ok s) ∧
    (∀ s h, blob_xorb s h = object s (xorb_key hex_encode s h)) ∧
    (∀ s h, blob_shard s h = object s (shard_key hex_encode s h)) ∧
    (∀ s, blob_healthy s ↔ s3_up (service s))) ∧
  (∀ s h, wps (s3_xorb_exists hex_encode h) s
    (λ b s', same_objects s s' ∧ (b = true ↔ is_Some (object s (xorb_key hex_encode s h))))
    (λ _ s', same_objects s s')) ∧
  (∀ s h body, wps (s3_put_xorb hex_encode h body) s
    (λ fresh s', (fresh = true ↔ object s (xorb_key hex_encode s h) = None) ∧
      put_at (xorb_key hex_encode s h) s s' (λ x, x = if fresh then Some body else object s (xorb_key hex_encode s h)))
    (λ _ s', put_at (xorb_key hex_encode s h) s s' (stored_or_not body (object s (xorb_key hex_encode s h))))) ∧
  (∀ s h a b, 0 ≤ a → wps (s3_get_xorb_range hex_encode h a b) s
    (λ r s', same_objects s s' ∧ range_answer (object s (xorb_key hex_encode s h)) a b r)
    (λ e s', same_objects s s' ∧ (e = NotFound → object s (xorb_key hex_encode s h) = None))) ∧
  (∀ s h, wps (s3_get_shard hex_encode h) s
    (λ r s', same_objects s s' ∧ object s (shard_key hex_encode s h) = Some r)
    (λ e s', same_objects s s' ∧ (e = NotFound → object s (shard_key hex_encode s h) = None))).
Proof.
  split; [by exists s3_spec|]. split_and!; intros s h.
  - unfold s3_xorb_exists. apply wps_bind, wps_gets. apply object_exists_wps.
  - intros body. unfold s3_put_xorb. apply wps_bind, wps_gets.
    eapply wps_mono; [apply put_if_absent_wps| |done]; cbv beta.
    intros b s' [(-> & (Hb & Hp & Ho) & [x Hx])|(-> & Hnone & Hput)].
    + split; [by rewrite Hx|]. split_and!; auto.
    + by split.
  - intros a b Ha. by apply s3_range_wps.
  - unfold s3_get_shard. apply wps_bind, wps_gets. apply get_body_wps, get_object_law.
Qed.
End spec.
