(* ===== verification/S3Toy.v ===== *)
(** * A service in memory, and the S3 store over it

    Buckets of objects and a list of outages: a request that meets one fails,
    a put of its kind [true] after it has stored the body. *)

From Stdlib.Strings Require Import Byte.
From stdpp Require Import gmap.
From S2P Require Import Prelude RustStd Core Wire MemStore FsStore BlobStore S3Store.

Record toy_s3 := mkToyS3 { toy_objects : gmap (str * str) bytes; toy_outages : list (option bool) }.

Definition toy_send {E A} (f : toy_s3 → outcome (SdkError E) A * toy_s3) : ST toy_s3 (SdkError E) A := λ w,
  let w' := mkToyS3 (toy_objects w) (tail (toy_outages w)) in
  match default None (head (toy_outages w)) with
  | Some true => (Err (SdkOther (lit "timeout")), (f w').2)
  | Some false => (Err (SdkOther (lit "timeout")), w')
  | None => f w'
  end.

(** Decimal digits. *)
Fixpoint toy_number (acc : Z) (s : str) : option Z :=
  match s with
  | [] => Some acc
  | c :: s => d ← to_digit 10 c; toy_number (acc * 10 + d) s
  end.

Definition toy_range (header : str) : option (Z * Z) :=
  rest ← strip_prefix header (lit "bytes=");
  '(a, b) ← split_once rest x2d;
  x ← toy_number 0 a; y ← toy_number 0 b; Some (x, y).

Definition toy_get (w : toy_s3) (b k : str) (range : option str) : outcome (SdkError GetObjectError) (outcome str bytes) :=
  match toy_objects w !! (b, k), range with
  | None, _ => Err (ServiceError NoSuchKey)
  | Some body, None => Ok (Ok body)
  | Some body, Some h =>
      match toy_range h with
      | Some (x, y) =>
          if x <? len body then Ok (Ok (take (Z.to_nat (Z.min (y + 1) (len body)) - Z.to_nat x) (drop (Z.to_nat x) body)))
          else Err (ServiceError (GetOther (lit "InvalidRange")))
      | None => Ok (Ok body)
      end
  end.

#[export] Instance toy_s3_ops : S3 toy_s3 := {|
  head_bucket c b := toy_send (λ w, (Ok tt, w));
  head_object c b k := toy_send (λ w, match toy_objects w !! (b, k) with
    | Some _ => (Ok tt, w) | None => (Err (ServiceError HeadNotFound), w) end);
  put_object_send c b k body sse := toy_send (λ w,
    (Ok tt, mkToyS3 (<[(b, k) := body]> (toy_objects w)) (toy_outages w)));
  get_object c b k range := toy_send (λ w, (toy_get w b k range, w));
  expires_in ttl := if 604800 <? ttl then Err (lit "too long") else Ok tt;
  presigned c b k r ttl := Ok (default [] (cl_endpoint c) ++ lit "/" ++ b ++ lit "/" ++ k ++ lit "?" ++ r);
  show_head_error e := match e with HeadNotFound => lit "NotFound" | HeadOther m => m end;
  show_get_error e := match e with NoSuchKey => lit "NoSuchKey" | GetOther m => m end;
|}.

Lemma toy_number_parse max acc s z : parse_digits 10 max acc s = Some z → toy_number acc s = Some z.
Proof.
  revert acc. induction s as [|c s IH]; intros acc; simpl; [done|].
  destruct (to_digit 10 c); simpl; [|done]. case_match; [|done]. apply IH.
Qed.

Lemma toy_number_to_string z : 0 ≤ z → toy_number 0 (to_string z) = Some z.
Proof.
  intros Hz. apply (toy_number_parse z). unfold to_string, fmt_radix. apply parse_digits_digits; [lia..|].
  rewrite Nat2Z.inj_succ, Z2Nat.id by apply Z.log2_nonneg.
  destruct (Z.eq_dec z 0) as [->|]; [simpl; lia|].
  pose proof (Z.log2_spec z ltac:(lia)). pose proof (Z.log2_nonneg z).
  apply Z.lt_le_trans with (2 ^ Z.succ (Z.log2 z)); [lia|]. apply Z.pow_le_mono_l. lia.
Qed.

Lemma toy_range_header x y : 0 ≤ x → 0 ≤ y →
  toy_range (lit "bytes=" ++ to_string x ++ lit "-" ++ to_string y) = Some (x, y).
Proof.
  intros Hx Hy. unfold toy_range. rewrite strip_prefix_app. cbn [mbind option_bind].
  rewrite (proj2 (split_once_Some _ x2d (to_string x) (to_string y))) by (split; [done|by apply to_string_not_in]).
  cbn [mbind option_bind]. by rewrite !toy_number_to_string.
Qed.

Lemma toy_slice (body : bytes) x y : 0 ≤ x < len body → x ≤ y →
  slice body (Z.to_nat x) (Z.to_nat (Z.min (y + 1) (len body)))
  = Some (take (Z.to_nat (Z.min (y + 1) (len body)) - Z.to_nat x) (drop (Z.to_nat x) body)).
Proof. intros Hx Hy. unfold len in *. apply slice_ok; lia. Qed.

#[export] Program Instance toy_s3_laws : S3Laws toy_s3 := {|
  s3_object w b k := toy_objects w !! (b, k);
  s3_up w := toy_outages w = [];
|}.
Next Obligation. intros c b w. unfold wps. simpl. unfold toy_send. by destruct (default None _) as [[]|]. Qed.
Next Obligation.
  intros c b k w. unfold wps. simpl. unfold toy_send. cbn [toy_objects].
  destruct (default None _) as [[]|]; destruct (toy_objects w !! (b, k)) eqn:Hk; simpl; try done; by split.
Qed.
Next Obligation.
  intros c b k body sse w. unfold wps. simpl. unfold toy_send. cbn [toy_objects].
  destruct (default None _) as [[]|]; cbn [fst snd toy_objects]; rewrite ?lookup_insert_eq; split; try done.
  2,4: intros k' Hk'; by rewrite lookup_insert_ne by congruence.
  all: unfold stored_or_not; by (left + right).
Qed.
Next Obligation.
  intros c b k w. unfold wps. simpl. unfold toy_send, toy_get. cbn [toy_objects].
  destruct (default None _) as [[]|]; destruct (toy_objects w !! (b, k)) eqn:Hk; simpl; done.
Qed.
Next Obligation.
  intros c b k x y w Hxy. unfold wps. cbn [get_object toy_s3_ops]. unfold toy_send, toy_get. cbn [toy_objects].
  rewrite toy_range_header by lia.
  destruct (default None _) as [[]|]; [done..|]. destruct (toy_objects w !! (b, k)) as [body|] eqn:Hk; [|done].
  destruct (Z.ltb_spec x (len body)); [|done]. split; [done|]. cbn [wp]. exists body.
  split_and!; [done|done|]. apply toy_slice; lia.
Qed.
Next Obligation.
  intros c b k x y w body Hxy Hup Hk Hl. cbn [get_object toy_s3_ops]. unfold toy_send, toy_get. cbn [toy_objects].
  simpl in Hup, Hk. rewrite Hup, Hk, toy_range_header by lia. cbn [head default].
  rewrite (proj2 (Z.ltb_lt _ _)) by done. by do 2 eexists.
Qed.
Next Obligation. intros ttl. simpl. by case_match. Qed.
Next Obligation. done. Qed.

(** ** Executions *)

Lemma example_hex_length b : length (example_hex b) = (2 * length b)%nat.
Proof.
  induction b as [|x b IH]; [done|]. unfold example_hex in *. cbn [flat_map length].
  rewrite length_app, IH, fmt_02x_digits. simpl. lia.
Qed.

Definition minio : S3Config :=
  mkS3Config (lit "bale") None (Some (lit "http://minio:9000")) (Some (lit "http://localhost:9000"))
    true (lit "pre/") None None None false.

Definition opened (w : toy_s3) : S3BlobStore toy_s3 :=
  match s3_open minio w with Ok s => s | _ => mkS3BlobStore (make_client minio None) (make_client minio None) [] [] false w end.

(** A put whose answer is lost has stored the body; the next one finds it. *)
Definition lossy : S3BlobStore toy_s3 := opened (mkToyS3 ∅ [None; None; Some true]).
Definition after_lost_put : CoreResult bool * S3BlobStore toy_s3 := s3_put_xorb example_hex example_xorb (lit "abcdef") lossy.

Example lost_answer_stored :
  after_lost_put.1 = Err (Internal (lit "s3 put_object " ++ xorb_key example_hex lossy example_xorb ++ lit ": timeout")) ∧
  (s3_put_xorb example_hex example_xorb (lit "abcdef") after_lost_put.2).1 = Ok false ∧
  (s3_get_xorb_range example_hex example_xorb 2 100 after_lost_put.2).1 = Ok (lit "cdef").
Proof. vm_compute. by split_and!. Qed.

(** A range that starts at the end of the body: the service refuses it, where
    the memory store answers no bytes. *)
Example range_at_end :
  (s3_get_xorb_range example_hex example_xorb 6 7 after_lost_put.2).1
    = Err (Internal (lit "s3 get_object " ++ xorb_key example_hex lossy example_xorb ++ lit ": service error: InvalidRange")) ∧
  (mem_get_xorb_range example_xorb 6 7 (mkMemBlobStore {[example_xorb := lit "abcdef"]} ∅ 0 None)).1 = Ok [].
Proof. vm_compute. by split_and!. Qed.

(** Clients are sent to the public endpoint. *)
Example presigned_for_clients :
  (s3_presign_xorb_range example_hex (λ _, []) example_xorb 2 5 3600 (opened (mkToyS3 ∅ []))).1
  = Ok (Some (lit "http://localhost:9000/bale/" ++ xorb_key example_hex lossy example_xorb ++ lit "?bytes=2-4")).
Proof. vm_compute. reflexivity. Qed.

(** The lost put, as the theorem tells it. *)
Lemma s3_refines_spec_witness :
  (∃ spec : @BlobStoreSpec (S3BlobStore toy_s3) (S3_ops example_hex (λ _, [])),
    (∀ s, @blob_ok _ _ spec s) ∧ ∀ s h, @blob_xorb _ _ spec s h = object s (xorb_key example_hex s h)) ∧
  put_at (xorb_key example_hex lossy example_xorb) lossy after_lost_put.2 (stored_or_not (lit "abcdef") None).
Proof.
  destruct (s3_refines_spec example_hex (λ _, []) example_hex_inj example_hex_length) as ((spec & Hok & Hx & _) & _ & Hput & _).
  split; [exists spec; split; [exact Hok|exact Hx]|].
  specialize (Hput lossy example_xorb (lit "abcdef")). unfold wps in Hput. fold after_lost_put in Hput.
  assert (Hr : is_ok after_lost_put.1 = false) by (vm_compute; reflexivity).
  assert (Hempty : object lossy (xorb_key example_hex lossy example_xorb) = None) by (vm_compute; reflexivity).
  rewrite Hempty in Hput. destruct after_lost_put as [[b|e| |] s']; [discriminate Hr|exact Hput|destruct Hput..].
Defined.
