(* ===== verification/MetaCommon.v ===== *)
(** * What the SQL metadata stores share ([crates/bale-server-meta-common])

    Value conversions, the overflow guard and the row decoders.  A row is what
    a query returns: named columns with values. *)

From S2P Require Import Prelude RustStd Core.

Definition CHUNK_INSERT_BATCH : nat := 500.

(** [SystemTime::now()] in seconds; before the epoch the answer is 0. *)
Definition now_unix (clock : Z) : Z := if clock <? 0 then 0 else as_i64 clock.

Definition hash_to_blob (h : Hash32) : bytes := as_bytes h.

Definition blob_to_hash (b : bytes) : CoreResult Hash32 :=
  if negb (length b =? HASH_LEN)%nat
  then Err (Internal (lit "bad hash blob length " ++ to_string (len b) ++ lit " (want "
                      ++ to_string (Z.of_nat HASH_LEN) ++ lit ")"))
  else Ok (hash_of b).

(** [{}] of a signed integer. *)
Definition show_i64 (n : Z) : str := if n <? 0 then x2d :: to_string (- n) else to_string n.

Definition nonneg_i64_to_u64 (n : Z) (label : string) : CoreResult Z :=
  if n <? 0 then Err (Internal (lit label ++ lit ": aggregate overflowed i64 (got " ++ show_i64 n
    ++ lit "); database is corrupt or owner exceeds 8 EiB"))
  else Ok n.

(** ** Sorting and deduplication by raw bytes *)

(** [<[u8]>::cmp] is not greater. *)
Fixpoint bytes_leb (a b : bytes) : bool :=
  match a, b with
  | [], _ => true
  | _ :: _, [] => false
  | x :: a, y :: b =>
      if byte_to_Z x <? byte_to_Z y then true
      else if byte_to_Z y <? byte_to_Z x then false
      else bytes_leb a b
  end.

Definition xorb_le (a b : XorbHash) : Prop := bytes_leb (as_bytes (unwrap a)) (as_bytes (unwrap b)) = true.
#[global] Instance xorb_le_dec : RelDecision xorb_le.
Proof. intros a b. unfold xorb_le. apply _. Defined.

(** [dedup_by]: drop an element equal to the one kept before it. *)
Fixpoint dedup_from (prev : XorbHash) (l : list XorbHash) : list XorbHash :=
  match l with
  | [] => []
  | x :: l =>
      if bool_decide (as_bytes (unwrap x) = as_bytes (unwrap prev)) then dedup_from prev l
      else x :: dedup_from x l
  end.
Definition dedup (l : list XorbHash) : list XorbHash :=
  match l with [] => [] | x :: l => x :: dedup_from x l end.

Definition dedup_sorted_xorbs (xorbs : list XorbHash) : list XorbHash :=
  dedup (merge_sort xorb_le xorbs).

(** ** Rows *)

Inductive value := VInt (n : Z) | VBlob (b : bytes) | VNull.
Definition row := list (string * value).

Definition column (r : row) (col : string) : option value :=
  snd <$> head (filter (λ p : string * value, p.1 = col) r).

Section decode.
(** How [sqlx] reports a column that is missing or of another type. *)
Variable decode_error : string → str.

Definition internal {A} (col : string) : CoreResult A :=
  Err (Internal (lit "row decode: " ++ decode_error col)).

Definition get_i64 (r : row) (col : string) : CoreResult Z :=
  match column r col with Some (VInt n) => Ok n | _ => internal col end.
Definition get_u32 (r : row) (col : string) : CoreResult Z :=
  n ← get_i64 r col; mret (as_u32 n).
Definition get_blob (r : row) (col : string) : CoreResult bytes :=
  match column r col with Some (VBlob b) => Ok b | _ => internal col end.
Definition get_opt_blob (r : row) (col : string) : CoreResult (option bytes) :=
  match column r col with
  | Some (VBlob b) => Ok (Some b)
  | Some VNull => Ok None
  | _ => internal col
  end.
Definition get_hash (r : row) (col : string) : CoreResult Hash32 :=
  b ← get_blob r col; blob_to_hash b.

Definition row_to_file_term (r : row) : CoreResult FileTerm :=
  xorb ← get_hash r "xorb_hash";
  chunk_idx_start ← get_u32 r "chunk_idx_start";
  chunk_idx_end ← get_u32 r "chunk_idx_end";
  unpacked_segment_bytes ← get_u32 r "unpacked_bytes";
  v ← get_opt_blob r "verification";
  verification ← (match v with
                  | Some b => h ← blob_to_hash b; mret (Some h)
                  | None => mret None
                  end);
  mret (mkFileTerm (newtype xorb) chunk_idx_start chunk_idx_end unpacked_segment_bytes verification).

Definition row_to_frame (r : row) : CoreResult XorbFrameRow :=
  frame_index ← get_u32 r "frame_index";
  on_disk_start ← get_u32 r "on_disk_start";
  on_disk_len ← get_u32 r "on_disk_len";
  uncompressed_len ← get_u32 r "uncompressed_len";
  mret (mkXorbFrameRow frame_index on_disk_start on_disk_len uncompressed_len).

Definition row_to_chunk_offset (r : row) : CoreResult ChunkOffsetRow :=
  chunk_hash ← get_hash r "chunk_hash";
  chunk_index ← get_u32 r "chunk_index";
  byte_start ← get_u32 r "byte_start";
  unpacked_segment_bytes ← get_u32 r "unpacked_bytes";
  mret (mkChunkOffsetRow (newtype chunk_hash) chunk_index byte_start unpacked_segment_bytes).

Definition row_to_xorb_info (r : row) (xorb : XorbHash) : CoreResult XorbInfo :=
  num_chunks ← get_u32 r "num_chunks";
  num_bytes_in_cas ← get_u32 r "num_bytes_in_cas";
  num_bytes_on_disk ← get_u32 r "num_bytes_on_disk";
  mret (mkXorbInfo xorb num_chunks num_bytes_in_cas num_bytes_on_disk).

(** [for r in &rows { out.push(f(r)?) }] *)
Fixpoint decode_all {A} (f : row → CoreResult A) (rows : list row) : CoreResult (list A) :=
  match rows with
  | [] => mret []
  | r :: rows => x ← f r; l ← decode_all f rows; mret (x :: l)
  end.
End decode.

(** ** Lemmas *)

Lemma blob_to_hash_to_blob h : blob_to_hash (hash_to_blob h) = Ok h.
Proof.
  unfold blob_to_hash, hash_to_blob. rewrite length_as_bytes. simpl. by rewrite hash_of_as_bytes.
Qed.

Lemma dedup_from_elem prev l x : x ∈ prev :: dedup_from prev l ↔ x ∈ prev :: l.
Proof.
  revert prev. induction l as [|y l IH]; intros prev; simpl; [done|].
  case_bool_decide as Heq.
  - assert (y = prev) as ->.
    { apply as_bytes_inj in Heq. destruct y, prev. simpl in *. by subst. }
    rewrite IH. rewrite !elem_of_cons. tauto.
  - rewrite elem_of_cons, IH. rewrite !elem_of_cons. tauto.
Qed.

(** The list that goes into the [IN] clause has the same members. *)
Lemma dedup_sorted_xorbs_elem l x : x ∈ dedup_sorted_xorbs l ↔ x ∈ l.
Proof.
  unfold dedup_sorted_xorbs. rewrite <-(merge_sort_Permutation xorb_le l) at 2.
  destruct (merge_sort xorb_le l) as [|y k]; [done|]. apply dedup_from_elem.
Qed.

Lemma decode_all_fmap {A B} (f : row → CoreResult A) (g : B → row) (h : B → A) l :
  (∀ x, x ∈ l → f (g x) = Ok (h x)) → decode_all f (g <$> l) = Ok (h <$> l).
Proof.
  induction l as [|x l IH]; intros Hf; [done|]. rewrite fmap_cons. cbn [decode_all].
  rewrite Hf by set_solver. cbn [mbind outcome_bind].
  rewrite IH; [done|]. intros y Hy. apply Hf. set_solver.
Qed.

Lemma decode_all_returns {A} (f : row → CoreResult A) l :
  (∀ r, returned (f r)) → returned (decode_all f l).
Proof.
  intros Hf. induction l as [|r l IH]; simpl; [done|]. specialize (Hf r).
  destruct (f r); simpl; [|done..]. by destruct (decode_all f l).
Qed.

(** Sorting by a key that no two elements share. *)
Lemma sorted_by_key_unique {A} (key : A → Z) l k :
  Sorted (λ x y, key x ≤ key y) l → StronglySorted (λ x y, key x < key y) k → l ≡ₚ k → l = k.
Proof.
  intros Hl. assert (Hl' : StronglySorted (λ x y, key x ≤ key y) l).
  { apply Sorted_StronglySorted; [intros x y z; lia|done]. }
  clear Hl. revert l Hl'. induction k as [|y k IH]; intros l Hl Hk Hp.
  { by apply Permutation_nil_r in Hp. }
  destruct l as [|x l]; [by apply Permutation_nil_cons in Hp|].
  apply StronglySorted_inv in Hl as [Hl Hxl], Hk as [Hk Hyk].
  rewrite Forall_forall in Hxl, Hyk.
  assert (x = y) as ->.
  { assert (Hx : x ∈ y :: k) by (rewrite <-Hp; left).
    assert (Hy : y ∈ x :: l) by (rewrite Hp; left).
    apply elem_of_cons in Hx as [->|Hx], Hy as [Hy|Hy]; try done.
    apply Hyk in Hx. apply Hxl in Hy. lia. }
  f_equal. apply IH; [done|done|]. by eapply Permutation_cons_inv.
Qed.
