(* ===== verification/Db.v ===== *)
(** * The tables of the metadata stores and the meaning of their statements

    The schema of [SCHEMA_SQL] with one finite map per table, keyed by the
    primary key, and the meaning of the SQL statements that the stores execute.
    A statement may fail (lock, I/O); a transaction that does not commit leaves
    the tables as they were. *)

From S2P Require Import Prelude RustStd Core MetaCommon.

(** ** Tables *)

Record xorb_rec := mkXorbRec {
  xr_num_chunks : Z; xr_num_bytes_in_cas : Z; xr_num_bytes_on_disk : Z; xr_created_at : Z }.
Record chunk_rec := mkChunkRec { kr_chunk_index : Z; kr_byte_start : Z; kr_unpacked_bytes : Z }.
Record frame_rec := mkFrameRec { fr_on_disk_start : Z; fr_on_disk_len : Z; fr_uncompressed_len : Z }.
Record file_rec := mkFileRec {
  fl_repo_type : str; fl_revision : str; fl_total_bytes : Z; fl_created_at : Z; fl_owner : str }.
Record term_rec := mkTermRec {
  tr_xorb : XorbHash; tr_chunk_idx_start : Z; tr_chunk_idx_end : Z; tr_unpacked_bytes : Z;
  tr_verification : option Hash32 }.

Record db := mkDb {
  t_xorbs : gmap XorbHash xorb_rec;
  t_chunks : gmap (ChunkHash * XorbHash) chunk_rec;
  t_frames : gmap (XorbHash * Z) frame_rec;
  t_files : gmap (FileHash * str) file_rec;
  t_quotas : gmap str Z;
  t_terms : gmap (FileHash * Z) term_rec;
}.

Definition empty_db : db := mkDb ∅ ∅ ∅ ∅ ∅ ∅.

Definition set_xorbs t (d : db) := mkDb t (t_chunks d) (t_frames d) (t_files d) (t_quotas d) (t_terms d).
Definition set_chunks t (d : db) := mkDb (t_xorbs d) t (t_frames d) (t_files d) (t_quotas d) (t_terms d).
Definition set_frames t (d : db) := mkDb (t_xorbs d) (t_chunks d) t (t_files d) (t_quotas d) (t_terms d).
Definition set_files t (d : db) := mkDb (t_xorbs d) (t_chunks d) (t_frames d) t (t_quotas d) (t_terms d).
Definition set_quotas t (d : db) := mkDb (t_xorbs d) (t_chunks d) (t_frames d) (t_files d) t (t_terms d).
Definition set_terms t (d : db) := mkDb (t_xorbs d) (t_chunks d) (t_frames d) (t_files d) (t_quotas d) t.

(** ** Statements *)

(** [INSERT OR IGNORE] / [ON CONFLICT DO NOTHING]. *)
Definition insert_ignore {K V} `{Countable K} (k : K) (v : V) (m : gmap K V) : gmap K V :=
  match m !! k with Some _ => m | None => <[k := v]> m end.

(** The same with several [VALUES]. *)
Definition insert_ignore_all {K V} `{Countable K} (l : list (K * V)) (m : gmap K V) : gmap K V :=
  foldl (λ m p, insert_ignore p.1 p.2 m) m l.

(** The rows of one key of a table whose primary key is (key, index). *)
Definition rows_of {K R} `{Countable K} (m : gmap (K * Z) R) (k : K) : list (Z * R) :=
  omap (λ p, if decide (p.1.1 = k) then Some (p.1.2, p.2) else None) (map_to_list m).

Definition key_le {R} (x y : Z * R) : Prop := x.1 ≤ y.1.
#[global] Instance key_le_dec {R} : RelDecision (@key_le R).
Proof. intros x y. unfold key_le. apply _. Defined.

(** [WHERE key = ? ORDER BY index ASC]. *)
Definition ordered_rows {K R} `{Countable K} (m : gmap (K * Z) R) (k : K) : list (Z * R) :=
  merge_sort key_le (rows_of m k).

(** [SUM] of an integer column: an overflow is an error of the statement. *)
Definition sum_i64 (l : list Z) : outcome str Z :=
  let s := sumZ l in
  if (- 2 ^ 63 <=? s) && (s <? 2 ^ 63) then Ok s else Err (lit "integer overflow").

(** [SELECT DISTINCT ft.xorb_hash FROM file_terms ft JOIN files f ON
    f.file_hash = ft.file_hash WHERE P(f)]. *)
Definition file_matches (d : db) (P : str → file_rec → bool) (h : FileHash) : bool :=
  existsb (λ p, bool_decide (p.1.1 = h) && P p.1.2 p.2) (map_to_list (t_files d)).
Definition referenced (d : db) (P : str → file_rec → bool) : gset XorbHash :=
  list_to_set (omap (λ p, if file_matches d P p.1.1 then Some (tr_xorb p.2) else None)
                 (map_to_list (t_terms d))).

(** [SELECT num_bytes_on_disk FROM xorbs WHERE P(hash)]. *)
Definition on_disk_where (d : db) (P : XorbHash → bool) : list Z :=
  omap (λ p, if P p.1 then Some (xr_num_bytes_on_disk p.2) else None) (map_to_list (t_xorbs d)).

(** [SELECT total_bytes FROM files WHERE P(repo_id, row)]. *)
Definition totals_where (d : db) (P : str → file_rec → bool) : list Z :=
  omap (λ p, if P p.1.2 p.2 then Some (fl_total_bytes p.2) else None) (map_to_list (t_files d)).

(** ** The store

    The tables, the clock, and what the next statements will meet: [None] for
    success, [Some e] for a failure with message [e]. *)
Record store := mkStore { database : db; clock : Z; faults : list (option str) }.

Definition set_database d (s : store) : store := mkStore d (clock s) (faults s).
Definition pop_fault (s : store) : store := mkStore (database s) (clock s) (tail (faults s)).

Abbreviation M := (ST store CoreError).

(** Execute a statement; [msg] is the text put before the error. *)
Definition stmt {A} (msg : string) (f : db → outcome str A * db) : M A := λ s,
  match default None (head (faults s)) with
  | Some e => (Err (Internal (lit msg ++ e)), pop_fault s)
  | None =>
      let '(r, d) := f (database s) in
      (map_err (λ e, Internal (lit msg ++ e)) r, set_database d (pop_fault s))
  end.
Definition query {A} (msg : string) (f : db → outcome str A) : M A := stmt msg (λ d, (f d, d)).
Definition exec (msg : string) (f : db → db) : M unit := stmt msg (λ d, (Ok tt, f d)).

(** [begin], the body, [commit]; dropping the transaction rolls it back.  A
    commit that fails has not taken effect: that its answer alone is lost, which a
    connection over a network allows, is left out. *)
Definition in_tx {A} (begin_msg commit_msg : string) (body : M A) : M A := λ s,
  match exec begin_msg (λ d, d) s with
  | (Ok _, s1) =>
      match body s1 with
      | (Ok a, s2) =>
          match exec commit_msg (λ d, d) s2 with
          | (Ok _, s3) => (Ok a, s3)
          | (Err e, s3) => (Err e, set_database (database s) s3)
          | (Panic, s3) => (Panic, set_database (database s) s3)
          | (Diverged, s3) => (Diverged, set_database (database s) s3)
          end
      | (Err e, s2) => (Err e, set_database (database s) s2)
      | (Panic, s2) => (Panic, set_database (database s) s2)
      | (Diverged, s2) => (Diverged, set_database (database s) s2)
      end
  | (Err e, s1) => (Err e, s1)
  | (Panic, s1) => (Panic, s1)
  | (Diverged, s1) => (Diverged, s1)
  end.

(** ** Lemmas *)

(** A statement that answers has its effect, one that fails has none. *)
Lemma wps_stmt {A} msg (f : db → outcome str A * db) s (Q : A → store → Prop) (R : CoreError → store → Prop) :
  (∀ e, R (Internal (lit msg ++ e)) (pop_fault s)) →
  wp (f (database s)).1 (λ a, Q a (set_database (f (database s)).2 (pop_fault s)))
     (λ e, R (Internal (lit msg ++ e)) (set_database (f (database s)).2 (pop_fault s))) →
  wps (stmt msg f) s Q R.
Proof.
  intros HR Hf. unfold wps, stmt. destruct (default None _); [done|].
  by destruct (f (database s)) as [[?|?| |] ?].
Qed.

Lemma wps_query {A} msg (f : db → outcome str A) s (Q : A → store → Prop) (R : CoreError → store → Prop) :
  (∀ e, R (Internal (lit msg ++ e)) (pop_fault s)) →
  wp (f (database s)) (λ a, Q a (pop_fault s)) (λ e, R (Internal (lit msg ++ e)) (pop_fault s)) →
  wps (query msg f) s Q R.
Proof. intros HR Hf. by apply wps_stmt. Qed.

Lemma wps_exec msg f s (Q : unit → store → Prop) (R : CoreError → store → Prop) :
  (∀ e, R (Internal (lit msg ++ e)) (pop_fault s)) →
  Q tt (set_database (f (database s)) (pop_fault s)) →
  wps (exec msg f) s Q R.
Proof. intros HR Hf. by apply wps_stmt. Qed.

(** A transaction has the effect of its body or none at all. *)
Lemma wps_in_tx {A} b c (body : M A) s (Q : A → db → Prop) :
  (∀ s1, database s1 = database s → clock s1 = clock s →
     wps body s1 (λ a s2, Q a (database s2)) (λ _ _, True)) →
  wps (in_tx b c body) s (λ a s', Q a (database s')) (λ _ s', database s' = database s).
Proof.
  intros Hb. unfold wps, in_tx, exec, stmt.
  destruct (default None (head (faults s))); simpl; [done|].
  specialize (Hb (set_database (database s) (pop_fault s)) eq_refl eq_refl). unfold wps in Hb.
  destruct (body _) as [[a|e| |] s2]; try done.
  by destruct (default None (head (faults s2))).
Qed.

(** Without faults a transaction whose body answers commits. *)
Lemma in_tx_no_fault {A} b c (body : M A) s a s2 :
  faults s = [] → body s = (Ok a, s2) → faults s2 = [] →
  in_tx b c body s = (Ok a, s2).
Proof.
  intros Hf Hb Hf2. destruct s as [d ck ft], s2 as [d2 ck2 ft2]. simpl in *. subst ft ft2.
  unfold in_tx, exec, stmt, pop_fault, set_database. cbn [head default faults database clock tail map_err].
  by rewrite Hb.
Qed.

Section insert_ignore.
Context {K V : Type} `{Countable K}.
Implicit Types m : gmap K V.

Lemma lookup_insert_ignore k v m i :
  insert_ignore k v m !! i = match m !! i with
                             | Some w => Some w
                             | None => if decide (i = k) then Some v else None
                             end.
Proof.
  unfold insert_ignore. destruct (m !! k) as [w|] eqn:Hk.
  - destruct (m !! i) eqn:Hi; [done|]. rewrite decide_False; congruence.
  - destruct (decide (i = k)) as [->|Hne]; [by rewrite lookup_insert_eq, Hk|].
    rewrite lookup_insert_ne by done. by destruct (m !! i).
Qed.

Lemma insert_ignore_all_cons k v l m :
  insert_ignore_all ((k, v) :: l) m = insert_ignore_all l (insert_ignore k v m).
Proof. done. Qed.

Lemma insert_ignore_all_app l k m :
  insert_ignore_all (l ++ k) m = insert_ignore_all k (insert_ignore_all l m).
Proof. unfold insert_ignore_all. apply foldl_app. Qed.

Lemma lookup_insert_ignore_all_old l m i w :
  m !! i = Some w → insert_ignore_all l m !! i = Some w.
Proof.
  revert m. induction l as [|[k v] l IH]; intros m Hm; [done|]. rewrite insert_ignore_all_cons.
  apply IH. by rewrite lookup_insert_ignore, Hm.
Qed.

Lemma lookup_insert_ignore_all_ne l m i :
  i ∉ l.*1 → insert_ignore_all l m !! i = m !! i.
Proof.
  revert m. induction l as [|[k v] l IH]; intros m Hi; [done|]. rewrite insert_ignore_all_cons.
  simpl in Hi. rewrite IH by set_solver.
  rewrite lookup_insert_ignore. destruct (m !! i); [done|]. rewrite decide_False; set_solver.
Qed.

Lemma lookup_insert_ignore_all l m i v :
  NoDup l.*1 → m !! i = None →
  insert_ignore_all l m !! i = Some v ↔ (i, v) ∈ l.
Proof.
  revert m. induction l as [|[k w] l IH]; intros m Hnd Hi.
  { unfold insert_ignore_all. simpl. rewrite Hi. set_solver. }
  apply NoDup_cons in Hnd as [Hk Hnd]. rewrite insert_ignore_all_cons, elem_of_cons.
  assert (Hm : insert_ignore k w m !! i = if decide (i = k) then Some w else None)
    by by rewrite lookup_insert_ignore, Hi.
  case_decide as Heq.
  - subst k. rewrite (lookup_insert_ignore_all_old l _ i w) by done. split.
    + intros [= ->]. by left.
    + intros [[= ->]|Hin]; [done|]. destruct Hk. apply list_elem_of_fmap. by exists (i, v).
  - rewrite IH by done. naive_solver.
Qed.
End insert_ignore.

Section rows.
Context {K R : Type} `{Countable K}.
Implicit Types m : gmap (K * Z) R.

Lemma elem_of_rows_of m k i r : (i, r) ∈ rows_of m k ↔ m !! (k, i) = Some r.
Proof.
  unfold rows_of. rewrite list_elem_of_omap. split.
  - intros ([[k' i'] r'] & Hin & Hp). simpl in Hp. case_decide; simplify_eq.
    by apply elem_of_map_to_list.
  - intros Hm. exists ((k, i), r). split; [by apply elem_of_map_to_list|]. simpl.
    by rewrite decide_True.
Qed.

Lemma rows_of_nodup m k : NoDup (rows_of m k).
Proof.
  unfold rows_of. assert (Hnd : NoDup (map_to_list m)) by apply NoDup_map_to_list.
  induction Hnd as [|[[k' i'] r'] l Hx _ IH]; simpl; [constructor|].
  case_decide; [|done]. subst. constructor; [|done].
  rewrite list_elem_of_omap. intros ([[k2 i2] r2] & Hin & Hp). simpl in Hp.
  case_decide; simplify_eq. done.
Qed.

(** The answer of an ordered query, when the rows are those of a list with
    increasing keys. *)
Lemma ordered_rows_spec m k l :
  StronglySorted (λ x y, x.1 < y.1) l →
  (∀ i r, m !! (k, i) = Some r ↔ (i, r) ∈ l) → ordered_rows m k = l.
Proof.
  intros Hs Hm. apply (sorted_by_key_unique fst); [|done|].
  - apply Sorted_merge_sort. intros x y. unfold key_le. lia.
  - unfold ordered_rows. rewrite merge_sort_Permutation. apply NoDup_Permutation.
    + apply rows_of_nodup.
    + clear -Hs. induction Hs as [|x l _ IH Hf]; constructor; [|done].
      rewrite Forall_forall in Hf. intros Hin. apply Hf in Hin. lia.
    + intros [i r]. by rewrite elem_of_rows_of, Hm.
Qed.

Lemma elem_of_ordered_rows m k i r : (i, r) ∈ ordered_rows m k ↔ m !! (k, i) = Some r.
Proof. unfold ordered_rows. by rewrite merge_sort_Permutation, elem_of_rows_of. Qed.

(** The index is a key: the order is strict. *)
Lemma ordered_rows_strict m k : StronglySorted (λ x y, x.1 < y.1) (ordered_rows m k).
Proof.
  assert (Hs : StronglySorted key_le (ordered_rows m k)).
  { apply Sorted_StronglySorted; [intros x y z; unfold key_le; lia|].
    apply Sorted_merge_sort. intros x y. unfold key_le. lia. }
  assert (Hnd : NoDup (ordered_rows m k)).
  { unfold ordered_rows. rewrite merge_sort_Permutation. apply rows_of_nodup. }
  assert (Hf : ∀ x y, x ∈ ordered_rows m k → y ∈ ordered_rows m k → x.1 = y.1 → x = y).
  { intros [i r] [j q] Hx%elem_of_ordered_rows Hy%elem_of_ordered_rows. simpl. intros ->. congruence. }
  revert Hf. induction Hs as [|x l _ IH Hx]; intros Hf; constructor.
  - inversion Hnd; subst. apply IH; [done|]. intros y z Hy Hz. apply Hf; by right.
  - apply NoDup_cons in Hnd as [Hni _]. rewrite Forall_forall in Hx |- *. intros y Hy.
    specialize (Hx y Hy). unfold key_le in Hx.
    destruct (decide (x.1 = y.1)) as [He|]; [|lia].
    apply Hf in He; [|left|by right]. congruence.
Qed.

Lemma ordered_rows_ext m m' k :
  (∀ i, m !! (k, i) = m' !! (k, i)) → ordered_rows m k = ordered_rows m' k.
Proof.
  intros Hm. apply ordered_rows_spec; [apply ordered_rows_strict|].
  intros i r. by rewrite elem_of_ordered_rows, Hm.
Qed.

Lemma ordered_rows_nil m k : (∀ i, m !! (k, i) = None) → ordered_rows m k = [].
Proof.
  intros Hm. apply ordered_rows_spec; [constructor|]. intros i r. rewrite Hm. set_solver.
Qed.
End rows.
