(* ===== verification/Sqlite.v ===== *)
(** * The SQLite metadata store ([crates/bale-server-meta-sqlite])

    Every method of [MetadataStore], statement by statement, over the tables of
    [Db]; the transactions of the registering methods; and the theorems: the
    registrations are atomic and write-once, the accounting queries agree with
    each other, the batch queries with the single ones. *)

From S2P Require Import Prelude RustStd Core MetaCommon Db.

Section sqlite.
(** How [sqlx] reports a column, and which of the matching rows a [LIMIT 1]
    without an order returns. *)
Variable decode_error : string → str.
Variable choose : ∀ A : Type, list A → option A.

(** [format!("{:?}", repo_type).to_lowercase()]. *)
Definition repo_type_text (t : RepoType) : str :=
  match t with Model => lit "model" | Dataset => lit "dataset" | Space => lit "space" end.

Definition terms_total (terms : list FileTerm) : Z :=
  as_u64 (sumZ (ft_unpacked_segment_bytes <$> terms)).

Definition file_row (now : Z) (repo : RepoRef) (terms : list FileTerm) : file_rec :=
  mkFileRec (repo_type_text (repo_type repo)) (revision repo) (as_i64 (terms_total terms)) now
    (owner repo).

Definition term_row (t : FileTerm) : term_rec :=
  mkTermRec (ft_xorb t) (ft_chunk_idx_start t) (ft_chunk_idx_end t) (ft_unpacked_segment_bytes t)
    (ft_verification t).

Definition indexed_terms (file_hash : FileHash) (terms : list FileTerm) : list (FileHash * Z * term_rec) :=
  imap (λ i t, (file_hash, Z.of_nat i, term_row t)) terms.

Definition write_file_in_tx (file_hash : FileHash) (repo : RepoRef) (terms : list FileTerm) : M unit :=
  now ← gets (λ s, now_unix (clock s));
  _ ← exec "insert file: " (λ d,
        set_files (<[(file_hash, repo_id repo) := file_row now repo terms]> (t_files d)) d);
  probe ← query "probe existing terms: " (λ d, Ok (choose _ (rows_of (t_terms d) file_hash)));
  match probe with
  | Some _ => mret tt
  | None =>
      for_each (λ batch, exec "insert terms: " (λ d,
        set_terms (insert_ignore_all batch (t_terms d)) d))
        (chunks_of CHUNK_INSERT_BATCH (indexed_terms file_hash terms))
  end.

Definition xorb_row (now : Z) (x : XorbInfo) : xorb_rec :=
  mkXorbRec (xi_num_chunks x) (xi_num_bytes_in_cas x) (xi_num_bytes_on_disk x) now.

Definition sq_register_xorb (xorb : XorbInfo) (chunks : list ChunkRow) : M unit :=
  in_tx "begin: " "commit: " (
    now ← gets (λ s, now_unix (clock s));
    _ ← exec "insert xorb: " (λ d,
          set_xorbs (insert_ignore (xi_xorb xorb) (xorb_row now xorb) (t_xorbs d)) d);
    for_each (λ batch, exec "insert chunks: " (λ d,
      set_chunks (insert_ignore_all ((λ c, ((cr_chunk_hash c, xi_xorb xorb),
        mkChunkRec (cr_chunk_index c) (cr_byte_start c) (cr_unpacked_segment_bytes c))) <$> batch)
        (t_chunks d)) d))
      (chunks_of CHUNK_INSERT_BATCH chunks)).

Definition sq_register_file (file_hash : FileHash) (repo : RepoRef) (terms : list FileTerm) : M unit :=
  in_tx "begin: " "commit: " (write_file_in_tx file_hash repo terms).

Definition sq_register_files (repo : RepoRef) (files : list (FileHash * list FileTerm)) : M unit :=
  match files with
  | [] => mret tt
  | _ => in_tx "begin: " "commit: "
           (for_each (λ p, write_file_in_tx p.1 repo p.2) files)
  end.

Definition sq_xorb_exists (xorb : XorbHash) : M bool :=
  query "select xorb: " (λ d, Ok (bool_decide (is_Some (t_xorbs d !! xorb)))).

Definition sq_file_in_repo (file_hash : FileHash) (repo_id : str) : M bool :=
  query "select file_in_repo: " (λ d, Ok (bool_decide (is_Some (t_files d !! (file_hash, repo_id))))).

(** The columns that the queries name. *)
Definition term_columns (p : Z * term_rec) : row :=
  let t := p.2 in
  [("xorb_hash", VBlob (hash_to_blob (unwrap (tr_xorb t)))); ("chunk_idx_start", VInt (tr_chunk_idx_start t));
   ("chunk_idx_end", VInt (tr_chunk_idx_end t)); ("unpacked_bytes", VInt (tr_unpacked_bytes t));
   ("verification", match tr_verification t with Some h => VBlob (hash_to_blob h) | None => VNull end)]%string.

Definition frame_columns (p : Z * frame_rec) : row :=
  [("frame_index", VInt p.1); ("on_disk_start", VInt (fr_on_disk_start p.2));
   ("on_disk_len", VInt (fr_on_disk_len p.2)); ("uncompressed_len", VInt (fr_uncompressed_len p.2))]%string.

Definition chunk_columns (p : ChunkHash * chunk_rec) : row :=
  [("chunk_hash", VBlob (hash_to_blob (unwrap p.1))); ("chunk_index", VInt (kr_chunk_index p.2));
   ("byte_start", VInt (kr_byte_start p.2)); ("unpacked_bytes", VInt (kr_unpacked_bytes p.2))]%string.

Definition xorb_columns (x : xorb_rec) : row :=
  [("num_chunks", VInt (xr_num_chunks x)); ("num_bytes_in_cas", VInt (xr_num_bytes_in_cas x));
   ("num_bytes_on_disk", VInt (xr_num_bytes_on_disk x))]%string.

(** [SELECT total_bytes FROM files WHERE file_hash = ? LIMIT 1]. *)
Definition recorded_size (d : db) (file_hash : FileHash) : option Z :=
  choose _ (omap (λ p, if decide (p.1.1 = file_hash) then Some (fl_total_bytes p.2) else None)
              (map_to_list (t_files d))).

Definition inconsistent_terms (term_sum total : Z) : CoreError :=
  Internal (lit "file term list sums to " ++ to_string term_sum ++ lit " but recorded size is "
    ++ to_string total
    ++ lit "; refusing to serve an inconsistent reconstruction (re-register this file)").

Definition sq_lookup_file (file_hash : FileHash) : M (option (list FileTerm)) :=
  rows ← query "select terms: " (λ d, Ok (term_columns <$> ordered_rows (t_terms d) file_hash));
  match rows with
  | [] => mret None
  | _ =>
      terms ← lift (decode_all (row_to_file_term decode_error) rows);
      let term_sum := terms_total terms in
      recorded ← query "select file size: " (λ d, Ok (recorded_size d file_hash));
      match recorded with
      | Some total =>
          total ← lift (nonneg_i64_to_u64 total "files.total_bytes");
          if negb (term_sum =? total) then throw (inconsistent_terms term_sum total)
          else mret (Some terms)
      | None => mret (Some terms)
      end
  end.

Definition frame_entry (xorb : XorbHash) (f : XorbFrameRow) : XorbHash * Z * frame_rec :=
  (xorb, xf_frame_index f, mkFrameRec (xf_on_disk_start f) (xf_on_disk_len f) (xf_uncompressed_len f)).

Definition sq_register_xorb_layout (xorb : XorbHash) (frames : list XorbFrameRow) : M unit :=
  match frames with
  | [] => mret tt
  | _ => in_tx "begin: " "commit frames: "
           (for_each (λ batch, exec "insert frames: " (λ d,
              set_frames (insert_ignore_all (frame_entry xorb <$> batch) (t_frames d)) d))
              (chunks_of CHUNK_INSERT_BATCH frames))
  end.

Definition sq_xorb_frame_layout (xorb : XorbHash) : M (list XorbFrameRow) :=
  rows ← query "select frames: " (λ d, Ok (frame_columns <$> ordered_rows (t_frames d) xorb));
  lift (decode_all (row_to_frame decode_error) rows).

(** [for r in &rows { out.entry(xorb).or_default().push(frame) }] *)
Fixpoint group_frames (rows : list (XorbHash * row)) (out : gmap XorbHash (list XorbFrameRow))
    : CoreResult (gmap XorbHash (list XorbFrameRow)) :=
  match rows with
  | [] => mret out
  | (x, r) :: rows =>
      xorb ← blob_to_hash (hash_to_blob (unwrap x));
      f ← row_to_frame decode_error r;
      group_frames rows (<[newtype xorb := default [] (out !! newtype xorb) ++ [f]]> out)
  end.

(** [WHERE xorb_hash IN (...) ORDER BY xorb_hash, frame_index]: the xorbs come
    in the order of the sorted list, each with its frames in order. *)
Definition sq_xorb_frame_layouts (xorbs : list XorbHash) : M (gmap XorbHash (list XorbFrameRow)) :=
  match xorbs with
  | [] => mret ∅
  | _ =>
      let uniq := dedup_sorted_xorbs xorbs in
      rows ← query "select frame layouts: " (λ d,
        Ok (uniq ≫= λ x, (λ p, (x, frame_columns p)) <$> ordered_rows (t_frames d) x));
      lift (group_frames rows ∅)
  end.

Definition sq_xorbs_near_chunk (chunk_hash : ChunkHash) (limit : nat) : M (list XorbInfo) :=
  r ← query "near: " (λ d, Ok (choose _ (omap (λ p, if decide (p.1.1 = chunk_hash) then Some (p.1.2)
        else None) (map_to_list (t_chunks d)))));
  match r with
  | None => mret []
  | Some x =>
      xorb ← lift (blob_to_hash (hash_to_blob (unwrap x)));
      let xorb : XorbHash := newtype xorb in
      r ← query "xorb meta: " (λ d, match t_xorbs d !! xorb with
            | Some x => Ok (xorb_columns x)
            | None => Err (lit "no rows returned by a query that expected to return at least one row")
            end);
      info ← lift (row_to_xorb_info decode_error r xorb);
      mret (take limit [info])
  end.

(** A query with one aggregate, decoded and checked. *)
Definition aggregate (msg label : string) (f : db → list Z) : M Z :=
  n ← query msg (λ d, sum_i64 (f d));
  lift (nonneg_i64_to_u64 n label).

Definition owned_by (o : str) (_ : str) (f : file_rec) : bool := bool_decide (fl_owner f = o).
Definition in_repo (r : str) (repo : str) (_ : file_rec) : bool := bool_decide (repo = r).
Definition sibling_of (r o : str) (repo : str) (f : file_rec) : bool :=
  bool_decide (fl_owner f = o) && negb (bool_decide (repo = r)).

Definition sq_raw_bytes_for_owner (owner : str) : M Z :=
  aggregate "raw_bytes_for_owner: " "raw_bytes_for_owner" (λ d, totals_where d (owned_by owner)).

Definition sq_stored_bytes_for_owner (owner : str) : M Z :=
  aggregate "stored_bytes_for_owner: " "stored_bytes_for_owner" (λ d,
    on_disk_where d (λ x, bool_decide (x ∈ referenced d (owned_by owner)))).

Definition sq_get_owner_quota (owner : str) : M (option Z) :=
  r ← query "get_owner_quota: " (λ d, Ok (t_quotas d !! owner));
  match r with
  | None => mret None
  | Some n => n ← lift (nonneg_i64_to_u64 n "get_owner_quota"); mret (Some n)
  end.

Definition sq_set_owner_quota (owner : str) (limit_bytes : option Z) : M unit :=
  match limit_bytes with
  | Some n => exec "set_owner_quota: " (λ d, set_quotas (<[owner := as_i64 n]> (t_quotas d)) d)
  | None => exec "clear_owner_quota: " (λ d, set_quotas (delete owner (t_quotas d)) d)
  end.

Definition sq_raw_bytes_for_repo (repo_id : str) : M Z :=
  aggregate "raw_bytes_for_repo: " "raw_bytes_for_repo" (λ d, totals_where d (in_repo repo_id)).

Definition sq_stored_bytes_for_repo (repo_id : str) : M Z :=
  aggregate "stored_bytes_for_repo: " "stored_bytes_for_repo" (λ d,
    on_disk_where d (λ x, bool_decide (x ∈ referenced d (in_repo repo_id)))).

Definition sq_exclusive_stored_bytes_for_repo (repo_id : str) : M Z :=
  let owner := owner_of_id repo_id in
  aggregate "exclusive_stored_bytes_for_repo: " "exclusive_stored_bytes_for_repo" (λ d,
    on_disk_where d (λ x, bool_decide (x ∈ referenced d (in_repo repo_id)) &&
      negb (bool_decide (x ∈ referenced d (sibling_of repo_id owner))))).

Definition sq_unaccounted_xorb_bytes_for_owner (owner : str) (candidates : list XorbHash) : M Z :=
  match candidates with
  | [] => mret 0
  | _ =>
      let uniq := dedup_sorted_xorbs candidates in
      aggregate "unaccounted_xorb_bytes: " "unaccounted_xorb_bytes_for_owner" (λ d,
        on_disk_where d (λ x, bool_decide (x ∈ uniq) &&
          negb (bool_decide (x ∈ referenced d (owned_by owner)))))
  end.

(** [ORDER BY chunk_index]. *)
Definition chunk_index_le (x y : ChunkHash * chunk_rec) : Prop := kr_chunk_index x.2 ≤ kr_chunk_index y.2.
#[global] Instance chunk_index_le_dec : RelDecision chunk_index_le.
Proof. intros x y. unfold chunk_index_le. apply _. Defined.

Definition sq_xorb_chunk_offsets (xorb : XorbHash) : M (list ChunkOffsetRow) :=
  rows ← query "xorb offsets: " (λ d, Ok (chunk_columns <$> merge_sort chunk_index_le
    (omap (λ p, if decide (p.1.2 = xorb) then Some (p.1.1, p.2) else None) (map_to_list (t_chunks d)))));
  lift (decode_all (row_to_chunk_offset decode_error) rows).

Definition SqliteMetadataStore_ops : MetadataStore store := {|
  register_xorb := sq_register_xorb;
  register_file := sq_register_file;
  register_files := sq_register_files;
  register_xorb_layout := sq_register_xorb_layout;
  xorb_frame_layout := sq_xorb_frame_layout;
  xorb_frame_layouts := sq_xorb_frame_layouts;
  meta_xorb_exists := sq_xorb_exists;
  lookup_file := sq_lookup_file;
  file_in_repo := sq_file_in_repo;
  xorbs_near_chunk := sq_xorbs_near_chunk;
  xorb_chunk_offsets := sq_xorb_chunk_offsets;
  raw_bytes_for_owner := sq_raw_bytes_for_owner;
  stored_bytes_for_owner := sq_stored_bytes_for_owner;
  get_owner_quota := sq_get_owner_quota;
  set_owner_quota := sq_set_owner_quota;
  unaccounted_xorb_bytes_for_owner := sq_unaccounted_xorb_bytes_for_owner;
  raw_bytes_for_repo := sq_raw_bytes_for_repo;
  stored_bytes_for_repo := sq_stored_bytes_for_repo;
  exclusive_stored_bytes_for_repo := sq_exclusive_stored_bytes_for_repo;
|}.
End sqlite.

(** ** Atomic registration *)
Section registration.
#[local] Set Default Proof Using "Type*".
Variable decode_error : string → str.
Variable choose : ∀ A : Type, list A → option A.
(** [LIMIT 1] answers one of the rows, if there is one. *)
Hypothesis choose_spec : ∀ A (l : list A),
  match choose _ l with Some x => x ∈ l | None => l = [] end.

(** The effect of one file on the tables. *)
Definition write_file_db (now : Z) (repo : RepoRef) (d : db) (p : FileHash * list FileTerm) : db :=
  let d1 := set_files (<[(p.1, repo_id repo) := file_row now repo p.2]> (t_files d)) d in
  match rows_of (t_terms d) p.1 with
  | [] => set_terms (insert_ignore_all (indexed_terms p.1 p.2) (t_terms d)) d1
  | _ => d1
  end.

Lemma for_each_exec {B} msg (f : B → db → db) l s (R : CoreError → store → Prop) :
  (∀ e s', R e s') →
  wps (for_each (λ b, exec msg (f b)) l) s
    (λ _ s', database s' = foldl (λ d b, f b d) (database s) l ∧ clock s' = clock s) R.
Proof.
  intros HR. revert s. induction l as [|b l IH]; intros s; simpl; [done|]. wsteps.
  apply wps_exec; [auto|]. eapply wps_mono; [apply IH|by auto|done].
Qed.

Lemma insert_batches {K V} `{Countable K} (n : nat) (l : list (K * V)) (m : gmap K V) :
  (0 < n)%nat → foldl (λ m b, insert_ignore_all b m) m (chunks_of n l) = insert_ignore_all l m.
Proof.
  intros Hn. rewrite <-(concat_chunks_of n l) at 2 by done. generalize (chunks_of n l) as bs. intros bs.
  revert m. induction bs as [|b bs IH]; intros m; simpl; [done|]. by rewrite insert_ignore_all_app, IH.
Qed.

Lemma foldl_set_terms bs d :
  foldl (λ d b, set_terms (insert_ignore_all b (t_terms d)) d) d bs
  = set_terms (foldl (λ m b, insert_ignore_all b m) (t_terms d) bs) d.
Proof. revert d. induction bs as [|b bs IH]; intros d; simpl; [by destruct d|]. by rewrite IH. Qed.

Lemma write_file_wps h repo terms s :
  wps (write_file_in_tx choose h repo terms) s
    (λ _ s', database s' = write_file_db (now_unix (clock s)) repo (database s) (h, terms) ∧
             clock s' = clock s)
    (λ _ _, True).
Proof.
  unfold write_file_in_tx. wsteps. apply wps_exec; [done|]. wsteps. apply wps_query; [done|]. simpl.
  unfold write_file_db. simpl. pose proof (choose_spec _ (rows_of (t_terms (database s)) h)) as Hc.
  destruct (choose _ _) as [x|]; simpl.
  - wsteps. destruct (rows_of _ _); [set_solver|done].
  - rewrite Hc. eapply wps_mono.
    { by apply (for_each_exec _ (λ b d, set_terms (insert_ignore_all b (t_terms d)) d) _ _ (λ _ _, True)). }
    2: done. intros u s' [Hd Hck]. split; [|done]. rewrite Hd, foldl_set_terms.
    rewrite insert_batches by (unfold CHUNK_INSERT_BATCH; lia). done.
Qed.

Lemma write_files_wps repo files s now :
  now_unix (clock s) = now →
  wps (for_each (λ p, write_file_in_tx choose p.1 repo p.2) files) s
    (λ _ s', database s' = foldl (write_file_db now repo) (database s) files) (λ _ _, True).
Proof.
  revert s. induction files as [|[h terms] files IH]; intros s Hnow; simpl; [done|]. wsteps.
  eapply wps_mono; [apply write_file_wps| |done]. intros u s' [Hd Hc]. simpl in Hd.
  rewrite Hnow in Hd. rewrite <-Hd. apply IH. by rewrite Hc.
Qed.

(** The effect of a batch: all of it, or nothing. *)
Lemma register_files_wps repo files s :
  wps (sq_register_files choose repo files) s
    (λ _ s', database s' = foldl (write_file_db (now_unix (clock s)) repo) (database s) files)
    (λ _ s', database s' = database s).
Proof.
  unfold sq_register_files. destruct files as [|p files]; [done|].
  apply (wps_in_tx _ _ _ _ (λ _ d, d = _)). intros s1 Hd Hc. rewrite <-Hd.
  apply write_files_wps. by rewrite Hc.
Qed.

(** Registering the files of a shard is atomic whatever statement fails:
    either every file row is written and every file without a term list gets
    its own, or the tables are exactly as before; and the call always comes back. *)
Theorem register_files_atomic repo files s :
  match sq_register_files choose repo files s with
  | (Ok _, s') => database s' = foldl (write_file_db (now_unix (clock s)) repo) (database s) files
  | (Err _, s') => database s' = database s
  | _ => False
  end.
Proof.
  pose proof (register_files_wps repo files s) as H. unfold wps in H.
  destruct (sq_register_files choose repo files s) as [[?|?| |] ?]; done.
Qed.
End registration.

(** ** Write-once term lists *)

(** The term rows of a file are those of a list. *)
Definition numbered (l : list FileTerm) : list (Z * term_rec) := imap (λ i t, (Z.of_nat i, term_row t)) l.
Definition has_terms (d : db) (h : FileHash) (l : list FileTerm) : Prop :=
  ∀ i r, t_terms d !! (h, i) = Some r ↔ (i, r) ∈ numbered l.

Lemma elem_of_numbered l i r :
  (i, r) ∈ numbered l ↔ ∃ n t, l !! n = Some t ∧ i = Z.of_nat n ∧ r = term_row t.
Proof.
  unfold numbered. rewrite list_elem_of_lookup. setoid_rewrite list_lookup_imap_Some. naive_solver.
Qed.

Lemma numbered_sorted l : StronglySorted (λ x y, x.1 < y.1) (numbered l).
Proof.
  unfold numbered. assert (H : ∀ k, StronglySorted (λ x y : Z * term_rec, x.1 < y.1)
    (imap (λ i t, (Z.of_nat (k + i), term_row t)) l)).
  { induction l as [|t l IH]; intros k; cbn [imap]; constructor.
    - rewrite (imap_ext _ (λ i t, (Z.of_nat (S k + i), term_row t))); [apply IH|].
      intros. simpl. do 2 f_equal. lia.
    - apply Forall_forall. intros [i r] Hin. apply list_elem_of_lookup in Hin as (n & Hn).
      apply list_lookup_imap_Some in Hn as (t' & _ & [= -> ->]). simpl. lia. }
  apply (H O).
Qed.

Lemma has_terms_rows d h l : has_terms d h l → ordered_rows (t_terms d) h = numbered l.
Proof. intros Hl. apply ordered_rows_spec; [apply numbered_sorted|done]. Qed.

Lemma has_terms_inj d h l k :
  has_terms d h l → has_terms d h k → numbered l = numbered k.
Proof. intros Hl Hk. by rewrite <-(has_terms_rows d h l), <-(has_terms_rows d h k). Qed.

Lemma has_terms_rows_of d h l : has_terms d h l → (rows_of (t_terms d) h = [] ↔ l = []).
Proof.
  intros Hl. split.
  - intros Hr. destruct l as [|t l]; [done|]. exfalso.
    assert (Hin : (0, term_row t) ∈ rows_of (t_terms d) h).
    { apply elem_of_rows_of, Hl, elem_of_numbered. by exists O, t. }
    rewrite Hr in Hin. set_solver.
  - intros ->. destruct (rows_of (t_terms d) h) as [|[i r] k] eqn:Hr; [done|]. exfalso.
    assert (Hin : (i, r) ∈ rows_of (t_terms d) h) by (rewrite Hr; left).
    apply elem_of_rows_of, Hl in Hin. set_solver.
Qed.

(** Reading a row gives the term that was written. *)
Lemma row_to_file_term_columns de p t :
  wf_term t → p.2 = term_row t → row_to_file_term de (term_columns p) = Ok t.
Proof.
  destruct t as [[x] a b u v], p as [i r]. intros (? & ? & ?) Hr. simpl in *. subst r.
  unfold row_to_file_term, term_columns, get_hash, get_u32, get_i64, get_blob, get_opt_blob. simpl.
  rewrite blob_to_hash_to_blob. simpl. rewrite !as_u32_id by done. destruct v as [v|]; simpl; [|done].
  by rewrite blob_to_hash_to_blob.
Qed.

Lemma decode_numbered de l :
  Forall wf_term l → decode_all (row_to_file_term de) (term_columns <$> numbered l) = Ok l.
Proof.
  unfold numbered. assert (H : ∀ k, Forall wf_term l → decode_all (row_to_file_term de)
    (term_columns <$> imap (λ i t, (Z.of_nat (k + i), term_row t)) l) = Ok l).
  { induction l as [|t l IH]; intros k Hl; [done|]. inversion Hl as [|?? Ht Hl']; subst.
    cbn [imap fmap list_fmap decode_all]. rewrite (row_to_file_term_columns de _ t) by done.
    cbn [mbind outcome_bind].
    rewrite (imap_ext _ (λ i t, (Z.of_nat (S k + i), term_row t)))
      by (intros; simpl; do 2 f_equal; lia).
    unfold fmap in IH. by rewrite IH. }
  apply (H O).
Qed.

Lemma lookup_indexed_terms h terms i r :
  ((h, i), r) ∈ indexed_terms h terms ↔ (i, r) ∈ numbered terms.
Proof.
  unfold indexed_terms, numbered. rewrite !list_elem_of_lookup.
  setoid_rewrite list_lookup_imap_Some. naive_solver.
Qed.

Lemma indexed_terms_keys h terms k :
  k ∈ (indexed_terms h terms).*1 → k.1 = h.
Proof.
  rewrite list_elem_of_fmap. intros ([[h' i] r] & -> & Hin). unfold indexed_terms in Hin.
  apply list_elem_of_lookup in Hin as (n & Hn). apply list_lookup_imap_Some in Hn. naive_solver.
Qed.

Lemma indexed_terms_nodup h terms : NoDup (indexed_terms h terms).*1.
Proof.
  unfold indexed_terms. rewrite fmap_imap. apply NoDup_alt. intros i j x Hi Hj.
  apply list_lookup_imap_Some in Hi as (ti & _ & Hi), Hj as (tj & _ & Hj). simpl in *.
  subst x. injection Hj. lia.
Qed.

(** The effect of one registration on every file's list. *)
Lemma write_file_terms now repo d h terms k l :
  has_terms d k l →
  has_terms (write_file_db now repo d (h, terms)) k
    (if decide (k = h ∧ l = []) then terms else l).
Proof.
  intros Hl. unfold write_file_db. cbn [fst snd].
  destruct (rows_of (t_terms d) h) as [|p rows] eqn:Hr.
  - intros i r. cbn [t_terms set_terms]. destruct (decide (k = h)) as [->|Hne].
    + assert (l = []) as -> by (by apply (has_terms_rows_of d h l)). rewrite decide_True by done.
      rewrite lookup_insert_ignore_all; [apply lookup_indexed_terms|apply indexed_terms_nodup|].
      destruct (t_terms d !! (h, i)) eqn:Hi; [|done]. apply Hl in Hi. set_solver.
    + rewrite decide_False by naive_solver.
      rewrite lookup_insert_ignore_all_ne; [apply Hl|]. by intros ?%indexed_terms_keys.
  - rewrite decide_False; [exact Hl|]. intros [-> ->].
    rewrite (proj2 (has_terms_rows_of d h [] Hl) eq_refl) in Hr. discriminate.
Qed.

Lemma write_files_keep now repo files d h l :
  has_terms d h l → l ≠ [] → has_terms (foldl (write_file_db now repo) d files) h l.
Proof.
  revert d. induction files as [|[k terms] files IH]; intros d Hl Hne; simpl; [done|].
  apply IH; [|done]. pose proof (write_file_terms now repo d k terms h l Hl) as H.
  by rewrite decide_False in H by naive_solver.
Qed.

Lemma write_files_first now repo files d h terms :
  has_terms d h [] → NoDup files.*1 → (h, terms) ∈ files → terms ≠ [] →
  has_terms (foldl (write_file_db now repo) d files) h terms.
Proof.
  revert d. induction files as [|[k ts] files IH]; intros d Hl Hnd Hin Hne; simpl; [set_solver|].
  apply NoDup_cons in Hnd as [Hk Hnd].
  pose proof (write_file_terms now repo d k ts h [] Hl) as H.
  apply elem_of_cons in Hin as [[= <- <-]|Hin].
  - rewrite decide_True in H by done. by apply write_files_keep.
  - apply IH; try done. rewrite decide_False in H; [done|]. intros [-> _].
    destruct Hk. apply list_elem_of_fmap. by exists (k, terms).
Qed.

Lemma numbered_inj l k : numbered l = numbered k → l = k.
Proof.
  intros H. apply list_eq. intros n. assert (Hn : numbered l !! n = numbered k !! n) by by rewrite H.
  unfold numbered in Hn. rewrite !list_lookup_imap in Hn.
  destruct (l !! n) as [[]|], (k !! n) as [[]|]; simplify_eq/=; done.
Qed.

(** The size of a file is determined by its content: every registration of a
    hash describes the same number of bytes. *)
Section lookup.
#[local] Set Default Proof Using "Type*".
Variable decode_error : string → str.
Variable choose : ∀ A : Type, list A → option A.
Hypothesis choose_spec : ∀ A (l : list A),
  match choose _ l with Some x => x ∈ l | None => l = [] end.
Variable size : FileHash → Z.

Definition sized (p : FileHash * list FileTerm) : Prop :=
  Forall wf_term p.2 ∧ terms_total p.2 = size p.1 ∧ size p.1 < 2 ^ 63.

Definition files_inv (d : db) : Prop :=
  (∀ h, ∃ l, has_terms d h l ∧ (l = [] ∨ sized (h, l))) ∧
  ∀ h repo f, t_files d !! (h, repo) = Some f → fl_total_bytes f = size h.

Lemma terms_total_range l : is_u64 (terms_total l).
Proof. apply as_u64_range. Qed.

Lemma write_file_inv now repo d p :
  sized p → files_inv d → files_inv (write_file_db now repo d p).
Proof.
  intros Hp [Hterms Hfiles]. destruct p as [h terms]. split.
  - intros k. destruct (Hterms k) as (l & Hl & Hs).
    exists (if decide (k = h ∧ l = []) then terms else l). split; [by apply write_file_terms|].
    case_decide as Hc; [|done]. destruct Hc as [-> _]. by right.
  - intros k r f. assert (Heq : t_files (write_file_db now repo d (h, terms))
      = <[(h, repo_id repo) := file_row now repo terms]> (t_files d)).
    { unfold write_file_db. by destruct (rows_of _ _). }
    rewrite Heq. intros [[[= <- <-] <-]|[_ Hf]]%lookup_insert_Some; [|by eapply Hfiles].
    destruct Hp as (_ & Ht & Hlt). simpl in *. rewrite <-Ht. rewrite as_i64_id; [done|].
    pose proof (terms_total_range terms) as [? _]. lia.
Qed.

Lemma write_files_inv now repo files d :
  Forall sized files → files_inv d → files_inv (foldl (write_file_db now repo) d files).
Proof.
  intros Hf. revert d. induction Hf as [|p files Hp _ IH]; intros d Hd; simpl; [done|].
  by apply IH, write_file_inv.
Qed.

(** A history of registrations, any statement of which may have failed. *)
Definition registration := (RepoRef * list (FileHash * list FileTerm))%type.
Definition run_registrations (s : store) (hist : list registration) : store :=
  foldl (λ s r, (sq_register_files choose r.1 r.2 s).2) s hist.

Lemma register_files_cases repo files s :
  let d' := database (sq_register_files choose repo files s).2 in
  d' = foldl (write_file_db (now_unix (clock s)) repo) (database s) files ∨ d' = database s.
Proof.
  pose proof (register_files_wps choose choose_spec repo files s) as H. unfold wps in H.
  destruct (sq_register_files choose repo files s) as [[?|?| |] ?]; simpl; auto. done. done.
Qed.

Lemma run_registrations_inv hist s h l :
  Forall (λ r, Forall sized r.2) hist → files_inv (database s) → has_terms (database s) h l → l ≠ [] →
  files_inv (database (run_registrations s hist)) ∧ has_terms (database (run_registrations s hist)) h l.
Proof.
  intros Hh. revert s. induction Hh as [|[repo files] hist Hf _ IH]; intros s Hinv Hl Hne; [done|].
  cbn [run_registrations foldl]. apply IH; [| |done];
    destruct (register_files_cases repo files s) as [Hd|Hd]; simpl in Hd |- *; rewrite Hd; try done.
  - by apply write_files_inv.
  - by apply write_files_keep.
Qed.

(** A lookup that meets no fault answers the registered list. *)
Lemma lookup_file_registered s h l :
  faults s = [] → files_inv (database s) → has_terms (database s) h l →
  sq_lookup_file decode_error choose h s = (Ok (match l with [] => None | _ => Some l end), s).
Proof.
  intros Hft [Hterms Hfiles] Hl. destruct s as [d ck ft]. simpl in *. subst ft.
  unfold sq_lookup_file, query, stmt, pop_fault, set_database, mbind, ST_bind.
  cbn [faults head default database clock tail map_err]. rewrite (has_terms_rows d h l Hl).
  destruct l as [|t l]; [done|].
  destruct (Hterms h) as (l' & Hl' & Hs).
  assert (l' = t :: l) as -> by (apply numbered_inj; by eapply has_terms_inj).
  destruct Hs as [Hs|(Hwf & Hsum & Hlt)]; [done|]. simpl in Hwf, Hsum, Hlt.
  pose proof (decode_numbered decode_error (t :: l) Hwf) as Hdec.
  destruct (term_columns <$> numbered (t :: l)) as [|r rows] eqn:Hrows; [done|].
  unfold lift. rewrite Hdec. cbn [faults head default database clock tail map_err].
  pose proof (choose_spec _ (omap (λ p : FileHash * str * file_rec,
    if decide (p.1.1 = h) then Some (fl_total_bytes p.2) else None) (map_to_list (t_files d)))) as Hc.
  unfold recorded_size. destruct (choose _ _) as [z|]; [|done].
  apply list_elem_of_omap in Hc as ([[h' repo] f] & Hin & Hz). simpl in Hz. case_decide; simplify_eq.
  apply elem_of_map_to_list in Hin. rewrite (Hfiles _ _ _ Hin).
  pose proof (terms_total_range (t :: l)) as Hr. unfold is_u64 in Hr. rewrite Hsum in Hr.
  unfold nonneg_i64_to_u64. rewrite (proj2 (Z.ltb_ge _ _)) by lia. cbv beta iota.
  by rewrite Hsum, Z.eqb_refl.
Qed.

(** C28. Term lists are written once and read back exactly: when the first
    registration of a file commits, then after any later registrations (by
    other repositories, with other segmentations of the same content, failing
    or not) a lookup answers the very list that was registered first. *)
Theorem register_then_lookup s repo files s1 hist h terms :
  files_inv (database s) → has_terms (database s) h [] →
  sq_register_files choose repo files s = (Ok tt, s1) →
  Forall sized files → NoDup files.*1 → (h, terms) ∈ files → terms ≠ [] →
  Forall (λ r, Forall sized r.2) hist →
  let s2 := run_registrations s1 hist in
  faults s2 = [] → sq_lookup_file decode_error choose h s2 = (Ok (Some terms), s2).
Proof.
  intros Hinv Hnone Hreg Hf Hnd Hin Hne Hh s2 Hft.
  pose proof (register_files_wps choose choose_spec repo files s) as Hw. unfold wps in Hw.
  rewrite Hreg in Hw.
  assert (Hinv1 : files_inv (database s1)) by (rewrite Hw; by apply write_files_inv).
  assert (Hl1 : has_terms (database s1) h terms) by (rewrite Hw; by apply write_files_first).
  destruct (run_registrations_inv hist s1 h terms Hh Hinv1 Hl1 Hne) as [Hinv2 Hl2].
  rewrite (lookup_file_registered s2 h terms Hft Hinv2 Hl2). by destruct terms.
Qed.
End lookup.

(** ** Runs without faults *)

(** A computation that answers when no fault is pending, and leaves none. *)
Definition quiet {A} (m : M A) : Prop :=
  ∀ s, faults s = [] → ∃ a s', m s = (Ok a, s') ∧ faults s' = [].

Lemma quiet_ret {A} (a : A) : quiet (mret a).
Proof. intros s Hs. by exists a, s. Qed.
Lemma quiet_bind {A B} (m : M A) (k : A → M B) : quiet m → (∀ a, quiet (k a)) → quiet (m ≫= k).
Proof.
  intros Hm Hk s Hs. destruct (Hm s Hs) as (a & s1 & Ha & Hs1), (Hk a s1 Hs1) as (b & s2 & Hb & Hs2).
  exists b, s2. by rewrite (ST_bind_step _ _ _ _ _ Ha).
Qed.
Lemma quiet_gets {A} (f : store → A) : quiet (gets f).
Proof. intros s Hs. by exists (f s), s. Qed.
Lemma quiet_exec msg f : quiet (exec msg f).
Proof.
  intros s Hs. unfold exec, stmt. rewrite Hs. simpl. do 2 eexists. split; [done|]. simpl. by rewrite Hs.
Qed.
Lemma quiet_query {A} msg (f : db → A) : quiet (query msg (λ d, Ok (f d))).
Proof.
  intros s Hs. unfold query, stmt. rewrite Hs. simpl. do 2 eexists. split; [done|]. simpl. by rewrite Hs.
Qed.
Lemma quiet_for_each {A} (f : A → M unit) l : (∀ x, quiet (f x)) → quiet (for_each f l).
Proof. intros Hf. induction l as [|x l IH]; simpl; [apply quiet_ret|]. by apply quiet_bind. Qed.
Lemma quiet_in_tx {A} b c (m : M A) : quiet m → quiet (in_tx b c m).
Proof.
  intros Hm s Hs. destruct (Hm s Hs) as (a & s' & Ha & Hs'). exists a, s'.
  split; [by apply in_tx_no_fault|done].
Qed.

Create HintDb quiet discriminated.
#[export] Hint Resolve quiet_ret quiet_bind quiet_gets quiet_exec quiet_query quiet_for_each
  quiet_in_tx : quiet.

Lemma quiet_register_files choose repo files : quiet (sq_register_files choose repo files).
Proof.
  unfold sq_register_files. destruct files; [apply quiet_ret|]. apply quiet_in_tx, quiet_for_each.
  intros q. unfold write_file_in_tx. repeat (apply quiet_bind; [auto with quiet|intros]).
  case_match; auto with quiet.
Qed.

(** A query that meets no fault answers from the tables. *)
Lemma query_no_fault {A} msg (f : db → outcome str A) s :
  faults s = [] → query msg f s = (map_err (λ e, Internal (lit msg ++ e)) (f (database s)), s).
Proof.
  intros Hs. destruct s as [d ck ft]. simpl in *. subst ft.
  unfold query, stmt, set_database, pop_fault. simpl. by destruct (f d).
Qed.

Lemma aggregate_no_fault msg label f s n :
  faults s = [] → 0 ≤ sumZ (f (database s)) →
  aggregate msg label f s = (Ok n, s) ↔ n = sumZ (f (database s)) ∧ n < 2 ^ 63.
Proof.
  intros Hs Hnn. unfold aggregate, mbind, ST_bind. rewrite query_no_fault by done. unfold sum_i64.
  rewrite (proj2 (Z.leb_le _ _)) by lia. cbn [andb].
  destruct (Z.ltb_spec (sumZ (f (database s))) (2 ^ 63)); cbn [map_err].
  - unfold lift, nonneg_i64_to_u64. rewrite (proj2 (Z.ltb_ge _ _)) by lia.
    split; [intros [= <-]; done|]. by intros [-> _].
  - split; [done|]. lia.
Qed.

