(* ===== verification/Accounting.v ===== *)
(** * What the metadata store's queries add up to

    The accounting queries of the SQLite store agree with each other and with
    the registrations (quota projection, exclusive bytes), the batched frame
    query agrees with the single one, and the stored layouts and quotas read
    back. *)

From S2P Require Import Prelude RustStd Core MetaCommon Db Sqlite.

(** ** Accounting *)

Lemma elem_of_referenced d P x :
  x ∈ referenced d P ↔ ∃ h i t, t_terms d !! (h, i) = Some t ∧ tr_xorb t = x ∧
    ∃ repo f, t_files d !! (h, repo) = Some f ∧ P repo f = true.
Proof.
  unfold referenced. rewrite elem_of_list_to_set, list_elem_of_omap. split.
  - intros ([[h i] t] & Hin & Hp). simpl in Hp. destruct (file_matches d P h) eqn:Hm; [|done].
    apply elem_of_map_to_list in Hin. exists h, i, t. simplify_eq. split_and!; [done|done|].
    unfold file_matches in Hm. apply existsb_exists in Hm as ([[h' repo] f] & Hf & Hb).
    apply andb_prop in Hb as [Hh HP]. apply bool_decide_eq_true in Hh. simpl in Hh, HP. subst h'.
    apply list_elem_of_In, elem_of_map_to_list in Hf. eauto.
  - intros (h & i & t & Ht & <- & repo & f & Hf & HP). exists ((h, i), t).
    split; [by apply elem_of_map_to_list|]. simpl.
    assert (Hm : file_matches d P h = true); [|by rewrite Hm].
    unfold file_matches. apply existsb_exists. exists ((h, repo), f).
    split; [by apply list_elem_of_In, elem_of_map_to_list|]. simpl.
    rewrite HP, bool_decide_true by done. done.
Qed.

Definition on_disk (d : db) (P : XorbHash → bool) : Z := sumZ (on_disk_where d P).

Lemma on_disk_ext d P Q : (∀ x, P x = Q x) → on_disk d P = on_disk d Q.
Proof.
  intros HPQ. unfold on_disk, on_disk_where. f_equal. apply list_omap_ext, Forall_Forall2_diag, Forall_true.
  intros p. by rewrite HPQ.
Qed.

Lemma on_disk_split d P Q R :
  (∀ x, P x = Q x || R x) → (∀ x, Q x = true → R x = false) →
  on_disk d P = on_disk d Q + on_disk d R.
Proof.
  intros HP Hd. unfold on_disk, on_disk_where. induction (map_to_list (t_xorbs d)) as [|p l IH]; [done|].
  cbn [omap list_omap]. rewrite HP. specialize (Hd p.1). unfold omap in *.
  destruct (Q p.1), (R p.1); cbn [orb]; try (specialize (Hd eq_refl); discriminate);
    rewrite ?sumZ_cons; lia.
Qed.

Definition sizes_nonneg (d : db) : Prop :=
  ∀ x r, t_xorbs d !! x = Some r → 0 ≤ xr_num_bytes_on_disk r.

Lemma on_disk_nonneg d P : sizes_nonneg d → 0 ≤ on_disk d P.
Proof.
  intros Hn. apply sumZ_nonneg, Forall_forall. unfold on_disk_where. intros z Hz.
  apply list_elem_of_omap in Hz as ([x r] & Hin & Hp). apply elem_of_map_to_list in Hin.
  simpl in Hp. destruct (P x); simplify_eq. by eapply Hn.
Qed.

Lemma on_disk_xorbs d d' P : t_xorbs d' = t_xorbs d → on_disk d' P = on_disk d P.
Proof. intros H. unfold on_disk, on_disk_where. by rewrite H. Qed.

Lemma write_files_xorbs now repo files d :
  t_xorbs (foldl (write_file_db now repo) d files) = t_xorbs d.
Proof.
  revert d. induction files as [|p files IH]; intros d; simpl; [done|]. rewrite IH.
  unfold write_file_db. by destruct (rows_of _ _).
Qed.

(** The xorbs that a batch of files names. *)
Definition batch_xorbs (files : list (FileHash * list FileTerm)) : list XorbHash :=
  files ≫= λ p, ft_xorb <$> p.2.

Lemma write_file_tables now repo d h terms :
  has_terms d h [] →
  write_file_db now repo d (h, terms) =
  mkDb (t_xorbs d) (t_chunks d) (t_frames d)
    (<[(h, repo_id repo) := file_row now repo terms]> (t_files d)) (t_quotas d)
    (insert_ignore_all (indexed_terms h terms) (t_terms d)).
Proof.
  intros Hl. unfold write_file_db. cbn [fst snd].
  by rewrite (proj2 (has_terms_rows_of d h [] Hl) eq_refl).
Qed.

(** A new file makes its owner reference its xorbs, and no others. *)
Lemma referenced_write_file now repo d h terms x :
  has_terms d h [] →
  x ∈ referenced (write_file_db now repo d (h, terms)) (owned_by (owner repo)) ↔
  x ∈ referenced d (owned_by (owner repo)) ∨ x ∈ ft_xorb <$> terms.
Proof.
  intros Hl. rewrite write_file_tables by done. rewrite !elem_of_referenced. cbn [t_terms t_files].
  assert (Hnone : ∀ i, t_terms d !! (h, i) = None).
  { intros i. destruct (t_terms d !! (h, i)) eqn:Hi; [|done]. apply Hl in Hi. set_solver. }
  split.
  - intros (k & i & t & Ht & <- & r & f & Hf & HP). destruct (decide (k = h)) as [->|Hne].
    + right. apply lookup_insert_ignore_all in Ht; [|apply indexed_terms_nodup|done].
      apply lookup_indexed_terms, elem_of_numbered in Ht as (n & t' & Hn & _ & ->).
      apply list_elem_of_fmap. exists t'. split; [done|]. by eapply list_elem_of_lookup_2.
    + left. rewrite lookup_insert_ignore_all_ne in Ht by (by intros ?%indexed_terms_keys).
      rewrite lookup_insert_ne in Hf by congruence. eauto 10.
  - intros [(k & i & t & Ht & <- & r & f & Hf & HP)|Hin].
    + assert (k ≠ h) by (intros ->; by rewrite Hnone in Ht).
      exists k, i, t. split_and!; [by apply lookup_insert_ignore_all_old|done|].
      exists r, f. rewrite lookup_insert_ne by congruence. done.
    + apply list_elem_of_fmap in Hin as (t & -> & Hin). apply list_elem_of_lookup in Hin as (n & Hn).
      exists h, (Z.of_nat n), (term_row t). split_and!; [|done|].
      * apply lookup_insert_ignore_all; [apply indexed_terms_nodup|done|].
        apply lookup_indexed_terms, elem_of_numbered. eauto.
      * exists (repo_id repo), (file_row now repo terms). rewrite lookup_insert_eq.
        split; [done|]. unfold owned_by. by rewrite bool_decide_true.
Qed.

Lemma referenced_write_files now repo files d x :
  NoDup files.*1 → Forall (λ p, has_terms d p.1 []) files →
  x ∈ referenced (foldl (write_file_db now repo) d files) (owned_by (owner repo)) ↔
  x ∈ referenced d (owned_by (owner repo)) ∨ x ∈ batch_xorbs files.
Proof.
  revert d. induction files as [|[h terms] files IH]; intros d Hnd Hf; simpl; [set_solver|].
  apply NoDup_cons in Hnd as [Hh Hnd]. inversion Hf as [|?? Hp Hf']; subst. simpl in Hp.
  rewrite IH; [|done|].
  - rewrite referenced_write_file by done. unfold batch_xorbs. simpl. rewrite elem_of_app. tauto.
  - rewrite Forall_forall in Hf' |- *. intros [k ts] Hin. simpl.
    pose proof (write_file_terms now repo d h terms k [] (Hf' _ Hin)) as Hk.
    rewrite decide_False in Hk; [done|]. intros [-> _]. destruct Hh.
    apply list_elem_of_fmap. by exists (h, ts).
Qed.

Lemma aggregate_on_disk msg label (P : db → XorbHash → bool) s n :
  faults s = [] → sizes_nonneg (database s) →
  aggregate msg label (λ d, on_disk_where d (P d)) s = (Ok n, s) ↔
  n = on_disk (database s) (P (database s)) ∧ n < 2 ^ 63.
Proof. intros. apply aggregate_no_fault; [done|]. by apply on_disk_nonneg. Qed.

Lemma stored_as_on_disk s o n :
  faults s = [] → sizes_nonneg (database s) →
  sq_stored_bytes_for_owner o s = (Ok n, s) ↔
  n = on_disk (database s) (λ x, bool_decide (x ∈ referenced (database s) (owned_by o))) ∧ n < 2 ^ 63.
Proof. intros. apply aggregate_no_fault; [done|]. by apply on_disk_nonneg. Qed.

Lemma unaccounted_as_on_disk s o cands n :
  faults s = [] → sizes_nonneg (database s) →
  sq_unaccounted_xorb_bytes_for_owner o cands s = (Ok n, s) ↔
  n = on_disk (database s) (λ x, bool_decide (x ∈ cands) &&
        negb (bool_decide (x ∈ referenced (database s) (owned_by o)))) ∧ n < 2 ^ 63.
Proof.
  intros Hft Hnn.
  assert (Hu : on_disk (database s) (λ x, bool_decide (x ∈ dedup_sorted_xorbs cands) &&
      negb (bool_decide (x ∈ referenced (database s) (owned_by o))))
    = on_disk (database s) (λ x, bool_decide (x ∈ cands) &&
        negb (bool_decide (x ∈ referenced (database s) (owned_by o))))).
  { apply on_disk_ext. intros x. f_equal. apply bool_decide_ext, dedup_sorted_xorbs_elem. }
  unfold sq_unaccounted_xorb_bytes_for_owner. destruct cands as [|c cands].
  - assert (Hz : on_disk (database s) (λ x, bool_decide (x ∈ @nil XorbHash) &&
        negb (bool_decide (x ∈ referenced (database s) (owned_by o)))) = 0).
    { unfold on_disk, on_disk_where. clear. induction (map_to_list _) as [|p l IH]; [done|].
      unfold omap in *. cbn [list_omap]. by rewrite bool_decide_false by set_solver. }
    rewrite Hz. unfold mret, ST_ret. split; [intros [= <-]; lia|]. by intros [-> _].
  - rewrite <-Hu. apply aggregate_no_fault; [done|]. by apply on_disk_nonneg.
Qed.

(** C39. The quota check sees the future: for a shard of new files, the bytes
    the owner stores now plus the bytes of the shard's xorbs that the owner does
    not account for yet are exactly the bytes stored after the registration,
    which succeeds. *)
Theorem quota_projection_exact choose s repo files a b :
  (∀ A (l : list A), match choose A l with Some x => x ∈ l | None => l = [] end) →
  faults s = [] → sizes_nonneg (database s) →
  NoDup files.*1 → Forall (λ p, has_terms (database s) p.1 []) files →
  sq_stored_bytes_for_owner (owner repo) s = (Ok a, s) →
  sq_unaccounted_xorb_bytes_for_owner (owner repo) (batch_xorbs files) s = (Ok b, s) →
  a + b < 2 ^ 63 →
  ∃ s', sq_register_files choose repo files s = (Ok tt, s') ∧
        sq_stored_bytes_for_owner (owner repo) s' = (Ok (a + b), s').
Proof.
  intros Hch Hft Hnn Hnd Hfresh Ha Hb Hab.
  apply stored_as_on_disk in Ha as [Ha _]; [|done..].
  apply unaccounted_as_on_disk in Hb as [Hb _]; [|done..].
  destruct (quiet_register_files choose repo files s Hft) as ([] & s' & Hreg & Hft'). exists s'.
  split; [done|].
  pose proof (register_files_wps choose Hch repo files s) as Hw. unfold wps in Hw. rewrite Hreg in Hw.
  assert (Hx : t_xorbs (database s') = t_xorbs (database s)) by by rewrite Hw, write_files_xorbs.
  apply stored_as_on_disk; [done| |].
  { intros x r. rewrite Hx. apply Hnn. }
  split; [|done]. rewrite (on_disk_xorbs _ _ _ Hx), Ha, Hb. symmetry. apply on_disk_split.
  - intros x. rewrite Hw. apply eq_true_iff_eq.
    rewrite orb_true_iff, andb_true_iff, negb_true_iff, !bool_decide_eq_true, bool_decide_eq_false.
    rewrite referenced_write_files by done.
    destruct (decide (x ∈ referenced (database s) (owned_by (owner repo)))); tauto.
  - intros x ->. by rewrite andb_false_r.
Qed.

(** ** Deleting a repository *)

(** The tables after the file rows of a repository are deleted. *)
Definition without_repo (repo : str) (d : db) : db :=
  set_files (filter (λ p, p.1.2 ≠ repo) (t_files d)) d.

(** Every file row's owner is the namespace of its repository. *)
Definition owners_ok (d : db) : Prop :=
  ∀ h repo f, t_files d !! (h, repo) = Some f → fl_owner f = owner_of_id repo.

Lemma write_files_owners now repo files d :
  owners_ok d → owners_ok (foldl (write_file_db now repo) d files).
Proof.
  revert d. induction files as [|[h terms] files IH]; intros d Hd; simpl; [done|]. apply IH.
  intros k r f. unfold write_file_db. cbn [fst snd].
  assert (Heq : t_files (match rows_of (t_terms d) h with
    | [] => set_terms (insert_ignore_all (indexed_terms h terms) (t_terms d))
              (set_files (<[(h, repo_id repo) := file_row now repo terms]> (t_files d)) d)
    | _ => set_files (<[(h, repo_id repo) := file_row now repo terms]> (t_files d)) d
    end) = <[(h, repo_id repo) := file_row now repo terms]> (t_files d)) by (by case_match).
  rewrite Heq. intros [[[= <- <-] <-]|[_ Hf]]%lookup_insert_Some; [done|by eapply Hd].
Qed.

Lemma register_files_owners choose repo files s :
  (∀ A (l : list A), match choose A l with Some x => x ∈ l | None => l = [] end) →
  owners_ok (database s) → owners_ok (database (sq_register_files choose repo files s).2).
Proof.
  intros Hch Ho. destruct (register_files_cases choose Hch repo files s) as [Hd|Hd]; simpl in Hd; rewrite Hd;
    [by apply write_files_owners|done].
Qed.

Lemma referenced_owner_split d repo x :
  owners_ok d → x ∈ referenced d (owned_by (owner_of_id repo)) ↔
  x ∈ referenced d (in_repo repo) ∨ x ∈ referenced d (sibling_of repo (owner_of_id repo)).
Proof.
  intros Ho. rewrite !elem_of_referenced. unfold owned_by, in_repo, sibling_of. split.
  - intros (h & i & t & Ht & Hx & r & f & Hf & HP%bool_decide_eq_true).
    destruct (decide (r = repo)) as [->|Hne].
    + left. exists h, i, t. split_and!; [done..|]. exists repo, f. by rewrite bool_decide_true.
    + right. exists h, i, t. split_and!; [done..|]. exists r, f.
      by rewrite (bool_decide_true (fl_owner f = _)), bool_decide_false.
  - intros [(h & i & t & Ht & Hx & r & f & Hf & HP)|(h & i & t & Ht & Hx & r & f & Hf & HP)].
    + apply bool_decide_eq_true in HP as ->. exists h, i, t. split_and!; [done..|].
      exists repo, f. rewrite bool_decide_true; [done|]. by eapply Ho.
    + apply andb_prop in HP as [HP _]. exists h, i, t. split_and!; [done..|]. by exists r, f.
Qed.

Lemma referenced_without_repo d repo x :
  x ∈ referenced (without_repo repo d) (owned_by (owner_of_id repo)) ↔
  x ∈ referenced d (sibling_of repo (owner_of_id repo)).
Proof.
  rewrite !elem_of_referenced. unfold owned_by, sibling_of, without_repo. cbn [t_terms t_files set_files].
  split.
  - intros (h & i & t & Ht & Hx & r & f & [Hf Hr]%map_lookup_filter_Some & HP).
    exists h, i, t. split_and!; [done..|]. exists r, f. split; [done|].
    by rewrite HP, bool_decide_false.
  - intros (h & i & t & Ht & Hx & r & f & Hf & [HP Hr]%andb_prop).
    apply negb_true_iff, bool_decide_eq_false in Hr.
    exists h, i, t. split_and!; [done..|]. exists r, f. by rewrite map_lookup_filter_Some.
Qed.

(** "Exclusive bytes" are what deleting the repository would free: the
    owner's stored bytes equal the repository's exclusive bytes plus the bytes
    the owner would store if the repository's files were gone; and they never
    exceed the repository's stored bytes. *)
Theorem exclusive_is_what_deletion_frees s repo excl stored own :
  faults s = [] → sizes_nonneg (database s) → owners_ok (database s) →
  sq_exclusive_stored_bytes_for_repo repo s = (Ok excl, s) →
  sq_stored_bytes_for_repo repo s = (Ok stored, s) →
  sq_stored_bytes_for_owner (owner_of_id repo) s = (Ok own, s) →
  let s' := set_database (without_repo repo (database s)) s in
  sq_stored_bytes_for_owner (owner_of_id repo) s' = (Ok (own - excl), s') ∧ 0 ≤ excl ≤ stored.
Proof.
  intros Hft Hnn Ho He Hs Hown. cbv zeta.
  unfold sq_exclusive_stored_bytes_for_repo, sq_stored_bytes_for_repo in *.
  apply aggregate_no_fault in He as [He _]; [|done|by apply on_disk_nonneg].
  apply aggregate_no_fault in Hs as [Hs _]; [|done|by apply on_disk_nonneg].
  apply stored_as_on_disk in Hown as [Hown Hlt]; [|done..].
  set (R := referenced (database s) (in_repo repo)) in *.
  set (S := referenced (database s) (sibling_of repo (owner_of_id repo))) in *.
  assert (Hsplit : own = excl + on_disk (database s) (λ x, bool_decide (x ∈ S))).
  { rewrite Hown, He. apply on_disk_split.
    - intros x. apply eq_true_iff_eq.
      rewrite orb_true_iff, andb_true_iff, negb_true_iff, !bool_decide_eq_true, bool_decide_eq_false.
      rewrite referenced_owner_split by done. fold R S. destruct (decide (x ∈ S)); tauto.
    - intros x. rewrite andb_true_iff, negb_true_iff. by intros [_ ?]. }
  assert (Hstored : stored = excl + on_disk (database s) (λ x, bool_decide (x ∈ R) && bool_decide (x ∈ S))).
  { rewrite Hs, He. apply on_disk_split.
    - intros x. by destruct (bool_decide (x ∈ R)), (bool_decide (x ∈ S)).
    - intros x. by destruct (bool_decide (x ∈ R)), (bool_decide (x ∈ S)). }
  pose proof (on_disk_nonneg (database s) (λ x, bool_decide (x ∈ R) && bool_decide (x ∈ S)) Hnn).
  pose proof (on_disk_nonneg (database s) (λ x, bool_decide (x ∈ R) && negb (bool_decide (x ∈ S))) Hnn) as H0.
  unfold on_disk in H0. rewrite <-He in H0.
  split; [|lia]. apply stored_as_on_disk; [done|done|]. cbn [database set_database]. split; [|lia].
  replace (own - excl) with (on_disk (database s) (λ x, bool_decide (x ∈ S))) by lia.
  rewrite (on_disk_xorbs (database s) (without_repo repo (database s))) by done. apply on_disk_ext. intros x.
  apply bool_decide_ext. symmetry. apply referenced_without_repo.
Qed.

(** ** Frame layouts *)

Lemma bytes_leb_refl a : bytes_leb a a = true.
Proof. induction a as [|x a IH]; simpl; [done|]. by rewrite Z.ltb_irrefl. Qed.

Lemma bytes_leb_total a b : bytes_leb a b = true ∨ bytes_leb b a = true.
Proof.
  revert b. induction a as [|x a IH]; intros [|y b]; simpl; auto.
  destruct (Z.ltb_spec (byte_to_Z x) (byte_to_Z y)), (Z.ltb_spec (byte_to_Z y) (byte_to_Z x)); auto.
Qed.

Lemma bytes_leb_antisym a b : bytes_leb a b = true → bytes_leb b a = true → a = b.
Proof.
  revert b. induction a as [|x a IH]; intros [|y b]; simpl; try done.
  destruct (Z.ltb_spec (byte_to_Z x) (byte_to_Z y)), (Z.ltb_spec (byte_to_Z y) (byte_to_Z x));
    try done; try lia. intros. f_equal; [apply byte_to_Z_inj; lia|auto].
Qed.

Lemma bytes_leb_trans a b c : bytes_leb a b = true → bytes_leb b c = true → bytes_leb a c = true.
Proof.
  revert b c. induction a as [|x a IH]; intros [|y b] [|z c]; simpl; try done.
  destruct (Z.ltb_spec (byte_to_Z x) (byte_to_Z y)), (Z.ltb_spec (byte_to_Z y) (byte_to_Z x)),
    (Z.ltb_spec (byte_to_Z y) (byte_to_Z z)), (Z.ltb_spec (byte_to_Z z) (byte_to_Z y)),
    (Z.ltb_spec (byte_to_Z x) (byte_to_Z z)), (Z.ltb_spec (byte_to_Z z) (byte_to_Z x));
    try done; try lia. apply IH.
Qed.

#[global] Instance xorb_le_total : Total xorb_le.
Proof. intros a b. apply bytes_leb_total. Qed.
#[global] Instance xorb_le_trans : Transitive xorb_le.
Proof. intros a b c. apply bytes_leb_trans. Qed.

Lemma unwrap_bytes_inj {k} (a b : hash_newtype k) : as_bytes (unwrap a) = as_bytes (unwrap b) → a = b.
Proof. intros H%as_bytes_inj. destruct a, b. simpl in *. by subst. Qed.

Lemma dedup_from_nodup x l :
  StronglySorted xorb_le (x :: l) → (x ∉ dedup_from x l) ∧ NoDup (dedup_from x l).
Proof.
  revert x. induction l as [|y l IH]; intros x Hs; simpl; [split; [set_solver|constructor]|].
  apply StronglySorted_inv in Hs as [Hs Hx]. rewrite Forall_cons in Hx. destruct Hx as [Hxy Hx].
  case_bool_decide as Heq.
  - apply IH. constructor; [by apply StronglySorted_inv in Hs as [? _]|done].
  - destruct (IH y Hs) as [Hy Hnd]. split; [|by constructor].
    rewrite not_elem_of_cons. split; [congruence|]. intros Hin.
    assert (Hin' : x ∈ y :: l) by (apply dedup_from_elem; set_solver).
    apply elem_of_cons in Hin' as [->|Hin']; [done|].
    apply StronglySorted_inv in Hs as [_ Hyl]. rewrite Forall_forall in Hyl.
    apply Heq. apply Hyl in Hin'. by apply bytes_leb_antisym.
Qed.

(** The [IN] list has no duplicates. *)
Lemma dedup_sorted_xorbs_nodup l : NoDup (dedup_sorted_xorbs l).
Proof.
  unfold dedup_sorted_xorbs. pose proof (StronglySorted_merge_sort xorb_le l) as Hs.
  destruct (merge_sort xorb_le l) as [|x k]; simpl; [constructor|].
  apply dedup_from_nodup in Hs as [? ?]. by constructor.
Qed.

(** The frames of a xorb as the store reads them. *)
Definition frame_of (p : Z * frame_rec) : XorbFrameRow :=
  mkXorbFrameRow (as_u32 p.1) (as_u32 (fr_on_disk_start p.2)) (as_u32 (fr_on_disk_len p.2))
    (as_u32 (fr_uncompressed_len p.2)).
Definition frames_at (d : db) (x : XorbHash) : list XorbFrameRow :=
  frame_of <$> ordered_rows (t_frames d) x.

Lemma row_to_frame_columns de p : row_to_frame de (frame_columns p) = Ok (frame_of p).
Proof. done. Qed.

Lemma xorb_frame_layout_no_fault de x s :
  faults s = [] → sq_xorb_frame_layout de x s = (Ok (frames_at (database s) x), s).
Proof.
  intros Hs. unfold sq_xorb_frame_layout, mbind, ST_bind. rewrite query_no_fault by done. simpl.
  unfold lift. by rewrite (decode_all_fmap _ frame_columns frame_of).
Qed.

Lemma group_frames_app de rows1 rows2 out :
  group_frames de (rows1 ++ rows2) out = group_frames de rows1 out ≫= group_frames de rows2.
Proof.
  revert out. induction rows1 as [|[x r] rows1 IH]; intros out; [done|]. cbn [app group_frames].
  rewrite blob_to_hash_to_blob. cbn [mbind outcome_bind].
  destruct (row_to_frame de r); cbn [mbind outcome_bind]; auto.
Qed.

(** The rows of one xorb extend its entry. *)
Lemma group_frames_one de x ps out :
  group_frames de ((λ p, (x, frame_columns p)) <$> ps) out
  = Ok (match ps with [] => out | _ => <[x := default [] (out !! x) ++ (frame_of <$> ps)]> out end).
Proof.
  revert out. induction ps as [|p ps IH]; intros out; [done|].
  rewrite fmap_cons. cbn [group_frames]. rewrite blob_to_hash_to_blob.
  cbn [mbind outcome_bind]. rewrite row_to_frame_columns. cbn [mbind outcome_bind].
  destruct x as [x]. cbn [unwrap] in *. rewrite IH. f_equal. destruct ps as [|q ps]; [done|].
  rewrite lookup_insert_eq, insert_insert_eq. simpl. by rewrite <-app_assoc.
Qed.

(** The map with the non-empty layouts of the given xorbs. *)
Lemma group_frames_spec de d uniq out :
  NoDup uniq → (∀ x, x ∈ uniq → out !! x = None) →
  ∃ m, group_frames de (uniq ≫= λ x, (λ p, (x, frame_columns p)) <$> ordered_rows (t_frames d) x) out
       = Ok m ∧
    ∀ x, m !! x = if decide (x ∈ uniq) then match frames_at d x with [] => None | l => Some l end
                  else out !! x.
Proof.
  revert out. induction uniq as [|x uniq IH]; intros out Hnd Hout.
  { exists out. split; [done|]. intros x. by rewrite decide_False by set_solver. }
  apply NoDup_cons in Hnd as [Hx Hnd].
  change (mbind ?f (x :: uniq)) with (f x ++ mbind f uniq).
  rewrite group_frames_app, group_frames_one. cbn [mbind outcome_bind].
  set (out' := match ordered_rows (t_frames d) x with [] => out | _ => _ end).
  assert (Hout' : ∀ y, out' !! y = if decide (y = x) then match frames_at d x with [] => None | l => Some l end
                                   else out !! y).
  { intros y. unfold out', frames_at. case_decide as Hy.
    - subst y. destruct (ordered_rows (t_frames d) x); [apply Hout; set_solver|].
      rewrite lookup_insert_eq, (Hout x) by set_solver. done.
    - destruct (ordered_rows (t_frames d) x); [done|]. by rewrite lookup_insert_ne. }
  destruct (IH out' Hnd) as (m & Hm & Hspec).
  { intros y Hy. rewrite Hout', decide_False by (by intros ->). apply Hout. set_solver. }
  exists m. split; [exact Hm|]. intros y. rewrite Hspec, Hout'.
  destruct (decide (y ∈ uniq)), (decide (y = x)) as [->|], (decide (_ ∈ x :: uniq)); set_solver.
Qed.

Lemma layouts_default_spec de s xorbs out :
  faults s = [] →
  ∃ m, xorb_frame_layouts_default (sq_xorb_frame_layout de) xorbs out s = (Ok m, s) ∧
    ∀ x, m !! x = if decide (x ∈ xorbs) then match frames_at (database s) x with [] => out !! x | l => Some l end
                  else out !! x.
Proof.
  intros Hs. revert out. induction xorbs as [|x xorbs IH]; intros out.
  { exists out. split; [done|]. intros x. by rewrite decide_False by set_solver. }
  cbn [xorb_frame_layouts_default]. unfold mbind, ST_bind.
  rewrite xorb_frame_layout_no_fault by done.
  set (out' := match frames_at (database s) x with [] => out | _ => _ end).
  assert (Hout' : ∀ y, out' !! y = if decide (y = x) then match frames_at (database s) x with [] => out !! y | l => Some l end
                                   else out !! y).
  { intros y. unfold out'. case_decide as Hy.
    - subst y. destruct (frames_at (database s) x); [done|]. by rewrite lookup_insert_eq.
    - destruct (frames_at (database s) x); [done|]. by rewrite lookup_insert_ne. }
  destruct (IH out') as (m & Hm & Hspec). exists m. split; [exact Hm|]. intros y. rewrite Hspec, Hout'.
  destruct (decide (y ∈ xorbs)), (decide (y = x)) as [->|], (decide (_ ∈ x :: xorbs));
    try set_solver; by destruct (frames_at (database s) _).
Qed.

(** The batched layout query (one statement over the sorted, deduplicated
    hashes, its rows grouped by xorb) answers exactly what asking for the xorbs
    one by one does, duplicates and xorbs without a layout included. *)
Theorem frame_layouts_batch_equiv de xorbs s :
  faults s = [] →
  sq_xorb_frame_layouts de xorbs s = xorb_frame_layouts_default (sq_xorb_frame_layout de) xorbs ∅ s.
Proof.
  intros Hs. destruct (layouts_default_spec de s xorbs ∅ Hs) as (m' & -> & Hm').
  unfold sq_xorb_frame_layouts. destruct xorbs as [|x xorbs].
  { unfold mret, ST_ret. do 2 f_equal. apply map_eq. intros y. rewrite Hm'.
    by rewrite decide_False by set_solver. }
  set (l := x :: xorbs) in *. unfold mbind at 1, ST_bind. rewrite query_no_fault by done.
  cbn [map_err]. unfold lift.
  destruct (group_frames_spec de (database s) (dedup_sorted_xorbs l) ∅) as (m & Hm & Hspec).
  { apply dedup_sorted_xorbs_nodup. }
  { intros y _. apply lookup_empty. }
  rewrite Hm. do 2 f_equal. apply map_eq. intros y. rewrite Hspec, Hm', lookup_empty.
  destruct (decide (y ∈ dedup_sorted_xorbs l)) as [Hy|Hy], (decide (y ∈ l)) as [Hl|Hl];
    rewrite dedup_sorted_xorbs_elem in Hy; done.
Qed.

(** The entries of a layout whose frames are numbered upwards. *)
Lemma frame_entries_keys x frames :
  StronglySorted (λ f g, xf_frame_index f < xf_frame_index g) frames →
  NoDup (frame_entry x <$> frames).*1.
Proof.
  intros Hs. rewrite <-list_fmap_compose.
  induction Hs as [|f frames _ IH Hf]; simpl; constructor; [|done].
  rewrite list_elem_of_fmap. intros (g & Heq & Hg). rewrite Forall_forall in Hf.
  apply Hf in Hg. injection Heq. lia.
Qed.

Lemma frames_at_registered x frames d :
  (∀ i, t_frames d !! (x, i) = None) → Forall wf_frame_row frames →
  StronglySorted (λ f g, xf_frame_index f < xf_frame_index g) frames →
  frames_at (set_frames (insert_ignore_all (frame_entry x <$> frames) (t_frames d)) d) x = frames.
Proof.
  intros Hnone Hwf Hs. unfold frames_at. cbn [t_frames set_frames].
  rewrite (ordered_rows_spec _ x ((λ f, ((frame_entry x f).1.2, (frame_entry x f).2)) <$> frames)).
  + rewrite <-list_fmap_compose. etrans; [|apply list_fmap_id]. apply list_fmap_ext.
    intros i f Hf. rewrite Forall_lookup in Hwf. destruct (Hwf i f Hf) as (?&?&?&?).
    destruct f. unfold frame_of. simpl in *. by rewrite !as_u32_id.
  + clear -Hs. induction Hs as [|f frames _ IH Hf]; simpl; constructor; [done|].
    rewrite Forall_fmap. done.
  + intros i r. rewrite lookup_insert_ignore_all by (by auto using frame_entries_keys).
    rewrite !list_elem_of_fmap. unfold frame_entry. simpl. naive_solver.
Qed.

Lemma frames_at_other x y frames d :
  y ≠ x → frames_at (set_frames (insert_ignore_all (frame_entry x <$> frames) (t_frames d)) d) y = frames_at d y.
Proof.
  intros Hy. unfold frames_at. cbn [t_frames set_frames]. f_equal.
  apply ordered_rows_ext. intros i. apply lookup_insert_ignore_all_ne.
  intros (e & He & (f & -> & _)%list_elem_of_fmap)%list_elem_of_fmap. simpl in He. congruence.
Qed.

Lemma register_layout_wps x frames s :
  wps (sq_register_xorb_layout x frames) s
    (λ _ s', database s' = set_frames (insert_ignore_all (frame_entry x <$> frames)
                             (t_frames (database s))) (database s))
    (λ _ s', database s' = database s).
Proof.
  unfold sq_register_xorb_layout. destruct frames as [|f frames].
  { unfold wps, mret, ST_ret. simpl. by destruct (database s). }
  apply (wps_in_tx _ _ _ _ (λ _ d, d = _)). intros s1 Hd _.
  eapply wps_mono; [apply (for_each_exec _ (λ b d, set_frames (insert_ignore_all
    (frame_entry x <$> b) (t_frames d)) d) _ _ (λ _ _, True)); done| |done].
  intros u s2 [Hd2 _]. rewrite Hd2, Hd. clear.
  rewrite <-(concat_chunks_of CHUNK_INSERT_BATCH (f :: frames)) at 2 by (unfold CHUNK_INSERT_BATCH; lia).
  generalize (chunks_of CHUNK_INSERT_BATCH (f :: frames)) as bs. generalize (database s) as d. intros d bs.
  revert d. induction bs as [|b bs IH]; intros d; simpl; [by destruct d|].
  rewrite IH. simpl. by rewrite fmap_app, insert_ignore_all_app.
Qed.

Lemma quiet_register_layout x frames : quiet (sq_register_xorb_layout x frames).
Proof.
  unfold sq_register_xorb_layout. destruct frames; auto with quiet.
Qed.

(** The layout of a xorb reads back frame for frame: registered for a xorb
    that has none, it is stored, and the query for it answers exactly the
    registered rows in frame order; the layouts of other xorbs are untouched. *)
Theorem layout_register_read de x frames s :
  faults s = [] → (∀ i, t_frames (database s) !! (x, i) = None) →
  Forall wf_frame_row frames → StronglySorted (λ f g, xf_frame_index f < xf_frame_index g) frames →
  ∃ s', sq_register_xorb_layout x frames s = (Ok tt, s') ∧
    sq_xorb_frame_layout de x s' = (Ok frames, s') ∧
    ∀ y, y ≠ x → frames_at (database s') y = frames_at (database s) y.
Proof.
  intros Hft Hnone Hwf Hs.
  destruct (quiet_register_layout x frames s Hft) as ([] & s' & Hreg & Hft'). exists s'.
  pose proof (register_layout_wps x frames s) as Hw. unfold wps in Hw. rewrite Hreg in Hw.
  split; [done|]. split.
  - rewrite xorb_frame_layout_no_fault by done. do 2 f_equal. rewrite Hw. by apply frames_at_registered.
  - intros y Hy. rewrite Hw. by apply frames_at_other.
Qed.

Lemma set_quota_no_fault o v s :
  faults s = [] → sq_set_owner_quota o v s = (Ok tt, set_database (set_quotas
    (match v with Some n => <[o := as_i64 n]> (t_quotas (database s))
     | None => delete o (t_quotas (database s)) end) (database s)) s).
Proof. intros Hs. destruct s as [d ck ft]. simpl in Hs. subst ft. by destruct v. Qed.

Lemma get_quota_no_fault o s :
  faults s = [] → sq_get_owner_quota o s =
  (match t_quotas (database s) !! o with
   | None => Ok None
   | Some n => Some <$> nonneg_i64_to_u64 n "get_owner_quota"
   end, s).
Proof.
  intros Hs. unfold sq_get_owner_quota, mbind, ST_bind. rewrite query_no_fault by done. cbn [map_err].
  destruct (t_quotas (database s) !! o) as [n|]; [|done]. unfold lift. by destruct (nonneg_i64_to_u64 n _).
Qed.

(** Quotas read back: a limit below 2^63 is stored and read exactly, a
    cleared one reads as none, other owners keep theirs; a limit of 2^63 or more
    is stored as a negative number, and every later read of it is an error. *)
Theorem owner_quota_roundtrip o n s :
  faults s = [] → is_u64 n →
  let s1 := (sq_set_owner_quota o (Some n) s).2 in
  let s2 := (sq_set_owner_quota o None s1).2 in
  (sq_set_owner_quota o (Some n) s).1 = Ok tt ∧
  (if n <? 2 ^ 63 then sq_get_owner_quota o s1 = (Ok (Some n), s1)
   else ∃ m, sq_get_owner_quota o s1 = (Err (Internal m), s1)) ∧
  sq_get_owner_quota o s2 = (Ok None, s2) ∧
  ∀ o', o' ≠ o → (sq_get_owner_quota o' s1).1 = (sq_get_owner_quota o' s).1.
Proof.
  intros Hs [Hn0 Hn]. cbv zeta. rewrite set_quota_no_fault by done. cbn [fst snd].
  rewrite set_quota_no_fault by done. cbn [fst snd]. rewrite !get_quota_no_fault by done.
  cbn [database set_database t_quotas set_quotas]. rewrite lookup_insert_eq, lookup_delete_eq.
  split_and!; [done| |done|].
  - destruct (Z.ltb_spec n (2 ^ 63)).
    + rewrite as_i64_id by lia. unfold nonneg_i64_to_u64. by rewrite (proj2 (Z.ltb_ge _ _)) by lia.
    + unfold nonneg_i64_to_u64, as_i64. rewrite (Z.mod_small n) by lia.
      rewrite (proj2 (Z.ltb_ge n _)) by lia. rewrite (proj2 (Z.ltb_lt _ _)) by lia. simpl. eauto.
  - intros o' Ho. rewrite !get_quota_no_fault by done. cbn [fst database set_database t_quotas set_quotas].
    by rewrite lookup_insert_ne by done.
Qed.

(** ** Executions *)

Definition first_row (A : Type) (l : list A) : option A := head l.
Lemma first_row_spec A (l : list A) :
  match first_row A l with Some x => x ∈ l | None => l = [] end.
Proof. destruct l; simpl; [done|left]. Qed.

Definition hx (b : byte) : Hash32 := mkHash32 (Vector.const b HASH_LEN).
Definition example_term (x : byte) (n : Z) : FileTerm := mkFileTerm (newtype (hx x)) 0 1 n None.
Definition repo_a : RepoRef := mkRepoRef Model (lit "alice/a") (lit "main").
Definition repo_b : RepoRef := mkRepoRef Model (lit "bob/b") (lit "main").
Definition file1 : FileHash := newtype (hx x01).
Definition example_size (_ : FileHash) : Z := 10.
Definition no_column (_ : string) : str := lit "no such column".
Definition example_store : store := mkStore empty_db 1000 [].
Definition after_register : store :=
  (sq_register_files first_row repo_a [(file1, [example_term x0a 4; example_term x0b 6])] example_store).2.
(** Bob's segmentation of the same content; his first attempt meets a full disk. *)
Definition example_history : list registration :=
  [(repo_b, [(file1, [example_term x0c 10])]); (repo_b, [(file1, [example_term x0c 10])])].
Definition faulty_store : store :=
  mkStore (database after_register) 1000 [None; None; Some (lit "database or disk is full")].

Lemma empty_has_terms h : has_terms empty_db h [].
Proof. intros i r. simpl. rewrite lookup_empty. unfold numbered. simpl. set_solver. Qed.
Lemma empty_files_inv size : files_inv size empty_db.
Proof. split; [intros h; exists []; split; [apply empty_has_terms|by left]|]. intros h r f Hf. discriminate Hf. Qed.

Lemma register_files_atomic_witness :
  let files := [(file1, [example_term x0c 10])] in
  (sq_register_files first_row repo_b files faulty_store).1
    = Err (Internal (lit "probe existing terms: database or disk is full")) ∧
  database (sq_register_files first_row repo_b files faulty_store).2 = database faulty_store.
Proof.
  cbv zeta. split; [vm_compute; reflexivity|].
  pose proof (register_files_atomic first_row first_row_spec repo_b
    [(file1, [example_term x0c 10])] faulty_store) as H.
  destruct (sq_register_files _ _ _ _) as [[u|e| |] s'] eqn:Hr; [|exact H|done|done].
  exfalso. assert (Hf : is_ok (sq_register_files first_row repo_b [(file1, [example_term x0c 10])]
    faulty_store).1 = false) by (vm_compute; reflexivity).
  rewrite Hr in Hf. discriminate Hf.
Defined.

Lemma register_then_lookup_witness :
  let s2 := run_registrations first_row after_register example_history in
  sq_lookup_file no_column first_row file1 s2
  = (Ok (Some [example_term x0a 4; example_term x0b 6]), s2).
Proof.
  apply (register_then_lookup no_column first_row first_row_spec example_size example_store repo_a
    [(file1, [example_term x0a 4; example_term x0b 6])]).
  - apply empty_files_inv.
  - apply empty_has_terms.
  - unfold after_register. rewrite (surjective_pairing (sq_register_files _ _ _ _)) at 1.
    f_equal.
  - repeat constructor; vm_compute; done.
  - repeat constructor. set_solver.
  - left.
  - done.
  - repeat constructor; vm_compute; done.
  - vm_compute. reflexivity.
Defined.

(** Three xorbs on disk, no files. *)
Definition example_xorbs : store :=
  mkStore (mkDb (list_to_map [(newtype (hx x0a), mkXorbRec 1 4 100 1000); (newtype (hx x0b), mkXorbRec 1 6 50 1000);
                              (newtype (hx x0c), mkXorbRec 1 10 7 1000)]) ∅ ∅ ∅ ∅ ∅) 1000 [].
Definition example_files : list (FileHash * list FileTerm) :=
  [(file1, [example_term x0a 4; example_term x0b 6])].

Lemma example_sizes_nonneg d :
  t_xorbs d = t_xorbs (database example_xorbs) → sizes_nonneg d.
Proof.
  intros Hd x r. rewrite Hd. intros Hx%elem_of_list_to_map_2.
  repeat (apply elem_of_cons in Hx as [[= -> ->]|Hx]; [simpl; lia|]). set_solver.
Qed.

(** The database after a successful registration, without running the store. *)
Lemma registered repo files s :
  faults s = [] →
  faults (sq_register_files first_row repo files s).2 = [] ∧
  t_xorbs (database (sq_register_files first_row repo files s).2) = t_xorbs (database s).
Proof.
  intros Hft. destruct (quiet_register_files first_row repo files s Hft) as ([] & s' & Hreg & Hft').
  pose proof (register_files_wps first_row first_row_spec repo files s) as Hw. unfold wps in Hw.
  rewrite Hreg in *. cbn [snd] in *. by rewrite Hw, write_files_xorbs.
Qed.

Lemma quota_projection_exact_witness :
  ∃ s', sq_register_files first_row repo_a example_files example_xorbs = (Ok tt, s') ∧
        sq_stored_bytes_for_owner (lit "alice") s' = (Ok (0 + 150), s').
Proof.
  apply (quota_projection_exact first_row example_xorbs repo_a example_files 0 150 first_row_spec).
  - reflexivity.
  - by apply example_sizes_nonneg.
  - repeat constructor. set_solver.
  - repeat constructor; apply empty_has_terms.
  - apply stored_as_on_disk; [reflexivity|by apply example_sizes_nonneg|].
    split; [vm_compute; reflexivity|lia].
  - apply unaccounted_as_on_disk; [reflexivity|by apply example_sizes_nonneg|].
    split; [vm_compute; reflexivity|lia].
  - lia.
Defined.

(** When the hash is already registered with other xorbs, the projection can
    miss bytes: Bob uploads Alice's content segmented into one small xorb, is
    checked for 7 bytes, and then accounts for Alice's 150. *)
Definition after_alice : store := (sq_register_files first_row repo_a example_files example_xorbs).2.
Definition bob_files : list (FileHash * list FileTerm) := [(file1, [example_term x0c 10])].
Lemma quota_projection_gap :
  (sq_stored_bytes_for_owner (lit "bob") after_alice).1 = Ok 0 ∧
  (sq_unaccounted_xorb_bytes_for_owner (lit "bob") (batch_xorbs bob_files) after_alice).1 = Ok 7 ∧
  let after_bob := (sq_register_files first_row repo_b bob_files after_alice).2 in
  (sq_stored_bytes_for_owner (lit "bob") after_bob).1 = Ok 150.
Proof. split_and!; vm_compute; reflexivity. Qed.

(** Alice's second repository shares one of the two xorbs. *)
Definition repo_c : RepoRef := mkRepoRef Dataset (lit "alice/c") (lit "main").
Definition after_two : store :=
  (sq_register_files first_row repo_c [(newtype (hx x02), [example_term x0b 6])] after_alice).2.

Lemma after_two_facts :
  faults after_two = [] ∧ sizes_nonneg (database after_two) ∧ owners_ok (database after_two).
Proof.
  pose proof (registered repo_a example_files example_xorbs eq_refl) as [H1 H2].
  pose proof (registered repo_c [(newtype (hx x02), [example_term x0b 6])] after_alice H1) as [H3 H4].
  split_and!; [exact H3| |].
  - apply example_sizes_nonneg. transitivity (t_xorbs (database after_alice)); [exact H4|exact H2].
  - apply (register_files_owners first_row); [exact first_row_spec|].
    apply (register_files_owners first_row); [exact first_row_spec|].
    intros h r f Hf. discriminate Hf.
Qed.

Lemma exclusive_is_what_deletion_frees_witness :
  let s' := set_database (without_repo (lit "alice/a") (database after_two)) after_two in
  sq_stored_bytes_for_owner (lit "alice") s' = (Ok (150 - 100), s') ∧ 0 ≤ 100 ≤ 150.
Proof.
  destruct after_two_facts as (Hft & Hnn & Ho).
  apply (exclusive_is_what_deletion_frees after_two (lit "alice/a") 100 150 150 Hft Hnn Ho).
  - unfold sq_exclusive_stored_bytes_for_repo.
    refine (proj2 (aggregate_on_disk _ _ _ after_two _ Hft Hnn) _).
    split; [vm_compute; reflexivity|lia].
  - unfold sq_stored_bytes_for_repo.
    refine (proj2 (aggregate_on_disk _ _ _ after_two _ Hft Hnn) _).
    split; [vm_compute; reflexivity|lia].
  - refine (proj2 (stored_as_on_disk after_two _ _ Hft Hnn) _).
    split; [vm_compute; reflexivity|lia].
Defined.

Definition example_frames : list XorbFrameRow :=
  [mkXorbFrameRow 0 0 20 30; mkXorbFrameRow 1 20 12 4].
Definition framed : store := (sq_register_xorb_layout (newtype (hx x0a)) example_frames example_store).2.

Lemma frame_layouts_batch_equiv_witness :
  let xs := [newtype (hx x0b); newtype (hx x0a); newtype (hx x0b)] in
  match (sq_xorb_frame_layouts no_column xs framed).1 with
  | Ok m => m !! (newtype (hx x0a) : XorbHash) = Some example_frames ∧ m !! (newtype (hx x0b) : XorbHash) = None
  | _ => False
  end ∧
  sq_xorb_frame_layouts no_column xs framed
  = xorb_frame_layouts_default (sq_xorb_frame_layout no_column) xs ∅ framed.
Proof.
  split; [vm_compute; by split|]. apply (frame_layouts_batch_equiv no_column).
  destruct (quiet_register_layout (newtype (hx x0a)) example_frames example_store eq_refl) as (u & s' & H & Hf).
  unfold framed. by rewrite H.
Defined.

Lemma layout_register_read_witness :
  ∃ s', sq_register_xorb_layout (newtype (hx x0a)) example_frames example_store = (Ok tt, s') ∧
    sq_xorb_frame_layout no_column (newtype (hx x0a)) s' = (Ok example_frames, s') ∧
    ∀ y, y ≠ newtype (hx x0a) → frames_at (database s') y = frames_at (database example_store) y.
Proof.
  apply (layout_register_read no_column (newtype (hx x0a)) example_frames example_store).
  - reflexivity.
  - intros i. reflexivity.
  - repeat constructor; vm_compute; done.
  - repeat constructor.
Defined.

Lemma owner_quota_roundtrip_witness :
  let s1 := (sq_set_owner_quota (lit "alice") (Some 5) example_store).2 in
  sq_get_owner_quota (lit "alice") s1 = (Ok (Some 5), s1).
Proof.
  destruct (owner_quota_roundtrip (lit "alice") 5 example_store) as (_ & H & _);
    [reflexivity|vm_compute; split; [discriminate|reflexivity]|]. exact H.
Defined.
