(* ===== verification/Tokens.v ===== *)
(** * Xet tokens ([crates/bale-server-tokens])

    The claims, their text form, and minting and verifying around the JWT
    library.  [encode] and [decode] are the library's functions for HS256 with
    a required [exp] and no leeway; the current time is an argument, in seconds
    since the epoch and negative when the clock is before it. *)

From S2P Require Import Prelude RustStd Core.

Record XetClaims := mkXetClaims {
  xc_sub : str;
  xc_repo_type : str;
  xc_repo_id : str;
  xc_revision : str;
  xc_scope : str;
  xc_exp : Z;
}.

Definition repo_type_str (t : RepoType) : str :=
  match t with Model => lit "model" | Dataset => lit "dataset" | Space => lit "space" end.

Definition parse_repo_type (s : str) : CoreResult RepoType :=
  if decide (s = lit "model") then Ok Model
  else if decide (s = lit "dataset") then Ok Dataset
  else if decide (s = lit "space") then Ok Space
  else Err (BadRequest (lit "bad repo_type: " ++ s)).

Definition scope_str (s : Scope) : str :=
  match s with Read => lit "read" | Write => lit "write" end.

Definition parse_scope (s : str) : CoreResult Scope :=
  if decide (s = lit "read") then Ok Read
  else if decide (s = lit "write") then Ok Write
  else Err (BadRequest (lit "bad scope: " ++ s)).

#[global] Instance XetClaims_eq_dec : EqDecision XetClaims.
Proof. solve_decision. Defined.

Section tokens.
(** The JWT library. *)
Variable encode : XetClaims → bytes → outcome str str.
Variable decode : str → bytes → Z → option XetClaims.
(** The text of a [SystemTimeError]. *)
Variable time_error : Z → str.

Definition now_unix (clock : Z) : CoreResult Z :=
  if clock <? 0 then Err (Internal (lit "system clock before unix epoch: " ++ time_error clock))
  else Ok clock.

Definition mint (secret : bytes) (user : UserId) (repo : RepoRef) (scope : Scope) (ttl_secs clock : Z)
    : CoreResult (str * Z) :=
  now ← now_unix clock;
  let exp := saturating_add now ttl_secs in
  let claims := mkXetClaims (user_id user) (repo_type_str (repo_type repo)) (repo_id repo)
                  (revision repo) (scope_str scope) exp in
  token ← map_err (λ e, Internal (lit "jwt encode: " ++ e)) (encode claims secret);
  mret (token, exp).

Definition verify (secret : bytes) (token : str) (clock : Z) : CoreResult TokenClaims :=
  c ← ok_or Unauthorized (decode token secret clock);
  t ← parse_repo_type (xc_repo_type c);
  s ← parse_scope (xc_scope c);
  mret (mkTokenClaims (mkUserId (xc_sub c)) (mkRepoRef t (xc_repo_id c) (xc_revision c)) s (xc_exp c)).
End tokens.

Lemma parse_repo_type_str t : parse_repo_type (repo_type_str t) = Ok t.
Proof. by destruct t. Qed.
Lemma parse_scope_str s : parse_scope (scope_str s) = Ok s.
Proof. by destruct s. Qed.

(** What the library documents: a token it made decodes with its secret to the
    claims it holds as long as it has not expired, and an expired token does not
    decode. *)
Record JwtLibrary (encode : XetClaims → bytes → outcome str str)
    (decode : str → bytes → Z → option XetClaims) : Prop := {
  jwt_roundtrip c k t now : encode c k = Ok t → 0 ≤ now ≤ xc_exp c → decode t k now = Some c;
  jwt_own c k t now c' : encode c k = Ok t → decode t k now = Some c' → c' = c;
  jwt_expiry t k now c : decode t k now = Some c → now ≤ xc_exp c;
}.

Lemma mint_Ok encode te secret user repo scope ttl clock token exp :
  mint encode te secret user repo scope ttl clock = Ok (token, exp) →
  0 ≤ clock ∧ exp = saturating_add clock ttl ∧
  encode (mkXetClaims (user_id user) (repo_type_str (repo_type repo)) (repo_id repo)
    (revision repo) (scope_str scope) exp) secret = Ok token.
Proof.
  unfold mint, now_unix. destruct (Z.ltb_spec clock 0); [discriminate|]. simpl.
  unfold map_err. destruct (encode _ _) as [t|?| |] eqn:He; simpl; try discriminate.
  intros [= <- <-]. done.
Qed.

Lemma verify_returns decode secret token clock : returned (verify decode secret token clock).
Proof.
  unfold verify. apply wp_returned. unfold ok_or, parse_repo_type, parse_scope.
  repeat first [case_match; simpl; [|done] | case_decide; simpl; try done].
Qed.

(** The token of a mint, at any later time. *)
Lemma verify_minted encode decode te secret user repo scope ttl clock token exp now :
  JwtLibrary encode decode →
  mint encode te secret user repo scope ttl clock = Ok (token, exp) → 0 ≤ now →
  verify decode secret token now
  = if now <=? exp then Ok (mkTokenClaims user repo scope exp) else Err Unauthorized.
Proof.
  intros [Hrt Hown Hex] Hm Hn. apply mint_Ok in Hm as (Hc & He & Henc). unfold verify.
  destruct (Z.leb_spec now exp).
  - rewrite (Hrt _ _ _ now Henc) by (simpl; lia). simpl.
    rewrite parse_repo_type_str, parse_scope_str. simpl. by destruct user, repo.
  - destruct (decode token secret now) as [xc|] eqn:Hd; [|done].
    pose proof (Hown _ _ _ _ _ Henc Hd) as ->. apply Hex in Hd. simpl in Hd. lia.
Qed.

(** Tokens carry exactly what they were minted for and live exactly their
    time: until the expiry (the current time plus the time to live, saturated)
    the token verifies to the user, the repository and the scope of the mint,
    from then on it is unauthorized; and whatever verifies, minted here or not,
    has not expired. *)
Theorem mint_verify encode decode te secret user repo scope ttl clock token exp :
  JwtLibrary encode decode →
  mint encode te secret user repo scope ttl clock = Ok (token, exp) →
  exp = saturating_add clock ttl ∧
  (∀ now, 0 ≤ now → verify decode secret token now
    = if now <=? exp then Ok (mkTokenClaims user repo scope exp) else Err Unauthorized) ∧
  (∀ other now c, verify decode secret other now = Ok c → now ≤ expires_at c).
Proof.
  intros Hlib Hm. split; [by apply mint_Ok in Hm as (_ & -> & _)|].
  split; [intros; by eapply verify_minted|]. destruct Hlib as [_ _ Hex].
  intros other now c. unfold verify. destruct (decode other secret now) as [xc|] eqn:Hd; [|discriminate].
  apply Hex in Hd. simpl. by intros (t & _ & (s & _ & [= <-])%outcome_bind_Ok)%outcome_bind_Ok.
Qed.

(** A library that signs by prefixing the secret. *)
Definition demo_encode (c : XetClaims) (k : bytes) : outcome str str :=
  if decide (c = mkXetClaims (lit "alice") (lit "model") (lit "alice/a") (lit "main") (lit "write") 1300)
  then Ok (k ++ lit ".alice") else Err (lit "unsupported claims").
Definition demo_decode (t : str) (k : bytes) (now : Z) : option XetClaims :=
  if decide (t = k ++ lit ".alice" ∧ now ≤ 1300)
  then Some (mkXetClaims (lit "alice") (lit "model") (lit "alice/a") (lit "main") (lit "write") 1300) else None.

Lemma demo_library : JwtLibrary demo_encode demo_decode.
Proof.
  unfold demo_encode, demo_decode.
  split; intros; repeat case_decide; simplify_eq; simpl in *; naive_solver lia.
Qed.

Lemma mint_verify_witness :
  verify demo_decode (lit "key") (lit "key.alice") 1300
  = Ok (mkTokenClaims (mkUserId (lit "alice")) (mkRepoRef Model (lit "alice/a") (lit "main")) Write 1300) ∧
  verify demo_decode (lit "key") (lit "key.alice") 1301 = Err Unauthorized.
Proof.
  destruct (mint_verify demo_encode demo_decode (λ _, []) (lit "key") (mkUserId (lit "alice"))
    (mkRepoRef Model (lit "alice/a") (lit "main")) Write 300 1000 (lit "key.alice") 1300
    demo_library) as (_ & H & _); [vm_compute; reflexivity|].
  split; rewrite H by lia; reflexivity.
Defined.
