(* ===== verification/Authz.v ===== *)
(** * Authorization ([crates/bale-server-authz-mem], [crates/bale-server-authz-http])

    The three implementations of [RepoAuthz]: [AlwaysAllow], the configured
    table [ConfigAuthz], and [HttpAuthz], which asks an upstream service.  The
    JWT library, the URL library and the HTTP client are parameters. *)

From Stdlib.Strings Require Import Byte.
From S2P Require Import Prelude RustStd Core Tokens.

Definition DEFAULT_TOKEN_TTL_SECS : Z := 300.

(** ** Constant-time equality *)

Definition ct_eq (a b : bytes) : bool :=
  let acc := as_u32 (Z.lxor (len a) (len b)) in
  foldl (λ acc p, Z.lor acc (Z.lxor (byte_to_Z p.1) (byte_to_Z p.2))) acc (zip a b) =? 0.

Lemma ct_fold_zero l acc :
  0 ≤ acc →
  foldl (λ acc p, Z.lor acc (Z.lxor (byte_to_Z p.1) (byte_to_Z p.2))) acc l = 0
  ↔ acc = 0 ∧ Forall (λ p, p.1 = p.2) l.
Proof.
  revert acc. induction l as [|[x y] l IH]; intros acc Ha; simpl.
  - split; [intros ->; done|by intros [-> _]].
  - pose proof (byte_to_Z_range x). pose proof (byte_to_Z_range y).
    assert (0 ≤ Z.lxor (byte_to_Z x) (byte_to_Z y)) by (apply Z.lxor_nonneg; lia).
    rewrite IH by (apply Z.lor_nonneg; lia). rewrite Z.lor_eq_0_iff, Z.lxor_eq_0_iff.
    rewrite Forall_cons. simpl. split.
    + intros [[-> Hxy%byte_to_Z_inj] Hl]. done.
    + intros [-> [-> Hl]]. done.
Qed.

Lemma lxor_u32 x y : is_u32 x → is_u32 y → is_u32 (Z.lxor x y).
Proof.
  unfold is_u32. intros Hx Hy.
  assert (H : Z.lxor x y = Z.lxor x y mod 2 ^ 32); [|rewrite H; apply Z.mod_pos_bound; lia].
  rewrite <-(Z.mod_small x (2 ^ 32)), <-(Z.mod_small y (2 ^ 32)) by lia.
  rewrite <-!Z.land_ones by lia. apply Z.bits_inj'. intros n Hn.
  rewrite !Z.land_spec, !Z.lxor_spec, !Z.land_spec.
  by destruct (Z.testbit x n), (Z.testbit y n), (Z.testbit (Z.ones 32) n).
Qed.

(** The length difference is truncated to 32 bits, so the test is exact up to
    that length. *)
Lemma ct_eq_spec a b : is_u32 (len a) → is_u32 (len b) → ct_eq a b = true ↔ a = b.
Proof.
  intros Ha Hb. unfold ct_eq.
  pose proof (lxor_u32 _ _ Ha Hb) as Hx.
  rewrite as_u32_id by done. rewrite Z.eqb_eq, ct_fold_zero by apply Hx.
  rewrite Z.lxor_eq_0_iff. unfold len. split.
  - intros [Hl Hz]. apply Nat2Z.inj in Hl. clear Ha Hb Hx. revert b Hl Hz.
    induction a as [|x a IH]; intros [|y b] Hl Hz; simpl in *; try done.
    inversion Hz; simplify_eq/=. f_equal. apply IH; [lia|done].
  - intros ->. split; [done|]. clear. induction b; simpl; constructor; done.
Qed.

(** ** [AlwaysAllow] *)

Definition allow_verify_xet_token (bearer : str) : CoreResult TokenClaims :=
  match bearer with
  | [] => Err Unauthorized
  | _ => Ok (mkTokenClaims (mkUserId (lit "anonymous"))
               (mkRepoRef Model (lit "anonymous/repo") (lit "main")) Write u64_max)
  end.
Definition allow_check_repo_access (hub_bearer : str) (repo : RepoRef) (scope : Scope) : CoreResult UserId :=
  Ok (mkUserId (lit "anonymous")).
Definition allow_mint_xet_token (user : UserId) (repo : RepoRef) (scope : Scope) : CoreResult (str * Z) :=
  Err (Internal (lit "AlwaysAllow cannot mint tokens")).

Inductive AlwaysAllow := always_allow.
#[global] Instance AlwaysAllow_authz : RepoAuthz AlwaysAllow := {|
  verify_xet_token _ := allow_verify_xet_token;
  check_repo_access _ := allow_check_repo_access;
  mint_xet_token _ := allow_mint_xet_token;
|}.

(** ** [ConfigAuthz] *)

Record ConfigUser := mkConfigUser { cu_user_id : str; cu_repos : gmap str Scope }.
Record ConfigAuthz := mkConfigAuthz { ca_jwt_secret : bytes; ca_users : gmap str ConfigUser }.

Definition ConfigAuthz_new (jwt_secret : bytes) : ConfigAuthz := mkConfigAuthz jwt_secret ∅.

Definition grant (hub_token user_id repo_id : str) (scope : Scope) (a : ConfigAuthz) : ConfigAuthz :=
  let entry := default (mkConfigUser user_id ∅) (ca_users a !! hub_token) in
  mkConfigAuthz (ca_jwt_secret a)
    (<[hub_token := mkConfigUser (cu_user_id entry) (<[repo_id := scope]> (cu_repos entry))]> (ca_users a)).

Section config.
Variable encode : XetClaims → bytes → outcome str str.
Variable decode : str → bytes → Z → option XetClaims.
Variable time_error : Z → str.
Variable clock : Z.
(** The order in which the hash map is iterated. *)
Variable iter : gmap str ConfigUser → list (str * ConfigUser).

Definition config_verify_xet_token (a : ConfigAuthz) (bearer : str) : CoreResult TokenClaims :=
  verify decode (ca_jwt_secret a) bearer clock.

Definition find_user (users : list (str * ConfigUser)) (hub_bearer : str) : option ConfigUser :=
  foldl (λ found p, if ct_eq p.1 hub_bearer then Some p.2 else found) None users.

Definition config_check_repo_access (a : ConfigAuthz) (hub_bearer : str) (repo : RepoRef)
    (requested : Scope) : CoreResult UserId :=
  u ← ok_or Unauthorized (find_user (iter (ca_users a)) hub_bearer);
  granted ← ok_or Forbidden (cu_repos u !! repo_id repo);
  match requested, granted with
  | Write, Read => Err Forbidden
  | _, _ => Ok (mkUserId (cu_user_id u))
  end.

Definition config_mint_xet_token (a : ConfigAuthz) (user : UserId) (repo : RepoRef) (scope : Scope)
    : CoreResult (str * Z) :=
  mint encode time_error (ca_jwt_secret a) user repo scope DEFAULT_TOKEN_TTL_SECS clock.

Definition ConfigAuthz_authz : RepoAuthz ConfigAuthz := {|
  verify_xet_token := config_verify_xet_token;
  check_repo_access := config_check_repo_access;
  mint_xet_token := config_mint_xet_token;
|}.
End config.

(** ** [HttpAuthz] *)

Definition MAX_UPSTREAM_RESPONSE_BYTES : Z := 64 * 1024.

Record CheckAccessRequest := mkCheckAccessRequest {
  car_hub_bearer : str; car_repo : RepoRef; car_scope : Scope }.
Record CheckAccessResponse := mkCheckAccessResponse { car_user_id : str }.

(** A response as the client sees it; reading the body may fail. *)
Record Response := mkResponse { status : Z; content_length : option Z; resp_bytes : option bytes }.
Definition is_success (status : Z) : bool := (200 <=? status) && (status <? 300).

Section http.
(** The URL library. *)
Context {Url : Type}.
Variable Url_parse : str → outcome str Url.
Variable scheme path : Url → str.
Variable set_path : str → Url → Url.
Variable join : Url → str → outcome str Url.
(** The client's POST and the JSON decoder. *)
Variable post : Url → CheckAccessRequest → outcome str Response.
Variable from_slice : bytes → option CheckAccessResponse.
Variable encode : XetClaims → bytes → outcome str str.
Variable decode : str → bytes → Z → option XetClaims.
Variable time_error : Z → str.
Variable clock : Z.

Record HttpAuthz := mkHttpAuthz { check_access_url : Url; ha_jwt_secret : bytes }.

Definition ends_with_slash (s : str) : bool := bool_decide (last s = Some x2f).

Definition build_check_access_url (base_url : str) : CoreResult Url :=
  let trimmed := trim_end_matches base_url x2f in
  base ← map_err (λ e, Internal (lit "invalid authz base_url: " ++ e)) (Url_parse trimmed);
  if negb (bool_decide (scheme base = lit "http") || bool_decide (scheme base = lit "https"))
  then Err (Internal (lit "invalid authz base_url scheme: " ++ scheme base))
  else
    let base := if ends_with_slash (path base) then base else set_path (path base ++ lit "/") base in
    map_err (λ e, Internal (lit "invalid authz base_url: " ++ e)) (join base (lit "check_access")).

(** [init]: whether the client could be built, with the error's text. *)
Definition HttpAuthz_new (init : outcome str unit) (base_url : str) (jwt_secret : bytes) : CoreResult HttpAuthz :=
  _ ← map_err (λ e, Internal (lit "http client init: " ++ e)) init;
  url ← build_check_access_url base_url;
  mret (mkHttpAuthz url jwt_secret).

Definition http_verify_xet_token (a : HttpAuthz) (bearer : str) : CoreResult TokenClaims :=
  verify decode (ha_jwt_secret a) bearer clock.

Definition too_large : CoreError := Internal (lit "upstream response too large").

(** The success arm: the user named by a body of bounded size. *)
Definition upstream_user (resp : Response) : CoreResult UserId :=
  _ ← (match content_length resp with
       | Some len => if MAX_UPSTREAM_RESPONSE_BYTES <? len then Err too_large else mret tt
       | None => mret tt
       end);
  bytes ← ok_or (Internal (lit "upstream body read failed")) (resp_bytes resp);
  if MAX_UPSTREAM_RESPONSE_BYTES <? len bytes then Err too_large
  else
    parsed ← ok_or (Internal (lit "upstream body decode failed")) (from_slice bytes);
    mret (mkUserId (car_user_id parsed)).

Definition http_check_repo_access (a : HttpAuthz) (hub_bearer : str) (repo : RepoRef) (scope : Scope)
    : CoreResult UserId :=
  resp ← map_err (λ e, Internal (lit "upstream call: " ++ e))
           (post (check_access_url a) (mkCheckAccessRequest hub_bearer repo scope));
  let s := status resp in
  if is_success s then upstream_user resp
  else if s =? 401 then Err Unauthorized
  else if s =? 403 then Err Forbidden
  else Err (Internal (lit "upstream status " ++ to_string s ++ lit " for check_access")).

Definition http_mint_xet_token (a : HttpAuthz) (user : UserId) (repo : RepoRef) (scope : Scope)
    : CoreResult (str * Z) :=
  mint encode time_error (ha_jwt_secret a) user repo scope DEFAULT_TOKEN_TTL_SECS clock.

Definition HttpAuthz_authz : RepoAuthz HttpAuthz := {|
  verify_xet_token := http_verify_xet_token;
  check_repo_access := http_check_repo_access;
  mint_xet_token := http_mint_xet_token;
|}.

Lemma upstream_user_spec r :
  wp (upstream_user r)
    (λ u, (∀ n, content_length r = Some n → n ≤ MAX_UPSTREAM_RESPONSE_BYTES) ∧
       ∃ b, resp_bytes r = Some b ∧ len b ≤ MAX_UPSTREAM_RESPONSE_BYTES ∧
       from_slice b = Some (mkCheckAccessResponse (user_id u)))
    (λ e, (∃ m, e = Internal m) ∧
       ((∃ n, content_length r = Some n ∧ MAX_UPSTREAM_RESPONSE_BYTES < n) ∨ resp_bytes r = None ∨
        ∃ b, resp_bytes r = Some b ∧ (MAX_UPSTREAM_RESPONSE_BYTES < len b ∨ from_slice b = None))).
Proof.
  clear -from_slice. unfold upstream_user, too_large. destruct r as [s [n|] [b|]]; simpl;
    repeat (case_match; simpl); try (destruct (Z.ltb_spec MAX_UPSTREAM_RESPONSE_BYTES n); simpl; [eauto 10|]);
    try (split; [eauto|by eauto 10]);
    (destruct (Z.ltb_spec MAX_UPSTREAM_RESPONSE_BYTES (len b)); simpl; [eauto 10|]);
    (destruct (from_slice b) as [[u]|] eqn:Hb; simpl; [|eauto 10]); split; naive_solver.
Qed.

(** The delegated check fails closed: it grants access exactly when the
    upstream answered with success and a body of at most 64 KiB, announced and
    received, that names the user; it says unauthorized exactly on 401 and
    forbidden exactly on 403; anything else is an internal error. *)
Theorem http_check_fails_closed (a : HttpAuthz) (hub_bearer : str) (repo : RepoRef) (scope : Scope) :
  let answered r := post (check_access_url a) (mkCheckAccessRequest hub_bearer repo scope) = Ok r in
  let result := http_check_repo_access a hub_bearer repo scope in
  (∀ u, result = Ok u ↔ ∃ r b, answered r ∧ is_success (status r) = true ∧
     (∀ n, content_length r = Some n → n ≤ MAX_UPSTREAM_RESPONSE_BYTES) ∧
     resp_bytes r = Some b ∧ len b ≤ MAX_UPSTREAM_RESPONSE_BYTES ∧
     from_slice b = Some (mkCheckAccessResponse (user_id u))) ∧
  (result = Err Unauthorized ↔ ∃ r, answered r ∧ status r = 401) ∧
  (result = Err Forbidden ↔ ∃ r, answered r ∧ status r = 403).
Proof.
  clear -from_slice post. cbv zeta. unfold http_check_repo_access.
  destruct (post _ _) as [r|e| |]; simpl;
    [|by split; [intros u; split; [discriminate|by intros (? & ? & ? & _)]
                |split; (split; [discriminate|by intros (? & ? & _)])]..].
  pose proof (upstream_user_spec r) as Hu.
  destruct (is_success (status r)) eqn:Hs.
  - assert (status r ≠ 401 ∧ status r ≠ 403) as [H1 H3].
    { unfold is_success in Hs. apply andb_prop in Hs as [_ Hs%Z.ltb_lt]. lia. }
    destruct (upstream_user r) as [u|e| |]; simpl in Hu; [| |done|done].
    + split_and!; try (split; [discriminate|naive_solver]). intros v. split.
      * intros [= ->]. destruct Hu as (? & b & ?). eauto 10.
      * intros (r' & b' & [= <-] & _ & _ & Hb & _ & Hf). destruct Hu as (_ & b & Hb2 & _ & Hf2).
        simplify_eq. destruct u, v; naive_solver.
    + destruct Hu as [[m ->] Hu]. split_and!; try (split; [discriminate|naive_solver]).
      intros v. split; [discriminate|]. intros (r' & b' & [= <-] & _ & Hc & Hb & Hl & Hf).
      destruct Hu as [(n & Hn & ?)|[Hn|(b & Hn & [?|?])]]; try (apply Hc in Hn); simplify_eq; lia.
  - destruct (Z.eqb_spec (status r) 401) as [H1|H1]; [|destruct (Z.eqb_spec (status r) 403) as [H3|H3]];
      (split; [intros u; split; [discriminate|]; intros (r' & b' & [= <-] & ? & _); congruence|]);
      (split; (split; [intros [=]; eauto|intros (r' & [= <-] & ?); congruence])).
Qed.
End http.

Lemma find_user_spec users tok found :
  Forall (λ p, is_u32 (len p.1)) users → is_u32 (len tok) → NoDup users.*1 →
  foldl (λ found p, if ct_eq p.1 tok then Some p.2 else found) found users
  = match (list_to_map users : gmap str ConfigUser) !! tok with Some u => Some u | None => found end.
Proof.
  intros Hlen Htok. revert found. induction users as [|[k u] users IH]; intros found Hnd; [done|].
  simpl in *. inversion_clear Hlen as [|?? Hk Hus]. apply NoDup_cons in Hnd as [Hnin Hnd].
  rewrite IH by done. simpl in Hk. destruct (decide (k = tok)) as [->|Hne].
  - rewrite (proj2 (ct_eq_spec tok tok Hk Htok)) by done. rewrite lookup_insert_eq.
    by rewrite (not_elem_of_list_to_map_1 users tok) by done.
  - destruct (ct_eq k tok) eqn:He; [apply (ct_eq_spec _ _ Hk Htok) in He; done|].
    by rewrite lookup_insert_ne by done.
Qed.

(** ** A configuration is its list of grants *)

Record Grant := mkGrant { g_token : str; g_user : str; g_repo : str; g_scope : Scope }.

Definition configure (secret : bytes) (grants : list Grant) : ConfigAuthz :=
  foldl (λ a g, grant (g_token g) (g_user g) (g_repo g) (g_scope g) a) (ConfigAuthz_new secret) grants.

(** The user of a token's first grant, the scope of its last one for a repository. *)
Definition granted_user (grants : list Grant) (token : str) : option str :=
  g_user <$> head (filter (λ g, g_token g = token) grants).
Definition granted_scope (grants : list Grant) (token repo_id : str) : option Scope :=
  g_scope <$> last (filter (λ g, g_token g = token ∧ g_repo g = repo_id) grants).

Definition access_decision (grants : list Grant) (token repo_id : str) (requested : Scope)
    : CoreResult UserId :=
  match granted_user grants token, granted_scope grants token repo_id with
  | None, _ => Err Unauthorized
  | Some _, None => Err Forbidden
  | Some u, Some granted =>
      if bool_decide (requested = Write ∧ granted = Read) then Err Forbidden else Ok (mkUserId u)
  end.

Lemma granted_user_snoc grants g token :
  granted_user (grants ++ [g]) token
  = match granted_user grants token with
    | Some u => Some u
    | None => if decide (g_token g = token) then Some (g_user g) else None
    end.
Proof.
  unfold granted_user. rewrite filter_app, filter_cons, filter_nil.
  destruct (filter _ grants); simpl; [by case_decide|done].
Qed.

Lemma granted_scope_snoc grants g token repo_id :
  granted_scope (grants ++ [g]) token repo_id
  = if decide (g_token g = token ∧ g_repo g = repo_id) then Some (g_scope g)
    else granted_scope grants token repo_id.
Proof.
  unfold granted_scope. rewrite filter_app, filter_cons, filter_nil.
  case_decide; [by rewrite last_snoc|by rewrite app_nil_r].
Qed.

Lemma configure_users secret grants token :
  granted_user grants token = cu_user_id <$> ca_users (configure secret grants) !! token ∧
  ∀ r, granted_scope grants token r = ca_users (configure secret grants) !! token ≫= λ u, cu_repos u !! r.
Proof.
  induction grants as [|g grants [IHu IHs]] using rev_ind; [cbn; by rewrite lookup_empty|].
  unfold configure in *. rewrite foldl_snoc. unfold grant at 1 3. cbn [ca_users].
  rewrite granted_user_snoc, IHu. split; [|intros r; rewrite granted_scope_snoc, IHs; clear IHs];
    (destruct (decide (g_token g = token)) as [<-|Hne];
     [rewrite lookup_insert_eq|rewrite lookup_insert_ne by done]).
  - by destruct (_ !! _).
  - by destruct (_ !! _).
  - cbn. destruct (decide (g_repo g = r)) as [<-|Hr].
    + by rewrite lookup_insert_eq, decide_True by done.
    + rewrite lookup_insert_ne, decide_False by naive_solver. by destruct (_ !! g_token g).
  - by rewrite decide_False by naive_solver.
Qed.

Lemma configure_tokens secret grants token u :
  ca_users (configure secret grants) !! token = Some u → ∃ g, g ∈ grants ∧ g_token g = token.
Proof.
  intros Hu. destruct (configure_users secret grants token) as [H _]. rewrite Hu in H.
  unfold granted_user in H. destruct (filter _ grants) as [|g l] eqn:Hf; [discriminate|].
  exists g. assert (g ∈ filter (λ g, g_token g = token) grants) as [??]%list_elem_of_filter; [|done].
  rewrite Hf. left.
Qed.

(** Access is decided by the grants, in whatever order the user map is
    iterated: a token nobody was granted is unauthorized, a repository it was
    not granted is forbidden, and so is writing with a read grant; otherwise
    the answer is the user of the token's first grant.  The scope is the one of
    the last grant for the token and the repository. *)
Theorem config_access_decision iter secret grants token repo requested :
  (∀ m, iter m ≡ₚ map_to_list m) →
  Forall (λ g, is_u32 (len (g_token g))) grants → is_u32 (len token) →
  config_check_repo_access iter (configure secret grants) token repo requested
  = access_decision grants token (repo_id repo) requested.
Proof.
  intros Hiter Hlen Htok. set (users := ca_users (configure secret grants)).
  assert (Hf : find_user (iter users) token = users !! token).
  { unfold find_user. rewrite find_user_spec; [| |done|].
    - rewrite (list_to_map_proper (iter users) (map_to_list users)), list_to_map_to_list; [by destruct (_ !! _)| |done].
      rewrite Hiter. apply NoDup_fst_map_to_list.
    - rewrite Hiter, Forall_forall. intros [k u] Hku%elem_of_map_to_list.
      apply configure_tokens in Hku as (g & Hg & <-). rewrite Forall_forall in Hlen. by apply Hlen.
    - rewrite Hiter. apply NoDup_fst_map_to_list. }
  unfold config_check_repo_access, access_decision. fold users. rewrite Hf.
  destruct (configure_users secret grants token) as [-> ->]. fold users.
  destruct (users !! token) as [u|]; [|done]. cbn.
  destruct (cu_repos u !! repo_id repo) as [granted|]; [|done]. cbn. by destruct requested, granted.
Qed.

Definition example_grants : list Grant :=
  [mkGrant (lit "t1") (lit "alice") (lit "alice/a") Write; mkGrant (lit "t1") (lit "mallory") (lit "bob/b") Read;
   mkGrant (lit "t2") (lit "bob") (lit "bob/b") Write].

Lemma config_access_decision_witness :
  let check := config_check_repo_access (λ m, rev (map_to_list m)) (configure (lit "key") example_grants) in
  check (lit "t1") (mkRepoRef Model (lit "bob/b") (lit "main")) Read = Ok (mkUserId (lit "alice")) ∧
  check (lit "t1") (mkRepoRef Model (lit "bob/b") (lit "main")) Write = Err Forbidden ∧
  check (lit "t3") (mkRepoRef Model (lit "bob/b") (lit "main")) Read = Err Unauthorized.
Proof.
  cbv zeta.
  split_and!; (rewrite config_access_decision; [reflexivity| |repeat constructor; vm_compute; done|vm_compute; done]);
    intros m; symmetry; apply Permutation_rev.
Defined.
