(* ===== verification/MetaSpec.v ===== *)
(** * What a metadata store promises to the HTTP layer

    The view is the layout of each xorb, the term list of each file, and which
    repositories have which files.  A write that fails changes nothing; reads
    change nothing and answer from the view; no call panics. *)

From stdpp Require Import gmap sorting.
From S2P Require Import Prelude RustStd Core.

Class MetadataView (M : Type) := {
  meta_healthy : M → Prop;
  meta_layout : M → XorbHash → list XorbFrameRow;
  meta_terms : M → FileHash → list FileTerm;
  meta_in_repo : M → FileHash → str → bool;
}.

Record meta_same {M} `{MetadataView M} (s s' : M) : Prop := {
  same_layout x : meta_layout s' x = meta_layout s x;
  same_terms h : meta_terms s' h = meta_terms s h;
  same_in_repo h r : meta_in_repo s' h r = meta_in_repo s h r;
}.

#[global] Instance meta_same_preorder {M} `{MetadataView M} : PreOrder (@meta_same M _).
Proof.
  split; [done|]. intros s1 s2 s3 [L1 T1 R1] [L2 T2 R2].
  split; intros; by rewrite ?L2, ?T2, ?R2.
Qed.

(** A call that changes nothing in the view and answers [Q]. *)
Definition meta_reads {M A} `{MetadataView M} (m : ST M CoreError A) (Q : M → A → Prop) : Prop :=
  ∀ s, wps m s (λ a s', meta_same s s' ∧ Q s a) (λ _ s', meta_same s s').

Definition frames_increasing (l : list XorbFrameRow) : Prop :=
  StronglySorted (λ f g, xf_frame_index f < xf_frame_index g) l.

Class MetadataStoreSpec (M : Type) `{MetadataStore M, MetadataView M} := {
  meta_layout_wf s x : Forall wf_frame_row (meta_layout s x);
  meta_terms_wf s h : Forall wf_term (meta_terms s h);
  register_xorb_law info chunks : meta_reads (register_xorb info chunks) (λ _ _, True);
  register_xorb_layout_law x frames s :
    Forall wf_frame_row frames → frames_increasing frames →
    wps (register_xorb_layout x frames) s
      (λ _ s', (∀ y, y ≠ x → meta_layout s' y = meta_layout s y) ∧
        (meta_layout s x = [] → meta_layout s' x = frames) ∧
        (∀ f, f ∈ meta_layout s x → f ∈ meta_layout s' x) ∧
        (∀ f, f ∈ frames → ∃ g, g ∈ meta_layout s' x ∧ xf_frame_index g = xf_frame_index f) ∧
        (∀ h, meta_terms s' h = meta_terms s h) ∧ (∀ h r, meta_in_repo s' h r = meta_in_repo s h r))
      (λ _ s', meta_same s s');
  xorb_frame_layout_law x : meta_reads (xorb_frame_layout x) (λ s l, l = meta_layout s x);
  xorb_frame_layout_live x s : meta_healthy s → is_ok (xorb_frame_layout x s).1 = true;
  xorb_frame_layouts_law xs : meta_reads (xorb_frame_layouts xs) (λ s m, ∀ x, x ∈ xs →
    m !! x = match meta_layout s x with [] => None | l => Some l end);
  meta_xorb_exists_law x : meta_reads (meta_xorb_exists x) (λ _ _, True);
  lookup_file_law h : meta_reads (lookup_file h) (λ s r,
    r = match meta_terms s h with [] => None | l => Some l end);
  file_in_repo_law h r : meta_reads (file_in_repo h r) (λ s b, b = meta_in_repo s h r);
  xorbs_near_chunk_law c n : meta_reads (xorbs_near_chunk c n) (λ _ l, Forall wf_xorb_info l);
  xorb_chunk_offsets_law x : meta_reads (xorb_chunk_offsets x) (λ _ l,
    Forall (λ c, is_u32 (co_byte_start c) ∧ is_u32 (co_unpacked_segment_bytes c)) l);
  raw_bytes_for_owner_law o : meta_reads (raw_bytes_for_owner o) (λ _ n, 0 ≤ n);
  stored_bytes_for_owner_law o : meta_reads (stored_bytes_for_owner o) (λ _ n, 0 ≤ n);
  get_owner_quota_law o : meta_reads (get_owner_quota o) (λ _ _, True);
  set_owner_quota_law o q : meta_reads (set_owner_quota o q) (λ _ _, True);
  unaccounted_law o xs : meta_reads (unaccounted_xorb_bytes_for_owner o xs) (λ _ n, 0 ≤ n);
  raw_bytes_for_repo_law r : meta_reads (raw_bytes_for_repo r) (λ _ n, 0 ≤ n);
  stored_bytes_for_repo_law r : meta_reads (stored_bytes_for_repo r) (λ _ n, 0 ≤ n);
  exclusive_law r : meta_reads (exclusive_stored_bytes_for_repo r) (λ _ n, 0 ≤ n);
  register_files_law repo fs s :
    Forall (λ p, Forall wf_term p.2) fs →
    wps (register_files repo fs) s
      (λ _ s', (∀ x, meta_layout s' x = meta_layout s x) ∧
        (∀ h r, meta_in_repo s' h r = meta_in_repo s h r || bool_decide (r = repo_id repo ∧ h ∈ fs.*1)) ∧
        (∀ h, meta_terms s h ≠ [] ∨ h ∉ fs.*1 → meta_terms s' h = meta_terms s h) ∧
        (∀ h l, NoDup fs.*1 → (h, l) ∈ fs → meta_terms s h = [] → meta_terms s' h = l))
      (λ _ s', meta_same s s');
}.
