(* ===== verification/SqliteSpec.v ===== *)
(** * The SQLite store keeps the promises of a metadata store *)

From stdpp Require Import gmap sorting.
From S2P Require Import Prelude RustStd Core MetaCommon Db Sqlite Accounting MetaSpec.

Definition term_of (p : Z * term_rec) : FileTerm :=
  mkFileTerm (tr_xorb p.2) (as_u32 (tr_chunk_idx_start p.2)) (as_u32 (tr_chunk_idx_end p.2))
    (as_u32 (tr_unpacked_bytes p.2)) (tr_verification p.2).
Definition terms_at (d : db) (h : FileHash) : list FileTerm := term_of <$> ordered_rows (t_terms d) h.
Definition has_file (d : db) (h : FileHash) (r : str) : bool := bool_decide (is_Some (t_files d !! (h, r))).

#[global] Instance store_view : MetadataView store := {|
  meta_healthy s := faults s = [];
  meta_layout s := frames_at (database s);
  meta_terms s := terms_at (database s);
  meta_in_repo s := has_file (database s);
|}.

Lemma same_database (s s' : store) :
  t_frames (database s') = t_frames (database s) → t_terms (database s') = t_terms (database s) →
  t_files (database s') = t_files (database s) → meta_same s s'.
Proof.
  intros Hf Ht Hr. split; intros; simpl; unfold frames_at, terms_at, has_file; by rewrite ?Hf, ?Ht, ?Hr.
Qed.

Lemma term_of_row t i : wf_term t → term_of (i, term_row t) = t.
Proof. destruct t. intros (?&?&?). unfold term_of, term_row. simpl in *. by rewrite !as_u32_id. Qed.

Lemma row_to_file_term_of de p : row_to_file_term de (term_columns p) = Ok (term_of p).
Proof.
  destruct p as [i [[x] a b u v]]. unfold row_to_file_term, term_columns, get_hash, get_u32, get_i64, get_blob, get_opt_blob.
  simpl. rewrite blob_to_hash_to_blob. simpl. destruct v as [v|]; simpl; [|done].
  by rewrite blob_to_hash_to_blob.
Qed.

(** ** Reads *)
Section reads.
#[local] Set Default Proof Using "Type*".

Lemma reads_query {A B} msg (f : db → outcome str A) (k : A → Db.M B) (Q : store → B → Prop) :
  (∀ d, returned (f d)) →
  (∀ s s', database s' = database s → ∀ a, f (database s) = Ok a →
    wps (k a) s' (λ b s'', meta_same s' s'' ∧ Q s b) (λ _ s'', meta_same s' s'')) →
  meta_reads (query msg f ≫= k) Q.
Proof.
  intros Hf Hk s. wsteps. apply wps_query.
  { intros e. by apply same_database. }
  specialize (Hf (database s)). destruct (f (database s)) as [a|e| |] eqn:Hd; simpl in *; [| |done|done].
  - eapply wps_mono; [apply (Hk s (pop_fault s) eq_refl a Hd)| |]; simpl.
    + intros b s'' [Hs HQ]. split; [|done]. etrans; [by apply (same_database s (pop_fault s))|done].
    + intros e s'' Hs. etrans; [by apply (same_database s (pop_fault s))|done].
  - by apply same_database.
Qed.

Lemma reads_query_last {A} msg (f : db → outcome str A) (Q : store → A → Prop) :
  (∀ s, wp (f (database s)) (Q s) (λ _, True)) → meta_reads (query msg f) Q.
Proof.
  intros Hf s. apply wps_query; [intros; by apply same_database|].
  eapply wp_mono; [apply Hf| |]; simpl; intros; [split; [|done]|]; by apply same_database.
Qed.

Lemma wps_lift_same {A} (o : CoreResult A) (s : store) (Q : A → Prop) :
  wp o Q (λ _, True) → wps (lift o) s (λ a s', meta_same s s' ∧ Q a) (λ _ s', meta_same s s').
Proof. intros Ho. apply wps_lift. eapply wp_mono; [exact Ho| |]; simpl; [split; [|done]|]; done. Qed.

Lemma reads_aggregate msg label f : meta_reads (aggregate msg label f) (λ _ n, 0 ≤ n).
Proof.
  unfold aggregate. apply reads_query.
  - intros d. unfold sum_i64. by case_match.
  - intros s s' _ a _. apply wps_lift_same. unfold nonneg_i64_to_u64.
    destruct (Z.ltb_spec a 0); simpl; done.
Qed.
End reads.

Lemma wp_decode_all {A} (f : row → CoreResult A) (Q : A → Prop) rows :
  (∀ r, r ∈ rows → wp (f r) Q (λ _, True)) → wp (decode_all f rows) (Forall Q) (λ _, True).
Proof.
  induction rows as [|r rows IH]; intros Hf; simpl; [constructor|].
  apply wp_bind. eapply wp_mono; [apply Hf; left| |done]. intros a Ha.
  apply wp_bind. eapply wp_mono; [apply IH; intros; apply Hf; by right| |done]. simpl. by constructor.
Qed.

(** ** Writes *)

Lemma register_layout_law x frames s :
  Forall wf_frame_row frames → frames_increasing frames →
  wps (sq_register_xorb_layout x frames) s
    (λ _ s', (∀ y, y ≠ x → meta_layout s' y = meta_layout s y) ∧
      (meta_layout s x = [] → meta_layout s' x = frames) ∧
      (∀ f, f ∈ meta_layout s x → f ∈ meta_layout s' x) ∧
      (∀ f, f ∈ frames → ∃ g, g ∈ meta_layout s' x ∧ xf_frame_index g = xf_frame_index f) ∧
      (∀ h, meta_terms s' h = meta_terms s h) ∧ (∀ h r, meta_in_repo s' h r = meta_in_repo s h r))
    (λ _ s', meta_same s s').
Proof.
  intros Hwf Hs. eapply wps_mono; [apply register_layout_wps| |intros e s' Hd; apply same_database; by rewrite Hd].
  cbv beta. intros u s' Hd. simpl. rewrite Hd. split_and!.
  - intros y Hy. by apply frames_at_other.
  - intros Hnil. apply frames_at_registered; [|done..]. intros i.
    destruct (t_frames (database s) !! (x, i)) as [r|] eqn:Hr; [|done].
    apply elem_of_ordered_rows in Hr. unfold frames_at in Hnil. apply fmap_nil_inv in Hnil. rewrite Hnil in Hr. set_solver.
  - intros f ([i r] & -> & Hr%elem_of_ordered_rows)%list_elem_of_fmap. apply list_elem_of_fmap_2.
    apply elem_of_ordered_rows. by apply lookup_insert_ignore_all_old.
  - intros f Hf.
    assert (is_Some (insert_ignore_all (frame_entry x <$> frames) (t_frames (database s)) !! (x, xf_frame_index f))) as [r Hr].
    { destruct (t_frames (database s) !! (x, xf_frame_index f)) as [r|] eqn:Hold.
      - exists r. by apply lookup_insert_ignore_all_old.
      - exists (frame_entry x f).2. apply lookup_insert_ignore_all; [by apply frame_entries_keys|done|].
        apply list_elem_of_fmap. by exists f. }
    exists (frame_of (xf_frame_index f, r)). split.
    + apply list_elem_of_fmap_2. by apply elem_of_ordered_rows.
    + rewrite Forall_forall in Hwf. destruct (Hwf f Hf) as (Hi & _). simpl. by apply as_u32_id.
  - done.
  - done.
Qed.

Lemma write_files_view now repo fs d h :
  let d' := foldl (write_file_db now repo) d fs in
  t_frames d' = t_frames d ∧
  ∀ r, has_file d' h r = has_file d h r || bool_decide (r = repo_id repo ∧ h ∈ fs.*1).
Proof.
  cbv zeta. revert d. induction fs as [|[k ts] fs IH]; intros d; simpl.
  { split; [done|]. intros r. rewrite bool_decide_false by set_solver. by rewrite orb_false_r. }
  destruct (IH (write_file_db now repo d (k, ts))) as [-> IHf].
  assert (Hw : t_frames (write_file_db now repo d (k, ts)) = t_frames d ∧
    t_files (write_file_db now repo d (k, ts)) = <[(k, repo_id repo) := file_row now repo ts]> (t_files d)).
  { unfold write_file_db. by destruct (rows_of _ _). }
  destruct Hw as [-> Hfiles]. split; [done|]. intros r. rewrite IHf. unfold has_file. rewrite Hfiles.
  apply eq_true_iff_eq. rewrite !orb_true_iff, !bool_decide_eq_true, lookup_insert_is_Some, elem_of_cons.
  destruct (decide ((k, repo_id repo) = (h, r))) as [[= -> ->]|Hne]; naive_solver.
Qed.

(** One registration: a file without rows gets its list, the others keep their rows. *)
Lemma write_file_rows now repo d h ts k :
  ordered_rows (t_terms (write_file_db now repo d (h, ts))) k
  = if decide (k = h ∧ ordered_rows (t_terms d) k = []) then numbered ts else ordered_rows (t_terms d) k.
Proof.
  case_decide as Hc.
  - destruct Hc as [-> Hnil]. apply has_terms_rows.
    pose proof (write_file_terms now repo d h ts h []) as Hw. rewrite decide_True in Hw by done.
    apply Hw. intros i r. rewrite <-elem_of_ordered_rows, Hnil. done.
  - unfold write_file_db. cbn [fst snd].
    assert (Hnil : rows_of (t_terms d) h = [] → ordered_rows (t_terms d) h = []).
    { intros Hr. apply ordered_rows_nil. intros i. destruct (t_terms d !! (h, i)) eqn:Hi; [|done].
      apply elem_of_rows_of in Hi. rewrite Hr in Hi. set_solver. }
    destruct (rows_of (t_terms d) h) eqn:Hr; [|done]. apply ordered_rows_ext. intros i. cbn [t_terms set_terms].
    apply lookup_insert_ignore_all_ne. intros Hk%indexed_terms_keys. simpl in Hk. subst. naive_solver.
Qed.

Lemma write_files_rows now repo fs d h :
  let d' := foldl (write_file_db now repo) d fs in
  (ordered_rows (t_terms d) h ≠ [] ∨ h ∉ fs.*1 → ordered_rows (t_terms d') h = ordered_rows (t_terms d) h) ∧
  (∀ l, NoDup fs.*1 → (h, l) ∈ fs → ordered_rows (t_terms d) h = [] → ordered_rows (t_terms d') h = numbered l).
Proof.
  cbv zeta. revert d. induction fs as [|[k ts] fs IH]; intros d; cbn [foldl]; [split; set_solver|].
  destruct (IH (write_file_db now repo d (k, ts))) as [IH1 IH2]. rewrite write_file_rows in IH1, IH2. split.
  - intros Hc. rewrite decide_False in IH1 by set_solver. apply IH1. set_solver.
  - intros l [Hk Hnd]%NoDup_cons [[= <- <-]|Hin]%elem_of_cons Hnil.
    + rewrite decide_True in IH1 by done. apply IH1. by right.
    + rewrite decide_False in IH2; [by apply IH2|]. intros [-> _]. destruct Hk. apply list_elem_of_fmap. by exists (k, l).
Qed.

(** What the view shows after a batch of files was registered. *)
Definition files_registered (repo : RepoRef) (fs : list (FileHash * list FileTerm)) (s s' : store) : Prop :=
  (∀ x, meta_layout s' x = meta_layout s x) ∧
  (∀ h r, meta_in_repo s' h r = meta_in_repo s h r || bool_decide (r = repo_id repo ∧ h ∈ fs.*1)) ∧
  (∀ h, meta_terms s h ≠ [] ∨ h ∉ fs.*1 → meta_terms s' h = meta_terms s h) ∧
  (∀ h l, NoDup fs.*1 → (h, l) ∈ fs → meta_terms s h = [] → meta_terms s' h = l).

Lemma registered_view now (m : M unit) repo fs s :
  Forall (λ p, Forall wf_term p.2) fs →
  wps m s (λ _ s', database s' = foldl (write_file_db now repo) (database s) fs)
    (λ _ s', database s' = database s) →
  wps m s (λ _ s', files_registered repo fs s s') (λ _ s', meta_same s s').
Proof.
  intros Hwf Hm. eapply wps_mono; [exact Hm| |intros e s' Hd; apply same_database; by rewrite Hd].
  cbv beta. intros u s' Hd. unfold files_registered. simpl. rewrite Hd. split_and!.
  - intros x. unfold frames_at. by rewrite (proj1 (write_files_view _ repo fs (database s) (newtype Hash32_ZERO))).
  - intros h r. apply write_files_view.
  - intros h Hc. unfold terms_at. f_equal. apply (write_files_rows _ repo fs (database s) h).
    destruct Hc as [Hc|]; [left|by right]. intros Hn. destruct Hc. unfold terms_at. by rewrite Hn.
  - intros h l Hnd Hin Hnil. apply fmap_nil_inv in Hnil. unfold terms_at.
    rewrite (proj2 (write_files_rows _ repo fs (database s) h) l Hnd Hin Hnil). unfold numbered. rewrite fmap_imap.
    rewrite Forall_forall in Hwf. specialize (Hwf _ Hin). simpl in Hwf.
    apply list_eq. intros i. rewrite list_lookup_imap. destruct (l !! i) as [t|] eqn:Ht; [|done]. simpl.
    f_equal. apply term_of_row. rewrite Forall_lookup in Hwf. by eapply Hwf.
Qed.

Section laws.
#[local] Set Default Proof Using "Type*".
Variable decode_error : string → str.

Lemma register_xorb_reads info chunks : meta_reads (sq_register_xorb info chunks) (λ _ _, True).
Proof.
  intros s. eapply wps_mono.
  - apply (wps_in_tx _ _ _ _ (λ _ d, t_frames d = t_frames (database s) ∧ t_terms d = t_terms (database s) ∧
      t_files d = t_files (database s))).
    intros s1 Hd _. wsteps. apply wps_exec; [done|].
    eapply wps_mono; [apply (for_each_exec _ (λ b d, set_chunks (insert_ignore_all _ (t_chunks d)) d) _ _ (λ _ _, True)); done| |done].
    intros u s2 [-> _]. cbn [database set_database]. rewrite Hd.
    set (d0 := set_xorbs _ _). change (t_frames (database s)) with (t_frames d0).
    change (t_terms (database s)) with (t_terms d0). change (t_files (database s)) with (t_files d0).
    generalize (chunks_of CHUNK_INSERT_BATCH chunks) as bs. generalize d0. clear.
    intros d bs. revert d. induction bs as [|b bs IH]; intros d; simpl; [by split_and!|].
    match goal with |- context [foldl _ ?d' bs] => apply (IH d') end.
  - intros u s' (?&?&?). split; [by apply same_database|done].
  - intros e s' Hd. apply same_database; by rewrite Hd.
Qed.

Lemma layouts_reads xs : meta_reads (sq_xorb_frame_layouts decode_error xs) (λ s m, ∀ x, x ∈ xs →
  m !! x = match meta_layout s x with [] => None | l => Some l end).
Proof.
  unfold sq_xorb_frame_layouts. destruct xs as [|x xs]; [intros s; split; [done|set_solver]|].
  apply reads_query; [done|]. intros s s' Hd rows [= <-]. apply wps_lift_same.
  destruct (group_frames_spec decode_error (database s) (dedup_sorted_xorbs (x :: xs)) ∅) as (m & -> & Hm);
    [apply dedup_sorted_xorbs_nodup|intros; apply lookup_empty|].
  intros y Hy. rewrite Hm, decide_True by by apply dedup_sorted_xorbs_elem. done.
Qed.

Lemma layout_reads x : meta_reads (sq_xorb_frame_layout decode_error x) (λ s l, l = meta_layout s x).
Proof.
  apply reads_query; [done|]. intros s s' Hd rows [= <-]. apply wps_lift_same.
  by rewrite (decode_all_fmap _ frame_columns frame_of).
Qed.

Lemma offsets_reads x : meta_reads (sq_xorb_chunk_offsets decode_error x) (λ _ l,
  Forall (λ c, is_u32 (co_byte_start c) ∧ is_u32 (co_unpacked_segment_bytes c)) l).
Proof.
  apply reads_query; [done|]. intros s s' _ rows [= <-]. apply wps_lift_same. apply wp_decode_all.
  intros r (p & -> & _)%list_elem_of_fmap. unfold row_to_chunk_offset, chunk_columns, get_hash, get_blob, get_u32, get_i64.
  simpl. rewrite blob_to_hash_to_blob. simpl. auto using as_u32_range.
Qed.

Variable choose : ∀ A : Type, list A → option A.
Hypothesis choose_spec : ∀ A (l : list A),
  match choose _ l with Some x => x ∈ l | None => l = [] end.

Lemma lookup_reads h : meta_reads (sq_lookup_file decode_error choose h) (λ s r,
  r = match meta_terms s h with [] => None | l => Some l end).
Proof.
  apply reads_query; [done|]. intros s s' Hd rows [= <-].
  simpl. unfold terms_at. destruct (ordered_rows (t_terms (database s)) h) as [|p ps] eqn:Hr; [done|].
  rewrite <-Hr. destruct (term_columns <$> ordered_rows _ _) eqn:Hc; [by rewrite Hr in Hc|]. rewrite <-Hc. clear Hc.
  rewrite (decode_all_fmap _ term_columns term_of) by (intros; apply row_to_file_term_of). rewrite Hr.
  wsteps. cbn [wp]. refine (reads_query _ _ _ (λ _ r, r = Some (term_of p :: fmap (M:=list) term_of ps)) _ _ s'); [intros d; exact I|].
  intros s2 s3 _ rec _. destruct rec as [t|]; [|done]. wsteps. unfold nonneg_i64_to_u64.
  destruct (t <? 0); simpl; [done|]. by case_match.
Qed.

Lemma near_reads c n : meta_reads (sq_xorbs_near_chunk decode_error choose c n) (λ _ l, Forall wf_xorb_info l).
Proof.
  apply reads_query; [done|]. intros s s' _ r _. destruct r as [x|]; [|split; [done|constructor]].
  wsteps. rewrite blob_to_hash_to_blob. cbn [wp].
  refine (reads_query _ _ _ (λ _ l, Forall wf_xorb_info l) _ _ s'); [intros d; by case_match|].
  intros s2 s3 _ row Hrow. destruct (t_xorbs (database s2) !! _) as [xr|]; [|done]. injection Hrow as <-.
  unfold row_to_xorb_info, xorb_columns, get_u32, get_i64. simpl. wsteps. simpl. split; [done|].
  apply Forall_take. constructor; [|constructor]. unfold wf_xorb_info. simpl. auto using as_u32_range.
Qed.


Lemma register_files_view repo fs s :
  Forall (λ p, Forall wf_term p.2) fs →
  wps (sq_register_files choose repo fs) s (λ _ s', files_registered repo fs s s') (λ _ s', meta_same s s').
Proof. intros Hwf. apply (registered_view (now_unix (clock s))); [done|]. apply (register_files_wps choose choose_spec). Qed.

Lemma quota_reads o : meta_reads (sq_get_owner_quota o) (λ _ _, True).
Proof.
  apply reads_query; [done|]. intros s s' _ r _. destruct r as [n|]; [|done].
  wsteps. unfold nonneg_i64_to_u64. by destruct (n <? 0).
Qed.

Lemma set_quota_reads o q : meta_reads (sq_set_owner_quota o q) (λ _ _, True).
Proof.
  intros s. unfold sq_set_owner_quota.
  destruct q; (apply wps_exec; [intros e; by apply same_database|]; split; [by apply same_database|done]).
Qed.

Lemma unaccounted_reads o xs : meta_reads (sq_unaccounted_xorb_bytes_for_owner o xs) (λ _ n, 0 ≤ n).
Proof. destruct xs; [by intros s|apply reads_aggregate]. Qed.

#[local] Instance sqlite_ops : MetadataStore store := SqliteMetadataStore_ops decode_error choose.

Lemma sqlite_spec : MetadataStoreSpec store.
Proof.
  split.
  - intros s x. apply Forall_fmap, Forall_true. intros p. unfold wf_frame_row. simpl. auto using as_u32_range.
  - intros s h. apply Forall_fmap, Forall_true. intros p. unfold wf_term. simpl. auto using as_u32_range.
  - apply register_xorb_reads.
  - apply register_layout_law.
  - apply layout_reads.
  - intros x s Hs. cbn. by rewrite xorb_frame_layout_no_fault.
  - apply layouts_reads.
  - intros x. by apply reads_query_last.
  - apply lookup_reads.
  - intros h r. by apply reads_query_last.
  - apply near_reads.
  - apply offsets_reads.
  - intros o. apply reads_aggregate.
  - intros o. apply reads_aggregate.
  - apply quota_reads.
  - apply set_quota_reads.
  - apply unaccounted_reads.
  - intros r. apply reads_aggregate.
  - intros r. apply reads_aggregate.
  - intros r. apply reads_aggregate.
  - apply register_files_view.
Qed.

(** C16. The SQLite store implements what a metadata store promises: a layout or
    a term list is readable as registered, first registration wins, a failing
    call changes nothing that can be read, reads change nothing, an answer is
    within its width, and no call panics. *)
Theorem sqlite_refines_spec : MetadataStoreSpec store.
Proof. exact sqlite_spec. Qed.
End laws.

Lemma sqlite_refines_spec_witness :
  @MetadataStoreSpec store (SqliteMetadataStore_ops no_column first_row) store_view.
Proof. exact (sqlite_refines_spec no_column first_row first_row_spec). Defined.
