(* ===== verification/Postgres.v ===== *)
(** * The PostgreSQL metadata store ([crates/bale-server-meta-postgres])

    The methods of [MetadataStore] statement by statement, over the tables of
    [Db].  A registering transaction is a resumption ([tx]): the statements it
    sends, one at a time, each followed by what the code does with the answer.
    [run_tx] executes it alone; [PostgresTx] interleaves it with others. *)

From stdpp Require Import gmap sorting.
From S2P Require Import Prelude RustStd Core MetaCommon Db Sqlite.

(** ** The statements of a registering transaction *)

Inductive tx (A : Type) : Type :=
| Done (a : A)
| Now (k : Z → tx A)
| UpsertFile (file_hash : FileHash) (repo_id : str) (r : file_rec) (k : tx A)
| AdvisoryLock (key : Z) (k : tx A)
| ProbeTerms (file_hash : FileHash) (k : bool → tx A)
| InsertTerms (batch : list (FileHash * Z * term_rec)) (k : tx A).
Arguments Done {A}.
Arguments Now {A}.
Arguments UpsertFile {A}.
Arguments AdvisoryLock {A}.
Arguments ProbeTerms {A}.
Arguments InsertTerms {A}.

Fixpoint tx_bind_go {A B} (f : A → tx B) (t : tx A) : tx B :=
  match t with
  | Done a => f a
  | Now k => Now (λ n, tx_bind_go f (k n))
  | UpsertFile h r row k => UpsertFile h r row (tx_bind_go f k)
  | AdvisoryLock key k => AdvisoryLock key (tx_bind_go f k)
  | ProbeTerms h k => ProbeTerms h (λ b, tx_bind_go f (k b))
  | InsertTerms b k => InsertTerms b (tx_bind_go f k)
  end.
#[global] Instance tx_ret : MRet tx := λ A a, Done a.
#[global] Instance tx_bind : MBind tx := λ A B f t, tx_bind_go f t.

Fixpoint tx_each {A} (f : A → tx unit) (l : list A) : tx unit :=
  match l with [] => mret tt | x :: l => _ ← f x; tx_each f l end.

(** [hash_to_blob(h).get(..8)], read as an [i64]; [0] if there are no 8 bytes. *)
Definition lock_key (h : FileHash) : Z :=
  let b := hash_to_blob (unwrap h) in
  if (length b <? 8)%nat then 0 else as_i64 (of_le (take 8 b)).

Definition pg_write_file_in_tx (file_hash : FileHash) (repo : RepoRef) (terms : list FileTerm) : tx unit :=
  now ← Now Done;
  _ ← UpsertFile file_hash (repo_id repo) (file_row now repo terms) (Done tt);
  _ ← AdvisoryLock (lock_key file_hash) (Done tt);
  terms_exist ← ProbeTerms file_hash Done;
  if terms_exist : bool then mret tt
  else tx_each (λ batch, InsertTerms batch (Done tt))
         (chunks_of CHUNK_INSERT_BATCH (indexed_terms file_hash terms)).

Section postgres.
Variable decode_error : string → str.
Variable choose : ∀ A : Type, list A → option A.

(** A transaction that has the tables for itself. *)
Fixpoint run_tx {A} (t : tx A) : M A :=
  match t with
  | Done a => mret a
  | Now k => now ← gets (λ s, now_unix (clock s)); run_tx (k now)
  | UpsertFile h r row k =>
      _ ← exec "insert file: " (λ d, set_files (<[(h, r) := row]> (t_files d)) d); run_tx k
  | AdvisoryLock key k => _ ← exec "advisory lock: " (λ d, d); run_tx k
  | ProbeTerms h k =>
      probe ← query "probe existing terms: " (λ d, Ok (choose _ (rows_of (t_terms d) h)));
      run_tx (k (bool_decide (is_Some probe)))
  | InsertTerms batch k =>
      _ ← exec "insert terms: " (λ d, set_terms (insert_ignore_all batch (t_terms d)) d); run_tx k
  end.

(** ** Registration *)

Definition pg_register_xorb (xorb : XorbInfo) (chunks : list ChunkRow) : M unit :=
  in_tx "begin: " "commit: " (
    now ← gets (λ s, now_unix (clock s));
    _ ← exec "insert xorb: " (λ d,
          set_xorbs (insert_ignore (xi_xorb xorb) (xorb_row now xorb) (t_xorbs d)) d);
    for_each (λ batch, exec "insert chunks: " (λ d,
      set_chunks (insert_ignore_all ((λ c, ((cr_chunk_hash c, xi_xorb xorb),
        mkChunkRec (cr_chunk_index c) (cr_byte_start c) (cr_unpacked_segment_bytes c))) <$> batch)
        (t_chunks d)) d))
      (chunks_of CHUNK_INSERT_BATCH chunks)).

Definition pg_register_file (file_hash : FileHash) (repo : RepoRef) (terms : list FileTerm) : M unit :=
  in_tx "begin: " "commit: " (run_tx (pg_write_file_in_tx file_hash repo terms)).

Definition pg_register_files (repo : RepoRef) (files : list (FileHash * list FileTerm)) : M unit :=
  match files with
  | [] => mret tt
  | _ => in_tx "begin: " "commit: "
           (for_each (λ p, run_tx (pg_write_file_in_tx p.1 repo p.2)) files)
  end.

Definition pg_register_xorb_layout (xorb : XorbHash) (frames : list XorbFrameRow) : M unit :=
  match frames with
  | [] => mret tt
  | _ => in_tx "begin: " "commit frames: "
           (for_each (λ batch, exec "insert frames: " (λ d,
              set_frames (insert_ignore_all (frame_entry xorb <$> batch) (t_frames d)) d))
              (chunks_of CHUNK_INSERT_BATCH frames))
  end.

(** ** Lookups *)

Definition pg_xorb_exists (xorb : XorbHash) : M bool :=
  query "select xorb: " (λ d, Ok (bool_decide (is_Some (t_xorbs d !! xorb)))).

Definition pg_file_in_repo (file_hash : FileHash) (repo_id : str) : M bool :=
  query "select file_in_repo: " (λ d, Ok (bool_decide (is_Some (t_files d !! (file_hash, repo_id))))).

Definition pg_lookup_file (file_hash : FileHash) : M (option (list FileTerm)) :=
  rows ← query "select terms: " (λ d, Ok (term_columns <$> ordered_rows (t_terms d) file_hash));
  match rows with
  | [] => mret None
  | _ =>
      terms ← lift (decode_all (row_to_file_term decode_error) rows);
      let term_sum := terms_total terms in
      recorded ← query "select file size: " (λ d, Ok (recorded_size choose d file_hash));
      match recorded with
      | Some total =>
          total ← lift (nonneg_i64_to_u64 total "files.total_bytes");
          if negb (term_sum =? total) then throw (inconsistent_terms term_sum total)
          else mret (Some terms)
      | None => mret (Some terms)
      end
  end.

Definition pg_xorb_frame_layout (xorb : XorbHash) : M (list XorbFrameRow) :=
  rows ← query "select frames: " (λ d, Ok (frame_columns <$> ordered_rows (t_frames d) xorb));
  lift (decode_all (row_to_frame decode_error) rows).

Definition pg_xorb_frame_layouts (xorbs : list XorbHash) : M (gmap XorbHash (list XorbFrameRow)) :=
  match xorbs with
  | [] => mret ∅
  | _ =>
      let uniq := dedup_sorted_xorbs xorbs in
      rows ← query "select frame layouts: " (λ d,
        Ok (uniq ≫= λ x, (λ p, (x, frame_columns p)) <$> ordered_rows (t_frames d) x));
      lift (group_frames decode_error rows ∅)
  end.

Definition pg_xorbs_near_chunk (chunk_hash : ChunkHash) (limit : nat) : M (list XorbInfo) :=
  r ← query "near: " (λ d, Ok (choose _ (omap (λ p, if decide (p.1.1 = chunk_hash) then Some (p.1.2)
        else None) (map_to_list (t_chunks d)))));
  match r with
  | None => mret []
  | Some x =>
      xorb ← lift (blob_to_hash (hash_to_blob (unwrap x)));
      let xorb : XorbHash := newtype xorb in
      r ← query "xorb meta: " (λ d, match t_xorbs d !! xorb with
            | Some x => Ok (xorb_columns x)
            | None => Err (lit "no rows returned by a query that expected to return at least one row")
            end);
      info ← lift (row_to_xorb_info decode_error r xorb);
      mret (take limit [info])
  end.

Definition pg_xorb_chunk_offsets (xorb : XorbHash) : M (list ChunkOffsetRow) :=
  rows ← query "xorb offsets: " (λ d, Ok (chunk_columns <$> merge_sort chunk_index_le
    (omap (λ p, if decide (p.1.2 = xorb) then Some (p.1.1, p.2) else None) (map_to_list (t_chunks d)))));
  lift (decode_all (row_to_chunk_offset decode_error) rows).

(** ** Accounting *)

(** [COALESCE(SUM(c), 0)::BIGINT]: the sum is a [numeric]; the cast fails
    outside of 64 bits. *)
Definition sum_bigint (l : list Z) : outcome str Z :=
  let s := sumZ l in
  if (- 2 ^ 63 <=? s) && (s <? 2 ^ 63) then Ok s else Err (lit "bigint out of range").

Definition pg_aggregate (msg label : string) (f : db → list Z) : M Z :=
  n ← query msg (λ d, sum_bigint (f d));
  lift (nonneg_i64_to_u64 n label).

Definition pg_raw_bytes_for_owner (owner : str) : M Z :=
  pg_aggregate "raw_bytes_for_owner: " "raw_bytes_for_owner" (λ d, totals_where d (owned_by owner)).

Definition pg_stored_bytes_for_owner (owner : str) : M Z :=
  pg_aggregate "stored_bytes_for_owner: " "stored_bytes_for_owner" (λ d,
    on_disk_where d (λ x, bool_decide (x ∈ referenced d (owned_by owner)))).

Definition pg_get_owner_quota (owner : str) : M (option Z) :=
  r ← query "get_owner_quota: " (λ d, Ok (t_quotas d !! owner));
  match r with
  | None => mret None
  | Some n => n ← lift (nonneg_i64_to_u64 n "get_owner_quota"); mret (Some n)
  end.

Definition pg_set_owner_quota (owner : str) (limit_bytes : option Z) : M unit :=
  match limit_bytes with
  | Some n => exec "set_owner_quota: " (λ d, set_quotas (<[owner := as_i64 n]> (t_quotas d)) d)
  | None => exec "clear_owner_quota: " (λ d, set_quotas (delete owner (t_quotas d)) d)
  end.

Definition pg_raw_bytes_for_repo (repo_id : str) : M Z :=
  pg_aggregate "raw_bytes_for_repo: " "raw_bytes_for_repo" (λ d, totals_where d (in_repo repo_id)).

Definition pg_stored_bytes_for_repo (repo_id : str) : M Z :=
  pg_aggregate "stored_bytes_for_repo: " "stored_bytes_for_repo" (λ d,
    on_disk_where d (λ x, bool_decide (x ∈ referenced d (in_repo repo_id)))).

Definition pg_exclusive_stored_bytes_for_repo (repo_id : str) : M Z :=
  let owner := owner_of_id repo_id in
  pg_aggregate "exclusive_stored_bytes_for_repo: " "exclusive_stored_bytes_for_repo" (λ d,
    on_disk_where d (λ x, bool_decide (x ∈ referenced d (in_repo repo_id)) &&
      negb (bool_decide (x ∈ referenced d (sibling_of repo_id owner))))).

Definition pg_unaccounted_xorb_bytes_for_owner (owner : str) (candidates : list XorbHash) : M Z :=
  match candidates with
  | [] => mret 0
  | _ =>
      let uniq := dedup_sorted_xorbs candidates in
      pg_aggregate "unaccounted_xorb_bytes: " "unaccounted_xorb_bytes_for_owner" (λ d,
        on_disk_where d (λ x, bool_decide (x ∈ uniq) &&
          negb (bool_decide (x ∈ referenced d (owned_by owner)))))
  end.

Definition PostgresMetadataStore_ops : MetadataStore store := {|
  register_xorb := pg_register_xorb;
  register_file := pg_register_file;
  register_files := pg_register_files;
  register_xorb_layout := pg_register_xorb_layout;
  xorb_frame_layout := pg_xorb_frame_layout;
  xorb_frame_layouts := pg_xorb_frame_layouts;
  meta_xorb_exists := pg_xorb_exists;
  lookup_file := pg_lookup_file;
  file_in_repo := pg_file_in_repo;
  xorbs_near_chunk := pg_xorbs_near_chunk;
  xorb_chunk_offsets := pg_xorb_chunk_offsets;
  raw_bytes_for_owner := pg_raw_bytes_for_owner;
  stored_bytes_for_owner := pg_stored_bytes_for_owner;
  get_owner_quota := pg_get_owner_quota;
  set_owner_quota := pg_set_owner_quota;
  unaccounted_xorb_bytes_for_owner := pg_unaccounted_xorb_bytes_for_owner;
  raw_bytes_for_repo := pg_raw_bytes_for_repo;
  stored_bytes_for_repo := pg_stored_bytes_for_repo;
  exclusive_stored_bytes_for_repo := pg_exclusive_stored_bytes_for_repo;
|}.
End postgres.
