(* ===== verification/PostgresSpec.v ===== *)
(** * The PostgreSQL store keeps the promises of a metadata store

    A transaction that has the tables for itself has the same effect on them
    as the SQLite one; the reading methods answer alike. *)

From stdpp Require Import gmap sorting.
From S2P Require Import Prelude RustStd Core MetaCommon Db Sqlite Accounting MetaSpec SqliteSpec Postgres.

Section registration.
#[local] Set Default Proof Using "Type*".
Variable choose : ∀ A : Type, list A → option A.
Hypothesis choose_spec : ∀ A (l : list A),
  match choose _ l with Some x => x ∈ l | None => l = [] end.

(** Several inserts of one transaction are a loop over the batches. *)
Lemma run_tx_each bs s :
  run_tx choose (tx_each (λ b, InsertTerms b (Done tt)) bs) s
  = for_each (λ b, exec "insert terms: " (λ d, set_terms (insert_ignore_all b (t_terms d)) d)) bs s.
Proof.
  revert s. induction bs as [|b bs IH]; intros s; [done|]. cbn. unfold mbind, ST_bind.
  destruct (exec _ _ s) as [[?|?| |] s']; [|done..]. apply IH.
Qed.

Lemma pg_write_file_wps h repo terms s :
  wps (run_tx choose (pg_write_file_in_tx h repo terms)) s
    (λ _ s', database s' = write_file_db (now_unix (clock s)) repo (database s) (h, terms) ∧
             clock s' = clock s)
    (λ _ _, True).
Proof.
  cbn. wsteps. apply wps_exec; [done|]. wsteps. apply wps_exec; [done|]. wsteps.
  apply wps_query; [done|]. cbn [wp].
  unfold write_file_db. simpl. pose proof (choose_spec _ (rows_of (t_terms (database s)) h)) as Hc.
  destruct (choose _ _) as [x|].
  - rewrite bool_decide_true by eauto. cbn. wsteps. destruct (rows_of _ _); [set_solver|done].
  - rewrite bool_decide_false by by intros [? [=]]. rewrite Hc. cbv beta iota.
    unfold wps. rewrite run_tx_each. apply (wps_mono _ _ _ _ _ _ (for_each_exec _
      (λ b d, set_terms (insert_ignore_all b (t_terms d)) d) _ _ (λ _ _, True) (λ _ _, I))); [|done].
    intros u s' [Hd Hck]. split; [|done]. rewrite Hd, foldl_set_terms.
    by rewrite insert_batches by (unfold CHUNK_INSERT_BATCH; lia).
Qed.

Lemma pg_write_files_wps repo files s now :
  now_unix (clock s) = now →
  wps (for_each (λ p, run_tx choose (pg_write_file_in_tx p.1 repo p.2)) files) s
    (λ _ s', database s' = foldl (write_file_db now repo) (database s) files) (λ _ _, True).
Proof.
  revert s. induction files as [|[h terms] files IH]; intros s Hnow; cbn [for_each foldl]; [done|].
  apply wps_bind. eapply wps_mono; [apply pg_write_file_wps| |done]. intros u s' [Hd Hc]. simpl in Hd.
  rewrite Hnow in Hd. rewrite <-Hd. apply IH. by rewrite Hc.
Qed.

Lemma pg_register_files_wps repo files s :
  wps (pg_register_files choose repo files) s
    (λ _ s', database s' = foldl (write_file_db (now_unix (clock s)) repo) (database s) files)
    (λ _ s', database s' = database s).
Proof.
  unfold pg_register_files. destruct files as [|p files]; [done|].
  apply (wps_in_tx _ _ _ _ (λ _ d, d = _)). intros s1 Hd Hc. rewrite <-Hd.
  apply pg_write_files_wps. by rewrite Hc.
Qed.
End registration.

(** ** The promises *)

Lemma reads_pg_aggregate msg label f : meta_reads (pg_aggregate msg label f) (λ _ n, 0 ≤ n).
Proof.
  unfold pg_aggregate. apply reads_query.
  - intros d. unfold sum_bigint. by case_match.
  - intros s s' _ a _. apply wps_lift_same. unfold nonneg_i64_to_u64.
    destruct (Z.ltb_spec a 0); simpl; done.
Qed.

Section laws.
#[local] Set Default Proof Using "Type*".
Variable decode_error : string → str.
Variable choose : ∀ A : Type, list A → option A.
Hypothesis choose_spec : ∀ A (l : list A),
  match choose _ l with Some x => x ∈ l | None => l = [] end.

#[local] Instance postgres_ops : MetadataStore store := PostgresMetadataStore_ops decode_error choose.

Lemma pg_unaccounted_reads o xs : meta_reads (pg_unaccounted_xorb_bytes_for_owner o xs) (λ _ n, 0 ≤ n).
Proof. destruct xs; [by intros s|apply reads_pg_aggregate]. Qed.

Lemma postgres_spec : MetadataStoreSpec store.
Proof.
  split.
  - intros s x. apply Forall_fmap, Forall_true. intros p. unfold wf_frame_row. simpl. auto using as_u32_range.
  - intros s h. apply Forall_fmap, Forall_true. intros p. unfold wf_term. simpl. auto using as_u32_range.
  - apply register_xorb_reads.
  - apply register_layout_law.
  - apply layout_reads.
  - intros x s Hs. exact (@xorb_frame_layout_live _ _ _ (sqlite_spec decode_error choose choose_spec) x s Hs).
  - apply layouts_reads.
  - intros x. by apply reads_query_last.
  - apply (lookup_reads decode_error choose choose_spec).
  - intros h r. by apply reads_query_last.
  - by apply near_reads.
  - apply offsets_reads.
  - intros o. apply reads_pg_aggregate.
  - intros o. apply reads_pg_aggregate.
  - apply quota_reads.
  - apply set_quota_reads.
  - apply pg_unaccounted_reads.
  - intros r. apply reads_pg_aggregate.
  - intros r. apply reads_pg_aggregate.
  - intros r. apply reads_pg_aggregate.
  - intros repo fs s Hwf. apply (registered_view (now_unix (clock s))); [done|].
    by apply (pg_register_files_wps choose choose_spec).
Qed.

(** C17. The PostgreSQL store implements what a metadata store promises, so that
    the server's theorems hold over it: a layout or a term list is readable as
    registered, first registration wins, a failing statement rolls the
    transaction back, reads change nothing, and no call panics. *)
Theorem postgres_refines_spec : MetadataStoreSpec store.
Proof. exact postgres_spec. Qed.
End laws.

Lemma postgres_refines_spec_witness :
  @MetadataStoreSpec store (PostgresMetadataStore_ops no_column first_row) store_view.
Proof. exact (postgres_refines_spec no_column first_row first_row_spec). Defined.
