(* ===== verification/PostgresTx.v ===== *)
(** * Concurrent registrations in the PostgreSQL store

    Transactions at [READ COMMITTED]: a statement sees what is committed and
    what its own transaction wrote; a statement that would write a row another
    transaction has written, or take a lock another holds, waits; a commit
    publishes the rows and releases the locks, a failure drops both.  The code
    of the transactions is [pg_write_file_in_tx] itself. *)

From stdpp Require Import gmap sorting.
From S2P Require Import Prelude RustStd Core MetaCommon Db Sqlite Postgres.

(** ** Sessions *)

(** What a transaction holds: the rows it wrote and its advisory locks. *)
Record local := mkLocal {
  l_files : gmap (FileHash * str) file_rec;
  l_terms : gmap (FileHash * Z) term_rec;
  l_locks : gset Z;
}.
Definition no_writes : local := mkLocal ∅ ∅ ∅.

(** [INSERT ... ON CONFLICT DO NOTHING] of one row, against the visible rows. *)
Definition put_term (d : db) (own : gmap (FileHash * Z) term_rec) (p : FileHash * Z * term_rec) :=
  match (own ∪ t_terms d) !! p.1 with Some _ => own | None => <[p.1 := p.2]> own end.
Definition put_terms (d : db) (batch : list (FileHash * Z * term_rec)) own := foldl (put_term d) own batch.

Definition put_file h r row (l : local) := mkLocal (<[(h, r) := row]> (l_files l)) (l_terms l) (l_locks l).
Definition put_lock key (l : local) := mkLocal (l_files l) (l_terms l) ({[key]} ∪ l_locks l).
Definition put_batch d b (l : local) := mkLocal (l_files l) (put_terms d b (l_terms l)) (l_locks l).

(** [terms_exist]: some row of the file is visible. *)
Definition sees_terms (d : db) (l : local) (h : FileHash) : bool :=
  negb (bool_decide (rows_of (l_terms l ∪ t_terms d) h = [])).

Definition publish (l : local) (d : db) : db :=
  set_terms (l_terms l ∪ t_terms d) (set_files (l_files l ∪ t_files d) d).

(** The next statement waits for another transaction. *)
Definition blocked {A} (others : list local) (t : tx A) : bool :=
  match t with
  | UpsertFile h r _ _ => existsb (λ o, bool_decide (is_Some (l_files o !! (h, r)))) others
  | AdvisoryLock key _ => existsb (λ o, bool_decide (key ∈ l_locks o)) others
  | InsertTerms b _ => existsb (λ o, existsb (λ p, bool_decide (is_Some (l_terms o !! p.1))) b) others
  | _ => false
  end.

(** The next statement, executed at the time [now] over what is committed. *)
Definition advance {A} (now : Z) (d : db) (t : tx A) (l : local) : option (tx A * local) :=
  match t with
  | Done _ => None
  | Now k => Some (k now, l)
  | UpsertFile h r row k => Some (k, put_file h r row l)
  | AdvisoryLock key k => Some (k, put_lock key l)
  | ProbeTerms h k => Some (k (sees_terms d l h), l)
  | InsertTerms b k => Some (k, put_batch d b l)
  end.

(** ** The cluster *)

Inductive call :=
| RegisterFile (file_hash : FileHash) (repo : RepoRef) (terms : list FileTerm)
| RegisterFiles (repo : RepoRef) (files : list (FileHash * list FileTerm)).

Definition body (c : call) : tx unit :=
  match c with
  | RegisterFile h repo terms => pg_write_file_in_tx h repo terms
  | RegisterFiles repo files => tx_each (λ p, pg_write_file_in_tx p.1 repo p.2) files
  end.

Definition call_files (c : call) : list (RepoRef * (FileHash * list FileTerm)) :=
  match c with
  | RegisterFile h repo terms => [(repo, (h, terms))]
  | RegisterFiles repo files => pair repo <$> files
  end.

Record session := mkSession { s_call : call; s_rest : tx unit; s_local : local }.
Record cluster := mkCluster { committed : db; sessions : gmap nat session }.

Definition others (c : cluster) (i : nat) : list local :=
  (s_local ∘ snd) <$> map_to_list (delete i (sessions c)).

(** The steps of the cluster; a commit is labelled with its call. *)
Inductive step (c : cluster) : option call → cluster → Prop :=
| step_begin i cl :
    sessions c !! i = None →
    step c None (mkCluster (committed c) (<[i := mkSession cl (body cl) no_writes]> (sessions c)))
| step_run i s now rest l :
    sessions c !! i = Some s → blocked (others c i) (s_rest s) = false →
    advance now (committed c) (s_rest s) (s_local s) = Some (rest, l) →
    step c None (mkCluster (committed c) (<[i := mkSession (s_call s) rest l]> (sessions c)))
| step_fail i :
    step c None (mkCluster (committed c) (delete i (sessions c)))
| step_commit i s :
    sessions c !! i = Some s → s_rest s = Done tt →
    step c (Some (s_call s)) (mkCluster (publish (s_local s) (committed c)) (delete i (sessions c)))
| step_elsewhere d :
    t_files d = t_files (committed c) → t_terms d = t_terms (committed c) →
    step c None (mkCluster d (sessions c)).

(** A run, with the calls that committed in their order. *)
Inductive runs : cluster → list call → cluster → Prop :=
| runs_nil c : runs c [] c
| runs_step c o c1 cls c2 : step c o c1 → runs c1 cls c2 → runs c (option_list o ++ cls) c2.

(** ** The serial execution *)

(** Registrations one after another, each at its own time. *)
Definition write := (Z * (RepoRef * (FileHash * list FileTerm)))%type.
Definition replay (d : db) (w : list write) : db :=
  foldl (λ d x, write_file_db x.1 x.2.1 d x.2.2) d w.

(** What other transactions leave alone while the locks are held. *)
Definition agree (locks : gset Z) (d d' : db) : Prop :=
  ∀ h i, lock_key h ∈ locks → t_terms d !! (h, i) = t_terms d' !! (h, i).

(** The rest of a transaction ends in [Q], whatever the others commit in between. *)
Fixpoint safe {A} (t : tx A) (Q : A → local → db → Prop) (l : local) (d : db) : Prop :=
  ∀ d', agree (l_locks l) d d' →
  match t with
  | Done a => Q a l d'
  | Now k => ∀ now, safe (k now) Q l d'
  | UpsertFile h r row k => safe k Q (put_file h r row l) d'
  | AdvisoryLock key k => safe k Q (put_lock key l) d'
  | ProbeTerms h k => safe (k (sees_terms d' l h)) Q l d'
  | InsertTerms b k => safe k Q (put_batch d' b l) d'
  end.

(** The transaction has written what the registrations [w] write. *)
Definition wrote (w : list write) (l : local) (d : db) : Prop :=
  (∀ d', agree (l_locks l) d d' →
     t_files (replay d' w) = l_files l ∪ t_files d' ∧ t_terms (replay d' w) = l_terms l ∪ t_terms d') ∧
  ∀ h i, is_Some (l_terms l !! (h, i)) → lock_key h ∈ l_locks l.

Lemma agree_trans L d1 d2 d3 : agree L d1 d2 → agree L d2 d3 → agree L d1 d3.
Proof. intros H1 H2 h i Hh. by rewrite (H1 h i Hh), (H2 h i Hh). Qed.
Lemma agree_refl L d : agree L d d.
Proof. by intros h i _. Qed.
Lemma agree_sub L L' d d' : L' ⊆ L → agree L d d' → agree L' d d'.
Proof. intros Hs H h i Hh. apply H. set_solver. Qed.

#[local] Hint Resolve agree_trans agree_refl : core.

Lemma safe_agree {A} (t : tx A) Q l d d' : agree (l_locks l) d d' → safe t Q l d → safe t Q l d'.
Proof. destruct t; simpl; eauto. Qed.

Lemma tx_safe_bind {A B} (t : tx A) (f : A → tx B) Q l d :
  safe t (λ a l d, safe (f a) Q l d) l d → safe (t ≫= f) Q l d.
Proof.
  revert l d. induction t; intros l d Ht; simpl in Ht |- *; try (intros d' Hd; eauto; fail).
  by apply Ht.
Qed.

Lemma tx_safe_mono {A} (t : tx A) (Q Q' : A → local → db → Prop) l d :
  (∀ a l d, Q a l d → Q' a l d) → safe t Q l d → safe t Q' l d.
Proof. intros HQ. revert l d. induction t; intros l d Ht; simpl in *; eauto. Qed.

(** ** One file *)

Lemma put_term_visible d own p :
  put_term d own p ∪ t_terms d = insert_ignore p.1 p.2 (own ∪ t_terms d).
Proof.
  unfold put_term, insert_ignore. destruct ((own ∪ t_terms d) !! p.1); [done|].
  by rewrite insert_union_l.
Qed.

Lemma put_terms_visible d b own :
  put_terms d b own ∪ t_terms d = insert_ignore_all b (own ∪ t_terms d).
Proof.
  revert own. induction b as [|p b IH]; intros own; [done|].
  change (put_terms d (p :: b) own) with (put_terms d b (put_term d own p)).
  rewrite IH, put_term_visible. by destruct p.
Qed.

Lemma put_terms_agree L d d' b own :
  agree L d d' → (∀ p, p ∈ b → lock_key p.1.1 ∈ L) → put_terms d b own = put_terms d' b own.
Proof.
  intros Hd. revert own. induction b as [|p b IH]; intros own Hb; [done|]. simpl.
  assert (Hp : put_term d own p = put_term d' own p).
  { unfold put_term. destruct p as [[h i] r]. cbn [fst snd]. rewrite !lookup_union.
    rewrite (Hd h i) by (apply (Hb ((h, i), r)); left). done. }
  rewrite Hp. apply IH. intros q Hq. apply Hb. by right.
Qed.

Lemma put_terms_keys d b own (k : FileHash * Z) :
  is_Some (put_terms d b own !! k) → is_Some (own !! k) ∨ k ∈ b.*1.
Proof.
  revert own. induction b as [|p b IH]; intros own Hk; [by left|]. simpl in *.
  apply IH in Hk as [Hk|Hk]; [|set_solver]. unfold put_term in Hk.
  destruct (_ !! p.1); [by left|]. apply lookup_insert_is_Some in Hk. set_solver.
Qed.

Lemma rows_of_ext (m m' : gmap (FileHash * Z) term_rec) h :
  (∀ i, m !! (h, i) = m' !! (h, i)) → (rows_of m h = [] ↔ rows_of m' h = []).
Proof.
  intros Hm. assert (Hin : ∀ p, p ∈ rows_of m h ↔ p ∈ rows_of m' h).
  { intros [i r]. by rewrite !elem_of_rows_of, Hm. }
  split; intros Hr; rewrite Hr in Hin; [destruct (rows_of m' h) as [|p l] eqn:E|destruct (rows_of m h) as [|p l] eqn:E];
    try done; exfalso; specialize (Hin p); set_solver.
Qed.

Lemma sees_agree L d d' l h :
  agree L d d' → lock_key h ∈ L → sees_terms d l h = sees_terms d' l h.
Proof.
  intros Hd Hh. unfold sees_terms. f_equal. apply bool_decide_ext, rows_of_ext. intros i.
  rewrite !lookup_union. by rewrite (Hd h i Hh).
Qed.

Lemma registration_tables now repo d h terms :
  t_files (write_file_db now repo d (h, terms)) = <[(h, repo_id repo) := file_row now repo terms]> (t_files d) ∧
  t_terms (write_file_db now repo d (h, terms))
  = if bool_decide (rows_of (t_terms d) h = []) then insert_ignore_all (indexed_terms h terms) (t_terms d)
    else t_terms d.
Proof. unfold write_file_db. cbn [fst snd]. by destruct (rows_of (t_terms d) h). Qed.

Lemma safe_inserts bs Q l d :
  (∀ p, p ∈ concat bs → lock_key p.1.1 ∈ l_locks l) →
  (∀ d', agree (l_locks l) d d' → Q tt (put_batch d' (concat bs) l) d') →
  safe (tx_each (λ b, InsertTerms b (Done tt)) bs) Q l d.
Proof.
  revert l d. induction bs as [|b bs IH]; intros l d Hk HQ; intros d' Hd.
  { specialize (HQ d' Hd). by destruct l. }
  apply IH; [intros p Hp; apply Hk; set_solver|]. intros d'' Hd'.
  assert (Heq : put_batch d'' (concat bs) (put_batch d' b l) = put_batch d'' (concat (b :: bs)) l).
  { unfold put_batch. cbn [l_files l_terms l_locks concat]. f_equal.
    rewrite (put_terms_agree _ d' d'' b _ Hd') by (intros p Hp; apply Hk; set_solver).
    unfold put_terms. by rewrite foldl_app. }
  rewrite Heq. apply HQ. by eapply agree_trans.
Qed.

(** The state after the row of the file and the lock. *)
Definition locked (now : Z) (repo : RepoRef) (h : FileHash) (terms : list FileTerm) (l : local) : local :=
  put_lock (lock_key h) (put_file h (repo_id repo) (file_row now repo terms) l).

Lemma wrote_one now repo h terms w l d :
  wrote w l d →
  wrote (w ++ [(now, (repo, (h, terms)))])
    (if sees_terms d l h then locked now repo h terms l
     else put_batch d (indexed_terms h terms) (locked now repo h terms l)) d.
Proof.
  intros [Hw Hk]. set (l2 := if sees_terms d l h then _ else _).
  assert (HL : l_locks l2 = {[lock_key h]} ∪ l_locks l) by (unfold l2; by case_match).
  split.
  - intros d' Hd. rewrite HL in Hd. unfold replay. rewrite foldl_app. cbn [foldl fst snd].
    destruct (Hw d') as [Hf Ht]; [eapply agree_sub; [|done]; set_solver|].
    destruct (registration_tables now repo (replay d' w) h terms) as [Hf' Ht']. unfold replay in *.
    rewrite Hf', Ht', Hf, Ht. clear Hf' Ht' Hf Ht. split.
    { rewrite insert_union_l. unfold l2. by destruct (sees_terms d l h). }
    unfold l2. rewrite (sees_agree _ _ _ _ _ Hd) by set_solver. unfold sees_terms.
    case_bool_decide as Hr; simpl; [|done].
    rewrite (put_terms_agree _ _ _ _ _ Hd); [by rewrite put_terms_visible|].
    intros p Hp. assert (p.1.1 = h) as ->; [|set_solver].
    apply (indexed_terms_keys h terms). apply list_elem_of_fmap. by exists p.
  - intros k i Hi. rewrite HL. unfold l2 in Hi. destruct (sees_terms d l h); simpl in Hi.
    + apply Hk in Hi. set_solver.
    + apply put_terms_keys in Hi as [Hi|Hi]; [apply Hk in Hi; set_solver|].
      apply indexed_terms_keys in Hi. simpl in Hi. subst. set_solver.
Qed.

Lemma wrote_agree w l d d' : agree (l_locks l) d d' → wrote w l d → wrote w l d'.
Proof. intros Hd [Hw Hk]. split; [|done]. intros d'' Hd'. apply Hw. by eapply agree_trans. Qed.

Lemma safe_write repo h terms w l d (Q : unit → local → db → Prop) :
  wrote w l d →
  (∀ now l' d', wrote (w ++ [(now, (repo, (h, terms)))]) l' d' → Q tt l' d') →
  safe (pg_write_file_in_tx h repo terms) Q l d.
Proof.
  intros Hw HQ d1 H1 now d2 H2 d3 H3 d4 H4.
  set (l2 := locked now repo h terms l). change (agree (l_locks l2) d3 d4) in H4.
  assert (Hwd : ∀ d5, agree (l_locks l2) d3 d5 → wrote w l d5).
  { intros d5 H5. apply (wrote_agree _ _ d); [|done].
    apply (agree_trans _ _ d1); [done|]. apply (agree_trans _ _ d2); [done|].
    apply (agree_trans _ _ d3); [done|]. apply (agree_sub (l_locks l2)); [unfold l2; simpl; set_solver|done]. }
  change (sees_terms d4 (put_lock (lock_key h) _) h) with (sees_terms d4 l h).
  assert (Hh : lock_key h ∈ l_locks l2) by (unfold l2; simpl; set_solver).
  pose proof (λ d5 H5, wrote_one now repo h terms w l d5 (Hwd d5 H5)) as Hone.
  destruct (sees_terms d4 l h) eqn:Hs.
  - intros d5 H5. apply (HQ now). specialize (Hone d5 (agree_trans _ _ _ _ H4 H5)).
    by rewrite <-(sees_agree (l_locks l2) d4 d5 l h), Hs in Hone.
  - apply safe_inserts; rewrite concat_chunks_of by (unfold CHUNK_INSERT_BATCH; lia).
    + intros p Hp. assert (p.1.1 = h) as ->; [|done]. apply (indexed_terms_keys h terms).
      apply list_elem_of_fmap. by exists p.
    + intros d5 H5. apply (HQ now). specialize (Hone d5 (agree_trans _ _ _ _ H4 H5)).
      by rewrite <-(sees_agree (l_locks l2) d4 d5 l h), Hs in Hone.
Qed.

Lemma safe_each repo files w l d (Q : unit → local → db → Prop) :
  wrote w l d →
  (∀ v l' d', v.*2 = w.*2 ++ (pair repo <$> files) → wrote v l' d' → Q tt l' d') →
  safe (tx_each (λ p, pg_write_file_in_tx p.1 repo p.2) files) Q l d.
Proof.
  revert w l d. induction files as [|[h terms] files IH]; intros w l d Hw HQ; cbn [tx_each].
  - intros d' Hd. apply (HQ w); [by rewrite app_nil_r|by apply (wrote_agree _ _ d)].
  - apply tx_safe_bind. apply (safe_write _ _ _ w); [done|]. intros now l' d' Hw'.
    apply (IH _ _ _ Hw'). intros v l'' d'' Hv. apply HQ. by rewrite Hv, fmap_app, <-app_assoc.
Qed.

(** ** The cluster *)

Definition ends_well (cl : call) (_ : unit) (l : local) (d : db) : Prop :=
  ∃ w, w.*2 = call_files cl ∧ wrote w l d.

Lemma wrote_nothing d : wrote [] no_writes d.
Proof.
  split; [|by intros h i [? [=]]]. intros d' _. cbn [no_writes l_files l_terms replay foldl].
  by rewrite !(left_id_L ∅ _).
Qed.

Lemma safe_body cl d : safe (body cl) (ends_well cl) no_writes d.
Proof.
  destruct cl as [h repo terms|repo files]; cbn [body].
  - apply (safe_write _ _ _ []); [apply wrote_nothing|]. intros now l' d' Hw. by exists ([] ++ [(now, (repo, (h, terms)))]).
  - apply (safe_each _ _ []); [apply wrote_nothing|]. intros v l' d' Hv Hw. by exists v.
Qed.

Lemma safe_advance {A} now (t t' : tx A) Q l l' d :
  safe t Q l d → advance now d t l = Some (t', l') → safe t' Q l' d.
Proof. destruct t; simpl; intros Hs [= <- <-]; exact (Hs d (agree_refl _ _)) || exact (Hs d (agree_refl _ _) now). Qed.

Lemma advance_locks {A} now (t t' : tx A) l l' d os :
  advance now d t l = Some (t', l') → blocked os t = false →
  ∀ o, o ∈ os → l_locks l ## l_locks o → l_locks l' ## l_locks o.
Proof.
  destruct t as [|k|h r row k|key k|h k|b k]; simpl; intros [= <- <-] Hb o Ho Hl; try exact Hl.
  simpl. enough (key ∉ l_locks o) by set_solver. intros Hk.
  assert (Ht : existsb (λ o, bool_decide (key ∈ l_locks o)) os = true); [|congruence].
  apply existsb_exists. exists o. rewrite bool_decide_true by done. split; [|done].
  by apply list_elem_of_In.
Qed.

Lemma agree_publish (l l2 : local) d w :
  wrote w l d → l_locks l ## l_locks l2 → agree (l_locks l2) d (publish l d).
Proof.
  intros [_ Hk] Hl h i Hh. simpl. rewrite lookup_union_r; [done|].
  destruct (l_terms l !! (h, i)) eqn:Hi; [|done].
  assert (lock_key h ∈ l_locks l) by (apply (Hk h i); by eexists). set_solver.
Qed.

Lemma replay_ext w d d' :
  t_files d = t_files d' → t_terms d = t_terms d' →
  t_files (replay d w) = t_files (replay d' w) ∧ t_terms (replay d w) = t_terms (replay d' w).
Proof.
  revert d d'. induction w as [|[now [repo [h terms]]] w IH]; intros d d' Hf Ht; simpl; [done|].
  destruct (registration_tables now repo d h terms) as [H1 H2], (registration_tables now repo d' h terms) as [H3 H4].
  apply IH; [by rewrite H1, H3, Hf|by rewrite H2, H4, Ht].
Qed.

Record serial (d0 : db) (cls : list call) (c : cluster) : Prop := {
  serial_committed : ∃ w, w.*2 = cls ≫= call_files ∧
    t_files (committed c) = t_files (replay d0 w) ∧ t_terms (committed c) = t_terms (replay d0 w);
  serial_safe i s : sessions c !! i = Some s →
    safe (s_rest s) (ends_well (s_call s)) (s_local s) (committed c);
  serial_locks i j s t : sessions c !! i = Some s → sessions c !! j = Some t → i ≠ j →
    l_locks (s_local s) ## l_locks (s_local t);
}.

Lemma elem_of_others c i j t :
  i ≠ j → sessions c !! j = Some t → s_local t ∈ others c i.
Proof.
  intros Hne Ht. apply list_elem_of_fmap. exists (j, t). split; [done|].
  apply elem_of_map_to_list. by rewrite lookup_delete_ne.
Qed.

Lemma step_serial d0 cls c o c' :
  step c o c' → serial d0 cls c → serial d0 (cls ++ option_list o) c'.
Proof.
  intros Hstep [Hc Hs Hl]. destruct Hstep as [i cl Hi|i s now rest l Hi Hb Ha|i|i s Hi Hd|d Hf Ht]; cbn [option_list];
    rewrite ?app_nil_r; split; simpl; try done.
  - intros j s [[<- <-]|[_ Hj]]%lookup_insert_Some; [apply safe_body|by apply (Hs j)].
  - intros j k s t [[<- <-]|[_ Hj]]%lookup_insert_Some [[<- <-]|[_ Hk]]%lookup_insert_Some Hne; simpl;
      [done|set_solver|set_solver|by eapply Hl].
  - intros j t [[<- <-]|[_ Hj]]%lookup_insert_Some; [|by apply (Hs j)].
    simpl. eapply safe_advance; [|exact Ha]. by apply (Hs i).
  - assert (Hnew : ∀ j t, i ≠ j → sessions c !! j = Some t → l_locks l ## l_locks (s_local t)).
    { intros j t Hne Hj. eapply advance_locks; [done..|by eapply elem_of_others|by eapply Hl]. }
    intros j k t u [[<- <-]|[? Hj]]%lookup_insert_Some [[<- <-]|[? Hk]]%lookup_insert_Some Hne; simpl;
      [done|by eapply Hnew|symmetry; by eapply Hnew|by eapply Hl].
  - intros j s [_ Hj]%lookup_delete_Some. by apply (Hs j).
  - intros j k s t [_ Hj]%lookup_delete_Some [_ Hk]%lookup_delete_Some. by apply Hl.
  - destruct Hc as (w & Hw & Hcf & Hct). pose proof (Hs i s Hi) as Hsi. rewrite Hd in Hsi.
    destruct (Hsi _ (agree_refl _ _)) as (v & Hv & [Hrep _]). exists (w ++ v).
    rewrite fmap_app, Hw, Hv, bind_app, bind_singleton. split; [done|].
    destruct (Hrep _ (agree_refl _ _)) as [Hrf Hrt].
    destruct (replay_ext v (committed c) (replay d0 w) Hcf Hct) as [Hxf Hxt].
    unfold replay in *. by rewrite foldl_app, <-Hxf, <-Hxt.
  - intros j t [Hne Hj]%lookup_delete_Some. pose proof (Hs i s Hi) as Hsi. rewrite Hd in Hsi.
    destruct (Hsi _ (agree_refl _ _)) as (v & _ & Hwr). apply (safe_agree _ _ _ (committed c)); [|by apply (Hs j)].
    eapply agree_publish; [exact Hwr|]. by eapply Hl.
  - intros j k t u [_ Hj]%lookup_delete_Some [_ Hk]%lookup_delete_Some. by apply Hl.
  - destruct Hc as (w & Hw & Hcf & Hct). exists w. by rewrite Hf, Ht.
  - intros j t Hj. apply (safe_agree _ _ _ (committed c)); [|by apply (Hs j)]. intros h k _. by rewrite Ht.
Qed.

Lemma runs_serial d0 cls c cls' c' :
  runs c cls' c' → serial d0 cls c → serial d0 (cls ++ cls') c'.
Proof.
  intros Hr. revert cls. induction Hr as [c|c o c1 cls' c2 Hst _ IH]; intros cls Hc; [by rewrite app_nil_r|].
  rewrite app_assoc. apply IH. by apply (step_serial _ _ c).
Qed.

Lemma replay_terms w d h l :
  has_terms d h l → ∃ l', has_terms (replay d w) h l' ∧ (l ≠ [] → l' = l) ∧
    (l = [] → l' = [] ∨ ∃ repo, (repo, (h, l')) ∈ w.*2).
Proof.
  revert d l. induction w as [|[now [repo [k terms]]] w IH]; intros d l Hl; [by exists l; auto|].
  cbn [replay foldl fst snd fmap list_fmap]. pose proof (write_file_terms now repo d k terms h l Hl) as H1.
  destruct (IH _ _ H1) as (l' & Hl' & Hkeep & Hnew). exists l'. split; [exact Hl'|].
  destruct (decide (h = k ∧ l = [])) as [[-> ->]|Hne].
  - split; [done|]. intros _. destruct terms as [|t terms].
    + destruct (Hnew eq_refl) as [->|(r & Hr)]; [by left|]. right. exists r. by right.
    + rewrite (Hkeep) by done. right. exists repo. by left.
  - split; [done|]. intros Hnil. destruct (Hnew Hnil) as [->|(r & Hr)]; [by left|]. right. exists r. by right.
Qed.

(** C4. Concurrent registrations serialize. However the statements of
    transactions interleave, fail or wait, the files and the term lists that
    are committed are those of the committed calls executed one after another
    in the order of their commits. So a term list, once committed, is never
    merged with another segmentation of the file: it stays, and it is the whole
    list of one call. *)
Theorem registrations_serialize c cls c' :
  sessions c = ∅ → runs c cls c' →
  (∃ w, w.*2 = cls ≫= call_files ∧
    t_files (committed c') = t_files (replay (committed c) w) ∧
    t_terms (committed c') = t_terms (replay (committed c) w)) ∧
  (∀ h l, has_terms (committed c) h l →
    ∃ l', has_terms (committed c') h l' ∧ (l ≠ [] → l' = l) ∧
      (l = [] → l' = [] ∨ ∃ cl repo, cl ∈ cls ∧ (repo, (h, l')) ∈ call_files cl)).
Proof.
  intros Hc Hr. assert (Hinit : serial (committed c) [] c).
  { split; [by exists []|by rewrite Hc|by rewrite Hc]. }
  destruct (runs_serial _ _ _ _ _ Hr Hinit) as [(w & Hw & Hf & Ht) _ _]. simpl in Hw.
  split; [by exists w|]. intros h l Hl.
  destruct (replay_terms w _ h l Hl) as (l' & Hl' & Hkeep & Hnew). exists l'. split_and!; [|done|].
  - intros i r. rewrite Ht. apply Hl'.
  - intros Hnil. destruct (Hnew Hnil) as [->|(repo & Hin)]; [by left|]. right.
    rewrite Hw in Hin. apply list_elem_of_bind in Hin as (cl & Hin & Hcl). by exists cl, repo.
Qed.

(** ** Schedules *)

(** A run, as a list of decisions. *)
Inductive action := ABegin (i : nat) (cl : call) | ARun (i : nat) (now : Z) | AFail (i : nat) | ACommit (i : nat).

Definition act (c : cluster) (a : action) : option (option call * cluster) :=
  match a with
  | ABegin i cl =>
      match sessions c !! i with
      | Some _ => None
      | None => Some (None, mkCluster (committed c) (<[i := mkSession cl (body cl) no_writes]> (sessions c)))
      end
  | ARun i now =>
      s ← sessions c !! i;
      if blocked (others c i) (s_rest s) then None
      else '(rest, l) ← advance now (committed c) (s_rest s) (s_local s);
           Some (None, mkCluster (committed c) (<[i := mkSession (s_call s) rest l]> (sessions c)))
  | AFail i => Some (None, mkCluster (committed c) (delete i (sessions c)))
  | ACommit i =>
      s ← sessions c !! i;
      match s_rest s with
      | Done tt => Some (Some (s_call s), mkCluster (publish (s_local s) (committed c)) (delete i (sessions c)))
      | _ => None
      end
  end.

Fixpoint schedule (c : cluster) (acts : list action) : option (list call * cluster) :=
  match acts with
  | [] => Some ([], c)
  | a :: acts =>
      '(o, c1) ← act c a;
      '(cls, c2) ← schedule c1 acts;
      Some (option_list o ++ cls, c2)
  end.

Lemma act_step c a o c' : act c a = Some (o, c') → step c o c'.
Proof.
  destruct a as [i cl|i now|i|i]; simpl.
  - destruct (sessions c !! i) eqn:Hi; intros [= <- <-]. by apply step_begin.
  - destruct (sessions c !! i) as [s|] eqn:Hi; [|done]. simpl. destruct (blocked _ _) eqn:Hb; [done|].
    destruct (advance _ _ _ _) as [[rest l]|] eqn:Ha; [|done]. intros [= <- <-]. by eapply step_run.
  - intros [= <- <-]. apply step_fail.
  - destruct (sessions c !! i) as [s|] eqn:Hi; [|done]. simpl.
    destruct (s_rest s) as [[]| | | | |] eqn:Hd; try done. intros [= <- <-]. by apply step_commit.
Qed.

Lemma schedule_runs c acts cls c' : schedule c acts = Some (cls, c') → runs c cls c'.
Proof.
  revert c cls. induction acts as [|a acts IH]; intros c cls; simpl.
  - intros [= <- <-]. constructor.
  - destruct (act c a) as [[o c1]|] eqn:Ha; [|done]. simpl.
    destruct (schedule c1 acts) as [[k c2]|] eqn:Hk; [|done]. intros [= <- <-].
    eapply runs_step; [by apply (act_step _ a)|by apply IH].
Qed.
