(* ===== verification/PostgresToy.v ===== *)
(** * Schedules of concurrent registrations in the PostgreSQL store *)

From stdpp Require Import gmap.
From S2P Require Import Prelude RustStd Core MetaCommon Db Sqlite Accounting Postgres PostgresTx.

(** Alice and Bob register the same content for the first time, cut differently. *)
Definition alice_terms : list FileTerm := [example_term x0a 10].
Definition bob_terms : list FileTerm := [example_term x0b 4; example_term x0c 6].
Definition fresh_cluster : cluster := mkCluster empty_db ∅.

Definition alice_and_bob : list action :=
  [ABegin 1 (RegisterFiles repo_a [(file1, alice_terms)]); ABegin 2 (RegisterFile file1 repo_b bob_terms);
   ARun 1 100; ARun 1 100; ARun 2 101; ARun 2 101].

(** Alice takes the lock; Bob waits for it until she commits, then finds her terms. *)
Definition alice_first : list action :=
  alice_and_bob ++ [ARun 1 100; ARun 1 100; ARun 1 100; ACommit 1; ARun 2 101; ARun 2 101; ACommit 2].

Definition after (acts : list action) : cluster :=
  match schedule fresh_cluster acts with Some (_, c) => c | None => fresh_cluster end.
Definition committed_calls (acts : list action) : list call :=
  match schedule fresh_cluster acts with Some (cls, _) => cls | None => [] end.

Example bob_waits : schedule fresh_cluster (alice_and_bob ++ [ARun 1 100; ARun 2 101]) = None.
Proof. vm_compute. reflexivity. Qed.

Lemma after_runs acts : is_Some (schedule fresh_cluster acts) → runs fresh_cluster (committed_calls acts) (after acts).
Proof.
  intros [[cls c] Hs]. unfold after, committed_calls. rewrite Hs. by apply (schedule_runs _ acts).
Qed.

Lemma alice_first_runs : runs fresh_cluster (committed_calls alice_first) (after alice_first).
Proof. apply after_runs. vm_compute. eauto. Qed.

(** Two shards that name two files in opposite orders wait for each other: the
    server ends such a wait by failing one of the transactions. *)
Definition file2 : FileHash := newtype (hx x02).
Definition crossed : list action :=
  [ABegin 1 (RegisterFiles repo_a [(file1, alice_terms); (file2, bob_terms)]);
   ABegin 2 (RegisterFiles repo_b [(file2, bob_terms); (file1, alice_terms)]);
   ARun 1 100; ARun 1 100; ARun 1 100; ARun 1 100; ARun 1 100; ARun 1 100; ARun 1 100;
   ARun 2 101; ARun 2 101; ARun 2 101; ARun 2 101; ARun 2 101; ARun 2 101; ARun 2 101].

Example crossed_registrations_deadlock :
  match schedule fresh_cluster crossed with
  | Some (_, c) => act c (ARun 1 100) = None ∧ act c (ARun 2 101) = None ∧
                   act c (ACommit 1) = None ∧ act c (ACommit 2) = None
  | None => False
  end.
Proof. vm_compute. by split_and!. Qed.

Lemma registrations_serialize_witness :
  committed_calls alice_first
    = [RegisterFiles repo_a [(file1, alice_terms)]; RegisterFile file1 repo_b bob_terms] ∧
  ordered_rows (t_terms (committed (after alice_first))) file1 = numbered alice_terms ∧
  ∃ w, w.*2 = committed_calls alice_first ≫= call_files ∧
    t_files (committed (after alice_first)) = t_files (replay empty_db w) ∧
    t_terms (committed (after alice_first)) = t_terms (replay empty_db w).
Proof.
  split; [vm_compute; reflexivity|]. split; [vm_compute; reflexivity|].
  exact (proj1 (registrations_serialize fresh_cluster _ _ eq_refl alice_first_runs)).
Defined.
