(* ===== verification/MetaTyped.v ===== *)
(** * The rows of the metadata stores are well typed

    What every table holds after any history of writing calls to the SQLite or
    the PostgreSQL store, whatever statements fail: integers within the widths
    that the readers cast to, file rows whose owner column is the namespace of
    their repository, and term rows numbered from zero without a gap. *)

From stdpp Require Import gmap sorting.
From S2P Require Import Prelude RustStd Core MetaCommon Db Sqlite Accounting MetaSpec SqliteSpec Postgres PostgresSpec.

Definition is_i64 (n : Z) : Prop := - 2 ^ 63 ≤ n < 2 ^ 63.

Definition xorb_typed (_ : XorbHash) (r : xorb_rec) : Prop :=
  is_u32 (xr_num_chunks r) ∧ is_u32 (xr_num_bytes_in_cas r) ∧ is_u32 (xr_num_bytes_on_disk r).
Definition chunk_typed (_ : ChunkHash * XorbHash) (r : chunk_rec) : Prop :=
  is_u32 (kr_chunk_index r) ∧ is_u32 (kr_byte_start r) ∧ is_u32 (kr_unpacked_bytes r).
Definition frame_typed (k : XorbHash * Z) (r : frame_rec) : Prop :=
  is_u32 k.2 ∧ is_u32 (fr_on_disk_start r) ∧ is_u32 (fr_on_disk_len r) ∧ is_u32 (fr_uncompressed_len r).
Definition file_typed (k : FileHash * str) (r : file_rec) : Prop :=
  fl_repo_type r ∈ [lit "model"; lit "dataset"; lit "space"] ∧ is_i64 (fl_total_bytes r) ∧
  fl_owner r = owner_of_id k.2.

Record typed (d : db) : Prop := {
  ty_xorbs : map_Forall xorb_typed (t_xorbs d);
  ty_chunks : map_Forall chunk_typed (t_chunks d);
  ty_frames : map_Forall frame_typed (t_frames d);
  ty_files : map_Forall file_typed (t_files d);
  ty_quotas : map_Forall (λ _, is_i64) (t_quotas d);
  ty_terms h : ∃ l, Forall wf_term l ∧ has_terms d h l;
}.

(** ** The writing calls *)

Inductive meta_write :=
| WXorb (info : XorbInfo) (chunks : list ChunkRow)
| WFile (h : FileHash) (repo : RepoRef) (terms : list FileTerm)
| WFiles (repo : RepoRef) (files : list (FileHash * list FileTerm))
| WLayout (x : XorbHash) (frames : list XorbFrameRow)
| WQuota (o : str) (limit : option Z).

(** The arguments are within their Rust types. *)
Definition wf_write (w : meta_write) : Prop :=
  match w with
  | WXorb info chunks => wf_xorb_info info ∧ Forall wf_chunk_row chunks
  | WFile _ _ terms => Forall wf_term terms
  | WFiles _ files => Forall (λ p, Forall wf_term p.2) files
  | WLayout _ frames => Forall wf_frame_row frames
  | WQuota _ limit => True
  end.

Definition write_call `{!MetadataStore store} (w : meta_write) : M unit :=
  match w with
  | WXorb info chunks => register_xorb info chunks
  | WFile h repo terms => register_file h repo terms
  | WFiles repo files => register_files repo files
  | WLayout x frames => register_xorb_layout x frames
  | WQuota o limit => set_owner_quota o limit
  end.

(** ** Statements keep the types *)

Lemma insert_ignore_all_typed {K V} `{Countable K} (P : K → V → Prop) l m :
  map_Forall P m → (∀ k v, (k, v) ∈ l → P k v) → map_Forall P (insert_ignore_all l m).
Proof.
  revert m. induction l as [|[k v] l IH]; intros m Hm Hl; [done|]. rewrite insert_ignore_all_cons.
  apply IH; [|intros k' v' Hin; apply Hl; by right]. intros i x. rewrite lookup_insert_ignore.
  destruct (m !! i) eqn:Hi; [intros [= <-]; by apply Hm|]. case_decide; [|done]. subst. intros [= <-]. apply Hl. by left.
Qed.

Lemma as_i64_typed n : is_i64 (as_i64 n).
Proof. unfold is_i64, as_i64. pose proof (Z.mod_pos_bound n (2 ^ 64) ltac:(lia)). case_match; lia. Qed.

Lemma repo_type_typed t : repo_type_text t ∈ [lit "model"; lit "dataset"; lit "space"].
Proof. destruct t; set_solver. Qed.

Lemma write_file_typed now repo d h terms :
  Forall wf_term terms → typed d → typed (write_file_db now repo d (h, terms)).
Proof.
  intros Hw [Hx Hc Hf Hfi Hq Ht].
  assert (Heq : t_xorbs (write_file_db now repo d (h, terms)) = t_xorbs d ∧
    t_chunks (write_file_db now repo d (h, terms)) = t_chunks d ∧
    t_frames (write_file_db now repo d (h, terms)) = t_frames d ∧
    t_quotas (write_file_db now repo d (h, terms)) = t_quotas d ∧
    t_files (write_file_db now repo d (h, terms)) = <[(h, repo_id repo) := file_row now repo terms]> (t_files d)).
  { unfold write_file_db. by destruct (rows_of _ _). }
  destruct Heq as (E1 & E2 & E3 & E4 & E5). split; rewrite ?E1, ?E2, ?E3, ?E4, ?E5; try done.
  - apply map_Forall_insert_2; [|done]. unfold file_typed, file_row. simpl.
    split_and!; [apply repo_type_typed|apply as_i64_typed|done].
  - intros k. destruct (Ht k) as (l & Hl & Hk). exists (if decide (k = h ∧ l = []) then terms else l).
    split; [by case_decide|by apply write_file_terms].
Qed.

Lemma write_files_typed now repo files d :
  Forall (λ p, Forall wf_term p.2) files → typed d → typed (foldl (write_file_db now repo) d files).
Proof.
  intros Hf. revert d. induction Hf as [|[h terms] files Hp _ IH]; intros d Hd; simpl; [done|].
  by apply IH, write_file_typed.
Qed.

(** ** Calls keep the types *)

Definition keeps_types (m : M unit) : Prop :=
  ∀ s, typed (database s) → wps m s (λ _ s', typed (database s')) (λ _ s', typed (database s')).

Lemma keeps_exec msg f : (∀ d, typed d → typed (f d)) → keeps_types (exec msg f).
Proof. intros Hf s Hs. by apply wps_exec; [|apply Hf]. Qed.

Lemma typed_bind (m : M unit) (k : unit → M unit) : keeps_types m → keeps_types (k tt) → keeps_types (m ≫= k).
Proof.
  intros Hm Hk s Hs. apply wps_bind. eapply wps_mono; [by apply Hm| |done]. intros [] s' Hs'. by apply Hk.
Qed.

Lemma typed_for_each {A} (f : A → M unit) l : (∀ x, x ∈ l → keeps_types (f x)) → keeps_types (for_each f l).
Proof. intros Hf s Hs. apply (wps_for_each f (λ s, typed (database s))); [|done]. intros x s' Hx Hs'. by apply Hf. Qed.

Lemma keeps_in_tx b c (m : M unit) : keeps_types m → keeps_types (in_tx b c m).
Proof.
  intros Hm s Hs. eapply wps_mono.
  - apply (wps_in_tx b c m s (λ _ d, typed d)). intros s1 Hd _. eapply wps_mono; [apply Hm; by rewrite Hd|done|done].
  - done.
  - intros e s' Hd. by rewrite Hd.
Qed.

(** A batch taken from well-formed rows is well formed. *)
Lemma chunks_of_elem {A} n (l : list A) b x : b ∈ chunks_of n l → x ∈ b → (0 < n)%nat → x ∈ l.
Proof.
  intros Hb Hx Hn. rewrite <-(concat_chunks_of n l) by done. apply list_elem_of_In, in_concat. exists b.
  split; by apply list_elem_of_In.
Qed.


Lemma keeps_batches {A} msg (f : list A → db → db) (P : A → Prop) l :
  (∀ b d, Forall P b → typed d → typed (f b d)) → Forall P l →
  keeps_types (for_each (λ b, exec msg (f b)) (chunks_of CHUNK_INSERT_BATCH l)).
Proof.
  intros Hf Hl. apply typed_for_each. intros b Hb. apply keeps_exec. intros d. apply Hf.
  rewrite Forall_forall in Hl |- *. intros x Hx. apply Hl. apply (chunks_of_elem CHUNK_INSERT_BATCH l b); [done..|].
  unfold CHUNK_INSERT_BATCH. lia.
Qed.

Lemma typed_gets {A} (f : store → A) (k : A → M unit) : (∀ a, keeps_types (k a)) → keeps_types (a ← gets f; k a).
Proof. intros Hk s Hs. apply wps_bind, wps_gets. by apply Hk. Qed.

Lemma register_xorb_keeps info chunks :
  wf_xorb_info info → Forall wf_chunk_row chunks → keeps_types (sq_register_xorb info chunks).
Proof.
  intros Hi Hc. apply keeps_in_tx, typed_gets. intros now. apply typed_bind.
  - apply keeps_exec. intros d [Hx ????]. split; try done. simpl. intros i x. rewrite lookup_insert_ignore.
    destruct (t_xorbs d !! i) eqn:Hl; [intros [= <-]; by apply Hx|]. case_decide; [|done]. by intros [= <-].
  - apply (keeps_batches _ _ wf_chunk_row); [|done]. intros b d Hb [? Hk ???]. split; try done. simpl.
    apply insert_ignore_all_typed; [done|]. intros k v (c & [= -> ->] & Hin)%list_elem_of_fmap.
    rewrite Forall_forall in Hb. by apply Hb.
Qed.

Lemma register_layout_keeps x frames : Forall wf_frame_row frames → keeps_types (sq_register_xorb_layout x frames).
Proof.
  intros Hf. unfold sq_register_xorb_layout. destruct frames as [|f frames]; [by intros s|]. apply keeps_in_tx.
  apply (keeps_batches _ _ wf_frame_row); [|done]. intros b d Hb [?? Hk ??]. split; try done. simpl.
  apply insert_ignore_all_typed; [done|]. intros k v (g & [= -> ->] & Hin)%list_elem_of_fmap.
  rewrite Forall_forall in Hb. by apply Hb.
Qed.

Lemma set_quota_keeps o q : keeps_types (sq_set_owner_quota o q).
Proof.
  destruct q as [n|]; apply keeps_exec; intros d [???? Hq ?]; split; try done; simpl.
  - apply map_Forall_insert_2; [apply as_i64_typed|done].
  - by apply map_Forall_delete.
Qed.

(** A call whose effect is that of registering files, all or nothing. *)
Lemma registration_keeps (m : M unit) (repo : RepoRef) files :
  Forall (λ p, Forall wf_term p.2) files →
  (∀ s, wps m s (λ _ s', database s' = foldl (write_file_db (now_unix (clock s)) repo) (database s) files)
     (λ _ s', database s' = database s)) →
  keeps_types m.
Proof.
  intros Hf Hm s Hs. eapply wps_mono; [apply Hm|..]; cbv beta; [intros _ s' ->|intros _ s' ->; done].
  by apply write_files_typed.
Qed.

Section calls.
#[local] Set Default Proof Using "Type*".
Variable decode_error : string → str.
Variable choose : ∀ A : Type, list A → option A.
Hypothesis choose_spec : ∀ A (l : list A),
  match choose _ l with Some x => x ∈ l | None => l = [] end.

(** A file alone is a batch of one. *)
Lemma single_wps (m : M unit) repo h terms s :
  (∀ s, wps m s (λ _ s', database s' = write_file_db (now_unix (clock s)) repo (database s) (h, terms) ∧
     clock s' = clock s) (λ _ _, True)) →
  wps (in_tx "begin: " "commit: " m) s
    (λ _ s', database s' = foldl (write_file_db (now_unix (clock s)) repo) (database s) [(h, terms)])
    (λ _ s', database s' = database s).
Proof.
  intros Hm. apply (wps_in_tx _ _ m s (λ _ d, d = _)). intros s1 Hd Hc.
  eapply wps_mono; [apply Hm| |done]. cbv beta. intros u s2 [-> _]. by rewrite Hd, Hc.
Qed.

Definition server_call (ops : MetadataStore store) (w : meta_write) (s : store) : store :=
  (@write_call ops w s).2.

Lemma call_typed (m : M unit) s : keeps_types m → typed (database s) → typed (database (m s).2).
Proof.
  intros Hm Hs. specialize (Hm s Hs). unfold wps in Hm. by destruct (m s) as [[?|?| |] ?].
Qed.

Lemma sqlite_call_keeps w : wf_write w → keeps_types (@write_call (SqliteMetadataStore_ops decode_error choose) w).
Proof.
  destruct w as [info chunks|h repo terms|repo files|x frames|o q]; simpl; intros Hw.
  - destruct Hw. by apply register_xorb_keeps.
  - apply (registration_keeps _ repo [(h, terms)]); [by repeat constructor|]. intros s. apply single_wps.
    by apply write_file_wps.
  - apply (registration_keeps _ repo files); [done|]. by apply register_files_wps.
  - by apply register_layout_keeps.
  - apply set_quota_keeps.
Qed.

Lemma postgres_call_keeps w : wf_write w → keeps_types (@write_call (PostgresMetadataStore_ops decode_error choose) w).
Proof.
  destruct w as [info chunks|h repo terms|repo files|x frames|o q]; simpl; intros Hw.
  - destruct Hw. by apply register_xorb_keeps.
  - apply (registration_keeps _ repo [(h, terms)]); [by repeat constructor|]. intros s. apply single_wps.
    by apply pg_write_file_wps.
  - apply (registration_keeps _ repo files); [done|]. by apply pg_register_files_wps.
  - by apply register_layout_keeps.
  - apply set_quota_keeps.
Qed.

(** C20. The tables are well typed after any history of writing calls, whatever
    statements fail, in both stores: every integer is within the width that its
    readers cast to, so no cast loses bits; the owner column of a file is the
    namespace of its repository; the terms of a file are numbered from zero
    without a gap. *)
Theorem stored_rows_typed ops ws s :
  ops = SqliteMetadataStore_ops decode_error choose ∨ ops = PostgresMetadataStore_ops decode_error choose →
  Forall wf_write ws → typed (database s) →
  typed (database (foldl (λ s w, server_call ops w s) s ws)).
Proof.
  intros Hops Hws. revert s. induction Hws as [|w ws Hw _ IH]; intros s Hs; simpl; [done|].
  apply IH, call_typed; [|done]. destruct Hops as [->| ->]; [by apply sqlite_call_keeps|by apply postgres_call_keeps].
Qed.
End calls.

Lemma empty_typed : typed empty_db.
Proof. split; try apply map_Forall_empty. intros h. exists []. split; [done|apply empty_has_terms]. Qed.

(** Alice's file, a quota above the signed range, and a failing registration. *)
Lemma stored_rows_typed_witness :
  let ws := [WFiles repo_a [(file1, [example_term x0a 4; example_term x0b 6])];
             WQuota (lit "alice") (Some (2 ^ 63)); WFile file1 repo_b [example_term x0c 10]] in
  let s := foldl (λ s w, server_call (PostgresMetadataStore_ops no_column first_row) w s)
    (mkStore empty_db 1000 (replicate 8 None ++ [Some (lit "deadlock detected")])) ws in
  t_quotas (database s) !! lit "alice" = Some (- 2 ^ 63) ∧
  t_files (database s) !! (file1, repo_id repo_b) = None ∧ typed (database s).
Proof.
  cbv zeta. split; [vm_compute; reflexivity|]. split; [vm_compute; reflexivity|].
  apply (stored_rows_typed no_column first_row first_row_spec); [by right| |exact empty_typed].
  assert (Hterm : ∀ x n, 0 ≤ n ≤ 10 → wf_term (example_term x n)) by (intros; unfold wf_term, is_u32; simpl; lia).
  repeat (apply Forall_cons_2 || apply Forall_nil_2); simpl; auto;
    repeat (apply Forall_cons_2 || apply Forall_nil_2); apply Hterm; lia.
Defined.
