(* ===== verification/Http.v ===== *)
(** * The HTTP handlers ([crates/bale-server-http])

    Every handler as a computation on the server's stores, over the three
    traits.  The state holds the blob store, the metadata store, the counters
    that the handlers bump and the clock; the extractors of the web framework
    are the arguments of a handler.  Hash functions, the MAC, hex, base64 and
    JSON decoding of third-party crates are parameters. *)

From stdpp Require Import gmap.
From S2P Require Import Prelude RustStd Core Wire Xorb Shard Authz.

Definition MAX_BODY_BYTES : Z := 64 * 1024 * 1024.
Definition SIGNATURE_TTL_SECS : Z := 600.
Definition MAX_TERM_UNPACKED_BYTES : Z := 128 * 1024 * 1024.
Definition DEDUP_NEIGHBORHOOD : nat := 8.
Definition DEDUP_KEY_TTL_SECS : Z := 24 * 60 * 60.

(** ** Errors *)

Record ApiError := mkApiError { api_status : Z; api_message : str }.

Definition ApiError_from (e : CoreError) : ApiError :=
  match e with
  | NotFound => mkApiError 404 (lit "not found")
  | BadRequest m => mkApiError 400 m
  | Conflict m => mkApiError 409 m
  | Unauthorized => mkApiError 401 (lit "unauthorized")
  | Forbidden => mkApiError 403 (lit "forbidden")
  | Internal m => mkApiError 500 m
  end.

Definition bad_req (msg : str) : ApiError := mkApiError 400 msg.
Definition unauthorized (msg : string) : ApiError := mkApiError 401 (lit msg).
Definition not_found (msg : string) : ApiError := mkApiError 404 (lit msg).
Definition internal_error (msg : string) : ApiError := mkApiError 500 (lit msg).

Definition quota_exceeded (owner : str) (used quota would_add : Z) : ApiError :=
  mkApiError 429 (lit "storage quota exceeded for owner '" ++ owner ++ lit "': " ++ to_string used
    ++ lit " bytes stored + " ++ to_string would_add ++ lit " new would exceed the " ++ to_string quota
    ++ lit "-byte limit").

(** ** Service and state *)

Record Service (A : Type) := mkService {
  authz : A;
  transfer_secret : bytes;
  public_base_url : str;
  default_quota_bytes : option Z;
  admin_token : option bytes;
}.
Arguments authz {A} _.
Arguments transfer_secret {A} _.
Arguments public_base_url {A} _.
Arguments default_quota_bytes {A} _.
Arguments admin_token {A} _.

Inductive Metric :=
  | XORBS_UPLOADED (deduplicated : bool)
  | UPLOAD_BYTES (n : Z) (kind : string)
  | SHARDS_UPLOADED
  | RECONSTRUCTIONS_SERVED.

(** [clock i] is what the [i]-th reading of the system clock answers. *)
Record Server (B M : Type) := mkServer {
  sv_blobs : B;
  sv_meta : M;
  sv_metrics : list Metric;
  sv_clock : nat → Z;
  sv_reads : nat;
}.
Arguments mkServer {B M} _ _ _ _ _.
Arguments sv_blobs {B M} _.
Arguments sv_meta {B M} _.
Arguments sv_metrics {B M} _.
Arguments sv_clock {B M} _.
Arguments sv_reads {B M} _.

Definition set_blobs {B M} (b : B) (s : Server B M) := mkServer b (sv_meta s) (sv_metrics s) (sv_clock s) (sv_reads s).
Definition set_meta {B M} (m : M) (s : Server B M) := mkServer (sv_blobs s) m (sv_metrics s) (sv_clock s) (sv_reads s).

(** Requests: the headers in order, and the methods the routes tell apart. *)
Definition Headers := list (str * bytes).
Definition header_get (hs : Headers) (name : str) : option bytes :=
  snd <$> head (filter (λ p, p.1 = name) hs).
Inductive Method := GET | HEAD | POST | PUT | OTHER_METHOD.
#[global] Instance Method_eq_dec : EqDecision Method.
Proof. solve_decision. Defined.

Definition parse_hf_repo_type (seg : str) : outcome ApiError RepoType :=
  if decide (seg = lit "models") then Ok Model
  else if decide (seg = lit "datasets") then Ok Dataset
  else if decide (seg = lit "spaces") then Ok Space
  else Err (bad_req (lit "unknown repo type segment: " ++ seg)).

Definition parse_hf_token_scope (seg : str) : outcome ApiError Scope :=
  if decide (seg = lit "bale-read-token") then Ok Read
  else if decide (seg = lit "bale-write-token") then Ok Write
  else Err (bad_req (lit "unknown token segment: " ++ seg)).

Definition parse_owner_name (repo : str) : outcome ApiError RepoRef :=
  on ← ok_or (bad_req (lit "repo must be 'owner/name'")) (split_once repo x2f);
  match on with
  | (_ :: _, _ :: _) => Ok (mkRepoRef Model repo (lit "main"))
  | _ => Err (bad_req (lit "repo must be 'owner/name'"))
  end.

(** [is_ascii_graphic]: 0x21 to 0x7e.  The other bytes of a UTF-8 text are the
    ones above 0x7f, which no kept character has. *)
Definition sanitize_filename (name : str) : str :=
  filter (λ c, negb (bool_decide (c = x22 ∨ c = x5c)) = true)
    (filter (λ c, in_range c 33 126 || bool_decide (c = x20) = true) name).

(** One download query and one transfer query. *)
Record FileDownloadQuery := mkFileDownloadQuery { fq_token : str; fq_repo : str; fq_filename : option str }.
Record TransferQuery := mkTransferQuery { tq_s : Z; tq_e : Z; tq_x : Z; tq_sig : str }.
Record SignedRange := mkSignedRange { hash_hex : str; sr_start : Z; end_inclusive : Z; sr_exp : Z }.

Definition ct_eq (a b : bytes) : bool :=
  let acc := as_u32 (Z.lxor (len a) (len b)) in
  foldl (λ acc p, Z.lor acc (Z.lxor (byte_to_Z p.1) (byte_to_Z p.2))) acc (zip a b) =? 0.

(** Responses whose head matters. *)
Record Transfer := mkTransfer { tr_status : Z; tr_length : Z; tr_content_range : str; tr_body : bytes }.
Record Download := mkDownload {
  dl_status : Z; dl_content_type : str; dl_length : Z; dl_disposition : option str;
  dl_terms : list FileTerm }.

Section http.
Context {B M A : Type} `{!BlobStore B} `{!MetadataStore M} `{!RepoAuthz A}.
(** [xet_core_structures], as in the xorb checker. *)
Context {MerkleHash : Type} `{!EqDecision MerkleHash}.
Variable merkle_from : Hash32 → MerkleHash.
Variable compute_data_hash : bytes → MerkleHash.
Variable compute_xorb_merkle_hash : list (MerkleHash * Z) → MerkleHash.
Variable decompress_from_slice : CompressionScheme → bytes → outcome str bytes.
(** The crates blake3, sha2 and hmac, hex, and the JWT payload reader (base64 and
    serde_json): the [FilenameSHA256] field, empty when it is absent. *)
Variable blake3_hash sha256_digest : bytes → vec byte HASH_LEN.
Variable hmac_sha256 : bytes → bytes → vec byte HASH_LEN.
Variable hex_encode : bytes → str.
Variable hex_decode : str → option bytes.
Variable b64_decode : str → option bytes.
Variable payload_from_slice : bytes → option str.
(** [HeaderValue::to_str] and [HeaderValue::try_from]. *)
Variable to_str : bytes → option str.
Variable HeaderValue_try_from : str → outcome str bytes.

Abbreviation St := (Server B M).
Abbreviation H := (ST St ApiError).

Definition blobs {X} (m : ST B CoreError X) : H X := st_map_err ApiError_from (zoom sv_blobs set_blobs m).
Definition meta {X} (m : ST M CoreError X) : H X := st_map_err ApiError_from (zoom sv_meta set_meta m).
Definition count (e : Metric) : H unit := modify (λ s,
  mkServer (sv_blobs s) (sv_meta s) (sv_metrics s ++ [e]) (sv_clock s) (sv_reads s)).
Definition now_unix : H Z := λ s,
  (Ok (Z.max 0 (sv_clock s (sv_reads s))),
   mkServer (sv_blobs s) (sv_meta s) (sv_metrics s) (sv_clock s) (S (sv_reads s))).
Definition decode_path (what : string) (s : str) : H Hash32 :=
  lift (map_err (λ e, bad_req (lit what ++ HexError_display e)) (decode_hash s)).

(** ** Bearers *)

Definition auth_middleware {R} (svc : Service A) (method : Method) (headers : Headers)
    (next : TokenClaims → H R) : H R :=
  raw ← lift (ok_or (unauthorized "missing bearer") (header_get headers (lit "authorization") ≫= to_str));
  token ← lift (ok_or (unauthorized "expected 'Bearer <token>'") (strip_prefix raw (lit "Bearer ")));
  claims ← lift (map_err ApiError_from (verify_xet_token (authz svc) token));
  if bool_decide (method = POST) && bool_decide (claim_scope claims = Read)
  then throw (mkApiError 403 (lit "this endpoint requires a write-scope token"))
  else next claims.

Definition bearer (headers : Headers) : option str :=
  raw ← header_get headers (lit "authorization");
  v ← to_str raw;
  strip_prefix v (lit "Bearer ").

Definition issue_xet_token (svc : Service A) (type_seg ns name tok_seg rev : str) (headers : Headers)
    : H XetTokenResponse :=
  repo_type ← lift (parse_hf_repo_type type_seg);
  scope ← lift (parse_hf_token_scope tok_seg);
  let repo := mkRepoRef repo_type (ns ++ lit "/" ++ name) rev in
  hub_bearer ← lift (ok_or (unauthorized "missing hub bearer token") (bearer headers));
  user ← lift (map_err ApiError_from (check_repo_access (authz svc) hub_bearer repo scope));
  te ← lift (map_err ApiError_from (mint_xet_token (authz svc) user repo scope));
  mret (mkXetTokenResponse te.1 te.2 (public_base_url svc)).

Definition require_admin_or_owner (svc : Service A) (headers : Headers) (owner_name : str) : H unit :=
  bearer ← lift (ok_or (unauthorized "missing bearer") (bearer headers));
  let is_admin :=
    match admin_token svc, hex_decode (trim bearer) with
    | Some admin, Some presented => ct_eq presented admin
    | _, _ => false
    end in
  if is_admin : bool then mret tt
  else
    claims ← lift (map_err ApiError_from (verify_xet_token (authz svc) bearer));
    if negb (bool_decide (owner (claim_repo claims) = owner_name))
    then throw (mkApiError 403 (lit "token not scoped to this owner"))
    else mret tt.

(** ** Quotas and usage *)

Definition effective_quota (default : option Z) (owner : str) : H (option Z) :=
  q ← meta (get_owner_quota owner);
  match q with
  | Some n => mret (Some n)
  | None => mret default
  end.

Definition get_owner_usage (svc : Service A) (owner : str) (headers : Headers) : H OwnerUsageResponse :=
  _ ← require_admin_or_owner svc headers owner;
  raw ← meta (raw_bytes_for_owner owner);
  stored ← meta (stored_bytes_for_owner owner);
  quota ← effective_quota (default_quota_bytes svc) owner;
  mret (mkOwnerUsageResponse owner raw stored (saturating_sub raw stored) quota).

Definition get_repo_usage (svc : Service A) (owner repo : str) (headers : Headers) : H RepoUsageResponse :=
  _ ← require_admin_or_owner svc headers owner;
  let repo_id := owner ++ lit "/" ++ repo in
  raw ← meta (raw_bytes_for_repo repo_id);
  stored ← meta (stored_bytes_for_repo repo_id);
  exclusive ← meta (exclusive_stored_bytes_for_repo repo_id);
  mret (mkRepoUsageResponse repo_id raw stored (saturating_sub raw stored) exclusive).

(** [StatusCode::NO_CONTENT] on success. *)
Definition put_owner_quota (svc : Service A) (owner : str) (headers : Headers) (body : SetOwnerQuotaRequest)
    : H Z :=
  admin ← lift (ok_or (not_found "admin endpoint disabled") (admin_token svc));
  raw ← lift (ok_or (unauthorized "missing admin bearer") (bearer headers));
  presented ← lift (ok_or (unauthorized "admin token not hex") (hex_decode (trim raw)));
  if negb (ct_eq presented admin) then throw (unauthorized "bad admin token")
  else
    _ ← meta (set_owner_quota owner (limit_bytes body));
    mret 204.

(** ** Signed transfer URLs *)

Definition signed_message (r : SignedRange) : bytes :=
  hash_hex r ++ lit "|" ++ to_string (sr_start r) ++ lit "|" ++ to_string (end_inclusive r)
    ++ lit "|" ++ to_string (sr_exp r).

Definition sign (secret : bytes) (r : SignedRange) : str :=
  hex_encode (vec_to_list (hmac_sha256 secret (signed_message r))).

Definition signed_url (base xorb_hex : str) (start end_inclusive exp : Z) (sig : str) : str :=
  base ++ lit "/xorb/default/" ++ xorb_hex ++ lit "?s=" ++ to_string start ++ lit "&e="
    ++ to_string end_inclusive ++ lit "&x=" ++ to_string exp ++ lit "&sig=" ++ sig.

Definition build_signed_url (base : str) (secret : bytes) (xorb_hex : str) (start end_inclusive : Z) : H str :=
  now ← now_unix;
  let exp := as_u64 (now + SIGNATURE_TTL_SECS) in
  let sig := sign secret (mkSignedRange xorb_hex start end_inclusive exp) in
  mret (signed_url base xorb_hex start end_inclusive exp sig).

Definition parse_byte_range_header (v : bytes) : outcome str (Z * Z) :=
  s ← ok_or (lit "invalid Range header") (to_str v);
  rest ← ok_or (lit "expected 'bytes=' prefix") (strip_prefix s (lit "bytes="));
  ab ← ok_or (lit "expected 'bytes=X-Y'") (split_once rest x2d);
  start ← ok_or (lit "bad start") (parse_u64 (trim ab.1));
  end_ ← ok_or (lit "bad end") (parse_u64 (trim ab.2));
  if end_ <? start then Err (lit "inverted range") else mret (start, end_).

Definition get_xorb_transfer (svc : Service A) (hash_hex : str) (q : TransferQuery) (headers : Headers)
    : H Transfer :=
  h ← decode_path "malformed xorb hash: " hash_hex;
  let expected := sign (transfer_secret svc) (mkSignedRange hash_hex (tq_s q) (tq_e q) (tq_x q)) in
  if negb (ct_eq expected (tq_sig q)) then throw (unauthorized "bad signature")
  else
    now ← now_unix;
    if tq_x q <? now then throw (unauthorized "signature expired")
    else
      range_header ← lift (ok_or (unauthorized "Range header required") (header_get headers (lit "range")));
      r ← lift (map_err bad_req (parse_byte_range_header range_header));
      if negb (r.1 =? tq_s q) || negb (r.2 =? tq_e q)
      then throw (unauthorized "Range header does not match signed range")
      else
        body ← blobs (get_xorb_range (newtype h) (tq_s q) (as_u64 (tq_e q + 1)));
        range ← lift (map_err (λ e, mkApiError 500 (lit "content-range: " ++ e))
          (HeaderValue_try_from (lit "bytes " ++ to_string (tq_s q) ++ lit "-" ++ to_string (tq_e q) ++ lit "/*")));
        mret (mkTransfer 206 (len body) range body).

(** ** Uploads *)

Definition verify_body : bytes → XorbHash → outcome XorbVerifyError unit :=
  verify_xorb_body merkle_from compute_data_hash compute_xorb_merkle_hash decompress_from_slice.

Definition layout_rows (frames : list XorbChunkFrame) : list XorbFrameRow :=
  imap (λ i f, mkXorbFrameRow (as_u32 (Z.of_nat i)) (on_disk_start f) (on_disk_len f) (uncompressed_len f)) frames.

Definition upload_xorb (svc : Service A) (claims : TokenClaims) (hash_hex : str) (body : bytes)
    : H UploadXorbResponse :=
  hash ← decode_path "malformed xorb hash: " hash_hex;
  let xorb : XorbHash := newtype hash in
  if MAX_BODY_BYTES <? len body then throw (bad_req (lit "xorb exceeds 64 MiB limit"))
  else
    let owner := owner (claim_repo claims) in
    quota ← effective_quota (default_quota_bytes svc) owner;
    _ ← match quota with
        | Some quota =>
            xorb_already_exists ← blobs (blob_exists xorb);
            if xorb_already_exists : bool then mret tt
            else
              used ← meta (stored_bytes_for_owner owner);
              if quota <? saturating_add used (len body)
              then throw (quota_exceeded owner used quota (len body)) else mret tt
        | None => mret tt
        end;
    frames ← lift (map_err (λ e, bad_req (lit "malformed xorb body: " ++ XorbParseError_display e))
               (parse_xorb_frames body));
    let layout := layout_rows frames in
    _ ← lift (map_err (λ e, match e with
          | HashMismatch => bad_req (lit "xorb body does not match URL hash")
          | other => bad_req (lit "xorb body verification failed: " ++ XorbVerifyError_display other)
          end) (verify_body body xorb));
    _ ← meta (register_xorb_layout xorb layout);
    was_inserted ← blobs (put_xorb xorb body);
    _ ← count (XORBS_UPLOADED (negb was_inserted));
    _ ← count (UPLOAD_BYTES (len body) "xorb");
    mret (mkUploadXorbResponse was_inserted).

Definition missing_xorb (x : XorbHash) : ApiError :=
  bad_req (lit "shard references missing xorb " ++ Hash32_debug (unwrap x)).

Definition require_xorb (x : XorbHash) : H unit :=
  b ← blobs (blob_exists x);
  if negb b then throw (missing_xorb x) else mret tt.

Definition check_entry (e : FileTermEntry) : H unit :=
  _ ← require_xorb (fe_xorb e);
  if fe_chunk_idx_end e <=? fe_chunk_idx_start e
  then throw (bad_req (lit "shard file term has empty/inverted chunk range ["
         ++ to_string (fe_chunk_idx_start e) ++ lit ", " ++ to_string (fe_chunk_idx_end e) ++ lit ")"))
  else mret tt.

Definition xorb_info (layouts : gmap XorbHash (list XorbFrameRow)) (cb : ParsedCasBlock) : XorbInfo :=
  let derived := match layouts !! cas_xorb cb with
                 | Some frames => as_u32 (sumZ (xf_on_disk_len <$> frames))
                 | None => 0
                 end in
  mkXorbInfo (cas_xorb cb) (as_u32 (len (cas_chunks cb))) (num_bytes_in_cas cb)
    (if 0 <? derived then derived else num_bytes_on_disk cb).

Definition chunk_rows (cb : ParsedCasBlock) : list ChunkRow :=
  imap (λ idx c, mkChunkRow (ce_chunk_hash c) (as_u32 (Z.of_nat idx)) (ce_byte_start c)
                   (ce_unpacked_segment_bytes c)) (cas_chunks cb).

Definition file_candidates (fs : list ParsedFile) : list XorbHash := fs ≫= λ f, fe_xorb <$> entries f.

(** The terms of a file; the index into the verifications panics out of range. *)
Definition file_terms (f : ParsedFile) : outcome ApiError (FileHash * list FileTerm) :=
  let has_verification := negb (bool_decide (verifications f = [])) in
  if has_verification && negb (bool_decide (length (verifications f) = length (entries f)))
  then Err (bad_req (lit "shard has verification entries but count != term count"))
  else
    terms ← fold_out (λ acc (p : nat * FileTermEntry),
      let e := p.2 in
      v ← (if has_verification then v ← index (verifications f) p.1; mret (Some v) else mret None);
      mret (acc ++ [mkFileTerm (fe_xorb e) (fe_chunk_idx_start e) (fe_chunk_idx_end e)
                      (fe_unpacked_segment_bytes e) v])) [] (imap pair (entries f));
    mret (file_hash f, terms).

Definition shard_storage_hash (b : bytes) : ShardHash := newtype (mkHash32 (blake3_hash b)).

Definition upload_shard (svc : Service A) (claims : TokenClaims) (body : bytes) : H UploadShardResponse :=
  if MAX_BODY_BYTES <? len body then throw (bad_req (lit "shard exceeds 64 MiB limit"))
  else
    parsed ← lift (map_err (λ e, bad_req (lit "malformed shard: " ++ ShardError_display e)) (parse body));
    _ ← for_each (λ cb, require_xorb (cas_xorb cb)) (cas_blocks parsed);
    _ ← for_each (λ f, for_each check_entry (entries f)) (files parsed);
    frame_layouts ← meta (xorb_frame_layouts (cas_xorb <$> cas_blocks parsed));
    _ ← for_each (λ cb, meta (register_xorb (xorb_info frame_layouts cb) (chunk_rows cb))) (cas_blocks parsed);
    let owner := owner (claim_repo claims) in
    quota ← effective_quota (default_quota_bytes svc) owner;
    _ ← match quota with
        | Some quota =>
            used ← meta (stored_bytes_for_owner owner);
            delta ← meta (unaccounted_xorb_bytes_for_owner owner (file_candidates (files parsed)));
            if quota <? saturating_add used delta
            then throw (quota_exceeded owner used quota delta) else mret tt
        | None => mret tt
        end;
    files_to_register ← lift (fold_out (λ acc f, ft ← file_terms f; mret (acc ++ [ft])) [] (files parsed));
    _ ← blobs (put_shard (shard_storage_hash body) body);
    _ ← meta (register_files (claim_repo claims) files_to_register);
    _ ← count SHARDS_UPLOADED;
    _ ← count (UPLOAD_BYTES (len body) "shard");
    mret (mkUploadShardResponse 1).

(** ** Reconstruction *)

Definition layout_missing : ApiError :=
  mkApiError 500 (lit "xorb on-disk layout missing — upload predates layout indexing").
Definition bad_term_range : ApiError :=
  internal_error "term chunk range invalid or exceeds xorb's known frames".

(** The frames of a term: its first and its last one. *)
Definition term_frames (t : FileTerm) (layout : list XorbFrameRow) : H (XorbFrameRow * XorbFrameRow) :=
  if (ft_chunk_idx_end t <=? ft_chunk_idx_start t) || (len layout <? ft_chunk_idx_end t)
  then throw bad_term_range
  else
    start_frame ← lift (index layout (Z.to_nat (ft_chunk_idx_start t)));
    last_frame ← lift (index layout (Z.to_nat (ft_chunk_idx_end t - 1)));
    mret (start_frame, last_frame).

(** One round of the loop over the terms. *)
Definition reconstruct_term (svc : Service A) (layouts : gmap XorbHash (list XorbFrameRow))
    (acc : list CASReconstructionTerm * gmap str (list CASReconstructionFetchInfo)) (t : FileTerm)
    : H (list CASReconstructionTerm * gmap str (list CASReconstructionFetchInfo)) :=
  let xorb_hex := encode_hash (unwrap (ft_xorb t)) in
  layout ← lift (ok_or layout_missing (layouts !! ft_xorb t));
  fl ← term_frames t layout;
  let byte_start := xf_on_disk_start fl.1 in
  let byte_end_inclusive := as_u64 (xf_on_disk_start fl.2 + xf_on_disk_len fl.2 - 1) in
  let range := mkRangeJson (ft_chunk_idx_start t) (ft_chunk_idx_end t) in
  let wire_terms := acc.1 ++ [mkCASReconstructionTerm xorb_hex (ft_unpacked_segment_bytes t) range] in
  presigned ← blobs (presign_xorb_range (ft_xorb t) byte_start (as_u64 (byte_end_inclusive + 1)) SIGNATURE_TTL_SECS);
  url ← match presigned with
        | Some u => mret u
        | None => build_signed_url (public_base_url svc) (transfer_secret svc) xorb_hex byte_start byte_end_inclusive
        end;
  let info := mkFetchInfo range url (mkRangeJson byte_start byte_end_inclusive) in
  mret (wire_terms, <[xorb_hex := default [] (acc.2 !! xorb_hex) ++ [info]]> acc.2).

Definition build_reconstruction_response (svc : Service A) (file_hash : FileHash)
    : H QueryReconstructionResponse :=
  found ← meta (lookup_file file_hash);
  terms ← lift (ok_or (not_found "file not found") found);
  layouts ← meta (xorb_frame_layouts (ft_xorb <$> terms));
  tf ← fold_st (reconstruct_term svc layouts) ([], ∅) terms;
  mret (mkQueryReconstructionResponse 0 tf.1 tf.2).

Definition get_reconstruction (svc : Service A) (claims : TokenClaims) (file_hex : str)
    : H QueryReconstructionResponse :=
  h ← decode_path "malformed file id: " file_hex;
  let file_hash : FileHash := newtype h in
  b ← meta (file_in_repo file_hash (repo_id (claim_repo claims)));
  if negb b then throw (not_found "file not found")
  else
    resp ← build_reconstruction_response svc file_hash;
    _ ← count RECONSTRUCTIONS_SERVED;
    mret resp.

(** ** Downloads *)

(** [splitn(3, '.')]: the second part. *)
Definition extract_filename_sha256 (token : str) : option str :=
  hp ← split_once token x2e;
  let payload_b64 := match split_once hp.2 x2e with Some (p, _) => p | None => hp.2 end in
  payload ← b64_decode payload_b64;
  filename_sha256 ← payload_from_slice payload;
  match filename_sha256 with [] => None | _ => Some filename_sha256 end.

Definition validated_filename (q : FileDownloadQuery) : outcome ApiError (option str) :=
  match fq_filename q, extract_filename_sha256 (fq_token q) with
  | Some name, Some claim =>
      let got := hex_encode (vec_to_list (sha256_digest name)) in
      if negb (ct_eq got claim) then Err (bad_req (lit "filename does not match token binding"))
      else Ok (Some name)
  | _, _ => Ok None
  end.

(** The head of the response; the body is [download_stream] of its terms. *)
Definition get_file_download (svc : Service A) (file_hex : str) (q : FileDownloadQuery) : H Download :=
  h ← decode_path "malformed file id: " file_hex;
  let file_hash : FileHash := newtype h in
  repo ← lift (parse_owner_name (fq_repo q));
  _ ← lift (map_err ApiError_from (check_repo_access (authz svc) (fq_token q) repo Read));
  b ← meta (file_in_repo file_hash (repo_id repo));
  if negb b then throw (not_found "file not found")
  else
    name ← lift (validated_filename q);
    found ← meta (lookup_file file_hash);
    terms ← lift (ok_or (not_found "file not found") found);
    let total_bytes := as_u64 (sumZ (ft_unpacked_segment_bytes <$> terms)) in
    disposition ← match name with
      | Some name =>
          v ← lift (map_err (λ e, bad_req (lit "filename: " ++ e))
                (HeaderValue_try_from (lit "attachment; filename=" ++ [x22] ++ sanitize_filename name ++ [x22])));
          mret (Some v)
      | None => mret None
      end;
    mret (mkDownload 200 (lit "application/octet-stream") total_bytes disposition terms).

Definition fetch_and_decompress_term (term : FileTerm) : H bytes :=
  layout ← meta (xorb_frame_layout (ft_xorb term));
  match layout with
  | [] => throw layout_missing
  | _ =>
      fl ← term_frames term layout;
      let byte_start := xf_on_disk_start fl.1 in
      let byte_end := xf_on_disk_start fl.2 + xf_on_disk_len fl.2 in
      if MAX_TERM_UNPACKED_BYTES <? ft_unpacked_segment_bytes term
      then throw (internal_error "term unpacked size exceeds per-term cap")
      else
        body ← blobs (get_xorb_range (ft_xorb term) byte_start byte_end);
        lift (match decompress_xorb_chunks_into decompress_from_slice body [] with
              | (Ok tt, out) => Ok out
              | (Err e, _) => Err (mkApiError 500 (lit "decompress term: " ++ XorbVerifyError_display e))
              | (Panic, _) => Panic
              | (Diverged, _) => Diverged
              end)
  end.

(** The streamed items: an error is the last one. *)
Fixpoint download_stream (terms : list FileTerm) (items : list (bytes + str)) : H (list (bytes + str)) :=
  match terms with
  | [] => mret items
  | term :: terms => λ s,
      match fetch_and_decompress_term term s with
      | (Ok b, s) => download_stream terms (items ++ [inl b]) s
      | (Err e, s) => (Ok (items ++ [inr (lit "term reconstruction failed: " ++ api_message e)]), s)
      | (Panic, s) => (Panic, s)
      | (Diverged, s) => (Diverged, s)
      end
  end.

(** ** Dedup queries *)

Definition wrap_chunk_hash (chunk : ChunkHash) (key : bytes) : ChunkHash :=
  newtype (mkHash32 (hmac_sha256 key (as_bytes (unwrap chunk)))).

(** [hmac_key] is the random key of the response. *)
Definition get_dedup_chunk (hmac_key : vec byte HASH_LEN) (hash_hex : str) : H bytes :=
  h ← decode_path "malformed chunk hash: " hash_hex;
  candidates ← meta (xorbs_near_chunk (newtype h) DEDUP_NEIGHBORHOOD);
  near ← fold_st (λ near x,
    b ← blobs (blob_exists (xi_xorb x));
    mret (if b : bool then near ++ [x] else near)) [] candidates;
  match near with
  | [] => throw (not_found "chunk not found")
  | _ =>
      cas_blocks ← fold_st (λ cbs x,
        chunks ← meta (xorb_chunk_offsets (xi_xorb x));
        let entries := (λ c, mkCasChunkEntry (wrap_chunk_hash (co_chunk_hash c) (vec_to_list hmac_key))
                           (co_byte_start c) (co_unpacked_segment_bytes c)) <$> chunks in
        mret (cbs ++ [mkParsedCasBlock (xi_xorb x) 0 (xi_num_bytes_in_cas x) (xi_num_bytes_on_disk x) entries]))
        [] near;
      now ← now_unix;
      let shard := mkParsedShard
        (mkShardHeader (array_of HASH_LEN MDB_SHARD_HEADER_TAG) MDB_SHARD_HEADER_VERSION FOOTER_SIZE) [] cas_blocks
        (Some (mkShardFooter MDB_SHARD_FOOTER_VERSION 0 0 (mkHash32 hmac_key) now
                 (as_u64 (now + DEDUP_KEY_TTL_SECS)) 0)) in
      mret (serialize shard)
  end.
End http.

(** ** Steps of the handlers *)
Section steps.
Context {B M : Type}.
Implicit Types st : Server B M.

Lemma wps_blobs {X} (m : ST B CoreError X) st (Q : X → Server B M → Prop) (R : ApiError → Server B M → Prop) :
  wps m (sv_blobs st) (λ a b', Q a (set_blobs b' st)) (λ e b', R (ApiError_from e) (set_blobs b' st)) →
  wps (blobs m) st Q R.
Proof. intros Hm. unfold blobs. apply wps_map_err. unfold wps, zoom in *. by destruct (m _) as [[?|?| |] ?]. Qed.

Lemma wps_meta {X} (m : ST M CoreError X) st (Q : X → Server B M → Prop) (R : ApiError → Server B M → Prop) :
  wps m (sv_meta st) (λ a m', Q a (set_meta m' st)) (λ e m', R (ApiError_from e) (set_meta m' st)) →
  wps (meta m) st Q R.
Proof. intros Hm. unfold meta. apply wps_map_err. unfold wps, zoom in *. by destruct (m _) as [[?|?| |] ?]. Qed.

Lemma wps_decode_path what s st (Q : Hash32 → Server B M → Prop) (R : ApiError → Server B M → Prop) :
  (∀ h, decode_hash s = Ok h → Q h st) → (∀ e, R e st) → wps (decode_path what s) st Q R.
Proof.
  intros HQ HR. unfold decode_path. apply wps_lift. pose proof (decode_hash_returns s) as Hr.
  destruct (decode_hash s); simpl in *; auto.
Qed.
End steps.

Lemma parse_byte_range_returns to_str v : returned (parse_byte_range_header to_str v).
Proof.
  apply wp_returned. unfold parse_byte_range_header. wsteps.
  destruct (to_str v) as [t|]; cbn [ok_or wp]; [|exact I]. wsteps.
  destruct (strip_prefix t _) as [rest|]; cbn [ok_or wp]; [|exact I]. wsteps.
  destruct (split_once rest _) as [ab|]; cbn [ok_or wp]; [|exact I]. wsteps.
  destruct (parse_u64 (trim ab.1)); cbn [ok_or wp]; [|exact I]. wsteps.
  destruct (parse_u64 (trim ab.2)); cbn [ok_or wp]; [|exact I]. by case_match.
Qed.

Lemma parse_byte_range_le to_str v a b : parse_byte_range_header to_str v = Ok (a, b) → a ≤ b.
Proof.
  unfold parse_byte_range_header. destruct (to_str v) as [t|]; [|done]. cbn [ok_or mbind outcome_bind].
  destruct (strip_prefix t _) as [rest|]; [|done]. cbn [ok_or mbind outcome_bind].
  destruct (split_once rest _) as [ab|]; [|done]. cbn [ok_or mbind outcome_bind].
  destruct (parse_u64 (trim ab.1)); [|done]. cbn [ok_or mbind outcome_bind].
  destruct (parse_u64 (trim ab.2)); [|done]. cbn [ok_or mbind outcome_bind].
  case_match eqn:Hlt; [done|]. intros [= <- <-]. by apply Z.ltb_ge.
Qed.

(** A healthy store answers the clamped range. *)
Lemma get_range_healthy {B} `{BS : BlobStoreSpec B} h a b (s : B) body :
  blob_ok s → blob_healthy s → blob_xorb s h = Some body → 0 ≤ a ≤ b → a ≤ len body → a = b ∨ a < len body →
  ∃ piece s', get_xorb_range h a b s = (Ok piece, s') ∧
    slice body (Z.to_nat a) (Z.to_nat (Z.min b (len body))) = Some piece.
Proof.
  intros Hok Hhl Hb Hab Ha He. pose proof (get_xorb_range_live h a b s body Hok Hhl Hb Hab Ha He) as Hl.
  pose proof (get_xorb_range_spec h a b s Hok ltac:(lia)) as Hs. unfold wps in Hs.
  destruct (get_xorb_range h a b s) as [[piece|e| |] s']; try discriminate.
  destruct Hs as (_ & _ & _ & Hr). rewrite Hb in Hr. exists piece, s'. split; [done|].
  apply range_answer_of; [done|lia|done].
Qed.
