(* ===== verification/HttpAuth.v ===== *)
(** * Who may do what over HTTP

    The bearer checks in front of the handlers, the tokens the server issues,
    the admin gate, and the signed transfer URLs. *)

From Stdlib.Strings Require Import Byte.
From stdpp Require Import gmap.
From S2P Require Import Prelude RustStd Core Wire Xorb Shard MemStore Db Sqlite Accounting Tokens Authz Http.

(** ** The signed text

    The fields are separated by a character that occurs in none of them, so the
    text determines them. *)

Definition wf_range (r : SignedRange) : Prop :=
  (x7c ∉ hash_hex r) ∧ is_u64 (sr_start r) ∧ is_u64 (end_inclusive r) ∧ is_u64 (sr_exp r).

Lemma app_sep_inj (c : byte) a b a' b' :
  c ∉ a → c ∉ a' → a ++ [c] ++ b = a' ++ [c] ++ b' → a = a' ∧ b = b'.
Proof.
  intros Ha Ha' H. assert (Hs : split_once (a ++ [c] ++ b) c = Some (a, b)) by by apply split_once_Some.
  rewrite H in Hs. apply split_once_Some in Hs as [Hs _].
  assert (Hs' : split_once (a' ++ [c] ++ b') c = Some (a', b')) by by apply split_once_Some.
  rewrite Hs in Hs'. rewrite (proj2 (split_once_Some (a ++ c :: b) c a b)) in Hs' by done. naive_solver.
Qed.

Lemma signed_message_inj r r' :
  wf_range r → wf_range r' → signed_message r = signed_message r' → r = r'.
Proof.
  destruct r as [h s e x], r' as [h' s' e' x'].
  intros (Hh & Hs & He & Hx) (Hh' & Hs' & He' & Hx') H. simpl in *.
  unfold signed_message in H. simpl in H.
  assert (Hn : ∀ z, is_u64 z → x7c ∉ to_string z) by (intros z [? _]; by apply to_string_not_in).
  apply (app_sep_inj x7c) in H as [-> H]; [|done..].
  apply (app_sep_inj x7c) in H as [Hss H]; [|by apply Hn..].
  apply (app_sep_inj x7c) in H as [Hee Hxx]; [|by apply Hn..].
  apply to_string_inj in Hss, Hee, Hxx; congruence.
Qed.

(** Decodable hash texts are hex, so they hold no separator. *)
Lemma encode_hash_no_bar h : x7c ∉ encode_hash h.
Proof.
  unfold encode_hash. intros Hin. apply list_elem_of_In, in_flat_map in Hin as (g & _ & Hin).
  apply in_flat_map in Hin as (j & _ & Hin). revert Hin. rewrite fmt_02x_digits, <-list_elem_of_In.
  set (b := hash_at _ _). pose proof (byte_to_Z_range b). clearbody b.
  assert (Hd : ∀ d, 0 ≤ d < 16 → digit_char d ≠ x7c).
  { intros d Hd H2%(f_equal byte_to_Z). unfold digit_char in H2. change (byte_to_Z x7c) with 124 in H2.
    destruct (Z.ltb_spec d 10); rewrite byte_to_of_Z, Z.mod_small in H2 by lia; lia. }
  pose proof (Hd (byte_to_Z b / 16) ltac:(div_lia)). pose proof (Hd (byte_to_Z b mod 16) ltac:(div_lia)).
  set_solver.
Qed.

(** ** Signed transfer URLs *)
Section transfer.
#[local] Set Default Proof Using "Type*".
Context {B M A : Type} {BO : BlobStore B} {BS : BlobStoreSpec B}.
Variable hmac_sha256 : bytes → bytes → vec byte HASH_LEN.
Variable hex_encode : bytes → str.
Variable to_str : bytes → option str.
Variable HeaderValue_try_from : str → outcome str bytes.
Implicit Types st : Server B M.

Abbreviation sig_of svc r := (sign hmac_sha256 hex_encode (transfer_secret (A := A) svc) r).
Abbreviation transfer := (get_xorb_transfer hmac_sha256 hex_encode to_str HeaderValue_try_from).

Record TransferCrates : Prop := {
  hex_encode_inj a b : hex_encode a = hex_encode b → a = b;
  hex_encode_length b : length (hex_encode b) = (2 * length b)%nat;
  to_str_visible v : Forall (λ c, in_range c 32 126 = true) v → to_str v = Some v;
  try_from_visible v : Forall (λ c, in_range c 32 126 = true) v → HeaderValue_try_from v = Ok v;
  try_from_returns v : returned (HeaderValue_try_from v);
}.
Hypothesis crates : TransferCrates.

Lemma sig_length svc r : is_u32 (len (sig_of svc r)).
Proof. unfold sign, len. rewrite (hex_encode_length crates), length_vec_to_list. unfold is_u32, HASH_LEN. lia. Qed.

Lemma http_ct_eq_spec a b : is_u32 (len a) → is_u32 (len b) → Http.ct_eq a b = true ↔ a = b.
Proof. apply ct_eq_spec. Qed.

(** The MAC of the secret does not collide on the texts of two ranges. *)
Definition mac_separates (svc : Service A) (r r' : SignedRange) : Prop :=
  hmac_sha256 (transfer_secret svc) (signed_message r) = hmac_sha256 (transfer_secret svc) (signed_message r') →
  signed_message r = signed_message r'.

Lemma sign_inj svc r r' :
  wf_range r → wf_range r' → mac_separates svc r r' → sig_of svc r = sig_of svc r' → r = r'.
Proof.
  intros Hr Hr' Hmac H. apply signed_message_inj; [done..|].
  apply Hmac, vec_to_list_inj2, (hex_encode_inj crates), H.
Qed.

Lemma transfer_wps svc hh q headers st :
  blob_ok (sv_blobs st) → is_u64 (tq_s q) → is_u64 (tq_e q) → is_u64 (tq_x q) →
  wps (transfer svc hh q headers) st
    (λ t _, ∃ h, decode_hash hh = Ok h ∧
       Http.ct_eq (sig_of svc (mkSignedRange hh (tq_s q) (tq_e q) (tq_x q))) (tq_sig q) = true ∧
       Z.max 0 (sv_clock st (sv_reads st)) ≤ tq_x q ∧
       (header_get headers (lit "range") ≫= λ v, match parse_byte_range_header to_str v with Ok r => Some r | _ => None end)
         = Some (tq_s q, tq_e q) ∧
       range_answer (blob_xorb (sv_blobs st) (newtype h)) (tq_s q) (as_u64 (tq_e q + 1)) (tr_body t))
    (λ _ _, True).
Proof.
  intros Hok Hs He Hx. unfold get_xorb_transfer. wsteps. apply wps_decode_path; [|done]. intros h Hh.
  destruct (Http.ct_eq _ _) eqn:Hc; cbn [negb]; [|done]. wsteps. unfold now_unix at 1. cbn [wps].
  destruct (Z.ltb_spec (tq_x q) (Z.max 0 (sv_clock st (sv_reads st)))) as [|Hnow]; [done|]. wsteps.
  destruct (header_get headers (lit "range")) as [v|] eqn:Hv; [|done]. cbn [ok_or wp]. wsteps.
  pose proof (parse_byte_range_returns to_str v) as Hret.
  destruct (parse_byte_range_header to_str v) as [[a b]|e| |] eqn:Hp; try done. cbn [map_err wp fst snd].
  destruct (Z.eqb_spec a (tq_s q)) as [->|]; [|done]. destruct (Z.eqb_spec b (tq_e q)) as [->|]; [|done].
  cbn [negb orb]. wsteps. apply wps_blobs. cbn [sv_blobs].
  eapply wps_mono; [apply get_xorb_range_spec; [done|apply Hs]| |done].
  intros body b' (_ & _ & _ & Hr). wsteps.
  pose proof (try_from_returns crates (lit "bytes " ++ to_string (tq_s q) ++ lit "-" ++ to_string (tq_e q) ++ lit "/*")) as Ht.
  destruct (HeaderValue_try_from _); try done. cbn [map_err wp]. wsteps.
  exists h. split_and!; [done..| |done].
  cbn. by rewrite Hp.
Qed.

Definition query_range (hh : str) (q : TransferQuery) : SignedRange :=
  mkSignedRange hh (tq_s q) (tq_e q) (tq_x q).

(** C29. A transfer signature is good for one range of one xorb: whoever
    presents the signature the server made for a range and gets an answer asked
    for that very xorb and range, in the query and in the Range header, before
    the expiry, and got that range of the stored body, cut at its end. *)
Theorem transfer_authentic svc hh q headers st st' r t :
  blob_ok (sv_blobs st) → is_u64 (tq_s q) → is_u64 (tq_e q) → is_u64 (tq_x q) →
  wf_range r → end_inclusive r < u64_max → tq_sig q = sig_of svc r →
  mac_separates svc (query_range hh q) r →
  transfer svc hh q headers st = (Ok t, st') →
  query_range hh q = r ∧ sv_clock st (sv_reads st) ≤ sr_exp r ∧
  (∃ v, header_get headers (lit "range") = Some v ∧
     parse_byte_range_header to_str v = Ok (sr_start r, end_inclusive r)) ∧
  ∃ h body, hh = encode_hash h ∧ blob_xorb (sv_blobs st) (newtype h) = Some body ∧
    slice body (Z.to_nat (sr_start r)) (Z.to_nat (Z.min (end_inclusive r + 1) (len body))) = Some (tr_body t).
Proof.
  intros Hok Hs He Hx Hr Hmax Hsig Hmac Ht.
  pose proof (transfer_wps svc hh q headers st Hok Hs He Hx) as Hw. unfold wps in Hw. rewrite Ht in Hw.
  destruct Hw as (h & Hh & Hct & Hnow & Hrange & Hans).
  apply decode_hash_spec in Hh. rewrite Hsig in Hct.
  apply http_ct_eq_spec in Hct; [|apply sig_length..].
  assert (Heq : query_range hh q = r).
  { apply sign_inj in Hct; [done| |done|done]. split_and!; try done. simpl. rewrite Hh. apply encode_hash_no_bar. }
  subst r. simpl in *. split; [done|]. split; [lia|].
  destruct (header_get headers (lit "range")) as [v|]; [|done]. cbn in Hrange.
  assert (Hp : parse_byte_range_header to_str v = Ok (tq_s q, tq_e q)) by (destruct (parse_byte_range_header to_str v); congruence).
  split; [by exists v|]. pose proof (parse_byte_range_le _ _ _ _ Hp) as Hle.
  rewrite as_u64_id in Hans by (unfold is_u64, u64_max in *; lia).
  apply range_answer_some in Hans as (body & Hbody & _ & Hsl); [|lia]. by exists h, body.
Qed.

Lemma parse_range_header a b :
  is_u64 a → is_u64 b → a ≤ b →
  parse_byte_range_header to_str (lit "bytes=" ++ to_string a ++ lit "-" ++ to_string b) = Ok (a, b).
Proof.
  intros Ha Hb Hab. unfold parse_byte_range_header.
  assert (Hd : ∀ z, is_u64 z → Forall (λ c, is_digit c = true) (to_string z)) by (intros z [? _]; by apply to_string_is_digits).
  assert (Hv : ∀ z, is_u64 z → Forall (λ c, in_range c 32 126 = true) (to_string z)).
  { intros z Hz. eapply Forall_impl; [by apply Hd|]. intros c. unfold is_digit, in_range.
    intros [?%Z.leb_le ?%Z.leb_le]%andb_prop. apply andb_true_intro. split; apply Z.leb_le; lia. }
  rewrite (to_str_visible crates).
  - cbn [ok_or mbind outcome_bind]. rewrite strip_prefix_app. cbn [ok_or mbind outcome_bind].
    rewrite (proj2 (split_once_Some _ x2d (to_string a) (to_string b))).
    + cbn [ok_or mbind outcome_bind fst snd]. rewrite !trim_digits, !parse_u64_to_string by auto.
      cbn [ok_or mbind outcome_bind]. by rewrite (proj2 (Z.ltb_ge _ _)) by lia.
    + split; [done|]. destruct Ha. by apply to_string_not_in.
  - repeat (apply Forall_app; split); try (by apply Hv); repeat constructor.
Qed.

Lemma content_range a b : is_u64 a → is_u64 b →
  HeaderValue_try_from (lit "bytes " ++ to_string a ++ lit "-" ++ to_string b ++ lit "/*")
  = Ok (lit "bytes " ++ to_string a ++ lit "-" ++ to_string b ++ lit "/*").
Proof.
  intros [Ha _] [Hb _]. apply (try_from_visible crates).
  assert (Hv : ∀ z, 0 ≤ z → Forall (λ c, in_range c 32 126 = true) (to_string z)).
  { intros z Hz. eapply Forall_impl; [by apply to_string_is_digits|]. intros c. unfold is_digit, in_range.
    intros [?%Z.leb_le ?%Z.leb_le]%andb_prop. apply andb_true_intro. split; apply Z.leb_le; lia. }
  repeat (apply Forall_app; split); try (by apply Hv); repeat constructor.
Qed.

(** The URLs the server hands out work: the parameters of a URL signed for
    a range of a xorb, presented with that range in the Range header at any
    later state of the store that has the xorb, get that range until ten
    minutes after the signing. *)
Theorem signed_url_serves (svc : Service A) h start end_ st url st1 :
  build_signed_url hmac_sha256 hex_encode (public_base_url svc) (transfer_secret svc) (encode_hash h)
    start end_ st = (Ok url, st1) →
  0 ≤ start ≤ end_ → end_ < u64_max → sv_clock st (sv_reads st) < 2 ^ 63 →
  ∃ q, url = signed_url (public_base_url svc) (encode_hash h) (tq_s q) (tq_e q) (tq_x q) (tq_sig q) ∧
    tq_s q = start ∧ tq_e q = end_ ∧ tq_x q = Z.max 0 (sv_clock st (sv_reads st)) + SIGNATURE_TTL_SECS ∧
    ∀ st2 body, blob_ok (sv_blobs st2) → blob_healthy (sv_blobs st2) →
      blob_xorb (sv_blobs st2) (newtype h) = Some body → start < len body →
      sv_clock st2 (sv_reads st2) ≤ tq_x q →
      ∃ piece st3, transfer svc (encode_hash h) q
          [(lit "range", lit "bytes=" ++ to_string start ++ lit "-" ++ to_string end_)] st2
        = (Ok (mkTransfer 206 (len piece) (lit "bytes " ++ to_string start ++ lit "-" ++ to_string end_ ++ lit "/*") piece), st3) ∧
        slice body (Z.to_nat start) (Z.to_nat (Z.min (end_ + 1) (len body))) = Some piece.
Proof.
  intros Hb Hse Hmax Hck. unfold build_signed_url, mbind, ST_bind, now_unix, mret, ST_ret in Hb.
  set (x := as_u64 _) in Hb. injection Hb as <- _.
  assert (Hx : x = Z.max 0 (sv_clock st (sv_reads st)) + SIGNATURE_TTL_SECS)
    by (unfold x, SIGNATURE_TTL_SECS; apply as_u64_id; unfold is_u64; lia).
  exists (mkTransferQuery start end_ x (sig_of svc (mkSignedRange (encode_hash h) start end_ x))).
  cbn [tq_s tq_e tq_x tq_sig]. split_and!; [done..|].
  intros st2 body Hok Hhl Hbody Hlen Hnow.
  assert (Hu : is_u64 start ∧ is_u64 end_) by (unfold is_u64, u64_max in *; lia). destruct Hu as [Hus Hue].
  assert (Hex : 0 ≤ x) by (rewrite Hx; unfold SIGNATURE_TTL_SECS; lia).
  unfold get_xorb_transfer, decode_path, mbind, ST_bind, lift. cbn [tq_s tq_e tq_x tq_sig].
  rewrite encode_decode_hash. cbn [map_err]. rewrite (proj2 (http_ct_eq_spec _ _ (sig_length _ _) (sig_length _ _))) by done.
  cbn [negb]. unfold now_unix. cbv beta iota. rewrite (proj2 (Z.ltb_ge _ _)) by lia.
  change (header_get [(lit "range", ?v)] (lit "range")) with (Some v). cbn [ok_or].
  rewrite parse_range_header by (done || lia). cbn [map_err fst snd]. rewrite !Z.eqb_refl. cbn [negb orb].
  rewrite (as_u64_id (end_ + 1)) by (unfold is_u64, u64_max in *; lia).
  destruct (get_range_healthy (newtype h) start (end_ + 1) (sv_blobs st2) body Hok Hhl Hbody ltac:(lia) ltac:(lia) (or_intror Hlen))
    as (piece & b' & Hget & Hsl).
  unfold blobs, st_map_err, zoom. cbn [sv_blobs]. rewrite Hget. cbn [map_err].
  rewrite content_range by done. cbn [map_err]. eauto.
Qed.
End transfer.

(** ** Bearers *)
Section bearers.
Context {B M A : Type} {AO : RepoAuthz A}.
Variable to_str : bytes → option str.
Variable hex_decode : str → option bytes.
Implicit Types s : Server B M.

(** The middleware: the request of a bearer with valid claims goes on, unless it
    is a POST of a read token; every other one ends there. *)
Lemma auth_middleware_bearer {R} (svc : Service A) method headers token claims (next : TokenClaims → ST (Server B M) ApiError R) s :
  header_get headers (lit "authorization") = Some (lit "Bearer " ++ token) →
  to_str (lit "Bearer " ++ token) = Some (lit "Bearer " ++ token) →
  verify_xet_token (authz svc) token = claims →
  auth_middleware to_str svc method headers next s
  = match map_err ApiError_from claims with
    | Ok c => if bool_decide (method = POST) && bool_decide (claim_scope c = Read)
              then (Err (mkApiError 403 (lit "this endpoint requires a write-scope token")), s)
              else next c s
    | Err e => (Err e, s)
    | Panic => (Panic, s)
    | Diverged => (Diverged, s)
    end.
Proof.
  intros Hh Hs Hv. unfold auth_middleware, mbind, ST_bind, lift. rewrite Hh. unfold option_bind. rewrite Hs.
  cbn [ok_or]. rewrite strip_prefix_app. cbn [ok_or]. rewrite Hv.
  destruct (map_err _ claims); [|done..]. by case_match.
Qed.

(** What a request presents to the admin gate. *)
Definition presented (headers : Headers) : option bytes :=
  raw ← bearer to_str headers; hex_decode (trim raw).

(** The admin bearer is the only key to the quotas: setting one does so
    exactly when the configured admin token was presented; with another bearer
    the answer is 401, without a configured token 404, and nothing changes.
    Usage is shown exactly to the admin bearer and to valid tokens whose
    repository has the owner, and the check changes nothing. *)
Theorem admin_gate `{!MetadataStore M} (svc : Service A) owner_name headers body s :
  (∀ a, admin_token svc = Some a → is_u32 (len a)) →
  (∀ p, presented headers = Some p → is_u32 (len p)) →
  (∀ t, returned (verify_xet_token (authz svc) t)) →
  let put := put_owner_quota hex_decode to_str svc owner_name headers body in
  let is_admin := is_Some (admin_token svc) ∧ presented headers = admin_token svc in
  (is_admin → put s = (_ ← meta (set_owner_quota owner_name (limit_bytes body)); mret 204) s) ∧
  (¬ is_admin → ∃ e, put s = (Err e, s) ∧
     api_status e = match admin_token svc with None => 404 | Some _ => 401 end) ∧
  ∃ r, require_admin_or_owner hex_decode to_str svc headers owner_name s = (r, s) ∧
    (r = Ok tt ↔ is_admin ∨ ∃ t c, bearer to_str headers = Some t ∧
       verify_xet_token (authz svc) t = Ok c ∧ owner (claim_repo c) = owner_name).
Proof.
  intros Ha Hp Hv. cbv zeta.
  assert (Hct : ∀ a p, admin_token svc = Some a → presented headers = Some p → Http.ct_eq p a = true ↔ p = a)
    by (intros a p Hsa Hsp; apply ct_eq_spec; auto).
  unfold put_owner_quota, require_admin_or_owner, presented, mbind, ST_bind, lift in *.
  destruct (bearer to_str headers) as [raw|] eqn:Hb; cbn [option_bind] in *.
  2: { cbn [ok_or]. split_and!.
    - intros [[a ->] [=]].
    - intros _. destruct (admin_token svc); simpl; eauto.
    - eexists. split; [done|]. split; [done|]. intros [[[a ->] [=]]|(? & ? & [=] & _)]. }
  cbn [ok_or]. specialize (Hv raw).
  assert (Hreq : ∀ P : Prop, ¬ P → ∃ r,
    (match map_err ApiError_from (verify_xet_token (authz svc) raw) with
     | Ok c => (if negb (bool_decide (owner (claim_repo c) = owner_name))
                then throw (mkApiError 403 (lit "token not scoped to this owner")) else mret tt) s
     | Err e => (Err e, s) | Panic => (Panic, s) | Diverged => (Diverged, s) end) = (r, s) ∧
    (r = Ok tt ↔ P ∨ ∃ t c, Some raw = Some t ∧ verify_xet_token (authz svc) t = Ok c ∧
                   owner (claim_repo c) = owner_name)).
  { intros P HP. destruct (verify_xet_token (authz svc) raw) as [c|e| |] eqn:Hc; try done; cbn [map_err];
      [case_bool_decide as Ho; cbn [negb]|]; eexists; (split; [reflexivity|]);
      (split; [intros Hr; try discriminate Hr; right; eauto|intros [?|(t & c' & [= <-] & Ht & ?)]]);
      first [done|congruence]. }
  destruct (admin_token svc) as [a|], (hex_decode (trim raw)) as [p|]; cbn [ok_or];
    [specialize (Hct a p eq_refl eq_refl); destruct (Http.ct_eq p a) eqn:Hc|..].
  1: { pose proof (proj1 Hct eq_refl) as ->. cbn [negb]. split_and!; [done|intros Hn; destruct Hn; by split|].
       exists (Ok tt). split; [done|]. split; [left; by split|done]. }
  1: assert (p ≠ a) by (intros Heq; apply Hct in Heq; discriminate).
  all: cbn [negb]; split; [intros [[? ?] ?]; congruence|split; [eauto|]]; apply Hreq; intros [[? ?] ?]; congruence.
Qed.
End bearers.

(** ** Issued tokens *)
Section issued.
Context {B M : Type}.
Variable to_str : bytes → option str.
Variable encode : XetClaims → bytes → outcome str str.
Variable decode : str → bytes → Z → option XetClaims.
Variable time_error : Z → str.
Implicit Types s : Server B M.

(** What a token answers for: the question that was asked of the authorizer,
    with its approval, and what the middleware does with the token afterwards,
    at any time [now] with the authorizer of that time. *)
Definition token_gates {A} (at_time : Z → RepoAuthz A) (approved : str → RepoRef → Scope → UserId → Prop) (svc : Service A)
    type_seg ns name tok_seg rev headers t0 s resp s' : Prop :=
  let authorization := lit "Bearer " ++ access_token resp in
  ∃ hub user t scope, let repo := mkRepoRef t (ns ++ lit "/" ++ name) rev in
    bearer to_str headers = Some hub ∧ parse_hf_repo_type type_seg = Ok t ∧ parse_hf_token_scope tok_seg = Ok scope ∧
    approved hub repo scope user ∧ s' = s ∧ token_exp resp = saturating_add t0 DEFAULT_TOKEN_TTL_SECS ∧
    ∀ R method hs now (next : TokenClaims → ST (Server B M) ApiError R) s1, 0 ≤ now →
      header_get hs (lit "authorization") = Some authorization → to_str authorization = Some authorization →
      auth_middleware (RepoAuthz0 := at_time now) to_str svc method hs next s1
      = if token_exp resp <? now then (Err (mkApiError 401 (lit "unauthorized")), s1)
        else if bool_decide (method = POST) && bool_decide (scope = Read)
        then (Err (mkApiError 403 (lit "this endpoint requires a write-scope token")), s1)
        else next (mkTokenClaims user repo scope (token_exp resp)) s1.

(** Any authorizer whose tokens are minted and verified with one secret. *)
Lemma issue_gates {A} (at_time : Z → RepoAuthz A) (secret : A → bytes) (svc : Service A) type_seg ns name tok_seg rev headers t0 s resp s' :
  JwtLibrary encode decode →
  (∀ now a user repo scope, @mint_xet_token _ (at_time now) a user repo scope
    = mint encode time_error (secret a) user repo scope DEFAULT_TOKEN_TTL_SECS now) →
  (∀ now a token, @verify_xet_token _ (at_time now) a token = verify decode (secret a) token now) →
  issue_xet_token (RepoAuthz0 := at_time t0) to_str svc type_seg ns name tok_seg rev headers s = (Ok resp, s') →
  token_gates at_time (λ hub repo scope user, @check_repo_access _ (at_time t0) (authz svc) hub repo scope = Ok user)
    svc type_seg ns name tok_seg rev headers t0 s resp s'.
Proof.
  intros Hlib Hmint Hver Hissue. unfold issue_xet_token, mbind, ST_bind, lift in Hissue.
  destruct (parse_hf_repo_type type_seg) as [t|e| |] eqn:Ht; try discriminate.
  destruct (parse_hf_token_scope tok_seg) as [scope|e| |] eqn:Hsc; try discriminate.
  destruct (bearer to_str headers) as [hub|] eqn:Hhub; [|discriminate]. cbn [ok_or] in Hissue.
  destruct (check_repo_access (authz svc) hub (mkRepoRef t (ns ++ lit "/" ++ name) rev) scope)
    as [user|e| |] eqn:Hacc; try discriminate. cbn [map_err] in Hissue. rewrite Hmint in Hissue.
  destruct (mint encode time_error (secret (authz svc)) user
    (mkRepoRef t (ns ++ lit "/" ++ name) rev) scope _ t0) as [[token exp]|e| |] eqn:Hm; try discriminate.
  cbn [map_err] in Hissue. injection Hissue as <- <-. exists hub, user, t, scope. cbn [access_token token_exp fst snd] in *.
  pose proof (mint_Ok _ _ _ _ _ _ _ _ _ _ Hm) as (_ & Hexp & _).
  split_and!; [done..|]. intros R method hs now next s1 Hnow Hh Hstr.
  rewrite (auth_middleware_bearer (AO := at_time now) to_str svc method hs token
    (verify decode (secret (authz svc)) token now) next s1 Hh Hstr (Hver _ _ _)).
  rewrite (verify_minted encode decode _ _ _ _ _ _ _ _ _ now Hlib Hm Hnow).
  destruct (Z.leb_spec now exp); [rewrite (proj2 (Z.ltb_ge _ _)) by lia|rewrite (proj2 (Z.ltb_lt _ _)) by lia]; done.
Qed.

Lemma token_gates_impl {A} (at_time : Z → RepoAuthz A) (P Q : str → RepoRef → Scope → UserId → Prop) svc type_seg ns name tok_seg rev headers t0 s resp s' :
  (∀ hub repo scope user, P hub repo scope user → Q hub repo scope user) →
  token_gates at_time P svc type_seg ns name tok_seg rev headers t0 s resp s' →
  token_gates at_time Q svc type_seg ns name tok_seg rev headers t0 s resp s'.
Proof. intros HPQ (hub & user & t & scope & ? & ? & ? & ? & H). exists hub, user, t, scope. split_and!; eauto; apply H. Qed.

(** The table grants it: the token of an entry (compared in constant time,
    exact up to texts of 2^32 bytes), a grant for the repository, of the scope
    that is asked for. *)
Definition table_grants (a : ConfigAuthz) (hub : str) (repo : RepoRef) (scope : Scope) (user : UserId) : Prop :=
  ∃ k u granted, ca_users a !! k = Some u ∧ (is_u32 (len k) → is_u32 (len hub) → k = hub) ∧
    cu_repos u !! repo_id repo = Some granted ∧ (scope = Write → granted = Write) ∧ user = mkUserId (cu_user_id u).

Lemma find_user_Some (users : list (str * ConfigUser)) hub u :
  find_user users hub = Some u → ∃ k, (k, u) ∈ users ∧ Authz.ct_eq k hub = true.
Proof.
  unfold find_user. induction users as [|[k v] users IH] using rev_ind; [done|]. rewrite foldl_app. cbn.
  destruct (Authz.ct_eq k hub) eqn:He.
  - intros [= ->]. exists k. split; [|done]. apply elem_of_app. right. by apply list_elem_of_singleton.
  - intros (k' & Hk & ?)%IH. exists k'. split; [|done]. apply elem_of_app. by left.
Qed.
Lemma config_check_grants iter a hub repo scope user : (∀ m, iter m ≡ₚ map_to_list m) →
  config_check_repo_access iter a hub repo scope = Ok user → table_grants a hub repo scope user.
Proof.
  intros Hiter. unfold config_check_repo_access.
  destruct (find_user (iter (ca_users a)) hub) as [u|] eqn:Hu; [|done].
  apply find_user_Some in Hu as (k & Hk & Hct). rewrite Hiter in Hk. apply elem_of_map_to_list in Hk. cbn.
  destruct (cu_repos u !! repo_id repo) as [granted|] eqn:Hg; [|done]. cbn. intros Hs.
  exists k, u, granted. split_and!; [done| |done|by destruct scope, granted|destruct scope, granted; congruence].
  intros H1 H2. by apply Authz.ct_eq_spec.
Qed.

(** The forge's service approves it: asked with the bearer, the repository and
    the scope, it answers with success and names the user. *)
Section forge.
Context {Url : Type}.
Variable post : Url → CheckAccessRequest → outcome str Authz.Response.
Variable from_slice : bytes → option CheckAccessResponse.
Definition forge_approves (a : HttpAuthz (Url := Url)) (hub : str) (repo : RepoRef) (scope : Scope) (user : UserId) : Prop :=
  ∃ r b, post (check_access_url a) (mkCheckAccessRequest hub repo scope) = Ok r ∧ 200 ≤ Authz.status r < 300 ∧
    resp_bytes r = Some b ∧ from_slice b = Some (mkCheckAccessResponse (user_id user)).
Lemma http_check_approves a hub repo scope user :
  http_check_repo_access post from_slice a hub repo scope = Ok user → forge_approves a hub repo scope user.
Proof.
  intros H. apply (http_check_fails_closed post from_slice) in H as (r & b & Hr & Hs & _ & Hb & _ & Hf).
  exists r, b. split_and!; try done; unfold Authz.is_success in Hs; lia.
Qed.
End forge.

(** C36. The token endpoint and the middleware agree on scope and time, for
    both authorizers that mint tokens.  A token is issued only for a repository
    and a scope that the hub bearer was approved for: by a grant of the
    configured table, or, for the authorizer that delegates, by the forge's
    service, which was asked about that bearer, repository and scope and named
    the user.  Then, and for any handler, the middleware runs the handler with
    the claims of that user, repository and scope until the token expires,
    except that a read token never gets a POST through; after that every request
    ends in 401. *)
Theorem issued_token_gates : JwtLibrary encode decode →
  (∀ iter (svc : Service ConfigAuthz) type_seg ns name tok_seg rev headers t0 s resp s',
    (∀ m, iter m ≡ₚ map_to_list m) →
    let config now := ConfigAuthz_authz encode decode time_error now iter in
    issue_xet_token (RepoAuthz0 := config t0) to_str svc type_seg ns name tok_seg rev headers s = (Ok resp, s') →
    token_gates config (table_grants (authz svc)) svc type_seg ns name tok_seg rev headers t0 s resp s') ∧
  (∀ Url post from_slice (svc : Service (HttpAuthz (Url := Url))) type_seg ns name tok_seg rev headers t0 s resp s',
    let forge now := HttpAuthz_authz post from_slice encode decode time_error now in
    issue_xet_token (RepoAuthz0 := forge t0) to_str svc type_seg ns name tok_seg rev headers s = (Ok resp, s') →
    token_gates forge (forge_approves post from_slice (authz svc)) svc type_seg ns name tok_seg rev headers t0 s resp s').
Proof.
  intros Hlib. split.
  - intros iter svc type_seg ns name tok_seg rev headers t0 s resp s' Hiter config Hissue.
    eapply token_gates_impl; [|by apply (issue_gates config ca_jwt_secret)]. intros hub repo scope user. by apply config_check_grants.
  - intros Url post from_slice svc type_seg ns name tok_seg rev headers t0 s resp s' forge Hissue.
    eapply token_gates_impl; [|by apply (issue_gates forge ha_jwt_secret)]. intros hub repo scope user. by apply http_check_approves.
Qed.
End issued.

(** ** Executions *)

Definition visible_str (v : bytes) : option str := if forallb (λ c, in_range c 32 126) v then Some v else None.
Definition visible_header (v : str) : outcome str bytes :=
  if forallb (λ c, in_range c 32 126) v then Ok v else Err (lit "failed to parse header value").
Definition hex_of (b : bytes) : str := flat_map fmt_02x b.
(** A toy MAC: the last bytes of key and message. *)
Definition toy_mac (k m : bytes) : vec byte HASH_LEN := array_of HASH_LEN (rev (k ++ m)).

Lemma hex_of_inj a b : hex_of a = hex_of b → a = b.
Proof.
  revert b. induction a as [|x a IH]; intros [|y b]; unfold hex_of; cbn [flat_map]; rewrite ?fmt_02x_digits; try done.
  cbn [app]. intros [= H1 H2 H3]. f_equal; [|by apply IH].
  pose proof (byte_to_Z_range x). pose proof (byte_to_Z_range y).
  apply (f_equal (to_digit 16)) in H1, H2. rewrite !to_digit_char in H1, H2 by div_lia.
  apply byte_to_Z_inj. assert (byte_to_Z x / 16 = byte_to_Z y / 16) by congruence.
  assert (byte_to_Z x mod 16 = byte_to_Z y mod 16) by congruence. div_lia.
Qed.

Lemma demo_crates : TransferCrates hex_of visible_str visible_header.
Proof.
  split.
  - apply hex_of_inj.
  - intros b. unfold hex_of. induction b as [|x b IH]; [done|]. cbn [flat_map]. rewrite length_app, IH, fmt_02x_digits. simpl. lia.
  - intros v Hv. unfold visible_str. rewrite (proj2 (forallb_forall _ v)); [done|].
    intros c Hc. rewrite Forall_forall in Hv. by apply Hv, list_elem_of_In.
  - intros v Hv. unfold visible_header. rewrite (proj2 (forallb_forall _ v)); [done|].
    intros c Hc. rewrite Forall_forall in Hv. by apply Hv, list_elem_of_In.
  - intros v. unfold visible_header. by case_match.
Qed.

Definition demo_hash : Hash32 := mkHash32 (Vector.const xab HASH_LEN).
Definition demo_svc : Service unit := mkService unit tt (lit "secret") (lit "https://cas") None None.
Definition demo_server : Server MemBlobStore unit :=
  mkServer (mkMemBlobStore {[ newtype demo_hash := lit "0123456789" ]} ∅ 10 None) tt [] (λ _, 1000) 0.
Definition demo_range : SignedRange := mkSignedRange (encode_hash demo_hash) 2 5 1600.
Definition demo_query : TransferQuery :=
  mkTransferQuery 2 5 1600 (sign toy_mac hex_of (lit "secret") demo_range).
Definition demo_headers : Headers := [(lit "range", lit "bytes=2-5")].

Lemma transfer_authentic_witness :
  ∃ t st', get_xorb_transfer toy_mac hex_of visible_str visible_header demo_svc (encode_hash demo_hash)
      demo_query demo_headers demo_server = (Ok t, st') ∧
    ∃ h body, encode_hash demo_hash = encode_hash h ∧
      blob_xorb (sv_blobs demo_server) (newtype h) = Some body ∧ slice body 2 6 = Some (tr_body t).
Proof.
  set (run := get_xorb_transfer _ _ _ _ _ _ _ _ _).
  assert (Hrun : run = (Ok (mkTransfer 206 4 (lit "bytes 2-5/*") (lit "2345")), run.2)).
  { apply injective_projections; [vm_compute; reflexivity|reflexivity]. }
  exists (mkTransfer 206 4 (lit "bytes 2-5/*") (lit "2345")), run.2. split; [exact Hrun|].
  destruct (transfer_authentic toy_mac hex_of visible_str visible_header demo_crates demo_svc
    (encode_hash demo_hash) demo_query demo_headers demo_server run.2 demo_range
    (mkTransfer 206 4 (lit "bytes 2-5/*") (lit "2345"))) as (_ & _ & _ & h & body & Hh & Hb & Hs);
    [exact I|unfold is_u64; simpl; lia..| |simpl; unfold u64_max; lia|reflexivity|by intros _|exact Hrun|].
  - split_and!; [apply encode_hash_no_bar|unfold is_u64; simpl; lia..].
  - assert (encode_hash h = encode_hash demo_hash) as Heq by (symmetry; exact Hh). apply encode_hash_inj in Heq.
    subst h. vm_compute in Hb. injection Hb as <-. exists demo_hash, (lit "0123456789"). split_and!; reflexivity.
Defined.

Lemma signed_url_serves_witness :
  ∃ q, tq_x q = 1600 ∧ ∃ piece st3,
    get_xorb_transfer toy_mac hex_of visible_str visible_header demo_svc (encode_hash demo_hash) q
      [(lit "range", lit "bytes=" ++ to_string 8 ++ lit "-" ++ to_string 99)] demo_server
    = (Ok (mkTransfer 206 (len piece) (lit "bytes " ++ to_string 8 ++ lit "-" ++ to_string 99 ++ lit "/*") piece), st3) ∧
    slice (lit "0123456789") 8 10 = Some piece.
Proof.
  set (run := build_signed_url (B := MemBlobStore) (M := unit) toy_mac hex_of (lit "https://cas") (lit "secret")
    (encode_hash demo_hash) 8 99 demo_server).
  assert (Hrun : ∃ url, run = (Ok url, run.2)) by (eexists; reflexivity). destruct Hrun as [url Hrun].
  destruct (signed_url_serves toy_mac hex_of visible_str visible_header demo_crates demo_svc demo_hash 8 99 demo_server
    url run.2 Hrun ltac:(lia) ltac:(unfold u64_max; lia) ltac:(simpl; lia)) as (q & _ & _ & _ & Hx & H).
  exists q. split; [exact Hx|].
  destruct (H demo_server (lit "0123456789") I I eq_refl) as (piece & st3 & Hget & Hsl);
    [vm_compute; reflexivity|rewrite Hx; vm_compute; discriminate|].
  exists piece, st3. split; [exact Hget|exact Hsl].
Defined.

(** The admin gate over the SQLite store. *)
Definition demo_admin : Service AlwaysAllow :=
  mkService AlwaysAllow always_allow (lit "secret") (lit "https://cas") None (Some (lit "root")).
Definition demo_unhex (s : str) : option bytes := if decide (s = lit "726f6f74") then Some (lit "root") else None.

Lemma admin_gate_witness :
  let put key := put_owner_quota (MetadataStore0 := SqliteMetadataStore_ops no_column first_row) demo_unhex visible_str
    demo_admin (lit "alice") [(lit "authorization", lit "Bearer " ++ key)] (mkSetOwnerQuotaRequest (Some 5))
    (mkServer tt example_store [] (λ _, 0) 0) in
  put (lit "726f6f74") = (_ ← meta (set_owner_quota (MetadataStore := SqliteMetadataStore_ops no_column first_row)
      (lit "alice") (Some 5)); mret 204) (mkServer tt example_store [] (λ _, 0) 0) ∧
  ∃ e, put (lit "jwt") = (Err e, mkServer tt example_store [] (λ _, 0) 0) ∧ api_status e = 401.
Proof.
  pose proof (λ key, admin_gate visible_str demo_unhex
    (MetadataStore0 := SqliteMetadataStore_ops no_column first_row) demo_admin (lit "alice")
    [(lit "authorization", lit "Bearer " ++ key)] (mkSetOwnerQuotaRequest (Some 5))
    (mkServer tt example_store [] (λ _, 0) 0)) as H.
  cbv zeta in H |- *. split.
  - refine (proj1 (H (lit "726f6f74") _ _ _) _).
    + intros a [= <-]. by vm_compute.
    + intros p Hp. vm_compute in Hp. injection Hp as <-. by vm_compute.
    + by intros [].
    + split; [by eexists|vm_compute; reflexivity].
  - destruct (H (lit "jwt")) as (_ & He & _).
    + intros a [= <-]. by vm_compute.
    + intros p Hp. vm_compute in Hp. discriminate Hp.
    + by intros [].
    + destruct He as (e & He & Hc); [|by exists e]. intros [_ Hp]. vm_compute in Hp. discriminate Hp.
Defined.

(** A token of the library of [Tokens], for a configured user. *)
Definition demo_config : Service ConfigAuthz :=
  mkService ConfigAuthz (configure (lit "key") [mkGrant (lit "hub") (lit "alice") (lit "alice/a") Write])
    (lit "secret") (lit "https://cas") None None.

(** A forge that knows one bearer. *)
Definition demo_post (_ : unit) (r : CheckAccessRequest) : outcome str Authz.Response :=
  if decide (car_hub_bearer r = lit "hub") then Ok (Authz.mkResponse 200 None (Some (lit "alice"))) else Ok (Authz.mkResponse 401 None None).
Definition demo_from_slice (b : bytes) : option CheckAccessResponse := Some (mkCheckAccessResponse b).
Definition demo_forge : Service (HttpAuthz (Url := unit)) :=
  mkService (HttpAuthz (Url := unit)) (mkHttpAuthz tt (lit "key")) (lit "secret") (lit "https://cas") None None.

Lemma issued_token_gates_witness :
  (∃ hub t scope user, table_grants (authz demo_config) hub (mkRepoRef t (lit "alice/a") (lit "main")) scope user ∧
    bearer visible_str [(lit "authorization", lit "Bearer hub")] = Some hub) ∧
  (∃ hub t scope user, forge_approves demo_post demo_from_slice (authz demo_forge) hub (mkRepoRef t (lit "alice/a") (lit "main")) scope user ∧
    bearer visible_str [(lit "authorization", lit "Bearer hub")] = Some hub).
Proof.
  destruct (issued_token_gates (B := unit) (M := unit) visible_str demo_encode demo_decode (λ _, []) demo_library) as [Hc Hf]. split.
  - destruct (Hc map_to_list demo_config (lit "models") (lit "alice") (lit "a") (lit "bale-write-token") (lit "main")
      [(lit "authorization", lit "Bearer hub")] 1000 (mkServer tt tt [] (λ _, 0) 0)
      (mkXetTokenResponse (lit "key.alice") 1300 (lit "https://cas")) (mkServer tt tt [] (λ _, 0) 0))
      as (hub & user & t & scope & Hb & _ & _ & Ha & _); [done|vm_compute; reflexivity|].
    by exists hub, t, scope, user.
  - destruct (Hf unit demo_post demo_from_slice demo_forge (lit "models") (lit "alice") (lit "a") (lit "bale-write-token") (lit "main")
      [(lit "authorization", lit "Bearer hub")] 1000 (mkServer tt tt [] (λ _, 0) 0)
      (mkXetTokenResponse (lit "key.alice") 1300 (lit "https://cas")) (mkServer tt tt [] (λ _, 0) 0))
      as (hub & user & t & scope & Hb & _ & _ & Ha & _); [vm_compute; reflexivity|].
    by exists hub, t, scope, user.
Defined.
