(* ===== verification/HttpStore.v ===== *)
(** * What the handlers keep true of the stores

    Proved against the interfaces [BlobStoreSpec] and [MetadataStoreSpec]: the
    theorems hold for any pair of stores that keep those promises. *)

From stdpp Require Import gmap.
From S2P Require Import Prelude RustStd Core Wire Xorb Shard MemStore Db Sqlite Accounting Tokens Authz MetaSpec.
From S2P Require Import SqliteSpec Http.

(** ** Frames of an accepted body *)

Lemma len_frame_bytes c : len (frame_bytes c) = 8 + len (ck_payload c).
Proof. unfold len. rewrite length_frame_bytes. lia. Qed.

Lemma parsed_frames_wf body fs :
  parse_xorb_frames body = Ok fs →
  fs ≠ [] ∧ 8 * len fs ≤ len body ∧ len body ≤ u32_max ∧
  Forall (λ f, is_u32 (on_disk_start f) ∧ is_u32 (on_disk_len f) ∧ is_u32 (uncompressed_len f) ∧
    8 ≤ on_disk_len f ∧ on_disk_start f + on_disk_len f ≤ len body) fs.
Proof.
  intros (Hl & cs & footer & -> & Hne & Hwf & _ & ->)%parse_xorb_frames_spec. split_and!.
  - by destruct cs.
  - rewrite len_app. unfold len at 1. rewrite length_layout_from. fold (len cs).
    assert (8 * len cs ≤ len (body_of cs)); [|pose proof (len_nonneg footer); lia].
    clear. induction cs as [|c cs IH]; [done|]. rewrite len_cons. change (body_of (c :: cs)) with (frame_bytes c ++ body_of cs).
    rewrite len_app, len_frame_bytes. pose proof (len_nonneg (ck_payload c)). lia.
  - done.
  - apply Forall_lookup. intros i f (c & Hc & ->)%layout_lookup. cbn [on_disk_start on_disk_len uncompressed_len].
    rewrite Forall_lookup in Hwf. destruct (Hwf i c Hc) as (Hp & Hu & _).
    assert (Hb : len (body_of cs ++ footer) = len (body_of (take i cs)) + (8 + len (ck_payload c)) +
      (len (body_of (drop (S i) cs)) + len footer)).
    { rewrite <-(take_drop_middle cs i c) at 1 by done. unfold body_of. rewrite flat_map_app. cbn [flat_map].
      rewrite !len_app, len_frame_bytes. lia. }
    pose proof (len_nonneg (body_of (take i cs))). pose proof (len_nonneg (ck_payload c)).
    pose proof (len_nonneg (body_of (drop (S i) cs))). pose proof (len_nonneg footer).
    unfold is_u32, u32_max in *. lia.
Qed.

Lemma layout_rows_wf body fs :
  parse_xorb_frames body = Ok fs → Forall wf_frame_row (layout_rows fs) ∧ frames_increasing (layout_rows fs).
Proof.
  intros Hp. destruct (parsed_frames_wf _ _ Hp) as (_ & Hl & Hm & Hf). unfold layout_rows, frames_increasing.
  assert (Hidx : ∀ i, (i < length fs)%nat → as_u32 (Z.of_nat i) = Z.of_nat i).
  { intros i Hi. apply as_u32_id. unfold is_u32, u32_max, len in *. lia. }
  split.
  - apply Forall_lookup. intros i r (f & Hfi & ->)%list_lookup_imap_Some. unfold wf_frame_row. simpl.
    rewrite Forall_lookup in Hf. destruct (Hf i f Hfi) as (?&?&?&_). split_and!; [apply as_u32_range|done..].
  - clear Hp Hl Hm Hf.
    assert (H : ∀ k, (∀ i, (i < length fs)%nat → as_u32 (Z.of_nat (k + i)) = Z.of_nat (k + i)) →
      StronglySorted (λ f g, xf_frame_index f < xf_frame_index g)
        (imap (λ i f, mkXorbFrameRow (as_u32 (Z.of_nat (k + i))) (on_disk_start f) (on_disk_len f) (uncompressed_len f)) fs)).
    { clear Hidx. induction fs as [|f fs IH]; intros k Hk; cbn [imap]; constructor.
      - rewrite (imap_ext _ (λ i f, mkXorbFrameRow (as_u32 (Z.of_nat (S k + i))) (on_disk_start f) (on_disk_len f) (uncompressed_len f))).
        + apply IH. intros i Hi. replace (S k + i)%nat with (k + S i)%nat by lia. apply Hk. simpl. lia.
        + intros i g _. simpl. do 3 f_equal. lia.
      - apply Forall_lookup. intros i r (g & Hg & ->)%list_lookup_imap_Some. simpl.
        rewrite (Hk 0%nat) by (simpl; lia). apply lookup_lt_Some in Hg. rewrite (Hk (S i)) by (simpl; lia). lia. }
    apply (H 0%nat). intros i Hi. by apply Hidx.
Qed.

Section reads.
#[local] Set Default Proof Using "Type*".
Context {B M : Type} {BO : BlobStore B} {BS : BlobStoreSpec B}.
Context {MO : MetadataStore M} {MV : MetadataView M} {MS : MetadataStoreSpec M}.
Implicit Types st : Server B M.

(** The data of both stores is the same. *)
Record same_data st st' : Prop := {
  sd_ok : blob_ok (sv_blobs st');
  sd_xorb k : blob_xorb (sv_blobs st') k = blob_xorb (sv_blobs st) k;
  sd_shard k : blob_shard (sv_blobs st') k = blob_shard (sv_blobs st) k;
  sd_meta : meta_same (sv_meta st) (sv_meta st');
  sd_clock : sv_clock st' = sv_clock st;
}.

Lemma same_data_refl st : blob_ok (sv_blobs st) → same_data st st.
Proof. intros. by split. Qed.
Lemma same_data_trans st1 st2 st3 : same_data st1 st2 → same_data st2 st3 → same_data st1 st3.
Proof.
  intros [_ X1 S1 M1 C1] [O2 X2 S2 M2 C2]. split; [done|..]; intros; rewrite ?X2, ?S2, ?C2; auto. by etrans.
Qed.

(** A computation that changes nothing and answers [Q]. *)
Definition hreads {X} (m : ST (Server B M) ApiError X) (Q : Server B M → X → Prop) : Prop :=
  ∀ st, blob_ok (sv_blobs st) →
    wps m st (λ a st', same_data st st' ∧ Q st a) (λ _ st', same_data st st').

Lemma wps_hreads {X Y} (m : ST (Server B M) ApiError X) (k : X → ST (Server B M) ApiError Y) Q st Q' R :
  hreads m Q → blob_ok (sv_blobs st) →
  (∀ a st', same_data st st' → Q st a → wps (k a) st' Q' R) →
  (∀ e st', same_data st st' → R e st') → wps (m ≫= k) st Q' R.
Proof.
  intros Hm Hok Hk HR. apply wps_bind. eapply wps_mono; [by apply Hm| |]; simpl.
  - intros a st' [??]. by apply Hk.
  - intros e st' ?. by apply HR.
Qed.

Lemma hreads_ret {X} (a : X) : hreads (mret a) (λ _ b, b = a).
Proof. intros st Hok. split; [by apply same_data_refl|done]. Qed.

Lemma hreads_lift {X} (o : outcome ApiError X) : returned o → hreads (lift o) (λ _ a, o = Ok a).
Proof. intros Ho st Hok. apply wps_lift. destruct o; try done; simpl; auto using same_data_refl. Qed.

Lemma hreads_throw {X} e (Q : Server B M → X → Prop) : hreads (throw e) Q.
Proof. intros st Hok. by apply same_data_refl. Qed.

Lemma hreads_decode what s : hreads (decode_path what s) (λ _ h, decode_hash s = Ok h).
Proof. intros st Hok. apply wps_decode_path; auto using same_data_refl. Qed.

Lemma hreads_mono {X} (m : ST (Server B M) ApiError X) (Q Q' : Server B M → X → Prop) :
  hreads m Q → (∀ st a, Q st a → Q' st a) → hreads m Q'.
Proof. intros Hm HQ st Hok. eapply wps_mono; [by apply Hm| |done]. simpl. naive_solver. Qed.

(** The answer of the continuation may speak of the first state. *)
Lemma hreads_bind {X Y} (m : ST (Server B M) ApiError X) (k : X → ST (Server B M) ApiError Y) Q Q' :
  hreads m Q → (∀ st a, Q st a → ∀ st', same_data st st' →
    wps (k a) st' (λ b st'', same_data st' st'' ∧ Q' st b) (λ _ st'', same_data st' st'')) →
  hreads (m ≫= k) Q'.
Proof.
  intros Hm Hk st Hok. eapply wps_hreads; [done..| |].
  - intros a st' Hs Ha. eapply wps_mono; [by apply Hk| |]; simpl; [intros b st'' [Hs' ?]; split; [|done]|intros e st'' Hs'];
      by eapply same_data_trans.
  - done.
Qed.

Lemma hreads_meta {X} (m : ST M CoreError X) Q : meta_reads m Q → hreads (meta m) (λ st a, Q (sv_meta st) a).
Proof.
  intros Hm st Hok. apply wps_meta. eapply wps_mono; [apply Hm| |]; simpl.
  - intros a m' [Hs ?]. split; [by split|done].
  - intros e m' Hs. by split.
Qed.

Lemma hreads_exists h : hreads (blobs (blob_exists h))
  (λ st b, b = true → is_Some (blob_xorb (sv_blobs st) h)).
Proof.
  intros st Hok. apply wps_blobs. eapply wps_mono; [by apply blob_exists_spec| |]; simpl.
  - intros b b' (? & ? & ? & ?). split; [|done]. by split.
  - intros e b' (? & ? & ?). by split.
Qed.

Lemma hreads_range h a b : 0 ≤ a → hreads (blobs (get_xorb_range h a b)) (λ st r,
  range_answer (blob_xorb (sv_blobs st) h) a b r).
Proof.
  intros Ha st Hok. apply wps_blobs. eapply wps_mono; [by apply get_xorb_range_spec| |]; simpl.
  - intros r b' (? & ? & ? & ?). split; [|done]. by split.
  - intros e b' (? & ? & ?). by split.
Qed.

Lemma hreads_presign h a b ttl : hreads (blobs (presign_xorb_range h a b ttl)) (λ _ _, True).
Proof.
  intros st Hok. apply wps_blobs. eapply wps_mono; [by apply presign_spec| |]; simpl.
  - intros r b' (? & ? & ?). split; [|done]. by split.
  - intros e b' (? & ? & ?). by split.
Qed.

Lemma hreads_now : hreads now_unix (λ st n, ∃ i, n = Z.max 0 (sv_clock st i)).
Proof. intros st Hok. split; [by split|]. by eexists. Qed.

Lemma hreads_count e : hreads (count e) (λ _ _, True).
Proof. intros st Hok. split; [by split|done]. Qed.

Lemma hreads_quota default owner : hreads (effective_quota default owner) (λ _ _, True).
Proof.
  eapply hreads_bind; [apply hreads_meta, get_owner_quota_law|].
  intros st q _ st' [Hok _ _ _ _]. destruct q; (split; [by apply same_data_refl|done]).
Qed.

(** ** Checking a shard *)

Lemma hreads_for_each {X} (f : X → ST (Server B M) ApiError unit) (P : Server B M → X → Prop) l :
  (∀ st st' x, same_data st st' → P st' x → P st x) →
  (∀ x, hreads (f x) (λ st _, P st x)) →
  hreads (for_each f l) (λ st _, ∀ x, x ∈ l → P st x).
Proof.
  intros HP Hf. induction l as [|x l IH]; cbn [for_each].
  { eapply hreads_mono; [apply hreads_ret|set_solver]. }
  eapply hreads_bind; [apply Hf|]. intros st u Hx st' Hs.
  eapply wps_mono; [apply IH; by destruct Hs| |done]. simpl. intros [] st'' [Hs' Hl]. split; [done|].
  intros y [->|Hy]%elem_of_cons; [done|]. eapply HP; [done|]. by apply Hl.
Qed.

Definition present st (x : XorbHash) : Prop := is_Some (blob_xorb (sv_blobs st) x).
Lemma present_same st st' x : same_data st st' → present st' x → present st x.
Proof. intros Hs. unfold present. by rewrite (sd_xorb _ _ Hs). Qed.

Lemma hreads_require_xorb x : hreads (require_xorb x) (λ st _, present st x).
Proof.
  eapply hreads_bind; [apply hreads_exists|]. intros st b Hb st' [Hok _ _ _ _].
  destruct b; [split; [by apply same_data_refl|by apply Hb]|by apply same_data_refl].
Qed.

Definition good_entry st (e : FileTermEntry) : Prop :=
  present st (fe_xorb e) ∧ fe_chunk_idx_start e < fe_chunk_idx_end e.

Lemma hreads_check_entry e : hreads (check_entry e) (λ st _, good_entry st e).
Proof.
  eapply hreads_bind; [apply hreads_require_xorb|]. intros st u Hp st' [Hok _ _ _ _].
  destruct (Z.leb_spec (fe_chunk_idx_end e) (fe_chunk_idx_start e)).
  - by apply same_data_refl.
  - split; [by apply same_data_refl|]. split; [done|lia].
Qed.

Lemma hreads_check_files (fs : list ParsedFile) :
  hreads (for_each (λ f, for_each check_entry (entries f)) fs)
    (λ st _, ∀ f, f ∈ fs → ∀ e, e ∈ entries f → good_entry st e).
Proof.
  apply hreads_for_each.
  - intros st st' f Hs Hf e He. destruct (Hf e He). split; [by eapply present_same|done].
  - intros f. apply hreads_for_each; [|apply hreads_check_entry].
    intros st st' e Hs [??]. split; [by eapply present_same|done].
Qed.

Lemma hreads_shard_quota (quota : option Z) owner (candidates : list XorbHash) :
  hreads (match quota with
      | Some quota =>
          used ← meta (stored_bytes_for_owner owner);
          delta ← meta (unaccounted_xorb_bytes_for_owner owner candidates);
          if quota <? saturating_add used delta
          then throw (quota_exceeded owner used quota delta) else mret tt
      | None => mret tt
      end) (λ (_ : Server B M) (_ : unit), True).
Proof.
  destruct quota as [q|]; [|eapply hreads_mono; [apply hreads_ret|done]].
  eapply hreads_bind; [apply hreads_meta, stored_bytes_for_owner_law|]. intros st used _ st1 [Hok _ _ _ _].
  eapply wps_hreads; [apply hreads_meta, unaccounted_law|done| |done].
  intros delta st2 Hs _. case_match; [done|]. by split.
Qed.

(** The term list that a file of a shard is registered with. *)
Definition terms_of_file (f : ParsedFile) : list FileTerm :=
  imap (λ i e, mkFileTerm (fe_xorb e) (fe_chunk_idx_start e) (fe_chunk_idx_end e) (fe_unpacked_segment_bytes e)
    (verifications f !! i)) (entries f).

Lemma file_terms_wf f : wf_file f → file_terms f = Ok (file_hash f, terms_of_file f).
Proof.
  intros (_ & _ & _ & _ & Hv & _). unfold file_terms.
  assert (Hlen : verifications f = [] ∨ length (verifications f) = length (entries f)).
  { destruct (has_flag _ _); [by right|]. left. by apply nil_length_inv. }
  set (hv := negb _).
  assert (Hcheck : hv && negb (bool_decide (length (verifications f) = length (entries f))) = false).
  { unfold hv. destruct Hlen as [Hn|Hn]; [by rewrite bool_decide_true by done|].
    rewrite (bool_decide_true _ Hn). by rewrite andb_false_r. }
  rewrite Hcheck. rewrite outcome_bind_Ok. exists (terms_of_file f). split; [|done]. unfold terms_of_file.
  assert (H : ∀ es k acc, (∀ i, (i < length es)%nat → hv = true → is_Some (verifications f !! (k + i)%nat)) →
    fold_out (λ acc (p : nat * FileTermEntry),
      v ← (if hv then v ← index (verifications f) p.1; mret (Some v) else mret None);
      mret (acc ++ [mkFileTerm (fe_xorb p.2) (fe_chunk_idx_start p.2) (fe_chunk_idx_end p.2)
                      (fe_unpacked_segment_bytes p.2) v])) acc (imap (λ i e, ((k + i)%nat, e)) es)
    = Ok (E := ApiError) (acc ++ imap (λ i e, mkFileTerm (fe_xorb e) (fe_chunk_idx_start e) (fe_chunk_idx_end e)
        (fe_unpacked_segment_bytes e) (verifications f !! (k + i)%nat)) es)).
  { induction es as [|e es IH]; intros k acc Hk; cbn [imap fold_out]; [by rewrite app_nil_r|].
    assert (Hstep : (v ← (if hv then v ← index (verifications f) (k + 0); mret (Some v) else mret None);
        mret (acc ++ [mkFileTerm (fe_xorb e) (fe_chunk_idx_start e) (fe_chunk_idx_end e) (fe_unpacked_segment_bytes e) v]))
      = Ok (E := ApiError) (acc ++ [mkFileTerm (fe_xorb e) (fe_chunk_idx_start e) (fe_chunk_idx_end e)
          (fe_unpacked_segment_bytes e) (verifications f !! (k + 0)%nat)])).
    { unfold index. destruct hv eqn:Hhv.
      - destruct (Hk 0%nat ltac:(simpl; lia) eq_refl) as [v Hv']. by rewrite Hv'.
      - unfold hv in Hhv. apply negb_false_iff, bool_decide_eq_true in Hhv. by rewrite Hhv. }
    cbn [fst snd]. rewrite Hstep. cbn [mbind outcome_bind].
    rewrite (imap_ext _ (λ i e, ((S k + i)%nat, e))) by (intros; simpl; do 2 f_equal; lia).
    rewrite IH.
    - rewrite <-app_assoc. cbn [app]. do 3 f_equal. apply imap_ext. intros. simpl. do 2 f_equal. lia.
    - intros i Hi Ht. replace (S k + i)%nat with (k + S i)%nat by lia. apply Hk; [simpl; lia|done]. }
  apply (H (entries f) 0%nat []). intros i Hi Ht. unfold hv in Ht.
  apply lookup_lt_is_Some_2. destruct Hlen as [Hn|Hn]; [by rewrite Hn in Ht|]. simpl. by rewrite Hn.
Qed.

Lemma fold_file_terms fs acc :
  Forall wf_file fs →
  fold_out (λ acc f, ft ← file_terms f; mret (acc ++ [ft])) acc fs
  = Ok (E := ApiError) (acc ++ ((λ f, (file_hash f, terms_of_file f)) <$> fs)).
Proof.
  intros Hwf. revert acc. induction Hwf as [|f fs Hf _ IH]; intros acc; cbn [fold_out]; [by rewrite app_nil_r|].
  rewrite file_terms_wf by done. cbn [mbind outcome_bind mret outcome_ret]. rewrite IH.
  rewrite <-app_assoc. done.
Qed.

Lemma terms_of_file_wf f : wf_file f → Forall wf_term (terms_of_file f).
Proof.
  intros (_ & _ & Hf & _). apply Forall_lookup. intros i t (e & He & ->)%list_lookup_imap_Some.
  rewrite Forall_lookup in Hf. destruct (Hf i e He) as (_ & ? & ? & ?). by split_and!.
Qed.
End reads.

Section uploads.
#[local] Set Default Proof Using "Type*".
Context {B M A : Type} {BO : BlobStore B} {BS : BlobStoreSpec B}.
Context {MO : MetadataStore M} {MV : MetadataView M} {MS : MetadataStoreSpec M} {AO : RepoAuthz A}.
Context {MerkleHash : Type} `{!EqDecision MerkleHash}.
Variable merkle_from : Hash32 → MerkleHash.
Variable compute_data_hash : bytes → MerkleHash.
Variable compute_xorb_merkle_hash : list (MerkleHash * Z) → MerkleHash.
Variable decompress_from_slice : CompressionScheme → bytes → outcome str bytes.
(** The decompressors and the authorizer answer or fail, they do not panic. *)
Hypothesis decompress_returns : ∀ sc p, returned (decompress_from_slice sc p).
Implicit Types st : Server B M.

Abbreviation upload_xorb := (upload_xorb merkle_from compute_data_hash compute_xorb_merkle_hash decompress_from_slice).
Abbreviation verify_body := (verify_body merkle_from compute_data_hash compute_xorb_merkle_hash decompress_from_slice).

(** ** Uploading a xorb *)

(** A stored body is a verified one, and the layout has a row for each of its frames. *)
Definition xorb_served (m : M) (h : XorbHash) (body : bytes) : Prop :=
  verify_body body h = Ok tt ∧ ∃ fs, parse_xorb_frames body = Ok fs ∧
    ∀ i, (i < length fs)%nat → ∃ row, row ∈ meta_layout m h ∧ xf_frame_index row = Z.of_nat i.
Definition served st : Prop :=
  blob_ok (sv_blobs st) ∧
  ∀ h body, blob_xorb (sv_blobs st) h = Some body → xorb_served (sv_meta st) h body.

Lemma xorb_served_mono m m' h body :
  (∀ row, row ∈ meta_layout m h → row ∈ meta_layout m' h) → xorb_served m h body → xorb_served m' h body.
Proof using Type. intros Hm (Hv & fs & Hp & Hr). split; [done|]. exists fs. split; [done|]. intros i Hi. destruct (Hr i Hi) as (r & ? & ?). eauto. Qed.

Lemma served_same st st' : same_data st st' → served st → served st'.
Proof.
  intros [Hok Hx _ Hm _] [_ Hs]. split; [done|]. intros h body. rewrite Hx. intros Hb.
  eapply xorb_served_mono; [|by apply Hs]. intros row. by rewrite (same_layout _ _ Hm).
Qed.

(** What an upload leaves: the data that it does not own is the same. *)
Record upload_frame (h : XorbHash) st st' : Prop := {
  uf_served : served st';
  uf_xorb k : k ≠ h → blob_xorb (sv_blobs st') k = blob_xorb (sv_blobs st) k;
  uf_kept body : blob_xorb (sv_blobs st) h = Some body → is_Some (blob_xorb (sv_blobs st') h);
  uf_shard k : blob_shard (sv_blobs st') k = blob_shard (sv_blobs st) k;
  uf_terms f : meta_terms (sv_meta st') f = meta_terms (sv_meta st) f;
  uf_repo f r : meta_in_repo (sv_meta st') f r = meta_in_repo (sv_meta st) f r;
}.

Lemma same_upload_frame h st st' : served st → same_data st st' → upload_frame h st st'.
Proof.
  intros Hs Hsame. pose proof (served_same _ _ Hsame Hs). destruct Hsame as [_ Hx Hsh [_ Ht Hr]].
  split; auto. intros body Hb. rewrite Hx, Hb. eauto.
Qed.

Lemma hreads_upload_quota (quota : option Z) owner hash (body : bytes) :
  hreads (match quota with
      | Some quota =>
          xorb_already_exists ← blobs (blob_exists (newtype hash));
          if xorb_already_exists : bool then mret tt
          else
            used ← meta (stored_bytes_for_owner owner);
            if quota <? saturating_add used (len body)
            then throw (quota_exceeded owner used quota (len body)) else mret tt
      | None => mret tt
      end) (λ (_ : Server B M) (_ : unit), True).
Proof.
  destruct quota as [q|]; [|eapply hreads_mono; [apply hreads_ret|done]].
  eapply hreads_bind; [apply hreads_exists|]. intros st b _ st1 [Hok _ _ _ _].
  destruct b; [split; [by apply same_data_refl|done]|].
  eapply wps_hreads; [apply hreads_meta, stored_bytes_for_owner_law|done| |done].
  intros used st2 Hs _. case_match; [done|]. by split.
Qed.

Lemma upload_stores st st3 hash body fs :
  served st → same_data st st3 → parse_xorb_frames body = Ok fs → verify_body body (newtype hash) = Ok tt →
  wps (_ ← meta (register_xorb_layout (newtype hash) (layout_rows fs));
       was_inserted ← blobs (put_xorb (newtype hash) body);
       _ ← count (XORBS_UPLOADED (negb was_inserted));
       _ ← count (UPLOAD_BYTES (len body) "xorb");
       mret (mkUploadXorbResponse was_inserted)) st3
    (λ r st', upload_frame (newtype hash) st st' ∧
       if was_inserted r then blob_xorb (sv_blobs st') (newtype hash) = Some body
       else is_Some (blob_xorb (sv_blobs st) (newtype hash)))
    (λ _ st', upload_frame (newtype hash) st st').
Proof.
  intros Hserved Hs3 Hp Hv.
  destruct (layout_rows_wf _ _ Hp) as [Hwf Hinc]. wsteps. apply wps_meta.
  eapply wps_mono; [by apply register_xorb_layout_law| |].
  2: { intros e m' Hm. apply same_upload_frame; [done|]. eapply same_data_trans; [done|]. by destruct Hs3. }
  intros [] m' (Hother & _ & Hkeep & Hnew & Hterms & Hrepo). cbn [sv_meta] in *. wsteps. apply wps_blobs.
  assert (Hlay : ∀ k row, row ∈ meta_layout (sv_meta st) k → row ∈ meta_layout m' k).
  { intros k row Hrow. rewrite <-(same_layout _ _ (sd_meta _ _ Hs3)) in Hrow.
    destruct (decide (k = newtype hash)) as [->|]; [by apply Hkeep|]. by rewrite Hother. }
  assert (Hself : xorb_served m' (newtype hash) body).
  { split; [done|]. exists fs. split; [done|]. intros i Hi.
    destruct (lookup_lt_is_Some_2 (layout_rows fs) i) as [row Hrow]; [by unfold layout_rows; rewrite length_imap|].
    destruct (Hnew row) as (g & Hg & Hgi); [by eapply list_elem_of_lookup_2|]. exists g. split; [done|].
    unfold layout_rows in Hrow. apply list_lookup_imap_Some in Hrow as (f & _ & ->). rewrite Hgi. simpl.
    apply as_u32_id. destruct (parsed_frames_wf _ _ Hp) as (_ & Hl & Hm & _). unfold is_u32, u32_max, len in *. lia. }
  destruct Hs3 as [Hok3 Hx3 Hsh3 [Hl3 Ht3 Hr3]]. cbn [sv_blobs set_meta].
  eapply wps_mono; [by apply put_xorb_spec| |].
  - intros fresh b' (Hok' & Hsh & Hput). wsteps. unfold count. wsteps. cbn [sv_blobs sv_meta set_blobs set_meta was_inserted].
    assert (Hx : ∀ k, k ≠ newtype hash → blob_xorb b' k = blob_xorb (sv_blobs st) k)
      by (intros k Hk; destruct fresh; rewrite (proj2 Hput); auto).
    split.
    + split; cbn [sv_blobs sv_meta set_blobs set_meta]; auto.
      * split; [done|]. cbn [sv_blobs sv_meta set_blobs set_meta]. intros k body' Hb'.
        destruct (decide (k = newtype hash)) as [->|Hk].
        -- destruct fresh; [destruct Hput as [Hput _]; by simplify_eq|].
           rewrite (proj2 Hput), Hx3 in Hb'. eapply xorb_served_mono; [apply Hlay|]. by apply Hserved.
        -- rewrite Hx in Hb' by done. eapply xorb_served_mono; [apply Hlay|]. by apply Hserved.
      * intros body' Hb'. destruct fresh; destruct Hput as [Hput1 Hput2]; [rewrite Hput1; eauto|].
        rewrite Hput2, Hx3, Hb'. eauto.
      * intros k. by rewrite Hsh, Hsh3.
      * intros k. by rewrite Hterms, Ht3.
      * intros k r. by rewrite Hrepo, Hr3.
    + destruct fresh; [apply Hput|]. rewrite <-Hx3. apply Hput.
  - intros e b' (Hok' & Hh & Hx & Hsh). rewrite Hx3 in Hh.
    split; cbn [sv_blobs sv_meta set_blobs set_meta]; auto.
    + split; [done|]. cbn [sv_blobs sv_meta set_blobs set_meta]. intros j body' Hb'.
      destruct (decide (j = newtype hash)) as [->|Hj].
      * destruct Hh as [Hh|Hh]; rewrite Hh in Hb'; [|by simplify_eq].
        eapply xorb_served_mono; [apply Hlay|]. by apply Hserved.
      * rewrite Hx, Hx3 in Hb' by done. eapply xorb_served_mono; [apply Hlay|]. by apply Hserved.
    + intros j Hj. by rewrite Hx, Hx3.
    + intros body' Hb'. destruct Hh as [-> | ->]; [rewrite Hb'|]; eauto.
    + intros j. by rewrite Hsh, Hsh3.
    + intros j. by rewrite Hterms, Ht3.
    + intros j r. by rewrite Hrepo, Hr3.
Qed.

Lemma upload_xorb_wps (svc : Service A) claims hh body st :
  served st →
  wps (upload_xorb svc claims hh body) st
    (λ r st', ∃ hash, decode_hash hh = Ok hash ∧ upload_frame (newtype hash) st st' ∧
       len body ≤ MAX_BODY_BYTES ∧ verify_body body (newtype hash) = Ok tt ∧
       if was_inserted r then blob_xorb (sv_blobs st') (newtype hash) = Some body
       else is_Some (blob_xorb (sv_blobs st) (newtype hash)))
    (λ _ st', ∃ hash, upload_frame (newtype hash) st st').
Proof.
  intros Hserved. pose proof Hserved as [Hok _].
  assert (Hfail : ∀ st2, same_data st st2 → ∃ k, upload_frame (newtype k) st st2)
    by (intros; exists Hash32_ZERO; by apply same_upload_frame).
  unfold Http.upload_xorb. eapply wps_hreads; [apply hreads_decode|done| |by auto].
  intros hash st1 Hs1 Hd. destruct (Z.ltb_spec MAX_BODY_BYTES (len body)); [by apply wps_throw, Hfail|].
  eapply wps_hreads; [apply hreads_quota|by destruct Hs1| |by eauto using same_data_trans].
  intros quota st2 Hs2 _. eapply (same_data_trans _ _ _ Hs1) in Hs2. clear Hs1 st1.
  eapply wps_hreads; [apply hreads_upload_quota|by destruct Hs2| |by eauto using same_data_trans].
  intros [] st3 Hs3 _. eapply (same_data_trans _ _ _ Hs2) in Hs3. clear Hs2 st2.
  pose proof (parse_xorb_frames_returns body) as Hpr. wsteps.
  destruct (parse_xorb_frames body) as [fs|e| |] eqn:Hp; try done; cbn [map_err wp]; [|by apply Hfail].
  pose proof (verify_xorb_body_returns merkle_from compute_data_hash compute_xorb_merkle_hash
    decompress_from_slice body (newtype hash) decompress_returns) as Hvr.
  fold (verify_body body (newtype hash)) in Hvr. wsteps.
  destruct (verify_body body (newtype hash)) as [[]|e| |] eqn:Hv; try done; cbn [map_err wp]; [|by apply Hfail].
  eapply wps_mono; [by apply upload_stores| |].
  - intros r st' [??]. exists hash. by split_and!.
  - intros e st' Hf. by exists hash.
Qed.

End uploads.

(** ** Uploading a shard *)
Section shards.
#[local] Set Default Proof Using "Type*".
Context {B M A : Type} {BO : BlobStore B} {BS : BlobStoreSpec B}.
Context {MO : MetadataStore M} {MV : MetadataView M} {MS : MetadataStoreSpec M} {AO : RepoAuthz A}.
Variable blake3_hash : bytes → vec byte HASH_LEN.
Implicit Types st : Server B M.

(** The xorbs and their layouts, which no shard changes. *)
Record xorbs_kept st st' : Prop := {
  xk_ok : blob_ok (sv_blobs st');
  xk_xorb k : blob_xorb (sv_blobs st') k = blob_xorb (sv_blobs st) k;
  xk_layout k : meta_layout (sv_meta st') k = meta_layout (sv_meta st) k;
}.

Definition files_kept st st' : Prop :=
  (∀ h, meta_terms (sv_meta st') h = meta_terms (sv_meta st) h) ∧
  (∀ h r, meta_in_repo (sv_meta st') h r = meta_in_repo (sv_meta st) h r).

(** The files of the shard, registered for the repository of the claims. *)
Definition files_registered (repo : RepoRef) (fs : list ParsedFile) st st' : Prop :=
  (∀ h r, meta_in_repo (sv_meta st') h r
     = meta_in_repo (sv_meta st) h r || bool_decide (r = repo_id repo ∧ h ∈ file_hash <$> fs)) ∧
  (∀ h, meta_terms (sv_meta st) h ≠ [] ∨ h ∉ file_hash <$> fs → meta_terms (sv_meta st') h = meta_terms (sv_meta st) h) ∧
  (NoDup (file_hash <$> fs) → ∀ f, f ∈ fs → meta_terms (sv_meta st) (file_hash f) = [] →
     meta_terms (sv_meta st') (file_hash f) = terms_of_file f).

Definition accepted (p : ParsedShard) st : Prop :=
  (∀ cb, cb ∈ cas_blocks p → present st (cas_xorb cb)) ∧
  ∀ f, f ∈ files p → ∀ e, e ∈ entries f → good_entry st e.

Lemma same_xorbs_kept st st' : same_data st st' → xorbs_kept st st' ∧ files_kept st st'.
Proof. intros [Hok Hx _ [Hl Ht Hr] _]. repeat split; auto. Qed.

(** The last two writes: the archive, then the files. *)
Lemma register_shard repo (p : ParsedShard) body st st1 :
  Forall wf_file (files p) → same_data st st1 →
  wps (_ ← blobs (put_shard (shard_storage_hash blake3_hash body) body);
       _ ← meta (register_files repo ((λ f, (file_hash f, terms_of_file f)) <$> files p));
       _ ← count SHARDS_UPLOADED;
       _ ← count (UPLOAD_BYTES (len body) "shard");
       mret (mkUploadShardResponse 1)) st1
    (λ _ st', xorbs_kept st st' ∧ files_registered repo (files p) st st')
    (λ _ st', xorbs_kept st st' ∧ files_kept st st').
Proof.
  intros Hwf [Hok Hx _ [Hl Ht Hr] _]. wsteps. apply wps_blobs.
  eapply wps_mono; [by apply put_shard_spec| |].
  2: { intros e b' (Hok' & Hx' & _). split; [split|split]; cbn [sv_blobs sv_meta set_blobs]; auto. intros k. by rewrite Hx'. }
  intros [] b' (Hok' & Hx' & _). wsteps. apply wps_meta. cbn [sv_meta set_blobs].
  eapply wps_mono; [apply register_files_law| |].
  - apply Forall_fmap. eapply Forall_impl; [exact Hwf|]. intros f. apply terms_of_file_wf.
  - intros [] m' (Hl' & Hr' & Ht' & Hn'). unfold count. wsteps. cbn.
    assert (Hfst : ((λ f, (file_hash f, terms_of_file f)) <$> files p).*1 = file_hash <$> files p)
      by (rewrite <-list_fmap_compose; done).
    rewrite Hfst in *. split; [split; cbn|split; [|split]]; cbn; auto.
    + intros k. by rewrite Hx'.
    + intros k. by rewrite Hl'.
    + intros h r. by rewrite Hr', Hr.
    + intros h Hh. rewrite Ht', Ht; [done|]. by rewrite Ht.
    + intros Hnd f Hf Hnil. apply Hn'; [done| |by rewrite Ht]. apply list_elem_of_fmap. by exists f.
  - intros e m' [Hl' Ht' Hr']. split; [split|split]; cbn [sv_blobs sv_meta set_blobs set_meta]; auto.
    + intros k. by rewrite Hx'.
    + intros k. by rewrite Hl'.
    + intros h. by rewrite Ht'.
    + intros h r. by rewrite Hr'.
Qed.

Lemma upload_shard_wps (svc : Service A) claims body st :
  blob_ok (sv_blobs st) →
  wps (upload_shard blake3_hash svc claims body) st
    (λ _ st', xorbs_kept st st' ∧ ∃ p, parse body = Ok p ∧ accepted p st ∧
       files_registered (claim_repo claims) (files p) st st')
    (λ _ st', xorbs_kept st st' ∧ files_kept st st').
Proof.
  intros Hok. pose proof same_xorbs_kept as Hfail. pose proof same_data_trans as Htrans.
  unfold upload_shard. destruct (Z.ltb_spec MAX_BODY_BYTES (len body));
    [by apply wps_throw, Hfail, same_data_refl|].
  pose proof (parse_sound body) as Hps. wsteps.
  destruct (parse body) as [p|e| |]; cbn [map_err wp] in *; [|by apply Hfail, same_data_refl|done|done].
  destruct Hps as ((_ & _ & Hwf & _) & _).
  eapply wps_hreads; [apply (hreads_for_each (λ cb, require_xorb (cas_xorb cb)) (λ st cb, present st (cas_xorb cb)))|done| |by auto].
  { intros ? ? ?. apply present_same. } { intros cb. apply hreads_require_xorb. }
  intros [] st1 Hs1 Hcas. eapply wps_hreads; [apply hreads_check_files|by destruct Hs1| |by eauto].
  intros [] st2 Hs2 Hfiles.
  assert (Hacc : accepted p st).
  { split; [done|]. intros f Hf e He. destruct (Hfiles f Hf e He). split; [by eapply present_same|done]. }
  clear Hcas Hfiles. pose proof (Htrans _ _ _ Hs1 Hs2) as Hs. clear Hs1 Hs2 st1.
  eapply wps_hreads; [apply hreads_meta, xorb_frame_layouts_law|by destruct Hs| |by eauto].
  intros layouts st3 Hs3 _. pose proof (Htrans _ _ _ Hs Hs3) as Hs'. clear Hs Hs3 st2.
  eapply wps_hreads; [apply (hreads_for_each _ (λ _ _, True)); [done|]|by destruct Hs'| |by eauto].
  { intros cb. apply (hreads_meta _ (λ _ _, True)), register_xorb_law. }
  intros [] st4 Hs4 _. pose proof (Htrans _ _ _ Hs' Hs4) as Hs. clear Hs' Hs4 st3.
  eapply wps_hreads; [apply hreads_quota|by destruct Hs| |by eauto].
  intros quota st5 Hs5 _. pose proof (Htrans _ _ _ Hs Hs5) as Hs'. clear Hs Hs5 st4.
  eapply wps_hreads; [apply hreads_shard_quota|by destruct Hs'| |by eauto].
  intros [] st6 Hs6 _. pose proof (Htrans _ _ _ Hs' Hs6) as Hs. clear Hs' Hs6 st5.
  rewrite fold_file_terms by done. wsteps. cbn [wp app].
  eapply wps_mono; [by apply register_shard| |done]. intros r st' [? ?]. split; [done|]. by exists p.
Qed.

(** C21. A shard is registered completely or not at all: on success every file
    of it belongs to the repository of the token, new files have exactly the
    shard's terms and known ones keep theirs, every term names a stored xorb and
    a non-empty chunk range, and nothing else changed; on an error the files of
    all repositories are as before.  Stored xorbs and layouts never change, and
    the handler always answers. *)
Theorem upload_shard_atomic (svc : Service A) claims body st :
  blob_ok (sv_blobs st) →
  match upload_shard blake3_hash svc claims body st with
  | (Ok _, st') => xorbs_kept st st' ∧ ∃ p, parse body = Ok p ∧ accepted p st ∧
      files_registered (claim_repo claims) (files p) st st' ∧
      ∀ f, f ∈ files p → meta_in_repo (sv_meta st') (file_hash f) (repo_id (claim_repo claims)) = true
  | (Err _, st') => xorbs_kept st st' ∧ files_kept st st'
  | _ => False
  end.
Proof.
  intros Hok. pose proof (upload_shard_wps svc claims body st Hok) as H. unfold wps in H.
  destruct (upload_shard _ _ _ _ _) as [[r|e| |] st']; try done.
  destruct H as (? & p & ? & ? & Hreg). split; [done|]. exists p. split_and!; [done..|].
  intros f Hf. rewrite (proj1 Hreg), bool_decide_true; [apply orb_true_r|].
  split; [done|]. by apply list_elem_of_fmap_2.
Qed.
End shards.

(** ** Histories of uploads *)
Section histories.
#[local] Set Default Proof Using "Type*".
Context {B M A : Type} {BO : BlobStore B} {BS : BlobStoreSpec B}.
Context {MO : MetadataStore M} {MV : MetadataView M} {MS : MetadataStoreSpec M} {AO : RepoAuthz A}.
Context {MerkleHash : Type} `{!EqDecision MerkleHash}.
Variable merkle_from : Hash32 → MerkleHash.
Variable compute_data_hash : bytes → MerkleHash.
Variable compute_xorb_merkle_hash : list (MerkleHash * Z) → MerkleHash.
Variable decompress_from_slice : CompressionScheme → bytes → outcome str bytes.
Hypothesis decompress_returns : ∀ sc p, returned (decompress_from_slice sc p).
Variable blake3_hash : bytes → vec byte HASH_LEN.
Implicit Types st : Server B M.

Abbreviation served := (served merkle_from compute_data_hash compute_xorb_merkle_hash decompress_from_slice).

Inductive upload := UXorb (claims : TokenClaims) (hash_hex : str) (body : bytes) | UShard (claims : TokenClaims) (body : bytes).

Definition serve_upload (svc : Service A) (u : upload) : ST (Server B M) ApiError unit :=
  match u with
  | UXorb claims hash_hex body =>
      _ ← upload_xorb merkle_from compute_data_hash compute_xorb_merkle_hash decompress_from_slice svc claims hash_hex body;
      mret tt
  | UShard claims body => _ ← upload_shard blake3_hash svc claims body; mret tt
  end.

Definition run_uploads (svc : Service A) (st : Server B M) (us : list upload) : Server B M :=
  foldl (λ st u, (serve_upload svc u st).2) st us.

Definition keeps_xorbs st st' : Prop := ∀ h, present st h → present st' h.

Lemma upload_xorb_keeps (svc : Service A) claims hh body st : served st →
  wps (upload_xorb merkle_from compute_data_hash compute_xorb_merkle_hash decompress_from_slice svc claims hh body) st
    (λ _ st', served st' ∧ keeps_xorbs st st') (λ _ st', served st' ∧ keeps_xorbs st st').
Proof.
  intros Hs. assert (Hf : ∀ hash st', upload_frame merkle_from compute_data_hash compute_xorb_merkle_hash decompress_from_slice
    hash st st' → served st' ∧ keeps_xorbs st st').
  { intros hash st' [Hs' Hx Hk _ _ _]. split; [done|]. intros h [b Hb]. unfold present.
    destruct (decide (h = hash)) as [->|]; [by eapply Hk|]. rewrite Hx, Hb by done. eauto. }
  eapply wps_mono; [by apply upload_xorb_wps| |].
  - intros r st' (hash & _ & Hu & _). by eapply Hf.
  - intros e st' [hash Hu]. by eapply Hf.
Qed.
Lemma upload_shard_keeps (svc : Service A) claims body st : served st →
  wps (upload_shard blake3_hash svc claims body) st
    (λ _ st', served st' ∧ keeps_xorbs st st') (λ _ st', served st' ∧ keeps_xorbs st st').
Proof.
  intros Hs. assert (Hf : ∀ st', xorbs_kept st st' → served st' ∧ keeps_xorbs st st').
  { intros st' [Hok Hx Hl]. split; [|intros h; unfold present; by rewrite Hx]. split; [done|].
    intros h b. rewrite Hx. intros Hb. apply (xorb_served_mono _ _ _ _ (sv_meta st)); [|by apply (proj2 Hs)].
    intros row. by rewrite Hl. }
  eapply wps_mono; [apply upload_shard_wps, Hs| |]; simpl; intros; apply Hf; naive_solver.
Qed.
Lemma serve_upload_wps svc u st :
  served st → wps (serve_upload svc u) st (λ _ st', served st' ∧ keeps_xorbs st st') (λ _ st', served st' ∧ keeps_xorbs st st').
Proof.
  intros Hs. destruct u; cbn [serve_upload]; apply wps_bind;
    (eapply wps_mono; [by apply upload_xorb_keeps || by apply upload_shard_keeps|by intros|done]).
Qed.

(** The server never holds a xorb that it cannot serve: through any history
    of xorb and shard uploads, failed ones included, every stored body is one
    that was verified against its hash and has a layout row for each of its
    frames; no stored xorb is lost; and every upload is answered. *)
Theorem uploads_stay_served svc us st :
  served st →
  served (run_uploads svc st us) ∧ keeps_xorbs st (run_uploads svc st us) ∧
  ∀ u, returned (serve_upload svc u (run_uploads svc st us)).1.
Proof.
  intros Hs.
  assert (H : served (run_uploads svc st us) ∧ keeps_xorbs st (run_uploads svc st us)).
  { unfold run_uploads. revert st Hs. induction us as [|u us IH]; intros st Hs; cbn [foldl]; [split; [done|by intros h]|].
    assert (Hu : served (serve_upload svc u st).2 ∧ keeps_xorbs st (serve_upload svc u st).2).
    { pose proof (serve_upload_wps svc u st Hs) as Hw. unfold wps in Hw. by destruct (serve_upload svc u st) as [[?|?| |] ?]. }
    destruct (IH _ (proj1 Hu)) as [Hd Hk]. split; [done|]. intros h Hh. by apply Hk, Hu. }
  destruct H as [Hd Hk]. split_and!; [done..|]. intros u.
  pose proof (serve_upload_wps svc u _ Hd) as Hw. unfold wps in Hw.
  by destruct (serve_upload svc u (run_uploads svc st us)) as [[?|?| |] ?].
Qed.
End histories.

(** ** Executions *)

Definition demo_x : XorbHash := newtype (hx xab).
Definition demo_file : FileHash := newtype (hx x01).
Definition demo_claims : TokenClaims := mkTokenClaims (mkUserId (lit "alice")) repo_a Write 2000.
Definition demo_open : Service AlwaysAllow :=
  mkService AlwaysAllow always_allow (lit "secret") (lit "https://cas") None None.
(** One file, whose one term is the two chunks of the example body. *)
Definition demo_shard : ParsedShard :=
  mkParsedShard (mkShardHeader (array_of HASH_LEN MDB_SHARD_HEADER_TAG) 2 0)
    [mkParsedFile demo_file 0 [mkFileTermEntry demo_x 0 3 0 2] [] None] [] None.
#[local] Instance demo_meta_ops : MetadataStore store := SqliteMetadataStore_ops no_column first_row.
#[local] Instance demo_meta_spec : MetadataStoreSpec store := sqlite_spec no_column first_row first_row_spec.
Definition demo_empty : Server MemBlobStore store := mkServer Mem_new example_store [] (λ _, 1000) 0.

(** The server that has the body and its layout. *)
Definition demo_layout : list XorbFrameRow := [mkXorbFrameRow 0 0 10 2; mkXorbFrameRow 1 10 9 1].
Definition demo_stocked : Server MemBlobStore store :=
  mkServer (mkMemBlobStore {[ demo_x := example_body ]} ∅ 20 None)
    (sq_register_xorb_layout demo_x demo_layout example_store).2 [] (λ _, 1000) 0.

Lemma demo_decompress_returns sc p : returned (example_decompress sc p).
Proof. by destruct sc. Qed.

Lemma upload_shard_atomic_witness :
  ∃ r st', upload_shard (A := AlwaysAllow) (λ b, array_of HASH_LEN b) demo_open demo_claims (serialize demo_shard)
      demo_stocked = (Ok r, st') ∧
    meta_in_repo (sv_meta st') demo_file (lit "alice/a") = true ∧
    xorbs_kept demo_stocked st'.
Proof.
  set (run := upload_shard _ _ _ _ _).
  assert (Hrun : ∃ r, run.1 = Ok r) by (vm_compute; eexists; reflexivity). destruct Hrun as [r Hr].
  exists r, run.2. assert (Heq : run = (Ok r, run.2)) by (rewrite <-Hr; apply surjective_pairing).
  pose proof (upload_shard_atomic (λ b, array_of HASH_LEN b) demo_open demo_claims (serialize demo_shard) demo_stocked I) as H.
  fold run in H. rewrite Heq in H. destruct H as (Hk & p & Hp & _ & _ & Hf).
  split; [exact Heq|]. split; [|exact Hk].
  assert (Hpar : ∃ q, parse (serialize demo_shard) = Ok q ∧ file_hash <$> files q = [demo_file])
    by (vm_compute; eexists; split; reflexivity).
  destruct Hpar as (q & Hq & Hfs). rewrite Hq in Hp. injection Hp as <-.
  destruct (files q) as [|f fs] eqn:Hfiles; [discriminate Hfs|]. injection Hfs as Hh _. rewrite <-Hh.
  apply (Hf f). left.
Defined.

Abbreviation toy_served := (served (λ _, tt) (λ _, tt) (λ _, tt) example_decompress).
Definition demo_uploads : list upload :=
  [UXorb demo_claims (encode_hash (unwrap demo_x)) example_body; UShard demo_claims (serialize demo_shard);
   UXorb demo_claims (encode_hash (unwrap demo_x)) (lit "junk")].

Lemma uploads_stay_served_witness :
  let st := run_uploads (A := AlwaysAllow) (λ _, tt) (λ _, tt) (λ _, tt) example_decompress
    (λ b, array_of HASH_LEN b) demo_open demo_empty demo_uploads in
  toy_served st ∧ ∀ claims body,
    returned (serve_upload (λ _, tt) (λ _, tt) (λ _, tt) example_decompress (λ b, array_of HASH_LEN b) demo_open
      (UShard claims body) st).1.
Proof.
  cbv zeta.
  destruct (uploads_stay_served (A := AlwaysAllow) (λ _, tt) (λ _, tt) (λ _, tt) example_decompress demo_decompress_returns
    (λ b, array_of HASH_LEN b) demo_open demo_uploads demo_empty) as (H1 & _ & H2).
  - split; [exact I|]. intros h body Hb. cbn in Hb. rewrite lookup_empty in Hb. discriminate Hb.
  - split; [exact H1|]. intros claims body. apply (H2 (UShard claims body)).
Defined.
