(* ===== verification/HttpServe.v ===== *)
(** * What the handlers serve

    Reconstruction plans, downloads and dedup shards, against the interfaces of
    the stores. *)

From stdpp Require Import gmap.
From S2P Require Import Prelude RustStd Core Wire Xorb Shard MemStore Db Sqlite Accounting Tokens Authz MetaSpec.
From S2P Require Import SqliteSpec Http HttpAuth HttpStore.

(** ** The frames of a term *)
Section terms.
#[local] Set Default Proof Using "Type*".
Context {B M : Type} {BO : BlobStore B} {BS : BlobStoreSpec B}.
Context {MO : MetadataStore M} {MV : MetadataView M} {MS : MetadataStoreSpec M}.
Variable decompress_from_slice : CompressionScheme → bytes → outcome str bytes.
Implicit Types st : Server B M.

(** The range of a term lies in a layout of [n] rows. *)
Definition term_in (t : FileTerm) (n : nat) : Prop :=
  0 ≤ ft_chunk_idx_start t < ft_chunk_idx_end t ∧ ft_chunk_idx_end t ≤ Z.of_nat n.
Abbreviation first_of t := (Z.to_nat (ft_chunk_idx_start t)).
Abbreviation last_of t := (Z.to_nat (ft_chunk_idx_end t - 1)).

Lemma hreads_term_frames t layout :
  wf_term t →
  hreads (term_frames t layout) (λ (_ : Server B M) fl, term_in t (length layout) ∧
    layout !! first_of t = Some fl.1 ∧ layout !! last_of t = Some fl.2).
Proof.
  intros ([? _] & _ & _) st Hok. unfold term_frames.
  destruct (Z.leb_spec (ft_chunk_idx_end t) (ft_chunk_idx_start t)); [by apply same_data_refl|].
  destruct (Z.ltb_spec (len layout) (ft_chunk_idx_end t)); [by apply same_data_refl|]. unfold len in *.
  cbn [orb]. wsteps. unfold index.
  destruct (lookup_lt_is_Some_2 layout (first_of t)) as [a Ha]; [lia|].
  destruct (lookup_lt_is_Some_2 layout (last_of t)) as [b Hb]; [lia|].
  rewrite Ha. cbn [or_panic wp]. wsteps. rewrite Hb. cbn [or_panic wp]. wsteps.
  split; [by apply same_data_refl|]. split; [unfold term_in; lia|done].
Qed.

Lemma term_frames_ok t layout st :
  term_in t (length layout) → ∃ a b, term_frames t layout st = (Ok (a, b), st) ∧
    layout !! first_of t = Some a ∧ layout !! last_of t = Some b.
Proof.
  intros [[? ?] ?]. unfold term_frames. rewrite (proj2 (Z.leb_gt _ _)) by lia.
  rewrite (proj2 (Z.ltb_ge _ _)) by (unfold len; lia). cbn [orb].
  destruct (lookup_lt_is_Some_2 layout (first_of t)) as [a Ha]; [lia|].
  destruct (lookup_lt_is_Some_2 layout (last_of t)) as [b Hb]; [lia|].
  exists a, b. unfold mbind, ST_bind, lift, index. by rewrite Ha, Hb.
Qed.

(** ** Downloads *)

(** The xorb is stored with exactly its own layout. *)
Definition stored_exactly st (x : XorbHash) (fs : list XorbChunkFrame) (data : bytes) : Prop :=
  ∃ body, blob_xorb (sv_blobs st) x = Some body ∧ parse_xorb_frames body = Ok fs ∧
    decompress_xorb_chunks_into decompress_from_slice body [] = (Ok tt, data) ∧
    meta_layout (sv_meta st) x = layout_rows fs.

(** The data of a term: what its frames declare, in order. *)
Definition term_data (t : FileTerm) (fs : list XorbChunkFrame) (data : bytes) : bytes :=
  take (Z.to_nat (sumZ (uncompressed_len <$> take (Z.to_nat (ft_chunk_idx_end t) - first_of t) (drop (first_of t) fs))))
    (drop (Z.to_nat (sumZ (uncompressed_len <$> take (first_of t) fs))) data).

Lemma stored_exactly_same st st' x fs data :
  same_data st st' → stored_exactly st x fs data → stored_exactly st' x fs data.
Proof.
  intros Hs (body & Hb & Hp & Hd & Hl). exists body.
  by rewrite (sd_xorb _ _ Hs), (same_layout _ _ (sd_meta _ _ Hs)).
Qed.

Lemma length_layout_rows fs : length (layout_rows fs) = length fs.
Proof. unfold layout_rows. by rewrite length_imap. Qed.

Lemma layout_rows_lookup fs i r :
  layout_rows fs !! i = Some r → ∃ f, fs !! i = Some f ∧ xf_on_disk_start r = on_disk_start f ∧ xf_on_disk_len r = on_disk_len f.
Proof. unfold layout_rows. intros (f & Hf & ->)%list_lookup_imap_Some. by exists f. Qed.

(** The bytes that the range of a term reads decompress to its data. *)
Lemma term_range_data st t fs data a b :
  stored_exactly st (ft_xorb t) fs data → term_in t (length fs) →
  layout_rows fs !! first_of t = Some a → layout_rows fs !! last_of t = Some b →
  ∃ body piece, blob_xorb (sv_blobs st) (ft_xorb t) = Some body ∧
    0 ≤ xf_on_disk_start a ≤ xf_on_disk_start b + xf_on_disk_len b ∧
    xf_on_disk_start b + xf_on_disk_len b ≤ len body ∧
    slice body (Z.to_nat (xf_on_disk_start a)) (Z.to_nat (xf_on_disk_start b + xf_on_disk_len b)) = Some piece ∧
    decompress_xorb_chunks_into decompress_from_slice piece [] = (Ok tt, term_data t fs data).
Proof.
  intros (body & Hb & Hp & Hd & _) [[? ?] ?] Ha Hl.
  apply layout_rows_lookup in Ha as (fa & Hfa & -> & _), Hl as (fb & Hfb & -> & ->).
  replace (last_of t) with (Z.to_nat (ft_chunk_idx_end t) - 1)%nat in Hfb by lia.
  destruct (decompress_range decompress_from_slice body fs data (first_of t) (Z.to_nat (ft_chunk_idx_end t)) fa fb
    Hp Hd ltac:(lia) Hfa Hfb) as (piece & Hsl & Hdec).
  exists body, piece.
  destruct (parsed_frames_wf _ _ Hp) as (_ & _ & _ & Hf). rewrite Forall_lookup in Hf.
  destruct (Hf _ _ Hfa) as ([? _] & _), (Hf _ _ Hfb) as ([? _] & _ & _ & ? & ?).
  destruct (slice_length _ _ _ _ Hsl) as [_ Hlen].
  split_and!; [done|lia|lia|done|done|]. rewrite Hdec. done.
Qed.

Lemma match_layout {X Y} (l : list X) (a b : Y) : (0 < length l)%nat → match l with [] => a | _ => b end = b.
Proof. destruct l; simpl; [lia|done]. Qed.

Lemma fetch_term_wps t fs data st :
  blob_ok (sv_blobs st) → stored_exactly st (ft_xorb t) fs data → term_in t (length fs) →
  wps (fetch_and_decompress_term decompress_from_slice t) st
    (λ r st', same_data st st' ∧ r = term_data t fs data) (λ _ st', same_data st st').
Proof.
  intros Hok Hst Hin. pose proof Hst as (_ & _ & _ & _ & Hlay). unfold fetch_and_decompress_term.
  eapply wps_hreads; [apply hreads_meta, xorb_frame_layout_law|done| |done].
  intros layout st1 Hs1 ->. rewrite Hlay. rewrite match_layout by (rewrite length_layout_rows; unfold term_in in Hin; lia).
  destruct (term_frames_ok t (layout_rows fs) st1) as (a & b & Htf & Ha & Hb); [by rewrite length_layout_rows|].
  apply wps_bind. unfold wps at 1. rewrite Htf. cbn [fst snd]. case_match; [done|].
  destruct (term_range_data st t fs data a b Hst Hin Ha Hb) as (body & piece & Hbody & Hab & Hle & Hsl & Hdec).
  eapply wps_hreads; [apply hreads_range; lia|by destruct Hs1| |by eauto using same_data_trans].
  intros r st2 Hs2 Hr. cbv beta in Hr. rewrite (sd_xorb _ _ Hs1), Hbody in Hr. apply range_answer_of in Hr; [|lia..].
  rewrite Z.min_l in Hr by lia. rewrite Hsl in Hr. injection Hr as <-. rewrite Hdec. wsteps.
  split; [by eapply same_data_trans|done].
Qed.

Lemma fetch_term_live t fs data st :
  blob_ok (sv_blobs st) → stored_exactly st (ft_xorb t) fs data → term_in t (length fs) →
  blob_healthy (sv_blobs st) → meta_healthy (sv_meta st) → ft_unpacked_segment_bytes t ≤ MAX_TERM_UNPACKED_BYTES →
  is_ok (fetch_and_decompress_term decompress_from_slice t st).1 = true.
Proof.
  intros Hok Hst Hin Hb Hm Hcap. pose proof Hst as (_ & _ & _ & _ & Hlay).
  pose proof (xorb_frame_layout_live (ft_xorb t) (sv_meta st) Hm) as Hlive.
  pose proof (xorb_frame_layout_law (ft_xorb t) (sv_meta st)) as Hlaw. unfold wps in Hlaw.
  unfold fetch_and_decompress_term, meta, st_map_err, zoom, mbind, ST_bind.
  destruct (xorb_frame_layout (ft_xorb t) (sv_meta st)) as [[layout|e| |] m']; try discriminate.
  destruct Hlaw as [_ ->]. cbn [map_err]. rewrite Hlay.
  rewrite match_layout by (rewrite length_layout_rows; unfold term_in in Hin; lia).
  destruct (term_frames_ok t (layout_rows fs) (set_meta m' st)) as (a & b & Htf & Ha & Hl); [by rewrite length_layout_rows|].
  fold (@ST_bind (Server B M) ApiError). rewrite Htf. cbn [fst snd]. rewrite (proj2 (Z.ltb_ge _ _)) by done.
  destruct (term_range_data st t fs data a b Hst Hin Ha Hl) as (body & piece & Hbody & Hab & Hle & Hsl & Hdec).
  destruct (get_range_healthy (ft_xorb t) (xf_on_disk_start a) (xf_on_disk_start b + xf_on_disk_len b)
    (sv_blobs st) body Hok Hb Hbody ltac:(lia) ltac:(lia) ltac:(lia)) as (r & b' & Hget & Hr).
  unfold blobs, st_map_err, zoom. cbn [sv_blobs set_meta]. rewrite Hget. cbn [map_err].
  rewrite Z.min_l in Hr by lia. rewrite Hsl in Hr. injection Hr as <-. unfold lift. by rewrite Hdec.
Qed.

(** A term of a download is its data: read through the layout and the
    range of the stored body, decompressed, a term yields exactly the content
    of its chunk range or an error, and changes nothing; from healthy stores,
    within the size cap, it does yield it. *)
Theorem fetch_term_exact t fs data st :
  blob_ok (sv_blobs st) → stored_exactly st (ft_xorb t) fs data → term_in t (length fs) →
  match fetch_and_decompress_term decompress_from_slice t st with
  | (Ok r, st') => r = term_data t fs data ∧ same_data st st'
  | (Err _, st') => same_data st st' ∧
      (blob_healthy (sv_blobs st) → meta_healthy (sv_meta st) → MAX_TERM_UNPACKED_BYTES < ft_unpacked_segment_bytes t)
  | _ => False
  end.
Proof.
  intros Hok Hst Hin. pose proof (fetch_term_wps t fs data st Hok Hst Hin) as Hw. unfold wps in Hw.
  pose proof (fetch_term_live t fs data st Hok Hst Hin) as Hlive.
  destruct (fetch_and_decompress_term decompress_from_slice t st) as [[r|e| |] st']; try done.
  - by destruct Hw.
  - split; [done|]. intros Hb Hm. destruct (Z.lt_ge_cases MAX_TERM_UNPACKED_BYTES (ft_unpacked_segment_bytes t)); [done|].
    specialize (Hlive Hb Hm ltac:(lia)). discriminate Hlive.
Qed.

(** C6. A download never sends a wrong byte: whatever fails while the body is
    streamed, the items sent are the data of the file's terms in order, all of
    them or the first few followed by one error. *)
Theorem download_stream_exact terms st contents :
  blob_ok (sv_blobs st) →
  Forall2 (λ t c, ∃ fs data, stored_exactly st (ft_xorb t) fs data ∧ term_in t (length fs) ∧ c = term_data t fs data)
    terms contents →
  ∃ items st', download_stream decompress_from_slice terms [] st = (Ok items, st') ∧ same_data st st' ∧
    (items = inl <$> contents ∨
     ∃ n msg, (n < length terms)%nat ∧ items = (inl <$> take n contents) ++ [inr msg]).
Proof.
  intros Hok Hall.
  assert (H : ∀ acc st1, same_data st st1 → ∃ items st',
    download_stream decompress_from_slice terms acc st1 = (Ok (acc ++ items), st') ∧ same_data st st' ∧
    (items = inl <$> contents ∨ ∃ n msg, (n < length terms)%nat ∧ items = (inl <$> take n contents) ++ [inr msg])).
  { induction Hall as [|t c terms contents (fs & data & Hst & Hin & ->) _ IH]; intros acc st1 Hs1; cbn [download_stream].
    { exists [], st1. rewrite app_nil_r. split_and!; [done..|by left]. }
    pose proof (fetch_term_wps t fs data st1 (sd_ok _ _ Hs1) (stored_exactly_same _ _ _ _ _ Hs1 Hst) Hin) as Hw. unfold wps in Hw.
    destruct (fetch_and_decompress_term decompress_from_slice t st1) as [[r|e| |] st2]; try done.
    - destruct Hw as [Hs2 ->]. destruct (IH (acc ++ [inl (term_data t fs data)]) st2) as (items & st' & -> & Hs' & Hi);
        [by eapply same_data_trans|].
      exists (inl (term_data t fs data) :: items), st'. rewrite <-app_assoc. split_and!; [done..|].
      destruct Hi as [->|(n & msg & Hn & ->)]; [by left|]. right. exists (S n), msg. split; [simpl; lia|done].
    - eexists [_], st2. split_and!; [done|by eapply same_data_trans|]. right. exists 0%nat. eexists. split; [simpl; lia|done]. }
  destruct (H [] st (same_data_refl st Hok)) as (items & st' & Hd & Hs & Hi). by exists items, st'.
Qed.
End terms.

(** ** Reconstruction plans *)
Section reconstruction.
#[local] Set Default Proof Using "Type*".
Context {B M A : Type} {BO : BlobStore B} {BS : BlobStoreSpec B}.
Context {MO : MetadataStore M} {MV : MetadataView M} {MS : MetadataStoreSpec M}.
Variable hmac_sha256 : bytes → bytes → vec byte HASH_LEN.
Variable hex_encode : bytes → str.
Implicit Types st : Server B M.

Definition wire_term (t : FileTerm) : CASReconstructionTerm :=
  mkCASReconstructionTerm (encode_hash (unwrap (ft_xorb t))) (ft_unpacked_segment_bytes t)
    (mkRangeJson (ft_chunk_idx_start t) (ft_chunk_idx_end t)).

(** Chunk range and byte range of a term: from the start of its first frame to
    the last byte of its last one. *)
Definition term_plan (layout : list XorbFrameRow) (t : FileTerm) : RangeJson * RangeJson :=
  (mkRangeJson (ft_chunk_idx_start t) (ft_chunk_idx_end t),
   match layout !! Z.to_nat (ft_chunk_idx_start t), layout !! Z.to_nat (ft_chunk_idx_end t - 1) with
   | Some a, Some b => mkRangeJson (xf_on_disk_start a) (as_u64 (xf_on_disk_start b + xf_on_disk_len b - 1))
   | _, _ => mkRangeJson 0 0
   end).

Definition plans (m : gmap str (list CASReconstructionFetchInfo)) (x : XorbHash) : list (RangeJson * RangeJson) :=
  (λ i, (fetch_range i, url_range i)) <$> default [] (m !! encode_hash (unwrap x)).

Lemma hreads_signed_url base secret hex s e :
  hreads (build_signed_url hmac_sha256 hex_encode base secret hex s e) (λ (_ : Server B M) _, True).
Proof.
  unfold build_signed_url. eapply hreads_bind; [apply hreads_now|]. intros st n _ st' [Hok _ _ _ _].
  split; [by apply same_data_refl|done].
Qed.

Lemma reconstruct_term_wps (svc : Service A) (layouts : gmap XorbHash (list XorbFrameRow)) acc t layout st :
  blob_ok (sv_blobs st) → wf_term t → (∀ l, layouts !! ft_xorb t = Some l → l = layout) →
  wps (reconstruct_term hmac_sha256 hex_encode svc layouts acc t) st
    (λ r st', same_data st st' ∧ term_in t (length layout) ∧ r.1 = acc.1 ++ [wire_term t] ∧
       ∀ x, plans r.2 x = plans acc.2 x ++ (if decide (ft_xorb t = x) then [term_plan layout t] else []))
    (λ _ st', same_data st st').
Proof.
  intros Hok Hwf Hlay. unfold reconstruct_term. wsteps.
  destruct (layouts !! ft_xorb t) as [l|] eqn:Hl; cbn [ok_or wp]; [|by apply same_data_refl].
  rewrite (Hlay _ eq_refl). eapply wps_hreads; [by apply hreads_term_frames|done| |done].
  intros [a b] st1 Hs1 (Hin & Ha & Hb). cbn [fst snd] in *.
  eapply wps_hreads; [apply hreads_presign|by destruct Hs1| |by eauto using same_data_trans].
  intros url st2 Hs2 _. pose proof (same_data_trans _ _ _ Hs1 Hs2) as Hs.
  assert (Hurl : hreads (match url with
      | Some u => mret u
      | None => build_signed_url hmac_sha256 hex_encode (public_base_url svc) (transfer_secret svc)
          (encode_hash (unwrap (ft_xorb t))) (xf_on_disk_start a) (as_u64 (xf_on_disk_start b + xf_on_disk_len b - 1))
      end) (λ (_ : Server B M) _, True)).
  { destruct url; [eapply hreads_mono; [apply hreads_ret|done]|apply hreads_signed_url]. }
  eapply wps_hreads; [exact Hurl|by destruct Hs| |by eauto using same_data_trans].
  intros u st3 Hs3 _. wsteps. cbn [fst snd]. split; [by eapply same_data_trans|]. split; [done|]. split; [done|].
  intros x. unfold plans. case_decide as Hx.
  - subst x. rewrite lookup_insert_eq. cbn [from_option]. unfold id at 1. rewrite fmap_app.
    unfold term_plan. by rewrite Ha, Hb.
  - rewrite lookup_insert_ne, app_nil_r; [done|]. intros Heq%encode_hash_inj. destruct Hx.
    destruct (ft_xorb t), x. simpl in *. by subst.
Qed.

(** A plan covers a list of terms. *)
Definition covers_terms (m : M) (terms : list FileTerm)
    (acc : list CASReconstructionTerm * gmap str (list CASReconstructionFetchInfo)) : Prop :=
  acc.1 = wire_term <$> terms ∧
  (∀ x, plans acc.2 x = term_plan (meta_layout m x) <$> filter (λ t, ft_xorb t = x) terms) ∧
  Forall (λ t, term_in t (length (meta_layout m (ft_xorb t)))) terms.

Lemma covers_snoc m terms t acc acc' :
  covers_terms m terms acc → term_in t (length (meta_layout m (ft_xorb t))) → acc'.1 = acc.1 ++ [wire_term t] →
  (∀ x, plans acc'.2 x = plans acc.2 x ++ (if decide (ft_xorb t = x) then [term_plan (meta_layout m (ft_xorb t)) t] else [])) →
  covers_terms m (terms ++ [t]) acc'.
Proof.
  intros (Hw & Hp & Hf) Hin Hw' Hp'. split_and!.
  - by rewrite Hw', Hw, fmap_app.
  - intros x. rewrite Hp', Hp, filter_app, fmap_app. f_equal. rewrite filter_cons, filter_nil.
    destruct (decide (ft_xorb t = x)) as [<-|]; done.
  - apply Forall_app. split; [done|]. by constructor.
Qed.

Lemma build_reconstruction_wps (svc : Service A) h st :
  blob_ok (sv_blobs st) →
  wps (build_reconstruction_response hmac_sha256 hex_encode svc h) st
    (λ resp st', same_data st st' ∧ meta_terms (sv_meta st) h ≠ [] ∧
       covers_terms (sv_meta st) (meta_terms (sv_meta st) h) (response_terms resp, fetch_info resp))
    (λ _ st', same_data st st').
Proof.
  intros Hok. unfold build_reconstruction_response.
  eapply wps_hreads; [apply hreads_meta, lookup_file_law|done| |done].
  intros found st1 Hs1 ->. wsteps. pose proof (meta_terms_wf (sv_meta st) h) as Hwf.
  destruct (meta_terms (sv_meta st) h) as [|t0 ts] eqn:Hterms; cbn [ok_or wp]; [done|].
  rewrite <-Hterms in *. set (terms := meta_terms (sv_meta st) h) in *.
  eapply wps_hreads; [apply hreads_meta, xorb_frame_layouts_law|by destruct Hs1| |by eauto using same_data_trans].
  intros layouts st2 Hs2 Hlay. pose proof (same_data_trans _ _ _ Hs1 Hs2) as Hs.
  assert (Hl : ∀ t, t ∈ terms → ∀ l, layouts !! ft_xorb t = Some l → l = meta_layout (sv_meta st) (ft_xorb t)).
  { intros t Ht l. rewrite Hlay by by apply list_elem_of_fmap_2.
    rewrite (same_layout _ _ (sd_meta _ _ Hs1)). by destruct (meta_layout _ _); [|intros [= <-]]. }
  apply wps_bind. eapply wps_mono.
  - apply (wps_fold_st _ (λ dn acc s, same_data st s ∧ covers_terms (sv_meta st) dn acc) (λ _ s, same_data st s) terms).
    + intros dn acc t rest s Heq [Hs' Hc].
      assert (Hin : t ∈ terms) by (rewrite Heq; set_solver). rewrite Forall_forall in Hwf.
      eapply wps_mono; [apply reconstruct_term_wps; [by destruct Hs'|by apply Hwf|by apply Hl]| |].
      * intros r s' (Hs'' & Hti & Hw & Hp). split; [by eapply same_data_trans|]. by eapply covers_snoc.
      * intros e s' Hs''. by eapply same_data_trans.
    + split; [done|]. split_and!; [done| |constructor]. intros x. unfold plans. cbn [snd]. by rewrite lookup_empty.
  - intros [w f] s [Hs' Hc]. wsteps. split; [done|]. split; [by rewrite Hterms|]. exact Hc.
  - done.
Qed.

(** C5. A reconstruction is a plan for exactly the file: it is given only for a
    file of the token's repository, lists the file's terms in order, and for
    each xorb one byte range per term that uses it, from the first byte of the
    term's first frame to the last byte of its last one; every term lies within
    the layout of its xorb.  Answering changes nothing and never panics. *)
Theorem reconstruction_exact (svc : Service A) claims file_hex st :
  blob_ok (sv_blobs st) →
  match get_reconstruction hmac_sha256 hex_encode svc claims file_hex st with
  | (Ok resp, st') => same_data st st' ∧ ∃ h, file_hex = encode_hash h ∧
      let terms := meta_terms (sv_meta st) (newtype h) in
      meta_in_repo (sv_meta st) (newtype h) (repo_id (claim_repo claims)) = true ∧ terms ≠ [] ∧
      response_terms resp = wire_term <$> terms ∧
      (∀ x, plans (fetch_info resp) x = term_plan (meta_layout (sv_meta st) x) <$> filter (λ t, ft_xorb t = x) terms) ∧
      Forall (λ t, term_in t (length (meta_layout (sv_meta st) (ft_xorb t)))) terms
  | (Err _, st') => same_data st st'
  | _ => False
  end.
Proof.
  intros Hok. assert (H : wps (get_reconstruction hmac_sha256 hex_encode svc claims file_hex) st
    (λ resp st', same_data st st' ∧ ∃ h, decode_hash file_hex = Ok h ∧
      meta_in_repo (sv_meta st) (newtype h) (repo_id (claim_repo claims)) = true ∧
      meta_terms (sv_meta st) (newtype h) ≠ [] ∧
      covers_terms (sv_meta st) (meta_terms (sv_meta st) (newtype h)) (response_terms resp, fetch_info resp))
    (λ _ st', same_data st st')).
  { unfold get_reconstruction. eapply wps_hreads; [apply hreads_decode|done| |done].
    intros h st1 Hs1 Hd.
    eapply wps_hreads; [apply hreads_meta, file_in_repo_law|by destruct Hs1| |by eauto using same_data_trans].
    intros b st2 Hs2 Hb. cbv beta in Hb. rewrite (same_in_repo _ _ (sd_meta _ _ Hs1)) in Hb.
    pose proof (same_data_trans _ _ _ Hs1 Hs2) as Hs. destruct b; [|done]. cbn [negb]. apply wps_bind.
    eapply wps_mono; [apply build_reconstruction_wps; by destruct Hs| |by eauto using same_data_trans].
    intros resp st3 (Hs3 & Hne & Hc). unfold count. wsteps.
    assert (Ht : meta_terms (sv_meta st2) (newtype h) = meta_terms (sv_meta st) (newtype h)) by apply (same_terms _ _ (sd_meta _ _ Hs)).
    rewrite Ht in Hne, Hc. split.
    { eapply same_data_trans; [done|]. by destruct Hs3. }
    exists h. split_and!; [done..|by rewrite Hb|done|]. destruct Hc as (Hw & Hp & Hf). split_and!; [done| |].
    - intros x. rewrite Hp. by rewrite (same_layout _ _ (sd_meta _ _ Hs)).
    - eapply Forall_impl; [exact Hf|]. intros t. cbv beta. by rewrite (same_layout _ _ (sd_meta _ _ Hs)). }
  unfold wps in H. destruct (get_reconstruction _ _ _ _ _ _) as [[r|e| |] st']; try done.
  destruct H as (Hs & h & Hh & H). split; [done|]. exists h. split; [by apply decode_hash_spec|].
  cbv zeta. by destruct H as (? & ? & ? & ? & ?).
Qed.
End reconstruction.

(** ** Downloads: who, and under what name *)
Section download.
#[local] Set Default Proof Using "Type*".
Context {B M A : Type} {BO : BlobStore B} {BS : BlobStoreSpec B}.
Context {MO : MetadataStore M} {MV : MetadataView M} {MS : MetadataStoreSpec M} {AO : RepoAuthz A}.
Variable sha256_digest : bytes → vec byte HASH_LEN.
Variable hex_encode : bytes → str.
Variable b64_decode : str → option bytes.
Variable payload_from_slice : bytes → option str.
Variable HeaderValue_try_from : str → outcome str bytes.
Hypothesis authz_returns : ∀ (a : A) tok repo scope, returned (check_repo_access a tok repo scope).
Hypothesis try_from_returns : ∀ v, returned (HeaderValue_try_from v).
Implicit Types st : Server B M.

Abbreviation claim_of := (extract_filename_sha256 b64_decode payload_from_slice).

Lemma sanitize_no_quote name : (x22 ∉ sanitize_filename name) ∧ (x5c ∉ sanitize_filename name).
Proof using Type.
  unfold sanitize_filename. split; intros [Hc _]%list_elem_of_filter;
    rewrite bool_decide_true in Hc by auto; discriminate.
Qed.

Lemma validated_filename_cases q :
  match validated_filename sha256_digest hex_encode b64_decode payload_from_slice q with
  | Ok (Some name) => fq_filename q = Some name ∧ ∃ claim, claim_of (fq_token q) = Some claim ∧
      Http.ct_eq (hex_encode (vec_to_list (sha256_digest name))) claim = true
  | Ok None | Err _ => True
  | _ => False
  end.
Proof using Type.
  unfold validated_filename. destruct (fq_filename q) as [name|]; [|done].
  destruct (claim_of (fq_token q)) as [claim|]; [|done]. destruct (Http.ct_eq _ _) eqn:Hc; cbn [negb]; [|done].
  split; [done|]. by exists claim.
Qed.

(** What a started download may be. *)
Definition download_granted (svc : Service A) file_hex q st (d : Download) : Prop :=
  ∃ h repo user, file_hex = encode_hash h ∧ parse_owner_name (fq_repo q) = Ok repo ∧
    check_repo_access (authz svc) (fq_token q) repo Read = Ok user ∧
    meta_in_repo (sv_meta st) (newtype h) (fq_repo q) = true ∧
    dl_terms d = meta_terms (sv_meta st) (newtype h) ∧ dl_terms d ≠ [] ∧
    dl_length d = as_u64 (sumZ (ft_unpacked_segment_bytes <$> dl_terms d)) ∧
    ∀ v, dl_disposition d = Some v → ∃ name claim, fq_filename q = Some name ∧
      claim_of (fq_token q) = Some claim ∧ Http.ct_eq (hex_encode (vec_to_list (sha256_digest name))) claim = true ∧
      HeaderValue_try_from (lit "attachment; filename=" ++ [x22] ++ sanitize_filename name ++ [x22]) = Ok v ∧
      (x22 ∉ sanitize_filename name) ∧ (x5c ∉ sanitize_filename name).

Lemma parse_owner_name_id s repo : parse_owner_name s = Ok repo → repo_id repo = s.
Proof using Type.
  unfold parse_owner_name. destruct (split_once s x2f) as [[[|a o] [|b n]]|]; try discriminate. by intros [= <-].
Qed.

Lemma download_wps (svc : Service A) file_hex q st :
  blob_ok (sv_blobs st) →
  wps (get_file_download sha256_digest hex_encode b64_decode payload_from_slice HeaderValue_try_from svc file_hex q) st
    (λ d st', same_data st st' ∧ download_granted svc file_hex q st d) (λ _ st', same_data st st').
Proof.
  intros Hok. unfold get_file_download. eapply wps_hreads; [apply hreads_decode|done| |done].
  intros h st1 Hs1 Hd. cbv beta in Hd. apply decode_hash_spec in Hd. wsteps.
  destruct (parse_owner_name (fq_repo q)) as [repo|e| |] eqn:Hrepo; cbn [wp];
    [|done|unfold parse_owner_name in Hrepo; by destruct (split_once _ _) as [[[] []]|]..].
  pose proof (authz_returns (authz svc) (fq_token q) repo Read) as Hret. wsteps.
  destruct (check_repo_access (authz svc) (fq_token q) repo Read) as [user|e| |] eqn:Hacc; try done; cbn [map_err wp].
  eapply wps_hreads; [apply hreads_meta, file_in_repo_law|by destruct Hs1| |by eauto using same_data_trans].
  intros b st2 Hs2 Hb. cbv beta in Hb. rewrite (same_in_repo _ _ (sd_meta _ _ Hs1)), (parse_owner_name_id _ _ Hrepo) in Hb.
  pose proof (same_data_trans _ _ _ Hs1 Hs2) as Hs. destruct b; [|done]. cbn [negb]. wsteps.
  pose proof (validated_filename_cases q) as Hname.
  destruct (validated_filename _ _ _ _ q) as [name|e| |]; try done; cbn [wp].
  eapply wps_hreads; [apply hreads_meta, lookup_file_law|by destruct Hs| |by eauto using same_data_trans].
  intros found st3 Hs3 ->. rewrite (same_terms _ _ (sd_meta _ _ Hs)). pose proof (same_data_trans _ _ _ Hs Hs3) as Hs'.
  wsteps. destruct (meta_terms (sv_meta st) (newtype h)) as [|t ts] eqn:Ht; cbn [ok_or wp]; [done|].
  assert (Hgo : ∀ disp, (∀ v, disp = Some v → ∃ name claim, fq_filename q = Some name ∧
      claim_of (fq_token q) = Some claim ∧ Http.ct_eq (hex_encode (vec_to_list (sha256_digest name))) claim = true ∧
      HeaderValue_try_from (lit "attachment; filename=" ++ [x22] ++ sanitize_filename name ++ [x22]) = Ok v ∧
      (x22 ∉ sanitize_filename name) ∧ (x5c ∉ sanitize_filename name)) →
    download_granted svc file_hex q st (mkDownload 200 (lit "application/octet-stream")
      (as_u64 (sumZ (ft_unpacked_segment_bytes <$> t :: ts))) disp (t :: ts))).
  { intros disp Hdisp. exists h, repo, user. cbn [dl_terms dl_length dl_disposition]. split_and!; try done. }
  wsteps. destruct name as [name|]; wsteps.
  - pose proof (try_from_returns (lit "attachment; filename=" ++ [x22] ++ sanitize_filename name ++ [x22])) as Hv.
    destruct (HeaderValue_try_from _) as [v|e| |] eqn:Hval; try done; cbn [map_err wp]. wsteps. split; [done|]. apply Hgo.
    intros v' [= <-]. destruct Hname as (Hn & claim & Hcl & Heq). exists name, claim. by destruct (sanitize_no_quote name).
  - split; [done|]. by apply Hgo.
Qed.

(** C34. A download is gated by the forge and by the repository: it starts only
    for a file of the named repository, for a bearer that the authorizer lets
    read it; it streams the terms of that file and announces the sum of their
    sizes.  A file name is attached only if the bearer's claim is the digest of
    that name, and the attached name holds no quote or backslash. *)
Theorem download_gate (svc : Service A) file_hex q st :
  blob_ok (sv_blobs st) →
  match get_file_download sha256_digest hex_encode b64_decode payload_from_slice HeaderValue_try_from svc file_hex q st with
  | (Ok d, st') => same_data st st' ∧ download_granted svc file_hex q st d
  | (Err _, st') => same_data st st'
  | _ => False
  end.
Proof.
  intros Hok. pose proof (download_wps svc file_hex q st Hok) as H. unfold wps in H.
  by destruct (get_file_download _ _ _ _ _ _ _ _ _) as [[?|?| |] ?].
Qed.
End download.

(** ** Dedup shards *)
Section dedup.
#[local] Set Default Proof Using "Type*".
Context {B M : Type} {BO : BlobStore B} {BS : BlobStoreSpec B}.
Context {MO : MetadataStore M} {MV : MetadataView M} {MS : MetadataStoreSpec M}.
Variable hmac_sha256 : bytes → bytes → vec byte HASH_LEN.
Implicit Types st : Server B M.

Definition wf_block (cb : ParsedCasBlock) : Prop :=
  cas_flags cb = 0 ∧ is_u32 (num_bytes_in_cas cb) ∧ is_u32 (num_bytes_on_disk cb) ∧ Forall wf_cas_chunk (cas_chunks cb).

(** What a dedup answer holds: blocks of stored xorbs only. *)
Definition dedup_shard (key : vec byte HASH_LEN) st (s : ParsedShard) : Prop :=
  files s = [] ∧ cas_blocks s ≠ [] ∧ Forall (λ cb, present st (cas_xorb cb) ∧ wf_block cb) (cas_blocks s) ∧
  header s = mkShardHeader (array_of HASH_LEN MDB_SHARD_HEADER_TAG) MDB_SHARD_HEADER_VERSION FOOTER_SIZE ∧
  ∃ i, let now := Z.max 0 (sv_clock st i) in footer s = Some (mkShardFooter MDB_SHARD_FOOTER_VERSION 0 0 (mkHash32 key) now
    (as_u64 (now + DEDUP_KEY_TTL_SECS)) 0).

Lemma hreads_near candidates :
  Forall wf_xorb_info candidates →
  hreads (fold_st (λ near x, b ← blobs (blob_exists (xi_xorb x)); mret (if b : bool then near ++ [x] else near))
    [] candidates) (λ (st : Server B M) near, Forall (λ x, present st (xi_xorb x) ∧ wf_xorb_info x) near).
Proof.
  intros Hwf st Hok. rewrite Forall_forall in Hwf.
  apply (wps_fold_st _ (λ _ near s, same_data st s ∧ Forall (λ x, present st (xi_xorb x) ∧ wf_xorb_info x) near)
    (λ _ s, same_data st s)).
  - intros dn near x rest s Heq [Hs Hn]. eapply wps_hreads; [apply hreads_exists|by destruct Hs| |by eauto using same_data_trans].
    intros b s' Hs' Hb. cbv beta in Hb. split; [by eapply same_data_trans|]. destruct b; [|done].
    apply Forall_app. split; [done|]. constructor; [|done]. split; [|apply Hwf; rewrite Heq; set_solver].
    unfold present. rewrite <-(sd_xorb _ _ Hs). by apply Hb.
  - split; [by apply same_data_refl|constructor].
Qed.

Lemma hreads_blocks key near :
  hreads (fold_st (λ cbs x,
      chunks ← meta (xorb_chunk_offsets (xi_xorb x));
      let entries := (λ c, mkCasChunkEntry (wrap_chunk_hash hmac_sha256 (co_chunk_hash c) key)
                         (co_byte_start c) (co_unpacked_segment_bytes c)) <$> chunks in
      mret (cbs ++ [mkParsedCasBlock (xi_xorb x) 0 (xi_num_bytes_in_cas x) (xi_num_bytes_on_disk x) entries])) [] near)
    (λ (_ : Server B M) cbs, cas_xorb <$> cbs = xi_xorb <$> near ∧ (Forall wf_xorb_info near → Forall wf_block cbs)).
Proof.
  intros st Hok.
  apply (wps_fold_st _ (λ dn cbs s, same_data st s ∧ cas_xorb <$> cbs = xi_xorb <$> dn ∧
    (Forall wf_xorb_info dn → Forall wf_block cbs)) (λ _ s, same_data st s)).
  - intros dn cbs x rest s _ (Hs & Hx & Hw).
    eapply wps_hreads; [apply hreads_meta, xorb_chunk_offsets_law|by destruct Hs| |by eauto using same_data_trans].
    intros chunks s' Hs' Hc. cbv beta in Hc. split; [by eapply same_data_trans|]. split.
    + by rewrite !fmap_app, Hx.
    + rewrite !Forall_app, !Forall_singleton. intros [Hdn (_ & ? & ?)]. split; [by apply Hw|].
      split_and!; try done. cbn [cas_chunks]. apply Forall_fmap. exact Hc.
  - split; [by apply same_data_refl|]. split; [done|]. constructor.
Qed.

Lemma dedup_wps key hash_hex st :
  blob_ok (sv_blobs st) →
  wps (get_dedup_chunk hmac_sha256 key hash_hex) st
    (λ b st', same_data st st' ∧ ∃ s, b = serialize s ∧ dedup_shard key st s) (λ _ st', same_data st st').
Proof.
  intros Hok. unfold get_dedup_chunk. eapply wps_hreads; [apply hreads_decode|done| |done].
  intros h st1 Hs1 _. eapply wps_hreads; [apply hreads_meta, xorbs_near_chunk_law|by destruct Hs1| |by eauto using same_data_trans].
  intros cands st2 Hs2 Hc. pose proof (same_data_trans _ _ _ Hs1 Hs2) as Hs. cbv beta in Hc.
  eapply wps_hreads; [by apply hreads_near|by destruct Hs| |by eauto using same_data_trans].
  intros near st3 Hs3 Hn. cbv beta in Hn. pose proof (same_data_trans _ _ _ Hs Hs3) as Hs'.
  destruct near as [|x0 near0] eqn:Hnear; [done|]. rewrite <-Hnear in *.
  eapply wps_hreads; [apply hreads_blocks|by destruct Hs'| |by eauto using same_data_trans].
  intros cbs st4 Hs4 [Hx Hw]. eapply wps_hreads; [apply hreads_now|by destruct Hs4| |by eauto using same_data_trans].
  intros now st5 Hs5 [i ->]. rewrite (sd_clock _ _ (same_data_trans _ _ _ Hs' Hs4)). wsteps. split; [by eauto using same_data_trans|].
  eexists. split; [done|]. split_and!; [done| | |done|by exists i]; cbn [cas_blocks].
  - intros ->. rewrite Hnear in Hx. discriminate Hx.
  - assert (Hwf : Forall wf_block cbs) by (apply Hw; eapply Forall_impl; [exact Hn|]; by intros x [_ ?]).
    rewrite Forall_forall in Hwf. rewrite Forall_forall in Hn. rewrite Forall_forall. intros cb Hcb. split; [|by apply Hwf].
    assert (Hin : cas_xorb cb ∈ xi_xorb <$> near) by (rewrite <-Hx; by apply list_elem_of_fmap_2).
    apply list_elem_of_fmap in Hin as (x & -> & Hin). apply (present_same _ _ _ Hs). by apply Hn.
Qed.

Lemma cas_chunks_le s cb : cb ∈ cas_blocks s → len (cas_chunks cb) ≤ len (serialize s).
Proof.
  intros Hin. unfold len. rewrite length_serialize.
  assert (length (cas_chunks cb) ≤ length (flat_map cas_bytes (cas_blocks s)))%nat; [|lia].
  induction Hin as [l|c l Hin IH]; cbn [flat_map]; rewrite length_app; [rewrite length_cas_bytes|]; lia.
Qed.

(** C35. A dedup answer is sound: it advertises only xorbs that are stored, and
    the shard it sends parses back to exactly the blocks it was built from (the
    answer fits the shard limit, no xorb has the bookend's hash, the clock is
    that of this era), so a client can rely on every chunk it is told about. *)
Theorem dedup_answer_sound key hash_hex st :
  blob_ok (sv_blobs st) →
  match get_dedup_chunk hmac_sha256 key hash_hex st with
  | (Ok b, st') => same_data st st' ∧ ∃ s, b = serialize s ∧ dedup_shard key st s ∧
      (len b ≤ MAX_SHARD_BYTES →
       Forall (λ cb, is_bookend_hash (unwrap (cas_xorb cb)) = false) (cas_blocks s) →
       (∀ i, sv_clock st i < 2 ^ 64) →
       parse b = Ok (relocate s))
  | (Err _, st') => same_data st st'
  | _ => False
  end.
Proof.
  intros Hok. pose proof (dedup_wps key hash_hex st Hok) as H. unfold wps in H.
  destruct (get_dedup_chunk hmac_sha256 key hash_hex st) as [[b|e| |] st']; try done.
  destruct H as (Hs & s & -> & Hd). split; [done|]. exists s. split_and!; [done..|].
  intros Hlen Hcb Hclock. apply parse_serialize_wf; [|done].
  destruct Hd as (Hf & _ & Hb & Hh & i & Hfoot).
  specialize (Hclock i). unfold wf_shard. rewrite Hf, Hh, Hfoot. split_and!; try done.
  - rewrite Forall_forall in Hb, Hcb |- *. intros cb Hin. destruct (Hb cb Hin) as (_ & Hfl & ? & ? & ?).
    pose proof (Hcb cb Hin). pose proof (cas_chunks_le s cb Hin). unfold wf_cas. rewrite Hfl. split_and!; try done.
    unfold is_u32, len, MAX_SHARD_BYTES in *. lia.
  - split_and!; [done..| |apply as_u64_range]. cbn [shard_creation_timestamp]. unfold is_u64. lia.
Qed.
End dedup.

(** ** Executions *)

#[local] Instance exec_meta_ops : MetadataStore store := SqliteMetadataStore_ops no_column first_row.
#[local] Instance exec_meta_spec : MetadataStoreSpec store := sqlite_spec no_column first_row first_row_spec.

(** One file of two terms: both chunks of the body, then its second chunk again. *)
Definition demo_terms : list FileTerm := [mkFileTerm demo_x 0 2 3 None; mkFileTerm demo_x 1 2 1 None].
Definition demo_frames : list XorbChunkFrame := [mkXorbChunkFrame 0 10 2 x00; mkXorbChunkFrame 10 9 1 x00].
Definition demo_serving : Server MemBlobStore store :=
  set_meta (sq_register_files first_row repo_a [(demo_file, demo_terms)]
    (sq_register_xorb (mkXorbInfo demo_x 2 19 20) [mkChunkRow (newtype (hx x07)) 0 0 2; mkChunkRow (newtype (hx x08)) 1 10 1]
      (sv_meta demo_stocked)).2).2 demo_stocked.
Definition demo_file_hex : str := encode_hash (unwrap demo_file).

Lemma demo_serving_ok : blob_ok (sv_blobs demo_serving).
Proof. exact I. Qed.

Lemma demo_stored : stored_exactly example_decompress demo_serving demo_x demo_frames (lit "abc").
Proof.
  exists example_body. split_and!; [vm_compute; reflexivity..|].
  vm_compute. reflexivity.
Qed.

Lemma fetch_term_exact_witness :
  ∃ st', fetch_and_decompress_term example_decompress (mkFileTerm demo_x 1 2 1 None) demo_serving = (Ok (lit "c"), st') ∧
    same_data demo_serving st'.
Proof.
  pose proof (fetch_term_exact example_decompress (mkFileTerm demo_x 1 2 1 None) demo_frames (lit "abc") demo_serving demo_serving_ok
    demo_stored) as H.
  destruct (fetch_and_decompress_term _ _ _) as [[r|e| |] st'].
  - exists st'. destruct H as [-> Hs]; [unfold term_in; simpl; lia|]. split; [reflexivity|exact Hs].
  - exfalso. destruct H as [_ H]; [unfold term_in; simpl; lia|]. specialize (H I eq_refl). vm_compute in H. discriminate H.
  - exfalso. apply H. unfold term_in; simpl; lia.
  - exfalso. apply H. unfold term_in; simpl; lia.
Defined.

Lemma download_stream_exact_witness :
  ∃ items st', download_stream example_decompress demo_terms [] demo_serving = (Ok items, st') ∧
    (items = [inl (lit "abc"); inl (lit "c")] ∨
     ∃ n msg, (n < 2)%nat ∧ items = (inl <$> take n [lit "abc"; lit "c"]) ++ [inr msg]).
Proof.
  destruct (download_stream_exact example_decompress demo_terms demo_serving [lit "abc"; lit "c"] demo_serving_ok)
    as (items & st' & Hd & _ & Hi).
  - repeat constructor; exists demo_frames, (lit "abc"); (split; [exact demo_stored|]);
      (split; [unfold term_in; simpl; lia|vm_compute; reflexivity]).
  - exists items, st'. split; [exact Hd|exact Hi].
Defined.

Lemma reconstruction_exact_witness :
  ∃ resp st', get_reconstruction toy_mac hex_of demo_open demo_claims demo_file_hex demo_serving = (Ok resp, st') ∧
    response_terms resp = wire_term <$> meta_terms (sv_meta demo_serving) demo_file ∧
    same_data demo_serving st'.
Proof.
  set (run := get_reconstruction _ _ _ _ _ _).
  assert (Hrun : ∃ r, run.1 = Ok r) by (vm_compute; eexists; reflexivity). destruct Hrun as [r Hr].
  assert (Heq : run = (Ok r, run.2)) by (rewrite <-Hr; apply surjective_pairing).
  exists r, run.2. split; [exact Heq|].
  pose proof (reconstruction_exact toy_mac hex_of demo_open demo_claims demo_file_hex demo_serving demo_serving_ok) as H.
  fold run in H. rewrite Heq in H. destruct H as (Hs & h & Hh & _ & _ & Ht & _).
  unfold demo_file_hex in Hh. apply encode_hash_inj in Hh. subst h. split; [exact Ht|exact Hs].
Defined.

(** A bearer whose claim is the toy digest of the name. *)
Definition demo_download : FileDownloadQuery :=
  mkFileDownloadQuery (lit "h.p") (lit "alice/a") (Some (lit "a.txt")).

Lemma download_gate_witness :
  ∃ d st', get_file_download (λ b, array_of HASH_LEN b) hex_of Some
      (λ _, Some (hex_of (vec_to_list (array_of HASH_LEN (lit "a.txt"))))) visible_header demo_open demo_file_hex
      demo_download demo_serving = (Ok d, st') ∧
    same_data demo_serving st' ∧ dl_terms d = meta_terms (sv_meta demo_serving) demo_file ∧
    dl_disposition d = Some (lit "attachment; filename=" ++ [x22] ++ lit "a.txt" ++ [x22]).
Proof.
  set (run := get_file_download _ _ _ _ _ _ _ _ _).
  assert (Hrun : ∃ d, run.1 = Ok d ∧
    dl_disposition d = Some (lit "attachment; filename=" ++ [x22] ++ lit "a.txt" ++ [x22]))
    by (vm_compute; eexists; split; reflexivity).
  destruct Hrun as (d & Hd & Hdisp).
  assert (Heq : run = (Ok d, run.2)) by (rewrite <-Hd; apply surjective_pairing).
  exists d, run.2. split; [exact Heq|].
  pose proof (download_gate (A := AlwaysAllow) (λ b, array_of HASH_LEN b) hex_of Some
      (λ _, Some (hex_of (vec_to_list (array_of HASH_LEN (lit "a.txt"))))) visible_header
      (λ _ _ _ _, I) (try_from_returns _ _ _ demo_crates) demo_open demo_file_hex demo_download demo_serving demo_serving_ok) as H.
  fold run in H. rewrite Heq in H. destruct H as (Hs & h & repo & user & Hh & _ & _ & _ & Ht & _).
  unfold demo_file_hex in Hh. apply encode_hash_inj in Hh. subst h. split; [exact Hs|]. split; [exact Ht|exact Hdisp].
Defined.

Lemma dedup_answer_sound_witness :
  ∃ b st' s, get_dedup_chunk toy_mac (array_of HASH_LEN (lit "key")) (encode_hash (hx x08)) demo_serving = (Ok b, st') ∧
    (∀ cb, cb ∈ cas_blocks s → cas_xorb cb = demo_x) ∧ cas_blocks s ≠ [] ∧ parse b = Ok (relocate s).
Proof.
  set (run := get_dedup_chunk _ _ _ _).
  assert (Hrun : ∃ b, run.1 = Ok b ∧ len b = 488) by (vm_compute; eexists; split; reflexivity).
  destruct Hrun as (b & Hb & Hlen).
  assert (Heq : run = (Ok b, run.2)) by (rewrite <-Hb; apply surjective_pairing).
  pose proof (dedup_answer_sound toy_mac (array_of HASH_LEN (lit "key")) (encode_hash (hx x08)) demo_serving demo_serving_ok) as H.
  fold run in H. rewrite Heq in H. destruct H as (_ & s & Hs & Hd & Hp). exists b, run.2, s.
  assert (Hx : ∀ cb, cb ∈ cas_blocks s → cas_xorb cb = demo_x).
  { destruct Hd as (_ & _ & Hf & _). rewrite Forall_forall in Hf. intros cb Hin.
    destruct (Hf cb Hin) as [[body Hp'] _]. cbn in Hp'. apply lookup_singleton_Some in Hp' as [Hx _]. symmetry. exact Hx. }
  split; [exact Heq|]. split; [exact Hx|]. split; [apply Hd|].
  apply Hp; [rewrite Hlen; vm_compute; discriminate| |].
  - apply Forall_forall. intros cb Hin. rewrite (Hx cb Hin). vm_compute. reflexivity.
  - intros i. vm_compute. reflexivity.
Defined.
