(* ===== verification/Router.v ===== *)
(** * The routes of the server

    [router] of [crates/bale-server-http/src/lib.rs] and the middleware of
    [metrics.rs]: every request, from its path to its response.  How axum matches a
    path and reads a query or JSON is a parameter; the table of routes, what is
    behind the token check and the order of a handler's extractors are the code's. *)

From stdpp Require Import gmap list.
From S2P Require Import Prelude RustStd Core Wire Xorb Shard MetaCommon Authz MetaSpec Http HttpStore HttpServe HttpAuth.

(** axum, by what the routes use: the registered pattern that a path matches with
    the segments it captures, and the extractors; [inl] is the status of a rejection. *)
Class Axum := {
  route_match : list str → str → option (str * list str);
  url_decode : str → option str;
  query_download : str → option FileDownloadQuery;
  query_transfer : str → option TransferQuery;
  is_json : Headers → bool;
  json_quota : bytes → Z + SetOwnerQuotaRequest;
}.

(** A request; [rq_random] is what the random generator gives while it is served. *)
Record Request := mkRequest {
  rq_method : Method; rq_path : str; rq_query : str; rq_headers : Headers; rq_body : bytes;
  rq_random : vec byte HASH_LEN;
}.

(** A response: what its JSON or bytes are made from. *)
Inductive Payload :=
  | PText (s : str) | PError (message : str) | PRejected | PEmpty
  | PXorb (r : UploadXorbResponse) | PShard (r : UploadShardResponse)
  | PReconstruction (r : QueryReconstructionResponse) | PToken (r : XetTokenResponse)
  | PUsage (r : OwnerUsageResponse) | PRepoUsage (r : RepoUsageResponse)
  | PDedup (shard : bytes) | PTransfer (t : Transfer) | PDownload (d : Download) (items : list (bytes + str)).
Record Response := mkResponse { rs_status : Z; rs_payload : Payload }.
Definition ok_response (p : Payload) : Response := mkResponse 200 p.
Definition rejected (status : Z) : Response := mkResponse status PRejected.

(** [ApiError::into_response], where a handler or the token check answers one. *)
Definition into_response (e : ApiError) : Response := mkResponse (api_status e) (PError (api_message e)).
Definition respond {S} (m : ST S ApiError Response) : ST S ApiError Response := λ s,
  match m s with
  | (Err e, s') => (Ok (into_response e), s')
  | r => r
  end.

(** ** Patterns *)

Definition XORBS : str := lit "/v1/xorbs/{prefix}/{hash}".
Definition SHARDS : str := lit "/shards".
Definition RECONSTRUCTIONS : str := lit "/v1/reconstructions/{file_id}".
Definition CHUNKS : str := lit "/v1/chunks/{prefix}/{hash}".
Definition USAGE : str := lit "/v1/usage/{owner}".
Definition REPO_USAGE : str := lit "/v1/usage/repo/{owner}/{repo}".
Definition QUOTAS : str := lit "/v1/quotas/{owner}".
Definition XORB_TRANSFER : str := lit "/xorb/default/{hash}".
Definition FILES : str := lit "/v1/files/{file_id}".
Definition TOKENS : str := lit "/api/{type_seg}/{ns}/{name}/{tok_seg}/{rev}".
Definition HEALTHZ : str := lit "/healthz".

Section router.
Context {X : Axum} {B M A : Type} `{!BlobStore B} `{!MetadataStore M} `{!RepoAuthz A}.
Context {MerkleHash : Type} `{!EqDecision MerkleHash}.
Variable merkle_from : Hash32 → MerkleHash.
Variable compute_data_hash : bytes → MerkleHash.
Variable compute_xorb_merkle_hash : list (MerkleHash * Z) → MerkleHash.
Variable decompress_from_slice : CompressionScheme → bytes → outcome str bytes.
Variable blake3_hash sha256_digest : bytes → vec byte HASH_LEN.
Variable hmac_sha256 : bytes → bytes → vec byte HASH_LEN.
Variable hex_encode : bytes → str.
Variable hex_decode : str → option bytes.
Variable b64_decode : str → option bytes.
Variable payload_from_slice : bytes → option str.
Variable to_str : bytes → option str.
Variable HeaderValue_try_from : str → outcome str bytes.
Abbreviation H := (ST (Server B M) ApiError).

(** ** Extractors *)

(** [Path]: the number of segments is the type's, each is decoded. *)
Definition with_path (n : nat) (caps : list str) (k : list str → H Response) : H Response :=
  if bool_decide (length caps = n) then
    match mapM url_decode caps with
    | Some segments => k segments
    | None => mret (rejected 400)
    end
  else mret (rejected 500).
Definition with_path1 (caps : list str) (k : str → H Response) : H Response :=
  with_path 1 caps (λ l, match l with [a] => k a | _ => mret (rejected 500) end).
Definition with_path2 (caps : list str) (k : str → str → H Response) : H Response :=
  with_path 2 caps (λ l, match l with [a; b] => k a b | _ => mret (rejected 500) end).
Definition with_query {Q} (q : option Q) (k : Q → H Response) : H Response :=
  match q with Some q => k q | None => mret (rejected 400) end.
(** [Bytes] under [DefaultBodyLimit]. *)
Definition with_bytes (rq : Request) (k : bytes → H Response) : H Response :=
  if MAX_BODY_BYTES <? len (rq_body rq) then mret (rejected 413) else k (rq_body rq).
Definition with_json (rq : Request) (k : SetOwnerQuotaRequest → H Response) : H Response :=
  if negb (is_json (rq_headers rq)) then mret (rejected 415)
  else with_bytes rq (λ b, match json_quota b with inr q => k q | inl status => mret (rejected status) end).

(** ** The table *)

Definition Handler := Request → list str → H Response.

(** Behind [auth_middleware]. *)
Definition v1 (svc : Service A) (claims : TokenClaims) : list (str * (Method * Handler)) := [
  (XORBS, (POST, λ rq caps, with_path2 caps (λ _prefix hash, with_bytes rq (λ body,
    r ← upload_xorb merkle_from compute_data_hash compute_xorb_merkle_hash decompress_from_slice svc claims hash body;
    mret (ok_response (PXorb r))))));
  (SHARDS, (POST, λ rq _, with_bytes rq (λ body, r ← upload_shard blake3_hash svc claims body; mret (ok_response (PShard r)))));
  (RECONSTRUCTIONS, (GET, λ _ caps, with_path1 caps (λ file_id,
    r ← get_reconstruction hmac_sha256 hex_encode svc claims file_id; mret (ok_response (PReconstruction r)))));
  (CHUNKS, (GET, λ rq caps, with_path2 caps (λ _prefix hash,
    b ← get_dedup_chunk hmac_sha256 (rq_random rq) hash; mret (ok_response (PDedup b)))))].

Definition admin (svc : Service A) : list (str * (Method * Handler)) := [
  (USAGE, (GET, λ rq caps, with_path1 caps (λ owner,
    r ← get_owner_usage hex_decode to_str svc owner (rq_headers rq); mret (ok_response (PUsage r)))));
  (REPO_USAGE, (GET, λ rq caps, with_path2 caps (λ owner repo,
    r ← get_repo_usage hex_decode to_str svc owner repo (rq_headers rq); mret (ok_response (PRepoUsage r)))));
  (QUOTAS, (PUT, λ rq caps, with_path1 caps (λ owner, with_json rq (λ body,
    status ← put_owner_quota hex_decode to_str svc owner (rq_headers rq) body; mret (mkResponse status PEmpty)))))].

Definition public (svc : Service A) : list (str * (Method * Handler)) := [
  (XORB_TRANSFER, (GET, λ rq caps, with_path1 caps (λ hash, with_query (query_transfer (rq_query rq)) (λ q,
    t ← get_xorb_transfer hmac_sha256 hex_encode to_str HeaderValue_try_from svc hash q (rq_headers rq);
    mret (mkResponse (tr_status t) (PTransfer t))))));
  (FILES, (GET, λ rq caps, with_path1 caps (λ file_id, with_query (query_download (rq_query rq)) (λ q,
    d ← get_file_download sha256_digest hex_encode b64_decode payload_from_slice HeaderValue_try_from svc file_id q;
    items ← (if decide (rq_method rq = HEAD) then mret [] else download_stream decompress_from_slice (dl_terms d) []);
    mret (mkResponse (dl_status d) (PDownload d items))))));
  (TOKENS, (GET, λ rq caps, with_path 5 caps (λ l,
    match l with
    | [type_seg; ns; name; tok_seg; rev] =>
        r ← issue_xet_token to_str svc type_seg ns name tok_seg rev (rq_headers rq);
        mret (ok_response (PToken r))
    | _ => mret (rejected 500)
    end)))].

Definition v1_patterns : list str := [XORBS; SHARDS; RECONSTRUCTIONS; CHUNKS].
Definition patterns : list str := [HEALTHZ] ++ v1_patterns ++ [USAGE; REPO_USAGE; QUOTAS; XORB_TRANSFER; FILES; TOKENS].

(** A method router: [get] answers HEAD as well, without the body. *)
Definition method_allowed (allowed requested : Method) : bool :=
  bool_decide (requested = allowed) || bool_decide (allowed = GET ∧ requested = HEAD).
Definition by_method (entry : Method * Handler) (rq : Request) (caps : list str) : H Response :=
  if method_allowed entry.1 (rq_method rq) then
    r ← respond (entry.2 rq caps);
    mret (if decide (rq_method rq = HEAD) then mkResponse (rs_status r) PEmpty else r)
  else mret (rejected 405).

Fixpoint assoc {V} (p : str) (l : list (str * V)) : option V :=
  match l with [] => None | (q, v) :: l => if decide (p = q) then Some v else assoc p l end.

Definition healthz : str := lit "ok".

(** [traced] without its metrics; a path that matches nothing is axum's. *)
Definition dispatch (svc : Service A) (rq : Request) (matched : option (str * list str)) : H Response :=
  match matched with
  | None => mret (rejected 404)
  | Some (p, caps) =>
      match assoc p (admin svc ++ public svc) with
      | Some entry => by_method entry rq caps
      | None =>
          if bool_decide (p ∈ v1_patterns) then
            respond (auth_middleware to_str svc (rq_method rq) (rq_headers rq) (λ claims,
              match assoc p (v1 svc claims) with
              | Some entry => by_method entry rq caps
              | None => mret (rejected 404)
              end))
          else mret (rejected 404)
      end
  end.

(** ** [metrics.rs] *)

(** The server and the counter of requests, by method, route and status. *)
Record Web := mkWeb { w_server : Server B M; w_requests : list (Method * str * Z) }.
Definition set_w_server s w := mkWeb s (w_requests w).

Definition metrics_middleware (rq : Request) (matched : option (str * list str)) (next : H Response) : ST Web ApiError Response :=
  r ← zoom w_server set_w_server next;
  _ ← modify (λ w, mkWeb (w_server w) (w_requests w ++ [(rq_method rq, default (lit "<unmatched>") (fst <$> matched), rs_status r)]));
  mret r.

(** [router]: the probe is outside of the metrics. *)
Definition router (svc : Service A) (rq : Request) : ST Web ApiError Response :=
  let matched := route_match patterns (rq_path rq) in
  match matched with
  | Some (p, caps) =>
      if decide (p = HEALTHZ) then
        zoom w_server set_w_server (by_method (GET, λ _ _, mret (ok_response (PText healthz))) rq caps)
      else metrics_middleware rq matched (dispatch svc rq matched)
  | None => metrics_middleware rq matched (dispatch svc rq matched)
  end.
End router.
