(* ===== verification/RouterSpec.v ===== *)
(** * What the routes promise

    No request goes around the token check: whatever arrives, stored data changes
    only for an upload with a write token, and every request is answered. *)

From stdpp Require Import gmap list.
From S2P Require Import Prelude RustStd RustText Core Wire Xorb Shard MetaCommon Sqlite Authz MemStore MetaSpec SqliteSpec Http HttpStore HttpServe HttpAuth Router.

(** Transfer queries have 64-bit numbers, as serde reads them. *)
Class AxumLaws (X : Axum) := {
  query_transfer_typed s q : query_transfer s = Some q → is_u64 (tq_s q) ∧ is_u64 (tq_e q) ∧ is_u64 (tq_x q);
}.

Section steps.
#[local] Set Default Proof Using "Type*".
Context {B M : Type} {BO : BlobStore B} {BS : BlobStoreSpec B}.
Context {MO : MetadataStore M} {MV : MetadataView M} {MS : MetadataStoreSpec M}.
Implicit Types st : Server B M.

(** The call answers or fails and changes no data. *)
Definition calm {X} (m : ST (Server B M) ApiError X) : Prop := hreads m (λ _ _, True).

Lemma hreads_calm {X} (m : ST (Server B M) ApiError X) Q : hreads m Q → calm m.
Proof. intros Hm. by eapply hreads_mono. Qed.
Lemma calm_ret {X} (a : X) : calm (mret a).
Proof. apply (hreads_calm _ _ (hreads_ret a)). Qed.
Lemma calm_throw {X} e : calm (throw e : ST (Server B M) ApiError X).
Proof. apply hreads_throw. Qed.
Lemma calm_lift {X} (o : outcome ApiError X) : returned o → calm (lift o).
Proof. intros Ho. by eapply hreads_calm, hreads_lift. Qed.
Lemma calm_after {X Y} (m : ST (Server B M) ApiError X) (k : X → ST (Server B M) ApiError Y) Q :
  hreads m Q → (∀ st a, Q st a → calm (k a)) → calm (m ≫= k).
Proof.
  intros Hm Hk. eapply hreads_bind; [exact Hm|]. intros st a Ha st' [Hok _ _ _ _]. by apply (Hk st a Ha).
Qed.
Lemma calm_bind {X Y} (m : ST (Server B M) ApiError X) (k : X → ST (Server B M) ApiError Y) :
  calm m → (∀ a, calm (k a)) → calm (m ≫= k).
Proof. intros Hm Hk. eapply calm_after; [exact Hm|]. intros st a _. apply Hk. Qed.
Lemma calm_meta {X} (m : ST M CoreError X) Q : meta_reads m Q → calm (meta m).
Proof. intros Hm. by eapply hreads_calm, hreads_meta. Qed.
Lemma calm_decode what s : calm (decode_path what s).
Proof. eapply hreads_calm, hreads_decode. Qed.
Lemma calm_steps {X} (m : ST (Server B M) ApiError X) :
  (∀ st, blob_ok (sv_blobs st) → wps m st (λ _ st', same_data st st') (λ _ st', same_data st st')) → calm m.
Proof. intros Hm st Hok. eapply wps_mono; [by apply Hm| |done]. done. Qed.

(** ** The stream of a download *)
Variable decompress_from_slice : CompressionScheme → bytes → outcome str bytes.
Hypothesis decompress_returns : ∀ sc p, returned (decompress_from_slice sc p).

Lemma calm_fetch t : wf_term t → calm (fetch_and_decompress_term decompress_from_slice t).
Proof.
  intros Ht. unfold fetch_and_decompress_term. eapply calm_after; [apply hreads_meta, xorb_frame_layout_law|].
  intros st layout Hl. cbv beta in Hl. assert (Hwf : Forall wf_frame_row layout) by (rewrite Hl; apply meta_layout_wf). clear Hl.
  destruct layout as [|r layout]; [apply calm_throw|]. eapply calm_after; [by apply hreads_term_frames|].
  intros _ [a b] (_ & Ha & Hb). cbn [fst snd] in *. destruct (MAX_TERM_UNPACKED_BYTES <? _); [apply calm_throw|].
  apply calm_bind.
  - eapply hreads_calm, hreads_range. rewrite Forall_lookup in Hwf. apply Hwf in Ha. destruct Ha as (? & Ha & _). apply Ha.
  - intros body. apply calm_lift. pose proof (decompress_into_returns decompress_from_slice body [] decompress_returns) as Hd.
    by destruct (decompress_xorb_chunks_into _ _ _) as [[[]|e| |] out].
Qed.
Lemma calm_stream terms : Forall wf_term terms → ∀ items, calm (download_stream decompress_from_slice terms items).
Proof.
  induction 1 as [|t terms Ht Hts IH]; intros items; [apply calm_ret|]. intros st Hok. cbn [download_stream].
  pose proof (calm_fetch t Ht st Hok) as Hf. unfold wps in Hf |- *.
  destruct (fetch_and_decompress_term _ _ _) as [[b|e| |] st']; try done.
  destruct Hf as [Hs _]. pose proof (IH (items ++ [inl b]) st' (sd_ok _ _ Hs)) as Hr. unfold wps in Hr.
  destruct (download_stream _ _ _ _) as [[r|e| |] st'']; try done; [destruct Hr as [Hr _]; split; [|done]|]; by eapply same_data_trans.
Qed.
End steps.

(** ** The handlers of the table *)
Section routes.
#[local] Set Default Proof Using "All".
Context {X : Axum} {XL : AxumLaws X} {B M A : Type} {BO : BlobStore B} {BS : BlobStoreSpec B}.
Context {MO : MetadataStore M} {MV : MetadataView M} {MS : MetadataStoreSpec M} {AO : RepoAuthz A}.
Context {MerkleHash : Type} `{!EqDecision MerkleHash}.
Variable merkle_from : Hash32 → MerkleHash.
Variable compute_data_hash : bytes → MerkleHash.
Variable compute_xorb_merkle_hash : list (MerkleHash * Z) → MerkleHash.
Variable decompress_from_slice : CompressionScheme → bytes → outcome str bytes.
Hypothesis decompress_returns : ∀ sc p, returned (decompress_from_slice sc p).
Variable blake3_hash sha256_digest : bytes → vec byte HASH_LEN.
Variable hmac_sha256 : bytes → bytes → vec byte HASH_LEN.
Variable hex_encode : bytes → str.
Variable hex_decode : str → option bytes.
Variable b64_decode : str → option bytes.
Variable payload_from_slice : bytes → option str.
Variable to_str : bytes → option str.
Variable HeaderValue_try_from : str → outcome str bytes.
Hypothesis try_from_returns : ∀ v, returned (HeaderValue_try_from v).
Variable svc : Service A.
(** The authorizer answers. *)
Hypothesis verify_returns : ∀ t, returned (verify_xet_token (authz svc) t).
Hypothesis check_returns : ∀ a t repo scope, returned (check_repo_access (A := A) a t repo scope).
Hypothesis mint_returns : ∀ u repo scope, returned (mint_xet_token (authz svc) u repo scope).
Implicit Types st : Server B M.
Abbreviation H := (ST (Server B M) ApiError).
Abbreviation served := (served merkle_from compute_data_hash compute_xorb_merkle_hash decompress_from_slice).

Lemma returned_map {E F T} (f : E → F) (o : outcome E T) : returned o → returned (map_err f o).
Proof using Type. by destruct o. Qed.
Lemma returned_option {E T} (e : E) (o : option T) : returned (ok_or e o).
Proof using Type. by destruct o. Qed.

Lemma calm_admin_or_owner headers owner_name : calm (require_admin_or_owner (B := B) (M := M) hex_decode to_str svc headers owner_name).
Proof.
  unfold require_admin_or_owner. apply calm_bind; [apply calm_lift, returned_option|]. intros b. cbv zeta.
  destruct (match admin_token svc with Some _ => _ | None => _ end); [apply calm_ret|].
  apply calm_bind; [apply calm_lift, returned_map, verify_returns|]. intros claims.
  destruct (negb _); [apply calm_throw|apply calm_ret].
Qed.
Lemma calm_owner_usage owner headers : calm (get_owner_usage (B := B) (M := M) hex_decode to_str svc owner headers).
Proof.
  unfold get_owner_usage. apply calm_bind; [apply calm_admin_or_owner|]. intros _.
  apply calm_bind; [eapply calm_meta, raw_bytes_for_owner_law|]. intros raw.
  apply calm_bind; [eapply calm_meta, stored_bytes_for_owner_law|]. intros stored.
  apply calm_bind; [eapply hreads_calm, hreads_quota|]. intros q. apply calm_ret.
Qed.
Lemma calm_repo_usage owner repo headers : calm (get_repo_usage (B := B) (M := M) hex_decode to_str svc owner repo headers).
Proof.
  unfold get_repo_usage. apply calm_bind; [apply calm_admin_or_owner|]. intros _.
  apply calm_bind; [eapply calm_meta, raw_bytes_for_repo_law|]. intros raw.
  apply calm_bind; [eapply calm_meta, stored_bytes_for_repo_law|]. intros stored.
  apply calm_bind; [eapply calm_meta, exclusive_law|]. intros ex. apply calm_ret.
Qed.
Lemma calm_put_quota owner headers body : calm (put_owner_quota (B := B) (M := M) hex_decode to_str svc owner headers body).
Proof.
  unfold put_owner_quota. do 3 (apply calm_bind; [apply calm_lift, returned_option|]; intros ?).
  destruct (negb _); [apply calm_throw|]. apply calm_bind; [eapply calm_meta, set_owner_quota_law|]. intros _. apply calm_ret.
Qed.
Lemma calm_issue a b c d e headers : calm (issue_xet_token (B := B) (M := M) to_str svc a b c d e headers).
Proof.
  unfold issue_xet_token. apply calm_bind.
  { apply calm_lift. unfold parse_hf_repo_type. by repeat destruct (decide _). }
  intros rt. apply calm_bind; [apply calm_lift; unfold parse_hf_token_scope; by repeat destruct (decide _)|]. intros sc. cbv zeta.
  apply calm_bind; [apply calm_lift, returned_option|]. intros hub.
  apply calm_bind; [apply calm_lift, returned_map, check_returns|]. intros user.
  apply calm_bind; [apply calm_lift, returned_map, mint_returns|]. intros te. apply calm_ret.
Qed.
Lemma calm_transfer hh q headers : is_u64 (tq_s q) →
  calm (get_xorb_transfer (B := B) (M := M) hmac_sha256 hex_encode to_str HeaderValue_try_from svc hh q headers).
Proof.
  intros Hq. unfold get_xorb_transfer. apply calm_bind; [apply calm_decode|]. intros h. cbv zeta. destruct (negb _); [apply calm_throw|].
  apply calm_bind; [eapply hreads_calm, hreads_now|]. intros now. destruct (_ <? _); [apply calm_throw|].
  apply calm_bind; [apply calm_lift, returned_option|]. intros v.
  apply calm_bind; [apply calm_lift, returned_map, parse_byte_range_returns|]. intros r. destruct (_ || _); [apply calm_throw|].
  apply calm_bind; [eapply hreads_calm, hreads_range, Hq|]. intros body.
  apply calm_bind; [apply calm_lift, returned_map, try_from_returns|]. intros range. apply calm_ret.
Qed.
Lemma calm_reconstruction claims file_hex : calm (get_reconstruction (B := B) (M := M) hmac_sha256 hex_encode svc claims file_hex).
Proof.
  unfold get_reconstruction. apply calm_bind; [apply calm_decode|]. intros h. cbv zeta.
  apply calm_bind; [eapply calm_meta, file_in_repo_law|]. intros b. destruct (negb b); [apply calm_throw|].
  apply calm_bind.
  - apply calm_steps. intros st Hok. eapply wps_mono; [by apply build_reconstruction_wps| |done]. by intros r st' [? _].
  - intros r. apply calm_bind; [apply hreads_count|]. intros _. apply calm_ret.
Qed.
Lemma calm_dedup key hh : calm (get_dedup_chunk (B := B) (M := M) hmac_sha256 key hh).
Proof. apply calm_steps. intros st Hok. eapply wps_mono; [by apply dedup_wps| |done]. by intros r st' [? _]. Qed.
Lemma reads_download file_id q : hreads (get_file_download (B := B) (M := M) sha256_digest hex_encode b64_decode payload_from_slice
  HeaderValue_try_from svc file_id q) (λ _ d, Forall wf_term (dl_terms d)).
Proof.
  intros st Hok. eapply wps_mono; [by apply download_wps| |done]. intros d st' [Hs Hd]. split; [done|].
  destruct Hd as (h & repo & user & Hd). destruct_and!. repeat match goal with E : dl_terms d = _ |- _ => rewrite E end. apply meta_terms_wf.
Qed.

(** ** Answers *)

Definition answers (m : H Response) : Prop := ∀ st, blob_ok (sv_blobs st) → wps m st (λ _ st', same_data st st') (λ _ _, False).
Lemma answers_respond m : calm m → answers (respond m).
Proof.
  intros Hm st Hok. pose proof (Hm st Hok) as Hw. unfold wps, respond in *. destruct (m st) as [[r|e| |] st']; try done. by destruct Hw.
Qed.
Lemma answers_calm m : answers m → calm m.
Proof. intros Hm st Hok. eapply wps_mono; [by apply Hm| |done]. done. Qed.
Lemma answers_ret r : answers (mret r).
Proof. intros st Hok. by apply wps_ret, same_data_refl. Qed.
Lemma answers_by_method entry rq caps : calm (entry.2 rq caps) → answers (by_method entry rq caps).
Proof.
  intros Hm st Hok. unfold by_method. destruct (method_allowed _ _); [|by apply answers_ret].
  apply wps_bind. eapply wps_mono; [by apply answers_respond| |done]. intros r st' Hs. by apply wps_ret.
Qed.

Lemma calm_path n caps (k : list str → H Response) : (∀ l, calm (k l)) → calm (with_path n caps k).
Proof. intros Hk. unfold with_path. repeat case_match; try apply calm_ret. apply Hk. Qed.
Lemma calm_path1 caps (k : str → H Response) : (∀ a, calm (k a)) → calm (with_path1 caps k).
Proof. intros Hk. apply calm_path. intros [|a [|b l]]; try apply calm_ret. apply Hk. Qed.
Lemma calm_path2 caps (k : str → str → H Response) : (∀ a b, calm (k a b)) → calm (with_path2 caps k).
Proof. intros Hk. apply calm_path. intros [|a [|b [|c l]]]; try apply calm_ret. apply Hk. Qed.
Lemma calm_query {Q} (q : option Q) (k : Q → H Response) : (∀ x, q = Some x → calm (k x)) → calm (with_query q k).
Proof. intros Hk. destruct q; [by apply Hk|apply calm_ret]. Qed.
Lemma calm_json rq (k : SetOwnerQuotaRequest → H Response) : (∀ q, calm (k q)) → calm (with_json rq k).
Proof. intros Hk. unfold with_json, with_bytes. repeat case_match; try apply calm_ret. apply Hk. Qed.
Lemma calm_then {T} (m : H T) (f : T → Response) : calm m → calm (r ← m; mret (f r)).
Proof. intros Hm. apply calm_bind; [done|]. intros r. apply calm_ret. Qed.

Lemma assoc_elem {V} p (l : list (str * V)) v : assoc p l = Some v → (p, v) ∈ l.
Proof. induction l as [|[q w] l IH]; [done|]. cbn. destruct (decide (p = q)) as [->|]; [intros [= ->]; left|right; auto]. Qed.

Abbreviation open_table := (admin hex_decode to_str svc ++ public decompress_from_slice sha256_digest hmac_sha256 hex_encode b64_decode payload_from_slice to_str
  HeaderValue_try_from svc : list (str * (Method * Handler (B := B) (M := M)))).
(** Nothing outside the token check changes the data. *)
Lemma open_calm p entry rq caps : assoc p open_table = Some entry → calm (entry.2 rq caps).
Proof.
  intros Hin%assoc_elem. unfold admin, public in Hin. cbn [app] in Hin. repeat (apply elem_of_cons in Hin as [[= -> ->]|Hin]); cbn [snd].
  - apply calm_path1. intros o. apply calm_then, calm_owner_usage.
  - apply calm_path2. intros o r. apply calm_then, calm_repo_usage.
  - apply calm_path1. intros o. apply calm_json. intros q. apply calm_then, calm_put_quota.
  - apply calm_path1. intros hh. apply calm_query. intros q Hq. apply (calm_then _ (λ t, mkResponse (tr_status t) (PTransfer t))).
    apply calm_transfer. by destruct (query_transfer_typed _ _ Hq).
  - apply calm_path1. intros f. apply calm_query. intros q _. eapply calm_after; [apply reads_download|]. intros st0 d Hd. cbv beta in Hd.
    apply (calm_then _ (λ items, mkResponse (dl_status d) (PDownload d items))).
    destruct (decide _); [apply calm_ret|by apply calm_stream].
  - apply calm_path. intros [|a [|b [|c [|d [|e [|f l]]]]]]; try apply calm_ret. apply calm_then, calm_issue.
  - by apply elem_of_nil in Hin.
Qed.

(** ** What a request may do *)

(** The bearer of a request is a token with these claims. *)
Definition authenticated (rq : Request) (claims : TokenClaims) : Prop :=
  ∃ token, bearer to_str (rq_headers rq) = Some token ∧ verify_xet_token (authz svc) token = Ok claims.
Definition uploads (rq : Request) (matched : option (str * list str)) : Prop :=
  rq_method rq = POST ∧ len (rq_body rq) ≤ MAX_BODY_BYTES ∧ ∃ p caps, matched = Some (p, caps) ∧ p ∈ [XORBS; SHARDS].
(** The step keeps what is served, changes data only for an upload with a write
    token, and answers a protected route only to a token. *)
Definition gated (rq : Request) (matched : option (str * list str)) st (r : Response) st' : Prop :=
  served st' ∧ keeps_xorbs st st' ∧
  (same_data st st' ∨ uploads rq matched ∧ ∃ claims, authenticated rq claims ∧ claim_scope claims = Write) ∧
  (rs_status r < 400 → ∀ p caps, matched = Some (p, caps) → p ∈ v1_patterns → ∃ claims, authenticated rq claims).

Lemma same_keeps st st' : served st → same_data st st' → served st' ∧ keeps_xorbs st st'.
Proof. intros Hs Hd. split; [by eapply served_same|]. intros h. unfold present. by rewrite (sd_xorb _ _ Hd). Qed.
Lemma api_error_status e : 400 ≤ api_status (ApiError_from e).
Proof. destruct e; cbn; lia. Qed.

(** A handler that changes something is an upload's. *)
Definition writes (rq : Request) (p : str) (claims : TokenClaims) (m : H Response) : Prop := ∀ st, served st →
  wps m st (λ _ st', served st' ∧ keeps_xorbs st st' ∧ (same_data st st' ∨ p ∈ [XORBS; SHARDS] ∧ len (rq_body rq) ≤ MAX_BODY_BYTES))
    (λ _ st', served st' ∧ keeps_xorbs st st' ∧ (same_data st st' ∨ p ∈ [XORBS; SHARDS] ∧ len (rq_body rq) ≤ MAX_BODY_BYTES)).
Lemma calm_writes rq p claims m : calm m → writes rq p claims m.
Proof.
  intros Hm st Hs. eapply wps_mono; [by apply Hm, Hs|..]; [intros r st' [Hd _]|intros e st' Hd];
    destruct (same_keeps st st' Hs Hd); split_and!; auto.
Qed.
Lemma writes_path2 rq p claims caps (k : str → str → H Response) :
  (∀ a b, writes rq p claims (k a b)) → writes rq p claims (with_path2 caps k).
Proof.
  intros Hk. unfold with_path2, with_path. destruct (bool_decide _); [|apply calm_writes, calm_ret].
  destruct (mapM _ _) as [[|a [|b [|c l]]]|]; try apply calm_writes, calm_ret. apply Hk.
Qed.
Lemma writes_bytes {T} rq p claims (m : bytes → H T) (f : T → Response) : p ∈ [XORBS; SHARDS] →
  (∀ b st, served st → wps (m b) st (λ _ st', served st' ∧ keeps_xorbs st st') (λ _ st', served st' ∧ keeps_xorbs st st')) →
  writes rq p claims (with_bytes rq (λ b, r ← m b; mret (f r))).
Proof.
  intros Hp Hm. unfold with_bytes. destruct (Z.ltb_spec MAX_BODY_BYTES (len (rq_body rq))); [apply calm_writes, calm_ret|].
  intros st Hs. apply wps_bind. eapply wps_mono; [by apply Hm|..]; [intros r st' [??]; apply wps_ret|intros e st' [??]]; split_and!; auto.
Qed.

Abbreviation v1_table claims := (v1 merkle_from compute_data_hash compute_xorb_merkle_hash decompress_from_slice blake3_hash hmac_sha256 hex_encode
  svc claims : list (str * (Method * Handler (B := B) (M := M)))).
Lemma v1_writes p entry rq caps claims : assoc p (v1_table claims) = Some entry →
  writes rq p claims (entry.2 rq caps) ∧ (calm (entry.2 rq caps) ∨ entry.1 = POST).
Proof.
  intros Hin%assoc_elem. unfold v1 in Hin. repeat (apply elem_of_cons in Hin as [[= -> ->]|Hin]); cbn [fst snd].
  - split; [|by right]. apply writes_path2. intros _ hash. apply writes_bytes; [set_solver|]. intros b st Hs. by apply upload_xorb_keeps.
  - split; [|by right]. apply writes_bytes; [set_solver|]. intros b st Hs. by apply upload_shard_keeps.
  - assert (Hq : calm (with_path1 caps (λ file_id, r ← get_reconstruction hmac_sha256 hex_encode svc claims file_id; mret (ok_response (PReconstruction r)))))
      by (apply calm_path1; intros f; apply calm_then, calm_reconstruction). split; [by apply calm_writes|by left].
  - assert (Hq : calm (with_path2 caps (λ _ hash, b ← get_dedup_chunk hmac_sha256 (rq_random rq) hash; mret (ok_response (PDedup b)))))
      by (apply calm_path2; intros a b; apply calm_then, calm_dedup). split; [by apply calm_writes|by left].
  - by apply elem_of_nil in Hin.
Qed.

Abbreviation dispatch := (dispatch merkle_from compute_data_hash compute_xorb_merkle_hash decompress_from_slice blake3_hash sha256_digest hmac_sha256
  hex_encode hex_decode b64_decode payload_from_slice to_str HeaderValue_try_from svc).

Lemma patterns_apart : Forall (λ p, p ∉ [USAGE; REPO_USAGE; QUOTAS; XORB_TRANSFER; FILES; TOKENS]) v1_patterns.
Proof. apply (bool_decide_unpack _). by vm_compute. Qed.
Lemma open_not_v1 p : p ∈ v1_patterns → assoc p open_table = None.
Proof.
  intros Hp. destruct (assoc p open_table) as [entry|] eqn:Hin; [|done]. apply assoc_elem, (list_elem_of_fmap_2 fst) in Hin.
  pose proof patterns_apart as Hno. rewrite Forall_forall in Hno. by destruct (Hno p Hp).
Qed.
Lemma wps_respond (m : H Response) st (Q : Response → Server B M → Prop) :
  wps m st Q (λ e st', Q (into_response e) st') → wps (respond m) st Q (λ _ _, False).
Proof. unfold wps, respond. by destruct (m st) as [[r|e| |] st']. Qed.

Lemma gated_same rq matched st r st' : served st → same_data st st' →
  (∀ p caps, matched = Some (p, caps) → p ∈ v1_patterns → 400 ≤ rs_status r ∨ ∃ claims, authenticated rq claims) → gated rq matched st r st'.
Proof.
  intros Hs Hd Hv. destruct (same_keeps st st' Hs Hd). split_and!; [done|done|by left|].
  intros Hlt p caps Hm Hp. destruct (Hv p caps Hm Hp); [lia|done].
Qed.
Lemma gated_ret rq matched st status : served st →
  (∀ p caps, matched = Some (p, caps) → p ∈ v1_patterns → 400 ≤ status) → gated rq matched st (rejected status) st.
Proof. intros Hs Hv. apply gated_same; [done|apply same_data_refl, Hs|]. intros p caps Hm Hp. left. by apply (Hv p caps). Qed.

(** A protected route, once the token is good. *)
Lemma v1_gated rq p caps claims st : served st → authenticated rq claims → (rq_method rq = POST → claim_scope claims = Write) →
  wps (match assoc p (v1_table claims) with Some entry => by_method entry rq caps | None => mret (rejected 404) end) st
    (gated rq (Some (p, caps)) st) (λ _ _, False).
Proof.
  intros Hs Ha Hw. assert (Hsame : ∀ r st', same_data st st' → gated rq (Some (p, caps)) st r st')
    by (intros r st' Hd; apply gated_same; eauto).
  destruct (assoc p _) as [entry|] eqn:Hin; [|by apply wps_ret, Hsame, same_data_refl, Hs].
  apply (v1_writes p entry rq caps) in Hin as [Hwr [Hq|Hpost]].
  { eapply wps_mono; [by apply answers_by_method; [|apply Hs]| |done]. auto. }
  unfold by_method. destruct (method_allowed entry.1 (rq_method rq)) eqn:Hserves; [|by apply wps_ret, Hsame, same_data_refl, Hs].
  assert (Hm : rq_method rq = POST).
  { rewrite Hpost in Hserves. unfold method_allowed in Hserves. rewrite orb_true_iff, !bool_decide_eq_true in Hserves.
    by destruct Hserves as [?|[? _]]. }
  apply wps_bind. eapply wps_mono; [apply (wps_respond _ _ (λ r st', served st' ∧ keeps_xorbs st st' ∧
    (same_data st st' ∨ p ∈ [XORBS; SHARDS] ∧ len (rq_body rq) ≤ MAX_BODY_BYTES))), Hwr, Hs| |done].
  intros r st' (Hs' & Hk & Hd). apply wps_ret. split_and!; [done|done| |by eauto].
  destruct Hd as [Hd|[Hp Hb]]; [by left|right]. split; [|by eauto]. split_and!; [done|done|]. by exists p, caps.
Qed.

Lemma dispatch_gated rq matched st : served st → wps (dispatch rq matched) st (gated rq matched st) (λ _ _, False).
Proof.
  intros Hs. pose proof (proj1 Hs) as Hok. unfold Router.dispatch. destruct matched as [[p caps]|]; [|by apply wps_ret, gated_ret].
  destruct (assoc p open_table) as [entry|] eqn:Hin.
  { eapply wps_mono; [apply answers_by_method; [by eapply open_calm|done]| |done]. intros r st' Hd.
    apply gated_same; [done|done|]. intros p' caps' [= <- <-] Hp. by rewrite (open_not_v1 p Hp) in Hin. }
  destruct (bool_decide (p ∈ v1_patterns)) eqn:Hp; [|apply wps_ret, gated_ret; [done|]; intros; simplify_eq; by rewrite bool_decide_eq_false in Hp].
  apply wps_respond.
  assert (Herr : ∀ e, 400 ≤ api_status e → gated rq (Some (p, caps)) st (into_response e) st).
  { intros e He. apply gated_same; [done|by apply same_data_refl|]. by left. }
  unfold auth_middleware. apply wps_bind, wps_lift.
  destruct (header_get (rq_headers rq) (lit "authorization") ≫= to_str) as [raw|] eqn:Hraw; cbn [ok_or wp]; [|by apply Herr].
  apply wps_bind, wps_lift. destruct (strip_prefix raw (lit "Bearer ")) as [token|] eqn:Htok; cbn [ok_or wp]; [|by apply Herr].
  apply wps_bind, wps_lift. pose proof (verify_returns token) as Hret.
  destruct (verify_xet_token (authz svc) token) as [claims|e| |] eqn:Hver; try done; cbn [map_err wp]; [|apply Herr, api_error_status].
  destruct (bool_decide (rq_method rq = POST) && bool_decide (claim_scope claims = Read)) eqn:Hro; [by apply wps_throw, Herr|].
  eapply wps_mono; [apply v1_gated; [done| |]|by intros|done].
  - exists token. split; [|done]. unfold bearer. destruct (header_get _ _) as [v|]; [|done]. cbn in Hraw |- *. by rewrite Hraw.
  - intros Hpost. rewrite bool_decide_true in Hro by done. cbn in Hro. rewrite bool_decide_eq_false in Hro. by destruct (claim_scope claims).
Qed.

(** ** Histories of requests *)

Abbreviation router := (router merkle_from compute_data_hash compute_xorb_merkle_hash decompress_from_slice blake3_hash sha256_digest hmac_sha256
  hex_encode hex_decode b64_decode payload_from_slice to_str HeaderValue_try_from svc).
Definition run_requests (rqs : list Request) (w : Web (B := B) (M := M)) : Web := foldl (λ w rq, (router rq w).2) w rqs.
Definition logged (rq : Request) (r : Response) (w w' : Web (B := B) (M := M)) : Prop :=
  w_requests w' = w_requests w ++
    match route_match patterns (rq_path rq) with
    | Some (p, _) => if decide (p = HEALTHZ) then [] else [(rq_method rq, p, rs_status r)]
    | None => [(rq_method rq, lit "<unmatched>", rs_status r)]
    end.

Lemma router_gated rq w : served (w_server w) → ∃ r w', router rq w = (Ok r, w') ∧ logged rq r w w' ∧
  gated rq (route_match patterns (rq_path rq)) (w_server w) r (w_server w').
Proof.
  intros Hs. unfold Router.router, logged.
  assert (Hrun : ∀ matched label, default (lit "<unmatched>") (fst <$> matched) = label → ∃ r w',
    metrics_middleware rq matched (dispatch rq matched) w = (Ok r, w') ∧ w_requests w' = w_requests w ++ [(rq_method rq, label, rs_status r)] ∧
    gated rq matched (w_server w) r (w_server w')).
  { intros matched label <-. pose proof (dispatch_gated rq matched (w_server w) Hs) as Hd. unfold wps in Hd.
    unfold metrics_middleware, zoom, mbind, ST_bind. destruct (dispatch rq matched (w_server w)) as [[r|e| |] st']; try done. by eexists _, _. }
  destruct (route_match patterns (rq_path rq)) as [[p caps]|]; [|by apply Hrun].
  destruct (decide (p = HEALTHZ)) as [->|]; [|by apply Hrun].
  pose proof (answers_by_method (GET, λ _ _, mret (ok_response (PText healthz))) rq caps (calm_ret _) (w_server w) (proj1 Hs)) as Hd.
  unfold wps in Hd. unfold zoom. destruct (by_method _ _ _ _) as [[r|e| |] st'] eqn:Hb in Hd |- *; try done.
  eexists _, _. split; [done|]. split; [by rewrite app_nil_r|]. apply gated_same; [done|done|].
  intros p caps' [= <- <-] Hp. by apply (bool_decide_pack _) in Hp.
Qed.

(** C2. The server as its clients see it.  Through any history of requests, of any
    method, to any path, with any headers and bodies, the server never holds a xorb
    that it cannot serve and loses none; every request is answered and, but for the
    probe, counted once under its method, route and status.  Stored data changes
    only for a POST of at most 64 MiB to an upload route whose bearer verifies as a
    token with write scope, and a protected route answers without an error only to
    a bearer that verifies. *)
Theorem requests_are_gated (rqs : list Request) (w : Web) (w' := run_requests rqs w) : served (w_server w) →
  served (w_server w') ∧ keeps_xorbs (w_server w) (w_server w') ∧
  ∀ rq, ∃ r w'', router rq w' = (Ok r, w'') ∧ logged rq r w' w'' ∧
    gated rq (route_match patterns (rq_path rq)) (w_server w') r (w_server w'').
Proof.
  intros Hs. assert (Hh : served (w_server w') ∧ keeps_xorbs (w_server w) (w_server w')).
  { subst w'. revert w Hs. induction rqs as [|rq rqs IH]; intros w Hs; [split; [done|by intros h]|].
    destruct (router_gated rq w Hs) as (r & w1 & Hr & _ & Hs1 & Hk & _). cbn [run_requests foldl]. rewrite Hr. cbn [snd].
    destruct (IH w1 Hs1) as [Hd Hk']. split; [done|]. intros h Hh. by apply Hk', Hk. }
  destruct Hh as [Hd Hk]. split_and!; [done|done|]. intros rq. by apply router_gated.
Qed.
End routes.

(** ** Executions *)

(** A matcher by segments, and queries and JSON that are never well formed. *)
Fixpoint match_segments (pattern path : list str) : option (list str) :=
  match pattern, path with
  | [], [] => Some []
  | p :: pattern, s :: path =>
      rest ← match_segments pattern path;
      match p, s with
      | (x7b :: _), (_ :: _) => Some (s :: rest)
      | _, _ => if decide (p = s) then Some rest else None
      end
  | _, _ => None
  end.
#[export] Instance demo_axum : Axum := {|
  route_match ps path := head (omap (λ p, caps ← match_segments (split_char x2f p) (split_char x2f path); Some (p, caps)) ps);
  url_decode := Some;
  query_download _ := None;
  query_transfer _ := None;
  is_json _ := false;
  json_quota _ := inl 400;
|}.
#[export] Instance demo_axum_laws : AxumLaws demo_axum.
Proof. by split. Qed.
#[local] Existing Instance demo_meta_ops.
#[local] Existing Instance demo_meta_spec.

Definition demo_request (m : Method) (path : str) (bearer : option str) (body : bytes) : Request :=
  mkRequest m path [] (match bearer with Some b => [(lit "authorization", lit "Bearer " ++ b)] | None => [] end) body (array_of HASH_LEN []).
Definition demo_xorb_path : str := lit "/v1/xorbs/default/" ++ encode_hash (unwrap demo_x).
Definition demo_requests : list Request := [
  demo_request GET (lit "/healthz") None [];
  demo_request POST demo_xorb_path None example_body;
  demo_request POST demo_xorb_path (Some (lit "t")) example_body;
  demo_request POST (lit "/shards") (Some (lit "t")) (serialize demo_shard);
  demo_request HEAD (lit "/v1/reconstructions/" ++ encode_hash (unwrap demo_file)) (Some (lit "t")) [];
  demo_request PUT (lit "/shards") (Some (lit "t")) [];
  demo_request GET (lit "/nothing") None []].
Definition demo_web : Web := mkWeb demo_empty [].
Abbreviation demo_run := (run_requests (A := AlwaysAllow) (λ _, tt) (λ _, tt) (λ _, tt) example_decompress (λ b, array_of HASH_LEN b)
  (λ b, array_of HASH_LEN b) toy_mac hex_of (λ _, None) Some (λ _, None) visible_str visible_header demo_open).

Example demo_log : w_requests (demo_run demo_requests demo_web) =
  [(POST, XORBS, 401); (POST, XORBS, 200); (POST, SHARDS, 200); (HEAD, RECONSTRUCTIONS, 200);
   (PUT, SHARDS, 405); (GET, lit "<unmatched>", 404)].
Proof. by vm_compute. Qed.

Lemma requests_are_gated_witness :
  let w := demo_run demo_requests demo_web in
  toy_served (w_server w) ∧ ∀ body, ∃ r w', router (A := AlwaysAllow) (λ _, tt) (λ _, tt) (λ _, tt) example_decompress (λ b, array_of HASH_LEN b)
    (λ b, array_of HASH_LEN b) toy_mac hex_of (λ _, None) Some (λ _, None) visible_str visible_header demo_open
    (demo_request POST (lit "/shards") None body) w = (Ok r, w') ∧ same_data (w_server w) (w_server w') ∧ 400 ≤ rs_status r.
Proof.
  cbv zeta.
  destruct (requests_are_gated (A := AlwaysAllow) (λ _, tt) (λ _, tt) (λ _, tt) example_decompress demo_decompress_returns
    (λ b, array_of HASH_LEN b) (λ b, array_of HASH_LEN b) toy_mac hex_of (λ _, None) Some (λ _, None) visible_str visible_header
    (try_from_returns _ _ _ demo_crates) demo_open) with (rqs := demo_requests) (w := demo_web) as (H1 & _ & H2).
  - intros t. by destruct t.
  - by intros.
  - by intros.
  - split; [exact I|]. intros h body Hb. cbn in Hb. rewrite lookup_empty in Hb. discriminate Hb.
  - split; [exact H1|]. intros body. destruct (H2 (demo_request POST (lit "/shards") None body)) as (r & w' & Hr & _ & _ & _ & Hd & Hv).
    exists r, w'. split; [exact Hr|]. split.
    + destruct Hd as [Hd|(_ & claims & (token & Hb & _) & _)]; [exact Hd|discriminate Hb].
    + destruct (Z.lt_ge_cases (rs_status r) 400) as [Hlt|]; [|lia].
      destruct (Hv Hlt SHARDS [] eq_refl) as (claims & token & Hb & _); [by right; left|discriminate Hb].
Defined.
