(* ===== verification/ServerMain.v ===== *)
(** * Starting the server

    [crates/bale-server-bin/src/main.rs] and the endpoints of [telemetry.rs]: what
    the environment configures, in the order in which it is read and checked.  What
    a start does outside is a list of events, each of which may fail; serving
    requests is [Http]. *)

From stdpp Require Import gmap list.
From S2P Require Import Prelude RustStd RustText Core Authz S3Store.

(** The two authorizers, by what they are built from. *)
Inductive AuthzChoice := Upstream (url : str) (jwt_secret : bytes) | Table (a : ConfigAuthz).

(** [Service]: what is served, apart from the stores. *)
Record Served := mkServed {
  sv_authz : AuthzChoice;
  sv_transfer_secret : bytes;
  sv_public_base_url : str;
  sv_default_quota_bytes : option Z;
  sv_admin_token : option bytes;
}.

Inductive event :=
  | SpanExporter (endpoint : str) | MetricExporter (endpoint : str)
  | CreateDirAll (path : str) | Bind (addr : str)
  | OpenPostgres (url : str) | OpenSqlite (path : str)
  | OpenS3 (cfg : S3Config) | OpenFs (root : str)
  | NewHttpAuthz (url : str) | Serve (s : Served).

Definition is_loopback (host : str) : bool := bool_decide (host ∈ [lit "127.0.0.1"; lit "localhost"; lit "::1"; lit "[::1]"]).

Section main.
(** The environment (values that decode), [PathBuf::join], hex, and what the outside answers. *)
Context (env : str → option str) (path_join : str → str → str) (hex_decode : str → option bytes).
Context (does : event → outcome str unit).
Abbreviation L := (ST (list event) str).
Definition act (e : event) : L unit := λ t, (does e, t ++ [e]).

(** ** [telemetry.rs] *)

Definition signal_endpoint (per_signal_var signal_path : str) : option str :=
  match trim (default [] (env per_signal_var)) with
  | (_ :: _) as v => Some v
  | [] =>
      base ← env (lit "OTEL_EXPORTER_OTLP_ENDPOINT");
      match trim base with
      | [] => None
      | base => Some (trim_end_matches base x2f ++ signal_path)
      end
  end.
Definition telemetry_init : L unit :=
  let traces_endpoint := signal_endpoint (lit "OTEL_EXPORTER_OTLP_TRACES_ENDPOINT") (lit "/v1/traces") in
  let metrics_endpoint := signal_endpoint (lit "OTEL_EXPORTER_OTLP_METRICS_ENDPOINT") (lit "/v1/metrics") in
  _ ← match traces_endpoint with Some e => act (SpanExporter e) | None => mret tt end;
  match metrics_endpoint with Some e => act (MetricExporter e) | None => mret tt end.

(** ** Settings *)

Definition env_truthy (name : str) : bool :=
  bool_decide (env name ∈ Some <$> [lit "1"; lit "true"; lit "TRUE"; lit "yes"; lit "YES"]).

Definition decode_hex_env (name : str) : outcome str bytes :=
  v ← ok_or (name ++ lit " not set") (env name);
  ok_or (name ++ lit " is not valid hex") (hex_decode (trim v)).

Definition exactly_32 (name : str) (b : bytes) : outcome str bytes :=
  if len b =? 32 then Ok b
  else Err (name ++ lit " must decode to exactly 32 bytes (got " ++ to_string (len b) ++ lit ")").

Definition jwt_secret_setting : outcome str bytes :=
  b ← decode_hex_env (lit "BALE_JWT_SECRET_HEX");
  if len b <? 32 then Err (lit "BALE_JWT_SECRET_HEX must decode to at least 32 bytes") else mret b.
Definition transfer_secret_setting : outcome str bytes :=
  b ← decode_hex_env (lit "BALE_TRANSFER_SECRET_HEX");
  exactly_32 (lit "BALE_TRANSFER_SECRET_HEX") b.
Definition quota_setting : outcome str (option Z) :=
  match env (lit "BALE_DEFAULT_QUOTA_BYTES") with
  | Some s => n ← ok_or (lit "BALE_DEFAULT_QUOTA_BYTES must be a non-negative integer") (parse_u64 (trim s)); mret (Some n)
  | None => mret None
  end.
Definition admin_setting : outcome str (option bytes) :=
  match env (lit "BALE_ADMIN_TOKEN_HEX") with
  | Some s =>
      b ← ok_or (lit "BALE_ADMIN_TOKEN_HEX is not hex") (hex_decode (trim s));
      b ← exactly_32 (lit "BALE_ADMIN_TOKEN_HEX") b;
      mret (Some b)
  | None => mret None
  end.

Definition listen_addr : str := default (lit "127.0.0.1:8080") (env (lit "BALE_LISTEN")).
Definition data_root : str := default (lit "./xet-data") (env (lit "BALE_DATA_ROOT")).
Definition db_path : str := default (path_join data_root (lit "meta.db")) (env (lit "BALE_DB_PATH")).
Definition public_url : str := default (lit "http://" ++ listen_addr) (env (lit "BALE_PUBLIC_URL")).
(** The warning that signed URLs will not resolve. *)
Definition warns_public_url : bool :=
  match env (lit "BALE_PUBLIC_URL") with
  | Some _ => false
  | None => negb (is_loopback (default [] (head (split_char x3a listen_addr))))
  end.

Definition s3_config (bucket : str) : S3Config :=
  mkS3Config bucket (env (lit "BALE_S3_REGION")) (env (lit "BALE_S3_ENDPOINT_URL"))
    (match env (lit "BALE_S3_PUBLIC_ENDPOINT_URL") with Some (_ :: _) as u => u | _ => None end)
    (env_truthy (lit "BALE_S3_FORCE_PATH_STYLE")) (default [] (env (lit "BALE_S3_PREFIX")))
    (env (lit "BALE_S3_ACCESS_KEY_ID")) (env (lit "BALE_S3_SECRET_ACCESS_KEY")) (env (lit "BALE_S3_SESSION_TOKEN"))
    (env_truthy (lit "BALE_S3_DISABLE_SSE")).

(** One tuple of [BALE_GRANTS]; its number is in the errors, the token is not. *)
Definition parse_grant (idx : nat) (tuple : str) : outcome str Grant :=
  let number := to_string (Z.of_nat idx) in
  match split_char x3a tuple with
  | [token; user; repo; scope] =>
      if bool_decide (scope = lit "read") then Ok (mkGrant token user repo Read)
      else if bool_decide (scope = lit "write") then Ok (mkGrant token user repo Write)
      else Err (lit "invalid scope '" ++ scope ++ lit "' in BALE_GRANTS tuple #" ++ number)
  | parts => Err (lit "BALE_GRANTS tuple #" ++ number ++
      lit " malformed: expected 'hub_token:user:repo_id:scope' with 4 fields, got " ++ to_string (len parts))
  end.
Definition grant_step (acc : nat * ConfigAuthz) (tuple : str) : outcome str (nat * ConfigAuthz) :=
  g ← parse_grant acc.1 tuple;
  mret (S acc.1, grant (g_token g) (g_user g) (g_repo g) (g_scope g) acc.2).
Definition grants_authz (jwt_secret : bytes) : outcome str ConfigAuthz :=
  match env (lit "BALE_GRANTS") with
  | Some raw =>
      res ← fold_out grant_step (O, ConfigAuthz_new jwt_secret)
        (List.filter (λ s, match s with [] => false | _ => true end) (split_char x2c raw));
      mret res.2
  | None => mret (ConfigAuthz_new jwt_secret)
  end.

(** ** [serve], [run] and [main] *)

Record Settings := mkSettings { se_jwt : bytes; se_transfer : bytes; se_quota : option Z; se_admin : option bytes }.

Definition serve (se : Settings) : L unit :=
  let service a := mkServed a (se_transfer se) public_url (se_quota se) (se_admin se) in
  match env (lit "BALE_AUTHZ_HTTP_URL") with
  | Some [] => throw (lit "BALE_AUTHZ_HTTP_URL is set but empty")
  | Some authz_url =>
      _ ← act (NewHttpAuthz authz_url);
      act (Serve (service (Upstream authz_url (se_jwt se))))
  | None =>
      a ← lift (grants_authz (se_jwt se));
      act (Serve (service (Table a)))
  end.

Definition run (se : Settings) : L unit :=
  match env (lit "BALE_S3_BUCKET") with
  | Some [] => throw (lit "BALE_S3_BUCKET is set but empty")
  | Some bucket => _ ← act (OpenS3 (s3_config bucket)); serve se
  | None => _ ← act (OpenFs data_root); serve se
  end.

Definition settings : outcome str Settings :=
  jwt ← jwt_secret_setting;
  transfer ← transfer_secret_setting;
  quota ← quota_setting;
  admin ← admin_setting;
  mret (mkSettings jwt transfer quota admin).

Definition main (args : list str) : L unit :=
  if existsb (λ a, bool_decide (a = lit "--version") || bool_decide (a = lit "-V")) args then mret tt
  else
    _ ← telemetry_init;
    se ← lift settings;
    _ ← act (CreateDirAll data_root);
    _ ← act (Bind listen_addr);
    match env (lit "BALE_POSTGRES_URL") with
    | Some url =>
        match trim url with
        | [] => throw (lit "BALE_POSTGRES_URL is set but empty")
        | pg_url => _ ← act (OpenPostgres pg_url); run se
        end
    | None => _ ← act (OpenSqlite db_path); run se
    end.
End main.

(** ** Grants and their spelling *)

Lemma split_char_app c a b : c ∉ a → split_char c (a ++ c :: b) = a :: split_char c b.
Proof.
  intros Ha. induction a as [|d a IH]; cbn [app split_char]; [by rewrite decide_True|].
  rewrite decide_False by set_solver. by rewrite IH by set_solver.
Qed.
Lemma split_char_last c a : c ∉ a → split_char c a = [a].
Proof. intros Ha. induction a as [|d a IH]; cbn [split_char]; [done|]. rewrite decide_False by set_solver. by rewrite IH by set_solver. Qed.

Definition scope_text (s : Scope) : str := match s with Read => lit "read" | Write => lit "write" end.
Definition spell_grant (g : Grant) : str := g_token g ++ [x3a] ++ g_user g ++ [x3a] ++ g_repo g ++ [x3a] ++ scope_text (g_scope g).
Fixpoint spell_grants (gs : list Grant) : str :=
  match gs with [] => [] | [g] => spell_grant g | g :: gs => spell_grant g ++ [x2c] ++ spell_grants gs end.
(** The separators do not occur in the fields. *)
Definition plain_grant (g : Grant) : Prop := Forall (λ f, (x3a ∉ f) ∧ x2c ∉ f) [g_token g; g_user g; g_repo g].

Lemma scope_text_plain s : (x3a ∉ scope_text s) ∧ x2c ∉ scope_text s.
Proof. destruct s; by_lit. Qed.
Lemma parse_spell_grant idx g : plain_grant g → parse_grant idx (spell_grant g) = Ok g.
Proof.
  intros Hg. repeat (apply Forall_cons in Hg as [[? _] Hg]). unfold parse_grant, spell_grant. cbn [app].
  rewrite !split_char_app, split_char_last by (done || apply scope_text_plain). by destruct g as [? ? ? []].
Qed.
Lemma spell_grant_comma g : plain_grant g → x2c ∉ spell_grant g.
Proof.
  intros Hg. repeat (apply Forall_cons in Hg as [[_ ?] Hg]). unfold spell_grant. rewrite !not_elem_of_app.
  split_and!; (done || apply scope_text_plain || by_lit).
Qed.
Lemma spell_grant_nonempty g : spell_grant g ≠ [].
Proof. unfold spell_grant. by destruct (g_token g). Qed.

Lemma split_spell_grants gs : Forall plain_grant gs →
  List.filter (λ s, match s with [] => false | _ => true end) (split_char x2c (spell_grants gs)) = spell_grant <$> gs.
Proof.
  assert (∀ g l, List.filter (λ s : str, match s with [] => false | _ => true end) (spell_grant g :: l) =
    spell_grant g :: List.filter (λ s : str, match s with [] => false | _ => true end) l) as Hkeep.
  { intros g l. cbn. by destruct (spell_grant g) eqn:Hs; [apply spell_grant_nonempty in Hs|]. }
  induction 1 as [|g gs Hg Hgs IH]; [done|]. pose proof (spell_grant_comma g Hg). cbn [spell_grants].
  destruct gs as [|g' gs]; [by rewrite split_char_last, Hkeep|]. cbn [app]. rewrite split_char_app, Hkeep by done. by rewrite IH.
Qed.

Lemma grant_step_spell i a g : plain_grant g →
  grant_step (i, a) (spell_grant g) = Ok (S i, grant (g_token g) (g_user g) (g_repo g) (g_scope g) a).
Proof. intros Hg. unfold grant_step. cbn [fst snd]. by rewrite parse_spell_grant. Qed.
Lemma fold_spell_grants gs : Forall plain_grant gs → ∀ i a,
  fold_out grant_step (i, a) (spell_grant <$> gs) = Ok ((i + length gs)%nat, foldl (λ a g, grant (g_token g) (g_user g) (g_repo g) (g_scope g) a) a gs).
Proof.
  induction 1 as [|g gs Hg Hgs IH]; intros i a; cbn [fmap list_fmap fold_out]; [by rewrite Nat.add_0_r|].
  rewrite grant_step_spell by done. cbn [mbind outcome_bind]. rewrite IH. cbn [length foldl]. do 2 f_equal. lia.
Qed.

Lemma grants_authz_spelled env secret gs : Forall plain_grant gs → env (lit "BALE_GRANTS") = Some (spell_grants gs) →
  grants_authz env secret = Ok (configure secret gs).
Proof.
  intros Hgs He. unfold grants_authz. rewrite He, split_spell_grants, fold_spell_grants by done. done.
Qed.

(** ** The start *)

Section start.
Context (env : str → option str) (path_join : str → str → str) (hex_decode : str → option bytes).
Context (does : event → outcome str unit) (Hdoes : ∀ e, returned (does e)).
#[local] Set Default Proof Using "Type*".
Abbreviation L := (ST (list event) str).

(** The call comes back and its events follow [P]: [P true] of a success. *)
Definition emits {A} (m : L A) (P : option A → list event → Prop) : Prop :=
  ∀ t, wps m t (λ a t', ∃ es, t' = t ++ es ∧ P (Some a) es) (λ _ t', ∃ es, t' = t ++ es ∧ P None es).

Lemma emits_ret {A} (a : A) (P : option A → list event → Prop) : P (Some a) [] → emits (mret a) P.
Proof using Type. intros HP t. apply wps_ret. exists []. by rewrite app_nil_r. Qed.
Lemma emits_throw {A} e (P : option A → list event → Prop) : P None [] → emits (throw e) P.
Proof using Type. intros HP t. apply wps_throw. exists []. by rewrite app_nil_r. Qed.
Lemma emits_lift {A} (o : outcome str A) (P : option A → list event → Prop) :
  wp o (λ a, P (Some a) []) (λ _, P None []) → emits (lift o) P.
Proof using Type. intros Ho t. apply wps_lift. eapply wp_mono; [exact Ho|..]; intros x HP; exists []; by rewrite app_nil_r. Qed.
Lemma emits_then {A B} (m : L A) (k : A → L B) (P : option A → list event → Prop) (Q : option B → list event → Prop) :
  emits m P → (∀ es, P None es → Q None es) → (∀ a es, P (Some a) es → emits (k a) (λ o fs, Q o (es ++ fs))) → emits (m ≫= k) Q.
Proof using Type.
  intros Hm Hn Hk t. apply wps_bind. eapply wps_mono; [apply Hm|..].
  - intros a t1 (es & -> & HP). eapply wps_mono; [by apply (Hk a es)|..]; intros x t2 (fs & -> & HQ); exists (es ++ fs); by rewrite app_assoc.
  - intros e t1 (es & -> & HP). eauto.
Qed.
Lemma emits_act e : emits (act does e) (λ o es, es = [e] ∧ (o = Some tt ↔ does e = Ok tt)).
Proof.
  intros t. unfold wps, act. pose proof (Hdoes e). destruct (does e) as [[]|m| |]; try done; exists [e]; by split_and!.
Qed.
Lemma emits_mono {A} (m : L A) (P Q : option A → list event → Prop) : emits m P → (∀ o es, P o es → Q o es) → emits m Q.
Proof using Type. intros Hm HPQ t. eapply wps_mono; [apply Hm|..]; intros x t' (es & -> & HP); eauto. Qed.

(** ** What a start is allowed to do *)

Definition telemetry_event (e : event) : bool := match e with SpanExporter _ | MetricExporter _ => true | _ => false end.

(** The stores that the environment names. *)
Definition meta_event : option event :=
  match env (lit "BALE_POSTGRES_URL") with
  | Some url => match trim url with [] => None | u => Some (OpenPostgres u) end
  | None => Some (OpenSqlite (db_path env path_join))
  end.
Definition blob_event : option event :=
  match env (lit "BALE_S3_BUCKET") with
  | Some [] => None
  | Some b => Some (OpenS3 (s3_config env b))
  | None => Some (OpenFs (data_root env))
  end.
(** The settings are what their variables spell, at their sizes. *)
Definition hex_value (name : str) (b : bytes) : Prop := ∃ v, env name = Some v ∧ hex_decode (trim v) = Some b.
Definition valid_settings (se : Settings) : Prop :=
  hex_value (lit "BALE_JWT_SECRET_HEX") (se_jwt se) ∧ 32 ≤ len (se_jwt se) ∧
  hex_value (lit "BALE_TRANSFER_SECRET_HEX") (se_transfer se) ∧ len (se_transfer se) = 32 ∧
  match se_quota se with
  | Some n => is_u64 n ∧ ∃ v, env (lit "BALE_DEFAULT_QUOTA_BYTES") = Some v ∧ parse_u64 (trim v) = Some n
  | None => env (lit "BALE_DEFAULT_QUOTA_BYTES") = None
  end ∧
  match se_admin se with
  | Some a => hex_value (lit "BALE_ADMIN_TOKEN_HEX") a ∧ len a = 32
  | None => env (lit "BALE_ADMIN_TOKEN_HEX") = None
  end.

Lemma parse_u64_typed s n : parse_u64 s = Some n → is_u64 n.
Proof using Type.
  assert (∀ t acc, is_u64 acc → parse_digits 10 u64_max acc t = Some n → is_u64 n) as Hd.
  { induction t as [|c t IH]; intros acc Hacc; cbn [parse_digits]; [by intros [= <-]|].
    unfold to_digit. cbv zeta. pose proof (byte_to_Z_range c).
    set (d := if (48 <=? _) && _ then _ else _). destruct (Z.ltb_spec d 10); cbn; [|done].
    destruct (Z.leb_spec (acc * 10 + d) u64_max); [|done]. apply IH. unfold is_u64, u64_max in *. subst d.
    destruct ((48 <=? byte_to_Z c) && (byte_to_Z c <=? 57)) eqn:E1; [lia|].
    destruct ((97 <=? byte_to_Z c) && (byte_to_Z c <=? 122)) eqn:E2; [lia|].
    destruct ((65 <=? byte_to_Z c) && (byte_to_Z c <=? 90)) eqn:E3; lia. }
  assert (is_u64 0) by done. unfold parse_u64, from_str_radix.
  destruct s as [|c [|c' s]]; [done| |]; destruct (decide (c = x2b)); try done; eauto.
Qed.

Lemma wp_hex name : wp (decode_hex_env env hex_decode name) (hex_value name) (λ _, True).
Proof using Type.
  unfold decode_hex_env, hex_value. destruct (env name) as [v|]; [|done]. cbn. destruct (hex_decode (trim v)) eqn:Hh; [|done]. cbn. eauto.
Qed.
Lemma wp_exactly name b : wp (exactly_32 name b) (λ b', b' = b ∧ len b = 32) (λ _, True).
Proof using Type. unfold exactly_32. by destruct (Z.eqb_spec (len b) 32). Qed.

Lemma settings_valid : wp (settings env hex_decode) valid_settings (λ _, True).
Proof using Type.
  unfold settings. apply wp_bind. unfold jwt_secret_setting. apply wp_bind. eapply wp_mono; [apply wp_hex| |done]. intros jwt Hjwt.
  destruct (Z.ltb_spec (len jwt) 32); [done|]. cbn [wp mret outcome_ret].
  apply wp_bind. unfold transfer_secret_setting. apply wp_bind. eapply wp_mono; [apply wp_hex| |done]. intros tr Htr.
  eapply wp_mono; [apply wp_exactly| |done]. intros tr' [-> Hlen]. apply wp_bind.
  assert (wp (quota_setting env) (λ q, match q with
    | Some n => is_u64 n ∧ ∃ v, env (lit "BALE_DEFAULT_QUOTA_BYTES") = Some v ∧ parse_u64 (trim v) = Some n
    | None => env (lit "BALE_DEFAULT_QUOTA_BYTES") = None end) (λ _, True)) as Hq.
  { unfold quota_setting. destruct (env _) as [v|]; [|done]. cbn. destruct (parse_u64 (trim v)) as [n|] eqn:Hn; [|done].
    cbn. split; [by eapply parse_u64_typed|eauto]. }
  eapply wp_mono; [exact Hq| |done]. intros q Hq'. apply wp_bind.
  assert (wp (admin_setting env hex_decode) (λ a, match a with
    | Some a => hex_value (lit "BALE_ADMIN_TOKEN_HEX") a ∧ len a = 32 | None => env (lit "BALE_ADMIN_TOKEN_HEX") = None end) (λ _, True)) as Ha.
  { unfold admin_setting. destruct (env (lit "BALE_ADMIN_TOKEN_HEX")) as [v|] eqn:Hv; [|exact eq_refl]. apply wp_bind. destruct (hex_decode (trim v)) as [b|] eqn:Hb; [|done]. cbn [ok_or wp].
    apply wp_bind. eapply wp_mono; [apply wp_exactly| |done]. intros b' [-> ?]. cbn. split; [|done]. by exists v. }
  eapply wp_mono; [exact Ha| |done]. intros a Ha'. cbn. by split_and!.
Qed.

(** What is served, by the settings. *)
Definition served_as (se : Settings) (a : AuthzChoice) : Served :=
  mkServed a (se_transfer se) (public_url env) (se_quota se) (se_admin se).
Definition authz_ok (se : Settings) (a : AuthzChoice) (made : list event) : Prop :=
  match env (lit "BALE_AUTHZ_HTTP_URL") with
  | Some url => url ≠ [] ∧ a = Upstream url (se_jwt se) ∧ made = [NewHttpAuthz url]
  | None => ∃ c, grants_authz env (se_jwt se) = Ok c ∧ a = Table c ∧ made = []
  end.
(** From the stores on: requests are served last, by the authorizer configured. *)
Definition serve_ok (se : Settings) (o : option unit) (es : list event) : Prop :=
  Forall (λ e, ∀ s, e ≠ Serve s) es ∧ o = None ∨
  ∃ a made, authz_ok se a made ∧ es = made ++ [Serve (served_as se a)].
Definition run_ok (se : Settings) (o : option unit) (es : list event) : Prop :=
  Forall (λ e, ∀ s, e ≠ Serve s) es ∧ o = None ∨
  ∃ be a made, blob_event = Some be ∧ authz_ok se a made ∧ es = be :: made ++ [Serve (served_as se a)].
Definition main_ok (o : option unit) (es : list event) : Prop :=
  Forall telemetry_event es ∧ o = None ∨
  ∃ tel se rest, es = tel ++ rest ∧ Forall telemetry_event tel ∧ settings env hex_decode = Ok se ∧
    (Forall (λ e, ∀ s, e ≠ Serve s) rest ∧ o = None ∨
     ∃ me be a made, meta_event = Some me ∧ blob_event = Some be ∧ authz_ok se a made ∧
       rest = [CreateDirAll (data_root env); Bind (listen_addr env); me; be] ++ made ++ [Serve (served_as se a)]).

Lemma grants_returned secret : returned (grants_authz env secret).
Proof using Type.
  unfold grants_authz. destruct (env _) as [raw|]; [|done]. apply wp_returned, wp_bind.
  eapply wp_mono; [apply (wp_fold_out _ (λ _, True) (λ _, True)); [|done]|done|done].
  intros acc tuple _ _. unfold grant_step. apply wp_bind. unfold parse_grant.
  destruct (split_char x3a tuple) as [|? [|? [|? [|? [|? ?]]]]]; try done. by repeat case_bool_decide.
Qed.
Lemma emits_own {A} (o : outcome str A) : returned o → emits (lift o) (λ r es, es = [] ∧ ∀ a, r = Some a → o = Ok a).
Proof using Type. intros Ho. apply emits_lift. destruct o; try done; cbn; split; congruence. Qed.

Lemma emits_serve se : emits (serve env does se) (serve_ok se).
Proof.
  unfold serve, serve_ok, authz_ok. destruct (env (lit "BALE_AUTHZ_HTTP_URL")) as [[|c url]|].
  - apply emits_throw. left. by constructor.
  - eapply emits_then; [apply emits_act|..].
    + intros es [-> _]. left. by repeat constructor.
    + intros [] es [-> _]. eapply emits_mono; [apply emits_act|]. intros o fs [-> _]. right. by eexists _, _.
  - eapply emits_then; [apply emits_own, grants_returned|..].
    + intros es [-> _]. left. by constructor.
    + intros c es [-> Hc]. eapply emits_mono; [apply emits_act|]. intros o fs [-> _]. right. eexists (Table c), [].
      split_and!; [|done]. exists c. split_and!; [by apply Hc|done..].
Qed.
Lemma emits_run se : emits (run env does se) (run_ok se).
Proof.
  assert (∀ be : event, blob_event = Some be → (∀ s, be ≠ Serve s) → emits (act does be ≫= λ _, serve env does se) (run_ok se)) as Hopen.
  { intros be Hbe Hno. eapply emits_then; [apply emits_act|..].
    - intros es [-> _]. left. by repeat constructor.
    - intros [] es [-> _]. eapply emits_mono; [apply emits_serve|]. intros o fs [[Hall ->]|(a & made & Ha & ->)].
      + left. split; [by constructor|done].
      + right. by exists be, a, made. }
  unfold run, blob_event in *. destruct (env (lit "BALE_S3_BUCKET")) as [[|c b]|].
  - apply emits_throw. left. by constructor.
  - by apply Hopen.
  - by apply Hopen.
Qed.
Lemma emits_telemetry : emits (telemetry_init env does) (λ _ es, Forall telemetry_event es).
Proof.
  unfold telemetry_init. cbv zeta. eapply (emits_then _ _ (λ _ es, Forall telemetry_event es)); [|done|].
  - destruct (signal_endpoint _ _ _); [|by apply emits_ret; constructor]. eapply emits_mono; [apply emits_act|]. intros o es [-> _]. by repeat constructor.
  - intros _ es Hes. destruct (signal_endpoint _ _ _); [|apply emits_ret; by rewrite app_nil_r].
    eapply emits_mono; [apply emits_act|]. intros o fs [-> _]. apply Forall_app. split; [done|by repeat constructor].
Qed.

Lemma emits_main : emits (main env path_join hex_decode does []) main_ok.
Proof.
  unfold main. cbn [existsb]. eapply emits_then; [apply emits_telemetry| |].
  { intros es Hes. by left. }
  intros u0 tel Htel. cbn beta in Htel. eapply emits_then; [apply emits_own, wp_returned; eapply wp_mono; [apply settings_valid|done|done]|..].
  { intros es [-> _]. left. by rewrite app_nil_r. }
  intros se es [-> Hse]. specialize (Hse _ eq_refl).
  assert (∀ (o : option unit) rest, (Forall (λ e, ∀ s, e ≠ Serve s) rest ∧ o = None ∨
     ∃ me be a made, meta_event = Some me ∧ blob_event = Some be ∧ authz_ok se a made ∧
       rest = [CreateDirAll (data_root env); Bind (listen_addr env); me; be] ++ made ++ [Serve (served_as se a)]) →
    main_ok o (tel ++ [] ++ rest)) as Hgo.
  { intros o rest Hrest. right. exists tel, se, rest. by split_and!. }
  assert (∀ es, Forall (λ e, ∀ s, e ≠ Serve s) es → main_ok None (tel ++ [] ++ es)) as Hstop.
  { intros es Hes. apply Hgo. by left. }
  eapply emits_then; [apply emits_act|by intros ? [-> _]; apply Hstop; repeat constructor|]. intros [] es1 [-> _].
  eapply emits_then; [apply emits_act|by intros ? [-> _]; apply Hstop; repeat constructor|]. intros [] es2 [-> _].
  assert (∀ me, meta_event = Some me → (∀ s, me ≠ Serve s) → emits (act does me ≫= λ _, run env does se)
    (λ o es, main_ok o (tel ++ [] ++ [CreateDirAll (data_root env)] ++ [Bind (listen_addr env)] ++ es))) as Hopen.
  { intros me Hme Hno. eapply emits_then; [apply emits_act|..].
    - intros es [-> _]. apply Hstop. by repeat constructor.
    - intros [] es [-> _]. eapply emits_mono; [apply emits_run|]. intros o fs [[Hall ->]|(be & az & made & Hbe & Ha & ->)].
      + apply Hstop. by repeat constructor.
      + apply Hgo. right. by exists me, be, az, made. }
  unfold meta_event in *. destruct (env (lit "BALE_POSTGRES_URL")) as [url|].
  - destruct (trim url) as [|c u]; [|by apply Hopen]. apply emits_throw. apply (Hstop [_; _]). by repeat constructor.
  - by apply Hopen.
Qed.
End start.

Lemma stores_before_serving env path_join se me be a made : meta_event env path_join = Some me → blob_event env = Some be →
  authz_ok env se a made → ∀ s, Serve s ∉ [CreateDirAll (data_root env); Bind (listen_addr env); me; be] ++ made.
Proof.
  unfold meta_event, blob_event, authz_ok. intros Hme Hbe Ha s.
  assert (∀ s', me ≠ Serve s') as Hmeta.
  { intros s' ->. destruct (env (lit "BALE_POSTGRES_URL")) as [url|]; [|done]. by destruct (trim url). }
  assert (∀ s', be ≠ Serve s') as Hblob.
  { intros s' ->. by destruct (env (lit "BALE_S3_BUCKET")) as [[]|]. }
  assert (Serve s ∉ made) by (destruct (env (lit "BALE_AUTHZ_HTTP_URL")); [destruct Ha as (_ & _ & ->)|destruct Ha as (c & _ & _ & ->)]; set_solver).
  intros Hs. rewrite elem_of_app, !elem_of_cons in Hs. destruct Hs as [[?|[?|[Hs|[Hs|Hs]]]]|Hs]; try done.
  - by destruct (Hmeta s).
  - by destruct (Hblob s).
  - by apply elem_of_nil in Hs.
Qed.

(** ** A start as configured *)

(** C32. Starting the server comes back, with an error or after serving.  Nothing but
    telemetry is set up unless both secrets, the quota and the admin token are
    what their variables spell: a JWT key of at least 32 bytes, a transfer key and
    an admin token of exactly 32, a quota in 64 bits.  Requests are served only
    last, after the data root was created, the address bound and the metadata and
    blob stores opened that the environment names, by the upstream authorizer it
    names or else by the table of [BALE_GRANTS], which then decides every access
    as the grants that were spelled there do. *)
Theorem server_start_is_configured env path_join hex_decode does :
  (∀ e, returned (does e)) →
  let '(o, t) := main env path_join hex_decode does [] [] in
  returned o ∧ (is_ok o → ∃ s, Serve s ∈ t) ∧
  (Forall telemetry_event t ∨ ∃ se, settings env hex_decode = Ok se ∧ valid_settings env hex_decode se) ∧
  ∀ s, Serve s ∈ t → ∃ tel se me be a made,
    t = tel ++ [CreateDirAll (data_root env); Bind (listen_addr env); me; be] ++ made ++ [Serve s] ∧ Forall telemetry_event tel ∧
    settings env hex_decode = Ok se ∧ valid_settings env hex_decode se ∧ s = served_as env se a ∧
    meta_event env path_join = Some me ∧ blob_event env = Some be ∧ authz_ok env se a made ∧
    ∀ gs iter token repo requested,
      env (lit "BALE_AUTHZ_HTTP_URL") = None → env (lit "BALE_GRANTS") = Some (spell_grants gs) → Forall plain_grant gs →
      (∀ m, iter m ≡ₚ map_to_list m) → Forall (λ g, is_u32 (len (g_token g))) gs → is_u32 (len token) →
      ∃ c, a = Table c ∧ config_check_repo_access iter c token repo requested = access_decision gs token (repo_id repo) requested.
Proof.
  intros Hdoes. pose proof (emits_main env path_join hex_decode does Hdoes []) as Hm. pose proof (settings_valid env hex_decode) as Hv.
  unfold wps in Hm. destruct (main env path_join hex_decode does [] []) as [o t].
  assert (returned o ∧ main_ok env path_join hex_decode (match o with Ok a => Some a | _ => None end) t) as [Ho Hok].
  { destruct o; try done; destruct Hm as (es & -> & Hm); (split; [done|exact Hm]). }
  split; [done|]. destruct Hok as [[Htel Hno]|(tel & se & rest & -> & Htel & Hse & Hrest)].
  - split_and!; [by destruct o|by left|]. intros s Hs. rewrite Forall_forall in Htel. by apply Htel in Hs.
  - rewrite Hse in Hv. cbn in Hv. destruct Hrest as [[Hnone Hno]|(me & be & a & made & Hme & Hbe & Ha & ->)].
    + split_and!; [by destruct o|by right; exists se|]. intros s Hs. exfalso.
      apply elem_of_app in Hs as [Hs|Hs]; rewrite Forall_forall in Htel, Hnone; [by apply Htel in Hs|by destruct (Hnone _ Hs s)].
    + split_and!; [|by right; exists se|].
      * intros _. exists (served_as env se a). rewrite !elem_of_app, !list_elem_of_singleton. auto.
      * pose proof (stores_before_serving _ _ _ _ _ _ _ Hme Hbe Ha) as Hbefore. intros s Hs.
        assert (s = served_as env se a) as ->.
        { rewrite !elem_of_app, list_elem_of_singleton in Hs. rewrite Forall_forall in Htel. specialize (Hbefore s).
          rewrite !elem_of_app in Hbefore. destruct Hs as [Hs|[Hs|[Hs|[= ->]]]]; [by apply Htel in Hs|by destruct Hbefore; left|by destruct Hbefore; right|done]. }
        exists tel, se, me, be, a, made. split_and!; try done. intros gs iter token repo requested Hup Hgr Hgs Hiter Hlen Htok.
        unfold authz_ok in Ha. rewrite Hup in Ha. destruct Ha as (c & Hc & -> & ->). exists c. split; [done|].
        rewrite (grants_authz_spelled _ _ gs) in Hc by done. injection Hc as <-. by apply config_access_decision.
Qed.

(** A server on the loopback address with a table of two grants, PostgreSQL and S3. *)
Definition start_env (name : str) : option str := (list_to_map [
  (lit "BALE_JWT_SECRET_HEX", repeat x61 40); (lit "BALE_TRANSFER_SECRET_HEX", repeat x62 32 ++ [x0a]);
  (lit "BALE_DEFAULT_QUOTA_BYTES", lit "1000"); (lit "BALE_POSTGRES_URL", lit "postgres://db"); (lit "BALE_S3_BUCKET", lit "bale");
  (lit "OTEL_EXPORTER_OTLP_ENDPOINT", lit "http://otel/");
  (lit "BALE_GRANTS", spell_grants [mkGrant (lit "t1") (lit "alice") (lit "alice/a") Write; mkGrant (lit "t2") (lit "bob") (lit "alice/a") Read])
  ] : gmap str str) !! name.
Definition start_join (a b : str) : str := a ++ lit "/" ++ b.
Example start_events : (λ e, match e with Serve s => inl (sv_public_base_url s, sv_default_quota_bytes s) | e => inr e end) <$>
    (main start_env start_join Some (λ _, Ok tt) [] []).2 =
  [inr (SpanExporter (lit "http://otel/v1/traces")); inr (MetricExporter (lit "http://otel/v1/metrics")); inr (CreateDirAll (lit "./xet-data"));
   inr (Bind (lit "127.0.0.1:8080")); inr (OpenPostgres (lit "postgres://db")); inr (OpenS3 (s3_config start_env (lit "bale")));
   inl (lit "http://127.0.0.1:8080", Some 1000)].
Proof. by vm_compute. Qed.
(** An address of IPv6 loopback is cut at its first colon and never recognized. *)
Example ipv6_loopback_warns : warns_public_url (λ name, if decide (name = lit "BALE_LISTEN") then Some (lit "[::1]:8080") else None) = true.
Proof. by vm_compute. Qed.

Lemma server_start_is_configured_witness : ∃ o t s c,
  main start_env start_join Some (λ _, Ok tt) [] [] = (o, t) ∧ Serve s ∈ t ∧ sv_authz s = Table c ∧
  config_check_repo_access map_to_list c (lit "t2") (mkRepoRef Model (lit "alice/a") (lit "main")) Write = Err Forbidden.
Proof.
  pose proof (server_start_is_configured start_env start_join Some (λ _, Ok tt) (λ _, I)) as H.
  destruct (main start_env start_join Some (λ _, Ok tt) [] []) as [o t] eqn:Hm. exists o, t.
  assert (is_ok o) as Ho by (change o with (o, t).1; rewrite <-Hm; by vm_compute).
  destruct H as (_ & Hserve & _ & H). destruct (Hserve Ho) as [s Hs]. exists s.
  destruct (H s Hs) as (tel & se & me & be & a & made & _ & _ & _ & _ & -> & _ & _ & _ & Hgr).
  destruct (Hgr [mkGrant (lit "t1") (lit "alice") (lit "alice/a") Write; mkGrant (lit "t2") (lit "bob") (lit "alice/a") Read]
    map_to_list (lit "t2") (mkRepoRef Model (lit "alice/a") (lit "main")) Write) as (c & -> & Hc);
    [by vm_compute|by vm_compute|repeat constructor; by_lit|done|repeat constructor; by vm_compute|by vm_compute|].
  exists c. split_and!; [done|done|done|]. rewrite Hc. by vm_compute.
Defined.
