(* ===== verification/Pktline.v ===== *)
(** * Pkt-line framing

    [crates/git-bale/src/pktline.rs]: packets over the two pipes to git, the
    reader and the writer. *)

From stdpp Require Import list.
From S2P Require Import Prelude RustStd.

(** [io::Error], by kind. *)
Inductive io_error :=
  | UnexpectedEof
  | InvalidData (m : str)
  | InvalidInput (m : str)
  | IoFailed (m : str).

Definition io_error_text (e : io_error) : str :=
  match e with
  | UnexpectedEof => lit "failed to fill whole buffer"
  | InvalidData m | InvalidInput m | IoFailed m => m
  end.

(** ** The pipes

    [incoming] is what the peer still sends before it closes the pipe,
    [outgoing] what was written, of which the peer has seen at least the first
    [delivered] bytes.  A pending write fault says how many bytes of its buffer
    a write still passes on, and the error it reports. *)
Record Pipe := mkPipe {
  incoming : bytes;
  outgoing : bytes;
  delivered : nat;
  write_faults : list (option (nat * str));
}.

Definition set_incoming b (s : Pipe) : Pipe := mkPipe b (outgoing s) (delivered s) (write_faults s).
Definition append_outgoing b (s : Pipe) : Pipe :=
  mkPipe (incoming s) (outgoing s ++ b) (delivered s) (tail (write_faults s)).

Abbreviation P := (ST Pipe io_error).

Definition read_exact (n : nat) : P bytes := λ s,
  if (n <=? length (incoming s))%nat
  then (Ok (take n (incoming s)), set_incoming (drop n (incoming s)) s)
  else (Err UnexpectedEof, set_incoming [] s).

Definition pop_write_fault (s : Pipe) : option (nat * str) := default None (head (write_faults s)).

Definition write_all (b : bytes) : P unit := λ s,
  match pop_write_fault s with
  | None => (Ok tt, append_outgoing b s)
  | Some (n, m) => (Err (IoFailed m), append_outgoing (take n b) s)
  end.

Definition flush : P unit := λ s,
  match pop_write_fault s with
  | None => (Ok tt, mkPipe (incoming s) (outgoing s) (length (outgoing s)) (tail (write_faults s)))
  | Some (_, m) => (Err (IoFailed m), append_outgoing [] s)
  end.

(** ** Packets *)

Definition MAX_PKT_PAYLOAD : nat := Z.to_nat 65516.
Definition HEADER_LEN : nat := 4.
Definition u16_max : Z := 65535.

Inductive Packet := Flush | Delim | ResponseEnd | Data (payload : bytes).

(** [{:?}] of a control packet. *)
Definition Packet_debug (p : Packet) : str :=
  match p with
  | Flush => lit "Flush"
  | Delim => lit "Delim"
  | ResponseEnd => lit "ResponseEnd"
  | Data _ => lit "Data"
  end.

(** ** Reader *)

Definition read_packet : P Packet :=
  header ← read_exact HEADER_LEN;
  header_str ← lift (map_err (λ _, InvalidData (lit "non-utf8 pkt-line header")) (from_utf8 header));
  len ← lift (ok_or (InvalidData (lit "bad pkt-line header '" ++ header_str ++ lit "'"))
                (from_str_radix 16 u16_max header_str));
  if len =? 0 then mret Flush
  else if len =? 1 then mret Delim
  else if len =? 2 then mret ResponseEnd
  else if len <? Z.of_nat HEADER_LEN
  then throw (InvalidData (lit "undersized pkt-line length " ++ to_string len))
  else buf ← read_exact (Z.to_nat len - HEADER_LEN); mret (Data buf).

(** The payload of a text packet: a final newline is dropped. *)
Definition text_of (b : bytes) : P str :=
  let b := match last b with
           | Some c => if decide (c = x0a) then take (length b - 1) b else b
           | None => b
           end in
  lift (map_err InvalidData (from_utf8 b)).

Definition read_text : P str :=
  p ← read_packet;
  match p with
  | Data b => text_of b
  | other => throw (InvalidData (lit "expected text pkt-line, got " ++ Packet_debug other))
  end.

(** A loop over packets: each one takes at least its header from the pipe. *)
Definition packets {A B} (body : A → P (A + B)) (a : A) : P B := λ s,
  loop_st (S (length (incoming s))) body a s.

Definition read_text_list_step (out : list str) : P (list str + list str) :=
  p ← read_packet;
  match p with
  | Flush => mret (inr out)
  | Data b => t ← text_of b; mret (inl (out ++ [t]))
  | other => throw (InvalidData (lit "expected text packet or flush, got " ++ Packet_debug other))
  end.
Definition read_text_list : P (list str) := packets read_text_list_step [].

(** What was copied, and the count that is returned. *)
Definition read_binary_step (max_total_bytes : Z) (st : bytes * Z) : P (bytes * Z + bytes * Z) :=
  let '(out, total) := st in
  p ← read_packet;
  match p with
  | Flush => mret (inr (out, total))
  | Data b =>
      let n := len b in
      if max_total_bytes <? saturating_add total n
      then throw (InvalidData (lit "pkt-line payload exceeded cap of " ++ to_string max_total_bytes ++ lit " bytes"))
      else mret (inl (out ++ b, as_u64 (total + n)))
  | other => throw (InvalidData (lit "expected data packet or flush, got " ++ Packet_debug other))
  end.
Definition read_binary_to (max_total_bytes : Z) : P (bytes * Z) := packets (read_binary_step max_total_bytes) ([], 0).

(** ** Writer *)

Definition flush_packet : P unit := _ ← write_all (lit "0000"); flush.

Definition write_text (line : str) : P unit :=
  if (MAX_PKT_PAYLOAD <? length line + 1)%nat
  then throw (InvalidInput (lit "pkt-line text exceeds 65516 bytes"))
  else
    let total := (length line + 1 + HEADER_LEN)%nat in
    _ ← write_all (fmt_0x 4 (Z.of_nat total));
    _ ← write_all line;
    write_all [x0a].

Definition write_text_list (lines : list str) : P unit :=
  _ ← for_each write_text lines;
  flush_packet.

Definition write_binary_packet (data : bytes) : P unit :=
  _ ← write_all (fmt_0x 4 (Z.of_nat (length data + HEADER_LEN)));
  write_all data.
Definition write_binary (data : bytes) : P unit := for_each write_binary_packet (chunks_of MAX_PKT_PAYLOAD data).

Definition write_all_then_flush (data : bytes) : P unit := _ ← write_binary data; flush_packet.

(** [Write::write]: one packet of at most the maximal payload, and its size. *)
Definition write (buf : bytes) : P nat :=
  let n := Nat.min (length buf) MAX_PKT_PAYLOAD in
  _ ← write_all (fmt_0x 4 (Z.of_nat (n + HEADER_LEN)));
  _ ← write_all (take n buf);
  mret n.

(** ** Reading never hangs

    A packet takes its header and payload off the pipe, so a loop over packets
    ends on every input; [consumes] is what a reader does to the pipe. *)

Definition consumed (s s' : Pipe) : Prop :=
  (∃ b, incoming s = b ++ incoming s') ∧ outgoing s' = outgoing s ∧ delivered s' = delivered s ∧
  write_faults s' = write_faults s.
#[export] Instance consumed_preorder : PreOrder consumed.
Proof.
  split.
  - intros s. split; [by exists []|done].
  - intros s1 s2 s3 ([b1 Hb1] & ? & ? & ?) ([b2 Hb2] & ? & ? & ?).
    split; [|split_and!; congruence]. exists (b1 ++ b2). by rewrite <-app_assoc, <-Hb2.
Qed.
Lemma consumed_length s s' : consumed s s' → (length (incoming s') ≤ length (incoming s))%nat.
Proof. intros [[b ->] _]. rewrite length_app. lia. Qed.

Lemma wps_read_exact n s :
  wps (read_exact n) s (λ b s', consumed s s' ∧ length b = n ∧ incoming s = b ++ incoming s')
    (λ _ s', consumed s s').
Proof.
  unfold wps, read_exact. destruct (Nat.leb_spec n (length (incoming s))).
  - split_and!; [split; [exists (take n (incoming s)); simpl; by rewrite take_drop|done]|by apply length_take_le|].
    simpl. by rewrite take_drop.
  - split; [|done]. exists (incoming s). by rewrite app_nil_r.
Qed.

Lemma wps_read_packet s :
  wps read_packet s (λ _ s', consumed s s' ∧ (length (incoming s') < length (incoming s))%nat)
    (λ _ s', consumed s s').
Proof.
  unfold read_packet. wstep. eapply wps_mono; [apply wps_read_exact| |done].
  intros header s1 (Hs1 & Hlen & Heq). assert (length (incoming s1) < length (incoming s))%nat.
  { rewrite Heq, length_app, Hlen. unfold HEADER_LEN. lia. }
  wsteps. unfold from_utf8. destruct (utf8_valid header); cbn [map_err wp]; [|done].
  wsteps. destruct (from_str_radix _ _ _) as [n|]; cbn [ok_or wp]; [|done].
  repeat (case_match; [by wsteps|]). wsteps. eapply wps_mono; [apply wps_read_exact| |].
  - intros b s2 (Hs2 & _). wsteps. split; [by etrans|]. apply consumed_length in Hs2. lia.
  - intros e s2 Hs2. by etrans.
Qed.

(** A loop over packets whose body reads a packet and then only computes. *)
Lemma wps_packets {A B} (body : A → P (A + B)) (Inv : A → Prop) (Q : B → Prop) a s :
  (∀ a s, Inv a → wps (body a) s
     (λ r s', consumed s s' ∧ (length (incoming s') < length (incoming s))%nat ∧ match r with inl a' => Inv a' | inr b => Q b end)
     (λ _ s', consumed s s')) →
  Inv a → wps (packets body a) s (λ b s', consumed s s' ∧ (length (incoming s') < length (incoming s))%nat ∧ Q b)
    (λ _ s', consumed s s').
Proof.
  intros Hbody Ha. unfold packets, wps.
  assert (Hgen : ∀ fuel a s, Inv a → (length (incoming s) < fuel)%nat →
    wps (loop_st fuel body a) s (λ b s', consumed s s' ∧ (length (incoming s') < length (incoming s))%nat ∧ Q b)
      (λ _ s', consumed s s')); [|apply Hgen; [done|lia]].
  clear s Ha a. intros fuel. induction fuel as [|fuel IH]; intros a s Ha Hf; [lia|]. cbn [loop_st]. apply wps_bind.
  eapply wps_mono; [by apply Hbody| |done]. intros r s' (Hs & Hlt & Hr). destruct r as [a'|b]; [|by wsteps].
  eapply wps_mono; [apply IH; [done|lia]| |].
  - intros b s'' (Hs'' & ? & ?). split; [by etrans|]. split; [lia|done].
  - intros e s'' ?. by etrans.
Qed.

Lemma wps_text_of b s : wps (text_of b) s (λ _ s', s' = s) (λ _ s', s' = s).
Proof. unfold text_of. wsteps. unfold from_utf8. by destruct (utf8_valid _). Qed.

Lemma wps_read_text_list s :
  wps read_text_list s (λ _ s', consumed s s' ∧ (length (incoming s') < length (incoming s))%nat) (λ _ s', consumed s s').
Proof.
  eapply wps_mono; [apply (wps_packets _ (λ _, True) (λ _, True)); [|done]|naive_solver|done].
  intros out s1 _. unfold read_text_list_step. wstep. eapply wps_mono; [apply wps_read_packet| |done].
  intros p s2 [Hs Hlt]. destruct p; wsteps; try done.
  eapply wps_mono; [apply wps_text_of| |by intros ? ? ->]. intros t s3 ->. by wsteps.
Qed.

Lemma wps_read_text s : wps read_text s (λ _ s', consumed s s') (λ _ s', consumed s s').
Proof.
  unfold read_text. wstep. eapply wps_mono; [apply wps_read_packet| |done].
  intros p s2 [Hs Hlt]. destruct p; wsteps; try done.
  eapply wps_mono; [apply wps_text_of|by intros ? ? ->..].
Qed.

Lemma wps_read_binary_to cap s :
  0 ≤ cap < u64_max →
  wps (read_binary_to cap) s (λ r s', consumed s s' ∧ r.2 = len r.1 ∧ len r.1 ≤ cap) (λ _ s', consumed s s').
Proof.
  intros Hcap. eapply wps_mono; [apply (wps_packets _ (λ st, st.2 = len st.1 ∧ len st.1 ≤ cap) (λ st, st.2 = len st.1 ∧ len st.1 ≤ cap))|naive_solver|done];
    [|unfold len; simpl; lia].
  intros [out total] s1 [Ht Hle]. simpl in *. subst total. unfold read_binary_step. wstep.
  eapply wps_mono; [apply wps_read_packet| |done]. intros p s2 [Hs Hlt]. destruct p as [| | |b]; wsteps; try done.
  destruct (Z.ltb_spec cap (saturating_add (len out) (len b))) as [|Hb]; wsteps; [done|]. split_and!; try done; simpl.
  all: unfold saturating_add in Hb; pose proof (len_nonneg out); pose proof (len_nonneg b).
  - rewrite len_app. apply as_u64_id. unfold is_u64, u64_max in *. lia.
  - rewrite len_app. lia.
Qed.

(** ** What a writer writes, a reader reads *)

(** [m] reads exactly [b] off the pipe and answers [a]. *)
Definition parses {A} (m : P A) (b : bytes) (a : A) : Prop :=
  ∀ s rest, incoming s = b ++ rest → m s = (Ok a, set_incoming rest s).

(** [m] writes exactly [b], if no write fails. *)
Definition emits (m : P unit) (b : bytes) : Prop :=
  ∀ s, write_faults s = [] → ∃ d, m s = (Ok tt, mkPipe (incoming s) (outgoing s ++ b) d []).

Lemma parses_ret {A} (a : A) : parses (mret a) [] a.
Proof. intros [] rest Hr. simpl in *. by subst. Qed.
Lemma parses_bind {A B} (m : P A) (f : A → P B) b1 b2 a b :
  parses m b1 a → parses (f a) b2 b → parses (m ≫= f) (b1 ++ b2) b.
Proof.
  intros Hm Hf s rest Hr. rewrite <-app_assoc in Hr. unfold mbind, ST_bind. rewrite (Hm s _ Hr).
  by rewrite (Hf (set_incoming (b2 ++ rest) s) rest).
Qed.
Lemma parses_bind_nil {A B} (m : P A) (f : A → P B) b1 a b :
  parses m b1 a → parses (f a) [] b → parses (m ≫= f) b1 b.
Proof. intros Hm Hf. rewrite <-(app_nil_r b1). by eapply parses_bind. Qed.
Lemma parses_lift {A} (o : outcome io_error A) a : o = Ok a → parses (lift o) [] a.
Proof. intros -> [] rest Hr. simpl in *. by subst. Qed.
Lemma parses_lift_bind {A B} (o : outcome io_error A) a (f : A → P B) b c :
  o = Ok a → parses (f a) b c → parses (lift o ≫= f) b c.
Proof. intros ->. done. Qed.
Lemma parses_read_exact n b : length b = n → parses (read_exact n) b b.
Proof.
  intros <- s rest Hr. unfold read_exact. rewrite Hr, length_app, (proj2 (Nat.leb_le _ _)) by lia.
  by rewrite take_app_length, drop_app_length.
Qed.

Lemma emits_bind m (f : unit → P unit) b1 b2 : emits m b1 → emits (f tt) b2 → emits (m ≫= f) (b1 ++ b2).
Proof.
  intros Hm Hf s Hs. destruct (Hm s Hs) as [d Hd]. unfold mbind, ST_bind. rewrite Hd.
  destruct (Hf (mkPipe (incoming s) (outgoing s ++ b1) d []) eq_refl) as [d' ->]. exists d'. by rewrite app_assoc.
Qed.
Lemma emits_write_all b : emits (write_all b) b.
Proof. intros s Hs. unfold write_all, pop_write_fault, append_outgoing. rewrite Hs. by eexists. Qed.
Lemma emits_for_each {X} (f : X → P unit) (ser : X → bytes) l :
  (∀ x, x ∈ l → emits (f x) (ser x)) → emits (for_each f l) (flat_map ser l).
Proof.
  induction l as [|x l IH]; intros Hf; cbn [for_each flat_map].
  - intros s Hs. exists (delivered s). destruct s. simpl in *. by rewrite Hs, app_nil_r.
  - apply emits_bind; [apply Hf; left|]. apply IH. intros y Hy. apply Hf. by right.
Qed.
Lemma emits_flush_packet s : write_faults s = [] →
  flush_packet s = (Ok tt, mkPipe (incoming s) (outgoing s ++ lit "0000") (length (outgoing s ++ lit "0000")) []).
Proof.
  intros Hs. unfold flush_packet, mbind, ST_bind, write_all, flush, pop_write_fault, append_outgoing. by rewrite Hs.
Qed.

(** The bytes of a data packet. *)
Definition packet_bytes (b : bytes) : bytes := fmt_0x 4 (Z.of_nat (length b + HEADER_LEN)) ++ b.

Lemma header_digits n : Z.of_nat n < 65536 →
  let h := fmt_0x 4 (Z.of_nat n) in
  length h = 4%nat ∧ from_utf8 h = Ok h ∧ from_str_radix 16 u16_max h = Some (Z.of_nat n).
Proof.
  intros Hn. cbv zeta. rewrite fmt_04x_digits by lia.
  set (z := Z.of_nat n). set (d1 := z / 4096). set (d2 := z / 256 mod 16). set (d3 := z / 16 mod 16). set (d4 := z mod 16).
  assert (0 ≤ d1 < 16 ∧ 0 ≤ d2 < 16 ∧ 0 ≤ d3 < 16 ∧ 0 ≤ d4 < 16 ∧ z = ((d1 * 16 + d2) * 16 + d3) * 16 + d4)
    as (H1 & H2 & H3 & H4 & Hz) by (unfold d1, d2, d3, d4, z; div_lia).
  assert (Hascii : ∀ d, 0 ≤ d < 16 → in_range (digit_char d) 0 127 = true).
  { intros d Hd. unfold in_range, digit_char. destruct (d <? 10); rewrite byte_to_of_Z;
      apply andb_true_intro; split; apply Z.leb_le; div_lia. }
  split; [done|]. split.
  - unfold from_utf8. cbn [utf8_valid]. by rewrite !Hascii.
  - unfold from_str_radix. rewrite decide_False by (apply digit_char_not_plus; lia).
    cbn [parse_digits]. rewrite !to_digit_char by lia. cbn [mbind option_bind].
    unfold u16_max. rewrite !(proj2 (Z.leb_le _ _)) by lia. f_equal. lia.
Qed.

Lemma parses_data b : (length b ≤ MAX_PKT_PAYLOAD)%nat → parses read_packet (packet_bytes b) (Data b).
Proof.
  intros Hb. unfold MAX_PKT_PAYLOAD in Hb. unfold packet_bytes, read_packet.
  destruct (header_digits (length b + HEADER_LEN)) as (Hl & Hu & Hr); [unfold HEADER_LEN; lia|].
  eapply parses_bind; [by apply parses_read_exact|]. rewrite Hu. cbn [map_err].
  apply (parses_lift_bind _ _ _ _ _ eq_refl). rewrite Hr. apply (parses_lift_bind _ _ _ _ _ eq_refl).
  rewrite !(proj2 (Z.eqb_neq _ _)), (proj2 (Z.ltb_ge _ _)) by (unfold HEADER_LEN; lia).
  eapply parses_bind_nil; [|apply parses_ret]. apply parses_read_exact. lia.
Qed.
Lemma parses_flush : parses read_packet (lit "0000") Flush.
Proof.
  intros s rest Hr. unfold read_packet. rewrite (ST_bind_step _ _ _ (lit "0000") (set_incoming rest s)); [done|].
  by apply (parses_read_exact 4 (lit "0000")).
Qed.

(** A loop that reads a list of packets and a flush. *)
Lemma parses_packets {A B X} (body : A → P (A + B)) (ser : X → bytes) (acc : list X → A) (b : B) l :
  (∀ dn x rest, l = dn ++ x :: rest → parses (body (acc dn)) (ser x) (inl (acc (dn ++ [x])))) →
  parses (body (acc l)) (lit "0000") (inr b) →
  (∀ x, ser x ≠ []) →
  parses (packets body (acc [])) (flat_map ser l ++ lit "0000") b.
Proof.
  intros Hx Hend Hne s rest Hr. unfold packets.
  assert (Hgen : ∀ k dn fuel s, l = dn ++ k → (length k < fuel)%nat →
    incoming s = (flat_map ser k ++ lit "0000") ++ rest →
    loop_st fuel body (acc dn) s = (Ok b, set_incoming rest s)).
  { clear s Hr. induction k as [|x k IH]; intros dn [|fuel] s Hl Hf Hr; try (simpl in Hf; lia); cbn [loop_st].
    - rewrite app_nil_r in Hl. subst dn. by rewrite (ST_bind_step _ _ _ _ _ (Hend s rest Hr)).
    - cbn [flat_map] in Hr. rewrite <-!app_assoc in Hr. rewrite (ST_bind_step _ _ _ _ _ (Hx dn x k Hl s _ Hr)).
      rewrite (IH (dn ++ [x])); [done|by rewrite <-app_assoc|simpl in Hf; lia|simpl; by rewrite <-!app_assoc]. }
  apply (Hgen l []); [done| |done]. rewrite Hr, !length_app.
  assert (length l ≤ length (flat_map ser l))%nat; [|lia]. clear -Hne.
  induction l as [|x l IH]; simpl; [done|]. rewrite length_app.
  pose proof (Hne x) as Hx. destruct (ser x); [done|]. simpl. lia.
Qed.

Definition text_packet (line : str) : bytes := packet_bytes (line ++ [x0a]).
Definition list_bytes (lines : list str) : bytes := flat_map text_packet lines ++ lit "0000".
Definition content_bytes (data : bytes) : bytes := flat_map packet_bytes (chunks_of MAX_PKT_PAYLOAD data) ++ lit "0000".

Lemma packet_bytes_nonempty b : packet_bytes b ≠ [].
Proof.
  unfold packet_bytes. intros [Hh _]%app_eq_nil. apply (f_equal length) in Hh.
  unfold fmt_0x in Hh. rewrite length_app, length_replicate in Hh. change (length []) with 0%nat in Hh. lia.
Qed.

Lemma emits_text line : (length line + 1 ≤ MAX_PKT_PAYLOAD)%nat → emits (write_text line) (text_packet line).
Proof.
  intros Hl. unfold write_text, text_packet, packet_bytes. rewrite (proj2 (Nat.ltb_ge _ _)) by done.
  rewrite length_app. change (length [x0a]) with 1%nat.
  apply emits_bind; [apply emits_write_all|]. apply emits_bind; apply emits_write_all.
Qed.

Lemma written_then_flushed m b s :
  emits m b → write_faults s = [] →
  (_ ← m; flush_packet) s
  = (Ok tt, mkPipe (incoming s) (outgoing s ++ b ++ lit "0000") (length (outgoing s ++ b ++ lit "0000")) []).
Proof.
  intros Hm Hs. destruct (Hm s Hs) as [d Hd]. rewrite (ST_bind_step _ _ _ _ _ Hd), emits_flush_packet by done.
  simpl. by rewrite <-app_assoc.
Qed.

Lemma parses_text b line : last b = Some x0a → take (length b - 1) b = line → utf8_valid line = true →
  parses (text_of b) [] line.
Proof.
  intros Hb Hl Hu. unfold text_of. rewrite Hb, decide_True by done. rewrite Hl.
  apply parses_lift. unfold from_utf8. by rewrite Hu.
Qed.

Lemma emits_content data : emits (write_binary data) (flat_map packet_bytes (chunks_of MAX_PKT_PAYLOAD data)).
Proof.
  apply emits_for_each. intros b _. unfold write_binary_packet, packet_bytes.
  apply emits_bind; apply emits_write_all.
Qed.

Definition text_line (l : str) : Prop := utf8_valid l = true ∧ (length l + 1 ≤ MAX_PKT_PAYLOAD)%nat.

Lemma emits_text_list lines : Forall text_line lines → emits (for_each write_text lines) (flat_map text_packet lines).
Proof. rewrite Forall_forall. intros Hl. apply emits_for_each. intros l Hin. apply emits_text. by apply Hl. Qed.

Lemma parses_text_packet line : text_line line → parses read_text (text_packet line) line.
Proof.
  intros [Hu Hl]. eapply parses_bind_nil; [apply parses_data; rewrite length_app; simpl; lia|].
  apply parses_text; [apply last_snoc| |done]. rewrite length_app. simpl.
  replace (length line + 1 - 1)%nat with (length line) by lia. apply take_app_length.
Qed.

Lemma parses_text_list lines : Forall text_line lines → parses read_text_list (list_bytes lines) lines.
Proof.
  rewrite Forall_forall. intros Hl. apply (parses_packets read_text_list_step text_packet id).
  - intros dn line rest Heq. destruct (Hl line) as [Hu Hn]; [rewrite Heq; set_solver|]. unfold read_text_list_step, id.
    eapply parses_bind_nil; [apply parses_data; rewrite length_app; simpl; lia|].
    eapply parses_bind_nil; [|apply parses_ret]. apply parses_text; [apply last_snoc| |done]. rewrite length_app. simpl.
    replace (length line + 1 - 1)%nat with (length line) by lia. apply take_app_length.
  - eapply parses_bind_nil; [apply parses_flush|apply parses_ret].
  - intros. apply packet_bytes_nonempty.
Qed.

Lemma parses_content data cap :
  len data ≤ cap < u64_max → parses (read_binary_to cap) (content_bytes data) (data, len data).
Proof.
  intros Hcap. unfold content_bytes. set (cs := chunks_of MAX_PKT_PAYLOAD data).
  assert (Hdata : concat cs = data) by (apply concat_chunks_of; unfold MAX_PKT_PAYLOAD; lia).
  pose proof (chunks_fuel_bound (length data) MAX_PKT_PAYLOAD data) as Hb. change (Forall (λ c, (length c ≤ MAX_PKT_PAYLOAD)%nat) cs) in Hb. rewrite Forall_forall in Hb. clearbody cs.
  assert (Hcs : ∀ dn rest, cs = dn ++ rest → len (concat dn) ≤ len data).
  { intros dn rest Heq. rewrite <-Hdata, Heq, concat_app, len_app. pose proof (len_nonneg (concat rest)). lia. }
  replace (data, len data) with (concat cs, len (concat cs)) by by rewrite Hdata.
  apply (parses_packets (read_binary_step cap) packet_bytes (λ dn, (concat dn, len (concat dn)))).
  - intros dn x rest Heq. eapply parses_bind_nil; [apply parses_data, Hb; rewrite Heq; set_solver|].
    pose proof (Hcs (dn ++ [x]) rest) as Hle. rewrite <-app_assoc in Hle. specialize (Hle Heq).
    assert (Happ : concat (dn ++ [x]) = concat dn ++ x) by (rewrite concat_app; simpl; by rewrite app_nil_r).
    rewrite Happ, len_app in Hle. pose proof (len_nonneg (concat dn)). pose proof (len_nonneg x).
    unfold saturating_add. rewrite Z.min_l by lia. rewrite (proj2 (Z.ltb_ge _ _)) by lia.
    rewrite Happ, len_app, as_u64_id by (unfold is_u64, u64_max in *; lia). apply parses_ret.
  - eapply parses_bind_nil; [apply parses_flush|apply parses_ret].
  - apply packet_bytes_nonempty.
Qed.

(** C33. The two ends of the filter protocol agree: whatever list of text lines
    or binary content one end writes, the other reads back exactly that and
    leaves the rest of the stream; the writer has flushed all of it, so the peer
    is not kept waiting; and every read, of any bytes, comes to an end. *)
Theorem pktline_roundtrip lines data cap s :
  Forall text_line lines → len data ≤ cap < u64_max → write_faults s = [] →
  (∃ s', write_text_list lines s = (Ok tt, s') ∧ delivered s' = length (outgoing s') ∧
     ∃ b, outgoing s' = outgoing s ++ b ∧
       ∀ peer rest, incoming peer = b ++ rest → read_text_list peer = (Ok lines, set_incoming rest peer)) ∧
  (∃ s', write_all_then_flush data s = (Ok tt, s') ∧ delivered s' = length (outgoing s') ∧
     ∃ b, outgoing s' = outgoing s ++ b ∧
       ∀ peer rest, incoming peer = b ++ rest → read_binary_to cap peer = (Ok (data, len data), set_incoming rest peer)) ∧
  ∀ peer, returned (read_text_list peer).1 ∧ returned (read_binary_to cap peer).1.
Proof.
  intros Hlines Hcap Hs. split_and!.
  - eexists. split; [by apply written_then_flushed; [apply emits_text_list|]|]. split; [done|].
    eexists. split; [done|]. by apply parses_text_list.
  - eexists. split; [by apply written_then_flushed; [apply emits_content|]|]. split; [done|].
    eexists. split; [done|]. by apply parses_content.
  - intros peer. pose proof (wps_read_text_list peer) as H1. unfold wps in H1.
    pose proof (wps_read_binary_to cap peer ltac:(pose proof (len_nonneg data); lia)) as H2. unfold wps in H2.
    by destruct (read_text_list peer) as [[]], (read_binary_to cap peer) as [[]].
Qed.

Lemma pktline_roundtrip_witness :
  let lines := [lit "status=success"] in let data := lit "abc" in let s := mkPipe [] (lit "x") 0 [] in
  Forall text_line lines ∧
  ∃ b, outgoing (write_text_list lines s).2 = lit "x" ++ b ∧
    read_text_list (mkPipe (b ++ lit "rest") [] 0 []) = (Ok lines, mkPipe (lit "rest") [] 0 []).
Proof.
  cbv zeta.
  assert (Hl : Forall text_line [lit "status=success"]).
  { constructor; [|constructor]. split; [reflexivity|]. apply Nat.leb_le. vm_compute. reflexivity. }
  split; [exact Hl|].
  destruct (pktline_roundtrip [lit "status=success"] (lit "abc") 10 (mkPipe [] (lit "x") 0 [])) as ((s' & Hw & _ & b & Hb & Hr) & _ & _);
    [exact Hl|vm_compute; split; [discriminate|reflexivity]|reflexivity|].
  exists b. rewrite Hw. split; [exact Hb|]. apply (Hr (mkPipe (b ++ lit "rest") [] 0 [])). reflexivity.
Defined.
