(* ===== verification/CleanCache.v ===== *)
(** * Chunk fingerprints of the clean cache

    [crates/git-bale/src/clean_cache.rs]: the fingerprints of a file and their
    verification, in memory and by workers that share one file and one flag. *)

From stdpp Require Import list.
From S2P Require Import Prelude RustStd Pktline.

Definition CHUNK_SIZE : Z := 2 ^ 20.
Definition CURRENT_VERSION : Z := 3.
Definition MIDDLE_SAMPLES : nat := 3.
Definition VERIFY_PARALLELISM : nat := 3.

Record Chunk := mkChunk { ch_start : Z; ch_end : Z; ch_hash : str }.
Record CacheEntry := mkCacheEntry { ce_v : Z; ce_size : Z; ce_chunks : list Chunk; ce_pointer : str }.

#[global] Instance Chunk_eq_dec : EqDecision Chunk.
Proof. solve_decision. Defined.

(** ** Fingerprints *)
Section fingerprints.
(** [XxHash3_64::oneshot], a [u64]. *)
Variable chunk_hash : bytes → Z.

Definition chunk_hash_hex (b : bytes) : str := fmt_0x 16 (chunk_hash b).

(** The loop over [pos]; the fuel is a bound on its rounds. *)
Fixpoint chunks_from (fuel : nat) (b : bytes) (pos size : Z) (chunks : list Chunk) : outcome io_error (list Chunk) :=
  if pos <? size then
    match fuel with
    | O => Diverged
    | S fuel =>
        let end_ := Z.min (pos + CHUNK_SIZE) size in
        piece ← or_panic (slice b (Z.to_nat pos) (Z.to_nat end_));
        chunks_from fuel b end_ size (chunks ++ [mkChunk pos end_ (chunk_hash_hex piece)])
    end
  else Ok chunks.

Definition or_empty_chunk (chunks : list Chunk) : list Chunk :=
  match chunks with [] => [mkChunk 0 0 (chunk_hash_hex [])] | _ => chunks end.

Definition compute_chunks_from_slice (b : bytes) : outcome io_error (list Chunk) :=
  chunks ← chunks_from (S (length b)) b 0 (len b) [];
  mret (or_empty_chunk chunks).

(** From a file: [content] is what its reader still yields. *)
Fixpoint chunks_of_file (fuel : nat) (content : bytes) (pos size : Z) (chunks : list Chunk) : outcome io_error (list Chunk) :=
  if pos <? size then
    match fuel with
    | O => Diverged
    | S fuel =>
        let to_read := Z.to_nat (Z.min (size - pos) CHUNK_SIZE) in
        if (to_read <=? length content)%nat then
          chunks_of_file fuel (drop to_read content) (pos + Z.of_nat to_read) size
            (chunks ++ [mkChunk pos (pos + Z.of_nat to_read) (chunk_hash_hex (take to_read content))])
        else Err UnexpectedEof
    end
  else Ok chunks.

Definition compute_chunks (content : bytes) (size : Z) : outcome io_error (list Chunk) :=
  chunks ← chunks_of_file (S (length content)) content 0 size [];
  mret (or_empty_chunk chunks).

(** ** Verification in memory *)

Definition covered (cached : list Chunk) : Z :=
  foldl (λ acc c, as_u64 (acc + as_u64 (ch_end c - ch_start c))) 0 cached.

Definition expected_hash (c : Chunk) : option Z :=
  expected ← from_str_radix 16 u64_max (ch_hash c);
  if (length (ch_hash c) =? 16)%nat then Some expected else None.

Fixpoint verify_each (cached : list Chunk) (b : bytes) : outcome io_error bool :=
  match cached with
  | [] => Ok true
  | c :: cached =>
      match expected_hash c with
      | None => Ok false
      | Some expected =>
          if len b <? ch_end c then Ok false
          else
            piece ← or_panic (slice b (Z.to_nat (ch_start c)) (Z.to_nat (ch_end c)));
            if negb (chunk_hash piece =? expected) then Ok false else verify_each cached b
      end
  end.

Definition verify_chunks_in_memory (cached : list Chunk) (b : bytes) : outcome io_error bool :=
  match cached with
  | [] => Ok false
  | _ => if negb (covered cached =? len b) then Ok false else verify_each cached b
  end.

(** ** Verification of a file by workers *)

(** [read_exact_at]: positional reads until the buffer is full; [pread] may
    answer fewer bytes than asked for. *)
Section reads.
Variable pread : Z → nat → outcome io_error bytes.

Fixpoint read_exact_at (fuel : nat) (buf : bytes) (remaining : nat) (offset : Z) : outcome io_error bytes :=
  match remaining with
  | O => Ok buf
  | _ =>
      match fuel with
      | O => Diverged
      | S fuel =>
          b ← pread offset remaining;
          match b with
          | [] => Err UnexpectedEof
          | _ => read_exact_at fuel (buf ++ b) (remaining - length b) (as_u64 (offset + len b))
          end
      end
  end.

(** One fingerprint: whether it matches.  A buffer of more than [isize::MAX]
    bytes cannot be allocated. *)
Definition verify_one (cached : list Chunk) (decoded : list Z) (idx : nat) : outcome io_error bool :=
  c ← index cached idx;
  let n := as_u64 (ch_end c - ch_start c) in
  if 2 ^ 63 <=? n then Panic
  else
    buf ← read_exact_at (Z.to_nat n) [] (Z.to_nat n) (ch_start c);
    expected ← index decoded idx;
    mret (chunk_hash buf =? expected).

(** A worker: the index whose turn it is once the flag was seen clear, and the
    indices after it.  The flag is shared. *)
Record Worker := mkWorker { current : option nat; todo : list nat }.
Record Verify := mkVerify { mismatch : bool; panicked : bool; workers : list Worker }.

Definition worker_step (cached : list Chunk) (decoded : list Z) (v : Verify) (i : nat) : option Verify :=
  w ← workers v !! i;
  match current w, todo w with
  | None, [] => None
  | None, idx :: rest =>
      Some (mkVerify (mismatch v) (panicked v)
        (<[i := if mismatch v then mkWorker None [] else mkWorker (Some idx) rest]> (workers v)))
  | Some idx, rest =>
      match verify_one cached decoded idx with
      | Ok true => Some (mkVerify (mismatch v) (panicked v) (<[i := mkWorker None rest]> (workers v)))
      | Ok false | Err _ => Some (mkVerify true (panicked v) (<[i := mkWorker None []]> (workers v)))
      | Panic | Diverged => Some (mkVerify (mismatch v) true (<[i := mkWorker None []]> (workers v)))
      end
  end.

Inductive verify_steps (cached : list Chunk) (decoded : list Z) : Verify → Verify → Prop :=
  | verify_done v : verify_steps cached decoded v v
  | verify_step v v1 v2 i :
      worker_step cached decoded v i = Some v1 → verify_steps cached decoded v1 v2 → verify_steps cached decoded v v2.

Definition worker_finished (w : Worker) : bool :=
  match current w, todo w with None, [] => true | _, _ => false end.
Definition finished (v : Verify) : Prop := Forall (λ w, worker_finished w) (workers v).
End reads.

(** ** The order in which fingerprints are checked *)

Definition xorshift (state : Z) : Z :=
  let state := Z.lxor state (as_u64 (Z.shiftl state 13)) in
  let state := Z.lxor state (Z.shiftr state 7) in
  Z.lxor state (as_u64 (Z.shiftl state 17)).

Definition swap (l : list nat) (i j : nat) : outcome io_error (list nat) :=
  a ← index l i; b ← index l j; mret (<[j := a]> (<[i := b]> l)).

Fixpoint shuffle (is_ : list nat) (state : Z) (l : list nat) : outcome io_error (list nat) :=
  match is_ with
  | [] => Ok l
  | i :: is_ =>
      let state := xorshift state in
      l ← swap l i (Z.to_nat (state mod (Z.of_nat i + 1)));
      shuffle is_ state l
  end.

(** [now] is the time in nanoseconds and [pid] the process. *)
Definition priority_order (now pid : Z) (n : nat) : outcome io_error (list nat) :=
  if (n =? 0)%nat then Ok []
  else if (n <=? 2)%nat then Ok (seq 0 n)
  else
    let middle := seq 1 (n - 2) in
    let state := as_u64 (as_u64 now + pid) in
    let state := if state =? 0 then 1 else state in
    middle ← shuffle (rev (seq 1 (length middle - 1))) state middle;
    let sample_take := Nat.min (length middle) MIDDLE_SAMPLES in
    mret ([0%nat; (n - 1)%nat] ++ take sample_take middle ++ drop sample_take middle).

(** The workers that [verify_chunks] starts: stripes of the order. *)
Definition initial_workers (order : list nat) : Verify :=
  let stripe_size := Nat.max ((length order + VERIFY_PARALLELISM - 1) / VERIFY_PARALLELISM) 1 in
  mkVerify false false (mkWorker None <$> chunks_of stripe_size order).

Definition decode_all_hashes (cached : list Chunk) : option (list Z) := mapM expected_hash cached.

(** What [verify_chunks] answers before any worker runs, or the workers it starts. *)
Definition verify_chunks_start (now pid : Z) (cached : list Chunk) (file_size : Z)
    : outcome io_error (bool + list Z * Verify) :=
  match cached with
  | [] => Ok (inl false)
  | _ =>
      if negb (covered cached =? file_size) then Ok (inl false)
      else match decode_all_hashes cached with
      | None => Ok (inl false)
      | Some decoded =>
          order ← priority_order now pid (length cached);
          mret (inr (decoded, initial_workers order))
      end
  end.

(** The answer of a run, once the scope has joined its workers. *)
Definition verify_answer (v : Verify) : outcome io_error bool :=
  if panicked v then Panic else Ok (negb (mismatch v)).

(** A call of [verify_chunks] on a file that opens: some interleaving of the workers. *)
Definition verify_chunks_runs (pread : Z → nat → outcome io_error bytes) (now pid : Z) (cached : list Chunk)
    (file_size : Z) (answer : outcome io_error bool) : Prop :=
  match verify_chunks_start now pid cached file_size with
  | Ok (inl b) => answer = Ok b
  | Ok (inr (decoded, v)) =>
      ∃ v', verify_steps pread cached decoded v v' ∧ finished v' ∧ answer = verify_answer v'
  | Err e => answer = Err e
  | Panic => answer = Panic
  | Diverged => answer = Diverged
  end.
End fingerprints.

(** ** A fingerprint list tiles the content *)

Section laws.
Variable chunk_hash : bytes → Z.
Hypothesis chunk_hash_u64 : ∀ b, is_u64 (chunk_hash b).
#[local] Set Default Proof Using "Type*".

Definition piece (b : bytes) (c : Chunk) : bytes :=
  take (Z.to_nat (ch_end c) - Z.to_nat (ch_start c)) (drop (Z.to_nat (ch_start c)) b).

Definition fingerprint_of (b : bytes) (c : Chunk) : Prop :=
  0 ≤ ch_start c ≤ ch_end c ∧ ch_end c ≤ len b ∧ ch_hash c = chunk_hash_hex chunk_hash (piece b c).

Fixpoint tiles (b : bytes) (pos : Z) (cs : list Chunk) : Prop :=
  match cs with
  | [] => pos = len b
  | c :: cs => ch_start c = pos ∧ fingerprint_of b c ∧ tiles b (ch_end c) cs
  end.

Lemma slice_piece {E} b c : 0 ≤ ch_start c ≤ ch_end c → ch_end c ≤ len b →
  or_panic (E := E) (slice b (Z.to_nat (ch_start c)) (Z.to_nat (ch_end c))) = Ok (piece b c).
Proof using Type. intros ? Hl. unfold len in Hl. rewrite slice_ok by lia. done. Qed.

Lemma chunks_from_tiles b : ∀ fuel pos acc, 0 ≤ pos ≤ len b → (Z.to_nat (len b - pos) < fuel)%nat →
  ∃ cs, chunks_from chunk_hash fuel b pos (len b) acc = Ok (acc ++ cs) ∧ tiles b pos cs ∧
    (cs = [] → pos = len b) ∧
    chunks_of_file chunk_hash fuel (drop (Z.to_nat pos) b) pos (len b) acc = Ok (acc ++ cs).
Proof using Type.
  induction fuel as [|fuel IH]; intros pos acc Hpos Hf; [lia|]. cbn [chunks_from chunks_of_file].
  destruct (Z.ltb_spec pos (len b)).
  2: { exists []. rewrite app_nil_r. split_and!; try done; simpl; lia. }
  set (e := Z.min (pos + CHUNK_SIZE) (len b)). assert (pos < e ≤ len b) by (unfold e, CHUNK_SIZE; lia).
  assert (He : pos + Z.of_nat (Z.to_nat (Z.min (len b - pos) CHUNK_SIZE)) = e) by (unfold e, CHUNK_SIZE; lia).
  set (n := Z.to_nat (Z.min (len b - pos) CHUNK_SIZE)) in *.
  assert (Hn : (n ≤ length (drop (Z.to_nat pos) b))%nat) by (rewrite length_drop; unfold len in *; lia).
  rewrite (proj2 (Nat.leb_le _ _)) by done.
  set (c := mkChunk pos e (chunk_hash_hex chunk_hash (piece b (mkChunk pos e [])))).
  assert (Hc : mkChunk pos (pos + Z.of_nat n) (chunk_hash_hex chunk_hash (take n (drop (Z.to_nat pos) b))) = c).
  { unfold c. rewrite He. do 2 f_equal. unfold piece. cbn [ch_start ch_end]. f_equal. lia. }
  rewrite Hc, He. rewrite (slice_piece b (mkChunk pos e [])) by (simpl; lia). cbn [mbind outcome_bind]. fold c.
  destruct (IH e (acc ++ [c])) as (cs & -> & Ht & _ & Hfile); [lia..|].
  exists (c :: cs). rewrite <-app_assoc. split_and!; [done| |done|].
  - cbn [tiles]. split; [done|]. split; [|done]. unfold fingerprint_of. simpl. split_and!; [lia..|done].
  - rewrite drop_drop. replace (Z.to_nat pos + n)%nat with (Z.to_nat e) by lia. by rewrite Hfile, <-app_assoc.
Qed.

Lemma compute_chunks_tiles b :
  ∃ cs, compute_chunks_from_slice chunk_hash b = Ok cs ∧ compute_chunks chunk_hash b (len b) = Ok cs ∧
    tiles b 0 cs ∧ cs ≠ [].
Proof using Type.
  pose proof (len_nonneg b).
  destruct (chunks_from_tiles b (S (length b)) 0 []) as (cs & Hc & Ht & Hn & Hf); [lia|unfold len; lia|].
  exists (or_empty_chunk chunk_hash cs). unfold compute_chunks_from_slice, compute_chunks.
  change (drop (Z.to_nat 0) b) with b in Hf. rewrite Hc, Hf. split_and!; [done..| |by destruct cs].
  destruct cs as [|c cs]; [|done]. specialize (Hn eq_refl). cbn [or_empty_chunk tiles ch_start ch_end].
  split; [done|]. split; [|done]. unfold fingerprint_of, piece. simpl. split_and!; [lia..|]. by destruct b.
Qed.

(** A size below that of the file takes the chunks of that prefix; a size beyond
    it is an error. *)
Lemma chunks_of_file_take : ∀ fuel fuel' content pos size acc,
  (Z.to_nat (size - pos) < fuel)%nat → (Z.to_nat (size - pos) < fuel')%nat → size - pos ≤ len content →
  chunks_of_file chunk_hash fuel content pos size acc
  = chunks_of_file chunk_hash fuel' (take (Z.to_nat (size - pos)) content) pos size acc.
Proof using Type.
  induction fuel as [|fuel IH]; intros [|fuel'] content pos size acc Hf Hf' Hl; try lia. cbn [chunks_of_file].
  destruct (Z.ltb_spec pos size); [|done].
  set (n := Z.to_nat (Z.min (size - pos) CHUNK_SIZE)). assert (1 ≤ Z.of_nat n ≤ size - pos) by (unfold n, CHUNK_SIZE; lia).
  unfold len in Hl. rewrite !(proj2 (Nat.leb_le _ _)) by (rewrite ?length_take; lia).
  rewrite take_take, Nat.min_l by lia. rewrite (IH fuel'); [|lia..|unfold len; rewrite length_drop; lia].
  rewrite skipn_firstn_comm. do 2 f_equal. lia.
Qed.

Lemma wp_chunks_of_file : ∀ fuel content pos size acc, (length content < fuel)%nat →
  wp (chunks_of_file chunk_hash fuel content pos size acc) (λ _, size - pos ≤ len content) (λ _, True).
Proof using Type.
  induction fuel as [|fuel IH]; intros content pos size acc Hf; [lia|]. cbn [chunks_of_file].
  pose proof (len_nonneg content). destruct (Z.ltb_spec pos size); [|cbn [wp]; lia].
  set (n := Z.to_nat (Z.min (size - pos) CHUNK_SIZE)). assert (1 ≤ Z.of_nat n ≤ size - pos) by (unfold n, CHUNK_SIZE; lia).
  destruct (Nat.leb_spec n (length content)); [|done].
  eapply wp_mono; [apply IH; rewrite length_drop; lia| |done]. unfold len. rewrite length_drop. lia.
Qed.

Lemma wp_compute_chunks content size : 0 ≤ size →
  wp (compute_chunks chunk_hash content size)
    (λ cs, size ≤ len content ∧ compute_chunks chunk_hash (take (Z.to_nat size) content) size = Ok cs) (λ _, True).
Proof using Type.
  intros Hs. unfold compute_chunks.
  pose proof (wp_chunks_of_file (S (length content)) content 0 size [] ltac:(lia)) as Hw.
  destruct (chunks_of_file chunk_hash (S (length content)) content 0 size []) as [cs|e| |] eqn:Hc; try done.
  cbn [wp] in Hw. rewrite Z.sub_0_r in Hw. split; [done|]. unfold len in Hw.
  rewrite (chunks_of_file_take _ (S (length (take (Z.to_nat size) content)))) in Hc;
    [|rewrite ?length_take, Z.sub_0_r; lia..|unfold len; lia].
  rewrite Z.sub_0_r in Hc. by rewrite Hc.
Qed.

(** ** Verifying a tiling *)

Lemma tiles_covered b cs pos : is_u64 (len b) → 0 ≤ pos → tiles b pos cs →
  ∀ acc, 0 ≤ acc ≤ pos → foldl (λ acc c, as_u64 (acc + as_u64 (ch_end c - ch_start c))) acc cs = acc + len b - pos.
Proof using Type.
  intros Hb. revert pos. induction cs as [|c cs IH]; intros pos Hp Ht acc Ha; simpl in *; [lia|].
  destruct Ht as (Hs & (Hr & Hl & _) & Ht). unfold is_u64 in Hb.
  rewrite !as_u64_id by (rewrite ?as_u64_id; unfold is_u64; lia).
  rewrite (IH (ch_end c)); [lia|lia|done|lia].
Qed.

Lemma tiles_all b cs pos : tiles b pos cs → Forall (fingerprint_of b) cs.
Proof using Type. revert pos. induction cs as [|c cs IH]; intros pos; simpl; [done|]. intros (_ & ? & ?%IH). by constructor. Qed.

Lemma expected_hash_of b c : fingerprint_of b c → expected_hash c = Some (chunk_hash (piece b c)).
Proof.
  intros (_ & _ & Hh). unfold expected_hash. rewrite Hh. unfold chunk_hash_hex.
  pose proof (chunk_hash_u64 (piece b c)) as Hu. unfold is_u64 in Hu.
  rewrite from_str_radix_0x by (unfold u64_max; lia). cbn [mbind option_bind].
  by rewrite fmt_0x_length by (change (16 ^ Z.of_nat 16) with (2 ^ 64); lia).
Qed.

(** The fingerprint of [b] holds of [b'] at [c]. *)
Definition matches_at (b b' : bytes) (c : Chunk) : bool := chunk_hash (piece b' c) =? chunk_hash (piece b c).

Lemma verify_each_tiles b b' cs : len b' = len b → Forall (fingerprint_of b) cs →
  verify_each chunk_hash cs b' = Ok (forallb (matches_at b b') cs).
Proof.
  intros Hl. induction 1 as [|c cs Hc _ IH]; [done|]. cbn [verify_each forallb].
  rewrite (expected_hash_of b) by done. destruct Hc as (Hr & He & _).
  rewrite (proj2 (Z.ltb_ge _ _)) by lia. rewrite slice_piece by lia. cbn [mbind outcome_bind].
  unfold matches_at at 1. destruct (chunk_hash (piece b' c) =? _); [done|done].
Qed.

Lemma verify_in_memory_tiles b b' cs : is_u64 (len b) → tiles b 0 cs → cs ≠ [] →
  verify_chunks_in_memory chunk_hash cs b' = Ok (bool_decide (len b' = len b) && forallb (matches_at b b') cs).
Proof.
  intros Hb Ht Hne. pose proof (len_nonneg b). unfold verify_chunks_in_memory, covered. destruct cs as [|c cs]; [done|].
  rewrite (tiles_covered b (c :: cs) 0) by (done || lia). rewrite Z.add_0_l, Z.sub_0_r.
  destruct (Z.eqb_spec (len b) (len b')).
  - rewrite bool_decide_true by done. rewrite (verify_each_tiles b); [done|done|]. by eapply tiles_all.
  - by rewrite bool_decide_false by done.
Qed.

(** The pieces of a tiling determine the content. *)
Lemma tiles_determine b b' cs pos : 0 ≤ pos → len b' = len b → tiles b pos cs →
  Forall (λ c, piece b' c = piece b c) cs → drop (Z.to_nat pos) b' = drop (Z.to_nat pos) b.
Proof using Type.
  intros Hp Hl. revert pos Hp. induction cs as [|c cs IH]; intros pos Hp Ht Hf; simpl in Ht.
  - unfold len in *. rewrite !drop_ge by lia. done.
  - destruct Ht as (Hs & (Hr & He & _) & Ht). inversion Hf as [|?? Hc Hcs]; subst.
    pose proof (IH (ch_end c) ltac:(lia) Ht Hcs) as Hd. unfold piece in Hc.
    rewrite <-(take_drop (Z.to_nat (ch_end c) - Z.to_nat (ch_start c)) (drop (Z.to_nat (ch_start c)) b')).
    rewrite <-(take_drop (Z.to_nat (ch_end c) - Z.to_nat (ch_start c)) (drop (Z.to_nat (ch_start c)) b)).
    rewrite Hc, !drop_drop. f_equal.
    by replace (Z.to_nat (ch_start c) + (Z.to_nat (ch_end c) - Z.to_nat (ch_start c)))%nat with (Z.to_nat (ch_end c)) by lia.
Qed.

(** No two different pieces at the same place have one fingerprint. *)
Definition distinguishes (cs : list Chunk) (b b' : bytes) : Prop :=
  Forall (λ c, chunk_hash (piece b' c) = chunk_hash (piece b c) → piece b' c = piece b c) cs.

Lemma matching_content b b' cs : tiles b 0 cs → distinguishes cs b b' →
  bool_decide (len b' = len b) && forallb (matches_at b b') cs = bool_decide (b' = b).
Proof using Type.
  intros Ht Hd. apply eq_true_iff_eq. rewrite andb_true_iff, !bool_decide_eq_true, forallb_forall. split.
  - intros [Hl Hm]. pose proof (tiles_determine b b' cs 0 ltac:(lia) Hl Ht) as H. cbn in H. apply H.
    unfold distinguishes in Hd. rewrite Forall_forall in Hd |- *. intros c Hc. apply Hd; [done|].
    apply Z.eqb_eq, Hm. by apply list_elem_of_In.
  - intros ->. split; [done|]. intros c _. apply Z.eqb_refl.
Qed.

(** ** The workers *)

(** Positional reads of a file: a non-empty part of what is there, or an error. *)
Definition reads_file (pread : Z → nat → outcome io_error bytes) (b : bytes) : Prop :=
  ∀ off n, 0 ≤ off → match pread off n with
  | Ok p => (length p ≤ n)%nat ∧ (∃ rest, drop (Z.to_nat off) b = p ++ rest) ∧ (p = [] → n = O ∨ len b ≤ off)
  | Err _ => True
  | _ => False
  end.

Lemma read_exact_at_exact pread b : reads_file pread b → is_u64 (len b) →
  ∀ fuel buf n off, (n ≤ fuel)%nat → 0 ≤ off → off + Z.of_nat n ≤ len b →
  wp (read_exact_at pread fuel buf n off) (λ r, r = buf ++ take n (drop (Z.to_nat off) b))
    (λ e, ∃ off n, pread off n = Err e).
Proof using Type.
  intros Hp Hb. induction fuel as [|fuel IH]; intros buf n off Hn Ho Hl.
  { destruct n; [|lia]. simpl. by rewrite app_nil_r. }
  destruct n as [|n]; [simpl; by rewrite app_nil_r|]. cbn [read_exact_at]. apply wp_bind.
  specialize (Hp off (S n) Ho). destruct (pread off (S n)) as [p|e| |] eqn:Hread; try done; cbn [wp]; [|by eauto].
  destruct Hp as (Hlen & [rest Hr] & Hnil). destruct p as [|x p]; [destruct (Hnil eq_refl); lia|].
  assert (Hpos : as_u64 (off + len (x :: p)) = off + len (x :: p)).
  { apply as_u64_id. unfold is_u64, len in *. lia. }
  rewrite Hpos. eapply wp_mono; [apply IH; unfold len in *; cbn [length] in *; lia| |done]. intros r ->.
  rewrite <-app_assoc. f_equal. rewrite Hr.
  replace (Z.to_nat (off + len (x :: p))) with (Z.to_nat off + length (x :: p))%nat by (unfold len; lia).
  rewrite <-drop_drop, Hr, drop_app_length.
  rewrite take_app_ge by done. done.
Qed.

Lemma verify_one_tiles pread b b' cs idx :
  reads_file pread b' → is_u64 (len b') → len b' < 2 ^ 63 → len b' = len b → Forall (fingerprint_of b) cs →
  (idx < length cs)%nat →
  wp (verify_one chunk_hash pread cs ((λ c, chunk_hash (piece b c)) <$> cs) idx)
    (λ r, ∃ c, cs !! idx = Some c ∧ r = matches_at b b' c) (λ e, ∃ off n, pread off n = Err e).
Proof using Type.
  intros Hp Hb Hmax Hl Hf Hi. destruct (lookup_lt_is_Some_2 cs idx Hi) as [c Hc].
  rewrite Forall_lookup in Hf. destruct (Hf _ _ Hc) as (Hr & He & _). unfold is_u64 in Hb.
  unfold verify_one, index. rewrite Hc. cbn [or_panic mbind outcome_bind].
  rewrite as_u64_id by (unfold is_u64; lia). rewrite (proj2 (Z.leb_gt _ _)) by lia.
  apply wp_bind. eapply wp_mono; [apply (read_exact_at_exact pread b'); try done; lia| |done].
  intros r ->. rewrite list_lookup_fmap, Hc. simpl. exists c. split; [done|]. unfold matches_at, piece.
  do 2 f_equal. f_equal. lia.
Qed.

Definition pending (v : Verify) : list nat := flat_map (λ w, match current w with Some i => [i] | None => [] end ++ todo w) (workers v).

Lemma pending_insert ws i w w' : ws !! i = Some w →
  let pend w := match current w with Some i => [i] | None => [] end ++ todo w in
  ∃ pre post, flat_map pend ws = pre ++ pend w ++ post ∧ flat_map pend (<[i := w']> ws) = pre ++ pend w' ++ post.
Proof using Type.
  intros Hw pend. exists (flat_map pend (take i ws)), (flat_map pend (drop (S i) ws)).
  rewrite <-(take_drop_middle ws i w Hw) at 1. rewrite insert_take_drop by by eapply lookup_lt_Some.
  rewrite !flat_map_app. by simpl.
Qed.

Section run.
Variables (pread : Z → nat → outcome io_error bytes) (b b' : bytes) (cs : list Chunk).
Hypotheses (Hpread : reads_file pread b') (Hmax : len b' < 2 ^ 63) (Hlen : len b' = len b).
Hypothesis Hcs : Forall (fingerprint_of b) cs.
Abbreviation decoded := ((λ c, chunk_hash (piece b c)) <$> cs).

(** What is known while the workers run. *)
Definition verify_inv (v : Verify) : Prop :=
  panicked v = false ∧ Forall (λ i, (i < length cs)%nat) (pending v) ∧
  (mismatch v = false → ∀ i c, cs !! i = Some c → i ∈ pending v ∨ matches_at b b' c = true) ∧
  (mismatch v = true → (∃ c, c ∈ cs ∧ matches_at b b' c = false) ∨ ∃ off n e, pread off n = Err e).

Lemma worker_step_inv v i v1 :
  verify_inv v → worker_step chunk_hash pread cs decoded v i = Some v1 → verify_inv v1.
Proof.
  intros (Hpan & Hpend & Hclear & Hset) Hstep. unfold worker_step in Hstep.
  destruct (workers v !! i) as [w|] eqn:Hw; [|done]. cbn [mbind option_bind] in Hstep.
  assert (Hins : ∀ w', ∃ pre post,
    pending v = pre ++ (match current w with Some i => [i] | None => [] end ++ todo w) ++ post ∧
    flat_map (λ w, match current w with Some i => [i] | None => [] end ++ todo w) (<[i := w']> (workers v))
    = pre ++ (match current w' with Some i => [i] | None => [] end ++ todo w') ++ post)
    by (intros w'; by apply pending_insert).
  destruct (current w) as [idx|] eqn:Hcur.
  - assert (Hidx : (idx < length cs)%nat).
    { destruct (Hins w) as (pre & post & Hp & _). rewrite Hp in Hpend.
      rewrite Forall_app in Hpend. destruct Hpend as [_ Hpend]. by inversion Hpend. }
    pose proof (verify_one_tiles pread b b' cs idx Hpread) as Hone.
    specialize (Hone ltac:(unfold is_u64; pose proof (len_nonneg b'); lia) Hmax Hlen Hcs Hidx).
    destruct (verify_one _ _ _ _ idx) as [[|]|e| |]; try done; cbn [wp] in Hone; injection Hstep as <-.
    + destruct (Hins (mkWorker None (todo w))) as (pre & post & Hp & Hp'). unfold verify_inv, pending. cbn [panicked mismatch workers].
      rewrite Hp'. rewrite Hp in Hpend, Hclear. split_and!; [done| | |done].
      * rewrite !Forall_app in Hpend |- *. cbn. destruct Hpend as (? & (? & ?) & ?). auto.
      * intros Hm j c Hj. destruct (Hclear Hm j c Hj) as [Hin|]; [|by right]. destruct (decide (j = idx)) as [->|Hne].
        { right. destruct Hone as (c' & Hc' & Hok). rewrite Hj in Hc'. injection Hc' as <-. by symmetry. }
        left. clear -Hin Hne. cbn in *. set_solver.
    + destruct (Hins (mkWorker None [])) as (pre & post & Hp & Hp'). unfold verify_inv, pending. cbn [panicked mismatch workers].
      rewrite Hp'. rewrite Hp in Hpend. split_and!; [done| |done|].
      * rewrite !Forall_app in Hpend |- *. cbn. destruct Hpend as (? & (? & ?) & ?). auto.
      * intros _. left. destruct Hone as (c & Hc & Hok). exists c. split; [by eapply list_elem_of_lookup_2|by symmetry].
    + destruct (Hins (mkWorker None [])) as (pre & post & Hp & Hp'). unfold verify_inv, pending. cbn [panicked mismatch workers].
      rewrite Hp'. rewrite Hp in Hpend. split_and!; [done| |done|].
      * rewrite !Forall_app in Hpend |- *. cbn. destruct Hpend as (? & (? & ?) & ?). auto.
      * intros _. right. destruct Hone as (off & n & Hr). eauto.
  - destruct (todo w) as [|idx rest] eqn:Htodo; [done|]. injection Hstep as <-.
    destruct (mismatch v) eqn:Hm.
    + destruct (Hins (mkWorker None [])) as (pre & post & Hp & Hp'). unfold verify_inv, pending. cbn [panicked mismatch workers].
      rewrite Hp'. rewrite Hp in Hpend. split_and!; [done| |done|done].
      rewrite !Forall_app in Hpend |- *. cbn. destruct Hpend as (? & (? & ?) & ?). auto.
    + destruct (Hins (mkWorker (Some idx) rest)) as (pre & post & Hp & Hp'). unfold verify_inv, pending. cbn [panicked mismatch workers].
      rewrite Hp'. rewrite Hp in Hpend, Hclear. by split_and!.
Qed.

Lemma verify_steps_inv v v' : verify_inv v → verify_steps chunk_hash pread cs decoded v v' → verify_inv v'.
Proof. intros Hv. induction 1; [done|]. eauto using worker_step_inv. Qed.

Lemma finished_pending v : finished v → pending v = [].
Proof.
  unfold finished, pending. induction 1 as [|w ws Hw _ IH]; [done|]. simpl. rewrite IH.
  unfold worker_finished in Hw. by destruct (current w), (todo w).
Qed.

(** Whatever the interleaving, the answer is that of the sequential check. *)
Lemma verify_finished v : verify_inv v → finished v →
  verify_answer v = Ok (forallb (matches_at b b') cs) ∨
  (verify_answer v = Ok false ∧ ∃ off n e, pread off n = Err e).
Proof.
  intros (Hpan & _ & Hclear & Hset) Hfin. unfold verify_answer. rewrite Hpan.
  destruct (mismatch v).
  - destruct (Hset eq_refl) as [(c & Hc & Hm)|]; [|by right]. left. do 2 f_equal. symmetry. apply not_true_iff_false.
    intros Hall. rewrite forallb_forall in Hall. rewrite Hall in Hm; [done|]. by apply list_elem_of_In.
  - left. do 2 f_equal. symmetry. apply forallb_forall. intros c Hc%list_elem_of_In.
    apply list_elem_of_lookup in Hc as [i Hi]. destruct (Hclear eq_refl i c Hi) as [Hin|]; [|done].
    rewrite (finished_pending v Hfin) in Hin. set_solver.
Qed.

(** A worker that is not finished can step, and every step uses up fuel. *)
Definition worker_fuel (w : Worker) : nat := (match current w with Some _ => 1 | None => 0 end + 2 * length (todo w))%nat.
Definition verify_fuel (v : Verify) : nat := sum_list (worker_fuel <$> workers v).

Lemma sum_fuel_insert (ws : list Worker) i w w' : ws !! i = Some w →
  (sum_list (worker_fuel <$> <[i := w']> ws) + worker_fuel w = sum_list (worker_fuel <$> ws) + worker_fuel w')%nat.
Proof using Type.
  revert i. induction ws as [|x ws IH]; intros [|i] Hi; csimpl in *; try done; [injection Hi as ->; lia|].
  specialize (IH i Hi). lia.
Qed.

Lemma worker_step_fuel v i v1 :
  worker_step chunk_hash pread cs decoded v i = Some v1 → (verify_fuel v1 < verify_fuel v)%nat.
Proof using Type.
  unfold worker_step. destruct (workers v !! i) as [w|] eqn:Hw; [|done]. cbn [mbind option_bind].
  intros Hstep. unfold verify_fuel.
  assert (Hdec : ∀ w', (worker_fuel w' < worker_fuel w)%nat →
    (sum_list (worker_fuel <$> <[i := w']> (workers v)) < sum_list (worker_fuel <$> workers v))%nat).
  { intros w' Hlt. pose proof (sum_fuel_insert _ i w w' Hw). lia. }
  unfold worker_fuel in Hdec at 1 2.
  destruct (current w) eqn:Hc; [|destruct (todo w) eqn:Ht; [done|]].
  - destruct (verify_one _ _ _ _ _) as [[]| | |]; injection Hstep as <-; apply Hdec; simpl; lia.
  - injection Hstep as <-. apply Hdec. destruct (mismatch v); simpl; lia.
Qed.

Lemma unfinished_steps v : ¬ finished v → ∃ i v1, worker_step chunk_hash pread cs decoded v i = Some v1.
Proof using Type.
  intros Hn. assert (∃ i w, workers v !! i = Some w ∧ worker_finished w = false) as (i & w & Hw & Hu).
  { unfold finished in Hn. apply not_Forall_Exists in Hn; [|apply _].
    apply Exists_exists in Hn as (w & [i Hi]%list_elem_of_lookup & Hw). exists i, w. split; [done|].
    apply not_true_iff_false. intros He. apply Hw. by rewrite He. }
  exists i. unfold worker_step. rewrite Hw. cbn [mbind option_bind]. unfold worker_finished in Hu.
  destruct (current w); [|destruct (todo w); [done|]; eauto]. destruct (verify_one _ _ _ _ _) as [[]| | |]; eauto.
Qed.

(** Every run comes to an end, whatever the scheduler does. *)
Lemma verify_terminates n v : (verify_fuel v < n)%nat →
  ∃ v', verify_steps chunk_hash pread cs decoded v v' ∧ finished v'.
Proof using Type.
  revert v. induction n as [|n IH]; intros v Hn; [lia|].
  destruct (decide (Forall (λ w, Is_true (worker_finished w)) (workers v))) as [Hf|Hf].
  { exists v. split; [constructor|done]. }
  destruct (unfinished_steps v Hf) as (i & v1 & Hstep). pose proof (worker_step_fuel _ _ _ Hstep).
  destruct (IH v1) as (v' & Hs & Hfin); [lia|]. exists v'. split; [by econstructor|done].
Qed.
End run.
End laws.

(** ** The order is a permutation *)

Lemma swap_perm l i j : (i < length l)%nat → (j < length l)%nat → ∃ l', swap l i j = Ok l' ∧ l' ≡ₚ l ∧ length l' = length l.
Proof.
  intros Hi Hj. destruct (lookup_lt_is_Some_2 l i Hi) as [a Ha], (lookup_lt_is_Some_2 l j Hj) as [b Hb].
  unfold swap, index. rewrite Ha, Hb. simpl. eexists. split; [done|]. split; [|by rewrite !length_insert].
  destruct (decide (i = j)) as [->|Hne].
  { rewrite Ha in Hb. injection Hb as <-. rewrite !list_insert_id; [done|done|]. by rewrite list_lookup_insert_eq. }
  by apply Permutation_insert_swap.
Qed.

Lemma shuffle_perm is_ : ∀ st l, Forall (λ i, (i < length l)%nat) is_ → ∃ l', shuffle is_ st l = Ok l' ∧ l' ≡ₚ l.
Proof.
  induction is_ as [|i is_ IH]; intros st l Hi; [by exists l|]. cbn [shuffle].
  apply Forall_cons in Hi as [Hi His]. set (j := Z.to_nat (xorshift st mod (Z.of_nat i + 1))).
  assert (j ≤ i)%nat by (unfold j; pose proof (Z.mod_pos_bound (xorshift st) (Z.of_nat i + 1)); lia).
  destruct (swap_perm l i j) as (l1 & -> & Hp & Hl); [lia..|]. cbn [mbind outcome_bind].
  destruct (IH (xorshift st) l1) as (l' & Hs & Hp'); [by rewrite Hl|]. exists l'. split; [done|]. by rewrite Hp'.
Qed.

(** Every fingerprint is checked once, whatever the seed. *)
Lemma priority_order_perm now pid n : ∃ order, priority_order now pid n = Ok order ∧ order ≡ₚ seq 0 n.
Proof.
  unfold priority_order. destruct (Nat.eqb_spec n 0) as [->|]; [by exists []|].
  destruct (Nat.leb_spec n 2); [by exists (seq 0 n)|].
  set (st := if _ =? 0 then _ else _).
  destruct (shuffle_perm (rev (seq 1 (length (seq 1 (n - 2)) - 1))) st (seq 1 (n - 2))) as (m & Hm & Hp).
  { apply Forall_forall. intros i Hi%list_elem_of_In%in_rev%in_seq. rewrite length_seq in *. lia. }
  rewrite Hm. cbn [mbind outcome_bind]. eexists. split; [done|].
  rewrite take_drop, Hp. replace n with (S (S (n - 2))) at 3 by lia. rewrite seq_S.
  replace (S (n - 2)) with (1 + (n - 2))%nat by lia. cbn [seq app].
  replace (n - 1)%nat with (1 + (n - 2))%nat by lia. constructor. rewrite Permutation_cons_append.
  by replace (0 + S (n - 2))%nat with (1 + (n - 2))%nat by lia.
Qed.

(** ** The fingerprints of a content *)

Section exact.
Variable chunk_hash : bytes → Z.
Hypothesis chunk_hash_u64 : ∀ b, is_u64 (chunk_hash b).
#[local] Set Default Proof Using "Type*".

Lemma decode_tiles b cs : Forall (fingerprint_of chunk_hash b) cs →
  decode_all_hashes cs = Some ((λ c, chunk_hash (piece b c)) <$> cs).
Proof.
  intros Hf. apply mapM_Some. induction Hf as [|c cs Hc _ IH]; [constructor|].
  constructor; [by apply expected_hash_of|done].
Qed.

Lemma initial_pending order : pending (initial_workers order) = order.
Proof using Type.
  unfold pending, initial_workers. cbn [workers].
  etrans; [|apply (concat_chunks_of (Nat.max ((length order + VERIFY_PARALLELISM - 1) / VERIFY_PARALLELISM) 1)); lia].
  generalize (chunks_of (Nat.max ((length order + VERIFY_PARALLELISM - 1) / VERIFY_PARALLELISM) 1) order) as ss.
  induction ss as [|s ss IH]; [done|]. csimpl. by rewrite IH.
Qed.

Lemma initial_inv pread b b' cs order : order ≡ₚ seq 0 (length cs) →
  verify_inv chunk_hash pread b b' cs (initial_workers order).
Proof using Type.
  intros Hp. split_and!; [done| | |done].
  - rewrite initial_pending, Hp. apply Forall_forall. intros i Hi%elem_of_seq. lia.
  - intros _ i c Hi. left. rewrite initial_pending, Hp. apply elem_of_seq. apply lookup_lt_Some in Hi. lia.
Qed.

Lemma verify_runs_exact pread now pid b b' cs answer :
  reads_file pread b' → len b' < 2 ^ 63 → is_u64 (len b) → tiles chunk_hash b 0 cs → cs ≠ [] →
  verify_chunks_runs chunk_hash pread now pid cs (len b') answer →
  answer = Ok (bool_decide (len b' = len b) && forallb (matches_at chunk_hash b b') cs) ∨
  (answer = Ok false ∧ ∃ off n e, pread off n = Err e).
Proof.
  intros Hr Hmax Hb Ht Hne Hrun. unfold verify_chunks_runs, verify_chunks_start in Hrun.
  destruct cs as [|c0 cs0] eqn:Hcs; [done|]. rewrite <-Hcs in *. clear Hne.
  unfold covered in Hrun. rewrite (tiles_covered chunk_hash b cs 0) in Hrun by (done || lia).
  rewrite Z.add_0_l, Z.sub_0_r in Hrun. destruct (Z.eqb_spec (len b) (len b')) as [Hl|]; cbn [negb] in Hrun.
  2: { rewrite bool_decide_false by congruence. by left. }
  rewrite bool_decide_true by done. pose proof (tiles_all chunk_hash _ _ _ Ht) as Hf. rewrite (decode_tiles b) in Hrun by done.
  destruct (priority_order_perm now pid (length cs)) as (order & Ho & Hp). rewrite Ho in Hrun.
  cbn [mbind outcome_bind] in Hrun. destruct Hrun as (v' & Hs & Hfin & ->).
  apply (verify_finished chunk_hash chunk_hash_u64 pread b b' cs); try done.
  eapply verify_steps_inv; [done..|by apply initial_inv|done].
Qed.

Lemma verify_runs_exist pread now pid b cs file_size :
  Forall (fingerprint_of chunk_hash b) cs → ∃ answer, verify_chunks_runs chunk_hash pread now pid cs file_size answer.
Proof.
  intros Hf. unfold verify_chunks_runs, verify_chunks_start.
  destruct cs as [|c0 cs0] eqn:Hcs; [by eauto|]. rewrite <-Hcs in *.
  destruct (negb _); [by eauto|]. rewrite (decode_tiles b) by done.
  destruct (priority_order_perm now pid (length cs)) as (order & Ho & _). rewrite Ho. cbn [mbind outcome_bind].
  destruct (verify_terminates chunk_hash pread b cs _ (initial_workers order) (Nat.lt_succ_diag_r _)) as (v' & Hs & Hfin).
  by exists (verify_answer v'), v'.
Qed.

(** C12. A clean-cache hit means that the content is unchanged: the fingerprints
    of a content, taken from memory or from its file, verify a content in memory
    exactly when it is the same (if no two different pieces of the two collide),
    and so do the workers under every interleaving and seed, a read error
    counting as a mismatch; and the workers always finish. *)
Theorem clean_cache_exact b :
  is_u64 (len b) →
  ∃ cs, compute_chunks_from_slice chunk_hash b = Ok cs ∧ compute_chunks chunk_hash b (len b) = Ok cs ∧
    ∀ b', distinguishes chunk_hash cs b b' →
      verify_chunks_in_memory chunk_hash cs b' = Ok (bool_decide (b' = b)) ∧
      ∀ pread now pid, reads_file pread b' → len b' < 2 ^ 63 →
        (∃ answer, verify_chunks_runs chunk_hash pread now pid cs (len b') answer) ∧
        ∀ answer, verify_chunks_runs chunk_hash pread now pid cs (len b') answer →
          answer = Ok (bool_decide (b' = b)) ∨ (answer = Ok false ∧ ∃ off n e, pread off n = Err e).
Proof.
  intros Hb. destruct (compute_chunks_tiles chunk_hash b) as (cs & Hm & Hfile & Ht & Hne).
  exists cs. split; [done|]. split; [done|]. intros b' Hd.
  rewrite <-(matching_content chunk_hash b b' cs Ht Hd). split; [by apply verify_in_memory_tiles|].
  intros pread now pid Hr Hmax. split; [apply (verify_runs_exist _ _ _ b); by eapply tiles_all|].
  intros answer. by apply verify_runs_exact.
Qed.
End exact.

(** A toy hash: the sum of the bytes. *)
Definition toy_hash (b : bytes) : Z := as_u64 (sumZ (byte_to_Z <$> b)).
Definition toy_pread (b : bytes) (off : Z) (n : nat) : outcome io_error bytes := Ok (take (Nat.min n 2) (drop (Z.to_nat off) b)).

Lemma clean_cache_exact_witness :
  ∃ cs, compute_chunks_from_slice toy_hash (lit "abc") = Ok cs ∧
    verify_chunks_in_memory toy_hash cs (lit "abd") = Ok false ∧
    ∀ answer, verify_chunks_runs toy_hash (toy_pread (lit "abc")) 5 7 cs 3 answer → answer = Ok true.
Proof.
  destruct (clean_cache_exact toy_hash (λ b, as_u64_range _) (lit "abc")) as (cs & Hm & _ & H).
  { vm_compute. split; [discriminate|reflexivity]. }
  exists cs. split; [exact Hm|]. assert (Hcs : cs = [mkChunk 0 3 (lit "0000000000000126")]).
  { vm_compute in Hm. injection Hm as <-. reflexivity. }
  subst cs. split.
  - destruct (H (lit "abd")) as [Hv _]; [constructor; [intros Hc; vm_compute in Hc; discriminate Hc|constructor]|].
    rewrite Hv. reflexivity.
  - intros answer Hrun. destruct (H (lit "abc")) as [_ Hv]; [constructor; [reflexivity|constructor]|].
    destruct (Hv (toy_pread (lit "abc")) 5 7) as [_ Ha].
    + intros off n Hoff. unfold toy_pread. split; [rewrite length_take; lia|]. split.
      * exists (drop (Nat.min n 2) (drop (Z.to_nat off) (lit "abc"))). by rewrite take_drop.
      * intros Hnil. apply (f_equal length) in Hnil. rewrite length_take, length_drop in Hnil. unfold len. simpl in *. lia.
    + reflexivity.
    + destruct (Ha answer Hrun) as [->|(_ & off & n & e & He)]; [reflexivity|discriminate He].
Defined.
