(* ===== verification/Config.v ===== *)
(** * Configuration of the client and where its objects live

    [crates/git-bale/src/config.rs] and the paths of [store.rs].  The
    environment and the git configuration are functions from names to values;
    a value is one that decodes as Unicode. *)

From stdpp Require Import list.
From S2P Require Import Prelude RustStd.

(** ** Paths (Unix) *)

Definition is_absolute (p : str) : bool := starts_with p (lit "/").
(** [Path::join]. *)
Definition join (a b : str) : str :=
  if is_absolute b then b
  else match last a with
  | None => b
  | Some c => if decide (c = x2f) then a ++ b else a ++ lit "/" ++ b
  end.

(** ** Sources *)

(** What a process reads: its environment, and the repository that
    [gix::discover] finds with a view of its configuration. *)
Record Sources := mkSources {
  env_var : str → option str;
  git_repo : option (str * (str → option str));
}.

Definition snapshot (s : Sources) : option (str → option str) := snd <$> git_repo s.

Record RawConfig := mkRawConfig {
  server_url : option str;
  token : option str;
  token_expiration : option Z;
  cache_dir : str;
  git_dir : option str;
  local_mode : bool;
  local_store : option str;
  local_shared : bool;
  ssh_command : option str;
}.

Record BaleConfig := mkBaleConfig {
  b_server_url : str;
  b_token : str;
  b_token_expiration : Z;
  b_cache_dir : str;
  b_git_dir : option str;
}.

Definition env_nonempty (s : Sources) (key : str) : option str :=
  match env_var s key with Some [] | None => None | Some v => Some v end.

Definition env_or_cfg (s : Sources) (env_key key : string) : option str :=
  match env_nonempty s (lit env_key) with
  | Some v => Some v
  | None =>
      snap ← snapshot s;
      v ← snap (lit key);
      match trim v with [] => None | trimmed => Some trimmed end
  end.

Definition to_ascii_lowercase (v : str) : str :=
  (λ c, if in_range c 65 90 then byte_of_Z (byte_to_Z c + 32) else c) <$> v.

Definition bool_from (s : Sources) (env_key key : string) : bool :=
  match env_or_cfg s env_key key with
  | Some v => bool_decide (to_ascii_lowercase (trim v) ∈ [lit "1"; lit "true"; lit "yes"; lit "on"])
  | None => false
  end.

Definition home_dir (s : Sources) : option str := env_nonempty s (lit "HOME").
Definition cache_base (s : Sources) : option str := (λ h, join h (lit ".cache")) <$> home_dir s.

Definition resolve_cache_dir (s : Sources) : outcome str str :=
  let chunks b := join (join b (lit "bale")) (lit "chunks") in
  match env_nonempty s (lit "BALE_CACHE_DIR") with
  | Some v => Ok v
  | None =>
      let configured := snap ← snapshot s; raw ← snap (lit "bale.cacheDir");
                        match trim raw with [] => None | trimmed => Some trimmed end in
      match configured with
      | Some p => Ok p
      | None =>
          match env_nonempty s (lit "XDG_CACHE_HOME") with
          | Some xdg => Ok (chunks xdg)
          | None => ok_or (lit "can't derive a default cache dir: set BALE_CACHE_DIR or bale.cacheDir")
                      (chunks <$> cache_base s)
          end
      end
  end.

Definition expand_tilde (s : Sources) (p : str) : str :=
  let rest := match strip_prefix p (lit "~/") with
              | Some rest => Some rest
              | None => if decide (p = lit "~") then Some [] else None
              end in
  match rest, home_dir s with
  | Some [], Some home => home
  | Some rest, Some home => join home rest
  | _, _ => p
  end.

(** [RawConfig::load] at the directory whose sources are [s]. *)
Definition RawConfig_load (s : Sources) : outcome str RawConfig :=
  let server_url := env_or_cfg s "BALE_SERVER_URL" "bale.serverUrl" in
  let token := env_or_cfg s "BALE_TOKEN" "bale.token" in
  token_expiration ← match env_or_cfg s "BALE_TOKEN_EXPIRATION" "bale.tokenExpiration" with
    | Some v => match parse_u64 v with
                | Some n => Ok (Some n)
                | None => Err (lit "bale.tokenExpiration must be a unix timestamp")
                end
    | None => Ok None
    end;
  let local_mode := bool_from s "BALE_LOCAL" "bale.local" in
  let local_shared := bool_from s "BALE_LOCAL_SHARED" "bale.localShared" in
  let local_store := expand_tilde s <$> env_or_cfg s "BALE_LOCAL_STORE" "bale.localStore" in
  let ssh_command := env_or_cfg s "GIT_SSH_COMMAND" "core.sshCommand" in
  cache_dir ← resolve_cache_dir s;
  mret (mkRawConfig server_url token token_expiration cache_dir (fst <$> git_repo s) local_mode local_store
          local_shared ssh_command).

(** A hundred years after [now]. *)
Definition far_future_epoch (now : Z) : Z := as_u64 (Z.max 0 now + 100 * 365 * 24 * 60 * 60).

Definition BaleConfig_load (now : Z) (s : Sources) : outcome str BaleConfig :=
  raw ← RawConfig_load s;
  server_url ← ok_or (lit "bale.serverUrl is unset; set it with `git config bale.serverUrl <url>` or BALE_SERVER_URL")
    (server_url raw);
  token ← ok_or (lit "bale.token is unset; set it with `git config bale.token <jwt>` or BALE_TOKEN") (token raw);
  mret (mkBaleConfig server_url token
    (match token_expiration raw with Some t => t | None => far_future_epoch now end) (cache_dir raw) (git_dir raw)).

(** ** The object store of a repository *)

Definition default_local_store (git_dir : str) : str := join (join git_dir (lit "bale")) (lit "store").
Definition staging_root (git_dir : str) : str := join (join git_dir (lit "bale")) (lit "staging").

Definition object_store_root (raw : RawConfig) : outcome str str :=
  if local_mode raw then
    match local_store raw with
    | Some p => Ok p
    | None =>
        git_dir ← ok_or (lit "local mode needs a git repo or an explicit bale.localStore") (git_dir raw);
        mret (default_local_store git_dir)
    end
  else
    git_dir ← ok_or (lit "no git directory resolved from cwd") (git_dir raw);
    mret (staging_root git_dir).

Definition registry_dir (store_root : str) : str := join store_root (lit "repos").

Definition absolutize (cwd p : str) : str := if is_absolute p then p else join cwd p.

(** [git_dir_of_cwd] is what [gix::discover] finds. *)
Definition resolve_init_store (s : Sources) (cwd : str) (explicit : option str) (shared : bool) : outcome str str :=
  match explicit with
  | Some p => Ok (absolutize cwd (expand_tilde s p))
  | None =>
      if shared then
        let home := expand_tilde s (lit "~") in
        if decide (home = lit "~") then Err (lit "cannot resolve ~ for default shared store; pass --store")
        else Ok (join home (lit "bale-local"))
      else
        git_dir ← ok_or (lit "opening repo at " ++ cwd) (fst <$> git_repo s);
        mret (default_local_store git_dir)
  end.

(** [Path::parent] and [Path::file_name] of a path without trailing slash or dots. *)
Definition parent (p : str) : str :=
  match rsplit_once p x2f with Some ([], _) => lit "/" | Some (d, _) => d | None => [] end.
Definition file_name (p : str) : str := match rsplit_once p x2f with Some (_, n) => n | None => p end.

(** The lock file is a sibling of the store. *)
Definition lock_path (store : str) : str := join (parent store) (lit "." ++ file_name store ++ lit ".lock").

(** ** The command line's cache root and scope ([main.rs]) *)

Definition cache_home_fallback (s : Sources) : option str := (λ h, join h (lit ".cache")) <$> env_var s (lit "HOME").

(** [HF_XET_CACHE] after [set_default_xet_cache_root]. *)
Definition set_default_xet_cache_root (s : Sources) : option str :=
  match env_var s (lit "BALE_XET_CACHE") with
  | Some bale_cache => Some bale_cache
  | None =>
      match env_var s (lit "HF_XET_CACHE") with
      | Some v => Some v
      | None =>
          base ← match env_var s (lit "XDG_CACHE_HOME") with Some b => Some b | None => cache_home_fallback s end;
          Some (join (join base (lit "bale")) (lit "xet"))
      end
  end.

Inductive InstallScope := Global | System | Local.
Definition pick_scope (system local : bool) : InstallScope :=
  if local then Local else if system then System else Global.
Definition describe_scope (s : InstallScope) : str :=
  match s with
  | Global => lit "global config"
  | System => lit "system config"
  | Local => lit "local config"
  end.
