(* ===== verification/PathFacts.v ===== *)
(** * Names and directories of paths

    What [join], [parent] and [file_name] of [Config] keep. *)

From stdpp Require Import list.
From S2P Require Import Prelude RustStd RustText Config.

Lemma rsplit_once_Some p c a b : rsplit_once p c = Some (a, b) → p = a ++ c :: b ∧ c ∉ b.
Proof.
  unfold rsplit_once. destruct (split_once (rev p) c) as [[x y]|] eqn:H; [|done]. cbn. intros [= <- <-].
  apply split_once_Some in H as [H Hn]. split; [|by rewrite list_elem_of_In, <-in_rev, <-list_elem_of_In].
  rewrite <-(rev_involutive p), H, rev_app_distr. cbn. by rewrite <-app_assoc.
Qed.

Lemma file_name_plain p : x2f ∉ file_name p.
Proof.
  unfold file_name. destruct (rsplit_once p x2f) as [[a b]|] eqn:H; [by apply rsplit_once_Some in H as [_ H]|].
  unfold rsplit_once in H. destruct (split_once (rev p) x2f) as [[x y]|] eqn:Hs; [done|].
  apply split_once_None in Hs. by rewrite list_elem_of_In, in_rev, <-list_elem_of_In.
Qed.

Lemma file_name_join d n : x2f ∉ n → file_name (join d n) = n.
Proof.
  intros Hn. unfold join. assert (is_absolute n = false) as ->.
  { unfold is_absolute. destruct n as [|c n]; [done|]. cbn. rewrite bool_decide_false; [done|]. intros <-. set_solver. }
  unfold file_name. destruct (last d) as [c|] eqn:Hd; [|by rewrite rsplit_once_None].
  destruct (decide (c = x2f)) as [->|].
  - apply last_Some in Hd as [d' ->]. rewrite <-app_assoc. cbn [app]. by rewrite rsplit_once_app.
  - change (d ++ lit "/" ++ n) with (d ++ x2f :: n). by rewrite rsplit_once_app.
Qed.

(** Distinct plain names in one directory are distinct paths. *)
Lemma join_inj d n n' : x2f ∉ n → x2f ∉ n' → join d n = join d n' → n = n'.
Proof. intros Hn Hn' H. apply (f_equal file_name) in H. by rewrite !file_name_join in H. Qed.
