(* ===== verification/Repo.v ===== *)
(** * The state a repository keeps under its [bale] directory

    [crates/git-bale/src/{pointer, staging, fs_util, clean_cache, manifest_cache,
    local_reconstruct}.rs]: markers of staged files, the object store, the clean
    cache and the cached manifests.  Every call of the file system may fail. *)

From stdpp Require Import gmap list sorting.
From S2P Require Import Prelude RustStd Pktline CleanCache Config.

(** ** Cached manifests *)

Record CachedTerm := mkCachedTerm { ct_xorb_hash : str; ct_chunk_start : Z; ct_chunk_end : Z; ct_unpacked_length : Z }.
Record CachedManifest := mkCachedManifest { cm_v : Z; cm_terms : list CachedTerm }.

(** ** What the crates provide

    xet-core's pointers, hashes, chunk cache and local store, the JSON of the
    files under the bale directory, BLAKE3 of a path and xxh3 of a chunk. *)
Class Crates := {
  XetFileInfo : Type;
  info_new : str → Z → XetFileInfo;
  info_hash : XetFileInfo → str;
  info_size : XetFileInfo → option Z;
  info_from_json : str → outcome str XetFileInfo;
  info_to_json_pretty : XetFileInfo → outcome str str;
  MerkleHash : Type;
  info_merkle : XetFileInfo → outcome str MerkleHash;
  merkle_from_hex : str → outcome str MerkleHash;
  merkle_hex : MerkleHash → str;
  json_hash : str → option str;
  entry_from_json : bytes → option CacheEntry;
  entry_to_json : CacheEntry → outcome str bytes;
  manifest_from_json : bytes → option CachedManifest;
  manifest_to_json_pretty : CachedManifest → outcome str bytes;
  path_key : str → str;
  xxh3 : bytes → Z;
  (** Clean a content into a local store; reconstruct a file from one: the
      answer and what was written. *)
  xet_clean : gmap str bytes → bytes → outcome str XetFileInfo * gmap str bytes;
  xet_download : gmap str bytes → XetFileInfo → Z → outcome str unit * bytes;
  ChunkCache : Type;
  cache_get : ChunkCache → MerkleHash → Z → Z → outcome str (option bytes);
}.

(** ** State *)

Record marker := mkMarker { mk_body : bytes; mk_mtime : Z }.

Record Repo := mkRepo {
  markers : gmap str marker;          (* regular files of staging/file-index *)
  objects : gmap str bytes;           (* files of the object store, by name *)
  clean_cache : gmap str bytes;       (* files of clean-cache *)
  manifests : gmap str bytes;         (* files of manifests *)
  bale_mode : option Z;               (* permission bits of the bale directory *)
  store_present : bool;               (* the directory of the object store exists *)
  clock : Z;                          (* seconds; may run behind a file's time *)
  faults : list (option str);         (* what the next calls report *)
}.

Definition set_markers m r := mkRepo m (objects r) (clean_cache r) (manifests r) (bale_mode r) (store_present r) (clock r) (faults r).
Definition set_objects m r := mkRepo (markers r) m (clean_cache r) (manifests r) (bale_mode r) (store_present r) (clock r) (faults r).
Definition set_clean_cache m r := mkRepo (markers r) (objects r) m (manifests r) (bale_mode r) (store_present r) (clock r) (faults r).
Definition set_manifests m r := mkRepo (markers r) (objects r) (clean_cache r) m (bale_mode r) (store_present r) (clock r) (faults r).
Definition set_bale_mode m r := mkRepo (markers r) (objects r) (clean_cache r) (manifests r) m (store_present r) (clock r) (faults r).
Definition pop_fault r :=
  mkRepo (markers r) (objects r) (clean_cache r) (manifests r) (bale_mode r) (store_present r) (clock r) (tail (faults r)).
Definition set_store_present b r :=
  mkRepo (markers r) (objects r) (clean_cache r) (manifests r) (bale_mode r) b (clock r) (faults r).

Abbreviation R := (ST Repo io_error).

(** One call: it fails, or it takes effect. *)
Definition call {A} (f : Repo → outcome io_error A * Repo) : R A := λ r,
  match default None (head (faults r)) with
  | Some m => (Err (IoFailed m), pop_fault r)
  | None => f (pop_fault r)
  end.
Definition reading {A} (f : Repo → A) : R A := call (λ r, (Ok (f r), r)).
Definition writing (f : Repo → Repo) : R unit := call (λ r, (Ok tt, f r)).
(** [let _ = m], and a failure that is only logged. *)
Definition ignore {A} (m : R A) : R (option A) := λ r,
  match m r with
  | (Ok a, r') => (Ok (Some a), r')
  | (Err _, r') => (Ok None, r')
  | (Panic, r') => (Panic, r')
  | (Diverged, r') => (Diverged, r')
  end.
(** [unwrap_or]. *)
Definition or_else {A} (d : A) (m : R A) : R A := o ← ignore m; mret (default d o).

(** ** Pointers *)

Definition POINTER_MAX_BYTES : Z := 4096.
Definition POINTER_SENTINEL : str := [x22] ++ lit "hash" ++ [x22].

Inductive PointerError := TooLarge | NotAPointer | PointerJson (m : str).
Definition PointerError_display (e : PointerError) : str :=
  match e with
  | TooLarge => lit "input exceeds pointer size cap of 4096 bytes"
  | NotAPointer => lit "input does not contain a `hash` key; not a bale pointer"
  | PointerJson m => m
  end.

Section pointers.
Context {C : Crates}.

Definition encode_pointer_string (info : XetFileInfo) : outcome PointerError str :=
  s ← map_err PointerJson (info_to_json_pretty info);
  mret (s ++ [x0a]).

Definition parse_pointer (b : bytes) : outcome PointerError XetFileInfo :=
  if POINTER_MAX_BYTES <? len b then Err TooLarge
  else
    text ← map_err (λ _, NotAPointer) (from_utf8 b);
    if negb (str_contains text POINTER_SENTINEL) then Err NotAPointer
    else map_err PointerJson (info_from_json (trim text)).
End pointers.

(** [windows(6).any(..)] of the first bytes. *)
Definition looks_like_pointer (b : bytes) : bool :=
  if POINTER_MAX_BYTES <? len b then false
  else str_contains (take (Nat.min (length b) 64) b) POINTER_SENTINEL.

(** ** The bale directory *)

Definition fresh_dir_mode : Z := 493. (* 0o755, the usual umask *)
Definition restrict_bale_perms : R unit :=
  mode ← reading bale_mode;
  match mode with
  | Some m => if Z.land m 511 =? 448 then mret tt else writing (set_bale_mode (Some 448))
  | None => throw (IoFailed (lit "No such file or directory"))
  end.
Definition create_bale_subdir : R unit :=
  _ ← writing (λ r, set_bale_mode (Some (default fresh_dir_mode (bale_mode r))) r);
  restrict_bale_perms.

(** ** Markers *)

Definition is_64_lower_hex (s : str) : bool :=
  (length s =? 64)%nat && forallb (λ c, is_digit c || in_range c 97 102) s.

(** [File::create] truncates, then the body is written. *)
Definition mark_file_staged (file_hex : str) (file_size : Z) : R unit :=
  _ ← create_bale_subdir;
  _ ← writing (λ r, set_markers (<[file_hex := mkMarker [] (clock r)]> (markers r)) r);
  writing (λ r, set_markers (<[file_hex := mkMarker (to_string file_size) (clock r)]> (markers r)) r).

Definition file_is_staged (file_hex : str) : Repo → bool := λ r, bool_decide (is_Some (markers r !! file_hex)).

(** [None]: absent or not readable. *)
Definition marker_mtime (file_hex : str) : R (option Z) :=
  o ← ignore (reading (λ r, mk_mtime <$> markers r !! file_hex));
  mret (default None o).

Definition touch_marker_if_exists (file_hex : str) : R bool :=
  present ← reading (file_is_staged file_hex);
  if present : bool then
    _ ← writing (λ r, set_markers (alter (λ m, mkMarker (mk_body m) (clock r)) file_hex (markers r)) r);
    mret true
  else mret false.

(** The order of names, byte by byte. *)
Fixpoint str_le (a b : str) : bool :=
  match a, b with
  | [], _ => true
  | _ :: _, [] => false
  | x :: a, y :: b => (byte_to_Z x <? byte_to_Z y) || ((byte_to_Z x =? byte_to_Z y) && str_le a b)
  end.

(** An unreadable body counts as an empty one. *)
Definition read_size (name : str) : R (option Z) :=
  body ← ignore (reading (λ r, mk_body <$> markers r !! name));
  let buf := match body with Some (Some b) => if utf8_valid b then b else [] | _ => [] end in
  mret (parse_u64 (trim buf)).

Definition list_staged_files : R (list (str * option Z)) :=
  names ← reading (λ r, (map_to_list (markers r)).*1);
  out ← fold_st (λ out name,
    if is_64_lower_hex name then size ← read_size name; mret (out ++ [(name, size)]) else mret out) [] names;
  mret (merge_sort (λ a b, Is_true (str_le a.1 b.1)) out).

Definition clear_file_markers : R unit := writing (set_markers ∅).
Definition remove_marker (file_hex : str) : R unit := writing (λ r, set_markers (delete file_hex (markers r)) r).

(** ** Objects *)

Definition is_xorb_filename (name : str) : bool :=
  match strip_prefix name (lit "default.") with Some h => is_64_lower_hex h | None => false end.
Definition is_shard_filename (name : str) : bool :=
  match strip_suffix name (lit ".mdb") with Some h => is_64_lower_hex h | None => false end.
Definition is_object_name (name : str) : bool := is_xorb_filename name || is_shard_filename name.

(** A file that cannot be removed stays. *)
Definition remove_object (name : str) : R unit :=
  _ ← ignore (writing (λ r, set_objects (delete name (objects r)) r)); mret tt.
Definition remove_all_staged_objects : R unit :=
  names ← reading (λ r, (map_to_list (objects r)).*1);
  for_each (λ name, if is_object_name name then remove_object name else mret tt) names.

(** ** The clean cache *)
Section cache.
Context {C : Crates}.

Definition cache_load (key : str) : R (option CacheEntry) :=
  file ← reading (λ r, clean_cache r !! key);
  mret (b ← file; entry ← entry_from_json b;
        if ce_v entry =? CURRENT_VERSION then Some entry else None).

(** The temporary file is complete before it is renamed over the entry. *)
Definition cache_save (key : str) (entry : CacheEntry) : R unit :=
  _ ← create_bale_subdir;
  _ ← writing id;
  body ← lift (map_err InvalidData (entry_to_json entry));
  _ ← writing id;
  _ ← writing id;
  writing (λ r, set_clean_cache (<[key := body]> (clean_cache r)) r).

Definition entry_names (hashes : gset str) (b : bytes) : bool :=
  match (entry ← entry_from_json b; json_hash (ce_pointer entry)) with
  | Some h => bool_decide (h ∈ hashes)
  | None => false
  end.

Definition forget_hashes (hashes : gset str) : R nat :=
  if bool_decide (hashes = ∅) then mret 0%nat
  else
    names ← reading (λ r, (map_to_list (clean_cache r)).*1);
    fold_st (λ removed name,
      file ← ignore (reading (λ r, clean_cache r !! name));
      match file with
      | Some (Some b) =>
          if entry_names hashes b
          then _ ← writing (λ r, set_clean_cache (delete name (clean_cache r)) r); mret (S removed)
          else mret removed
      | _ => mret removed
      end) 0%nat names.
End cache.

(** ** Files of manifests *)

Definition MANIFEST_VERSION : Z := 1.

Section manifests.
Context {C : Crates}.

Definition manifest_file (file_id_hex : str) : str := file_id_hex ++ lit ".json".

Definition manifest_load (file_id_hex : str) : R (option CachedManifest) :=
  file ← reading (λ r, manifests r !! manifest_file file_id_hex);
  mret (b ← file; m ← manifest_from_json b;
        if cm_v m =? MANIFEST_VERSION then Some m else None).

Definition manifest_save (file_id_hex : str) (m : CachedManifest) : R unit :=
  _ ← create_bale_subdir;
  _ ← writing id;
  body ← lift (map_err InvalidData (manifest_to_json_pretty m));
  _ ← writing id;
  _ ← writing id;
  _ ← writing id;
  writing (λ r, set_manifests (<[manifest_file file_id_hex := body ++ [x0a]]> (manifests r)) r).
End manifests.

(** ** Reconstruction from the chunk cache *)

Inductive CacheReconstructOutcome := Wrote (n : Z) | Miss.

Section reconstruct.
Context {C : Crates}.

(** A miss may come after some bytes were written to [out], the fresh temporary file. *)
Fixpoint try_terms (cache : ChunkCache) (terms : list CachedTerm) (out : bytes) (written : Z) : ST Repo str (CacheReconstructOutcome * bytes) :=
  match terms with
  | [] => mret (Wrote written, out)
  | term :: terms =>
      hash ← lift (map_err (λ e, lit "malformed xorb hash " ++ ct_xorb_hash term ++ lit ": " ++ e)
               (merkle_from_hex (ct_xorb_hash term)));
      match cache_get cache hash (ct_chunk_start term) (ct_chunk_end term) with
      | Ok (Some data) =>
          if negb (len data =? ct_unpacked_length term) then mret (Miss, out)
          else
            _ ← st_map_err io_error_text (writing id);
            try_terms cache terms (out ++ data) (as_u64 (written + len data))
      | Ok None | Err _ => mret (Miss, out)
      | Panic => lift Panic
      | Diverged => lift Diverged
      end
  end.

Definition try_reconstruct_from_cache (cache : ChunkCache) (m : CachedManifest) (expected_size : Z) : ST Repo str (CacheReconstructOutcome * bytes) :=
  '(o, out) ← try_terms cache (cm_terms m) [] 0;
  match o with
  | Miss => mret (Miss, out)
  | Wrote written => if negb (written =? expected_size) then mret (Miss, out) else mret (Wrote written, out)
  end.
End reconstruct.

(** ** The store lock

    A blocking acquisition opens the lock file and waits for it; waiting for
    another process is not modelled, its failures are. *)
Definition acquire_exclusive : R unit := _ ← writing id; _ ← writing id; writing id.
(** [held]: another process has the lock. *)
Definition try_exclusive (held : bool) : R bool := _ ← writing id; _ ← writing id; _ ← writing id; mret (negb held).
