(* ===== verification/Filter.v ===== *)
(** * The long-running filter

    [crates/git-bale/src/filter_process.rs]: git's filter protocol over two
    pipes, clean requests through the clean cache, smudge requests through the
    caches, the staging area or the network.  xet-core's sessions, the chunk
    cache and the resolver's network are parameters. *)

From stdpp Require Import gmap list.
From S2P Require Import Prelude RustStd Pktline CleanCache Config Repo.

Definition SMUDGE_PAYLOAD_CAP : Z := POINTER_MAX_BYTES + 4096.
Definition CLEAN_PAYLOAD_CAP : Z := 128 * 1024 * 1024 * 1024.
Definition DRAIN_PAYLOAD_CAP : Z := 64 * 1024 * 1024.
Definition VERSION : str := lit "version=2".
Definition MAX_INLINE_CLEAN : Z := 4 * 1024 * 1024 * 1024.

(** [BALE_MAX_INLINE_CLEAN] overrides. *)
Definition max_inline_clean (env : option str) : Z :=
  match (v ← env; parse_u64 v) with Some n => n | None => MAX_INLINE_CLEAN end.

(** ** The watchdog of a cold download

    What its loop observes: the download ends, or a poll of the byte counter. *)
Inductive dl_event := Finished (r : outcome str unit) | Poll (written : Z).

Definition STALL_POLL : Z := 2.
Definition DEFAULT_DOWNLOAD_STALL_SECS : Z := 30.
Definition cold_download_stall_secs (env : option str) : Z :=
  match (v ← env; parse_u64 v) with Some n => n | None => DEFAULT_DOWNLOAD_STALL_SECS end.

Definition stalled (label : str) (stall_secs : Z) : str :=
  lit "download of '" ++ label ++ lit "' stalled: no data received for " ++ to_string stall_secs ++
  lit "s. The bale storage server is unreachable or misconfigured — check your network connection, or contact the repository administrator.".

Fixpoint watch (label : str) (stall_secs last_seen idle : Z) (events : list dl_event) : outcome str unit :=
  match events with
  | [] => Diverged
  | Finished r :: _ => r
  | Poll cur :: events =>
      if last_seen <? cur then watch label stall_secs cur 0 events
      else
        let idle := idle + STALL_POLL in
        if stall_secs <=? idle then Err (stalled label stall_secs)
        else watch label stall_secs last_seen idle events
  end.

(** [stall_secs] zero: wait for the end. *)
Fixpoint wait_finished (events : list dl_event) : outcome str unit :=
  match events with
  | [] => Diverged
  | Finished r :: _ => r
  | Poll _ :: events => wait_finished events
  end.

Definition download_cold (label : str) (stall_secs : Z) (events : list dl_event) : outcome str unit :=
  if stall_secs =? 0 then wait_finished events else watch label stall_secs 0 0 events.

(** ** State *)
(** What a session meets outside: the runtime, the chunk cache's directory, the
    network (authentication, a download and what its watchdog sees, a manifest),
    and the answer of verification workers, one that [verify_chunks_runs] allows. *)
Class Environment `{Crates} := {
  runtime_new : outcome str unit;
  get_cache : outcome str unit;
  resolve_read : outcome str (str * str * Z);
  build_translator : BaleConfig → outcome str unit;
  net_download : BaleConfig → ChunkCache → XetFileInfo → Z → list dl_event * bytes * ChunkCache;
  get_reconstruction_v1 : BaleConfig → MerkleHash → outcome str (option (list (MerkleHash * Z * Z * Z)));
  verify_file : list Chunk → bytes → outcome io_error bool;
}.

Section filter.
Context {C : Crates} {Env : Environment}.

Record Filter := mkFilter {
  pipe : Pipe;
  repo : Repo;
  runtime : bool;
  smudge_cfg : option BaleConfig;
  chunks : ChunkCache;
}.
Definition set_pipe p (f : Filter) := mkFilter p (repo f) (runtime f) (smudge_cfg f) (chunks f).
Definition set_repo r (f : Filter) := mkFilter (pipe f) r (runtime f) (smudge_cfg f) (chunks f).
Definition set_runtime b (f : Filter) := mkFilter (pipe f) (repo f) b (smudge_cfg f) (chunks f).
Definition set_smudge_cfg c (f : Filter) := mkFilter (pipe f) (repo f) (runtime f) c (chunks f).
Definition set_chunks c (f : Filter) := mkFilter (pipe f) (repo f) (runtime f) (smudge_cfg f) c.

Abbreviation F := (ST Filter str).

(** [?] on a call of the pipe or the file system, and [.context(..)?]. *)
Definition on_pipe {A} (m : P A) : F A := st_map_err io_error_text (zoom pipe set_pipe m).
Definition on_repo {A} (m : R A) : F A := st_map_err io_error_text (zoom repo set_repo m).
Definition context {A} (c : str) (m : F A) : F A := st_map_err (λ e, c ++ lit ": " ++ e) m.
Definition on_repo_str {A} (m : ST Repo str A) : F A := zoom repo set_repo m.
Definition attempt {A} (m : F A) : F (A + str) := λ f,
  match m f with
  | (Ok a, f') => (Ok (inl a), f')
  | (Err e, f') => (Ok (inr e), f')
  | (Panic, f') => (Panic, f')
  | (Diverged, f') => (Diverged, f')
  end.

(** ** Protocol *)

Definition status_success : list str := [lit "status=success"].

Definition handshake : F unit :=
  welcome ← on_pipe read_text;
  if decide (welcome = lit "git-filter-client") then
    versions ← on_pipe read_text_list;
    if bool_decide (VERSION ∈ versions)
    then on_pipe (write_text_list [lit "git-filter-server"; VERSION])
    else throw (lit "git does not support version=2")
  else throw (lit "invalid filter-process welcome message").

Definition required : list str := [lit "capability=clean"; lit "capability=smudge"].
Definition negotiate_capabilities : F unit :=
  supported ← on_pipe read_text_list;
  _ ← for_each (λ req, if bool_decide (req ∈ supported) then mret tt
                       else throw (lit "git does not advertise " ++ req)) required;
  on_pipe (write_text_list required).

Definition parse_headers (l : list str) : list (str * str) := omap (λ line, split_once line x3d) l.
Definition header_value (name : string) (dflt : str) (map : list (str * str)) : str :=
  match list_find (λ kv, kv.1 = lit name) map with Some (_, kv) => kv.2 | None => dflt end.

Definition drain_payload : F unit := _ ← on_pipe (read_binary_to DRAIN_PAYLOAD_CAP); mret tt.

Definition report_request_error (op : string) (e : str) : F unit :=
  _ ← on_pipe (write_text_list [lit "status=error"; lit "error=" ++ lit op ++ lit " failed: " ++ e]);
  on_pipe flush_packet.

Definition ensure_runtime : F unit :=
  b ← gets runtime;
  if b : bool then mret tt
  else _ ← context (lit "starting xet runtime") (lift runtime_new); modify (set_runtime true).

(** ** Clean *)

Inductive CleanPayload := InMemory (b : bytes) | Spilled (content : bytes).
Definition payload_bytes (p : CleanPayload) : bytes := match p with InMemory b | Spilled b => b end.

(** A packet goes to the buffer, or to the temporary file once that exists. *)
Definition drain_clean_step (max_inline : Z) (st : CleanPayload * Z) : F (CleanPayload * Z + CleanPayload * Z) :=
  let '(payload, total) := st in
  p ← on_pipe read_packet;
  match p with
  | Flush => mret (inr (payload, total))
  | Data b =>
      let n := len b in
      if CLEAN_PAYLOAD_CAP <? saturating_add total n
      then throw (lit "pkt-line payload exceeded cap of " ++ to_string CLEAN_PAYLOAD_CAP ++ lit " bytes")
      else
        payload ← match payload with
          | Spilled f => _ ← on_repo (writing id); mret (Spilled (f ++ b))
          | InMemory buf =>
              if max_inline <? saturating_add (len buf) n then
                _ ← on_repo (writing id); _ ← on_repo (writing id); _ ← on_repo (writing id);
                mret (Spilled (buf ++ b))
              else mret (InMemory (buf ++ b))
          end;
        mret (inl (payload, as_u64 (total + n)))
  | other => throw (lit "expected pkt-line data or flush in clean payload, got " ++ Packet_debug other)
  end.

Definition drain_clean_payload (max_inline : Z) : F (CleanPayload * Z) := λ f,
  (r ← loop_st (S (length (incoming (pipe f)))) (drain_clean_step max_inline) (InMemory [], 0);
   _ ← match r.1 with Spilled _ => on_repo (writing id) | InMemory _ => mret tt end;
   mret r) f.

Definition respond (content : bytes) : F unit :=
  _ ← on_pipe (write_text_list status_success);
  _ ← on_pipe (write_all_then_flush content);
  on_pipe (write_text_list status_success).

(** The session of [bridge_sync]: clean, finalize, encode the pointer. *)
Definition clean_session (content : bytes) : F (str * str) := λ f,
  let '(r, objects') := xet_clean (objects (repo f)) content in
  (info ← lift r;
   s ← lift (map_err PointerError_display (encode_pointer_string info));
   mret (s, info_hash info)) (set_repo (set_objects objects' (repo f)) f).

Definition prepare_store : F unit :=
  _ ← context (lit "creating staging dir") (on_repo create_bale_subdir);
  context (lit "creating object store") (on_repo (writing (set_store_present true))).

Definition save_entry (key : str) (file_size : Z) (cs : list Chunk) (pointer : str) : F unit :=
  _ ← on_repo (ignore (cache_save key (mkCacheEntry CURRENT_VERSION file_size cs pointer)));
  mret tt.

Definition handle_clean_in_memory (b : bytes) (key : str) (file_size : Z) : F unit :=
  _ ← prepare_store;
  cs ← lift (map_err io_error_text (compute_chunks_from_slice xxh3 b));
  '(pointer_string, file_hex) ← clean_session b;
  _ ← on_repo (ignore (mark_file_staged file_hex file_size));
  _ ← respond pointer_string;
  save_entry key file_size cs pointer_string.

Definition handle_clean (tmp : bytes) (key : str) (file_size : Z) : F unit :=
  _ ← prepare_store;
  '(pointer_string, file_hex) ← clean_session tmp;
  _ ← on_repo (ignore (mark_file_staged file_hex file_size));
  _ ← respond pointer_string;
  read ← on_repo (ignore (_ ← writing id; lift (compute_chunks xxh3 tmp file_size)));
  match read with
  | Some cs => save_entry key file_size cs pointer_string
  | None => mret tt
  end.

(** Whether an entry describes the payload; a failed verification does not. *)
Definition verified (entry : CacheEntry) (payload : CleanPayload) (file_size : Z) : F bool :=
  if negb (ce_size entry =? file_size) then mret false
  else match payload with
  | InMemory buf => lift (map_err io_error_text (verify_chunks_in_memory xxh3 (ce_chunks entry) buf))
  | Spilled tmp =>
      ok ← on_repo (ignore (_ ← writing id; lift (verify_file (ce_chunks entry) tmp)));
      mret (default false ok)
  end.

Definition cache_hit (entry : CacheEntry) : F unit :=
  _ ← context (lit "locking object store for clean-cache hit") (on_repo acquire_exclusive);
  _ ← match parse_pointer (ce_pointer entry) with
      | Ok info => _ ← on_repo (ignore (touch_marker_if_exists (info_hash info))); mret tt
      | Err _ => mret tt
      | Panic => lift Panic
      | Diverged => lift Diverged
      end;
  respond (ce_pointer entry).

Definition full_clean (payload : CleanPayload) (key : str) (file_size : Z) : F unit :=
  _ ← ensure_runtime;
  _ ← context (lit "locking object store for clean") (on_repo acquire_exclusive);
  match payload with
  | InMemory buf => handle_clean_in_memory buf key file_size
  | Spilled tmp => handle_clean tmp key file_size
  end.

(** What [do_clean] does once the payload is in. *)
Definition clean_payload (raw : RawConfig) (pathname : str) (payload : CleanPayload) (file_size : Z) : F unit :=
  _ ← lift (ok_or (lit "clean: cannot stage upload — no git directory resolved from cwd") (git_dir raw));
  _ ← context (lit "resolving object store root") (lift (object_store_root raw));
  let key := path_key pathname in
  cached ← on_repo (ignore (cache_load key));
  match cached with
  | Some (Some entry) =>
      hit ← verified entry payload file_size;
      if hit : bool then cache_hit entry else full_clean payload key file_size
  | _ => full_clean payload key file_size
  end.

Definition do_clean (max_inline : Z) (raw : RawConfig) (pathname : str) : F unit :=
  '(payload, file_size) ← drain_clean_payload max_inline;
  clean_payload raw pathname payload file_size.

(** ** Smudge

    The temporary file is its bytes; a reopened handle writes from the start
    over what is there. *)

Definition over (written tmp : bytes) : bytes := written ++ drop (length written) tmp.

(** 64 lower-case hex digits. *)
Definition is_safe_file_id (s : str) : bool := is_64_lower_hex s.

Definition resolve_cached (raw : RawConfig) : F BaleConfig :=
  slot ← gets smudge_cfg;
  match slot with
  | Some cfg => mret cfg
  | None =>
      r ← lift resolve_read;
      let '(url, tok, exp) := r in
      let cfg := mkBaleConfig url tok exp (cache_dir raw) (git_dir raw) in
      _ ← modify (set_smudge_cfg (Some cfg));
      mret cfg
  end.

(** What was written stays in the file, also when the download fails. *)
Definition try_smudge_from_store (info : XetFileInfo) (file_size : Z) (tmp : bytes) : F ((bool + str) * bytes) :=
  present ← on_repo (ignore (reading store_present));
  if negb (default false present) then mret (inl false, tmp)
  else
    reopened ← attempt (on_repo (writing id));
    match reopened with
    | inr e => mret (inr e, tmp)
    | inl _ =>
        objs ← gets (λ f, objects (repo f));
        let '(r, written) := xet_download objs info file_size in
        match r with
        | Ok _ => mret (inl true, over written tmp)
        | Err e => mret (inr e, over written tmp)
        | Panic => lift Panic
        | Diverged => lift Diverged
        end
    end.

Definition truncate : F unit := _ ← on_repo (writing id); _ ← on_repo (writing id); on_repo (writing id).

(** [fetch_manifest]: the content-addressed part of the answer. *)
Definition fetch_manifest (cfg : BaleConfig) (file_id : MerkleHash) : outcome str CachedManifest :=
  response ← map_err (λ e, lit "fetching reconstruction manifest for " ++ merkle_hex file_id ++ lit ": " ++ e)
    (get_reconstruction_v1 cfg file_id);
  terms ← ok_or (lit "server returned no reconstruction for " ++ merkle_hex file_id) response;
  mret (mkCachedManifest MANIFEST_VERSION
    ((λ t, let '(h, a, b, n) := t in mkCachedTerm (merkle_hex h) a b n) <$> terms)).

Definition populate_clean_cache_from_smudge (pathname : str) (content pointer_bytes : bytes) (file_size : Z) : F unit :=
  if negb (utf8_valid pointer_bytes) then mret tt
  else
    read ← on_repo (ignore (_ ← writing id; lift (compute_chunks xxh3 content file_size)));
    match read with
    | Some cs => save_entry (path_key pathname) file_size cs pointer_bytes
    | None => mret tt
    end.

(** The file is read in pieces of the maximal payload, each of which may fail to
    be read after the success line was sent. *)
Definition finish_smudge (tmp : bytes) : F unit :=
  _ ← on_pipe (write_text_list status_success);
  _ ← on_repo (writing id);
  _ ← for_each (λ piece, _ ← on_repo (writing id); on_pipe (write_binary piece)) (chunks_of MAX_PKT_PAYLOAD tmp);
  _ ← on_repo (writing id);
  _ ← on_pipe flush_packet;
  on_pipe (write_text_list status_success).

(** The hot path: whether the caches hold the file, and the temporary file. *)
Definition from_caches (raw : RawConfig) (file_id_hex : str) (file_size : Z) : F (bool * bytes) :=
  match git_dir raw with
  | None => mret (false, [])
  | Some _ =>
      loaded ← on_repo (ignore (manifest_load file_id_hex));
      match loaded with
      | Some (Some manifest) =>
          _ ← on_repo (writing id);
          cache ← gets chunks;
          '(o, out) ← on_repo_str (try_reconstruct_from_cache cache manifest file_size);
          mret (match o with Wrote _ => true | Miss => false end, out)
      | _ => mret (false, [])
      end
  end.

(** The lukewarm path, gated on the marker. *)
Definition from_staging (raw : RawConfig) (info : XetFileInfo) (file_size : Z) (cache_hit : bool) (tmp : bytes)
    : F (bool * bytes) :=
  staged ← (if negb cache_hit && negb (local_mode raw) && bool_decide (is_Some (git_dir raw))
            then on_repo (or_else false (reading (file_is_staged (info_hash info)))) else mret false);
  if staged : bool then
    '(r, tmp) ← try_smudge_from_store info file_size tmp;
    mret (match r with inl b => b | inr _ => false end, tmp)
  else mret (false, tmp).

Definition from_local_store (raw : RawConfig) (info : XetFileInfo) (file_size : Z) : F bytes :=
  store ← context (lit "resolving object store root") (lift (object_store_root raw));
  _ ← truncate;
  '(r, tmp) ← try_smudge_from_store info file_size [];
  match r with
  | inr e => throw (lit "reconstructing " ++ info_hash info ++ lit " from local store: " ++ e)
  | inl ok =>
      written ← on_repo (or_else 0 (reading (λ _, len tmp)));
      if negb ok || negb (written =? file_size)
      then throw (lit "local store at " ++ store ++ lit " cannot reconstruct " ++ info_hash info ++ lit " (" ++
        to_string written ++ lit " of " ++ to_string file_size ++ lit " bytes); the object data is missing — was this repo copied without its store, or the store pruned?")
      else mret tmp
  end.

(** The cold path: the temporary file, and whether the answer stops there. *)
Definition from_network (stall_secs : Z) (raw : RawConfig) (pathname : str) (info : XetFileInfo) (file_size : Z)
    : F (bytes * bool) :=
  _ ← truncate;
  cfg ← resolve_cached raw;
  _ ← lift (build_translator cfg);
  _ ← on_repo (writing id);
  cache ← gets chunks;
  let '(events, written, cache') := net_download cfg cache info file_size in
  _ ← modify (set_chunks cache');
  _ ← lift (download_cold pathname stall_secs events);
  match git_dir raw with
  | None => mret (written, false)
  | Some _ =>
      match info_merkle info with
      | Ok merkle =>
          match fetch_manifest cfg merkle with
          | Ok manifest =>
              _ ← on_repo (ignore (manifest_save (info_hash info) manifest));
              mret (written, false)
          | Err _ => mret (written, false)
          | Panic => lift Panic
          | Diverged => lift Diverged
          end
      | Err _ => mret (written, true)
      | Panic => lift Panic
      | Diverged => lift Diverged
      end
  end.

Definition populate_and_finish (raw : RawConfig) (pathname : str) (tmp pointer_buf : bytes) (file_size : Z) : F unit :=
  _ ← match git_dir raw with
      | Some _ => populate_clean_cache_from_smudge pathname tmp pointer_buf file_size
      | None => mret tt
      end;
  finish_smudge tmp.

Definition handle_smudge (stall_secs : Z) (raw : RawConfig) (pathname : str) : F unit :=
  '(pointer_buf, _) ← on_pipe (read_binary_to SMUDGE_PAYLOAD_CAP);
  info ← context (lit "smudge: input is not a bale pointer")
    (lift (map_err PointerError_display (parse_pointer pointer_buf)));
  file_size ← lift (ok_or (lit "bale pointer missing file_size") (info_size info));
  if negb (is_safe_file_id (info_hash info))
  then throw (lit "bale pointer hash is not lowercase hex (got " ++ to_string (len (info_hash info)) ++ lit " chars)")
  else
    _ ← context (lit "init chunk cache at " ++ cache_dir raw) (lift get_cache);
    _ ← on_repo (writing id);
    '(cache_hit, tmp) ← from_caches raw (info_hash info) file_size;
    '(staging_hit, tmp) ← from_staging raw info file_size cache_hit tmp;
    if local_mode raw && negb cache_hit then
      tmp ← from_local_store raw info file_size;
      populate_and_finish raw pathname tmp pointer_buf file_size
    else if negb cache_hit && negb staging_hit then
      '(tmp, stop) ← from_network stall_secs raw pathname info file_size;
      if stop : bool then finish_smudge tmp else populate_and_finish raw pathname tmp pointer_buf file_size
    else populate_and_finish raw pathname tmp pointer_buf file_size.

(** ** The loop *)

Definition serve_request (max_inline stall_secs : Z) (raw : RawConfig) (headers : list str) : F unit :=
  let map := parse_headers headers in
  let command := header_value "command" [] map in
  let pathname := header_value "pathname" (lit "<unknown>") map in
  if decide (command = lit "clean") then
    r ← attempt (do_clean max_inline raw pathname);
    match r with inl _ => mret tt | inr e => report_request_error "clean" e end
  else if decide (command = lit "smudge") then
    _ ← ensure_runtime;
    r ← attempt (handle_smudge stall_secs raw pathname);
    match r with inl _ => mret tt | inr e => report_request_error "smudge" e end
  else
    _ ← drain_payload;
    _ ← on_pipe (write_text_list [lit "status=error"; lit "error=unknown command " ++ [x22] ++ command ++ [x22]]);
    on_pipe flush_packet.

(** The list of headers, or the end of the session. *)
Definition next_headers : F (option (list str)) := λ f,
  match zoom pipe set_pipe read_text_list f with
  | (Ok [], f') => (Ok None, f')
  | (Ok headers, f') => (Ok (Some headers), f')
  | (Err UnexpectedEof, f') => (Ok None, f')
  | (Err e, f') => (Err (io_error_text e), f')
  | (Panic, f') => (Panic, f')
  | (Diverged, f') => (Diverged, f')
  end.

Definition session_step (max_inline stall_secs : Z) (raw : RawConfig) (_ : unit) : F (unit + unit) :=
  headers ← next_headers;
  match headers with
  | None => mret (inr tt)
  | Some headers => _ ← serve_request max_inline stall_secs raw headers; mret (inl tt)
  end.

Definition serve_session (max_inline stall_secs : Z) (raw : RawConfig) : F unit := λ f,
  loop_st (S (length (incoming (pipe f)))) (session_step max_inline stall_secs raw) tt f.
Definition run (max_inline stall_secs : Z) (raw : RawConfig) : F unit :=
  _ ← handshake;
  _ ← negotiate_capabilities;
  serve_session max_inline stall_secs raw.
End filter.
