(* ===== verification/FilterSpec.v ===== *)
(** * Clean and smudge, together

    In local mode a clean answers with a pointer that denotes the content in the
    object store, from the clean cache or not, and a smudge of such a pointer
    answers the content.  [spec] is the triple of the filter's calls: they come
    back, keep the invariant of the repository and lose no object, and an error
    has a cause. *)

From stdpp Require Import gmap list.
From S2P Require Import Prelude RustStd Pktline CleanCache Config Repo Filter.

(** ** What the crates promise *)

Class CrateLaws `{C : Crates} := {
  xxh3_u64 b : is_u64 (xxh3 b);
  info_size_u64 info n : info_size info = Some n → is_u64 n;
  (** Cleaning adds the content under a lower-case hash, and loses none. *)
  xet_clean_adds o c : match xet_clean o c with
    | (Ok info, o') =>
        info_size info = Some (len c) ∧ is_64_lower_hex (info_hash info) = true ∧
        xet_download o' info (len c) = (Ok tt, c) ∧
        ∀ s, info_to_json_pretty info = Ok s →
          len (s ++ [x0a]) ≤ POINTER_MAX_BYTES ∧ utf8_valid (s ++ [x0a]) = true ∧
          str_contains (s ++ [x0a]) POINTER_SENTINEL = true ∧ info_from_json (trim (s ++ [x0a])) = Ok info
    | (Err _, _) => True
    | _ => False
    end;
  xet_clean_keeps o c info n b :
    xet_download o info n = (Ok tt, b) → xet_download (xet_clean o c).2 info n = (Ok tt, b);
  entry_json e b : entry_to_json e = Ok b → entry_from_json b = Some e;
  (** The other calls come back. *)
  pointer_json_returns info : returned (info_to_json_pretty info);
  pointer_parse_returns s : returned (info_from_json s);
  entry_json_returns e : returned (entry_to_json e);
  manifest_json_returns m : returned (manifest_to_json_pretty m);
  merkle_from_returns s : returned (merkle_from_hex s);
  merkle_of_returns info : returned (info_merkle info);
  cache_get_returns k h a b : returned (cache_get k h a b);
  (** A download of [n] bytes writes at most that many. *)
  xet_download_bound o info n b : 0 ≤ n → xet_download o info n = (Ok tt, b) → len b ≤ n;
  xet_download_returns o info n : returned (xet_download o info n).1;
}.

(** Verification workers answer, of fingerprints, what some schedule of them answers. *)
Class EnvironmentLaws `{Env : Environment} := {
  verify_file_runs c cs b : is_u64 (len c) → compute_chunks xxh3 c (len c) = Ok cs → len b < 2 ^ 63 →
    ∃ pread now pid, reads_file pread b ∧ verify_chunks_runs xxh3 pread now pid cs (len b) (verify_file cs b);
  runtime_new_returns : returned runtime_new;
  get_cache_returns : returned get_cache;
  resolve_read_returns : returned resolve_read;
  build_translator_returns cfg : returned (build_translator cfg);
  get_reconstruction_returns cfg h : returned (get_reconstruction_v1 cfg h);
}.

Abbreviation F := (ST Filter str).

(** ** Calls that change no data *)
Section steps.
Context {C : Crates} {Env : Environment}.
Implicit Types f : Filter.

(** The data the filter answers from is the same. *)
Record same_repo (r r' : Repo) : Prop := {
  sr_objects : objects r' = objects r;
  sr_cache : clean_cache r' = clean_cache r;
  sr_manifests : manifests r' = manifests r;
  sr_store : store_present r = true → store_present r' = true;
  sr_faults : faults r = [] → faults r' = [];
}.
#[export] Instance same_repo_preorder : PreOrder same_repo.
Proof.
  split; [done|]. intros r1 r2 r3 [O1 C1 F1 S1 E1] [O2 C2 F2 S2 E2]. split; try congruence; auto.
Qed.

(** [quiet E m]: the data stays; without a pending fault, an error implies [E]. *)
Definition quiet {A} (E : Prop) (m : R A) : Prop :=
  ∀ r, wps m r (λ _ r', same_repo r r') (λ _ r', same_repo r r' ∧ (faults r = [] → E)).
(** [reads m g]: moreover the answer is [g] of the data. *)
Definition reads {A} (m : R A) (g : Repo → A) : Prop :=
  ∀ r, wps m r (λ a r', same_repo r r' ∧ a = g r) (λ _ r', same_repo r r' ∧ faults r ≠ []).

Lemma pop_fault_nil r : faults r = [] → faults (pop_fault r) = [].
Proof. by intros Hr; simpl; rewrite Hr. Qed.
Lemma same_pop r : same_repo r (pop_fault r).
Proof. split; try done. apply pop_fault_nil. Qed.

Lemma reads_reading {A} (g : Repo → A) : (∀ r, g (pop_fault r) = g r) → reads (reading g) g.
Proof.
  intros Hg r. unfold wps, reading, call. destruct (default None (head (faults r))) eqn:Hf.
  - split; [apply same_pop|]. intros Hn. by rewrite Hn in Hf.
  - split; [apply same_pop|apply Hg].
Qed.
Lemma quiet_writing g : (∀ r, same_repo r (g r)) → quiet False (writing g).
Proof.
  intros Hg r. unfold wps, writing, call. destruct (default None (head (faults r))) eqn:Hf.
  - split; [apply same_pop|]. intros Hn. by rewrite Hn in Hf.
  - etrans; [apply same_pop|apply Hg].
Qed.
Lemma quiet_reads {A} (m : R A) g : reads m g → quiet False m.
Proof. intros Hm r. eapply wps_mono; [apply Hm|naive_solver..]. Qed.
Lemma quiet_mret {A} (a : A) : quiet False (mret a).
Proof. by intros r. Qed.
Lemma quiet_lift {A} (o : outcome io_error A) : returned o → quiet True (lift o).
Proof. intros Ho r. apply wps_lift. by destruct o. Qed.
Lemma quiet_weaken {A} (E E' : Prop) (m : R A) : quiet E m → (E → E') → quiet E' m.
Proof. intros Hm HE r. eapply wps_mono; [apply Hm|done|naive_solver]. Qed.
Lemma quiet_seq {A B} E (m : R A) (k : A → R B) : quiet E m → (∀ a, quiet E (k a)) → quiet E (m ≫= k).
Proof.
  intros Hm Hk r. apply wps_bind. eapply wps_mono; [apply Hm| |done]. intros a r1 Hs.
  eapply wps_mono; [by apply Hk| |].
  - intros b r2 Hs2. exact (transitivity Hs Hs2).
  - intros e r2 [Hs2 Hb]. split; [exact (transitivity Hs Hs2)|]. destruct Hs. auto.
Qed.
Lemma quiet_then {A B} E (m : R A) (k : A → R B) r0 r Q :
  same_repo r0 r → quiet E m → (∀ a r1, same_repo r0 r1 → wps (k a) r1 Q (λ _ r', same_repo r0 r')) →
  wps (m ≫= k) r Q (λ _ r', same_repo r0 r').
Proof.
  intros Hr Hm Hk. apply wps_bind. eapply wps_mono; [apply Hm| |].
  - intros a r1 Hs. apply Hk. exact (transitivity Hr Hs).
  - intros e r1 [Hs _]. exact (transitivity Hr Hs).
Qed.
Lemma quiet_ignore {A} E (m : R A) : quiet E m → quiet False (ignore m).
Proof. intros Hm r. specialize (Hm r). unfold wps, ignore in *. destruct (m r) as [[?|?| |] ?]; naive_solver. Qed.
Lemma quiet_or_else {A} E (d : A) (m : R A) : quiet E m → quiet False (or_else d m).
Proof. intros Hm. apply quiet_seq; [by eapply quiet_ignore|]. intros o. apply quiet_mret. Qed.
Lemma quiet_id : quiet False (writing id).
Proof. by apply quiet_writing. Qed.

End steps.

(** Peel a bind, or a call of one line. *)
Ltac quiet_step := first
  [ apply quiet_mret | apply quiet_id | eapply quiet_or_else | eapply quiet_ignore
  | apply quiet_seq; [|intros ?] | apply quiet_writing; intros ?; by split
  | eapply quiet_reads, reads_reading; intros ?; reflexivity ].

Section calls.
Context {C : Crates} {Env : Environment}.

Lemma quiet_acquire : quiet False acquire_exclusive.
Proof. unfold acquire_exclusive. repeat quiet_step. Qed.
Lemma quiet_create_subdir : quiet False create_bale_subdir.
Proof.
  intros r. unfold create_bale_subdir, restrict_bale_perms. wstep.
  unfold writing at 1, call at 1, wps at 1. destruct (default None (head (faults r))) eqn:Hf.
  { split; [apply same_pop|]. intros Hn. by rewrite Hn in Hf. }
  set (r1 := set_bale_mode _ _). assert (Hs : same_repo r r1) by (split; try done; apply pop_fault_nil).
  wstep. eapply wps_mono; [apply reads_reading; intros ?; reflexivity| |].
  - intros m r2 [Hs2 ->]. simpl. set (b := (_ =? 448)). eapply wps_mono.
    + instantiate (2 := λ _ r', same_repo r2 r'). instantiate (1 := λ _ r', same_repo r2 r' ∧ (faults r2 = [] → False)).
      destruct b; [done|]. apply quiet_writing. by split.
    + intros [] r3 Hs3. exact (transitivity Hs (transitivity Hs2 Hs3)).
    + intros e r3 [Hs3 Hn]. split; [exact (transitivity Hs (transitivity Hs2 Hs3))|].
      intros Hr. apply Hn. destruct Hs, Hs2. auto.
  - intros e r2 [Hs2 Hn]. split; [exact (transitivity Hs Hs2)|]. intros Hr. apply Hn. by apply Hs.
Qed.
Lemma quiet_mark_staged h n : quiet False (mark_file_staged h n).
Proof. unfold mark_file_staged. apply quiet_seq; [apply quiet_create_subdir|intros _]. repeat quiet_step. Qed.
Lemma quiet_touch h : quiet False (touch_marker_if_exists h).
Proof. unfold touch_marker_if_exists. repeat quiet_step. case_match; repeat quiet_step. Qed.
Lemma reads_cache_load key : reads (cache_load key)
  (λ r, b ← clean_cache r !! key; e ← entry_from_json b; if ce_v e =? CURRENT_VERSION then Some e else None).
Proof.
  intros r. unfold cache_load. wstep. eapply wps_mono; [by apply reads_reading| |done]. by intros o r' [Hs ->].
Qed.
Lemma reads_manifest_load h : reads (manifest_load h)
  (λ r, b ← manifests r !! manifest_file h; m ← manifest_from_json b; if cm_v m =? MANIFEST_VERSION then Some m else None).
Proof.
  intros r. unfold manifest_load. wstep. eapply wps_mono; [by apply reads_reading| |done]. by intros o r' [Hs ->].
Qed.
End calls.

Ltac quiet := repeat first
  [ apply quiet_acquire | apply quiet_create_subdir | apply quiet_mark_staged | apply quiet_touch | quiet_step ].

(** ** What a writer sends *)

Definition writes (E : Prop) (m : P unit) (b : bytes) : Prop := ∀ s,
  wps m s (λ _ s', incoming s' = incoming s ∧ outgoing s' = outgoing s ++ b ∧ (write_faults s = [] → write_faults s' = []))
    (λ _ s', incoming s' = incoming s ∧ (write_faults s = [] → write_faults s' = [] ∧ E)).

Lemma writes_ret E : writes E (mret tt) [].
Proof. intros s. unfold wps. simpl. by rewrite app_nil_r. Qed.
Lemma writes_all b : writes False (write_all b) b.
Proof.
  intros s. unfold wps, write_all, pop_write_fault. destruct (default None (head (write_faults s))) as [[n m]|] eqn:Hf; simpl.
  - split; [done|]. intros Hn. by rewrite Hn in Hf.
  - split_and!; [done..|]. by intros ->.
Qed.
Lemma writes_flush : writes False flush [].
Proof.
  intros s. unfold wps, flush, pop_write_fault. destruct (default None (head (write_faults s))) as [[n m]|] eqn:Hf; simpl.
  - split; [done|]. intros Hn. by rewrite Hn in Hf.
  - rewrite app_nil_r. split_and!; [done..|]. by intros ->.
Qed.
Lemma writes_weaken (E E' : Prop) m b : writes E m b → (E → E') → writes E' m b.
Proof. intros Hm HE s. eapply wps_mono; [apply Hm|done|naive_solver]. Qed.
Lemma writes_bind E (m : P unit) (k : unit → P unit) b1 b2 : writes E m b1 → writes E (k tt) b2 → writes E (m ≫= k) (b1 ++ b2).
Proof.
  intros Hm Hk s. apply wps_bind. eapply wps_mono; [apply Hm| |naive_solver]. intros [] s1 (Hi & Ho & Hf).
  eapply wps_mono; [apply Hk| |].
  - intros _ s2 (Hi2 & Ho2 & Hf2). rewrite Ho2, Ho, app_assoc. split_and!; [congruence|done|auto].
  - intros _ s2 (Hi2 & Hf2). split; [congruence|auto].
Qed.
Lemma writes_for_each {X} E (w : X → P unit) (ser : X → bytes) l :
  (∀ x, x ∈ l → writes E (w x) (ser x)) → writes E (for_each w l) (flat_map ser l).
Proof.
  induction l as [|x l IH]; intros Hw; cbn [for_each flat_map]; [apply writes_ret|].
  apply writes_bind; [apply Hw; left|]. apply IH. intros y Hy. apply Hw. by right.
Qed.
Lemma writes_flush_packet : writes False flush_packet (lit "0000").
Proof. rewrite <-(app_nil_r (lit "0000")). apply writes_bind; [apply writes_all|apply writes_flush]. Qed.
Lemma writes_text (E : Prop) line :
  ((MAX_PKT_PAYLOAD < length line + 1)%nat → E) → writes E (write_text line) (text_packet line).
Proof.
  intros HE. unfold write_text. destruct (Nat.ltb_spec MAX_PKT_PAYLOAD (length line + 1)).
  - intros s. apply wps_throw. auto.
  - unfold text_packet, packet_bytes. rewrite length_app. change (length [x0a]) with 1%nat.
    apply writes_bind; [eapply writes_weaken; [apply writes_all|done]|].
    apply writes_bind; (eapply writes_weaken; [apply writes_all|done]).
Qed.
Lemma writes_text_list (E : Prop) lines :
  (∀ l, l ∈ lines → (MAX_PKT_PAYLOAD < length l + 1)%nat → E) → writes E (write_text_list lines) (list_bytes lines).
Proof.
  intros HE. apply writes_bind; [|by eapply writes_weaken; [apply writes_flush_packet|]].
  apply writes_for_each. intros l Hl. apply writes_text. by apply HE.
Qed.
Lemma writes_binary data : writes False (write_binary data) (flat_map packet_bytes (chunks_of MAX_PKT_PAYLOAD data)).
Proof.
  apply writes_for_each. intros b _. unfold write_binary_packet, packet_bytes. apply writes_bind; apply writes_all.
Qed.
Lemma writes_then_flush data : writes False (write_all_then_flush data) (content_bytes data).
Proof. apply writes_bind; [apply writes_binary|apply writes_flush_packet]. Qed.

(** ** The invariant *)
Section specs.
Context {C : Crates} {CL : CrateLaws} {Env : Environment} {EL : EnvironmentLaws}.
Context (raw : RawConfig).
Implicit Types f : Filter.

(** The pointer [p] names an object that the store downloads as [c]. *)
Definition denotes (r : Repo) (p c : bytes) : Prop := store_present r = true ∧ ∃ info,
  parse_pointer p = Ok info ∧ info_size info = Some (len c) ∧ is_safe_file_id (info_hash info) = true ∧
  xet_download (objects r) info (len c) = (Ok tt, c).

(** [e] was made of the content [c]. *)
Definition entry_of (e : CacheEntry) (c : bytes) : Prop :=
  ce_size e = len c ∧ is_u64 (len c) ∧ compute_chunks xxh3 c (len c) = Ok (ce_chunks e).

(** [G] is what each entry of the clean cache was made of; in local mode the
    store holds it, and no manifest is ever kept. *)
Definition inv (G : gmap str bytes) (r : Repo) : Prop :=
  (∀ key b e, clean_cache r !! key = Some b → entry_from_json b = Some e → ce_v e = CURRENT_VERSION →
     ∃ c, G !! key = Some c ∧ entry_of e c ∧ (local_mode raw = true → denotes r (ce_pointer e) c)) ∧
  (local_mode raw = true → manifests r = ∅).

(** No request loses an object or unreads its input. *)
Record step (f f' : Filter) : Prop := {
  st_incoming : ∃ b, incoming (pipe f) = b ++ incoming (pipe f');
  st_denotes : ∀ p c, denotes (repo f) p c → denotes (repo f') p c;
  st_faults : faults (repo f) = [] → faults (repo f') = [];
  st_write_faults : write_faults (pipe f) = [] → write_faults (pipe f') = [];
}.
#[export] Instance step_preorder : PreOrder step.
Proof.
  split.
  - intros f. split; auto. by exists [].
  - intros f1 f2 f3 [[b1 I1] O1 F1 W1] [[b2 I2] O2 F2 W2]. split; auto.
    exists (b1 ++ b2). by rewrite <-app_assoc, <-I2.
Qed.

Definition ok f : Prop := ∃ G, inv G (repo f).
Definition calm f : Prop := faults (repo f) = [] ∧ write_faults (pipe f) = [].

(** The call comes back; it keeps the invariant; without a pending fault, an
    error implies [E]; an answer is in [Q]. *)
Definition spec {A} (E : Prop) (m : F A) f (Q : A → Filter → Prop) : Prop :=
  wps m f (λ a f', ok f' ∧ step f f' ∧ Q a f') (λ _ f', ok f' ∧ step f f' ∧ (calm f → E)).

Lemma spec_bind {A B} E (m : F A) (k : A → F B) f Q Q' :
  spec E m f Q → (∀ a f1, ok f1 → step f f1 → Q a f1 → spec E (k a) f1 Q') → spec E (m ≫= k) f Q'.
Proof.
  intros Hm Hk. apply wps_bind. eapply wps_mono; [apply Hm| |done]. intros a f1 (Hok & Hs & Ha).
  eapply wps_mono; [by apply Hk|naive_solver (by etrans)|].
  intros e f2 (Hok2 & Hs2 & HE). split; [done|]. split; [by etrans|].
  intros [Hc Hw]. apply HE. destruct Hs. split; auto.
Qed.
Lemma spec_mono {A} (E E' : Prop) (m : F A) f Q Q' :
  spec E m f Q → (E → E') → (∀ a f', ok f' → step f f' → Q a f' → Q' a f') → spec E' m f Q'.
Proof. intros Hm HE HQ. eapply wps_mono; [apply Hm|naive_solver..]. Qed.
Lemma spec_ret {A} E (a : A) f (Q : A → Filter → Prop) : ok f → Q a f → spec E (mret a) f Q.
Proof. intros Hok HQ. by apply wps_ret. Qed.
Lemma spec_throw {A} (E : Prop) e f (Q : A → Filter → Prop) : ok f → E → spec E (throw e) f Q.
Proof. intros Hok HE. by apply wps_throw. Qed.
Lemma spec_gets {A} E (g : Filter → A) f (Q : A → Filter → Prop) : ok f → Q (g f) f → spec E (gets g) f Q.
Proof. intros Hok HQ. by apply wps_gets. Qed.
Lemma spec_lift {A} (E : Prop) (o : outcome str A) f (Q : A → Filter → Prop) :
  ok f → wp o (λ a, Q a f) (λ _, E) → spec E (lift o) f Q.
Proof. intros Hok HQ. apply wps_lift. eapply wp_mono; [apply HQ|done|]. done. Qed.
Lemma spec_context {A} E c (m : F A) f Q : spec E m f Q → spec E (context c m) f Q.
Proof. intros Hm. by apply wps_map_err. Qed.
Lemma spec_attempt {A} E (m : F A) f (Q : A + str → Filter → Prop) :
  spec E m f (λ a, Q (inl a)) → (∀ e f', ok f' → step f f' → (calm f → E) → Q (inr e) f') → spec False (attempt m) f Q.
Proof.
  intros Hm He. unfold spec, wps, attempt in *. destruct (m f) as [[?|?| |] ?]; try done. naive_solver.
Qed.

Lemma wps_run_eq {S E A} (m m' : ST S E A) s s' Q (Rr : E → S → Prop) : m s = m' s' → wps m' s' Q Rr → wps m s Q Rr.
Proof. unfold wps. by intros ->. Qed.
Lemma wps_on_repo {A} (m : R A) f (Q : A → Filter → Prop) (Rr : str → Filter → Prop) :
  wps m (repo f) (λ a r, Q a (set_repo r f)) (λ e r, Rr (io_error_text e) (set_repo r f)) → wps (on_repo m) f Q Rr.
Proof. intros H. apply wps_map_err. unfold wps, zoom in *. by destruct (m (repo f)) as [[?|?| |] ?]. Qed.
Lemma wps_on_pipe {A} (m : P A) f (Q : A → Filter → Prop) (Rr : str → Filter → Prop) :
  wps m (pipe f) (λ a p, Q a (set_pipe p f)) (λ e p, Rr (io_error_text e) (set_pipe p f)) → wps (on_pipe m) f Q Rr.
Proof. intros H. apply wps_map_err. unfold wps, zoom in *. by destruct (m (pipe f)) as [[?|?| |] ?]. Qed.

(** Same data, same pipe. *)
Record still (f f' : Filter) : Prop := { still_pipe : pipe f' = pipe f; still_repo : same_repo (repo f) (repo f') }.
#[export] Instance still_preorder : PreOrder still.
Proof. split; [done|]. intros f1 f2 f3 [P1 R1] [P2 R2]. split; [congruence|by etrans]. Qed.

Lemma denotes_same r r' p c : same_repo r r' → denotes r p c → denotes r' p c.
Proof. intros [Ho _ _ Hs _] [Hp Hd]. unfold denotes. rewrite Ho. auto. Qed.
Lemma inv_same G r r' : same_repo r r' → inv G r → inv G r'.
Proof.
  intros Hs [Hi Hl]. pose proof (λ p c, denotes_same r r' p c Hs) as Hd. destruct Hs as [_ Hc Hm _ _].
  unfold inv. rewrite Hc, Hm. split; [|done]. intros key b e H1 H2 H3. destruct (Hi key b e H1 H2 H3) as (c & ? & ? & ?). eauto 6.
Qed.
Lemma still_ok f f' : still f f' → ok f → ok f'.
Proof. intros [_ Hs] [G Hi]. exists G. by eapply inv_same. Qed.
Lemma still_step f f' : still f f' → step f f'.
Proof.
  intros [Hp Hs]. split; rewrite ?Hp; auto; [by exists []| |by apply Hs]. intros p c. by apply denotes_same.
Qed.

Lemma spec_quiet {A} E (m : R A) f : ok f → quiet E m → spec E (on_repo m) f (λ _, still f).
Proof.
  intros Hok Hm. apply wps_on_repo. eapply wps_mono; [apply Hm| |].
  - intros a r Hs. assert (Hst : still f (set_repo r f)) by (by split).
    split_and!; [by eapply still_ok|by apply still_step|done].
  - intros e r [Hs HE]. assert (Hst : still f (set_repo r f)) by (by split).
    split_and!; [by eapply still_ok|by apply still_step|]. intros [? _]. auto.
Qed.
Lemma spec_reads {A} (m : R A) g f : ok f → reads m g → spec False (on_repo m) f (λ a f', still f f' ∧ a = g (repo f)).
Proof.
  intros Hok Hm. apply wps_on_repo. eapply wps_mono; [apply Hm| |].
  - intros a r [Hs ->]. assert (Hst : still f (set_repo r f)) by (by split).
    split_and!; [by eapply still_ok|by apply still_step|done..].
  - intros e r [Hs HE]. assert (Hst : still f (set_repo r f)) by (by split).
    split_and!; [by eapply still_ok|by apply still_step|]. by intros [? _].
Qed.
(** The same as the first step of a sequence. *)
Lemma spec_first {A B} E (m : F A) (k : A → F B) f Q Q' :
  spec False m f Q → (∀ a f1, ok f1 → step f f1 → Q a f1 → spec E (k a) f1 Q') → spec E (m ≫= k) f Q'.
Proof. intros Hm. apply spec_bind. by eapply spec_mono. Qed.
(** An answer that only a fault explains excuses later errors. *)
Lemma spec_first_calm {A B} (E : Prop) (m : F A) (k : A → F B) f Q Q' :
  spec False m f Q → (∀ a f1, ok f1 → step f f1 → Q a f1 → spec (calm f → E) (k a) f1 Q') → spec E (m ≫= k) f Q'.
Proof.
  intros Hm Hk. apply wps_bind. eapply wps_mono; [apply Hm| |naive_solver]. intros a f1 (Hok & Hs & Ha).
  eapply wps_mono; [by apply Hk|naive_solver (by etrans)|].
  intros e f2 (Hok2 & Hs2 & HE). split; [done|]. split; [by etrans|].
  intros Hc. apply HE; [|done]. destruct Hc, Hs. split; auto.
Qed.
Lemma spec_quiet_bind {A B} (E : Prop) (m : R A) (k : A → F B) f Q :
  ok f → quiet False m → (∀ a f1, ok f1 → still f f1 → spec E (k a) f1 Q) → spec E (on_repo m ≫= k) f Q.
Proof. intros Hok Hm Hk. eapply spec_first; [by apply spec_quiet|]. intros a f1 Hok1 _ Hs. by apply Hk. Qed.
Lemma spec_ignored {A} E (m : R A) (Q : A → Prop) f :
  ok f → quiet E m → (∀ r, wps m r (λ a _, Q a) (λ _ _, True)) →
  spec False (on_repo (ignore m)) f (λ o f', still f f' ∧ ∀ a, o = Some a → Q a).
Proof.
  intros Hok Hm HQ. apply wps_on_repo. specialize (Hm (repo f)). specialize (HQ (repo f)). unfold ignore, wps in *.
  destruct (m (repo f)) as [[a|e| |] r]; try done; [|destruct Hm as [Hm _]].
  all: assert (Hst : still f (set_repo r f)) by (by split).
  all: split_and!; [by eapply still_ok|by apply still_step|done|]; intros b [= <-]; exact HQ.
Qed.
Lemma spec_reads_ignored {A} (m : R A) g f : ok f → reads m g →
  spec False (on_repo (ignore m)) f
    (λ o f', still f f' ∧ (∀ a, o = Some a → a = g (repo f)) ∧ (calm f → o = Some (g (repo f)))).
Proof.
  intros Hok Hm. apply wps_on_repo. specialize (Hm (repo f)). unfold ignore, wps in *.
  destruct (m (repo f)) as [[a|e| |] r]; try done; destruct Hm as [Hm Ha].
  all: assert (Hst : still f (set_repo r f)) by (by split).
  all: split_and!; [by eapply still_ok|by apply still_step|done|by intros b [= <-]|intros [? _]; by rewrite ?Ha].
Qed.
Lemma spec_reads_or {A} (d : A) (m : R A) g f : ok f → reads m g →
  spec False (on_repo (or_else d m)) f (λ a f', still f f' ∧ (a = g (repo f) ∨ a = d) ∧ (calm f → a = g (repo f))).
Proof.
  intros Hok Hm. apply wps_on_repo. unfold or_else. wstep.
  pose proof (spec_reads_ignored m g f Hok Hm) as Hs. unfold spec, on_repo, wps, st_map_err, zoom in Hs. unfold wps at 1.
  destruct (ignore m (repo f)) as [[o|e| |] r]; try done; cbn in Hs; destruct Hs as (Hok' & Hs & HQ).
  wsteps. destruct HQ as (Hst & Ho & Hc). split_and!; try done; [destruct o; naive_solver|]. intros H. by rewrite (Hc H).
Qed.
Lemma spec_attempt_quiet {A} (m : R A) f : ok f → quiet False m →
  spec False (attempt (on_repo m)) f (λ a f', still f f' ∧ (calm f → ∃ x, a = inl x)).
Proof.
  intros Hok Hm. specialize (Hm (repo f)). unfold spec, wps, attempt, on_repo, st_map_err, zoom in *.
  destruct (m (repo f)) as [[a|e| |] r]; try done; [|destruct Hm as [Hm Hf]].
  all: assert (Hst : still f (set_repo r f)) by (by split).
  all: split_and!; [by eapply still_ok|by apply still_step|done|intros [? _]; naive_solver].
Qed.
Lemma still_calm f f' : still f f' → calm f → calm f'.
Proof. intros [Hp Hs] [Hc Hw]. split; [by apply Hs|by rewrite Hp]. Qed.
Lemma spec_lift_bind {A B} E (o : outcome str A) a (k : A → F B) f Q :
  o = Ok a → spec E (k a) f Q → spec E (lift o ≫= k) f Q.
Proof. by intros ->. Qed.
Lemma spec_pipe {A} (E : Prop) (m : P A) f (Q : A → Pipe → Prop) :
  ok f → wps m (pipe f) (λ a s, consumed (pipe f) s ∧ Q a s) (λ _ s, consumed (pipe f) s ∧ E) →
  spec E (on_pipe m) f (λ a f', repo f' = repo f ∧ outgoing (pipe f') = outgoing (pipe f) ∧ Q a (pipe f')).
Proof.
  intros [G Hok] Hm. apply wps_on_pipe. eapply wps_mono; [apply Hm| |].
  - intros a s [(Hi & Ho & _ & Hw) HQ]. split; [by exists G|]. split; [|done]. split; try done. simpl. by rewrite Hw.
  - intros e s [(Hi & Ho & _ & Hw) HE]. split; [by exists G|]. split; [|done]. split; try done. simpl. by rewrite Hw.
Qed.
Lemma spec_writes E m b f : ok f → writes E m b →
  spec E (on_pipe m) f (λ _ f', repo f' = repo f ∧ incoming (pipe f') = incoming (pipe f) ∧
    outgoing (pipe f') = outgoing (pipe f) ++ b).
Proof.
  intros [G Hok] Hm. apply wps_on_pipe. eapply wps_mono; [apply Hm| |].
  - intros [] s (Hi & Ho & Hw). split; [by exists G|]. split; [|done]. split; auto. exists []. by rewrite <-Hi.
  - intros e s (Hi & Hw). split; [by exists G|]. split.
    + split; auto; [|naive_solver]. exists []. by rewrite <-Hi.
    + intros [_ ?]. naive_solver.
Qed.
End specs.
