(* ===== verification/CleanSpec.v ===== *)
(** * A clean answers a pointer of the content

    The clean half of [filter_process.rs]: the payload is drained into memory or
    a file, the clean cache decides whether the content was seen, and the answer
    denotes the content either way. *)

From stdpp Require Import gmap list.
From S2P Require Import Prelude RustStd Pktline CleanCache Config Repo Filter FilterSpec.

(** What git reads back from a request that succeeds. *)
Definition response (content : bytes) : bytes :=
  list_bytes status_success ++ content_bytes content ++ list_bytes status_success.

Section clean.
Context {C : Crates} {CL : CrateLaws} {Env : Environment} {EL : EnvironmentLaws}.
Context (raw : RawConfig).
#[local] Set Default Proof Using "Type*".
Implicit Types f : Filter.
#[local] Abbreviation spec := (FilterSpec.spec raw).
#[local] Abbreviation ok := (FilterSpec.ok raw).
#[local] Abbreviation inv := (FilterSpec.inv raw).

(** What a clean needs of its surroundings to succeed. *)
Definition clean_works (o : gmap str bytes) (c : bytes) : Prop :=
  is_Some (git_dir raw) ∧ is_ok runtime_new ∧ is_ok (xet_clean o c).1 ∧ ∀ info, is_ok (info_to_json_pretty info).

Lemma writes_status : writes False (write_text_list status_success) (list_bytes status_success).
Proof.
  apply writes_text_list. intros l ->%list_elem_of_singleton. unfold MAX_PKT_PAYLOAD. simpl. lia.
Qed.

Lemma spec_respond c f : ok f → spec False (respond c) f
  (λ _ f', repo f' = repo f ∧ incoming (pipe f') = incoming (pipe f) ∧ outgoing (pipe f') = outgoing (pipe f) ++ response c).
Proof.
  intros Hok. eapply spec_bind; [by apply spec_writes, writes_status|]. intros _ f1 Hok1 _ (Hr1 & Hi1 & Ho1).
  eapply spec_bind; [by apply spec_writes, writes_then_flush|]. intros _ f2 Hok2 _ (Hr2 & Hi2 & Ho2).
  eapply spec_mono; [by apply spec_writes, writes_status|done|]. intros _ f3 _ _ (Hr3 & Hi3 & Ho3).
  split_and!; [congruence..|]. rewrite Ho3, Ho2, Ho1. unfold response. by rewrite <-!app_assoc.
Qed.

Lemma parse_pointer_returns p : returned (parse_pointer p).
Proof.
  unfold parse_pointer. destruct (_ <? _); [done|]. unfold from_utf8. destruct (utf8_valid p); [|done].
  cbn [map_err mbind outcome_bind]. destruct (negb _); [done|]. pose proof (pointer_parse_returns (trim p)).
  by destruct (info_from_json _).
Qed.

Lemma parse_pointer_encoded info s :
  len (s ++ [x0a]) ≤ POINTER_MAX_BYTES → utf8_valid (s ++ [x0a]) = true →
  str_contains (s ++ [x0a]) POINTER_SENTINEL = true → info_from_json (trim (s ++ [x0a])) = Ok info →
  parse_pointer (s ++ [x0a]) = Ok info.
Proof.
  intros Hl Hu Hs Hj. unfold parse_pointer. rewrite (proj2 (Z.ltb_ge _ _)) by done. unfold from_utf8. rewrite Hu.
  cbn [map_err mbind outcome_bind]. rewrite Hs. cbn [negb]. by rewrite Hj.
Qed.

(** Objects only come. *)
Lemma inv_objects G r r' :
  clean_cache r' = clean_cache r → manifests r' = manifests r → (∀ p c, denotes r p c → denotes r' p c) →
  inv G r → inv G r'.
Proof.
  intros Hc Hm Hd [Hi Hl]. unfold FilterSpec.inv. rewrite Hc, Hm. split; [|done]. intros key b e H1 H2 H3.
  destruct (Hi key b e H1 H2 H3) as (c & ? & ? & ?). eauto 6.
Qed.

Lemma spec_clean_session c f : ok f → store_present (repo f) = true →
  spec (¬ clean_works (objects (repo f)) c) (clean_session c) f
    (λ r f', pipe f' = pipe f ∧ clean_cache (repo f') = clean_cache (repo f) ∧ denotes (repo f') r.1 c).
Proof.
  intros [G Hok] Hstore. pose proof (xet_clean_adds (objects (repo f)) c) as Hadds.
  pose proof (xet_clean_keeps (objects (repo f)) c) as Hkeeps. pose proof (λ H : clean_works (objects (repo f)) c, proj1 (proj2 (proj2 H))) as Hworks.
  destruct (xet_clean (objects (repo f)) c) as [r o'] eqn:Hx. cbn [snd fst] in Hkeeps, Hworks. set (f1 := set_repo (set_objects o' (repo f)) f).
  assert (Hd : ∀ p b, denotes (repo f) p b → denotes (repo f1) p b).
  { intros p b (Hs & info & ? & ? & ? & ?). split; [done|]. exists info. split_and!; try done. by apply Hkeeps. }
  assert (Hok1 : ok f1) by (exists G; by apply (inv_objects G (repo f))).
  assert (Hstep : step f f1) by (split; [by exists []|exact Hd|done..]).
  eapply (wps_run_eq _ _ f f1); [unfold clean_session; rewrite Hx; reflexivity|].
  wsteps. destruct r as [info|e| |]; try done; cbn [wp].
  wsteps. unfold encode_pointer_string. pose proof (pointer_json_returns info) as Hj.
  pose proof (λ H : clean_works (objects (repo f)) c, proj2 (proj2 (proj2 H)) info) as Hworks'.
  destruct (info_to_json_pretty info) as [s|e| |]; try done; cbn.
  destruct Hadds as (Hsize & Hhex & Hdl & Hp). destruct (Hp s eq_refl) as (? & ? & ? & ?).
  do 4 (split; [done|]). split; [exact Hstore|]. exists info. split_and!; try done. by apply parse_pointer_encoded.
Qed.

Lemma spec_prepare_store f : ok f →
  spec False prepare_store f (λ _ f', still f f' ∧ store_present (repo f') = true).
Proof.
  intros Hok. eapply spec_bind; [apply spec_context, spec_quiet, quiet_create_subdir; done|].
  intros [] f1 Hok1 _ Hs1. apply spec_context, wps_on_repo. unfold writing, call, wps.
  assert (Hp : same_repo (repo f1) (set_store_present true (pop_fault (repo f1)))) by (split; try done; apply pop_fault_nil).
  destruct (default None (head (faults (repo f1)))) eqn:Hf.
  - assert (Hst : still f1 (set_repo (pop_fault (repo f1)) f1)) by (split; [done|apply same_pop]).
    split_and!; [by eapply still_ok|by apply still_step|]. intros [Hn _]. by rewrite Hn in Hf.
  - assert (Hst : still f1 (set_repo (set_store_present true (pop_fault (repo f1))) f1)) by by split.
    split_and!; [by eapply still_ok|by apply still_step|by etrans|done].
Qed.

(** ** The clean cache *)

Lemma wps_cache_save key e r :
  wps (cache_save key e) r
    (λ _ r', ∃ r0 b, same_repo r r0 ∧ entry_from_json b = Some e ∧ r' = set_clean_cache (<[key := b]> (clean_cache r0)) r0)
    (λ _ r', same_repo r r').
Proof.
  unfold cache_save.
  eapply quiet_then; [reflexivity|apply quiet_create_subdir|]. intros [] r2 H2.
  eapply quiet_then; [done|apply quiet_id|]. intros [] r3 H3.
  wsteps. pose proof (entry_json_returns e) as He. destruct (entry_to_json e) as [b|m| |] eqn:Hb; try done; cbn [map_err wp].
  eapply quiet_then; [done|apply quiet_id|]. intros [] r4 H4.
  eapply quiet_then; [done|apply quiet_id|]. intros [] r5 H5.
  unfold wps, writing, call. assert (same_repo r (pop_fault r5)) by (etrans; [done|apply same_pop]).
  destruct (default None (head (faults r5))); [done|]. exists (pop_fault r5), b. split_and!; [done| |done]. by apply entry_json.
Qed.

(** What is saved was made of [c]. *)
Lemma spec_save_entry key size cs p c f :
  ok f → entry_of (mkCacheEntry CURRENT_VERSION size cs p) c → (local_mode raw = true → denotes (repo f) p c) →
  spec False (save_entry key size cs p) f (λ _ f', pipe f' = pipe f ∧ ∀ p c, denotes (repo f) p c → denotes (repo f') p c).
Proof.
  intros [G Hok] He Hd. unfold save_entry, FilterSpec.spec. wstep. apply wps_on_repo.
  set (e := mkCacheEntry _ _ _ _) in *. pose proof (wps_cache_save key e (repo f)) as Hw. unfold ignore, wps in *.
  destruct (cache_save key e (repo f)) as [[[]|err| |] r]; try done.
  - destruct Hw as (r0 & b & Hs & Hb & ->).
    assert (Hd' : ∀ p c, denotes (repo f) p c → denotes (set_clean_cache (<[key:=b]> (clean_cache r0)) r0) p c).
    { intros p' c'. apply (denotes_same _ _ _ _ Hs). }
    split_and!; [|split; [by exists []|exact Hd'|by apply Hs|done]|done|exact Hd'].
    exists (<[key := c]> G). destruct (inv_same _ _ _ _ Hs Hok) as [Hi Hl]. split; [|done].
    intros k b' e' Hk. cbn in Hk. destruct (decide (k = key)) as [->|Hne].
    + rewrite lookup_insert_eq in Hk. injection Hk as <-. rewrite Hb. intros [= <-] _. exists c.
      rewrite lookup_insert_eq. split_and!; [done..|]. intros Hm. by apply Hd', Hd.
    + rewrite lookup_insert_ne in Hk by done. rewrite lookup_insert_ne by done. apply (Hi _ _ _ Hk).
  - assert (still f (set_repo r f)) by by split. split_and!; [exists G; by eapply inv_same|by apply still_step|done|].
    intros p' c'. by apply denotes_same.
Qed.

(** No other content has the fingerprints of [c0], as far as [c] goes. *)
Definition distinct_prints (c0 c : bytes) : Prop :=
  ∀ cs, compute_chunks xxh3 c0 (len c0) = Ok cs → distinguishes xxh3 cs c0 c.

(** ** A miss *)

(** The answer is sent, and its pointer denotes the content. *)
Definition answered (c : bytes) f f' : Prop :=
  incoming (pipe f') = incoming (pipe f) ∧
  ∃ p, outgoing (pipe f') = outgoing (pipe f) ++ response p ∧ denotes (repo f') p c.

Lemma chunks_exist c : ∃ cs, compute_chunks xxh3 c (len c) = Ok cs ∧ compute_chunks_from_slice xxh3 c = Ok cs ∧
  tiles xxh3 c 0 cs ∧ cs ≠ [].
Proof. destruct (compute_chunks_tiles xxh3 c) as (cs & ? & ? & ? & ?). eauto. Qed.

(** What both kinds of payload do from the session to the answer. *)
Lemma spec_clean_and_answer {B} (k : str → F B) c n f Q :
  ok f → store_present (repo f) = true →
  (∀ f1 p, ok f1 → answered c f f1 → denotes (repo f1) p c →
     spec (¬ clean_works (objects (repo f)) c) (k p) f1 Q) →
  spec (¬ clean_works (objects (repo f)) c)
    ('(p, h) ← clean_session c; _ ← on_repo (ignore (mark_file_staged h n)); _ ← respond p; k p) f Q.
Proof.
  intros Hok Hstore Hk. eapply spec_bind; [by apply spec_clean_session|]. intros [p h] f1 Hok1 Hs1 (Hp1 & _ & Hd1).
  apply spec_quiet_bind; [done|quiet|]. intros o f2 Hok2 Hst2.
  eapply spec_first; [by apply spec_respond|]. intros [] f3 Hok3 Hs3 (Hr3 & Hi3 & Ho3).
  pose proof (st_denotes _ _ (still_step _ _ Hst2) _ _ Hd1) as Hd2. cbn [fst] in Hd2. rewrite <-Hr3 in Hd2.
  rewrite (still_pipe _ _ Hst2), Hp1 in Hi3, Ho3. apply Hk; [done|split; [done|by exists p]|done].
Qed.

Lemma answered_later c f f1 f2 : pipe f2 = pipe f1 → (∀ p c, denotes (repo f1) p c → denotes (repo f2) p c) →
  answered c f f1 → answered c f f2.
Proof. intros Hp Hd (Hi & p & Ho & Hc). unfold answered. rewrite Hp. eauto. Qed.
Lemma answered_from c f f1 f2 : pipe f1 = pipe f → answered c f1 f2 → answered c f f2.
Proof. unfold answered. by intros ->. Qed.

Lemma spec_answered E (m : F unit) c f f1 :
  pipe f1 = pipe f → spec E m f1 (λ _ f', answered c f1 f') → spec E m f1 (λ _ f', answered c f f').
Proof. intros Hp Hm. eapply spec_mono; [exact Hm|done|]. intros [] f' _ _. by apply answered_from. Qed.

Lemma spec_save_answered E key n cs p c f f1 :
  ok f1 → answered c f f1 → denotes (repo f1) p c → n = len c → is_u64 n → compute_chunks xxh3 c n = Ok cs →
  spec E (save_entry key n cs p) f1 (λ _ f', answered c f f').
Proof.
  intros Hok Ha Hd -> Hn Hcs. eapply (spec_mono _ False); [by apply (spec_save_entry _ _ _ _ c)|done|].
  intros _ f' _ _ [Hp Hd']. by eapply answered_later.
Qed.

Lemma spec_handle_clean_in_memory c key f : ok f → is_u64 (len c) →
  spec (¬ clean_works (objects (repo f)) c) (handle_clean_in_memory c key (len c)) f (λ _ f', answered c f f').
Proof.
  intros Hok Hc. destruct (chunks_exist c) as (cs & Hcs & Hsl & _).
  eapply spec_first; [by apply spec_prepare_store|]. intros [] f1 Hok1 _ [Hst Hstore].
  rewrite <-(sr_objects _ _ (still_repo _ _ Hst)). apply spec_answered; [apply Hst|]. eapply spec_lift_bind; [by rewrite Hsl|].
  apply spec_clean_and_answer; [done..|]. intros f2 p Hok2 Ha Hd. by apply spec_save_answered.
Qed.

Lemma spec_handle_clean c key f : ok f → is_u64 (len c) →
  spec (¬ clean_works (objects (repo f)) c) (handle_clean c key (len c)) f (λ _ f', answered c f f').
Proof.
  intros Hok Hc. destruct (chunks_exist c) as (cs & Hcs & _).
  eapply spec_first; [by apply spec_prepare_store|]. intros [] f1 Hok1 _ [Hst Hstore].
  rewrite <-(sr_objects _ _ (still_repo _ _ Hst)). apply spec_answered; [apply Hst|]. apply spec_clean_and_answer; [done..|]. intros f2 p Hok2 Ha Hd.
  eapply spec_first; [apply (spec_ignored raw True _ (λ cs', cs' = cs)); [done| |]|].
  - rewrite Hcs. apply quiet_seq; [by eapply quiet_weaken; [apply quiet_id|]|intros _; by apply quiet_lift].
  - intros r. rewrite Hcs. wstep. eapply wps_mono; [apply quiet_id|intros [] r1 _; by wsteps|done].
  - intros o f3 Hok3 Hs3 [Hst3 Ho].
    assert (Ha3 : answered c f1 f3) by (eapply answered_later; [apply Hst3|apply Hs3|done]).
    destruct o as [cs'|]; [|by apply spec_ret]. rewrite (Ho cs' eq_refl).
    apply spec_save_answered; try done. by apply Hs3.
Qed.


(** ** A hit *)

Lemma spec_verified e payload c0 f :
  ok f → is_u64 (len c0) → len (payload_bytes payload) < 2 ^ 63 → entry_of e c0 →
  spec False (verified e payload (len (payload_bytes payload))) f
    (λ b f', still f f' ∧ (b = true → distinct_prints c0 (payload_bytes payload) → c0 = payload_bytes payload)).
Proof.
  intros Hok Hu Hmax (Hsize & _ & Hcs). unfold verified. destruct (negb _); [by apply spec_ret|].
  destruct (chunks_exist c0) as (cs & Hcs' & _ & Ht & Hne). rewrite Hcs in Hcs'. injection Hcs' as Hcs'. rewrite <-Hcs' in *. clear Hcs' cs.
  set (c := payload_bytes payload) in *.
  assert (Heq : bool_decide (len c = len c0) && forallb (matches_at xxh3 c0 c) (ce_chunks e) = true →
    distinct_prints c0 c → c0 = c).
  { intros Hb Hd. symmetry. apply (bool_decide_eq_true (c = c0)). rewrite <-Hb.
    symmetry. apply matching_content; [done|]. by apply Hd. }
  destruct payload as [buf|tmp]; cbn [payload_bytes] in c.
  - rewrite (verify_in_memory_tiles xxh3 xxh3_u64 c0) by done. by apply spec_lift.
  - destruct (verify_file_runs c0 (ce_chunks e) c Hu Hcs Hmax) as (pread & now & pid & Hr & Hrun).
    pose proof (verify_runs_exact xxh3 xxh3_u64 pread now pid c0 c _ _ Hr Hmax Hu Ht Hne Hrun) as Hans.
    assert (Hv : ∃ b, verify_file (ce_chunks e) c = Ok b ∧ (b = true → distinct_prints c0 c → c0 = c)).
    { destruct Hans as [Hans|[Hans _]]; rewrite Hans; [by eauto|by exists false]. }
    destruct Hv as (b & Hv & Hb). unfold c in Hv. rewrite Hv.
    eapply spec_first; [apply (spec_ignored raw True _ (λ b', b' = b)); [done| |]|].
    + apply quiet_seq; [by eapply quiet_weaken; [apply quiet_id|]|intros _; by apply quiet_lift].
    + intros r. wstep. eapply wps_mono; [apply quiet_id|intros [] r1 _; by wsteps|done].
    + intros o f1 Hok1 _ [Hst Ho]. apply spec_ret; [done|]. split; [done|]. destruct o as [b'|]; [|done].
      by rewrite (Ho b' eq_refl).
Qed.

Lemma spec_cache_hit e f : ok f →
  spec False (cache_hit e) f (λ _ f', incoming (pipe f') = incoming (pipe f) ∧
    outgoing (pipe f') = outgoing (pipe f) ++ response (ce_pointer e)).
Proof.
  intros Hok. eapply spec_first; [apply spec_context, spec_quiet, quiet_acquire; done|]. intros [] f1 Hok1 _ Hst1.
  apply (spec_first _ _ _ _ _ (λ _, still f1)).
  - pose proof (parse_pointer_returns (ce_pointer e)). destruct (parse_pointer (ce_pointer e)); try done; try by apply spec_ret.
    apply spec_quiet_bind; [done|quiet|]. intros o f2 Hok2 Hst2. by apply spec_ret.
  - intros [] f2 Hok2 _ Hst2. eapply spec_mono; [by apply spec_respond|done|]. intros [] f3 _ _ (_ & Hi & Ho).
    by rewrite (still_pipe _ _ Hst2), (still_pipe _ _ Hst1) in Hi, Ho.
Qed.

Lemma spec_ensure_runtime f (E : Prop) : ok f → (¬ is_ok runtime_new → E) →
  spec E ensure_runtime f (λ _, still f).
Proof.
  intros Hok HE. eapply spec_bind; [by apply (spec_gets _ _ _ _ (λ _ f', f' = f))|]. intros b f0 _ _ ->.
  destruct b; [by apply spec_ret|]. eapply spec_bind.
  { apply spec_context, (spec_lift _ _ _ _ (λ _ f', f' = f)); [done|]. pose proof runtime_new_returns.
    destruct runtime_new as [[]|e| |]; [done|by apply HE; intros []|done..]. }
  intros [] f1 _ _ ->. assert (Hst : still f (set_runtime true f)) by by split.
  apply wps_modify. split_and!; [by eapply still_ok|by apply still_step|done].
Qed.

Lemma spec_full_clean payload key f :
  ok f → is_u64 (len (payload_bytes payload)) →
  spec (¬ clean_works (objects (repo f)) (payload_bytes payload)) (full_clean payload key (len (payload_bytes payload))) f (λ _ f', answered (payload_bytes payload) f f').
Proof.
  intros Hok Hu. eapply spec_bind; [apply spec_ensure_runtime; [done|]|].
  { intros Hn (_ & Hr & _). done. }
  intros [] f1 Hok1 _ Hst1. eapply spec_first; [apply spec_context, spec_quiet, quiet_acquire; done|].
  intros [] f2 Hok2 _ Hst2. apply spec_answered; [by rewrite (still_pipe _ _ Hst2), (still_pipe _ _ Hst1)|].
  rewrite <-(sr_objects _ _ (still_repo _ _ Hst1)), <-(sr_objects _ _ (still_repo _ _ Hst2)).
  destruct payload; [by apply spec_handle_clean_in_memory|by apply spec_handle_clean].
Qed.

(** ** Either way *)

Lemma spec_clean_payload G path payload f :
  inv G (repo f) → len (payload_bytes payload) < 2 ^ 63 →
  spec (¬ clean_works (objects (repo f)) (payload_bytes payload)) (clean_payload raw path payload (len (payload_bytes payload))) f
    (λ _ f', local_mode raw = true →
       (∀ c0, G !! path_key path = Some c0 → distinct_prints c0 (payload_bytes payload)) →
       answered (payload_bytes payload) f f').
Proof.
  intros Hinv Hmax. set (c := payload_bytes payload) in *. assert (Hok : ok f) by by exists G.
  assert (Hu : is_u64 (len c)) by (pose proof (len_nonneg c); unfold is_u64; lia).
  unfold clean_payload. destruct (git_dir raw) as [gd|] eqn:Hgd.
  2: { apply (spec_bind _ _ _ _ _ (λ _ _, False)); [|done]. apply spec_lift; [done|]. cbn. intros (Hn & _). rewrite Hgd in Hn. by destruct Hn. }
  eapply spec_lift_bind; [done|].
  assert (Hroot : is_ok (object_store_root raw)).
  { unfold object_store_root. rewrite Hgd. by destruct (local_mode raw), (local_store raw). }
  destruct (object_store_root raw) as [root| | |]; try done.
  eapply (spec_first _ _ _ _ _ (λ _ f', f' = f)); [by apply spec_context, spec_lift|]. intros _ f0 _ _ ->.
  assert (Hmiss : ∀ f1, ok f1 → still f f1 → spec (¬ clean_works (objects (repo f)) c) (full_clean payload (path_key path) (len c)) f1
    (λ _ f', local_mode raw = true → (∀ c0, G !! path_key path = Some c0 → distinct_prints c0 c) → answered c f f')).
  { intros f1 Hok1 Hst. rewrite <-(sr_objects _ _ (still_repo _ _ Hst)). eapply spec_mono; [by apply spec_full_clean|done|]. intros [] f' _ _ Ha _ _.
    eapply answered_from; [apply Hst|done]. }
  eapply spec_first; [apply (spec_reads_ignored _ _ _ _ Hok (reads_cache_load (path_key path)))|].
  intros o f1 Hok1 _ (Hst1 & Ho & _). destruct o as [[e|]|]; [|by apply Hmiss..].
  specialize (Ho _ eq_refl). destruct (clean_cache (repo f) !! path_key path) as [b|] eqn:Hb; [|done]. cbn in Ho.
  destruct (entry_from_json b) as [e'|] eqn:Hj; [|done]. cbn in Ho. destruct (Z.eqb_spec (ce_v e') CURRENT_VERSION) as [Hv|]; [|done].
  injection Ho as <-. destruct (proj1 Hinv _ _ _ Hb Hj Hv) as (c0 & HG & He & Hd).
  eapply spec_first; [apply (spec_verified e payload c0); [done|apply He|done..]|].
  intros hit f2 Hok2 _ [Hst2 Hhit]. assert (Hst : still f f2) by by etrans.
  destruct hit; [|by apply Hmiss]. eapply (spec_mono _ False); [by apply spec_cache_hit|done|].
  intros [] f3 _ Hs3 [Hi Ho] Hl Hdist. rewrite (still_pipe _ _ Hst) in Hi, Ho. split; [done|]. exists (ce_pointer e).
  split; [done|]. apply (st_denotes _ _ Hs3), (st_denotes _ _ (still_step _ _ Hst)).
  unfold c. rewrite <-(Hhit eq_refl (Hdist c0 HG)). by apply Hd.
Qed.

(** ** Draining the payload *)

(** A request whose content is complete and below the cap; and one that can be cleaned. *)
Definition well_sent f : Prop := ∃ c rest, incoming (pipe f) = content_bytes c ++ rest ∧ len c ≤ CLEAN_PAYLOAD_CAP.
Definition cleanable f : Prop := ∃ c rest,
  incoming (pipe f) = content_bytes c ++ rest ∧ len c ≤ CLEAN_PAYLOAD_CAP ∧ clean_works (objects (repo f)) c.

(** What is left to read of a content: its pieces and the flush. *)
Definition left_of (rest : bytes) (todo : list bytes) : bytes := flat_map packet_bytes todo ++ lit "0000" ++ rest.

Lemma read_next s rest todo :
  Forall (λ b, (length b ≤ MAX_PKT_PAYLOAD)%nat) todo → incoming s = left_of rest todo →
  read_packet s = match todo with
    | [] => (Ok Flush, set_incoming rest s)
    | b :: todo => (Ok (Data b), set_incoming (left_of rest todo) s)
    end.
Proof.
  unfold left_of. intros Hb Hs. destruct Hb as [|b todo Hb _]; [by apply parses_flush|].
  apply parses_data; [done|]. cbn [flat_map] in Hs. by rewrite <-app_assoc in Hs.
Qed.

(** [payload] was read of what [f] had; the rest of it is still there. *)
Record drained f (payload : CleanPayload) (total : Z) (f1 : Filter) : Prop := {
  dr_total : total = len (payload_bytes payload) ∧ total ≤ CLEAN_PAYLOAD_CAP;
  dr_outgoing : outgoing (pipe f1) = outgoing (pipe f);
  dr_repo : same_repo (repo f) (repo f1);
  dr_left : ∀ c rest, incoming (pipe f) = content_bytes c ++ rest → ∃ todo,
    Forall (λ b, (length b ≤ MAX_PKT_PAYLOAD)%nat) todo ∧ c = payload_bytes payload ++ concat todo ∧
    incoming (pipe f1) = left_of rest todo;
}.
(** All of it was read. *)
Record drained_all f (payload : CleanPayload) (total : Z) (f1 : Filter) : Prop := {
  da_drained : total = len (payload_bytes payload) ∧ total ≤ CLEAN_PAYLOAD_CAP;
  da_outgoing : outgoing (pipe f1) = outgoing (pipe f);
  da_repo : same_repo (repo f) (repo f1);
  da_all : ∀ c rest, incoming (pipe f) = content_bytes c ++ rest → c = payload_bytes payload ∧ incoming (pipe f1) = rest;
}.

Lemma spec_next_packet f payload total f1 : ok f1 → drained f payload total f1 →
  spec (¬ well_sent f) (on_pipe read_packet) f1
    (λ p f2, (repo f2 = repo f1 ∧ outgoing (pipe f2) = outgoing (pipe f1)) ∧
       (length (incoming (pipe f2)) < length (incoming (pipe f1)))%nat ∧
       ∀ c rest, incoming (pipe f) = content_bytes c ++ rest →
         (p = Flush ∧ c = payload_bytes payload ∧ incoming (pipe f2) = rest) ∨
         ∃ b todo, p = Data b ∧ Forall (λ b, (length b ≤ MAX_PKT_PAYLOAD)%nat) todo ∧
           c = payload_bytes payload ++ b ++ concat todo ∧ incoming (pipe f2) = left_of rest todo).
Proof.
  intros Hok Hd. pose proof (wps_run _ _ _ _ (wps_read_packet (pipe f1))) as Hw.
  eapply spec_mono; [eapply spec_pipe; [done|]| |].
  2: by intros H; exact H.
  - eapply wps_mono; [exact Hw| |].
    + intros p s [[Hc Hl] Hrun]. split; [done|].
      instantiate (1 := λ p s, (length (incoming s) < length (incoming (pipe f1)))%nat ∧ read_packet (pipe f1) = (Ok p, s)). done.
    + intros e s [Hc Hrun]. split; [done|]. intros (c & rest & Hin & _).
      destruct (dr_left _ _ _ _ Hd c rest Hin) as (todo & Hb & _ & Hi). rewrite (read_next _ rest todo) in Hrun by done.
      by destruct todo.
  - intros p f2 _ _ (Hr & Ho & Hl & Hrun). split; [done|]. split; [done|]. intros c rest Hin.
    destruct (dr_left _ _ _ _ Hd c rest Hin) as (todo & Hb & Hc & Hi). rewrite (read_next _ rest todo) in Hrun by done.
    destruct todo as [|b todo]; injection Hrun as <- Hp; rewrite <-Hp.
    + left. by rewrite Hc, app_nil_r.
    + right. exists b, todo. by inversion Hb.
Qed.

Lemma drained_same f payload total f1 f2 : drained f payload total f1 → still f1 f2 → drained f payload total f2.
Proof.
  intros [Ht Ho Hr Hl] [Hp Hs]. split; rewrite ?Hp; try done. exact (transitivity Hr Hs).
Qed.

(** A packet's data goes to the buffer or the file. *)
Lemma spec_store_packet f max payload b f1 (E : Prop) : ok f1 →
  spec E (match payload with
    | Spilled f => _ ← on_repo (writing id); mret (Spilled (f ++ b))
    | InMemory buf =>
        if max <? saturating_add (len buf) (len b) then
          _ ← on_repo (writing id); _ ← on_repo (writing id); _ ← on_repo (writing id); mret (Spilled (buf ++ b))
        else mret (InMemory (buf ++ b))
    end) f1 (λ payload' f2, still f1 f2 ∧ payload_bytes payload' = payload_bytes payload ++ b).
Proof.
  intros Hok. destruct payload as [buf|tmp]; [destruct (_ <? _)|].
  - apply spec_quiet_bind; [done|quiet|]. intros _ f2 Hok2 H2. apply spec_quiet_bind; [done|quiet|]. intros _ f3 Hok3 H3.
    apply spec_quiet_bind; [done|quiet|]. intros _ f4 Hok4 H4. apply spec_ret; [done|]. split; [|done].
    exact (transitivity H2 (transitivity H3 H4)).
  - by apply spec_ret.
  - apply spec_quiet_bind; [done|quiet|]. intros _ f2 Hok2 H2. by apply spec_ret.
Qed.

Lemma spec_drain_step f max payload total f1 : ok f1 → drained f payload total f1 →
  spec (¬ well_sent f) (drain_clean_step max (payload, total)) f1
    (λ r f2, match r with
      | inl st => (length (incoming (pipe f2)) < length (incoming (pipe f1)))%nat ∧ drained f st.1 st.2 f2
      | inr st => drained_all f st.1 st.2 f2
      end).
Proof.
  intros Hok Hd. unfold drain_clean_step. eapply spec_bind; [by apply (spec_next_packet _ payload total)|].
  intros p f2 Hok2 _ ([Hr Ho] & Hl & Hnext). destruct Hd as [[Ht Hcap] Hout Hrepo _]. rewrite <-Hr in Hrepo. rewrite <-Ho in Hout.
  destruct p as [| | |b].
  - apply spec_ret; [done|]. split; [done..|]. intros c rest Hin.
    destruct (Hnext c rest Hin) as [(_ & Hc & Hi)|(b & todo & [=] & _)]. done.
  - apply spec_throw; [done|]. intros (c & rest & Hin & _). by destruct (Hnext c rest Hin) as [([=] & _)|(b & todo & [=] & _)].
  - apply spec_throw; [done|]. intros (c & rest & Hin & _). by destruct (Hnext c rest Hin) as [([=] & _)|(b & todo & [=] & _)].
  - pose proof (len_nonneg b). pose proof (len_nonneg (payload_bytes payload)).
    destruct (Z.ltb_spec CLEAN_PAYLOAD_CAP (saturating_add total (len b))) as [Hc|Hc]; unfold saturating_add in Hc.
    + apply spec_throw; [done|]. intros (c & rest & Hin & Hle).
      destruct (Hnext c rest Hin) as [([=] & _)|(b' & todo & [= <-] & _ & -> & _)].
      rewrite !len_app in Hle. pose proof (len_nonneg (concat todo)). unfold u64_max, CLEAN_PAYLOAD_CAP in *. lia.
    + eapply spec_bind; [by apply (spec_store_packet f)|]. intros payload' f3 Hok3 _ [Hst Hp].
      assert (Hsum : as_u64 (total + len b) = len (payload_bytes payload')).
      { rewrite Hp, len_app, <-Ht. apply as_u64_id. unfold is_u64, u64_max, CLEAN_PAYLOAD_CAP in *. lia. }
      apply spec_ret; [done|]. rewrite (still_pipe _ _ Hst). split; [done|]. cbn [fst snd]. rewrite Hsum.
      eapply drained_same; [|exact Hst]. split; [split; [done|]|done|done|].
      { rewrite Hp, len_app. unfold u64_max, CLEAN_PAYLOAD_CAP in *. lia. }
      intros c rest Hin. destruct (Hnext c rest Hin) as [([=] & _)|(b' & todo & [= <-] & Hb & -> & Hi)].
      exists todo. split; [done|]. split; [|done]. by rewrite Hp, <-app_assoc.
Qed.

Lemma spec_drain max f : ok f →
  spec (¬ well_sent f) (drain_clean_payload max) f (λ r f', drained_all f r.1 r.2 f').
Proof.
  intros Hok. assert (Hstart : drained f (InMemory []) 0 f).
  { split; try done. intros c rest Hin. exists (chunks_of MAX_PKT_PAYLOAD c). split_and!.
    - apply chunks_fuel_bound.
    - cbn [payload_bytes]. rewrite concat_chunks_of; [done|unfold MAX_PKT_PAYLOAD; lia].
    - rewrite Hin. unfold content_bytes, left_of. by rewrite <-app_assoc. }
  assert (Hloop : ∀ fuel payload total f1, ok f1 → drained f payload total f1 → (length (incoming (pipe f1)) < fuel)%nat →
    spec (¬ well_sent f) (loop_st fuel (drain_clean_step max) (payload, total)) f1 (λ r f', drained_all f r.1 r.2 f')).
  { induction fuel as [|fuel IH]; intros payload total f1 Hok1 Hd Hf; [lia|]. cbn [loop_st].
    eapply spec_bind; [by apply spec_drain_step|]. intros [[payload' total']|r] f2 Hok2 _ Hr; [|by apply spec_ret].
    destruct Hr as [Hl Hd']. apply IH; [done|done|lia]. }
  unfold drain_clean_payload, FilterSpec.spec. apply (wps_run_eq _ (r ← loop_st (S (length (incoming (pipe f)))) (drain_clean_step max) (InMemory [], 0);
    _ ← match r.1 with Spilled _ => on_repo (writing id) | InMemory _ => mret tt end; mret r) f f); [done|].
  eapply spec_bind; [apply Hloop; [done..|lia]|]. intros r f1 Hok1 _ [Ht Ho Hr Ha].
  apply (spec_bind _ _ _ _ _ (λ _, still f1)).
  - destruct r.1; [by apply spec_ret|]. eapply spec_mono; [by apply spec_quiet, quiet_id|done|done].
  - intros [] f2 Hok2 _ [Hp Hs]. apply spec_ret; [done|]. split; rewrite ?Hp; try done. exact (transitivity Hr Hs).
Qed.

(** ** The request *)

Lemma spec_do_clean G max path f :
  inv G (repo f) →
  spec (¬ cleanable f) (do_clean max raw path) f
    (λ _ f', ∀ c rest, incoming (pipe f) = content_bytes c ++ rest → local_mode raw = true →
       (∀ c0, G !! path_key path = Some c0 → distinct_prints c0 c) →
       incoming (pipe f') = rest ∧ ∃ p, outgoing (pipe f') = outgoing (pipe f) ++ response p ∧ denotes (repo f') p c).
Proof.
  intros Hinv. eapply spec_bind.
  { eapply spec_mono; [apply spec_drain; by exists G| |by intros ? ? ? ? H; exact H].
    intros Hn (c & rest & ? & ? & _). apply Hn. by exists c, rest. }
  intros [payload total] f1 Hok1 Hs1 [[Ht Hcap] Ho Hr Ha]. cbn [fst snd] in *. subst total.
  assert (Hinv1 : inv G (repo f1)) by by eapply inv_same.
  eapply spec_mono; [apply (spec_clean_payload G); [done|]| |].
  { unfold CLEAN_PAYLOAD_CAP in Hcap. lia. }
  { intros Hn (c & rest & Hin & _ & Hw). destruct (Ha c rest Hin) as [-> _]. by rewrite (sr_objects _ _ Hr) in Hn. }
  intros [] f2 _ _ Hc c rest Hin Hl Hd. destruct (Ha c rest Hin) as [Heq Hi]. rewrite <-Heq in Hc.
  destruct (Hc Hl Hd) as (Hi2 & p & Ho2 & Hp). split; [congruence|]. exists p. by rewrite Ho2, Ho.
Qed.

(** C11. A clean in local mode answers the content with a pointer that the store
    resolves to exactly that content, whether the clean cache had it or not and
    whether the payload was kept in memory or spilled: if the entry cached for
    the path was made of another content, its fingerprints tell the two apart
    (no collision of xxh3 between these two).  The request always comes back,
    keeps the invariant that the cache only names what the store holds, loses
    nothing the store had, and fails only when a call failed. *)
Theorem clean_answers_pointer G max path f c rest :
  inv G (repo f) → local_mode raw = true →
  incoming (pipe f) = content_bytes c ++ rest → len c ≤ CLEAN_PAYLOAD_CAP →
  (∀ c0, G !! path_key path = Some c0 → distinct_prints c0 c) →
  let '(r, f') := do_clean max raw path f in
  match r with
  | Ok _ => incoming (pipe f') = rest ∧
      ∃ p, outgoing (pipe f') = outgoing (pipe f) ++ response p ∧ denotes (repo f') p c
  | Err _ => ¬ (calm f ∧ clean_works (objects (repo f)) c)
  | _ => False
  end ∧ (∃ G', inv G' (repo f')) ∧ ∀ p b, denotes (repo f) p b → denotes (repo f') p b.
Proof.
  intros Hinv Hl Hin Hcap Hd. pose proof (spec_do_clean G max path f Hinv) as Hs. unfold FilterSpec.spec, wps in Hs.
  destruct (do_clean max raw path f) as [[[]|e| |] f']; try done; destruct Hs as (Hok & Hstep & HQ).
  - split; [by apply HQ|]. split; [done|apply Hstep].
  - split; [|split; [done|apply Hstep]]. intros [Hc Hw]. apply (HQ Hc). by exists c, rest.
Qed.
End clean.
