(* ===== verification/SmudgeSpec.v ===== *)
(** * A smudge answers what its pointer denotes

    The smudge half of [filter_process.rs]: its caches, the local store, the
    network under the watchdog. *)

From stdpp Require Import gmap list.
From S2P Require Import Prelude RustStd Pktline CleanCache Config Repo Filter FilterSpec CleanSpec.

(** ** The watchdog *)
Section watchdog.
Variables (label : str) (stall : Z).
Hypothesis stall_pos : 0 < stall.
#[local] Set Default Proof Using "Type*".

(** The polls [ws], after [last] bytes were seen and [idle] seconds were idle,
    have a run without progress that is as long as the patience. *)
Definition gives_up (last idle : Z) (ws : list Z) : Prop := ∃ pre run post,
  ws = pre ++ run ++ post ∧ run ≠ [] ∧ Forall (λ w, w ≤ foldl Z.max last pre) run ∧
  stall ≤ STALL_POLL * len run + (if decide (pre = []) then idle else 0).

Lemma gives_up_progress last idle w ws : last < w → gives_up last idle (w :: ws) ↔ gives_up w 0 ws.
Proof.
  intros Hw. split.
  - intros (pre & run & post & Heq & Hne & Hrun & Hlen). destruct pre as [|w' pre]; simplify_list_eq.
    + destruct run as [|w' run]; [done|]. simplify_list_eq. inversion Hrun. simpl in *. lia.
    + exists pre, run, post. rewrite Z.max_r in Hrun by lia. split_and!; try done.
      repeat case_decide; simplify_eq; lia.
  - intros (pre & run & post & -> & Hne & Hrun & Hlen). exists (w :: pre), run, post. split_and!; try done.
    + simpl. by rewrite Z.max_r by lia.
    + repeat case_decide; simplify_eq; lia.
Qed.

Lemma gives_up_quiet last idle w ws : w ≤ last → 0 ≤ idle →
  gives_up last idle (w :: ws) ↔ stall ≤ idle + STALL_POLL ∨ gives_up last (idle + STALL_POLL) ws.
Proof.
  intros Hw Hi. unfold gives_up, STALL_POLL. split.
  - intros (pre & run & post & Heq & Hne & Hrun & Hlen). destruct pre as [|w' pre]; simplify_list_eq.
    + destruct run as [|w' run]; [done|]. simplify_list_eq. rewrite len_cons in Hlen. repeat case_decide; simplify_eq.
      inversion Hrun as [|? ? ? Hrun']. destruct run as [|w2 run]; [left; unfold len in Hlen; simpl in Hlen; lia|right].
      exists [], (w2 :: run), post. split_and!; try done. repeat case_decide; simplify_eq; lia.
    + right. rewrite Z.max_l in Hrun by lia. exists pre, run, post. split_and!; try done.
      repeat case_decide; simplify_eq; lia.
  - intros [Hs|(pre & run & post & -> & Hne & Hrun & Hlen)].
    + exists [], [w], ws. split_and!; try done; [by constructor|]. unfold len; simpl; repeat case_decide; simplify_eq; lia.
    + destruct (decide (pre = [])) as [->|Hp].
      * exists [], (w :: run), post. split_and!; try done; [by constructor|]. rewrite len_cons. repeat case_decide; simplify_eq; lia.
      * exists (w :: pre), run, post. split_and!; try done; try (simpl; by rewrite Z.max_l by lia); repeat case_decide; simplify_eq; lia.
Qed.

(** The watchdog gives up at the first such run, else it goes on. *)
Lemma watch_polls ws : ∀ last idle tail, 0 ≤ idle →
  (gives_up last idle ws ∧ watch label stall last idle ((Poll <$> ws) ++ tail) = Err (stalled label stall)) ∨
  (¬ gives_up last idle ws ∧ ∃ last' idle', watch label stall last idle ((Poll <$> ws) ++ tail) = watch label stall last' idle' tail).
Proof.
  induction ws as [|w ws IH]; intros last idle tail Hi.
  - right. split; [|by eexists _, _]. intros (pre & run & post & Heq & Hne & _). by destruct pre, run.
  - csimpl. destruct (Z.ltb_spec last w) as [Hw|Hw].
    + rewrite gives_up_progress by done. by apply IH.
    + rewrite gives_up_quiet by done. destruct (Z.leb_spec stall (idle + STALL_POLL)); [by eauto|].
      destruct (IH last (idle + STALL_POLL) tail) as [[? ?]|[? ?]]; [unfold STALL_POLL; lia|by eauto|].
      right. split; [|done]. intros [|]; [lia|done].
Qed.

(** Polls of a download of [n] bytes in all: a limit on those before it gives up. *)
Definition patience (n : Z) : Z := (n + 1) * ((stall + 1) / STALL_POLL).

Lemma patience_ends n ws : ∀ last j, 0 ≤ last ≤ n → Forall (λ w, w ≤ n) ws → 0 ≤ j < (stall + 1) / STALL_POLL →
  (n - last) * ((stall + 1) / STALL_POLL) + (stall + 1) / STALL_POLL - j ≤ len ws → gives_up last (STALL_POLL * j) ws.
Proof.
  unfold STALL_POLL. set (k := (stall + 1) / 2). assert (Hk : stall ≤ 2 * k ≤ stall + 1) by (unfold k; div_lia). clearbody k.
  induction ws as [|w ws IH]; intros last j Hl Hws Hj Hlen; [unfold len in Hlen; simpl in Hlen; nia|].
  rewrite len_cons in Hlen. inversion Hws; subst. destruct (Z.lt_ge_cases last w) as [Hw|Hw].
  - rewrite gives_up_progress by done. apply (IH w 0); [lia|done|lia|]. nia.
  - rewrite gives_up_quiet by lia. destruct (Z.le_gt_cases k (j + 1)); [left; unfold STALL_POLL; lia|right].
    replace (2 * j + STALL_POLL) with (2 * (j + 1)) by (unfold STALL_POLL; lia). apply IH; [done|done|lia|lia].
Qed.
End watchdog.

(** C31. The watchdog of a cold download aborts exactly the stalled ones: a
    download whose end is seen after the polls [ws] of its byte count is
    reported as it ended, unless some run of polls without progress lasted the
    patience, and then that is reported; a download that never ends is aborted
    within a number of polls that its size bounds. *)
Theorem watchdog_aborts_stalled label stall ws r later :
  0 < stall →
  (gives_up stall 0 0 ws → download_cold label stall ((Poll <$> ws) ++ Finished r :: later) = Err (stalled label stall)) ∧
  (¬ gives_up stall 0 0 ws → download_cold label stall ((Poll <$> ws) ++ Finished r :: later) = r) ∧
  (∀ n, 0 ≤ n → Forall (λ w, w ≤ n) ws → patience stall n ≤ len ws →
     ∀ tail, download_cold label stall ((Poll <$> ws) ++ tail) = Err (stalled label stall)).
Proof.
  intros Hs. unfold download_cold. rewrite (proj2 (Z.eqb_neq _ _)) by lia.
  pose proof (λ tail, watch_polls label stall Hs ws 0 0 tail ltac:(lia)) as Hw.
  split_and!.
  - intros Hg. by destruct (Hw (Finished r :: later)) as [[_ ?]|[? _]].
  - intros Hg. by destruct (Hw (Finished r :: later)) as [[? _]|[_ (? & ? & ->)]].
  - intros n Hn Hws Hp tail. destruct (Hw tail) as [[_ ?]|[Hng _]]; [done|]. destruct Hng.
    unfold patience in Hp. assert (0 < (stall + 1) / STALL_POLL) by (unfold STALL_POLL; div_lia).
    apply (patience_ends stall Hs n ws 0 0); [lia|done|lia|lia].
Qed.

Lemma watchdog_aborts_stalled_witness :
  download_cold (lit "a") 5 ((Poll <$> [10; 10; 20; 20; 20]) ++ [Finished (Ok tt)]) = Ok tt ∧
  download_cold (lit "a") 5 ((Poll <$> [10; 10; 10; 10; 20]) ++ [Finished (Ok tt)]) = Err (stalled (lit "a") 5).
Proof.
  split.
  - apply (watchdog_aborts_stalled (lit "a") 5 [10; 10; 20; 20; 20] (Ok tt) []); [lia|].
    intros Hg. repeat first [apply gives_up_progress in Hg; [|lia..] | apply gives_up_quiet in Hg; [|unfold STALL_POLL; lia..]; destruct Hg as [Hg|Hg]; [unfold STALL_POLL in Hg; lia|]].
    destruct Hg as (pre & run & post & Heq & Hne & _). by destruct pre, run.
  - apply (watchdog_aborts_stalled (lit "a") 5 [10; 10; 10; 10; 20] (Ok tt) []); [lia|].
    exists [10], [10; 10; 10], [20]. split; [reflexivity|]. split; [discriminate|]. split; [repeat constructor; simpl; lia|].
    vm_compute. discriminate.
Defined.

(** ** The four paths of a smudge *)
Section smudge.
Context {C : Crates} {CL : CrateLaws} {Env : Environment} {EL : EnvironmentLaws}.
Context (raw : RawConfig) (stall_secs : Z).
#[local] Set Default Proof Using "Type*".
Implicit Types f : Filter.
#[local] Abbreviation spec := (FilterSpec.spec raw).
#[local] Abbreviation ok := (FilterSpec.ok raw).
#[local] Abbreviation inv := (FilterSpec.inv raw).

(** What is seen of a cold download lets the watchdog, or the wait, end. *)
Hypothesis network_ends : ∀ cfg cache info n label,
  returned (download_cold label stall_secs (net_download cfg cache info n).1.1).

(** What a smudge in local mode needs of its surroundings to succeed. *)
Definition smudge_works : Prop := is_ok (object_store_root raw) ∧ is_ok get_cache.

Lemma spec_try_terms cache terms : ∀ out n f, ok f →
  spec True (on_repo_str (try_terms cache terms out n)) f (λ _, still f).
Proof.
  assert (Hw : ∀ out n r, wps (try_terms cache terms out n) r (λ _ r', same_repo r r') (λ _ r', same_repo r r')).
  { induction terms as [|t terms IH]; intros out n r; cbn [try_terms]; [by wsteps|]. wsteps.
    pose proof (merkle_from_returns (ct_xorb_hash t)). destruct (merkle_from_hex _) as [h|e| |]; try done; cbn [map_err wp].
    pose proof (cache_get_returns cache h (ct_chunk_start t) (ct_chunk_end t)).
    destruct (cache_get _ _ _ _) as [[data|]| | |]; try done; [|by wsteps..].
    destruct (negb _); [by wsteps|]. wsteps. eapply wps_mono; [apply quiet_id| |by intros e r1 [? _]].
    intros [] r1 Hs1. eapply wps_mono; [apply IH| |].
    - intros a r2 Hs2. exact (transitivity Hs1 Hs2).
    - intros a r2 Hs2. exact (transitivity Hs1 Hs2). }
  intros out n f Hok. unfold FilterSpec.spec, on_repo_str. specialize (Hw out n (repo f)). unfold wps, zoom in *.
  destruct (try_terms cache terms out n (repo f)) as [[a|e| |] r]; try done.
  all: assert (Hst : still f (set_repo r f)) by (by split).
  all: split_and!; [by eapply still_ok|by apply still_step|done].
Qed.

Lemma spec_from_caches hex n f : ok f →
  spec (local_mode raw = false) (from_caches raw hex n) f
    (λ r f', still f f' ∧ (local_mode raw = true → r = (false, []))).
Proof.
  intros Hok. unfold from_caches. destruct (git_dir raw); [|by apply spec_ret].
  eapply spec_first; [apply (spec_reads_ignored raw _ _ _ Hok (reads_manifest_load hex))|].
  intros o f1 Hok1 _ (Hst1 & Ho & _). destruct o as [[m|]|]; [|by apply spec_ret..].
  assert (Hl : local_mode raw = false).
  { apply not_true_is_false. intros Hl. destruct Hok as [G [_ Hm]]. specialize (Ho _ eq_refl). by rewrite Hm in Ho. }
  apply spec_quiet_bind; [done|quiet|]. intros [] f2 Hok2 Hst2.
  eapply spec_bind; [by apply (spec_gets _ _ _ _ (λ _ f', f' = f2))|]. intros cache f2' _ _ ->.
  apply (spec_bind _ _ _ _ _ (λ _, still f2)).
  { apply (spec_mono _ True _ _ _ (λ _, still f2)); [|done|done]. unfold try_reconstruct_from_cache, on_repo_str.
    pose proof (spec_try_terms cache (cm_terms m) [] 0 f2 Hok2) as Ht. unfold FilterSpec.spec, on_repo_str, wps, zoom, mbind, ST_bind in *.
    destruct (try_terms cache (cm_terms m) [] 0 (repo f2)) as [[[[|] out]|e| |] r]; try done. by destruct (negb _). }
  intros [o out] f3 Hok3 _ Hst3. apply spec_ret; [done|]. rewrite Hl. split; [|done].
  exact (transitivity Hst1 (transitivity Hst2 Hst3)).
Qed.

(** What a download from the store wrote, if it was tried. *)
Lemma spec_try_store info n tmp f : ok f →
  spec False (try_smudge_from_store info n tmp) f
    (λ r f', still f f' ∧
       (r.1 = inl true → store_present (repo f) = true ∧ ∃ b, xet_download (objects (repo f)) info n = (Ok tt, b) ∧ r.2 = over b tmp) ∧
       (calm f → store_present (repo f) = true → is_ok (xet_download (objects (repo f)) info n).1 → r.1 = inl true)).
Proof.
  intros Hok. unfold try_smudge_from_store.
  eapply spec_first; [apply (spec_reads_ignored raw _ store_present _ Hok); by apply reads_reading|].
  intros o f1 Hok1 _ (Hst1 & Ho & Hcalm). destruct (negb (default false o)) eqn:Hn.
  { apply spec_ret; [done|]. split; [done|]. split; [done|]. intros Hc Hs. rewrite (Hcalm Hc) in Hn. simpl in Hn. by rewrite Hs in Hn. }
  destruct o as [p|]; [|done]. assert (Hp : store_present (repo f) = true) by (rewrite <-(Ho p eq_refl); by destruct p).
  eapply spec_first; [by apply spec_attempt_quiet, quiet_id|]. intros a f2 Hok2 _ [Hst2 Ha].
  assert (Hst : still f f2) by exact (transitivity Hst1 Hst2). destruct a as [u|e].
  2: { apply spec_ret; [done|]. split; [done|]. split; [done|]. intros Hc. by destruct (Ha (still_calm _ _ Hst1 Hc)). }
  eapply spec_first; [by apply (spec_gets _ _ _ _ (λ o f', f' = f2 ∧ o = objects (repo f2)))|]. intros objs f2' _ _ [-> ->].
  rewrite (sr_objects _ _ (still_repo _ _ Hst)). pose proof (xet_download_returns (objects (repo f)) info n) as Hret.
  destruct (xet_download (objects (repo f)) info n) as [[[]|e| |] b]; try done; (apply spec_ret; [done|]).
  split; [done|]. by eauto.
Qed.

Lemma spec_from_staging info n hit tmp f : ok f →
  spec False (from_staging raw info n hit tmp) f (λ r f', still f f' ∧ (local_mode raw = true → r = (false, tmp))).
Proof.
  intros Hok. unfold from_staging. apply (spec_first _ _ _ _ _ (λ b f', still f f' ∧ (local_mode raw = true → b = false))).
  - destruct (local_mode raw); [rewrite andb_false_r; by apply spec_ret|]. destruct (_ && _); [|by apply spec_ret].
    eapply spec_mono; [apply spec_quiet; [done|]|done|done]. eapply quiet_or_else, quiet_reads, reads_reading. done.
  - intros b f1 Hok1 _ [Hst1 Hb]. destruct b; [|by apply spec_ret].
    eapply spec_first; [by apply spec_try_store|]. intros [r tmp'] f2 Hok2 _ [Hst2 _]. apply spec_ret; [done|].
    split; [exact (transitivity Hst1 Hst2)|]. intros Hl. by specialize (Hb Hl).
Qed.

Lemma quiet_truncate f E : ok f → spec E truncate f (λ _, still f).
Proof.
  intros Hok. unfold truncate. apply spec_quiet_bind; [done|quiet|]. intros _ f1 Hok1 H1.
  apply spec_quiet_bind; [done|quiet|]. intros _ f2 Hok2 H2.
  eapply spec_mono; [by apply spec_quiet, quiet_id|done|]. intros [] f3 _ _ H3. exact (transitivity H1 (transitivity H2 H3)).
Qed.

(** What the local store answers is what it has under the pointer. *)
Lemma spec_from_local_store info n f : ok f → 0 ≤ n →
  spec (¬ (is_ok (object_store_root raw) ∧ store_present (repo f) = true ∧ ∃ b, xet_download (objects (repo f)) info n = (Ok tt, b) ∧ len b = n))
    (from_local_store raw info n) f
    (λ tmp f', still f f' ∧ store_present (repo f') = true ∧ xet_download (objects (repo f)) info n = (Ok tt, tmp) ∧ len tmp = n).
Proof.
  intros Hok Hn. unfold from_local_store. set (E := ¬ (_ ∧ _)).
  apply (spec_bind _ _ _ _ _ (λ _ f', f' = f)).
  { apply spec_context, spec_lift; [done|]. unfold E. unfold object_store_root.
    destruct (local_mode raw); [destruct (local_store raw); [done|]|]; destruct (git_dir raw); try done; by intros [? _]. }
  intros store f0 _ _ ->.
  eapply spec_first; [by apply quiet_truncate|]. intros [] f1 Hok1 _ Hst1.
  pose proof (sr_objects _ _ (still_repo _ _ Hst1)) as Hobj. pose proof (sr_store _ _ (still_repo _ _ Hst1)) as Hstore.
  eapply spec_first_calm; [by apply spec_try_store|]. intros [r tmp] f2 Hok2 _ (Hst2 & Hr & Hcalm). rewrite Hobj in Hr, Hcalm.
  assert (Hbad : r ≠ inl true → calm f1 → E).
  { intros Hne Hc (_ & Hs & b & Hb & _). apply Hne, Hcalm; [done|by apply Hstore|by rewrite Hb]. }
  destruct r as [okr|e]; [|by apply spec_throw, Hbad].
  eapply spec_first_calm; [apply (spec_reads_or raw 0 _ (λ _, len tmp)); [done|by apply reads_reading]|].
  intros written f3 Hok3 _ (Hst3 & Hwr & Hwc). assert (Hst : still f f3) by exact (transitivity Hst1 (transitivity Hst2 Hst3)).
  destruct okr; [cbn [negb orb]|by apply spec_throw; [|intros _; by apply Hbad]].
  destruct (Hr eq_refl) as (Hs & b & Hb & Htmp). cbn [snd] in Htmp. unfold over in Htmp. rewrite drop_nil, app_nil_r in Htmp. subst tmp.
  pose proof (xet_download_bound _ _ _ _ Hn Hb) as Hbound. pose proof (len_nonneg b).
  destruct (Z.eqb_spec written n) as [Hw|Hw]; cbn [negb].
  - apply spec_ret; [done|]. split; [done|]. split; [by apply (still_repo _ _ Hst3), (still_repo _ _ Hst2)|]. split; [done|]. lia.
  - apply spec_throw; [done|]. intros Hc _ (_ & _ & b' & Hb' & Hlen). rewrite Hb in Hb'. injection Hb' as <-. rewrite Hwc in Hw; done.
Qed.

(** ** The end of every path *)

Lemma spec_populate path content p n f :
  ok f → is_u64 n → (local_mode raw = true → len content = n ∧ denotes (repo f) p content) →
  spec False (populate_clean_cache_from_smudge path content p n) f (λ _ f', pipe f' = pipe f).
Proof.
  intros Hok Hn Hl. unfold populate_clean_cache_from_smudge. destruct (negb _); [by apply spec_ret|].
  pose proof (wp_compute_chunks xxh3 content n ltac:(unfold is_u64 in Hn; lia)) as Hw.
  eapply spec_first; [apply (spec_ignored raw True _ (λ cs, compute_chunks xxh3 content n = Ok cs)); [done| |]|].
  - apply quiet_seq; [by eapply quiet_weaken; [apply quiet_id|]|intros _]. apply quiet_lift.
    by destruct (compute_chunks xxh3 content n).
  - intros r. wstep. eapply wps_mono; [apply quiet_id| |done]. intros [] r1 _. wsteps.
    by destruct (compute_chunks xxh3 content n).
  - intros o f1 Hok1 _ [Hst Ho]. destruct o as [cs|]; [|apply spec_ret; [done|apply Hst]].
    rewrite (Ho cs eq_refl) in Hw. destruct Hw as [Hle Hcs]. unfold is_u64 in Hn.
    assert (Hlen : len (take (Z.to_nat n) content) = n) by (unfold len in *; rewrite length_take; lia).
    eapply spec_mono; [apply (spec_save_entry raw _ _ _ _ (take (Z.to_nat n) content)); [done| |]|done|].
    + split; [done|]. by rewrite Hlen.
    + intros Hm. destruct (Hl Hm) as [Hc Hd]. rewrite take_ge by (unfold len in *; lia). by apply (denotes_same _ _ _ _ (still_repo _ _ Hst)).
    + intros [] f2 _ _ [Hp _]. rewrite Hp. apply Hst.
Qed.

Lemma spec_pieces pieces : ∀ f, ok f → Forall (λ b, b ≠ [] ∧ (length b ≤ MAX_PKT_PAYLOAD)%nat) pieces →
  spec False (for_each (λ piece, _ ← on_repo (writing id); on_pipe (write_binary piece)) pieces) f
    (λ _ f', same_repo (repo f) (repo f') ∧ incoming (pipe f') = incoming (pipe f) ∧
       outgoing (pipe f') = outgoing (pipe f) ++ flat_map packet_bytes pieces).
Proof.
  induction pieces as [|b pieces IH]; intros f Hok Hb; cbn [for_each flat_map].
  { apply spec_ret; [done|]. by rewrite app_nil_r. }
  inversion Hb as [|? ? [Hne Hle] Hb']; subst.
  apply (spec_first _ _ _ _ _ (λ _ f', same_repo (repo f) (repo f') ∧ incoming (pipe f') = incoming (pipe f) ∧
       outgoing (pipe f') = outgoing (pipe f) ++ packet_bytes b)).
  - apply spec_quiet_bind; [done|quiet|]. intros _ f1 Hok1 Hst1.
    eapply spec_mono; [apply spec_writes; [done|apply writes_binary]|done|]. intros [] f2 _ _ (Hr & Hi & Ho).
    rewrite Hr, Hi, Ho, (still_pipe _ _ Hst1), chunks_of_piece by done. cbn [flat_map]. rewrite app_nil_r. split; [apply Hst1|done].
  - intros [] f1 Hok1 _ (Hr1 & Hi1 & Ho1). eapply spec_mono; [by apply IH|done|]. intros [] f2 _ _ (Hr2 & Hi2 & Ho2).
    rewrite Hi2, Ho2, Hi1, Ho1, <-app_assoc. split; [exact (transitivity Hr1 Hr2)|done].
Qed.

Lemma spec_finish_smudge tmp f : ok f →
  spec False (finish_smudge tmp) f (λ _ f', same_repo (repo f) (repo f') ∧ incoming (pipe f') = incoming (pipe f) ∧
    outgoing (pipe f') = outgoing (pipe f) ++ response tmp).
Proof.
  intros Hok. eapply spec_first; [by apply spec_writes, writes_status|]. intros [] f1 Hok1 _ (Hr1 & Hi1 & Ho1).
  apply spec_quiet_bind; [done|quiet|]. intros [] f2 Hok2 Hst2.
  eapply spec_first.
  { apply spec_pieces; [done|]. apply Forall_and. split; [|apply chunks_fuel_bound].
    apply chunks_fuel_nonempty. unfold MAX_PKT_PAYLOAD. lia. }
  intros [] f3 Hok3 _ (Hr3 & Hi3 & Ho3). apply spec_quiet_bind; [done|quiet|]. intros [] f4 Hok4 Hst4.
  eapply spec_first; [apply spec_writes, writes_flush_packet; done|]. intros [] f5 Hok5 _ (Hr5 & Hi5 & Ho5).
  eapply spec_mono; [by apply spec_writes, writes_status|done|]. intros [] f6 _ _ (Hr6 & Hi6 & Ho6).
  rewrite Hr6, Hr5, Hi6, Hi5, Ho6, Ho5, (still_pipe _ _ Hst4), Hi3, Ho3, (still_pipe _ _ Hst2), Hi1, Ho1.
  split_and!; [|done|unfold response, content_bytes; by rewrite <-!app_assoc].
  rewrite <-Hr1. exact (transitivity (still_repo _ _ Hst2) (transitivity Hr3 (still_repo _ _ Hst4))).
Qed.

(** What every path ends with. *)
Lemma spec_populate_and_finish path tmp p n f :
  ok f → is_u64 n → (local_mode raw = true → len tmp = n ∧ denotes (repo f) p tmp) →
  spec False (populate_and_finish raw path tmp p n) f (λ _ f', incoming (pipe f') = incoming (pipe f) ∧
    outgoing (pipe f') = outgoing (pipe f) ++ response tmp).
Proof.
  intros Hok Hn Hl. unfold populate_and_finish. apply (spec_first _ _ _ _ _ (λ _ f', pipe f' = pipe f)).
  - destruct (git_dir raw); [by apply spec_populate|by apply spec_ret].
  - intros [] f1 Hok1 _ Hp. eapply spec_mono; [by apply spec_finish_smudge|done|]. intros [] f2 _ _ (_ & Hi & Ho).
    by rewrite Hi, Ho, Hp.
Qed.

(** ** The network *)

Lemma spec_still E (g : Filter → Filter) f : ok f → still f (g f) → spec E (modify g) f (λ _, still f).
Proof. intros Hok Hst. apply wps_modify. split_and!; [by eapply still_ok|by apply still_step|done]. Qed.

Lemma spec_lift_any {A} (o : outcome str A) f : ok f → returned o → spec True (lift o) f (λ _, still f).
Proof. intros Hok Ho. apply spec_lift; [done|]. by destruct o. Qed.

Lemma spec_resolve_cached f : ok f → spec True (resolve_cached raw) f (λ _, still f).
Proof.
  intros Hok. eapply spec_bind; [by apply (spec_gets _ _ _ _ (λ _ f', f' = f))|]. intros slot f0 _ _ ->.
  destruct slot; [by apply spec_ret|]. eapply spec_bind; [apply spec_lift_any, resolve_read_returns; done|].
  intros [[url tok] ex] f1 Hok1 _ Hst1. eapply spec_bind; [by apply spec_still|]. intros [] f2 Hok2 _ Hst2.
  apply spec_ret; [done|]. exact (transitivity Hst1 Hst2).
Qed.

Lemma spec_manifest_save h m f : ok f → local_mode raw = false →
  spec False (on_repo (ignore (manifest_save h m))) f (λ _ f', pipe f' = pipe f).
Proof.
  intros [G Hok] Hl.
  assert (Hw : wps (manifest_save h m) (repo f)
    (λ _ r', ∃ r0 ms, same_repo (repo f) r0 ∧ r' = set_manifests ms r0) (λ _ r', same_repo (repo f) r')).
  { unfold manifest_save.
    eapply quiet_then; [reflexivity|apply quiet_create_subdir|]. intros [] r2 H2.
    eapply quiet_then; [done|apply quiet_id|]. intros [] r3 H3.
    wsteps. pose proof (manifest_json_returns m). destruct (manifest_to_json_pretty m) as [b|e| |]; try done; cbn [map_err wp].
    eapply quiet_then; [done|apply quiet_id|]. intros [] r4 H4.
    eapply quiet_then; [done|apply quiet_id|]. intros [] r5 H5.
    eapply quiet_then; [done|apply quiet_id|]. intros [] r6 H6.
    unfold wps, writing, call. assert (same_repo (repo f) (pop_fault r6)) by (etrans; [done|apply same_pop]).
    destruct (default None (head (faults r6))); [done|]. by eexists _, _. }
  apply wps_on_repo. unfold ignore, wps in *. destruct (manifest_save h m (repo f)) as [[[]|e| |] r]; try done.
  - destruct Hw as (r0 & ms & Hs & ->). destruct (inv_same _ _ _ _ Hs Hok) as [Hi _].
    split; [exists G; split; [exact Hi|by rewrite Hl]|]. split; [|done].
    split; [by exists []|intros p c; apply (denotes_same _ _ _ _ Hs)|apply Hs|done].
  - assert (Hst : still f (set_repo r f)) by by split. split_and!; [by eapply (still_ok _ _ _ Hst); exists G|by apply still_step|done].
Qed.

Lemma spec_from_network path info n f : ok f → local_mode raw = false →
  spec True (from_network stall_secs raw path info n) f (λ _ f', pipe f' = pipe f).
Proof.
  intros Hok Hl. eapply spec_bind; [by apply quiet_truncate|]. intros [] f1 Hok1 _ [Hp1 _].
  eapply spec_bind; [by apply spec_resolve_cached|]. intros cfg f2 Hok2 _ [Hp2 _].
  eapply spec_bind; [apply spec_lift_any, build_translator_returns; done|]. intros u f3 Hok3 _ [Hp3 _].
  apply spec_quiet_bind; [done|quiet|]. intros [] f4 Hok4 [Hp4 _].
  eapply spec_bind; [by apply (spec_gets _ _ _ _ (λ _ f', f' = f4))|]. intros cache f4' _ _ ->.
  pose proof (network_ends cfg cache info n path) as Hev. destruct (net_download cfg cache info n) as [[events written] cache'].
  eapply spec_bind; [by apply spec_still|]. intros [] f5 Hok5 _ [Hp5 _].
  eapply spec_bind; [by apply spec_lift_any|]. intros [] f6 Hok6 _ [Hp6 _].
  assert (Hp : pipe f6 = pipe f) by congruence.
  destruct (git_dir raw); [|by apply spec_ret].
  pose proof (merkle_of_returns info). destruct (info_merkle info) as [h|e| |]; try done; try by apply spec_ret.
  pose proof (get_reconstruction_returns cfg h). unfold fetch_manifest.
  destruct (get_reconstruction_v1 cfg h) as [[terms|]|e| |]; try done; cbn; try by apply spec_ret.
  eapply spec_bind; [eapply spec_mono; [by apply spec_manifest_save|done|done]|].
  intros o f7 Hok7 _ Hp7. apply spec_ret; [done|]. congruence.
Qed.

(** ** The request *)

(** The pointer that is waiting to be read denotes something. *)
Definition pointed f : Prop := ∃ p c rest, incoming (pipe f) = content_bytes p ++ rest ∧ denotes (repo f) p c.

Lemma denotes_small r p c : denotes r p c → len p ≤ SMUDGE_PAYLOAD_CAP.
Proof.
  intros (_ & info & Hp & _). unfold parse_pointer in Hp. unfold SMUDGE_PAYLOAD_CAP, POINTER_MAX_BYTES in *.
  destruct (Z.ltb_spec 4096 (len p)); [done|lia].
Qed.
Lemma denotes_det r p c c' : denotes r p c → denotes r p c' → c = c'.
Proof. intros (_ & info & Hp & Hn & _ & Hd) (_ & info' & Hp' & Hn' & _ & Hd'). congruence. Qed.

Lemma spec_read_pointer f : ok f →
  spec (¬ pointed f) (on_pipe (read_binary_to SMUDGE_PAYLOAD_CAP)) f
    (λ r f', repo f' = repo f ∧ outgoing (pipe f') = outgoing (pipe f) ∧
       ∀ p rest, incoming (pipe f) = content_bytes p ++ rest → len p ≤ SMUDGE_PAYLOAD_CAP →
         r.1 = p ∧ incoming (pipe f') = rest).
Proof.
  intros Hok. assert (Hcap : 0 ≤ SMUDGE_PAYLOAD_CAP < u64_max) by by vm_compute.
  pose proof (wps_run _ _ _ _ (wps_read_binary_to SMUDGE_PAYLOAD_CAP (pipe f) Hcap)) as Hw.
  apply (spec_pipe raw _ _ _ (λ r s, ∀ p rest, incoming (pipe f) = content_bytes p ++ rest → len p ≤ SMUDGE_PAYLOAD_CAP →
         r.1 = p ∧ incoming s = rest)); [done|].
  eapply wps_mono; [exact Hw| |].
  - intros r s [[Hc _] Hrun]. split; [done|]. intros p rest Hin Hp.
    rewrite (parses_content p SMUDGE_PAYLOAD_CAP ltac:(lia) _ rest Hin) in Hrun. by injection Hrun as <- <-.
  - intros e s [Hc Hrun]. split; [done|]. intros (p & c & rest & Hin & Hd). pose proof (denotes_small _ _ _ Hd).
    by rewrite (parses_content p SMUDGE_PAYLOAD_CAP ltac:(lia) _ rest Hin) in Hrun.
Qed.

Lemma spec_handle_smudge path f : ok f →
  spec (¬ smudge_works ∨ ¬ pointed f ∨ local_mode raw = false) (handle_smudge stall_secs raw path) f
    (λ _ f', local_mode raw = true → ∃ p b,
       (∀ p' rest, incoming (pipe f) = content_bytes p' ++ rest → len p' ≤ SMUDGE_PAYLOAD_CAP → p = p' ∧ incoming (pipe f') = rest) ∧
       outgoing (pipe f') = outgoing (pipe f) ++ response b ∧ denotes (repo f') p b).
Proof.
  intros Hok. set (E := _ ∨ _). eapply spec_bind.
  { eapply spec_mono; [by apply spec_read_pointer|by right; left|]. intros r f' _ _ H. exact H. }
  intros [p n0] f1 Hok1 _ (Hr1 & Ho1 & Hread). cbn [fst] in Hread.
  assert (Hpt : pointed f → ∃ c, denotes (repo f) p c).
  { intros (p' & c & rest & Hin & Hd). destruct (Hread p' rest Hin (denotes_small _ _ _ Hd)) as [-> _]. by exists c. }
  assert (HE : (∀ c, ¬ denotes (repo f) p c) → E) by (intros H; right; left; intros [c Hc]%Hpt; by apply (H c)).
  pose proof (parse_pointer_returns p) as Hret. destruct (parse_pointer p) as [info|e| |] eqn:Hp; try done.
  2: { apply (spec_bind _ _ _ _ _ (λ _ _, False)); [|done]. apply spec_context, spec_lift; [done|]. apply HE.
       intros c (_ & info & Hp' & _). by rewrite Hp in Hp'. }
  apply (spec_bind _ _ _ _ _ (λ i f', f' = f1 ∧ i = info)); [by apply spec_context, spec_lift|]. intros i f1' _ _ [-> ->].
  destruct (info_size info) as [n|] eqn:Hn.
  2: { apply (spec_bind _ _ _ _ _ (λ _ _, False)); [|done]. apply spec_lift; [done|]. apply HE.
       intros c (_ & info' & Hp' & Hn' & _). congruence. }
  eapply spec_lift_bind; [done|]. pose proof (info_size_u64 _ _ Hn) as Hu.
  destruct (is_safe_file_id (info_hash info)) eqn:Hsafe.
  2: { apply spec_throw; [done|]. apply HE. intros c (_ & info' & Hp' & _ & Hs' & _). congruence. }
  cbn [negb]. apply (spec_bind _ _ _ _ _ (λ _ f', f' = f1)).
  { apply spec_context, spec_lift; [done|]. pose proof get_cache_returns as Hg. unfold E, smudge_works.
    destruct get_cache; try done. left. by intros [_ ?]. }
  intros _ f1' _ _ ->. apply spec_quiet_bind; [done|quiet|]. intros [] f2 Hok2 Hst2.
  eapply spec_bind; [eapply spec_mono; [by apply spec_from_caches|by right; right|by intros ? ? ? ? H; exact H]|].
  intros [hit tmp] f3 Hok3 _ [Hst3 Hc]. eapply spec_first; [by apply spec_from_staging|].
  intros [shit tmp'] f4 Hok4 _ [Hst4 Hs]. assert (Hst : still f1 f4) by exact (transitivity Hst2 (transitivity Hst3 Hst4)).
  assert (Hp4 : incoming (pipe f4) = incoming (pipe f1) ∧ outgoing (pipe f4) = outgoing (pipe f)) by by rewrite (still_pipe _ _ Hst).
  destruct Hp4 as [Hi4 Ho4].
  assert (Hend : ∀ tmp f5, ok f5 → pipe f5 = pipe f4 → local_mode raw = false →
    spec E (populate_and_finish raw path tmp p n) f5
    (λ _ f', local_mode raw = true → ∃ p b,
       (∀ p' rest, incoming (pipe f) = content_bytes p' ++ rest → len p' ≤ SMUDGE_PAYLOAD_CAP → p = p' ∧ incoming (pipe f') = rest) ∧
       outgoing (pipe f') = outgoing (pipe f) ++ response b ∧ denotes (repo f') p b)).
  { intros t f5 Hok5 Hp5 Hl. eapply spec_mono; [apply spec_populate_and_finish; [done|done|by rewrite Hl]|done|by rewrite Hl]. }
  destruct (local_mode raw) eqn:Hl.
  - injection (Hc eq_refl) as -> ->. injection (Hs eq_refl) as -> ->. cbn [andb negb].
    eapply spec_bind.
    { eapply spec_mono; [apply spec_from_local_store; [done|unfold is_u64 in Hu; lia]| |by intros ? ? ? ? H; exact H].
      intros Hbad. destruct (decide (is_ok (object_store_root raw))) as [Hroot|Hroot]; [|left; by intros [? _]].
      apply HE. intros c (Hs' & info' & Hp' & Hn' & _ & Hd). apply Hbad. split; [done|].
      assert (info' = info) as -> by congruence. assert (n = len c) as -> by congruence.
      destruct (still_repo _ _ Hst) as [Hobj _ _ Hstore _]. rewrite Hr1 in Hobj, Hstore. rewrite Hobj. split; [by apply Hstore|].
      by exists c. }
    intros t f5 Hok5 _ (Hst5 & Hs5 & Hd5 & Hlen).
    assert (Hden : denotes (repo f5) p t).
    { split; [done|]. exists info. rewrite (sr_objects _ _ (still_repo _ _ Hst5)), Hlen. done. }
    eapply (spec_mono _ False); [by apply spec_populate_and_finish|done|]. intros [] f6 _ Hs6 [Hi6 Ho6] _.
    exists p, t. rewrite (still_pipe _ _ Hst5) in Hi6, Ho6. split_and!.
    + intros p' rest Hin Hle. destruct (Hread p' rest Hin Hle) as [-> Hrest]. split; [done|congruence].
    + congruence.
    + by apply Hs6.
  - cbn [andb]. destruct (negb hit && negb shit); [|by apply Hend].
    eapply spec_bind; [eapply spec_mono; [by apply spec_from_network|by right; right|by intros ? ? ? ? H; exact H]|].
    intros [t stop] f5 Hok5 _ Hp5. destruct stop; [|by apply Hend].
    eapply (spec_mono _ False); [by apply spec_finish_smudge|done|done].
Qed.

(** ** The session *)

Context (max_inline : Z).

Lemma spec_report op e f : ok f → spec True (report_request_error op e) f (λ _ _, True).
Proof.
  intros Hok. eapply spec_bind; [by apply spec_writes, writes_text_list|]. intros [] f1 Hok1 _ _.
  eapply spec_mono; [by apply spec_writes, writes_flush_packet|done|done].
Qed.

(** An error of a request is reported, not raised. *)
Lemma spec_reporting {A E} op (m : F A) f Q : spec E m f Q →
  spec True (r ← attempt m; match r with inl _ => mret tt | inr e => report_request_error op e end) f (λ _ _, True).
Proof.
  intros Hm. apply (spec_first _ _ _ _ _ (λ _ _, True)).
  - eapply spec_attempt; [eapply spec_mono; [exact Hm|done|done]|done].
  - intros [a|e] f1 Hok1 _ _; [by apply spec_ret|by apply spec_report].
Qed.

Lemma spec_serve_request headers f : ok f →
  spec True (serve_request max_inline stall_secs raw headers) f (λ _ _, True).
Proof.
  intros Hok. unfold serve_request. destruct (decide _).
  { destruct Hok as [G Hok]. eapply spec_reporting. by apply spec_do_clean. }
  destruct (decide _).
  { eapply spec_bind; [by apply (spec_ensure_runtime _ _ True)|]. intros [] f1 Hok1 _ _.
    eapply spec_reporting. by apply spec_handle_smudge. }
  eapply (spec_bind _ _ _ _ _ (λ _ _, True)).
  { eapply (spec_bind _ _ _ _ _ (λ _ _, True)); [|intros ? f1 Hok1 _ _; by apply spec_ret].
    eapply spec_mono; [apply (spec_pipe raw True _ _ (λ _ _, True)); [done|]|done|done].
    eapply wps_mono; [apply wps_read_binary_to; by vm_compute|by intros r s' [Hc _]|done]. }
  intros _ f1 Hok1 _ _. eapply spec_bind; [by apply spec_writes, writes_text_list|]. intros [] f2 Hok2 _ _.
  eapply spec_mono; [by apply spec_writes, writes_flush_packet|done|done].
Qed.

Lemma spec_next_headers f : ok f →
  spec True next_headers f (λ h f', ∀ l, h = Some l → (length (incoming (pipe f')) < length (incoming (pipe f)))%nat).
Proof.
  intros [G Hok]. unfold FilterSpec.spec, wps, next_headers, zoom.
  pose proof (wps_read_text_list (pipe f)) as Hw. unfold wps in Hw.
  destruct (read_text_list (pipe f)) as [[l|e| |] s]; try done; [destruct Hw as [Hc Hl]|].
  all: assert (Hstep : step f (set_pipe s f)) by
    (destruct Hc as (Hi & _ & _ & Hf) || destruct Hw as (Hi & _ & _ & Hf); split; try done; simpl; by rewrite Hf).
  - destruct l; (split; [by exists G|]); (split; [done|]); [done|]. by intros.
  - destruct e; (split; [by exists G|]); (split; [done|]); done.
Qed.

Lemma spec_serve_session f : ok f → spec True (serve_session max_inline stall_secs raw) f (λ _ _, True).
Proof.
  intros Hok. unfold serve_session.
  assert (Hloop : ∀ fuel u f1, ok f1 → (length (incoming (pipe f1)) < fuel)%nat →
    spec True (loop_st fuel (session_step max_inline stall_secs raw) u) f1 (λ _ _, True)).
  { induction fuel as [|fuel IH]; intros u f1 Hok1 Hf; [lia|]. cbn [loop_st].
    apply (spec_bind _ _ _ _ _ (λ r f2, r = inl tt → (length (incoming (pipe f2)) < length (incoming (pipe f1)))%nat)).
    - eapply spec_bind; [by apply spec_next_headers|]. intros [l|] f2 Hok2 _ Hl; [|by apply spec_ret].
      eapply spec_bind; [by apply spec_serve_request|]. intros [] f3 Hok3 Hs3 _. apply spec_ret; [done|].
      intros _. specialize (Hl l eq_refl). destruct (st_incoming _ _ Hs3) as [b Hb]. rewrite Hb, length_app in Hl. lia.
    - intros [[]|[]] f2 Hok2 _ Hl; [|by apply spec_ret]. apply IH; [done|]. specialize (Hl eq_refl). lia. }
  apply (wps_run_eq _ (loop_st (S (length (incoming (pipe f)))) (session_step max_inline stall_secs raw) tt) f f); [done|].
  apply Hloop; [done|lia].
Qed.

Lemma spec_reads_pipe {A} (m : P A) f : ok f → wps m (pipe f) (λ _ s, consumed (pipe f) s) (λ _ s, consumed (pipe f) s) →
  spec True (on_pipe m) f (λ _ _, True).
Proof.
  intros Hok Hm. eapply spec_mono; [apply (spec_pipe raw True _ _ (λ _ _, True)); [done|]|done|done].
  eapply wps_mono; [exact Hm|done..].
Qed.

Lemma spec_run f : ok f → spec True (run max_inline stall_secs raw) f (λ _ _, True).
Proof.
  intros Hok. apply (spec_bind _ _ _ _ _ (λ _ _, True)); [|intros [] f1 Hok1 _ _; apply (spec_bind _ _ _ _ _ (λ _ _, True))].
  - eapply spec_bind; [by apply spec_reads_pipe, wps_read_text|]. intros w f1 Hok1 _ _.
    destruct (decide _); [|by apply spec_throw].
    eapply spec_bind; [apply spec_reads_pipe; [done|]; eapply wps_mono; [apply wps_read_text_list|by intros ? ? []|done]|].
    intros vs f2 Hok2 _ _. destruct (bool_decide _); [|by apply spec_throw].
    eapply spec_mono; [by apply spec_writes, writes_text_list|done|done].
  - eapply spec_bind; [apply spec_reads_pipe; [done|]; eapply wps_mono; [apply wps_read_text_list|by intros ? ? []|done]|].
    intros vs f2 Hok2 _ _. apply (spec_bind _ _ _ _ _ (λ _ _, True)).
    + generalize required. intros l. revert f2 Hok2. induction l as [|r l IH]; intros f2 Hok2; [by apply spec_ret|]. cbn [for_each].
      apply (spec_bind _ _ _ _ _ (λ _ _, True)); [destruct (bool_decide _); [by apply spec_ret|by apply spec_throw]|].
      intros [] f3 Hok3 _ _. by apply IH.
    + intros [] f3 Hok3 _ _. eapply spec_mono; [by apply spec_writes, writes_text_list|done|done].
  - intros [] f2 Hok2 _ _. by apply spec_serve_session.
Qed.

(** One request of any peer, from whatever it sends. *)
Definition request f f' : Prop := ∃ headers input,
  f' = (serve_request max_inline stall_secs raw headers (set_pipe (set_incoming input (pipe f)) f)).2.

Lemma history_keeps f f' : rtc request f f' → ok f → ok f' ∧ ∀ p c, denotes (repo f) p c → denotes (repo f') p c.
Proof.
  induction 1 as [f|f f1 f2 (headers & input & ->) _ IH]; intros Hok; [done|].
  set (f0 := set_pipe _ f) in *. assert (Hok0 : ok f0) by done.
  pose proof (spec_serve_request headers f0 Hok0) as Hs. unfold FilterSpec.spec, wps in Hs.
  destruct (serve_request max_inline stall_secs raw headers f0) as [[u|e| |] f1]; try done; cbn [snd] in *.
  all: destruct Hs as (Hok1 & Hstep & _); destruct (IH Hok1) as [Hok2 Hd]; split; [done|].
  all: intros p c Hp; apply Hd, Hstep; exact Hp.
Qed.

(** C1. What a clean stored, a smudge gives back, byte for byte: in local mode,
    after a clean answered a content with a pointer, a smudge of that pointer
    answers that content, after any history of further requests of any peers,
    whatever they send and whatever fails in them; and the smudge fails only
    when a call failed. *)
Theorem clean_smudge_roundtrip G path f c rest f1 :
  inv G (repo f) → local_mode raw = true →
  incoming (pipe f) = content_bytes c ++ rest → len c ≤ CLEAN_PAYLOAD_CAP →
  (∀ c0, G !! path_key path = Some c0 → distinct_prints c0 c) →
  do_clean max_inline raw path f = (Ok tt, f1) →
  ∃ p, outgoing (pipe f1) = outgoing (pipe f) ++ response p ∧
    ∀ f2 path' rest', rtc request f1 f2 → incoming (pipe f2) = content_bytes p ++ rest' →
      let '(r, f3) := handle_smudge stall_secs raw path' f2 in
      match r with
      | Ok _ => incoming (pipe f3) = rest' ∧ outgoing (pipe f3) = outgoing (pipe f2) ++ response c
      | Err _ => ¬ (calm f2 ∧ smudge_works)
      | _ => False
      end.
Proof.
  intros Hinv Hl Hin Hcap Hdist Hrun. pose proof (spec_do_clean raw G max_inline path f Hinv) as Hs.
  unfold FilterSpec.spec, wps in Hs. rewrite Hrun in Hs. destruct Hs as (Hok1 & _ & HQ).
  destruct (HQ c rest Hin Hl Hdist) as (_ & p & Ho & Hd). exists p. split; [done|].
  intros f2 path' rest' Hhist Hin2. destruct (history_keeps _ _ Hhist Hok1) as [Hok2 Hd2]. specialize (Hd2 _ _ Hd).
  pose proof (spec_handle_smudge path' f2 Hok2) as Hs. unfold FilterSpec.spec, wps in Hs.
  destruct (handle_smudge stall_secs raw path' f2) as [[[]|e| |] f3]; try done; destruct Hs as (_ & Hs3 & H).
  - destruct (H Hl) as (p' & b & Hread & Ho3 & Hd3).
    destruct (Hread p rest' Hin2 (denotes_small _ _ _ Hd2)) as [-> Hrest]. split; [done|].
    by rewrite (denotes_det _ _ _ _ (st_denotes _ _ Hs3 _ _ Hd2) Hd3).
  - intros [Hc Hw]. destruct (H Hc) as [Hn|[Hn|Hn]]; [done| |by rewrite Hl in Hn]. apply Hn. by exists p, c, rest'.
Qed.

(** C30. A session always comes to an end, in both modes, on every input and
    whatever fails: no request panics or hangs, the loop stops with the input,
    and what the store could reconstruct it still can. *)
Theorem session_returns f :
  ok f → let '(r, f') := run max_inline stall_secs raw f in
  returned r ∧ ok f' ∧ ∀ p c, denotes (repo f) p c → denotes (repo f') p c.
Proof.
  intros Hok. pose proof (spec_run f Hok) as Hs. unfold FilterSpec.spec, wps in Hs.
  destruct (run max_inline stall_secs raw f) as [[u|e| |] f']; try done; destruct Hs as (Hok' & Hstep & _).
  all: split; [done|]; split; [done|]; apply Hstep.
Qed.
End smudge.
