(* ===== verification/FilterToy.v ===== *)
(** * A concrete set of crates

    Instances of the laws of [FilterSpec], with a store that takes the content
    [ab] alone, and the witnesses of the theorems about the filter. *)

From stdpp Require Import gmap list.
From S2P Require Import Prelude RustStd Pktline CleanCache Config Repo Filter FilterSpec CleanSpec SmudgeSpec.

Definition toy_content : bytes := lit "ab".
Definition toy_json : str := POINTER_SENTINEL.
Definition toy_entry : CacheEntry :=
  mkCacheEntry CURRENT_VERSION 2 [mkChunk 0 2 (chunk_hash_hex toy_hash toy_content)] (toy_json ++ [x0a]).
Definition same_entry (a b : CacheEntry) : Prop :=
  ce_v a = ce_v b ∧ ce_size a = ce_size b ∧ ce_chunks a = ce_chunks b ∧ ce_pointer a = ce_pointer b.
Lemma same_entry_eq a b : same_entry a b → a = b.
Proof. destruct a, b. unfold same_entry. simpl. by intros (-> & -> & -> & ->). Qed.
#[export] Instance same_entry_dec a b : Decision (same_entry a b).
Proof. unfold same_entry. apply _. Defined.

Definition toy_clean (o : gmap str bytes) (c : bytes) : outcome str unit * gmap str bytes :=
  if decide (c = toy_content) then (Ok tt, <[lit "k" := c]> o) else (Err (lit "full"), o).
Definition toy_download (o : gmap str bytes) (_ : unit) (n : Z) : outcome str unit * bytes :=
  if decide (o !! lit "k" = Some toy_content ∧ n = 2) then (Ok tt, toy_content) else (Err (lit "missing"), []).

#[export] Instance toy_crates : Crates := {|
  XetFileInfo := unit;
  info_new _ _ := tt;
  info_hash _ := replicate 64 x61;
  info_size _ := Some 2;
  info_from_json s := if decide (s = toy_json) then Ok tt else Err (lit "json");
  info_to_json_pretty _ := Ok toy_json;
  MerkleHash := unit;
  info_merkle _ := Ok tt;
  merkle_from_hex _ := Ok tt;
  merkle_hex _ := replicate 64 x61;
  json_hash _ := None;
  entry_from_json b := if decide (b = lit "entry") then Some toy_entry else None;
  entry_to_json e := if decide (same_entry e toy_entry) then Ok (lit "entry") else Err (lit "json");
  manifest_from_json _ := None;
  manifest_to_json_pretty _ := Err (lit "json");
  path_key p := p;
  xxh3 := toy_hash;
  xet_clean := toy_clean;
  xet_download := toy_download;
  ChunkCache := unit;
  cache_get _ _ _ _ := Ok None;
|}.

#[export] Instance toy_laws : CrateLaws.
Proof.
  split; simpl; try done.
  - intros b. apply as_u64_range.
  - intros _ n [= <-]. by vm_compute.
  - intros o c. unfold toy_clean. destruct (decide (c = toy_content)) as [->|]; [|done].
    split; [done|]. split; [by vm_compute|]. split.
    + unfold toy_download. by rewrite decide_True by (by rewrite lookup_insert_eq).
    + intros s [= <-]. split_and!; by vm_compute.
  - intros o c info n b. unfold toy_clean, toy_download. destruct (decide (c = toy_content)) as [->|]; [|done]. cbn [snd].
    destruct (decide (o !! lit "k" = _ ∧ _)) as [[Hk ->]|]; [|done]. rewrite decide_True by (by rewrite lookup_insert_eq). done.
  - intros e b. destruct (decide _) as [->%same_entry_eq|]; [|done]. by intros [= <-].
  - intros s. by destruct (decide _).
  - intros e. by destruct (decide _).
  - intros o info n b Hn. unfold toy_download. destruct (decide _) as [[_ ->]|]; [|done]. by intros [= <-].
  - intros o info n. unfold toy_download. by destruct (decide _).
Qed.

#[export] Instance toy_environment : Environment := {|
  runtime_new := Ok tt;
  get_cache := Ok tt;
  resolve_read := Err (lit "offline");
  build_translator _ := Ok tt;
  net_download _ cache _ _ := ([Finished (Err (lit "offline"))], [], cache);
  get_reconstruction_v1 _ _ := Ok None;
  verify_file := verify_chunks_in_memory toy_hash;
|}.

#[export] Instance toy_environment_laws : EnvironmentLaws.
Proof.
  split; try done. intros c cs b Hc Hcs Hb. exists (toy_pread b), 1, 1.
  assert (Hr : reads_file (toy_pread b) b).
  { intros off n Hoff. unfold toy_pread. split; [rewrite length_take; lia|]. split.
    - exists (drop (Nat.min n 2) (drop (Z.to_nat off) b)). by rewrite take_drop.
    - intros Hnil. apply (f_equal length) in Hnil. rewrite length_take, length_drop in Hnil. unfold len. simpl in *. lia. }
  split; [done|]. destruct (compute_chunks_tiles toy_hash c) as (cs' & _ & Hcs' & Ht & Hne).
  simpl in Hcs. rewrite Hcs in Hcs'. injection Hcs' as <-.
  assert (Hu : ∀ b, is_u64 (toy_hash b)) by (intros; apply as_u64_range).
  destruct (verify_runs_exist toy_hash Hu (toy_pread b) 1 1 c cs (len b)) as [answer Hrun]; [by eapply tiles_all|].
  destruct (verify_runs_exact toy_hash Hu _ _ _ c b cs answer Hr Hb Hc Ht Hne Hrun) as [->|(_ & off & n & e & He)]; [|done].
  simpl. by rewrite (verify_in_memory_tiles toy_hash Hu c) by done.
Qed.

(** ** Witnesses *)

Definition toy_raw : RawConfig := mkRawConfig None None None (lit "cache") (Some (lit ".git")) true None false None.
Definition toy_repo : Repo := mkRepo ∅ ∅ ∅ ∅ None false 0 [].
Definition toy_filter (input : bytes) : Filter := mkFilter (mkPipe input [] 0 []) toy_repo false None tt.

Lemma toy_inv input : inv toy_raw ∅ (repo (toy_filter input)).
Proof. split; [|done]. intros key b e Hk. simpl in Hk. by rewrite lookup_empty in Hk. Qed.
Lemma toy_ok input : ok toy_raw (toy_filter input).
Proof. exists ∅. apply toy_inv. Qed.
Lemma toy_calm input : calm (toy_filter input).
Proof. done. Qed.
Lemma toy_clean_works : clean_works toy_raw ∅ toy_content.
Proof. split; [by eexists|]. split_and!; by vm_compute. Qed.
Lemma toy_network_ends cfg cache info n label :
  returned (download_cold label 30 (net_download cfg cache info n).1.1).
Proof. done. Qed.

Lemma clean_answers_pointer_witness :
  let '(r, f') := do_clean 1 toy_raw (lit "p") (toy_filter (content_bytes toy_content ++ lit "rest")) in
  r = Ok tt ∧ incoming (pipe f') = lit "rest" ∧ ∃ p, outgoing (pipe f') = response p ∧ denotes (repo f') p toy_content.
Proof.
  pose proof (clean_answers_pointer toy_raw ∅ 1 (lit "p") (toy_filter (content_bytes toy_content ++ lit "rest"))
    toy_content (lit "rest") (toy_inv _) eq_refl eq_refl) as H.
  destruct (do_clean _ _ _ _) as [r f']. destruct H as [H _]; [vm_compute; discriminate|intros c0 Hc; by rewrite lookup_empty in Hc|].
  destruct r as [[]|e| |]; try contradiction H; [|by destruct (H (conj (toy_calm _) toy_clean_works))].
  split; [reflexivity|exact H].
Defined.

Lemma clean_smudge_roundtrip_witness :
  ∃ p f1, do_clean 1 toy_raw (lit "p") (toy_filter (content_bytes toy_content ++ content_bytes (toy_json ++ [x0a]))) = (Ok tt, f1) ∧
    outgoing (pipe f1) = response p ∧
    ∀ f2 path' rest', rtc (request toy_raw 30 1) f1 f2 → incoming (pipe f2) = content_bytes p ++ rest' → calm f2 →
      let '(r, f3) := handle_smudge 30 toy_raw path' f2 in
      r = Ok tt ∧ incoming (pipe f3) = rest' ∧ outgoing (pipe f3) = outgoing (pipe f2) ++ response toy_content.
Proof.
  set (f0 := toy_filter _).
  assert (Hrun : do_clean 1 toy_raw (lit "p") f0 = (Ok tt, (do_clean 1 toy_raw (lit "p") f0).2)).
  { rewrite (surjective_pairing (do_clean 1 toy_raw (lit "p") f0)) at 1. f_equal. }
  destruct (clean_smudge_roundtrip toy_raw 30 toy_network_ends 1 ∅ (lit "p") f0 toy_content (content_bytes (toy_json ++ [x0a]))
    _ (toy_inv _) eq_refl eq_refl ltac:(vm_compute; discriminate) ltac:(intros c0 Hc; by rewrite lookup_empty in Hc) Hrun) as (p & Ho & Hall).
  exists p, (do_clean 1 toy_raw (lit "p") f0).2. split; [exact Hrun|]. split; [exact Ho|].
  intros f2 path' rest' Hh Hin Hc. specialize (Hall f2 path' rest' Hh Hin).
  destruct (handle_smudge 30 toy_raw path' f2) as [[[]|e| |] f3]; try contradiction Hall.
  - split; [reflexivity|exact Hall].
  - destruct Hall. split; [exact Hc|]. split; vm_compute; exact I.
Defined.

Lemma session_returns_witness :
  returned (run 1 30 toy_raw (toy_filter (list_bytes [lit "git-filter-client"]))).1.
Proof.
  pose proof (session_returns toy_raw 30 toy_network_ends 1 (toy_filter (list_bytes [lit "git-filter-client"]))
    (toy_ok _)) as H.
  destruct (run _ _ _ _) as [r f']. exact (proj1 H).
Defined.
