(* ===== verification/Gc.v ===== *)
(** * Garbage collection of the staging area

    [crates/git-bale/src/gc.rs]: which markers the index and the commits still
    need, and what is dropped.  The repository that gix reads is a parameter. *)

From stdpp Require Import gmap list.
From S2P Require Import Prelude RustStd Pktline CleanCache Config Repo.

(** ** What gix reads *)

Inductive object_kind := Blob | Tree | Commit | Tag.
#[export] Instance object_kind_eq_dec : EqDecision object_kind.
Proof. solve_decision. Defined.
(** Modes of an index entry or of an entry of a tree. *)
Inductive entry_mode := FileMode | ExecutableMode | OtherMode.
#[export] Instance entry_mode_eq_dec : EqDecision entry_mode.
Proof. solve_decision. Defined.
Definition is_blob (m : entry_mode) : bool := match m with OtherMode => false | _ => true end.

Class GitObjects := {
  ObjectId : Type;
  #[global] oid_eq_dec :: EqDecision ObjectId;
  #[global] oid_countable :: Countable ObjectId;
  tree : Type;
  empty_tree : tree;
}.

Section gc.
Context {C : Crates} {O : GitObjects}.

(** A commit that the walk met, with its tree and that of its first parent, as
    far as they could be read. *)
Record walk_info := mkWalkInfo { wi_tree : option tree; wi_parent_tree : option tree }.
Record reference := mkReference { ref_name : str; ref_target : option ObjectId }.

Record GitRepo := mkGitRepo {
  index_entries : option (list (entry_mode * ObjectId));
  head_id : option ObjectId;
  references : option (list (option reference));
  find_header : ObjectId → option (object_kind * Z);
  find_object : ObjectId → option bytes;
  rev_walk : list ObjectId → list ObjectId → option (list (option walk_info));
  (** The additions and modifications from a tree to another. *)
  tree_changes : tree → tree → option (list (entry_mode * ObjectId));
}.

Variable git : GitRepo.

Definition is_commit (oid : ObjectId) : bool :=
  match find_header git oid with Some (k, _) => bool_decide (k = Commit) | None => false end.

(** ** Reachability *)

(** The blobs seen and the hashes found live. *)
Definition found : Type := gset ObjectId * gset str.

Definition consider_blob (want : gset str) (oid : ObjectId) (st : found) : found :=
  let '(seen, live) := st in
  if bool_decide (oid ∈ seen) then (seen, live)
  else
    let seen := {[oid]} ∪ seen in
    match find_header git oid with
    | None => (seen, live)
    | Some (kind, size) =>
        if negb (bool_decide (kind = Blob)) || (size =? 0) || (POINTER_MAX_BYTES <? size) then (seen, live)
        else
          match find_object git oid with
          | None => (seen, live)
          | Some data =>
              match parse_pointer data with
              | Ok info => if bool_decide (info_hash info ∈ want) then (seen, {[info_hash info]} ∪ live) else (seen, live)
              | _ => (seen, live)
              end
          end
    end.

Definition all_found (want : gset str) (st : found) : bool := (size st.2 =? size want)%nat.

(** The loops over blobs stop once every wanted hash is found. *)
Fixpoint consider_all (want : gset str) (l : list (entry_mode * ObjectId)) (st : found) : bool * found :=
  match l with
  | [] => (false, st)
  | (m, oid) :: l =>
      if is_blob m then
        let st := consider_blob want oid st in
        if all_found want st then (true, st) else consider_all want l st
      else consider_all want l st
  end.

Definition collect_changed_pointers (parent_tree commit_tree : tree) (want : gset str) (st : found) : found :=
  match tree_changes git parent_tree commit_tree with
  | None => st
  | Some changes => (consider_all want changes st).2
  end.

Fixpoint walk_commits (want : gset str) (l : list (option walk_info)) (st : found) : found :=
  match l with
  | [] => st
  | Some info :: l =>
      match wi_tree info with
      | None => walk_commits want l st
      | Some commit_tree =>
          let st := collect_changed_pointers (default empty_tree (wi_parent_tree info)) commit_tree want st in
          if all_found want st then st else walk_commits want l st
      end
  | None :: l => walk_commits want l st
  end.

Definition reachable_hashes (want : gset str) (tips hidden : list ObjectId) : gset str :=
  let '(stop, st) := match index_entries git with
    | Some entries => consider_all want entries (∅, ∅)
    | None => (false, (∅, ∅))
    end in
  if stop : bool then st.2
  else
    match tips with
    | [] => st.2
    | _ =>
        match rev_walk git tips hidden with
        | None => st.2
        | Some walk => (walk_commits want walk st).2
        end
    end.

(** [(local, remote)] tips of commits. *)
Definition ref_tips : list ObjectId * list ObjectId :=
  let tips := match head_id git with Some id => if is_commit id then [id] else [] | None => [] end in
  match references git with
  | None => (tips, [])
  | Some refs =>
      foldl (λ th r,
        match (r ← r; (λ id, (ref_name r, id)) <$> ref_target r) with
        | None => th
        | Some (name, id) =>
            if negb (is_commit id) then th
            else if starts_with name (lit "refs/remotes/") then (th.1, th.2 ++ [id])
            else (th.1 ++ [id], th.2)
        end) (tips, []) refs
  end.

Definition reachable_all (want : gset str) : gset str :=
  let '(local_tips, remote_tips) := ref_tips in reachable_hashes want (local_tips ++ remote_tips) [].
End gc.

(** ** Operations in flight *)

(** A directory: its files and its subdirectories, a list for one that can be read. *)
#[warnings="-register-all"]
Inductive dirent := DirFile (name : str) | DirSub (name : str) (entries : option (list dirent)).

(** [path.extension() == "lock"]: the part after the last dot of a name that does not start with it. *)
Definition has_lock_extension (name : str) : bool :=
  match rsplit_once name x2e with Some (stem, ext) => negb (bool_decide (stem = [])) && bool_decide (ext = lit "lock") | None => false end.

Fixpoint entry_has_lock (recurse : bool) (e : dirent) : bool :=
  match e with
  | DirFile name => has_lock_extension name
  | DirSub _ (Some l) => recurse && existsb (entry_has_lock recurse) l
  | DirSub _ None => false
  end.
Definition dir_has_lock (d : option (list dirent)) (recurse : bool) : bool :=
  match d with Some l => existsb (entry_has_lock recurse) l | None => false end.

(** What gc sees of git's operations: the lock of an explicit index, the git
    directory, its [refs] and [reftable]. *)
Record InFlight := mkInFlight {
  index_file_locked : bool;
  git_dir_entries : option (list dirent);
  refs_entries : option (list dirent);
  reftable_entries : option (list dirent);
}.
Definition git_op_in_flight (v : InFlight) : bool :=
  index_file_locked v || dir_has_lock (git_dir_entries v) false ||
  dir_has_lock (refs_entries v) true || dir_has_lock (reftable_entries v) true.

(** ** Reconciling *)

Definition DEFAULT_GRACE_SECS : Z := 600.
Definition reclaim_grace (env : option str) : Z :=
  match (v ← env; parse_u64 (trim v)) with Some n => n | None => DEFAULT_GRACE_SECS end.

(** An age that cannot be told, or is in the future, does not exceed the grace. *)
Definition marker_age_exceeds (h : str) (grace now : Z) : R bool :=
  mtime ← marker_mtime h;
  mret match mtime with Some t => (t <=? now) && (grace <? now - t) | None => false end.

Section reconcile.
Context {C : Crates} {O : GitObjects}.

(** The configuration that is assumed when it cannot be read. *)
Definition assumed_config (git_dir : str) : RawConfig :=
  mkRawConfig None None None (lit ".") (Some git_dir) false None false None.

Definition live_hashes (git : GitRepo) (local_mode : bool) (want : gset str) : gset str :=
  let '(local_tips, remote_tips) := ref_tips git in
  if local_mode then reachable_hashes git want (local_tips ++ remote_tips) []
  else reachable_hashes git want local_tips remote_tips.

Definition orphaned_hashes (git : GitRepo) (local_mode : bool) (want : gset str) (dead : list str) : gset str :=
  let '(local_tips, remote_tips) := ref_tips git in
  if local_mode || bool_decide (remote_tips = []) then list_to_set dead
  else
    let reachable_anywhere := reachable_hashes git want (local_tips ++ remote_tips) [] in
    list_to_set (filter (λ h, h ∉ reachable_anywhere) dead).

(** The unreferenced markers that have aged past the grace. *)
Definition dead_markers (staged : list str) (live : gset str) (grace now : Z) : R (list str) :=
  fold_st (λ dead h,
    if bool_decide (h ∈ live) then mret dead
    else old ← marker_age_exceeds h grace now; mret (if old : bool then dead ++ [h] else dead)) [] staged.

(** No marker left: nothing refers to the staged objects. *)
Definition sweep : R unit :=
  remaining ← or_else [] list_staged_files;
  match remaining with
  | [] =>
      _ ← ignore clear_file_markers;
      _ ← ignore remove_all_staged_objects;
      mret tt
  | _ => mret tt
  end.

Definition reclaim (git : GitRepo) (local_mode : bool) (grace : Z) (staged : list str) : R unit :=
  let want : gset str := list_to_set staged in
  now ← gets clock;
  dead ← dead_markers staged (live_hashes git local_mode want) grace now;
  match dead with
  | [] => mret tt
  | _ =>
      _ ← for_each (λ h, _ ← ignore (remove_marker h); mret tt) dead;
      _ ← ignore (forget_hashes (orphaned_hashes git local_mode want dead));
      sweep
  end.

(** [repo]: what gix discovered, with its git directory; [locked]: a concurrent
    add holds the store's lock.  No error leaves the command. *)
Definition reconcile (repo : option (GitRepo * str)) (config : outcome str RawConfig) (locked : bool)
    (in_flight : InFlight) (grace_env : option str) : R unit :=
  match repo with
  | None => mret tt
  | Some (git, git_dir) =>
      let raw := match config with Ok raw => raw | _ => assumed_config git_dir end in
      if local_mode raw && local_shared raw then mret tt
      else
        lock ← ignore (try_exclusive locked);
        match lock with
        | Some true =>
            if git_op_in_flight in_flight then mret tt
            else
              staged ← or_else [] list_staged_files;
              match staged with
              | [] => mret tt
              | _ => reclaim git (local_mode raw) (reclaim_grace grace_env) staged.*1
              end
        | _ => mret tt
        end
  end.
End reconcile.
