(* ===== verification/GcSpec.v ===== *)
(** * Garbage collection never drops what is needed *)

From stdpp Require Import gmap list.
From S2P Require Import Prelude RustStd Pktline CleanCache Config Repo Gc.

(** ** What gix promises *)

(** Commits with their parents and trees; a tree has its files by path.  A walk
    that could be set up meets every commit that a tip reaches and no hidden tip does, and a
    comparison of trees every file of the second that the first does not have. *)
Class GitLaws `{C : Crates, O : GitObjects} (git : GitRepo) := {
  parents : ObjectId → list ObjectId;
  rank : ObjectId → nat;
  parents_rank c p : p ∈ parents c → (rank p < rank c)%nat;
  tree_of : ObjectId → tree;
  files : tree → gmap str (entry_mode * ObjectId);
  files_empty : files empty_tree = ∅;
  reaches (tips : list ObjectId) (c : ObjectId) : Prop := ∃ t, t ∈ tips ∧ rtc (λ c p, p ∈ parents c) t c;
  walk_meets tips hidden l : rev_walk git tips hidden = Some l →
    ∀ c, reaches tips c → ¬ reaches hidden c → Some (mkWalkInfo (Some (tree_of c)) (tree_of <$> head (parents c))) ∈ l;
  changes_meet p c : ∃ l, tree_changes git p c = Some l ∧
    ∀ path e, files c !! path = Some e → files p !! path ≠ Some e → e ∈ l;
}.

Definition walks_set_up `{C : Crates, O : GitObjects} (git : GitRepo) : Prop :=
  ∀ tips hidden, is_Some (rev_walk git tips hidden).

Section reachability.
Context {C : Crates} {O : GitObjects} (git : GitRepo) {L : GitLaws git}.
#[local] Set Default Proof Using "Type*".

(** The object is a pointer of the file [h]. *)
Definition points_to (id : ObjectId) (h : str) : Prop := ∃ data info,
  find_header git id = Some (Blob, len data) ∧ find_object git id = Some data ∧
  parse_pointer data = Ok info ∧ info_hash info = h.

Definition in_index (h : str) : Prop := ∃ entries m id,
  index_entries git = Some entries ∧ (m, id) ∈ entries ∧ is_blob m = true ∧ points_to id h.
Definition commit_has (P : ObjectId → Prop) (c : ObjectId) : Prop := ∃ path m id,
  files (tree_of c) !! path = Some (m, id) ∧ is_blob m = true ∧ P id.
Definition in_commit (c : ObjectId) (h : str) : Prop := commit_has (λ id, points_to id h) c.

(** A push could need the file: the index has it, or a commit of the tips that no
    hidden commit has a copy of. *)
Definition needed (tips hidden : list ObjectId) (h : str) : Prop :=
  in_index h ∨ ∃ c, reaches tips c ∧ in_commit c h ∧ ∀ c', reaches hidden c' → ¬ in_commit c' h.

Variable want : gset str.

(** Whatever was seen is found, if it is wanted. *)
Definition covers (st : found) : Prop :=
  st.2 ⊆ want ∧ ∀ id h, id ∈ st.1 → h ∈ want → points_to id h → h ∈ st.2.
(** [st'] is later than [st] and has the objects [P]. *)
Definition has_seen (st st' : found) (P : ObjectId → Prop) : Prop :=
  covers st' ∧ st.1 ⊆ st'.1 ∧ (want ⊆ st'.2 ∨ ∀ id, P id → id ∈ st'.1).

Lemma pointer_size data info : parse_pointer data = Ok info → len data ≠ 0 ∧ len data ≤ POINTER_MAX_BYTES.
Proof using Type.
  unfold parse_pointer. destruct (Z.ltb_spec POINTER_MAX_BYTES (len data)); [done|]. intros Hp. split; [|done].
  intros Hl. destruct data; [|unfold len in Hl; simpl in Hl; lia]. done.
Qed.

Lemma consider_blob_covers id st : covers st → has_seen st (consider_blob git want id st) (λ i, i = id).
Proof using Type.
  destruct st as [seen live]. intros [Hw Hs]. unfold consider_blob. case_bool_decide as Hin.
  { split; [done|]. split; [done|]. right. by intros i ->. }
  assert (Hskip : (∀ h, h ∈ want → ¬ points_to id h) → has_seen (seen, live) ({[id]} ∪ seen, live) (λ i, i = id)).
  { intros Hno. split; [|split; [set_solver|right; set_solver]]. split; [done|]. intros i h Hi Hh Hp. cbn in *.
    apply elem_of_union in Hi as [->%elem_of_singleton|Hi]; [by destruct (Hno h)|by apply (Hs i)]. }
  destruct (find_header git id) as [[kind size]|] eqn:Hhead; [|apply Hskip; intros h _ (? & ? & ? & _); congruence].
  destruct (negb _ || _ || _) eqn:Hkind.
  { apply Hskip. intros h _ (data & info & Hd & _ & Hp & _). rewrite Hhead in Hd. injection Hd as -> ->.
    destruct (pointer_size _ _ Hp). rewrite bool_decide_true in Hkind by done. cbn in Hkind.
    rewrite (proj2 (Z.eqb_neq _ _)), (proj2 (Z.ltb_ge _ _)) in Hkind; done. }
  destruct (find_object git id) as [data|] eqn:Hobj; [|apply Hskip; intros h _ (? & ? & _ & ? & _); congruence].
  destruct (parse_pointer data) as [info|e| |] eqn:Hp; [|apply Hskip; intros h _ (? & ? & _ & ? & ? & _); congruence..].
  clear Hkind. case_bool_decide as Hh; [|apply Hskip; intros h Hw' (? & ? & _ & ? & ? & <-); congruence].
  split; [|split; [set_solver|right; set_solver]]. split; cbn; [set_solver|]. intros i h Hi Hwh Hpt. cbn in *.
  apply elem_of_union in Hi as [->%elem_of_singleton|Hi]; [|apply elem_of_union_r; by apply (Hs i)].
  destruct Hpt as (data' & info' & _ & Hd & Hp' & <-). rewrite Hobj in Hd. injection Hd as <-. rewrite Hp in Hp'.
  injection Hp' as <-. set_solver.
Qed.

Lemma all_found_covers st : covers st → all_found want st = true → want ⊆ st.2.
Proof using Type.
  intros [Hw _] Hf%Nat.eqb_eq. assert (st.2 ≡ want) as ->; [|done].
  apply set_subseteq_size_equiv; [done|lia].
Qed.

Lemma has_seen_trans st1 st2 st3 (P Q : ObjectId → Prop) :
  has_seen st1 st2 P → has_seen st2 st3 Q → st2.2 ⊆ st3.2 → has_seen st1 st3 (λ i, P i ∨ Q i).
Proof using Type.
  intros (_ & S1 & H1) (C3 & S2 & H2) Hl. split; [done|]. split; [set_solver|].
  destruct H1 as [H1|H1]; [left; set_solver|]. destruct H2 as [H2|H2]; [by left|right]. set_solver.
Qed.

Lemma consider_blob_grows id st : st.2 ⊆ (consider_blob git want id st).2.
Proof using Type. destruct st. unfold consider_blob. repeat case_match; set_solver. Qed.

Lemma consider_all_covers l : ∀ st, covers st →
  has_seen st (consider_all git want l st).2 (λ i, ∃ m, (m, i) ∈ l ∧ is_blob m = true) ∧
  st.2 ⊆ (consider_all git want l st).2.2 ∧
  ((consider_all git want l st).1 = true → want ⊆ (consider_all git want l st).2.2).
Proof using Type.
  induction l as [|[m id] l IH]; intros st Hst; cbn [consider_all].
  - split_and!; try done. split; [done|]. split; [done|]. right. intros i (m & Hm & _). set_solver.
  - destruct (is_blob m) eqn:Hm.
    + pose proof (consider_blob_covers id st Hst) as Hb. pose proof (consider_blob_grows id st) as Hg.
      destruct (all_found want (consider_blob git want id st)) eqn:Hf.
      * assert (want ⊆ (consider_blob git want id st).2) by (apply all_found_covers; [apply Hb|done]).
        split_and!; try done. destruct Hb as (Hc & Hs & _). split; [done|]. split; [done|by left].
      * destruct (IH _ (proj1 Hb)) as (Hr & Hg2 & Hstop). split_and!; [|set_solver|done].
        destruct (has_seen_trans _ _ _ _ _ Hb Hr Hg2) as (Hc & Hs & Ha). split; [done|]. split; [done|].
        destruct Ha as [Ha|Ha]; [by left|right]. intros i (m' & [[= -> ->]|Hin]%elem_of_cons & Hm'); apply Ha; eauto.
    + destruct (IH _ Hst) as ((Hc & Hs & Ha) & Hg & Hstop). split_and!; [|done..]. split; [done|]. split; [done|].
      destruct Ha as [Ha|Ha]; [by left|right]. intros i (m' & [[= -> ->]|Hin]%elem_of_cons & Hm'); [congruence|eauto].
Qed.

(** The blobs that the walk's comparisons show. *)
Definition shown (walk : list (option walk_info)) (i : ObjectId) : Prop := ∃ c p m l,
  Some (mkWalkInfo (Some c) p) ∈ walk ∧ tree_changes git (default empty_tree p) c = Some l ∧ (m, i) ∈ l ∧ is_blob m = true.

Lemma changed_pointers_covers p c st : covers st →
  has_seen st (collect_changed_pointers git p c want st) (λ i, ∃ m l, tree_changes git p c = Some l ∧ (m, i) ∈ l ∧ is_blob m = true) ∧
  st.2 ⊆ (collect_changed_pointers git p c want st).2.
Proof using Type.
  intros Hst. unfold collect_changed_pointers. destruct (tree_changes git p c) as [l|].
  - destruct (consider_all_covers l st Hst) as ((Hc & Hs & Ha) & Hg & _). split; [|done]. split; [done|]. split; [done|].
    destruct Ha as [Ha|Ha]; [by left|right]. intros i (m & l' & [= <-] & Hin & Hm). eauto.
  - split; [|done]. split; [done|]. split; [done|]. right. by intros i (m & l & [=] & _).
Qed.

Lemma walk_covers walk : ∀ st, covers st →
  has_seen st (walk_commits git want walk st) (shown walk) ∧ st.2 ⊆ (walk_commits git want walk st).2.
Proof using Type.
  induction walk as [|info walk IH]; intros st Hst; cbn [walk_commits].
  - split; [|done]. split; [done|]. split; [done|]. right. intros i (c & p & m & l & Hin & _). set_solver.
  - assert (Hskip : (∀ c p, info ≠ Some (mkWalkInfo (Some c) p)) →
      has_seen st (walk_commits git want walk st) (shown (info :: walk)) ∧ st.2 ⊆ (walk_commits git want walk st).2).
    { intros Hne. destruct (IH _ Hst) as ((Hc & Hs & Ha) & Hg). split; [|done]. split; [done|]. split; [done|].
      destruct Ha as [Ha|Ha]; [by left|right]. intros i (c & p & m & l & [Hin|Hin]%elem_of_cons & Hrest).
      - by destruct (Hne c p).
      - apply Ha. by exists c, p, m, l. }
    destruct info as [[[c|] p]|]; [|by apply Hskip..]. cbn [wi_tree wi_parent_tree].
    destruct (changed_pointers_covers (default empty_tree p) c st Hst) as [Hb Hg].
    set (st' := collect_changed_pointers _ _ _ _ _) in *. destruct (all_found want st') eqn:Hf.
    + split; [|done]. destruct Hb as (Hc & Hs & _). split; [done|]. split; [done|]. left. by apply all_found_covers.
    + destruct (IH st' (proj1 Hb)) as [Hr Hg2]. split; [|set_solver].
      destruct (has_seen_trans _ _ _ _ _ Hb Hr Hg2) as (Hc & Hs & Ha). split; [done|]. split; [done|].
      destruct Ha as [Ha|Ha]; [by left|right]. intros i (c' & p' & m & l & [[= -> ->]|Hin]%elem_of_cons & Hl & Hi & Hm); apply Ha.
      * left. by exists m, l.
      * right. by exists c', p', m, l.
Qed.

(** A blob of an unhidden commit is shown by the first commit that introduced it. *)
Lemma introduced tips hidden walk P :
  (∀ c, reaches tips c → ¬ reaches hidden c → Some (mkWalkInfo (Some (tree_of c)) (tree_of <$> head (parents c))) ∈ walk) →
  (∀ c', reaches hidden c' → ¬ commit_has P c') →
  ∀ n c, (rank c < n)%nat → reaches tips c → commit_has P c → ∃ i, shown walk i ∧ P i.
Proof using Type.
  intros Hwalk Hhid. induction n as [|n IH]; intros c Hn Hc Hin; [lia|].
  assert (Hnh : ¬ reaches hidden c) by (intros Hr; by apply (Hhid c)).
  pose proof (Hwalk c Hc Hnh) as Hw. destruct Hin as (path & m & id & Hf & Hm & Hp).
  set (p := tree_of <$> head (parents c)) in *.
  destruct (decide (files (default empty_tree p) !! path = Some (m, id))) as [Hsame|Hdiff].
  - destruct (parents c) as [|pc rest] eqn:Hpar; cbn in p; subst p; cbn in Hsame; [by rewrite files_empty in Hsame|].
    assert (Hpc : pc ∈ parents c) by (rewrite Hpar; left).
    apply (IH pc); [pose proof (parents_rank c pc Hpc); lia| |by exists path, m, id].
    destruct Hc as (t & Ht & Hrtc). exists t. split; [done|]. by eapply rtc_r.
  - destruct (changes_meet (default empty_tree p) (tree_of c)) as (l & Hl & Hmeet).
    exists id. split; [|done]. exists (tree_of c), p, m, l. split_and!; try done. by eapply Hmeet.
Qed.

(** Everything that is needed is found. *)
Lemma needed_is_reachable tips hidden h : walks_set_up git → h ∈ want → needed tips hidden h → h ∈ reachable_hashes git want tips hidden.
Proof using Type.
  intros Hset Hw Hneed. unfold reachable_hashes.
  assert (H0 : covers (∅, ∅)) by (split; set_solver).
  assert (Hindex : ∃ stop st, (match index_entries git with Some entries => consider_all git want entries (∅, ∅) | None => (false, (∅, ∅)) end) = (stop, st) ∧
    covers st ∧ (stop = true → want ⊆ st.2) ∧ (in_index h → h ∈ st.2)).
  { destruct (index_entries git) as [entries|] eqn:Hi.
    - destruct (consider_all_covers entries _ H0) as ((Hc & Hs & Ha) & _ & Hstop).
      destruct (consider_all git want entries (∅, ∅)) as [stop st]. exists stop, st. split_and!; [done..|].
      intros (es & m & id & Hes & Hin & Hm & Hp). assert (es = entries) as -> by congruence.
      destruct Ha as [Ha|Ha]; [by apply Ha|]. apply (proj2 Hc id); [apply Ha; eauto|done|done].
    - exists false, (∅, ∅). split_and!; try done. intros (es & m & id & Hes & _). congruence. }
  destruct Hindex as (stop & st & -> & Hc & Hstop & Hidx). destruct stop; [by apply Hstop|].
  assert (Hgoal : tips ≠ [] → h ∈ match rev_walk git tips hidden with None => st.2 | Some walk => (walk_commits git want walk st).2 end).
  { intros _. destruct (Hset tips hidden) as [walk Hwalk]. rewrite Hwalk. pose proof (walk_meets _ _ _ Hwalk) as Hmeet.
    destruct (walk_covers walk st Hc) as ((Hc' & _ & Ha) & Hg).
    destruct Hneed as [Hin|(c & Hreach & Hin & Hhid)]; [by apply Hg, Hidx|].
    destruct (introduced tips hidden walk _ Hmeet Hhid (S (rank c)) c ltac:(lia) Hreach Hin) as (i & Hi & Hp).
    destruct Ha as [Ha|Ha]; [by apply Ha|]. by apply (proj2 Hc' i); [apply Ha| |]. }
  destruct tips as [|t tips]; [|by apply Hgoal].
  destruct Hneed as [Hin|(c & (t & Ht & _) & _)]; [by apply Hidx|set_solver].
Qed.
End reachability.

(** ** Calls that do not fail *)

Lemma pop_fault_id r : faults r = [] → pop_fault r = r.
Proof. destruct r. unfold pop_fault. simpl. by intros ->. Qed.
Lemma run_reading {A} (g : Repo → A) r : faults r = [] → reading g r = (Ok (g r), r).
Proof. intros Hr. unfold reading, call. rewrite (pop_fault_id _ Hr), Hr. done. Qed.
Lemma run_writing g r : faults r = [] → writing g r = (Ok tt, g r).
Proof. intros Hr. unfold writing, call. rewrite (pop_fault_id _ Hr), Hr. done. Qed.
Lemma run_ignore {A} (m : R A) r a r' : m r = (Ok a, r') → ignore m r = (Ok (Some a), r').
Proof. unfold ignore. by intros ->. Qed.
Lemma run_or_else {A} d (m : R A) r a r' : m r = (Ok a, r') → or_else d m r = (Ok a, r').
Proof. intros Hm. unfold or_else. by rewrite (ST_bind_step _ _ _ _ _ (run_ignore _ _ _ _ Hm)). Qed.

(** A fold whose steps leave the state. *)
Lemma run_fold {A B} (f : B → A → R B) (g : B → A → B) l r :
  (∀ acc x, x ∈ l → f acc x r = (Ok (g acc x), r)) → ∀ acc, fold_st f acc l r = (Ok (foldl g acc l), r).
Proof.
  induction l as [|x l IH]; intros Hf acc; cbn [fold_st foldl]; [done|].
  rewrite (ST_bind_step _ _ _ _ _ (Hf acc x ltac:(left))). apply IH. intros acc' y Hy. apply Hf. by right.
Qed.

Lemma run_read_size name r : faults r = [] → ∃ n, read_size name r = (Ok n, r).
Proof.
  intros Hr. unfold read_size. rewrite (ST_bind_step _ _ _ _ _ (run_ignore _ _ _ _ (run_reading _ r Hr))). by eexists.
Qed.

Lemma run_list_staged r : faults r = [] → ∃ l, list_staged_files r = (Ok l, r) ∧
  ∀ h, h ∈ l.*1 ↔ is_Some (markers r !! h) ∧ is_64_lower_hex h = true.
Proof.
  intros Hr. unfold list_staged_files. rewrite (ST_bind_step _ _ _ _ _ (run_reading _ r Hr)).
  set (names := (map_to_list (markers r)).*1).
  assert (Hloop : ∀ names out, ∃ l, fold_st (λ (out : list (str * option Z)) name,
      if is_64_lower_hex name then size ← read_size name; mret (out ++ [(name, size)]) else mret out) out names r = (Ok l, r) ∧
      ∀ h, h ∈ l.*1 ↔ h ∈ out.*1 ∨ (h ∈ names ∧ is_64_lower_hex h = true)).
  { clear names. induction names as [|x names IH]; intros out; cbn [fold_st].
    - exists out. split; [done|]. intros h. set_solver.
    - destruct (is_64_lower_hex x) eqn:Hx.
      + destruct (run_read_size x r Hr) as [n Hn]. destruct (IH (out ++ [(x, n)])) as (l & Hl & Hin). exists l.
        rewrite (ST_bind_step _ _ _ (out ++ [(x, n)]) r) by by rewrite (ST_bind_step _ _ _ _ _ Hn).
        split; [done|]. intros h. rewrite Hin, fmap_app. set_solver.
      + destruct (IH out) as (l & Hl & Hin). exists l. split; [exact Hl|]. intros h. rewrite Hin.
        split; [set_solver|]. intros [?|[[->|?]%elem_of_cons ?]]; [by left|congruence|by right]. }
  destruct (Hloop names []) as (l & Hl & Hin). rewrite (ST_bind_step _ _ _ _ _ Hl). eexists. split; [done|]. intros h.
  rewrite (merge_sort_Permutation (λ a b : str * option Z, Is_true (str_le a.1 b.1)) l), Hin.
  assert (Hn : h ∈ names ↔ is_Some (markers r !! h)).
  { unfold names. rewrite list_elem_of_fmap. split.
    - intros ([k m] & -> & Hm%elem_of_map_to_list). by exists m.
    - intros [m Hm]. exists (h, m). split; [done|]. by apply elem_of_map_to_list. }
  rewrite Hn. set_solver.
Qed.

(** ** What is dropped *)
Section drops.
Context {C : Crates} {O : GitObjects}.

Definition is_old (r : Repo) (grace : Z) (h : str) : bool :=
  match markers r !! h with Some m => (mk_mtime m <=? clock r) && (grace <? clock r - mk_mtime m) | None => false end.
Definition is_dead (r : Repo) (live : gset str) (grace : Z) (h : str) : bool :=
  negb (bool_decide (h ∈ live)) && is_old r grace h.

Lemma run_age_exceeds r h grace : faults r = [] → marker_age_exceeds h grace (clock r) r = (Ok (is_old r grace h), r).
Proof.
  intros Hr. unfold marker_age_exceeds, marker_mtime, is_old.
  erewrite ST_bind_step by by rewrite (ST_bind_step _ _ _ _ _ (run_ignore _ _ _ _ (run_reading _ r Hr))).
  by destruct (markers r !! h).
Qed.

Lemma run_dead_markers r staged live grace : faults r = [] →
  dead_markers staged live grace (clock r) r = (Ok (filter (λ h, is_dead r live grace h = true) staged), r).
Proof.
  intros Hr. unfold dead_markers. rewrite (run_fold _ (λ dead h, if is_dead r live grace h then dead ++ [h] else dead)).
  - do 2 f_equal. assert (Hgen : ∀ dead, foldl (λ dead h, if is_dead r live grace h then dead ++ [h] else dead) dead staged =
      dead ++ filter (λ h, is_dead r live grace h = true) staged).
    { induction staged as [|h staged IH]; intros dead; cbn [foldl]; [by rewrite app_nil_r|]. rewrite IH, filter_cons.
      destruct (is_dead r live grace h) eqn:Hh; [|by rewrite decide_False]. by rewrite decide_True, <-app_assoc. }
    apply (Hgen []).
  - intros acc h _. unfold is_dead. case_bool_decide; [done|].
    by rewrite (ST_bind_step _ _ _ _ _ (run_age_exceeds r h grace Hr)).
Qed.

Lemma run_remove_markers dead : ∀ r, faults r = [] →
  for_each (λ h, _ ← ignore (remove_marker h); mret tt) dead r
  = (Ok tt, set_markers (foldl (λ m h, delete h m) (markers r) dead) r).
Proof.
  induction dead as [|h dead IH]; intros r Hr; cbn [for_each foldl]; [by destruct r|].
  set (r1 := set_markers (delete h (markers r)) r).
  rewrite (ST_bind_step _ _ _ tt r1) by
    by rewrite (ST_bind_step _ _ _ _ _ (run_ignore (remove_marker h) r _ _ (run_writing _ r Hr))).
  by rewrite IH.
Qed.
Lemma lookup_removed {V} (dead : list str) (m : gmap str V) (h : str) :
  foldl (λ m h, delete h m) m dead !! h = if bool_decide (h ∈ dead) then None else m !! h.
Proof.
  revert m. induction dead as [|d dead IH]; intros m; cbn [foldl]; [done|]. rewrite IH.
  destruct (decide (h = d)) as [->|Hne].
  - rewrite lookup_delete_eq, (bool_decide_true (d ∈ d :: dead)) by (left). by case_bool_decide.
  - rewrite lookup_delete_ne by done. do 2 case_bool_decide; set_solver.
Qed.

(** The rest of gc changes cached entries, and objects once no marker is left. *)
Lemma run_forget hashes r : faults r = [] →
  ∃ cc n, forget_hashes hashes r = (Ok n, set_clean_cache cc r).
Proof.
  intros Hr. unfold forget_hashes. case_bool_decide.
  { exists (clean_cache r), 0%nat. by destruct r. }
  rewrite (ST_bind_step _ _ _ _ _ (run_reading _ r Hr)). generalize ((map_to_list (clean_cache r)).*1) as names.
  intros names. generalize 0%nat as n. revert r Hr. induction names as [|x names IH]; intros r Hr n; cbn [fold_st].
  { exists (clean_cache r), n. by destruct r. }
  set (body := (file ← ignore (reading (λ r, clean_cache r !! x)); _)).
  assert (Hb : ∃ cc n', body r = (Ok n', set_clean_cache cc r)).
  { unfold body. rewrite (ST_bind_step _ _ _ _ _ (run_ignore _ _ _ _ (run_reading (λ r, clean_cache r !! x) r Hr))).
    assert (Hsame : ∃ cc n', (mret n : R nat) r = (Ok n', set_clean_cache cc r)) by (exists (clean_cache r), n; by destruct r).
    destruct (clean_cache r !! x) as [b|]; [|exact Hsame]. destruct (entry_names hashes b); [|exact Hsame].
    rewrite (ST_bind_step _ _ _ _ _ (run_writing _ r Hr)). by eexists _, _. }
  destruct Hb as (cc & n' & Hb). rewrite (ST_bind_step _ _ _ _ _ Hb). destruct (IH (set_clean_cache cc r) Hr n') as (cc' & n'' & ->).
  by exists cc', n''.
Qed.

Lemma run_remove_objects r : faults r = [] → ∃ o, remove_all_staged_objects r = (Ok tt, set_objects o r) ∧
  ∀ name, o !! name = if is_object_name name then None else objects r !! name.
Proof.
  intros Hr. unfold remove_all_staged_objects. rewrite (ST_bind_step _ _ _ _ _ (run_reading _ r Hr)).
  set (names := (map_to_list (objects r)).*1).
  assert (Hloop : ∀ names r, faults r = [] → ∃ o, for_each (λ name, if is_object_name name then remove_object name else mret tt) names r = (Ok tt, set_objects o r) ∧
    ∀ name, o !! name = if is_object_name name && bool_decide (name ∈ names) then None else objects r !! name).
  { clear. induction names as [|x names IH]; intros r Hr; cbn [for_each].
    - exists (objects r). split; [by destruct r|]. intros name. rewrite bool_decide_false by set_solver. by rewrite andb_false_r.
    - destruct (is_object_name x) eqn:Hx.
      + set (r1 := set_objects (delete x (objects r)) r). destruct (IH r1 Hr) as (o & Ho & Hl). exists o.
        rewrite (ST_bind_step _ _ _ tt r1) by
          by (unfold remove_object; rewrite (ST_bind_step _ _ _ _ _ (run_ignore _ r _ _ (run_writing _ r Hr)))).
        split; [done|]. intros name. rewrite Hl. cbn. destruct (decide (name = x)) as [->|Hne].
        * rewrite lookup_delete_eq, Hx, (bool_decide_true (x ∈ x :: names)) by left. by case_match.
        * rewrite lookup_delete_ne by done. by rewrite (bool_decide_ext (name ∈ x :: names) (name ∈ names)) by set_solver.
      + destruct (IH r Hr) as (o & Ho & Hl). exists o. split; [done|]. intros name. rewrite Hl.
        destruct (decide (name = x)) as [->|Hne]; [by rewrite Hx|].
        by rewrite (bool_decide_ext (name ∈ x :: names) (name ∈ names)) by set_solver. }
  destruct (Hloop names r Hr) as (o & Ho & Hl). exists o. split; [done|]. intros name. rewrite Hl.
  destruct (is_object_name name); [|done]. case_bool_decide as Hn; [done|]. cbn.
  apply eq_None_not_Some. intros [b Hb]. apply Hn. unfold names. apply list_elem_of_fmap. exists (name, b).
  split; [done|]. by apply elem_of_map_to_list.
Qed.

Definition no_markers (r : Repo) : Prop := ∀ h, is_64_lower_hex h = true → markers r !! h = None.

Lemma run_sweep r : faults r = [] → ∃ r', sweep r = (Ok tt, r') ∧
  (¬ no_markers r → markers r' = markers r ∧ objects r' = objects r) ∧
  (no_markers r → markers r' = ∅ ∧ ∀ name, is_object_name name = true → objects r' !! name = None).
Proof.
  intros Hr. unfold sweep. destruct (run_list_staged r Hr) as (l & Hl & Hin).
  rewrite (ST_bind_step _ _ _ _ _ (run_or_else _ _ _ _ _ Hl)). destruct l as [|[h n] l].
  - set (r1 := set_markers ∅ r). destruct (run_remove_objects r1 Hr) as (o & Ho & Hobj).
    exists (set_objects o r1).
    rewrite (ST_bind_step _ _ _ (Some tt) r1) by exact (run_ignore clear_file_markers r _ _ (run_writing (set_markers ∅) r Hr)).
    rewrite (ST_bind_step _ _ _ _ _ (run_ignore _ _ _ _ Ho)). split; [done|]. split.
    + intros Hno. destruct Hno. intros h Hh. apply eq_None_not_Some. intros Hs.
      assert (h ∈ []) as Hn by (apply Hin; done). by apply not_elem_of_nil in Hn.
    + intros _. split; [done|]. intros name Hname. cbn. by rewrite Hobj, Hname.
  - exists r. split; [done|]. split; [done|]. intros Hno. assert (h ∈ ((h, n) :: l).*1) as [[m Hm] Hh]%Hin by left.
    by rewrite (Hno h Hh) in Hm.
Qed.

Lemma run_reclaim git local_mode grace staged r :
  faults r = [] → (∀ h, h ∈ staged ↔ is_Some (markers r !! h) ∧ is_64_lower_hex h = true) →
  let live := live_hashes git local_mode (list_to_set staged) in
  ∃ r', reclaim git local_mode grace staged r = (Ok tt, r') ∧
    (∀ h, is_64_lower_hex h = true → markers r' !! h = if is_dead r live grace h then None else markers r !! h) ∧
    (objects r' ≠ objects r → no_markers r').
Proof.
  intros Hr Hstaged live. unfold reclaim.
  rewrite (ST_bind_step _ _ _ (clock r) r) by done. rewrite (ST_bind_step _ _ _ _ _ (run_dead_markers r staged live grace Hr)).
  set (dead := filter _ staged).
  assert (Hdead : ∀ h, is_64_lower_hex h = true → h ∈ dead ↔ is_dead r live grace h = true).
  { intros h Hh. unfold dead. rewrite list_elem_of_filter, Hstaged. split; [tauto|]. intros Hd. split_and!; try done.
    unfold is_dead, is_old in Hd. destruct (markers r !! h); [done|]. by rewrite andb_false_r in Hd. }
  clearbody dead. destruct dead as [|d dead].
  { exists r. split; [done|]. split; [|done]. intros h Hh. destruct (is_dead r live grace h) eqn:Hd; [|done].
    apply Hdead in Hd; [|done]. by apply not_elem_of_nil in Hd. }
  set (r1 := set_markers (foldl (λ m h, delete h m) (markers r) (d :: dead)) r).
  rewrite (ST_bind_step _ _ _ tt r1) by exact (run_remove_markers (d :: dead) r Hr).
  destruct (run_forget (orphaned_hashes git local_mode (list_to_set staged) (d :: dead)) r1 Hr) as (cc & n & Hf).
  rewrite (ST_bind_step _ _ _ _ _ (run_ignore _ _ _ _ Hf)).
  destruct (run_sweep (set_clean_cache cc r1) Hr) as (r' & Hs & Hkept & Hswept). exists r'. split; [done|].
  assert (Hm1 : ∀ h, is_64_lower_hex h = true → markers r1 !! h = if is_dead r live grace h then None else markers r !! h).
  { intros h Hh. unfold r1. cbn [markers set_markers]. rewrite lookup_removed. specialize (Hdead h Hh).
    destruct (is_dead r live grace h); [rewrite bool_decide_true by tauto|rewrite bool_decide_false by naive_solver]; done. }
  assert (Hcase : no_markers (set_clean_cache cc r1) ∨ ¬ no_markers (set_clean_cache cc r1)).
  { destruct (run_list_staged r1 Hr) as (l & _ & Hin). destruct l as [|[h k] l]; [left|right].
    - intros h Hh. apply eq_None_not_Some. intros Hsome. assert (h ∈ []) as Hn by (by apply Hin). by apply not_elem_of_nil in Hn.
    - intros Hno. assert (h ∈ ((h, k) :: l).*1) as [[m Hm] Hh]%Hin by left. specialize (Hno h Hh). change (markers r1 !! h = None) in Hno. congruence. }
  destruct Hcase as [Hno|Hno].
  - destruct (Hswept Hno) as [Hm _]. split; [|intros _ h _; by rewrite Hm, lookup_empty].
    intros h Hh. rewrite Hm, lookup_empty, <-Hm1 by done. symmetry. exact (Hno h Hh).
  - destruct (Hkept Hno) as [Hm Ho]. split; [|by intros Hne].
    intros h Hh. rewrite Hm. by apply Hm1.
Qed.

(** Tips to start from and tips to hide: in local mode the store is the only copy. *)
Definition gc_tips (git : GitRepo) (local_mode : bool) : list ObjectId * list ObjectId :=
  let '(local_tips, remote_tips) := ref_tips git in
  if local_mode then (local_tips ++ remote_tips, []) else (local_tips, remote_tips).

Lemma live_hashes_tips git local_mode want :
  live_hashes git local_mode want = reachable_hashes git want (gc_tips git local_mode).1 (gc_tips git local_mode).2.
Proof. unfold live_hashes, gc_tips. destruct (ref_tips git). by destruct local_mode. Qed.

(** A run that does nothing: a shared store, an add or an operation of git under way. *)
Definition gc_skips (raw : RawConfig) (locked : bool) (v : InFlight) : bool :=
  (local_mode raw && local_shared raw) || locked || git_op_in_flight v.

(** C7. gc never drops what a push or a checkout could still need: a marker
    whose file the index has, or a commit of the tips that no hidden commit has
    a copy of, stays, and so does one that is younger than the grace; objects
    are swept only when no marker is left; a run during an operation of git or
    on a shared store changes neither.  An unreferenced, aged marker is dropped
    otherwise.  (No call of the file system fails, and git's walks can be set up:
    see the findings for a call that fails.) *)
Theorem gc_keeps_needed git (L : GitLaws git) (W : walks_set_up git) gd config locked v grace_env r :
  faults r = [] →
  let raw := match config with Ok raw => raw | _ => assumed_config gd end in
  let grace := reclaim_grace grace_env in
  let tips := gc_tips git (local_mode raw) in
  let '(o, r') := reconcile (Some (git, gd)) config locked v grace_env r in
  o = Ok tt ∧
  (∀ h m, is_64_lower_hex h = true → markers r !! h = Some m →
     needed git tips.1 tips.2 h ∨ clock r - mk_mtime m ≤ grace → markers r' !! h = Some m) ∧
  (objects r' ≠ objects r → no_markers r') ∧
  (gc_skips raw locked v = true → markers r' = markers r ∧ objects r' = objects r) ∧
  (gc_skips raw locked v = false → ∀ h m want, is_64_lower_hex h = true → markers r !! h = Some m →
     (∀ h, h ∈ want ↔ is_Some (markers r !! h) ∧ is_64_lower_hex h = true) →
     h ∉ reachable_hashes git want tips.1 tips.2 → mk_mtime m ≤ clock r → grace < clock r - mk_mtime m → markers r' !! h = None).
Proof.
  intros Hr raw grace tips. unfold reconcile. fold raw. fold grace. unfold gc_skips.
  assert (Hnone : ∀ b : bool, b = true → (Ok tt : outcome io_error unit) = Ok tt ∧
    (∀ h m, is_64_lower_hex h = true → markers r !! h = Some m →
     needed git tips.1 tips.2 h ∨ clock r - mk_mtime m ≤ grace → markers r !! h = Some m) ∧
    (objects r ≠ objects r → no_markers r) ∧ (b = true → markers r = markers r ∧ objects r = objects r) ∧
    (b = false → ∀ h m want, is_64_lower_hex h = true → markers r !! h = Some m →
     (∀ h, h ∈ want ↔ is_Some (markers r !! h) ∧ is_64_lower_hex h = true) →
     h ∉ reachable_hashes git want tips.1 tips.2 → mk_mtime m ≤ clock r → grace < clock r - mk_mtime m → markers r !! h = None))
    by (intros b ->; by split_and!).
  destruct (local_mode raw && local_shared raw) eqn:Hshared; [by apply Hnone|]. cbn [orb].
  assert (Hlock : ignore (try_exclusive locked) r = (Ok (Some (negb locked)), r)).
  { apply run_ignore. unfold try_exclusive. by rewrite !(ST_bind_step _ _ _ _ _ (run_writing id r Hr)). }
  rewrite (ST_bind_step _ _ _ _ _ Hlock). destruct locked; [by apply Hnone|]. cbn [negb orb].
  destruct (git_op_in_flight v); [by apply Hnone|]. destruct (run_list_staged r Hr) as (l & Hl & Hin).
  rewrite (ST_bind_step _ _ _ _ _ (run_or_else _ _ _ _ _ Hl)). clear Hnone.
  assert (Hrun : ∃ r', match l with [] => mret tt | _ => reclaim git (local_mode raw) grace l.*1 end r = (Ok tt, r') ∧
    (∀ h, is_64_lower_hex h = true → markers r' !! h =
      if is_dead r (live_hashes git (local_mode raw) (list_to_set l.*1)) grace h then None else markers r !! h) ∧
    (objects r' ≠ objects r → no_markers r')).
  { destruct l as [|x l]; [|by apply run_reclaim]. exists r. split_and!; try done. intros h Hh.
    assert (Hn : markers r !! h = None) by (apply eq_None_not_Some; intros Hs; by apply (not_elem_of_nil h), Hin).
    rewrite Hn. by case_match. }
  destruct Hrun as (r' & -> & Hm & Ho). split; [done|].
  set (want := list_to_set l.*1 : gset str) in *. rewrite live_hashes_tips in Hm. fold tips in Hm. split_and!.
  - intros h m Hh Hmk Hkeep. rewrite Hm, Hmk by done. unfold is_dead, is_old. rewrite Hmk.
    destruct Hkeep as [Hneed|Hyoung]; [|rewrite (proj2 (Z.ltb_ge _ _)) by done; by rewrite !andb_false_r].
    rewrite bool_decide_true; [done|]. eapply needed_is_reachable; [done| |exact Hneed]. apply elem_of_list_to_set, Hin. eauto.
  - done.
  - done.
  - intros _ h m want' Hh Hmk Hw Hlive Hpast Hold. rewrite Hm by done. unfold is_dead, is_old. rewrite Hmk.
    assert (want' = want) as ->.
    { apply set_eq. intros x. unfold want. rewrite elem_of_list_to_set. by rewrite Hw, Hin. }
    rewrite bool_decide_false by done. rewrite (proj2 (Z.leb_le _ _)), (proj2 (Z.ltb_lt _ _)) by done. done.
Qed.
End drops.
