(* ===== verification/GcToy.v ===== *)
(** * A repository with one committed pointer *)

From stdpp Require Import gmap list.
From S2P Require Import Prelude RustStd Pktline CleanCache Config Repo Filter FilterToy Gc GcSpec.

#[export] Instance toy_objects : GitObjects := {|
  ObjectId := nat; oid_eq_dec := _; oid_countable := _;
  tree := gmap str (entry_mode * nat);
  empty_tree := ∅;
|}.
Definition toy_pointer : bytes := toy_json ++ [x0a].
Definition toy_tree_of (c : nat) : gmap str (entry_mode * nat) := {[ lit "f" := (FileMode, 1%nat) ]}.
Definition toy_git : GitRepo := mkGitRepo
  (Some [])
  (Some 10%nat)
  (Some [])
  (λ id : nat, if decide (id = 1%nat) then Some (Blob, len toy_pointer) else Some (Commit, 100))
  (λ id : nat, if decide (id = 1%nat) then Some toy_pointer else None)
  (λ tips _, Some ((λ c, Some (mkWalkInfo (Some (toy_tree_of c)) None)) <$> tips))
  (λ _ c, Some (map_to_list c).*2).

#[export] Instance toy_git_laws : GitLaws toy_git.
Proof.
  refine {| parents := λ _, []; rank := λ _, 0%nat; tree_of := toy_tree_of; files := id |}.
  - intros c p Hp. by apply not_elem_of_nil in Hp.
  - done.
  - intros tips hidden l [= <-] c (t & Ht & Hr) _.
    inversion Hr as [|? ? ? Hp]; subst; [|by apply not_elem_of_nil in Hp].
    apply list_elem_of_fmap. by exists c.
  - intros p c. eexists. split; [done|]. intros path e He _. apply list_elem_of_fmap. exists (path, e).
    split; [done|]. exact (proj2 (elem_of_map_to_list (c : gmap str (entry_mode * nat)) path e) He).
Defined.

Definition toy_hash_name : str := replicate 64 x61.
Definition toy_staged : Repo := mkRepo {[ toy_hash_name := mkMarker (lit "2") 0 ]} ∅ ∅ ∅ None true 10000 [].

Lemma toy_needed : needed toy_git (gc_tips toy_git false).1 (gc_tips toy_git false).2 toy_hash_name.
Proof.
  right. exists 10%nat. split_and!.
  - exists 10%nat. split; [by left|done].
  - exists (lit "f"), FileMode, 1%nat. split_and!; [by vm_compute|done|]. exists toy_pointer, tt. split_and!; by vm_compute.
  - intros c' (t & Ht & _). by apply not_elem_of_nil in Ht.
Qed.

(** The commit's marker is old, and stays. *)
Lemma gc_keeps_needed_witness :
  markers (reconcile (Some (toy_git, lit ".git")) (Err []) false (mkInFlight false None None None) None toy_staged).2 !! toy_hash_name
  = Some (mkMarker (lit "2") 0).
Proof.
  pose proof (gc_keeps_needed toy_git toy_git_laws (λ _ _, ltac:(by eexists)) (lit ".git") (Err []) false (mkInFlight false None None None) None toy_staged eq_refl) as H.
  destruct (reconcile _ _ _ _ _ _) as [o r']. destruct H as (_ & H & _).
  apply H; [vm_compute; reflexivity|vm_compute; reflexivity|left; exact toy_needed].
Defined.

(** What the listing that fails costs: the marker is needed, and lost. *)
Lemma gc_failed_listing_loses_markers :
  let other := replicate 64 x62 in
  let r := mkRepo {[ toy_hash_name := mkMarker (lit "2") 0; other := mkMarker (lit "2") 0 ]} ∅ ∅ ∅ None true 10000
    (replicate 9 None ++ [Some (lit "Too many open files")]) in
  ∃ r', reconcile (Some (toy_git, lit ".git")) (Err []) false (mkInFlight false None None None) None r = (Ok tt, r') ∧
    markers r' !! toy_hash_name = None.
Proof.
  cbv zeta. eexists. split; [vm_compute; reflexivity|]. vm_compute. reflexivity.
Qed.
