(* ===== verification/Remote.v ===== *)
(** * Remote URLs

    [crates/git-bale/src/remote.rs]: which forge, and which repository of it, a
    remote of git names.  What gix knows of the remotes is a parameter. *)

From stdpp Require Import list sorting.
From S2P Require Import Prelude RustStd RustText Repo.

Inductive RemoteScheme := Http | Https | Ssh.
#[export] Instance RemoteScheme_eq_dec : EqDecision RemoteScheme.
Proof. solve_decision. Defined.

Record RemoteUrl := mkRemoteUrl {
  scheme : RemoteScheme;
  user : option str;
  host : str;
  port : option Z;
  repo_path : str;
}.

Inductive RemoteError :=
  | Unrecognized (s : str) | ScpMissingHost (s : str) | UnsupportedScheme (s : str)
  | InvalidPort (p s : str) | MissingHost (s : str)
  | NoSlash (path : str) | MissingOwnerOrName (path : str)
  | NotARepository | NoOrigin | NoFetchUrl.

Definition owner_and_repo (r : RemoteUrl) : outcome RemoteError (str * str) :=
  '(owner, repo) ← ok_or (NoSlash (repo_path r)) (split_once (repo_path r) x2f);
  match owner, repo with
  | [], _ | _, [] => Err (MissingOwnerOrName (repo_path r))
  | _, _ => Ok (owner, repo)
  end.

Definition host_with_port (r : RemoteUrl) (dflt : Z) : str :=
  match port r with
  | Some p => if negb (p =? dflt) then host r ++ lit ":" ++ to_string p else host r
  | None => host r
  end.

Definition https_base (r : RemoteUrl) : str :=
  match scheme r with
  | Http => lit "http://" ++ host_with_port r 80
  | Https => lit "https://" ++ host_with_port r 443
  | Ssh => lit "https://" ++ host r
  end.

Definition strip_dot_git (p : str) : str :=
  let p := trim_start_matches p x2f in default p (strip_suffix p (lit ".git")).

(** [[user@]host:path]. *)
Definition parse_scp (s : str) : outcome RemoteError RemoteUrl :=
  match split_once s x3a with
  | None => Err (Unrecognized s)
  | Some (before, path) =>
      let '(user, host) := match split_once before x40 with
        | Some (u, h) => (Some u, h)
        | None => (None, before)
        end in
      match host with
      | [] => Err (ScpMissingHost s)
      | _ => Ok (mkRemoteUrl Ssh (Some (default (lit "git") user)) host None (strip_dot_git path))
      end
  end.

Definition scheme_of (s : str) : outcome RemoteError RemoteScheme :=
  if decide (s = lit "http") then Ok Http
  else if decide (s = lit "https") then Ok Https
  else if decide (s = lit "ssh") then Ok Ssh
  else Err (UnsupportedScheme s).

(** Host and port of [host[:port]]. *)
Definition parse_host_port (s host_port : str) : outcome RemoteError (str * option Z) :=
  match rsplit_once host_port x3a with
  | Some (h, p) => port ← ok_or (InvalidPort p s) (parse_u16 p); mret (h, Some port)
  | None => Ok (host_port, None)
  end.

Definition parse_remote (s : str) : outcome RemoteError RemoteUrl :=
  let s := trim s in
  if negb (str_contains s (lit "://")) then parse_scp s
  else
    '(scheme_str, rest) ← ok_or (Unrecognized s) (split_once_str s (lit "://"));
    scheme ← scheme_of scheme_str;
    let '(authority, path) := default (rest, []) (split_once rest x2f) in
    let '(user, host_port) := match split_once authority x40 with
      | Some (u, hp) => (Some u, hp)
      | None => (None, authority)
      end in
    '(host, port) ← parse_host_port s host_port;
    match host with
    | [] => Err (MissingHost s)
    | _ =>
        let user := match scheme with Ssh => Some (default (lit "git") user) | _ => user end in
        Ok (mkRemoteUrl scheme user host port (strip_dot_git path))
    end.

(** ** The remotes of a repository

    Their names, and per name the remote, if gix reads it, with its fetch URL. *)
Record GitRemotes := mkGitRemotes {
  remote_names : list str;
  find_remote : str → option (option str);
}.

(** [origin] first, the others by name. *)
Definition remote_le (a b : str) : bool :=
  if decide (a = lit "origin") then true
  else if decide (b = lit "origin") then false
  else str_le a b.

(** [discovered]: what gix finds at the start directory. *)
Definition parse_all_remotes (discovered : option GitRemotes) : list (str * RemoteUrl) :=
  match discovered with
  | None => []
  | Some git =>
      omap (λ name, url ← find_remote git name; url ← (url : option str);
                    match parse_remote url with Ok r => Some (name, r) | _ => None end)
        (merge_sort (λ a b, Is_true (remote_le a b)) (remote_names git))
  end.

Definition parse_origin (discovered : option GitRemotes) : outcome RemoteError RemoteUrl :=
  git ← ok_or NotARepository discovered;
  remote ← ok_or NoOrigin (find_remote git (lit "origin"));
  url ← ok_or NoFetchUrl remote;
  parse_remote url.

(** ** Every shape of URL reads back

    What a forge shows for a repository, composed of its parts. *)

Definition scheme_text (s : RemoteScheme) : str :=
  match s with Http => lit "http" | Https => lit "https" | Ssh => lit "ssh" end.
Definition user_text (u : option str) : str := match u with Some u => (u ++ lit "@")%list | None => [] end.
Definition port_text (p : option Z) : str := match p with Some p => (lit ":" ++ to_string p)%list | None => [] end.
Definition authority_text (u : option str) (h : str) (p : option Z) : str := user_text u ++ h ++ port_text p.
Definition url_text (r : RemoteUrl) (suffix : str) : str :=
  scheme_text (scheme r) ++ lit "://" ++ authority_text (user r) (host r) (port r) ++ lit "/" ++ repo_path r ++ suffix.
Definition scp_text (r : RemoteUrl) (suffix : str) : str :=
  user_text (user r) ++ host r ++ lit ":" ++ repo_path r ++ suffix.

(** The parts are printable and hold no separators. *)
Definition part (s : str) : Prop := graphic s ∧ (x2f ∉ s) ∧ (x40 ∉ s) ∧ (x3a ∉ s).
Definition path_ok (s : str) : Prop := graphic s ∧ head s ≠ Some x2f.
(** The suffix is [.git], or nothing after a path without it. *)
Definition suffix_ok (path suffix : str) : Prop :=
  suffix = lit ".git" ∨ (suffix = [] ∧ strip_suffix path (lit ".git") = None).
Definition user_ok (u : option str) : Prop := match u with Some u => part u | None => True end.
Definition port_ok (p : option Z) : Prop := match p with Some p => 0 ≤ p ≤ u16_max | None => True end.
Record url_ok (r : RemoteUrl) (suffix : str) : Prop := {
  uo_user : user_ok (user r);
  uo_http : scheme r ≠ Ssh → user r = None;
  uo_host : part (host r) ∧ host r ≠ [];
  uo_port : port_ok (port r);
  uo_path : path_ok (repo_path r) ∧ suffix_ok (repo_path r) suffix;
}.

Lemma graphic_lit_port p : 0 ≤ p → graphic (to_string p).
Proof.
  intros Hp. eapply Forall_impl; [by apply to_string_is_digits|]. intros c. unfold is_digit, in_range.
  rewrite !andb_true_iff, !Z.leb_le. lia.
Qed.

Lemma parse_u16_to_string p : 0 ≤ p ≤ u16_max → parse_u16 (to_string p) = Some p.
Proof. intros Hp. unfold parse_u16, to_string. by rewrite from_str_radix_fmt by (unfold u16_max in *; lia). Qed.

Lemma strip_dot_git_suffix path suffix :
  path_ok path → suffix_ok path suffix → strip_dot_git (path ++ suffix) = path.
Proof.
  intros [_ Hh] Hs. unfold strip_dot_git.
  assert (Htrim : trim_start_matches (path ++ suffix) x2f = path ++ suffix).
  { destruct path as [|c path]; [by destruct Hs as [->|[-> _]]|]. cbn. rewrite decide_False; [done|].
    intros ->. by destruct Hh. }
  rewrite Htrim. destruct Hs as [->|[-> Hn]]; [by rewrite strip_suffix_app|]. by rewrite app_nil_r, Hn.
Qed.

Lemma suffix_graphic path suffix : suffix_ok path suffix → graphic suffix.
Proof. intros [->|[-> _]]; [|by constructor]. by repeat constructor. Qed.

Lemma user_text_ok u : user_ok u → graphic (user_text u) ∧ (x2f ∉ user_text u) ∧ (x3a ∉ user_text u).
Proof.
  destruct u as [u|]; cbn [user_ok user_text]; [|intros _; split_and!; [by constructor|set_solver..]]. intros (Hg & Hs & Ha & Hc).
  rewrite graphic_app, !not_elem_of_app. split_and!; try done; [by repeat constructor|by_lit..].
Qed.
Lemma port_text_ok p : port_ok p → graphic (port_text p) ∧ (x2f ∉ port_text p) ∧ (x40 ∉ port_text p).
Proof.
  destruct p as [p|]; cbn [port_ok port_text]; [|intros _; split_and!; [by constructor|set_solver..]]. intros Hp.
  rewrite graphic_app, !not_elem_of_app.
  split_and!; first [by_lit|by repeat constructor|apply graphic_lit_port; lia|apply to_string_not_in; [lia|done]].
Qed.

Lemma parse_host_port_text s h p :
  x3a ∉ h → port_ok p → parse_host_port s (h ++ port_text p) = Ok (h, p).
Proof.
  intros Hh Hp. unfold parse_host_port. destruct p as [p|]; cbn [port_text].
  - change (lit ":" ++ to_string p) with (x3a :: to_string p). rewrite rsplit_once_app.
    + cbn in Hp. by rewrite parse_u16_to_string.
    + cbn in Hp. by apply to_string_not_in; [lia|].
  - by rewrite app_nil_r, rsplit_once_None.
Qed.

Lemma scheme_of_text s : scheme_of (scheme_text s) = Ok s.
Proof. by destruct s. Qed.

Lemma split_user u rest : user_ok u → x40 ∉ rest →
  match split_once (user_text u ++ rest) x40 with
  | Some (u, hp) => (Some u, hp) | None => (None, user_text u ++ rest) end = (u, rest).
Proof.
  intros Hu Hr. destruct u as [u|]; cbn [user_text app].
  - rewrite <-app_assoc. change (lit "@" ++ rest) with (x40 :: rest).
    rewrite (proj2 (split_once_Some _ _ u rest)); [done|]. split; [done|apply Hu].
  - by rewrite (proj2 (split_once_None _ _)).
Qed.

(** The first separator of the scp style is the colon after the host. *)
Lemma scp_not_url before rest : x3a ∉ before → x3a ∉ rest → head rest ≠ Some x2f →
  str_contains (before ++ x3a :: rest) (lit "://") = false.
Proof.
  intros Hb Hr Hhd. change (lit "://") with (x3a :: lit "//"). induction before as [|d b IH]; cbn [app].
  - cbn [str_contains]. rewrite starts_with_app_cons. destruct (starts_with _ (lit "//")) eqn:Hs; cbn [orb].
    + exfalso. apply starts_with_spec in Hs as [k ->]. by destruct Hhd.
    + by apply str_contains_not.
  - cbn [str_contains starts_with]. rewrite bool_decide_false by set_solver. cbn [andb orb]. apply IH. set_solver.
Qed.

Lemma suffix_no_colon path suffix : suffix_ok path suffix → x3a ∉ suffix.
Proof. intros [->|[-> _]]; [by_lit|set_solver]. Qed.
Lemma path_suffix_head path suffix : path_ok path → suffix_ok path suffix → head (path ++ suffix) ≠ Some x2f.
Proof. intros [_ Hh] Hs. destruct path; [by destruct Hs as [->|[-> _]]|done]. Qed.

(** C40. A remote URL reads back: the URL of a repository, in any of the shapes
    that forges show (http or https with an optional port, ssh with an optional
    user and port, or the scp style), with or without [.git], parses to the parts
    it was composed of: an http URL without a user has none, an ssh URL without
    one is git's. *)
Theorem remote_url_roundtrip (r : RemoteUrl) (suffix : str) :
  url_ok r suffix →
  parse_remote (url_text r suffix) = Ok (mkRemoteUrl (scheme r)
    (match scheme r with Ssh => Some (default (lit "git") (user r)) | _ => None end) (host r) (port r) (repo_path r)) ∧
  (x3a ∉ repo_path r → parse_remote (scp_text r suffix) =
    Ok (mkRemoteUrl Ssh (Some (default (lit "git") (user r))) (host r) None (repo_path r))).
Proof.
  intros [Hu Hhttp [(Hg & Hs & Ha & Hc) Hne] Hp [Hpath Hsuf]].
  destruct (user_text_ok _ Hu) as (Ug & Us & Uc), (port_text_ok _ Hp) as (Pg & Ps & Pa).
  pose proof (suffix_graphic _ _ Hsuf) as Sg. destruct Hpath as [Rg Rh] eqn:Hpath'. clear Hpath'.
  split.
  - unfold parse_remote, url_text, authority_text. rewrite trim_graphic.
    2:{ rewrite !graphic_app. split_and!; try done; by first [destruct (scheme r); repeat constructor|repeat constructor]. }
    rewrite str_contains_app. cbn [negb].
    change (lit "://") with (x3a :: lit "//"). rewrite split_once_str_app by (destruct (scheme r); by_lit).
    cbn [ok_or mbind outcome_bind]. rewrite scheme_of_text. cbn [mbind outcome_bind].
    change (lit "/" ++ repo_path r ++ suffix) with (x2f :: (repo_path r ++ suffix)).
    rewrite (proj2 (split_once_Some _ _ (user_text (user r) ++ host r ++ port_text (port r)) (repo_path r ++ suffix))).
    2:{ split; [done|]. by rewrite !not_elem_of_app. }
    cbn [default from_option id]. rewrite split_user by (done || by rewrite not_elem_of_app).
    rewrite parse_host_port_text by done. cbn [mbind outcome_bind].
    rewrite strip_dot_git_suffix by done.
    destruct (host r); [done|]. destruct (scheme r); [by rewrite Hhttp..|done].
  - intros Hnc. unfold parse_remote, scp_text. rewrite trim_graphic.
    2:{ rewrite !graphic_app. split_and!; try done; by repeat constructor. }
    change (user_text (user r) ++ host r ++ lit ":" ++ repo_path r ++ suffix)
      with (user_text (user r) ++ host r ++ x3a :: (repo_path r ++ suffix)). rewrite app_assoc.
    assert (Hb : x3a ∉ user_text (user r) ++ host r) by by rewrite not_elem_of_app.
    pose proof (suffix_no_colon _ _ Hsuf) as Sc.
    rewrite scp_not_url; [|done|by rewrite not_elem_of_app|by apply path_suffix_head]. cbn [negb]. unfold parse_scp.
    rewrite (proj2 (split_once_Some _ _ (user_text (user r) ++ host r) (repo_path r ++ suffix))) by done.
    rewrite split_user by done. rewrite strip_dot_git_suffix by done.
    destruct (host r); [done|]. destruct (scheme r); [by rewrite Hhttp..|done].
Qed.

Definition toy_remote : RemoteUrl := mkRemoteUrl Https None (lit "git.example.com") (Some 3000) (lit "alice/repo").
Lemma remote_url_roundtrip_witness :
  parse_remote (lit "https://git.example.com:3000/alice/repo.git") = Ok toy_remote ∧
  parse_remote (lit "git.example.com:alice/repo.git") =
    Ok (mkRemoteUrl Ssh (Some (lit "git")) (lit "git.example.com") None (lit "alice/repo")).
Proof.
  assert (Hok : url_ok toy_remote (lit ".git")).
  { split; [done|done| |done|].
    - split; [|done]. split; [by repeat constructor|]. split_and!; by_lit.
    - split; [split; [by repeat constructor|done]|by left]. }
  destruct (remote_url_roundtrip toy_remote (lit ".git") Hok) as [H1 H2].
  split; [exact H1|]. apply H2. by_lit.
Defined.

(** A user in an http URL is kept. *)
Example http_user_is_kept :
  parse_remote (lit "https://bob@git.example.com/alice/repo.git") =
  Ok (mkRemoteUrl Https (Some (lit "bob")) (lit "git.example.com") None (lit "alice/repo")).
Proof. vm_compute. reflexivity. Qed.
