(* ===== verification/Resolver.v ===== *)
(** * Where the client gets its tokens

    [crates/git-bale/src/resolver.rs]: the forge is asked who the user is, over
    HTTP or ssh, and the server exchanges the answer for a token.  The network
    and git's commands are a world that answers; every request and every command
    is recorded. *)

From stdpp Require Import gmap list.
From S2P Require Import Prelude RustStd RustText Config Repo Remote.

Inductive Scope := Read | Write.
#[export] Instance Scope_eq_dec : EqDecision Scope.
Proof. solve_decision. Defined.

Definition url_segment (s : Scope) : str :=
  match s with Read => lit "bale-read-token" | Write => lit "bale-write-token" end.
Definition op_name (s : Scope) : str := match s with Read => lit "download" | Write => lit "upload" end.

Record ResolvedAuth := mkResolvedAuth { ra_server_url : str; ra_token : str; ra_token_expiration : Z }.

(** ** What leaves the process *)

Inductive Method := Get | Post.
Inductive Credentials := Anonymous | Basic (username password : str) | Bearer (token : str).
Record Request := mkRequest { method : Method; url : str; credentials : Credentials }.
Record Command := mkCommand { program : str; arguments : list str; directory : option str; input : bytes }.
Inductive event := Sent (r : Request) | Ran (c : Command).
Record Response := mkResponse { status : Z; body : outcome str bytes }.
Record Output := mkOutput { succeeded : bool; stdout : bytes; stderr : bytes }.

Class Outside := {
  World : Type;
  now_utc : World → Z;
  send : Request → World → outcome str Response * World;
  spawn : Command → World → outcome str Output * World;
  http_client : outcome str unit;
  discover : option str → option GitRemotes;
  (** [href] and the headers; the flattened header for ssh; token, expiry and server. *)
  authenticate_from_json : bytes → outcome str (str * gmap str str);
  ssh_from_json : bytes → outcome str (str * str * gmap str str);
  exchange_from_json : bytes → outcome str (str * Z * option str);
}.

Inductive ResolveError :=
  | Origin (e : RemoteError) | RemotePath (e : RemoteError)
  | InvalidLength (label s : str) | LeadingDot (label s : str) | UnsafeCharacters (label s : str)
  | NotBearer | ClientFailed (m : str) | SendFailed (url m : str) | BadStatus (url : str) (status : Z)
  | Decoding (m : str) | NoAuthorization | StillUnauthorized
  | SpawnFailed (m : str) | CommandFailed (stderr : bytes) | FillOnSsh | NoPassword.

(** Accept only [[A-Za-z0-9._-]+], no leading dot, length 1 to 100. *)
Definition safe_byte (b : byte) : bool :=
  in_range b 48 57 || in_range b 65 90 || in_range b 97 122 || bool_decide (b ∈ [x2e; x5f; x2d]).
Definition validate_segment (label s : str) : outcome ResolveError unit :=
  if (len s =? 0) || (100 <? len s) then Err (InvalidLength label s)
  else if starts_with s (lit ".") then Err (LeadingDot label s)
  else if negb (forallb safe_byte s) then Err (UnsafeCharacters label s)
  else Ok tt.

Definition strip_bearer (authz : str) : option str := trim <$> strip_prefix authz (lit "Bearer ").

Section resolver.
Context {O : Outside}.

Record Net := mkNet { world : World; events : list event }.
Abbreviation N := (ST Net ResolveError).

Definition send_request (r : Request) : ST Net str Response := λ n,
  let '(o, w) := send r (world n) in (o, mkNet w (events n ++ [Sent r])).
Definition run_command (c : Command) : ST Net str Output := λ n,
  let '(o, w) := spawn c (world n) in (o, mkNet w (events n ++ [Ran c])).

Record SshAuthOutcome := mkSshAuthOutcome { href : str; authorization : str }.

(** ** HTTP *)

Inductive AuthHttpError := NeedsAuth | Other (e : ResolveError).
Definition into_anyhow (e : AuthHttpError) : ResolveError :=
  match e with NeedsAuth => StillUnauthorized | Other e => e end.

Definition authenticate_url (remote : RemoteUrl) (owner repo : str) (scope : Scope) : str :=
  https_base remote ++ lit "/" ++ owner ++ lit "/" ++ repo ++ lit ".git/info/bale/authenticate?op=" ++ op_name scope.

Definition is_success (status : Z) : bool := (200 <=? status) && (status <=? 299).
Definition unauthorized (status : Z) : bool := (status =? 401) || (status =? 403).

Definition authenticate_http (remote : RemoteUrl) (owner repo : str) (scope : Scope) (creds : Credentials)
    : ST Net AuthHttpError SshAuthOutcome :=
  let url := authenticate_url remote owner repo scope in
  _ ← st_map_err (λ e, Other (ClientFailed e)) (lift http_client);
  resp ← st_map_err (λ e, Other (SendFailed url e)) (send_request (mkRequest Post url creds));
  if unauthorized (status resp) then throw NeedsAuth
  else if negb (is_success (status resp)) then throw (Other (BadStatus url (status resp)))
  else
    '(href, header) ← lift (map_err (λ e, Other (Decoding e)) (b ← body resp; authenticate_from_json b));
    authz ← lift (ok_or (Other NoAuthorization) (header !! lit "Authorization"));
    mret (mkSshAuthOutcome (trim_end_matches href x2f) authz).

(** ** Git's credentials *)

Definition fill_command (remote : RemoteUrl) (cwd : option str) : Command :=
  let protocol := match scheme remote with Http => lit "http" | _ => lit "https" end in
  mkCommand (lit "git") [lit "credential"; lit "fill"] cwd
    (lit "protocol=" ++ protocol ++ [x0a] ++ lit "host=" ++ host remote ++ [x0a] ++
     match port remote with Some p => lit "port=" ++ to_string p ++ [x0a] | None => [] end ++ [x0a]).

(** The last line of each field counts. *)
Definition fill_step (st : option str * option str) (line : str) : option str * option str :=
  match strip_prefix line (lit "username=") with
  | Some rest => (Some rest, st.2)
  | None =>
      match strip_prefix line (lit "password=") with
      | Some rest => (st.1, Some rest)
      | None => st
      end
  end.

Definition git_credential_fill (remote : RemoteUrl) (cwd : option str) : N (str * str) :=
  match scheme remote with
  | Ssh => throw FillOnSsh
  | _ =>
      out ← st_map_err SpawnFailed (run_command (fill_command remote cwd));
      if negb (succeeded out) then throw (CommandFailed (trim (from_utf8_lossy (stderr out))))
      else
        let '(username, password) := foldl fill_step (None, None) (lines (from_utf8_lossy (stdout out))) in
        password ← lift (ok_or NoPassword password);
        mret (default (lit "git") username, password)
  end.

Definition authenticate_http_with_fallback (remote : RemoteUrl) (owner repo : str) (scope : Scope)
    (repo_cwd : option str) : N SshAuthOutcome :=
  let with_credentials : N SshAuthOutcome :=
    '(username, password) ← git_credential_fill remote repo_cwd;
    st_map_err into_anyhow (authenticate_http remote owner repo scope (Basic username password)) in
  if decide (scope = Read) then λ n,
    match authenticate_http remote owner repo scope Anonymous n with
    | (Ok o, n') => (Ok o, n')
    | (Err NeedsAuth, n') => with_credentials n'
    | (Err (Other e), n') => (Err e, n')
    | (Panic, n') => (Panic, n')
    | (Diverged, n') => (Diverged, n')
    end
  else with_credentials.

(** ** ssh *)

Definition ssh_args (remote : RemoteUrl) (owner repo : str) (scope : Scope) : list str :=
  [lit "-o"; lit "BatchMode=yes"; lit "-o"; lit "StrictHostKeyChecking=accept-new"] ++
  match port remote with Some p => [lit "-p"; to_string p] | None => [] end ++
  [default (lit "git") (user remote) ++ lit "@" ++ host remote;
   lit "git-bale-authenticate " ++ owner ++ lit "/" ++ repo ++ lit " " ++ op_name scope].

(** A configured command goes through the shell, the arguments as its own. *)
Definition ssh_subprocess (ssh_command : option str) (args : list str) : Command :=
  let plain := mkCommand (lit "ssh") args None [] in
  match ssh_command with
  | Some cmd =>
      match trim cmd with
      | [] => plain
      | cmd => mkCommand (lit "/bin/sh") ([lit "-c"; cmd ++ lit " " ++ [x22] ++ lit "$@" ++ [x22]; cmd] ++ args) None []
      end
  | None => plain
  end.

Definition ssh_authenticate (remote : RemoteUrl) (owner repo : str) (scope : Scope) (ssh_command : option str)
    : N SshAuthOutcome :=
  out ← st_map_err SpawnFailed (run_command (ssh_subprocess ssh_command (ssh_args remote owner repo scope)));
  if negb (succeeded out) then throw (CommandFailed (trim (from_utf8_lossy (stderr out))))
  else
    '(href, flat, header) ← lift (map_err Decoding (ssh_from_json (stdout out)));
    authz ← lift (ok_or NoAuthorization
      match header !! lit "Authorization" with
      | Some a => Some a
      | None => match flat with [] => None | _ => Some flat end
      end);
    mret (mkSshAuthOutcome (trim_end_matches href x2f) authz).

(** ** The exchange *)

Definition exchange_url (server_url owner repo revision : str) (scope : Scope) : str :=
  trim_end_matches server_url x2f ++ lit "/api/models/" ++ owner ++ lit "/" ++ repo ++ lit "/" ++ url_segment scope ++
  lit "/" ++ revision.

Definition exchange_token (server_url owner repo revision : str) (scope : Scope) (forge_bearer : str) : N ResolvedAuth :=
  let url := exchange_url server_url owner repo revision scope in
  _ ← st_map_err ClientFailed (lift http_client);
  resp ← st_map_err (SendFailed url) (send_request (mkRequest Get url (Bearer forge_bearer)));
  if negb (is_success (status resp)) then throw (BadStatus url (status resp))
  else
    '(access_token, exp, cas_url) ← lift (map_err Decoding (b ← body resp; exchange_from_json b));
    let resolved := match cas_url with Some s => trim_end_matches s x2f | None => trim_end_matches server_url x2f end in
    mret (mkResolvedAuth resolved access_token exp).

(** ** Resolving *)

Definition expiration_or_far (raw : RawConfig) : N Z :=
  now ← gets (λ n, now_utc (world n));
  mret (match token_expiration raw with Some t => t | None => far_future_epoch now end).

Definition repo_cwd (raw : RawConfig) : option str := parent <$> git_dir raw.

(** The server's address, and the forge's word for the user. *)
Definition ask_forge (raw : RawConfig) (scope : Scope) (remote : RemoteUrl) (owner repo : str) : N (str * str) :=
  auth ← match scheme remote with
    | Ssh => ssh_authenticate remote owner repo scope (ssh_command raw)
    | _ => authenticate_http_with_fallback remote owner repo scope (repo_cwd raw)
    end;
  bearer ← lift (ok_or NotBearer (strip_bearer (authorization auth)));
  mret (default (href auth) (server_url raw), bearer).

(** What follows once the remote is known. *)
Definition resolve_at (raw : RawConfig) (scope : Scope) (remote : RemoteUrl) : N ResolvedAuth :=
  '(owner, repo_name) ← lift (map_err RemotePath (owner_and_repo remote));
  _ ← lift (validate_segment (lit "owner") owner);
  _ ← lift (validate_segment (lit "repo") repo_name);
  '(server_url, forge_bearer) ← ask_forge raw scope remote owner repo_name;
  match token raw with
  | Some tok => exp ← expiration_or_far raw; mret (mkResolvedAuth server_url tok exp)
  | None => exchange_token server_url owner repo_name (lit "main") scope forge_bearer
  end.

Definition resolve_for_remote (raw : RawConfig) (scope : Scope) (remote_override : option RemoteUrl) : N ResolvedAuth :=
  match server_url raw, token raw with
  | Some url, Some tok => exp ← expiration_or_far raw; mret (mkResolvedAuth url tok exp)
  | _, _ =>
      remote ← match remote_override with
        | Some r => mret r
        | None => lift (map_err Origin (parse_origin (discover (repo_cwd raw))))
        end;
      resolve_at raw scope remote
  end.

Definition resolve (raw : RawConfig) (scope : Scope) : N ResolvedAuth := resolve_for_remote raw scope None.

(** ** Refreshing *)

Definition REFRESH_BUFFER_SEC : Z := 30.
Definition MAX_EXPIRED_REFRESHES : Z := 3.

Record ForgeTokenRefresher := mkRefresher { net : Net; consecutive_expired : Z }.
Definition set_net n (f : ForgeTokenRefresher) := mkRefresher n (consecutive_expired f).

Inductive RefreshError := RefreshFailed (e : ResolveError) | ClockSkew (exp now : Z) (times : Z).

Definition refresh (raw : RawConfig) (scope : Scope) (remote : option RemoteUrl) : ST ForgeTokenRefresher RefreshError (str * Z) :=
  resolved ← st_map_err RefreshFailed (zoom net set_net (resolve_for_remote raw scope remote));
  now ← gets (λ f, now_utc (world (net f)));
  if ra_token_expiration resolved <=? saturating_add now REFRESH_BUFFER_SEC then
    n ← gets (λ f, as_u32 (consecutive_expired f + 1));
    _ ← modify (λ f, mkRefresher (net f) n);
    if MAX_EXPIRED_REFRESHES <? n then throw (ClockSkew (ra_token_expiration resolved) now n)
    else mret (ra_token resolved, ra_token_expiration resolved)
  else
    _ ← modify (λ f, mkRefresher (net f) 0);
    mret (ra_token resolved, ra_token_expiration resolved).
End resolver.
