(* ===== verification/ResolverSpec.v ===== *)
(** * What the client tells whom

    The conversation of a resolution with the forge and the server, and what the
    refresher does about clocks that disagree. *)

From stdpp Require Import gmap list.
From S2P Require Import Prelude RustStd RustText Config Repo Remote Resolver.

(** ** Names that are safe to interpolate *)

Definition alphabet : str := lit "abcdefghijklmnopqrstuvwxyzABCDEFGHIJKLMNOPQRSTUVWXYZ0123456789._-".
(** A name that cannot leave its place in a URL or in a shell's argument. *)
Definition safe_segment (s : str) : Prop :=
  Forall (λ b, b ∈ alphabet) s ∧ 0 < len s ≤ 100 ∧ head s ≠ Some x2e.

Lemma safe_byte_iff b : safe_byte b = bool_decide (b ∈ alphabet).
Proof. destruct b; vm_compute; reflexivity. Qed.

Lemma validate_segment_iff label s : validate_segment label s = Ok tt ↔ safe_segment s.
Proof.
  unfold validate_segment, safe_segment.
  assert (Hdot : starts_with s (lit ".") = true ↔ head s = Some x2e).
  { rewrite starts_with_spec. change (lit ".") with [x2e]. destruct s as [|c s]; cbn; split; [by intros [? [=]]|done|by intros [? [= -> ?]]|].
    intros [= ->]. by exists s. }
  assert (Hall : forallb safe_byte s = true ↔ Forall (λ b, b ∈ alphabet) s).
  { rewrite forallb_forall, Forall_forall. setoid_rewrite <-list_elem_of_In. setoid_rewrite safe_byte_iff.
    by setoid_rewrite bool_decide_eq_true. }
  destruct (Z.eqb_spec (len s) 0), (Z.ltb_spec 100 (len s)); cbn [orb]; try (split; [done|lia]).
  destruct (starts_with s (lit ".")); [split; [done|by intros (_ & _ & Hh); destruct Hh; apply Hdot]|].
  pose proof (len_nonneg s). destruct (forallb safe_byte s); cbn; split; try done.
  - intros _. split_and!; [by apply Hall|lia|lia|]. intros Hh. by apply Hdot in Hh.
  - intros [Hs _]. by apply Hall in Hs.
Qed.

Section conversation.
Context {O : Outside}.
#[local] Set Default Proof Using "Type".

(** ** Transcripts

    What left the process, with what came back for it. *)
Inductive exchange := Asked (r : Request) (a : outcome str Response) | Executed (c : Command) (a : outcome str Output).

(** The world answers the events one after another. *)
Fixpoint replay (w : World) (l : list event) : list exchange * World :=
  match l with
  | [] => ([], w)
  | Sent r :: l => let '(a, w) := send r w in let '(t, w) := replay w l in (Asked r a :: t, w)
  | Ran c :: l => let '(a, w) := spawn c w in let '(t, w) := replay w l in (Executed c a :: t, w)
  end.
(** From one state of the network to the other with this transcript. *)
Definition transcript (n : Net) (t : list exchange) (n' : Net) : Prop :=
  ∃ l, events n' = events n ++ l ∧ replay (world n) l = (t, world n').

Lemma replay_app l1 : ∀ w l2, replay w (l1 ++ l2) =
  let '(t1, w1) := replay w l1 in let '(t2, w2) := replay w1 l2 in (t1 ++ t2, w2).
Proof.
  induction l1 as [|[r|c] l1 IH]; intros w l2; cbn [replay app]; [by destruct (replay w l2)|..].
  - destruct (send r w) as [a w']. rewrite IH. destruct (replay w' l1) as [t1 w1]. by destruct (replay w1 l2).
  - destruct (spawn c w) as [a w']. rewrite IH. destruct (replay w' l1) as [t1 w1]. by destruct (replay w1 l2).
Qed.
Lemma transcript_nil n : transcript n [] n.
Proof. exists []. by rewrite app_nil_r. Qed.
Lemma transcript_app n t1 n1 t2 n2 : transcript n t1 n1 → transcript n1 t2 n2 → transcript n (t1 ++ t2) n2.
Proof. intros (l1 & He1 & Hr1) (l2 & He2 & Hr2). exists (l1 ++ l2). by rewrite replay_app, Hr1, Hr2, He2, He1, app_assoc. Qed.
Lemma send_transcript r n : let '(a, n') := send_request r n in transcript n [Asked r a] n'.
Proof. unfold send_request. destruct (send r (world n)) as [a w] eqn:Hs. exists [Sent r]. cbn. by rewrite Hs. Qed.
Lemma run_transcript c n : let '(a, n') := run_command c n in transcript n [Executed c a] n'.
Proof. unfold run_command. destruct (spawn c (world n)) as [a w] eqn:Hs. exists [Ran c]. cbn. by rewrite Hs. Qed.

(** ** What may be said next *)

Variables (raw : RawConfig) (scope : Scope).

Section protocol.
Variables (remote : RemoteUrl) (owner repo : str).

(** The remote's own host, with its port unless it is the default. *)
Definition at_host (dflt : Z) : str :=
  host remote ++ match port remote with Some p => if decide (p = dflt) then [] else lit ":" ++ to_string p | None => [] end.
Definition forge : str :=
  match scheme remote with Http => lit "http://" ++ at_host 80 | Https => lit "https://" ++ at_host 443 | Ssh => lit "https://" ++ host remote end.
Definition op : str := match scope with Read => lit "download" | Write => lit "upload" end.
(** The question for the repository, at the forge's address or over ssh, there
    without a prompt, through the configured command if there is one. *)
Definition ask (c : Credentials) : Request :=
  mkRequest Post (forge ++ lit "/" ++ owner ++ lit "/" ++ repo ++ lit ".git/info/bale/authenticate?op=" ++ op) c.
Definition ask_by_ssh : Command :=
  let args := [lit "-o"; lit "BatchMode=yes"; lit "-o"; lit "StrictHostKeyChecking=accept-new"] ++
    match port remote with Some p => [lit "-p"; to_string p] | None => [] end ++
    [default (lit "git") (user remote) ++ lit "@" ++ host remote; lit "git-bale-authenticate " ++ owner ++ lit "/" ++ repo ++ lit " " ++ op] in
  match default [] (trim <$> ssh_command raw) with
  | [] => mkCommand (lit "ssh") args None []
  | cmd => mkCommand (lit "/bin/sh") ([lit "-c"; cmd ++ lit " " ++ [x22] ++ lit "$@" ++ [x22]; cmd] ++ args) None []
  end.
(** Git is asked about the same host, from the repository's directory. *)
Definition fill : Command :=
  mkCommand (lit "git") [lit "credential"; lit "fill"] (repo_cwd raw)
    ((lit "protocol=" ++ match scheme remote with Http => lit "http" | _ => lit "https" end ++ [x0a]) ++
     (lit "host=" ++ host remote ++ [x0a]) ++
     match port remote with Some p => lit "port=" ++ to_string p ++ [x0a] | None => [] end ++ [x0a]).

(** The last line of the field that git printed. *)
Definition printed (field : str) (out : Output) : option str :=
  last (omap (λ line, strip_prefix line field) (lines (from_utf8_lossy (stdout out)))).
(** The forge granted the bearer's header, and named the server. *)
Inductive granted : exchange → SshAuthOutcome → Prop :=
  | granted_by_ssh out h flat header a : succeeded out = true → ssh_from_json (stdout out) = Ok (h, flat, header) →
      match header !! lit "Authorization" with Some a' => a = a' | None => flat = a ∧ a ≠ [] end →
      granted (Executed ask_by_ssh (Ok out)) (mkSshAuthOutcome (trim_end_matches h x2f) a)
  | granted_by_http c resp b h header a : 200 ≤ status resp ≤ 299 → body resp = Ok b →
      authenticate_from_json b = Ok (h, header) → header !! lit "Authorization" = Some a →
      granted (Asked (ask c) (Ok resp)) (mkSshAuthOutcome (trim_end_matches h x2f) a).
Definition refused (x : exchange) : Prop :=
  ∃ resp, x = Asked (ask Anonymous) (Ok resp) ∧ (status resp = 401 ∨ status resp = 403).
Definition server_of (a : SshAuthOutcome) : str := default (href a) (server_url raw).
Definition exchanged (server bearer : str) : Request :=
  mkRequest Get (trim_end_matches server x2f ++ lit "/api/models/" ++ owner ++ lit "/" ++ repo ++
    match scope with Read => lit "/bale-read-token/main" | Write => lit "/bale-write-token/main" end) (Bearer bearer).

(** To the forge: over ssh once; a read without credentials; git's password for
    a write, or once a read was refused, to the forge that was asked. *)
Inductive forge_says : list exchange → event → Prop :=
  | says_ssh : scheme remote = Ssh → forge_says [] (Ran ask_by_ssh)
  | says_anonymous : scheme remote ≠ Ssh → scope = Read → forge_says [] (Sent (ask Anonymous))
  | says_fill_refused x : scheme remote ≠ Ssh → scope = Read → refused x → forge_says [x] (Ran fill)
  | says_fill_write : scheme remote ≠ Ssh → scope = Write → forge_says [] (Ran fill)
  | says_password t out p : scheme remote ≠ Ssh → succeeded out = true → printed (lit "password=") out = Some p →
      forge_says (t ++ [Executed fill (Ok out)])
        (Sent (ask (Basic (default (lit "git") (printed (lit "username=") out)) p))).
(** To the server: the bearer that the forge just granted, unless a token is
    configured. *)
Inductive may_say (t : list exchange) : event → Prop :=
  | says_to_forge e : forge_says t e → may_say t e
  | says_bearer t' x a b : token raw = None → t = t' ++ [x] → granted x a → strip_bearer (authorization a) = Some b →
      may_say t (Sent (exchanged (server_of a) b)).
Definition said (x : exchange) : event := match x with Asked r _ => Sent r | Executed c _ => Ran c end.
Inductive spoken : list exchange → Prop :=
  | spoken_nil : spoken []
  | spoken_snoc t x : spoken t → may_say t (said x) → spoken (t ++ [x]).

(** What the resolution answers for. *)
Inductive answered (w : World) : list exchange → ResolvedAuth → Prop :=
  | answered_configured t x a b tok : token raw = Some tok → granted x a → strip_bearer (authorization a) = Some b →
      answered w (t ++ [x]) (mkResolvedAuth (server_of a) tok (default (far_future_epoch (now_utc w)) (token_expiration raw)))
  | answered_exchanged t server bearer resp b tok exp cas : token raw = None → 200 ≤ status resp ≤ 299 → body resp = Ok b →
      exchange_from_json b = Ok (tok, exp, cas) →
      answered w (t ++ [Asked (exchanged server bearer) (Ok resp)]) (mkResolvedAuth (trim_end_matches (default server cas) x2f) tok exp).

Definition grants (t : list exchange) (a : SshAuthOutcome) : Prop := ∃ t' x, t = t' ++ [x] ∧ granted x a.
End protocol.

(** ** What each step says *)

Section steps.
Variables (remote : RemoteUrl) (owner repo : str).
Abbreviation ask := (ask remote owner repo).
Abbreviation fill := (fill remote).
Abbreviation granted := (granted remote owner repo).
Abbreviation forge_says := (forge_says remote owner repo).
Abbreviation spoken := (spoken remote owner repo).
Abbreviation grants := (grants remote owner repo).

Lemma ask_url c : mkRequest Post (authenticate_url remote owner repo scope) c = ask c.
Proof.
  unfold ask, authenticate_url, forge, https_base, at_host, host_with_port. f_equal. f_equal.
  destruct (scheme remote); [..|done]; (destruct (port remote) as [p|]; [|by rewrite app_nil_r]).
  - destruct (Z.eqb_spec p 80), (decide (p = 80)); cbn [negb]; by rewrite ?app_nil_r.
  - destruct (Z.eqb_spec p 443), (decide (p = 443)); cbn [negb]; by rewrite ?app_nil_r.
Qed.
Lemma ask_by_ssh_command : ssh_subprocess (ssh_command raw) (ssh_args remote owner repo scope) = ask_by_ssh remote owner repo.
Proof. unfold ask_by_ssh, ssh_subprocess. destruct (ssh_command raw) as [c|]; [|done]. cbn [fmap option_fmap option_map default]. by destruct (trim c). Qed.
Lemma fill_is_fill : fill_command remote (repo_cwd raw) = fill.
Proof. unfold fill_command, fill. by rewrite <-!app_assoc. Qed.
Lemma exchanged_url server b : mkRequest Get (exchange_url server owner repo (lit "main") scope) (Bearer b) = exchanged owner repo server b.
Proof. unfold exchange_url, exchanged. f_equal. by destruct scope. Qed.

Lemma fill_is_not_ssh : fill ≠ ask_by_ssh remote owner repo.
Proof. unfold ask_by_ssh. destruct (default [] (trim <$> ssh_command raw)); discriminate. Qed.
Lemma grants_snoc t x a : grants (t ++ [x]) a ↔ granted x a.
Proof. split; [intros (t' & x' & [_ ->]%app_inj_tail & Hg); done|]. intros Hg. by exists t, x. Qed.
Lemma grants_nil a : ¬ grants [] a.
Proof. intros (t & x & He & _). by apply app_cons_not_nil in He. Qed.
Lemma granted_http c ro a : granted (Asked (ask c) ro) a ↔ ∃ resp b h header authz, ro = Ok resp ∧ 200 ≤ status resp ≤ 299 ∧
  body resp = Ok b ∧ authenticate_from_json b = Ok (h, header) ∧ header !! lit "Authorization" = Some authz ∧
  a = mkSshAuthOutcome (trim_end_matches h x2f) authz.
Proof.
  split; [|intros (resp & b & h & header & authz & -> & ? & ? & ? & ? & ->); by eapply granted_by_http].
  intros Hg. inversion Hg; subst. do 5 eexists. by eauto 10.
Qed.
Lemma granted_fill ro a : ¬ granted (Executed fill ro) a.
Proof. intros Hg. inversion Hg. by destruct fill_is_not_ssh. Qed.
Lemma granted_exchanged server b ro a : ¬ granted (Asked (exchanged owner repo server b) ro) a.
Proof. intros Hg. inversion Hg. Qed.

Lemma forge_says_snoc t x e : forge_says (t ++ [x]) e →
  (t = [] ∧ scope = Read ∧ refused remote owner repo x) ∨
  (∃ out p, x = Executed fill (Ok out) ∧ succeeded out = true ∧ printed (lit "password=") out = Some p).
Proof.
  intros Hs. inversion Hs as [? He|?? He|y ??? He|? ? He|t' out p ??? He].
  1,2,4: by destruct (app_cons_not_nil t [] x).
  - left. change [y] with ([] ++ [y]) in He. by apply app_inj_tail in He as [<- <-].
  - right. apply app_inj_tail in He as [_ <-]. by exists out, p.
Qed.
Lemma not_refused c ro : (∃ resp, ro = Ok resp ∧ (status resp = 401 ∨ status resp = 403)) ∧ c = Anonymous ↔ refused remote owner repo (Asked (ask c) ro).
Proof.
  unfold refused. split; [intros [(resp & -> & ?) ->]; eauto|]. intros (resp & [= -> ->] & ?). eauto.
Qed.

(** A step between two transcripts: what it says is allowed, nothing more is
    allowed to the forge afterwards, and it succeeds when the forge granted. *)
Definition no_exchange (t : list exchange) : Prop := ∀ t' server b ro, t ≠ t' ++ [Asked (exchanged owner repo server b) ro].
Definition asked {E} (t0 : list exchange) (n : Net) (o : outcome E SshAuthOutcome) (n' : Net) : Prop :=
  ∃ t, transcript n t n' ∧ spoken (t0 ++ t) ∧ no_exchange (t0 ++ t) ∧
    (http_client = Ok tt → ∀ e, ¬ forge_says (t0 ++ t) e) ∧ ∀ a, o = Ok a ↔ grants (t0 ++ t) a.

Lemma no_exchange_snoc t x : (∀ server b ro, x ≠ Asked (exchanged owner repo server b) ro) → no_exchange (t ++ [x]).
Proof. intros Hx t' server b ro [_ He]%app_inj_tail. by apply Hx in He. Qed.

Lemma authenticate_http_says c n :
  let '(o, n') := authenticate_http remote owner repo scope c n in
  (http_client ≠ Ok tt ∧ n' = n ∧ (∀ a, o ≠ Ok a) ∧ o ≠ Err NeedsAuth) ∨
  (http_client = Ok tt ∧ ∃ ro, transcript n [Asked (ask c) ro] n' ∧
    (o = Err NeedsAuth ↔ ∃ resp, ro = Ok resp ∧ (status resp = 401 ∨ status resp = 403)) ∧
    ∀ a, o = Ok a ↔ granted (Asked (ask c) ro) a).
Proof.
  unfold authenticate_http, st_map_err, lift, mbind, ST_bind, mret, ST_ret, throw. cbv zeta. rewrite ask_url.
  destruct http_client as [[]|e| |]; cbn; [|left; split_and!; done..].
  pose proof (send_transcript (ask c) n) as Ht. destruct (send_request (ask c) n) as [ro n']. cbn.
  destruct ro as [resp|e| |]; cbn.
  2-4: right; split; [done|]; eexists; split; [exact Ht|]; split; [split; [done|by intros (? & [=] & _)]|]; intros a; rewrite granted_http; split; [done|by intros (? & ? & ? & ? & ? & [=] & _)].
  assert (Hun : unauthorized (status resp) = true ↔ status resp = 401 ∨ status resp = 403).
  { unfold unauthorized. destruct (Z.eqb_spec (status resp) 401), (Z.eqb_spec (status resp) 403); cbn; split; try done; lia. }
  assert (Hok : is_success (status resp) = true ↔ 200 ≤ status resp ≤ 299).
  { unfold is_success. destruct (Z.leb_spec 200 (status resp)), (Z.leb_spec (status resp) 299); cbn; split; try done; lia. }
  destruct (unauthorized (status resp)).
  { right. split; [done|]. eexists. split; [exact Ht|]. split; [split; [|done]; intros _; exists resp; by rewrite <-Hun|].
    intros a. rewrite granted_http. split; [done|]. intros (? & ? & ? & ? & ? & [= <-] & ? & _). apply proj1 in Hun. specialize (Hun eq_refl). lia. }
  assert (Hgo : ∀ o : outcome AuthHttpError SshAuthOutcome, o ≠ Err NeedsAuth → (∀ a, o = Ok a ↔ granted (Asked (ask c) (Ok resp)) a) →
    (@Ok str unit tt ≠ Ok tt ∧ n' = n ∧ (∀ a, o ≠ Ok a) ∧ o ≠ Err NeedsAuth) ∨ (@Ok str unit tt = Ok tt ∧
    ∃ ro, transcript n [Asked (ask c) ro] n' ∧ (o = Err NeedsAuth ↔ ∃ resp, ro = Ok resp ∧ (status resp = 401 ∨ status resp = 403)) ∧
      ∀ a, o = Ok a ↔ granted (Asked (ask c) ro) a)).
  { intros o Ho Ha. right. split; [done|]. exists (Ok resp). split; [exact Ht|]. split; [|done]. split; [done|]. intros (? & [= <-] & Hu). by apply Hun in Hu. }
  destruct (is_success (status resp)); cbn.
  2: { apply Hgo; [done|]. intros a. rewrite granted_http. split; [done|]. intros (? & ? & ? & ? & ? & [= <-] & Hs & _). by apply Hok in Hs. }
  destruct (body resp) as [b|e| |] eqn:Hb; cbn.
  2-4: apply Hgo; [done|]; intros a; rewrite granted_http; split; [done|]; intros (? & ? & ? & ? & ? & [= <-] & _ & ? & _); congruence.
  destruct (authenticate_from_json b) as [[h hs]|e| |] eqn:Hj; cbn.
  2-4: apply Hgo; [done|]; intros a; rewrite granted_http; split; [done|]; intros (? & ? & ? & ? & ? & [= <-] & _ & ? & ? & _); congruence.
  destruct (hs !! _) as [authz|] eqn:Hh; cbn; apply Hgo; try done; intros a; rewrite granted_http; split; try done.
  - intros [= <-]. exists resp, b, h, hs, authz. by rewrite <-Hok.
  - intros (? & ? & ? & ? & ? & [= <-] & _ & Hb' & Hj' & Hh' & ->). rewrite Hb in Hb'. injection Hb' as <-. rewrite Hj in Hj'. injection Hj' as <- <-. pose proof (eq_trans (eq_sym Hh) Hh') as Hl. congruence.
  - intros (? & ? & ? & ? & ? & [= <-] & _ & Hb' & Hj' & Hh' & ->). rewrite Hb in Hb'. injection Hb' as <-. rewrite Hj in Hj'. injection Hj' as <- <-. pose proof (eq_trans (eq_sym Hh) Hh') as Hl. congruence.
Qed.

Lemma fill_steps ls : ∀ st, foldl fill_step st ls =
  (match last (omap (λ l, strip_prefix l (lit "username=")) ls) with Some u => Some u | None => st.1 end,
   match last (omap (λ l, strip_prefix l (lit "password=")) ls) with Some p => Some p | None => st.2 end).
Proof.
  set (fu := λ l : str, strip_prefix l (lit "username=")). set (fp := λ l : str, strip_prefix l (lit "password=")).
  assert (Hd : ∀ l k, fu l = Some k → fp l = None).
  { intros l k Hl. apply strip_prefix_Some in Hl as ->. reflexivity. }
  induction ls as [|l ls IH] using rev_ind; intros [u p]; [done|]. rewrite foldl_app, IH. cbn [foldl].
  change fill_step with (λ (st : option str * option str) line,
    match fu line with Some rest => (Some rest, st.2) | None => match fp line with Some rest => (st.1, Some rest) | None => st end end).
  rewrite !omap_app. clearbody fu fp. cbn. specialize (Hd l). destruct (fu l) as [u'|].
  - rewrite (Hd u' eq_refl). by rewrite app_nil_r, last_snoc.
  - destruct (fp l) as [p'|]; cbn; by rewrite ?app_nil_r, ?last_snoc.
Qed.

Lemma fill_says n : scheme remote ≠ Ssh →
  let '(o, n') := git_credential_fill remote (repo_cwd raw) n in
  ∃ ro, transcript n [Executed fill ro] n' ∧ ∀ u p, o = Ok (u, p) ↔
    ∃ out, ro = Ok out ∧ succeeded out = true ∧ printed (lit "password=") out = Some p ∧ u = default (lit "git") (printed (lit "username=") out).
Proof.
  intros Hs. unfold git_credential_fill. rewrite fill_is_fill. replace (match scheme remote with Ssh => _ | _ => _ end) with
    (out ← st_map_err SpawnFailed (run_command fill);
     if negb (succeeded out) then throw (CommandFailed (trim (from_utf8_lossy (stderr out))))
     else
       let '(username, password) := foldl fill_step (None, None) (lines (from_utf8_lossy (stdout out))) in
       password ← lift (ok_or NoPassword password);
       mret (default (lit "git") username, password) : ST Net ResolveError (str * str)) by (by destruct (scheme remote)).
  unfold st_map_err, mbind, ST_bind, throw, lift, mret, ST_ret.
  pose proof (run_transcript fill n) as Ht. destruct (run_command fill n) as [ro n'].
  destruct ro as [out|e| |]; cbn -[lit lines from_utf8_lossy foldl]; [|eexists; split; [exact Ht|]; intros u p; split; [done|by intros (? & [=] & _)]..].
  destruct (succeeded out) eqn:Hok; cbn -[lit lines from_utf8_lossy foldl].
  2: { eexists; split; [exact Ht|]. intros u p. split; [done|]. intros (? & [= <-] & ? & _). congruence. }
  rewrite fill_steps. fold (printed (lit "username=") out) (printed (lit "password=") out). cbn [fst snd].
  destruct (printed (lit "password=") out) as [p|] eqn:Hp; cbn -[lit]; (eexists; split; [exact Ht|]); intros u' p'; split; try done.
  - intros [= <- <-]. exists out. split_and!; try done. by destruct (printed (lit "username=") out).
  - intros (? & [= <-] & _ & Hp' & ->). rewrite Hp in Hp'. injection Hp' as <-. by destruct (printed (lit "username=") out).
  - intros (? & [= <-] & _ & Hp' & ->). congruence.
Qed.
(** Git's credentials and the question with them, after what was said so far. *)
Lemma credentials_say t0 n : scheme remote ≠ Ssh → spoken t0 → forge_says t0 (Ran fill) →
  let '(o, n') := (('(u, p) ← git_credential_fill remote (repo_cwd raw);
    st_map_err into_anyhow (authenticate_http remote owner repo scope (Basic u p))) : ST Net ResolveError SshAuthOutcome) n in
  asked t0 n o n'.
Proof.
  intros Hs H0 Hf. unfold mbind, ST_bind. pose proof (fill_says n Hs) as Hfill.
  destruct (git_credential_fill remote (repo_cwd raw) n) as [o1 n1]. destruct Hfill as (ro & Ht & Ho).
  assert (Hsp : spoken (t0 ++ [Executed fill ro])) by (apply spoken_snoc; [done|by apply says_to_forge]).
  assert (Hno : no_exchange (t0 ++ [Executed fill ro])) by by apply no_exchange_snoc.
  assert (Hstop : ∀ o : outcome ResolveError SshAuthOutcome, (∀ a, o ≠ Ok a) → (http_client = Ok tt → ∀ u p, o1 ≠ Ok (u, p)) → asked t0 n o n1).
  { intros o Hn Ho1. exists [Executed fill ro]. split_and!; [done..| |].
    - intros Hc e He. apply forge_says_snoc in He as [(_ & _ & resp & He & _)|(out & p & [= ->] & Hok & Hp)]; [done|].
      eapply Ho1; [done|]. apply Ho. by exists out.
    - intros a. rewrite grants_snoc. split; [by intros ?%Hn|by intros ?%granted_fill]. }
  destruct o1 as [[u p]|e| |]; [|by apply Hstop..]. destruct (proj1 (Ho u p) eq_refl) as (out & -> & Hok & Hp & ->).
  unfold st_map_err. set (c := Basic _ p). pose proof (authenticate_http_says c n1) as Ha.
  destruct (authenticate_http remote owner repo scope c n1) as [o2 n2]. cbn.
  destruct Ha as [(Hc & -> & Hn & _)|(Hc & ra & Ht2 & _ & Ha)].
  { apply Hstop; [|done]. destruct o2; cbn; try done. by edestruct Hn. }
  exists [Executed fill (Ok out); Asked (ask c) ra].
  change [Executed fill (Ok out); Asked (ask c) ra] with ([Executed fill (Ok out)] ++ [Asked (ask c) ra]). rewrite app_assoc.
  split_and!; [by eapply transcript_app| | | |].
  - apply spoken_snoc; [done|]. apply says_to_forge. by apply says_password.
  - by apply no_exchange_snoc.
  - intros _ e He. apply forge_says_snoc in He as [(_ & _ & Hr)|(? & ? & [=] & _)]. by apply not_refused in Hr as [_ ?].
  - intros a. rewrite grants_snoc, <-Ha. destruct o2; cbn; split; by intros [= ->].
Qed.

Lemma with_fallback_says n : scheme remote ≠ Ssh →
  let '(o, n') := authenticate_http_with_fallback remote owner repo scope (repo_cwd raw) n in asked [] n o n'.
Proof.
  intros Hs. unfold authenticate_http_with_fallback. set (creds := ('(u, p) ← git_credential_fill _ _; _) : ST Net ResolveError SshAuthOutcome).
  pose proof (λ t0 n, credentials_say t0 n Hs) as Hc. change (∀ t0 n, spoken t0 → forge_says t0 (Ran fill) → let '(o, n') := creds n in asked t0 n o n') in Hc.
  clearbody creds. destruct (decide (scope = Read)) as [Hr|Hw].
  2: { apply Hc; [constructor|]. apply says_fill_write; [done|by destruct scope]. }
  pose proof (authenticate_http_says Anonymous n) as Ha. destruct (authenticate_http remote owner repo scope Anonymous n) as [o n1].
  destruct Ha as [(Hcl & -> & Hn & Hne)|(Hcl & ra & Ht & Hun & Ha)].
  { assert (Hnil : ∀ o : outcome ResolveError SshAuthOutcome, (∀ a, o ≠ Ok a) → asked [] n o n).
    { intros o' Ho. exists []. split_and!; [apply transcript_nil|constructor| |done|].
      - intros t' s b ro He. by apply app_cons_not_nil in He.
      - intros a. split; [by intros ?%Ho|by intros ?%grants_nil]. }
    destruct o as [a|[|e]| |]; first [by destruct (Hn a)|by destruct Hne|by apply Hnil]. }
  assert (Hsp : spoken ([] ++ [Asked (ask Anonymous) ra])).
  { apply spoken_snoc; [constructor|]. by apply says_to_forge, says_anonymous. }
  assert (Hstop : ∀ o' : outcome ResolveError SshAuthOutcome, o ≠ Err NeedsAuth → (∀ a, o' = Ok a ↔ o = Ok a) → asked [] n o' n1).
  { intros o' Hne Ho'. exists [Asked (ask Anonymous) ra]. split_and!; [done|done|by apply (no_exchange_snoc [])| |].
    - intros _ e He. apply (forge_says_snoc []) in He as [(_ & _ & Hr')|(? & ? & [=] & _)].
      apply not_refused in Hr' as [Hr' _]. by apply Hne, Hun.
    - intros a. by rewrite Ho', Ha, (grants_snoc []). }
  destruct o as [a|[|e]| |].
  1,3-5: apply Hstop; [done|intros a'; split; by intros [= ->]].
  apply proj1 in Hun. specialize (Hun eq_refl). specialize (Hc _ n1 Hsp).
  assert (Hf : forge_says ([] ++ [Asked (ask Anonymous) ra]) (Ran fill)).
  { apply says_fill_refused; [done|done|]. by apply not_refused. }
  specialize (Hc Hf). destruct (creds n1) as [o2 n2]. destruct Hc as (t & Ht2 & H2 & H3 & H4 & H5).
  exists ([Asked (ask Anonymous) ra] ++ t). split_and!; [by eapply transcript_app|done..].
Qed.

Lemma ssh_says n : scheme remote = Ssh →
  let '(o, n') := ssh_authenticate remote owner repo scope (ssh_command raw) n in asked [] n o n'.
Proof.
  intros Hs. unfold ssh_authenticate, st_map_err, mbind, ST_bind, throw, lift, mret, ST_ret. rewrite ask_by_ssh_command.
  set (c := ask_by_ssh remote owner repo). pose proof (run_transcript c n) as Ht. destruct (run_command c n) as [ro n'].
  assert (Hgo : ∀ o : outcome ResolveError SshAuthOutcome, (∀ a, o = Ok a ↔ granted (Executed c ro) a) → asked [] n o n').
  { intros o Ho. exists [Executed c ro]. split_and!; [done| |by apply (no_exchange_snoc [])| |].
    - apply (spoken_snoc _ _ _ []); [constructor|]. by apply says_to_forge, says_ssh.
    - intros _ e He. apply (forge_says_snoc []) in He as [(_ & _ & ? & [=] & _)|(out & p & [= Hc ->] & _)]. by destruct fill_is_not_ssh.
    - intros a. by rewrite Ho, (grants_snoc []). }
  assert (Hno : ∀ o : outcome ResolveError SshAuthOutcome, (∀ a, o ≠ Ok a) → (∀ a, ¬ granted (Executed c ro) a) → asked [] n o n').
  { intros o Ho Hg. apply Hgo. intros a. split; [by intros ?%Ho|by intros ?%Hg]. }
  destruct ro as [out|e| |]; cbn -[lit]; [|apply Hno; [done|intros a Hg; inversion Hg]..].
  destruct (succeeded out) eqn:Hok; cbn -[lit]; [|apply Hno; [done|intros a Hg; inversion Hg; congruence]].
  destruct (ssh_from_json (stdout out)) as [[[h flat] header]|e| |] eqn:Hj; cbn -[lit]; [|apply Hno; [done|intros a Hg; inversion Hg; congruence]..].
  destruct (header !! lit "Authorization") as [a'|] eqn:Hh; cbn -[lit]; [|destruct flat as [|b flat]; cbn -[lit]].
  2: { apply Hno; [done|]. intros a Hg. inversion Hg as [out' h' f' hs' a1 ? Hj' Hm|]; subst. rewrite Hj in Hj'. injection Hj' as <- <- <-.
       rewrite Hh in Hm. destruct Hm as [<- ?]. done. }
  all: apply Hgo; intros a; split.
  1,3: intros [= <-]; eapply granted_by_ssh; [done|done|by rewrite Hh].
  all: intros Hg; inversion Hg as [out' h' f' hs' a1 ? Hj' Hm|]; subst; rewrite Hj in Hj'; injection Hj' as <- <- <-; rewrite Hh in Hm.
  - by subst.
  - by destruct Hm as [<- ?].
Qed.

(** The answer of the exchange. *)
Lemma exchange_says server bearer n :
  let '(o, n') := exchange_token server owner repo (lit "main") scope bearer n in
  (http_client ≠ Ok tt ∧ n' = n ∧ ∀ a, o ≠ Ok a) ∨
  (∃ ro, transcript n [Asked (exchanged owner repo server bearer) ro] n' ∧ ∀ a, o = Ok a ↔
    ∃ resp b tok exp cas, ro = Ok resp ∧ 200 ≤ status resp ≤ 299 ∧ body resp = Ok b ∧ exchange_from_json b = Ok (tok, exp, cas) ∧
      a = mkResolvedAuth (trim_end_matches (default server cas) x2f) tok exp).
Proof.
  unfold exchange_token, st_map_err, lift, mbind, ST_bind, throw, mret, ST_ret. cbv zeta. rewrite exchanged_url.
  set (r := exchanged owner repo server bearer). destruct http_client as [[]|e| |]; cbn; [|by left..].
  pose proof (send_transcript r n) as Ht. destruct (send_request r n) as [ro n'].
  destruct ro as [resp|e| |]; cbn; [|right; eexists; (split; [exact Ht|]); intros a; split; [done|by intros (? & ? & ? & ? & ? & [=] & _)]..].
  assert (Hok : is_success (status resp) = true ↔ 200 ≤ status resp ≤ 299).
  { unfold is_success. destruct (Z.leb_spec 200 (status resp)), (Z.leb_spec (status resp) 299); cbn; split; try done; lia. }
  assert (Hgo : ∀ o : outcome ResolveError ResolvedAuth, (∀ a, o = Ok a ↔
      200 ≤ status resp ≤ 299 ∧ ∃ b tok exp cas, body resp = Ok b ∧ exchange_from_json b = Ok (tok, exp, cas) ∧
        a = mkResolvedAuth (trim_end_matches (default server cas) x2f) tok exp) →
    (@Ok str unit tt ≠ Ok tt ∧ n' = n ∧ ∀ a, o ≠ Ok a) ∨ (∃ ro, transcript n [Asked r ro] n' ∧ ∀ a, o = Ok a ↔
      ∃ resp b tok exp cas, ro = Ok resp ∧ 200 ≤ status resp ≤ 299 ∧ body resp = Ok b ∧ exchange_from_json b = Ok (tok, exp, cas) ∧
        a = mkResolvedAuth (trim_end_matches (default server cas) x2f) tok exp)).
  { intros o Ho. right. exists (Ok resp). split; [exact Ht|]. intros a. rewrite Ho. clear.
    split; [intros (? & b & tok & exp & cas & ? & ? & ?); by exists resp, b, tok, exp, cas|].
    intros (resp' & b & tok & exp & cas & [= <-] & ? & ? & ? & ?). split; [done|]. by exists b, tok, exp, cas. }
  destruct (is_success (status resp)); cbn; [|apply Hgo; intros a; split; [done|by intros [?%Hok _]]].
  destruct (body resp) as [b|e| |] eqn:Hb; cbn; [|apply Hgo; intros a; split; [done|by intros (_ & ? & ? & ? & ? & ? & _)]..].
  destruct (exchange_from_json b) as [[[tok exp] cas]|e| |] eqn:Hj; cbn;
    [|apply Hgo; intros a; split; [done|intros (_ & ? & ? & ? & ? & [= <-] & ? & _); congruence]..].
  apply Hgo. intros a. split.
  - intros [= <-]. split; [by apply Hok|]. exists b, tok, exp, cas. split_and!; [done..|]. by destruct cas.
  - intros (_ & ? & ? & ? & cas' & [= <-] & Hj' & ->). rewrite Hj in Hj'. injection Hj' as <- <- <-. by destruct cas.
Qed.

(** The forge's word: who granted the bearer, and which server it is for. *)
Lemma ask_forge_says n :
  let '(o, n') := ask_forge raw scope remote owner repo n in
  ∃ t, transcript n t n' ∧ spoken t ∧ no_exchange t ∧ (http_client = Ok tt → ∀ e, ¬ forge_says t e) ∧
    ∀ s b, o = Ok (s, b) ↔ ∃ a, grants t a ∧ strip_bearer (authorization a) = Some b ∧ s = server_of a.
Proof.
  unfold ask_forge, mbind, ST_bind. set (m := match scheme remote with Ssh => _ | _ => _ end).
  assert (Hm : let '(o, n') := m n in asked [] n o n').
  { unfold m. destruct (decide (scheme remote = Ssh)) as [Hs|Hs].
    - rewrite Hs. by apply ssh_says.
    - pose proof (with_fallback_says n Hs) as Hw. by destruct (scheme remote). }
  destruct (m n) as [o n']. destruct Hm as (t & H1 & H2 & H3 & H4 & H5). cbn [app] in *.
  assert (Hgo : ∀ o : outcome ResolveError (str * str), (∀ s b, o = Ok (s, b) ↔ ∃ a, grants t a ∧ strip_bearer (authorization a) = Some b ∧ s = server_of a) →
    ∃ t, transcript n t n' ∧ spoken t ∧ no_exchange t ∧ (http_client = Ok tt → ∀ e, ¬ forge_says t e) ∧
      ∀ s b, o = Ok (s, b) ↔ ∃ a, grants t a ∧ strip_bearer (authorization a) = Some b ∧ s = server_of a).
  { intros o' Ho'. by exists t. }
  destruct o as [a|e| |]; cbn; [|apply Hgo; intros s b; split; [done|intros (a & Ha & _); by apply H5 in Ha]..].
  unfold lift. pose proof (proj1 (H5 a) eq_refl) as Ha.
  assert (Hu : ∀ a', grants t a' → a' = a) by (intros a' Ha'%H5; congruence).
  destruct (strip_bearer (authorization a)) as [b|] eqn:Hb; cbn; apply Hgo; intros s b'; split; try done.
  - intros [= <- <-]. by exists a.
  - intros (a' & ->%Hu & Hb' & ->). rewrite Hb in Hb'. by injection Hb' as <-.
  - intros (a' & ->%Hu & Hb' & ->). congruence.
Qed.

(** The whole of it, once the remote is named. *)
Lemma resolve_at_says n : owner_and_repo remote = Ok (owner, repo) → safe_segment owner → safe_segment repo →
  let '(o, n') := resolve_at raw scope remote n in
  ∃ t, transcript n t n' ∧ spoken t ∧ (http_client = Ok tt → ∀ e, ¬ may_say remote owner repo t e) ∧
    ∀ a, o = Ok a ↔ answered remote owner repo (world n') t a.
Proof.
  intros Hor Ho Hr. apply (validate_segment_iff (lit "owner")) in Ho. apply (validate_segment_iff (lit "repo")) in Hr.
  unfold resolve_at, mbind, ST_bind, lift. rewrite Hor. cbn [map_err]. rewrite Ho, Hr.
  pose proof (ask_forge_says n) as Hf. destruct (ask_forge raw scope remote owner repo n) as [o n1].
  destruct Hf as (t & Ht & Hsp & Hno & Hover & Hgr).
  assert (Hstop : ∀ o' : outcome ResolveError ResolvedAuth, (token raw = None → http_client = Ok tt → ∀ s b, o ≠ Ok (s, b)) →
    (∀ a, o' = Ok a ↔ ∃ tok s b, token raw = Some tok ∧ o = Ok (s, b) ∧
      a = mkResolvedAuth s tok (default (far_future_epoch (now_utc (world n1))) (token_expiration raw))) →
    ∃ t, transcript n t n1 ∧ spoken t ∧ (http_client = Ok tt → ∀ e, ¬ may_say remote owner repo t e) ∧
      ∀ a, o' = Ok a ↔ answered remote owner repo (world n1) t a).
  { intros o' Hno' Ho'. exists t. split_and!; [done..| |].
    - intros Hc e [e' He|t' x a b Htok -> Hg Hb]; [by eapply Hover|]. eapply Hno'; [done..|]. apply Hgr. exists a. by rewrite grants_snoc.
    - intros a. rewrite Ho'. split.
      + intros (tok & s & b & Htok & (a' & (t' & x & -> & Hg) & Hb & ->)%Hgr & ->). by eapply answered_configured.
      + intros Ha. inversion Ha as [t' x a' b tok Htok Hg Hb He|t' server bearer resp b tok exp cas _ _ _ _ He]; subst; [|by edestruct Hno].
        eexists tok, _, b. split_and!; [done| |done]. apply Hgr. exists a'. by rewrite grants_snoc. }
  destruct o as [[s b]|e| |].
  2-4: apply Hstop; [done|]; intros a; split; [done|by intros (? & ? & ? & _ & ? & _)].
  destruct (token raw) as [tok|] eqn:Htok.
  { cbn. apply Hstop; [done|]. intros a. split; [intros [= <-]; exists tok, s, b; split_and!; [done..|]; by destruct (token_expiration raw)|].
    intros (tok' & s' & b' & [= <-] & [= <- <-] & ->). by destruct (token_expiration raw). }
  pose proof (exchange_says s b n1) as Hx. destruct (exchange_token s owner repo (lit "main") scope b n1) as [o n2].
  destruct Hx as [(Hc & -> & Hn)|(ro & Ht2 & Hx)].
  { apply Hstop; [done|]. intros a. split; [by intros ?%Hn|by intros (? & ? & ? & ? & _)]. }
  destruct (proj1 (Hgr s b) eq_refl) as (a & (t' & x & -> & Hg) & Hb & ->).
  exists ((t' ++ [x]) ++ [Asked (exchanged owner repo (server_of a) b) ro]). split_and!; [by eapply transcript_app| | |].
  - apply spoken_snoc; [done|]. by eapply says_bearer.
  - intros _ e [e' He|t1 y a1 b1 _ He Hg1 _].
    + apply forge_says_snoc in He as [(_ & _ & ? & [=] & _)|(? & ? & [=] & _)].
    + apply app_inj_tail in He as [_ <-]. by apply granted_exchanged in Hg1.
  - intros a1. rewrite Hx. split.
    + intros (resp & b1 & tok & exp & cas & -> & ? & ? & ? & ->). by eapply answered_exchanged.
    + intros Ha. inversion Ha as [? ? ? ? ? ? ? ? He|t1 server bearer resp b1 tok exp cas ? ? ? ? He]; subst; [congruence|].
      apply app_inj_tail in He as [_ He]. injection He as Hurl Hb1 <-. exists resp, b1, tok, exp, cas. split_and!; [done|lia|lia|done|done|]. f_equal.
      destruct cas as [cas|]; [done|]. cbn [default]. by apply app_inv_tail in Hurl.
Qed.
End steps.

Definition the_remote (override : option RemoteUrl) : outcome RemoteError RemoteUrl :=
  match override with Some r => Ok r | None => parse_origin (discover (repo_cwd raw)) end.
(** The remote names a repository with names that are safe to interpolate. *)
Definition named (override : option RemoteUrl) (remote : RemoteUrl) (owner repo : str) : Prop :=
  the_remote override = Ok remote ∧ owner_and_repo remote = Ok (owner, repo) ∧ safe_segment owner ∧ safe_segment repo.

(** Without a name the resolution fails before anything is said. *)
Lemma resolve_at_unnamed override remote n : the_remote override = Ok remote →
  (∀ remote owner repo, ¬ named override remote owner repo) →
  let '(o, n') := resolve_at raw scope remote n in n' = n ∧ ∀ a, o ≠ Ok a.
Proof.
  intros Hr Hn. unfold resolve_at, mbind, ST_bind, lift.
  destruct (owner_and_repo remote) as [[owner repo]|e| |] eqn:Hor; cbn -[lit]; [|done..].
  destruct (validate_segment (lit "owner") owner) as [[]|e| |] eqn:Ho; [|done..].
  destruct (validate_segment (lit "repo") repo) as [[]|e| |] eqn:Hp; [|done..].
  apply validate_segment_iff in Ho, Hp. by destruct (Hn remote owner repo).
Qed.

Lemma safe_segment_or s : safe_segment s ∨ ¬ safe_segment s.
Proof.
  rewrite <-(validate_segment_iff []). destruct (validate_segment [] s) as [[]|e| |]; [by left|by right..].
Qed.
Lemma named_or override : (∃ remote owner repo, named override remote owner repo) ∨ ∀ remote owner repo, ¬ named override remote owner repo.
Proof.
  unfold named. destruct (the_remote override) as [remote|e| |]; [|by right; intros ??? [? _]..].
  destruct (owner_and_repo remote) as [[owner repo]|e| |] eqn:Hor; [|by right; intros ??? ([= <-] & ? & _); congruence..].
  destruct (safe_segment_or owner), (safe_segment_or repo); [by left; exists remote, owner, repo|..];
    right; intros ??? ([= <-] & Ho & ? & ?); rewrite Hor in Ho; by injection Ho as <- <-.
Qed.

(** C13. A resolution tells secrets only to whom they belong, whatever the
    world answers.  Its events, with what came back for each, make a transcript
    in which every event is one that the transcript before it allows ([spoken],
    [may_say]): the forge of the remote is asked first, over ssh, or at its own
    authenticate URL, for a read without credentials; git is asked for a
    password only for a write or after the forge answered such a read with 401
    or 403; what git printed goes to that same URL alone; and the bearer of the
    header that the forge just granted, and nothing else, goes to the token
    endpoint of the configured server, or else of the one the forge named, when
    no token is configured.  When an HTTP client can be had, the resolution says
    all there is to say, and it succeeds exactly when the transcript gives the
    answer ([answered]): the token the exchange returned, or the configured one
    once the forge granted.  A remote whose owner or name is not safe to
    interpolate fails before anything is said, and with a token and a server
    both configured nothing is said at all. *)
Theorem resolution_conversation (override : option RemoteUrl) (n : Net) :
  let '(o, n') := resolve_for_remote raw scope override n in
  ∃ t, transcript n t n' ∧
  match server_url raw, token raw with
  | Some url, Some tok =>
      t = [] ∧ o = Ok (mkResolvedAuth url tok (default (far_future_epoch (now_utc (world n))) (token_expiration raw)))
  | _, _ =>
      (∀ remote owner repo, named override remote owner repo →
        spoken remote owner repo t ∧
        (http_client = Ok tt → ∀ e, ¬ may_say remote owner repo t e) ∧
        ∀ a, o = Ok a ↔ answered remote owner repo (world n') t a) ∧
      ((∀ remote owner repo, ¬ named override remote owner repo) → t = [] ∧ ∀ a, o ≠ Ok a)
  end.
Proof.
  unfold resolve_for_remote. set (body := (remote ← _; resolve_at raw scope remote) : ST Net ResolveError ResolvedAuth).
  assert (Hbody : let '(o, n') := body n in ∃ t, transcript n t n' ∧
    (∀ remote owner repo, named override remote owner repo → spoken remote owner repo t ∧
      (http_client = Ok tt → ∀ e, ¬ may_say remote owner repo t e) ∧ ∀ a, o = Ok a ↔ answered remote owner repo (world n') t a) ∧
    ((∀ remote owner repo, ¬ named override remote owner repo) → t = [] ∧ ∀ a, o ≠ Ok a)).
  { unfold body, mbind, ST_bind.
    assert (Hr : (match override with Some r => mret r | None => lift (map_err Origin (parse_origin (discover (repo_cwd raw)))) end : ST Net ResolveError RemoteUrl) n
      = (map_err Origin (the_remote override), n)) by (by destruct override).
    rewrite Hr. destruct (the_remote override) as [remote|e| |] eqn:Hthe; cbn [map_err].
    2-4: exists []; split_and!; [apply transcript_nil|intros r ? ? [Hr' _]; congruence|done].
    destruct (named_or override) as [(r & owner & repo & Hname)|Hno].
    - assert (r = remote) as -> by (destruct Hname; congruence). destruct Hname as (_ & Hor & Ho & Hp).
      pose proof (resolve_at_says remote owner repo n Hor Ho Hp) as Ha. destruct (resolve_at raw scope remote n) as [o n'].
      destruct Ha as (t & Ht & Ha). exists t. split; [done|]. split.
      + intros r owner' repo' (Hr' & Hor' & _). rewrite Hthe in Hr'. injection Hr' as <-. rewrite Hor in Hor'. by injection Hor' as <- <-.
      + intros Hno. by destruct (Hno remote owner repo).
    - pose proof (resolve_at_unnamed override remote n Hthe Hno) as Ha. destruct (resolve_at raw scope remote n) as [o n'].
      destruct Ha as [-> Ha]. exists []. split; [apply transcript_nil|]. split; [|done]. intros r ? ? Hname. by apply Hno in Hname. }
  destruct (server_url raw) as [url|], (token raw) as [tok|]; try exact Hbody.
  cbn. exists []. split; [apply transcript_nil|]. split; [done|]. by destruct (token_expiration raw).
Qed.
End conversation.

(** ** Clocks that disagree *)
Section refreshing.
Context {O : Outside}.

(** A run of refreshes, each at its own moment: what each answered. *)
Fixpoint refreshes (raw : RawConfig) (scope : Scope) (remote : option RemoteUrl) (worlds : list World)
    (f : ForgeTokenRefresher) : list (outcome RefreshError (str * Z) * Z) * ForgeTokenRefresher :=
  match worlds with
  | [] => ([], f)
  | w :: worlds =>
      let '(o, f1) := refresh raw scope remote (mkRefresher (mkNet w (events (net f))) (consecutive_expired f)) in
      let '(os, f2) := refreshes raw scope remote worlds f1 in ((o, now_utc (world (net f1))) :: os, f2)
  end.

(** The token that was answered is no good by the time it is. *)
Definition doomed (p : outcome RefreshError (str * Z) * Z) : Prop :=
  match p.1 with Ok (_, exp) => exp ≤ saturating_add p.2 REFRESH_BUFFER_SEC | _ => False end.

(** One refresh: a doomed answer counts, up to the limit, a good one resets. *)
Lemma refresh_counts raw scope remote f : 0 ≤ consecutive_expired f < 2 ^ 32 - 1 →
  let '(o, f') := refresh raw scope remote f in
  (doomed (o, now_utc (world (net f'))) → consecutive_expired f' = consecutive_expired f + 1 ∧ consecutive_expired f' ≤ MAX_EXPIRED_REFRESHES) ∧
  (is_ok o = true → ¬ doomed (o, now_utc (world (net f'))) → consecutive_expired f' = 0) ∧
  0 ≤ consecutive_expired f' ≤ consecutive_expired f + 1.
Proof.
  intros Hc. unfold refresh, st_map_err, zoom, mbind, ST_bind, gets, modify, mret, ST_ret, throw.
  destruct (resolve_for_remote raw scope remote (net f)) as [[a|e| |] n]; cbn; try (split_and!; [done|done|lia|lia]).
  destruct (Z.leb_spec (ra_token_expiration a) (saturating_add (now_utc (world n)) REFRESH_BUFFER_SEC)); cbn.
  - rewrite as_u32_id by (split; lia). destruct (Z.ltb_spec MAX_EXPIRED_REFRESHES (consecutive_expired f + 1)); cbn; split_and!; try done; lia.
  - split_and!; lia.
Qed.
Lemma doomed_run raw scope remote worlds : ∀ f k, 0 ≤ consecutive_expired f → consecutive_expired f + len worlds < 2 ^ 32 - 1 →
  Forall doomed (take k (refreshes raw scope remote worlds f).1) → (k ≤ length worlds)%nat → (0 < k)%nat →
  consecutive_expired f + Z.of_nat k ≤ MAX_EXPIRED_REFRESHES.
Proof.
  induction worlds as [|w worlds IH]; intros f k H0 Hb Hd Hk Hpos; [simpl in Hk; lia|]. rewrite len_cons in Hb.
  pose proof (len_nonneg worlds). cbn [refreshes] in Hd. set (f0 := mkRefresher _ _) in Hd.
  pose proof (refresh_counts raw scope remote f0 ltac:(cbn; lia)) as Hr.
  destruct (refresh raw scope remote f0) as [o f1]. destruct Hr as (Hr & _ & H2). specialize (IH f1).
  destruct (refreshes raw scope remote worlds f1) as [os f2]. cbn [fst] in *. destruct k as [|k]; [lia|].
  cbn [take] in Hd. apply Forall_cons in Hd as [Hd Hds]. destruct (Hr Hd) as [Hc Hm]. cbn in Hc, H2. simpl in Hk.
  destruct k as [|k]; [lia|]. specialize (IH (S k) ltac:(lia) ltac:(lia) Hds ltac:(lia) ltac:(lia)). lia.
Qed.

Lemma refreshes_length raw scope remote worlds : ∀ f, length (refreshes raw scope remote worlds f).1 = length worlds.
Proof.
  induction worlds as [|w worlds IH]; intros f; cbn [refreshes]; [done|]. destruct (refresh _ _ _ _) as [o f1].
  specialize (IH f1). destruct (refreshes _ _ _ worlds f1). simpl in *. by rewrite IH.
Qed.

(** Clocks that disagree do not make the client mint tokens forever: of the
    answers of a refresher, in any run and whatever the forge, the server and
    the clock say, no four in a row are tokens that are already expired; the
    fourth call is an error that names the clock skew or whatever else failed. *)
Theorem refresher_gives_up (raw : RawConfig) (scope : Scope) (remote : option RemoteUrl) (worlds : list World)
    (f : ForgeTokenRefresher) (i : nat) :
  consecutive_expired f = 0 → len worlds < 2 ^ 32 - 1 →
  let answers := (refreshes raw scope remote worlds f).1 in
  (i + 4 ≤ length answers)%nat → ¬ Forall doomed (take 4 (drop i answers)).
Proof.
  intros H0 Hl. assert (Hge : 0 ≤ consecutive_expired f) by lia.
  assert (Hb : consecutive_expired f + len worlds < 2 ^ 32 - 1) by lia. clear H0 Hl. revert f i Hge Hb.
  induction worlds as [|w worlds IH]; intros f i Hge Hb; cbv zeta; rewrite refreshes_length; intros Hi Hd; [simpl in Hi; lia|].
  destruct i as [|i].
  - pose proof (doomed_run raw scope remote (w :: worlds) f 4 Hge Hb Hd ltac:(lia) ltac:(lia)) as Hc. unfold MAX_EXPIRED_REFRESHES in Hc. lia.
  - rewrite len_cons in Hb. pose proof (len_nonneg worlds). cbn [refreshes] in Hd. set (f0 := mkRefresher _ _) in Hd.
    pose proof (refresh_counts raw scope remote f0 ltac:(cbn; lia)) as Hr.
    destruct (refresh raw scope remote f0) as [o f1]. destruct Hr as (_ & _ & H2). cbn in H2. specialize (IH f1 i).
    cbv zeta in IH. rewrite refreshes_length in IH. destruct (refreshes raw scope remote worlds f1) as [os f2]. cbn in Hd, IH. simpl in Hi.
    apply IH; [lia|lia|lia|done].
Qed.
End refreshing.

(** ** A forge that answers *)

Definition toy_response (r : Request) : Response :=
  match method r with
  | Get => mkResponse 200 (Ok (lit "exchange"))
  | Post => match credentials r with Anonymous => mkResponse 401 (Ok []) | _ => mkResponse 200 (Ok (lit "authenticate")) end
  end.
#[export] Instance toy_outside : Outside := {|
  World := Z;
  now_utc w := w;
  send r w := (Ok (toy_response r), w + 1);
  spawn _ w := (Ok (mkOutput true (lit "password=pw" ++ [x0a]) []), w + 1);
  http_client := Ok tt;
  discover _ := None;
  authenticate_from_json _ := Ok (lit "https://cas.example.com/", {[ lit "Authorization" := lit "Bearer jwt" ]});
  ssh_from_json _ := Err [];
  exchange_from_json _ := Ok (lit "tok", 5, None);
|}.
Definition toy_raw_config : RawConfig := mkRawConfig None None None (lit "cache") None false None false None.
Definition toy_net : Net := mkNet 0 [].

(** A private repository: a refused probe, git's password, the exchange. *)
Example private_read :
  resolve_for_remote toy_raw_config Read (Some toy_remote) toy_net =
  (Ok (mkResolvedAuth (lit "https://cas.example.com") (lit "tok") 5), mkNet 4
    [Sent (mkRequest Post (lit "https://git.example.com:3000/alice/repo.git/info/bale/authenticate?op=download") Anonymous);
     Ran (fill_command toy_remote None);
     Sent (mkRequest Post (lit "https://git.example.com:3000/alice/repo.git/info/bale/authenticate?op=download") (Basic (lit "git") (lit "pw")));
     Sent (mkRequest Get (lit "https://cas.example.com/api/models/alice/repo/bale-read-token/main") (Bearer (lit "jwt")))]).
Proof. vm_compute. reflexivity. Qed.

Lemma refresher_gives_up_witness :
  ¬ Forall doomed (take 4 (drop 0 (refreshes toy_raw_config Read (Some toy_remote) [100; 100; 100; 100] (mkRefresher toy_net 0)).1)).
Proof. apply refresher_gives_up; [reflexivity|vm_compute; reflexivity|vm_compute; lia]. Defined.

(** A remote of nested groups parses, but its name does not pass the check. *)
Example nested_groups_are_refused :
  let remote := mkRemoteUrl Https None (lit "git.example.com") None (lit "group/sub/repo") in
  parse_remote (lit "https://git.example.com/group/sub/repo.git") = Ok remote ∧
  resolve_for_remote toy_raw_config Read (Some remote) toy_net = (Err (UnsafeCharacters (lit "repo") (lit "sub/repo")), toy_net).
Proof. split; vm_compute; reflexivity. Qed.

(** The private read above, as the theorem tells it. *)
Lemma resolution_conversation_witness :
  ∃ t, transcript toy_net t (mkNet 4 (events (resolve_for_remote toy_raw_config Read (Some toy_remote) toy_net).2)) ∧
    spoken toy_raw_config Read toy_remote (lit "alice") (lit "repo") t ∧
    (∀ e, ¬ may_say toy_raw_config Read toy_remote (lit "alice") (lit "repo") t e) ∧
    answered toy_raw_config Read toy_remote (lit "alice") (lit "repo") 4 t (mkResolvedAuth (lit "https://cas.example.com") (lit "tok") 5).
Proof.
  pose proof (resolution_conversation toy_raw_config Read (Some toy_remote) toy_net) as H. rewrite private_read in *.
  destruct H as (t & Ht & H & _). exists t. split; [exact Ht|].
  destruct (H toy_remote (lit "alice") (lit "repo")) as (H1 & H2 & H3).
  - split_and!; [reflexivity|vm_compute; reflexivity|by apply (validate_segment_iff [])..].
  - split; [exact H1|]. split; [exact (H2 eq_refl)|]. by apply H3.
Defined.
