(* ===== verification/Push.v ===== *)
(** * Making what a push advertises available

    [crates/git-bale/src/push_pending.rs]: the pre-push hook uploads what was
    staged and what the pushed commits point to, then drains the staging area.
    xet-core's sessions and gix are parameters; the network is the world of
    [Resolver].  Progress and the metrics that it shows are not modelled. *)

From stdpp Require Import gmap list sorting.
From S2P Require Import Prelude RustStd RustText Pktline CleanCache Config Repo Gc Remote Resolver.

(** xet-core's sessions, over the network, and the object ids of gix. *)
Class Sessions `{Crates, GitObjects, Outside} := {
  UploadSession : Type;
  DownloadSession : Type;
  xet_runtime : outcome str unit;
  online_config : ResolvedAuth → outcome str unit;
  upload_new : ResolvedAuth → World → outcome str UploadSession * World;
  clean_file : UploadSession → bytes → World → outcome str XetFileInfo * World;
  finalize : UploadSession → World → outcome str unit * World;
  local_config : outcome str unit;
  local_download_new : outcome str unit;
  download_new : ResolvedAuth → World → outcome str DownloadSession * World;
  download_to_writer : DownloadSession → XetFileInfo → Z → World → outcome str unit * bytes * World;
  oid_from_hex : str → option ObjectId;
  oid_is_null : ObjectId → bool;
}.

Record Args := mkArgs { remote_name : option str; remote_url : option str }.

(** A [BTreeMap] is iterated by its keys. *)
Definition btree_iter {A} (m : gmap str A) : list (str * A) :=
  merge_sort (λ a b, Is_true (str_le a.1 b.1)) (map_to_list m).

Section push.
Context {C : Crates} {G : GitObjects} {O : Outside} {S : Sessions}.

(** ** What is pushed *)

(** The null id stands for no ref. *)
Definition parse_oid (s : str) : option ObjectId :=
  oid ← oid_from_hex s; if oid_is_null oid then None else Some oid.

Definition ref_update (line : str) : option (ObjectId * option ObjectId) :=
  let parts := split_whitespace line in
  match parts with
  | _ :: local :: _ :: remote :: _ => l ← parse_oid local; Some (l, parse_oid remote)
  | _ => None
  end.

(** [stdin]: what could be read of it. *)
Definition read_ref_updates_from_stdin (stdin : outcome str bytes) : outcome str (list (ObjectId * option ObjectId)) :=
  b ← map_err (λ e, lit "reading pre-push ref updates from stdin: " ++ e) stdin;
  buf ← map_err (λ _, lit "reading pre-push ref updates from stdin: stream did not contain valid UTF-8") (from_utf8 b);
  mret (omap ref_update (lines buf)).

Section walk.
Variable git : GitRepo.

Definition consider_pushed_blob (oid : ObjectId) (out : gmap str Z) : gmap str Z :=
  match find_header git oid with
  | None => out
  | Some (kind, size) =>
      if negb (bool_decide (kind = Blob)) || (size =? 0) || (POINTER_MAX_BYTES <? size) then out
      else
        match find_object git oid with
        | None => out
        | Some data =>
            match parse_pointer data with
            | Ok info => match info_size info with Some n => <[info_hash info := n]> out | None => out end
            | _ => out
            end
        end
  end.

Definition collect_pushed_changes (parent_tree commit_tree : tree) (out : gmap str Z) : gmap str Z :=
  match tree_changes git parent_tree commit_tree with
  | None => out
  | Some changes => foldl (λ out e, if is_blob e.1 then consider_pushed_blob e.2 out else out) out changes
  end.

Definition collect_commit (out : gmap str Z) (info : option walk_info) : gmap str Z :=
  match info with
  | Some (mkWalkInfo (Some commit_tree) parent_tree) => collect_pushed_changes (default empty_tree parent_tree) commit_tree out
  | _ => out
  end.

(** [None]: the walk could not be set up. *)
Definition collect_delta (tips hidden : list ObjectId) (out : gmap str Z) : option (gmap str Z) :=
  walk ← rev_walk git tips hidden; Some (foldl collect_commit out walk).
End walk.

Definition reachable_pointers (repo : option GitRepo) (updates : list (ObjectId * option ObjectId)) : gmap str Z :=
  match repo with
  | None => ∅
  | Some git =>
      match filter (λ id, is_commit git id = true) updates.*1 with
      | [] => ∅
      | tips =>
          let hidden := omap snd updates in
          match collect_delta git tips hidden ∅ with
          | Some out => out
          | None => match hidden with [] => ∅ | _ => default ∅ (collect_delta git tips [] ∅) end
          end
      end
  end.

(** ** Sessions *)

(** The remotes that may hold a file: for each, the session that was built, or
    that it is of no use. *)
Record SourceSessions := mkSourceSessions { built : list (option DownloadSession); dead : list bool }.
Definition SourceSessions_new (n : nat) : SourceSessions := mkSourceSessions (replicate n None) (replicate n false).

Record Push := mkPush { p_repo : Repo; p_net : Net; p_sources : SourceSessions }.
Definition set_p_repo r (p : Push) := mkPush r (p_net p) (p_sources p).
Definition set_p_net n (p : Push) := mkPush (p_repo p) n (p_sources p).
Definition set_p_sources s (p : Push) := mkPush (p_repo p) (p_net p) s.
Abbreviation P := (ST Push str).

Definition on_disk {A} (m : R A) : P A := st_map_err io_error_text (zoom p_repo set_p_repo m).
Definition on_net {E A} (m : ST Net E A) : ST Push E A := zoom p_net set_p_net m.
Definition because {A} (c : str) (m : P A) : P A := st_map_err (λ e, c ++ lit ": " ++ e) m.
(** The failure of a call as a value. *)
Definition attempted {E A} (m : ST Push E A) : P (A + E) := λ p,
  match m p with
  | (Ok a, p') => (Ok (inl a), p')
  | (Err e, p') => (Ok (inr e), p')
  | (Panic, p') => (Panic, p')
  | (Diverged, p') => (Diverged, p')
  end.
(** A call of a session. *)
Definition outside {A} (f : World → outcome str A * World) : P A := λ p,
  let '(o, w) := f (world (p_net p)) in (o, set_p_net (mkNet w (events (p_net p))) p).

(** A download into the temporary file. *)
Definition source_of := XetFileInfo → Z → P bytes.
Definition from_staging_area : source_of := λ info n p,
  match xet_download (objects (p_repo p)) info n with
  | (Ok _, b) => (Ok b, p)
  | (Err e, _) => (Err e, p)
  | (Panic, _) => (Panic, p)
  | (Diverged, _) => (Diverged, p)
  end.
Definition from_session (dl : DownloadSession) : source_of := λ info n,
  outside (λ w, let '(r, b, w') := download_to_writer dl info n w in
    (match r with Ok _ => Ok b | Err e => Err e | Panic => Panic | Diverged => Diverged end, w')).

Definition re_translate_one (download : source_of) (upload_session : UploadSession) (file_hex : str) (file_size : Z)
    (source : str) : P unit :=
  _ ← because (lit "creating temp file for re-translation") (on_disk (writing id));
  _ ← because (lit "reopening temp file for download write") (on_disk (writing id));
  content ← because (source ++ lit " reconstruct of " ++ file_hex ++ lit " failed") (download (info_new file_hex file_size) file_size);
  new_info ← because (lit "re-cleaning " ++ file_hex ++ lit " through online session") (outside (clean_file upload_session content));
  if decide (info_hash new_info = file_hex) then mret tt
  else throw (lit "re-translation produced file_hash " ++ info_hash new_info ++ lit " but expected " ++ file_hex ++
    lit " — aborting push to keep the server's view consistent with Git's").

Definition trimmed (a : ResolvedAuth) : ResolvedAuth :=
  mkResolvedAuth (trim_end_matches (ra_server_url a) x2f) (ra_token a) (ra_token_expiration a).

Definition build_read_session (raw : RawConfig) (remote : RemoteUrl) : ST Push (ResolveError + str) DownloadSession :=
  auth ← st_map_err inl (on_net (resolve_for_remote raw Read (Some remote)));
  _ ← st_map_err inr (lift (online_config (trimmed auth)));
  st_map_err inr (outside (download_new (trimmed auth))).

(** The session of a remote, built once; a remote that fails is not asked again. *)
Definition session (raw : RawConfig) (remote : RemoteUrl) (i : nat) : P (option DownloadSession) :=
  s ← gets p_sources;
  is_dead ← lift (index (dead s) i);
  if is_dead : bool then mret None
  else
    b ← lift (index (built s) i);
    match b with
    | Some dl => mret (Some dl)
    | None =>
        r ← attempted (build_read_session raw remote);
        match r with
        | inl dl => built' ← lift (index_set (built s) i (Some dl));
                    _ ← modify (set_p_sources (mkSourceSessions built' (dead s))); mret (Some dl)
        | inr _ => dead' ← lift (index_set (dead s) i true);
                   _ ← modify (set_p_sources (mkSourceSessions (built s) dead')); mret None
        end
    end.

(** The remotes in order, from the [i]th on. *)
Fixpoint re_translate_from_any (raw : RawConfig) (remotes : list (str * RemoteUrl)) (i : nat)
    (upload_session : UploadSession) (file_hex : str) (file_size : Z) : P unit :=
  match remotes with
  | [] => throw (lit "no configured remote can reconstruct already-committed bale file " ++ file_hex ++
      lit "; its bytes are on no reachable server. Push it to the remote that originally received it first.")
  | (name, remote) :: remotes =>
      o ← session raw remote i;
      match o with
      | None => re_translate_from_any raw remotes (Datatypes.S i) upload_session file_hex file_size
      | Some dl =>
          r ← attempted (re_translate_one (from_session dl) upload_session file_hex file_size (lit "remote '" ++ name ++ lit "'"));
          match r with
          | inl _ => mret tt
          | inr _ => re_translate_from_any raw remotes (Datatypes.S i) upload_session file_hex file_size
          end
      end
  end.

(** Anything but a success is no. *)
Definition file_registered_on_target (server_url token file_hex : str) : P bool :=
  let url := server_url ++ lit "/v1/reconstructions/" ++ file_hex in
  r ← attempted (on_net (send_request (mkRequest Get url (Bearer token))));
  mret (match r with inl resp => is_success (status resp) | inr _ => false end).

(** ** The upload *)

Definition upload_staged (upload : UploadSession) (staged : list (str * Z)) : P unit :=
  match staged with
  | [] => mret tt
  | _ =>
      _ ← because (lit "building local TranslatorConfig for staging reconstruction") (lift local_config);
      _ ← lift local_download_new;
      for_each (λ f, because (lit "re-translating staged file " ++ f.1)
        (re_translate_one from_staging_area upload f.1 f.2 (lit "local"))) staged
  end.

(** [probing]: the client of the probes could be built. *)
Definition upload_from_refs (probing : bool) (auth : ResolvedAuth) (raw : RawConfig) (remotes : list (str * RemoteUrl))
    (upload : UploadSession) (from_refs : list (str * Z)) : P unit :=
  match from_refs with
  | [] => mret tt
  | _ =>
      _ ← modify (set_p_sources (SourceSessions_new (length remotes)));
      for_each (λ f,
        here ← if probing then file_registered_on_target (ra_server_url auth) (ra_token auth) f.1 else mret false;
        if here : bool then mret tt
        else because (lit "ensuring already-pushed file " ++ f.1 ++ lit " reaches the push target")
          (re_translate_from_any raw remotes 0 upload f.1 f.2)) from_refs
  end.

Definition upload_all (probing : bool) (auth : ResolvedAuth) (raw : RawConfig) (remotes : list (str * RemoteUrl))
    (staged from_refs : list (str * Z)) : P unit :=
  upload ← outside (upload_new auth);
  _ ← upload_staged upload staged;
  _ ← upload_from_refs probing auth raw remotes upload from_refs;
  outside (finalize upload).

(** ** Errors that are explained *)

Definition explain_quota_exceeded (chain server_url : str) : str :=
  if str_contains chain (lit "(429") || str_contains chain (lit "Too Many Requests") || str_contains chain (lit "quota exceeded")
  then lit "push to " ++ server_url ++ lit " was rejected: you are over your storage quota. Free up space by removing large tracked files from history (or ask an administrator to raise your quota), then push again.: " ++ chain
  else chain.

(** [cache]: the directory of xet's cache that the environment names. *)
Definition explain_dedup_cache_mismatch (cache : option str) (chain server_url : str) : str :=
  if str_contains chain (lit "shards") && (str_contains chain (lit "400") || str_contains chain (lit "Bad Request"))
  then lit "push to " ++ server_url ++ lit " was rejected: the server is missing content this push depends on. This almost always means your local cache is incompatible with the server. Either clear the cache to continue or set a new cache directory. Active cache directory: " ++
    default (lit "~/.cache/bale/xet") cache ++ lit ". Set env var " ++ [x22] ++ lit "$BALE_XET_CACHE" ++ [x22] ++ lit " to override.: " ++ chain
  else chain.

(** ** Draining *)

(** Only the markers of what was uploaded go; the objects go once none is left. *)
Definition drain (staged : list str) : R unit :=
  match staged with
  | [] => mret tt
  | _ =>
      lock ← ignore acquire_exclusive;
      match lock with
      | None => mret tt
      | Some _ =>
          _ ← for_each (λ file_hex, _ ← ignore (remove_marker file_hex); mret tt) staged;
          remaining ← ignore list_staged_files;
          if (length (default [] remaining) =? 0)%nat then _ ← ignore remove_all_staged_objects; mret tt
          else mret tt
      end
  end.

(** ** The command *)

Inductive PushError := Failed (chain : str) | NoAuth (e : ResolveError) | BadUrl (url : str) (e : RemoteError).

Definition sized_marker (p : str * option Z) : outcome str (str * Z) :=
  match p.2 with
  | Some size => Ok (p.1, size)
  | None => Err (lit "staged marker for " ++ p.1 ++ lit " has no size — was it written by an older client? Run `git add` again to re-stage with a size.")
  end.
Definition sized_staged (l : list (str * option Z)) : outcome str (gmap str Z) :=
  fold_out (λ m p, '(h, n) ← sized_marker p; mret (<[h := n]> m)) ∅ l.

(** What the command is given: the configuration and the environment, git's
    lines, the repository with its remotes, whether the client of the probes can
    be built, and xet's cache directory. *)
Record Invocation := mkInvocation {
  i_args : Args;
  i_config : outcome str RawConfig;
  i_stdin : outcome str bytes;
  i_repo : option GitRepo;
  i_remotes : option GitRemotes;
  i_probing : bool;
  i_cache : option str;
}.

Definition push_target (a : Args) : outcome PushError (option RemoteUrl) :=
  match remote_url a with
  | Some url => r ← map_err (BadUrl url) (parse_remote url); mret (Some r)
  | None => mret None
  end.

(** What the push advertises and staging does not have: only a hook knows. *)
Definition advertised (i : Invocation) (staged : gmap str Z) : outcome str (gmap str Z) :=
  match remote_name (i_args i) with
  | Some _ =>
      updates ← read_ref_updates_from_stdin (i_stdin i);
      mret (filter (λ p, staged !! p.1 = None) (reachable_pointers (i_repo i) updates))
  | None => mret ∅
  end.

(** The upload: the staged files, whose markers are to be drained. *)
Definition upload_pending (i : Invocation) (raw : RawConfig) : ST Push PushError (list str) :=
  git_dir ← st_map_err Failed (lift (ok_or (lit "not inside a git repository") (git_dir raw)));
  target ← lift (push_target (i_args i));
  listed ← st_map_err Failed (because (lit "listing staged files in " ++ staging_root git_dir) (on_disk list_staged_files));
  staged ← st_map_err Failed (lift (sized_staged listed));
  from_refs ← st_map_err Failed (lift (advertised i staged));
  if bool_decide (staged = ∅) && bool_decide (from_refs = ∅) then mret []
  else
    _ ← st_map_err Failed (because (lit "starting xet runtime") (lift xet_runtime));
    auth ← st_map_err NoAuth (on_net (resolve_for_remote raw Write target));
    _ ← st_map_err Failed (because (lit "building online TranslatorConfig for push-pending") (lift (online_config (trimmed auth))));
    let remotes := if bool_decide (from_refs = ∅) then [] else parse_all_remotes (i_remotes i) in
    _ ← st_map_err (λ e, Failed (explain_dedup_cache_mismatch (i_cache i)
                       (explain_quota_exceeded e (ra_server_url auth)) (ra_server_url auth)))
          (upload_all (i_probing i) (trimmed auth) raw remotes (btree_iter staged) (btree_iter from_refs));
    mret (btree_iter staged).*1.

Definition run (i : Invocation) : ST Push PushError unit :=
  raw ← st_map_err Failed (lift (i_config i));
  if local_mode raw then mret tt
  else staged ← upload_pending i raw; st_map_err Failed (on_disk (drain staged)).
End push.
