(* ===== verification/PushSpec.v ===== *)
(** * A push that succeeds has made its files available *)

From stdpp Require Import gmap list sorting.
From S2P Require Import Prelude RustStd RustText Pktline CleanCache Config Repo Gc GcSpec Remote Resolver Push.

(** ** What is relied on

    The files that a repository of a server has, with their content, and those
    that an upload session has cleaned; both only grow.  A session that is
    finalized registers what it cleaned, and a server says that it can
    reconstruct a file only if the repository of the token has it. *)
Class SessionLaws `{S : Sessions} := {
  registered : World → ResolvedAuth → str → bytes → Prop;
  in_session : World → UploadSession → str → bytes → Prop;
  session_auth : UploadSession → ResolvedAuth;
  later (w w' : World) : Prop :=
    (∀ a h c, registered w a h c → registered w' a h c) ∧ (∀ u h c, in_session w u h c → in_session w' u h c);
  later_send r w : later w (send r w).2;
  later_spawn c w : later w (spawn c w).2;
  later_upload_new a w : later w (upload_new a w).2;
  later_clean_file u c w : later w (clean_file u c w).2;
  later_finalize u w : later w (finalize u w).2;
  later_download_new a w : later w (download_new a w).2;
  later_download d info n w : later w (download_to_writer d info n w).2;
  upload_new_law a w u w' : upload_new a w = (Ok u, w') → session_auth u = a;
  clean_file_law u c w info w' : clean_file u c w = (Ok info, w') → in_session w' u (info_hash info) c;
  finalize_law u w w' h c : finalize u w = (Ok tt, w') → in_session w u h c → registered w' (session_auth u) h c;
  probe_law a h w resp w' :
    send (mkRequest Get (ra_server_url a ++ lit "/v1/reconstructions/" ++ h) (Bearer (ra_token a))) w = (Ok resp, w') →
    is_success (status resp) = true → ∃ c, registered w' a h c;
}.

(** ** What was staged *)

Definition repo_same (r r' : Repo) : Prop := markers r' = markers r ∧ objects r' = objects r.

#[export] Instance repo_same_preorder : PreOrder repo_same.
Proof. split; [by split|]. intros r1 r2 r3 [A1 B1] [A2 B2]. split; congruence. Qed.

Lemma same_reading {A} (g : Repo → A) r : wps (reading g) r (λ a r', repo_same r r' ∧ a = g (pop_fault r)) (λ _ r', repo_same r r').
Proof. unfold reading, call, wps. by destruct (default None _). Qed.
Lemma same_ignored {A} (m : R A) r (Q : A → Prop) :
  wps m r (λ a r', repo_same r r' ∧ Q a) (λ _ r', repo_same r r') → wps (ignore m) r (λ _ r', repo_same r r') (λ _ _, False).
Proof. unfold wps, ignore. destruct (m r) as [[a|e| |] r']; naive_solver. Qed.

(** Every staged marker is listed, whatever fails. *)
Lemma same_list_staged r :
  wps list_staged_files r (λ l r', repo_same r r' ∧ ∀ h, h ∈ l.*1 ↔ is_Some (markers r !! h) ∧ is_64_lower_hex h = true)
    (λ _ r', repo_same r r').
Proof.
  unfold list_staged_files. wstep. eapply wps_mono; [apply same_reading| |done]. intros names r1 [Hs1 ->]. wstep.
  set (names := (map_to_list (markers (pop_fault r))).*1).
  eapply wps_mono; [apply (wps_fold_st _ (λ dn (out : list (str * option Z)) r', repo_same r r' ∧
    ∀ h, h ∈ out.*1 ↔ h ∈ dn ∧ is_64_lower_hex h = true) (λ _ r', repo_same r r'))| |done].
  - intros dn out x rest r2 _ [Hs2 Hout]. destruct (is_64_lower_hex x) eqn:Hx.
    + unfold read_size. wsteps. eapply wps_mono; [apply (same_ignored _ _ (λ _, True)); eapply wps_mono; [apply same_reading|by intros ? ? [? _]|done]| |done].
      intros body r3 Hs3. wsteps. split; [by etrans|]. intros h. rewrite fmap_app, !elem_of_app, Hout. cbn. rewrite !list_elem_of_singleton. naive_solver congruence.
    + wstep. split; [done|]. intros h. rewrite elem_of_app, Hout, list_elem_of_singleton. naive_solver congruence.
  - split; [done|]. intros h. cbn. rewrite !elem_of_nil. naive_solver.
  - intros out r2 [Hs2 Hout]. wstep. split; [done|]. intros h.
    rewrite (merge_sort_Permutation (λ a b : str * option Z, Is_true (str_le a.1 b.1)) out), Hout.
    assert (h ∈ names ↔ is_Some (markers r !! h)) as ->; [|done]. unfold names. rewrite list_elem_of_fmap. split.
    + intros ([k m] & -> & Hm%elem_of_map_to_list). by exists m.
    + intros [m Hm]. exists (h, m). split; [done|]. by apply elem_of_map_to_list.
Qed.

Lemma sized_staged_all l m : sized_staged l = Ok m → ∀ h, h ∈ l.*1 → is_Some (m !! h).
Proof.
  unfold sized_staged. intros Hm h Hh.
  assert (Hgen : ∀ (l : list (str * option Z)) (acc m : gmap str Z), fold_out (λ m p, '(h, n) ← sized_marker p; mret (<[h := n]> m)) acc l = Ok m →
    ∀ h, h ∈ l.*1 ∨ is_Some (acc !! h) → is_Some (m !! h)).
  { clear. induction l as [|[k o] l IH]; intros acc m Hm h Hh; cbn [fold_out] in Hm.
    - injection Hm as <-. destruct Hh as [Hh|]; [by apply not_elem_of_nil in Hh|done].
    - unfold sized_marker in Hm at 1. cbn in Hm. destruct o as [n|]; [|done]. cbn in Hm. eapply IH; [exact Hm|].
      rewrite lookup_insert_is_Some'. cbn in Hh. set_solver. }
  eapply Hgen; [exact Hm|by left].
Qed.

Lemma sized_staged_dom l m : sized_staged l = Ok m → ∀ h, is_Some (m !! h) → h ∈ l.*1.
Proof.
  unfold sized_staged. intros Hm h Hh.
  assert (Hgen : ∀ (l : list (str * option Z)) (acc m : gmap str Z), fold_out (λ m p, '(h, n) ← sized_marker p; mret (<[h := n]> m)) acc l = Ok m →
    ∀ h, is_Some (m !! h) → h ∈ l.*1 ∨ is_Some (acc !! h)).
  { clear. induction l as [|[k o] l IH]; intros acc m Hm h Hh; cbn [fold_out] in Hm; [injection Hm as <-; by right|].
    unfold sized_marker in Hm at 1. cbn in Hm. destruct o as [n|]; [|done]. cbn in Hm.
    destruct (IH _ _ Hm h Hh) as [Hin|Hs]; [left; cbn; by right|]. rewrite lookup_insert_is_Some' in Hs. cbn. set_solver. }
  destruct (Hgen _ _ _ Hm h Hh) as [Hin|Hs]; [done|]. rewrite lookup_empty in Hs. by destruct Hs.
Qed.

Lemma elem_of_btree_iter {A} (m : gmap str A) h n : (h, n) ∈ btree_iter m ↔ m !! h = Some n.
Proof.
  unfold btree_iter. rewrite (merge_sort_Permutation (λ a b : str * A, Is_true (str_le a.1 b.1)) (map_to_list m)).
  apply elem_of_map_to_list.
Qed.

(** ** The drain *)

Lemma wps_drop_markers (l : list str) r : wps (for_each (λ h, _ ← ignore (remove_marker h); mret tt) l) r
  (λ _ r', objects r' = objects r ∧ ∀ h, h ∉ l → markers r' !! h = markers r !! h) (λ _ _, False).
Proof.
  apply (wps_for_each _ (λ r', objects r' = objects r ∧ ∀ h, h ∉ l → markers r' !! h = markers r !! h)); [|done].
  intros x s Hx [Ho Hm]. unfold wps, mbind, ST_bind, ignore, remove_marker, writing, call.
  destruct (default None _); cbn; (split; [done|]); intros h Hh; [by apply Hm|].
  rewrite lookup_delete_ne by (intros ->; done). by apply Hm.
Qed.

Lemma wps_sweep_objects r : wps remove_all_staged_objects r (λ _ r', markers r' = markers r) (λ _ r', markers r' = markers r).
Proof.
  unfold remove_all_staged_objects. wstep. eapply wps_mono; [apply same_reading| |by intros _ r' []].
  intros names r1 [[Hm _] _]. eapply wps_mono; [apply (wps_for_each _ (λ r', markers r' = markers r) (λ _ _, False))|done|done]; [|done].
  intros x s _ Hs. destruct (is_object_name x); [|done].
  unfold wps, remove_object, mbind, ST_bind, ignore, writing, call. by destruct (default None _).
Qed.

Lemma wps_ignored {A} (m : R A) r (Q : Repo → Prop) : wps m r (λ _, Q) (λ _, Q) → wps (ignore m) r (λ _, Q) (λ _ _, False).
Proof. unfold wps, ignore. by destruct (m r) as [[a|e| |] r']. Qed.

(** Whatever fails, the drain answers, and the markers of others stay. *)
Lemma drain_total staged r : wps (drain staged) r (λ _ r', ∀ h, h ∉ staged → markers r' !! h = markers r !! h) (λ _ _, False).
Proof.
  unfold drain. destruct staged as [|x l]; [done|]. generalize (x :: l) as staged. intros staged. wstep.
  assert (Hlock : wps acquire_exclusive r (λ _ r', repo_same r r') (λ _ r', repo_same r r')).
  { unfold acquire_exclusive, writing, call, wps, mbind, ST_bind. by repeat (destruct (default None _); [done|]). }
  eapply wps_mono; [apply wps_ignored, Hlock| |done]. intros lock r1 [Hm1 _]. destruct lock; [|wstep; intros h _; by rewrite Hm1].
  wstep. eapply wps_mono; [apply wps_drop_markers| |done]. intros [] r2 [_ Hm2]. wstep.
  eapply wps_mono; [apply wps_ignored, (wps_mono _ _ _ _ _ _ (same_list_staged r2)); [by intros ? ? [? _]|done]| |done].
  intros remaining r3 [Hm3 _]. assert (Hm : ∀ h, h ∉ staged → markers r3 !! h = markers r !! h).
  { intros h Hh. by rewrite Hm3, Hm2, Hm1. }
  destruct (_ =? 0)%nat; [|by wstep]. wstep. eapply wps_mono; [apply wps_ignored, wps_sweep_objects| |done].
  intros ? r4 Hm4. wstep. intros h Hh. rewrite Hm4. by apply Hm.
Qed.

Section push_spec.
Context {C : Crates} {G : GitObjects} {O : Outside} {S : Sessions} {L : SessionLaws}.
#[local] Set Default Proof Using "Type*".

#[export] Instance later_preorder : PreOrder later.
Proof. split; [by split; auto|]. intros w1 w2 w3 [A1 B1] [A2 B2]. split; auto. Qed.

(** ** The resolver's world *)

Definition outlives {E A} (m : ST Net E A) : Prop := ∀ n, later (world n) (world (m n).2).

Lemma outlives_ret {E A} (a : A) : outlives (mret a : ST Net E A).
Proof. by intros n. Qed.
Lemma outlives_throw {E A} (e : E) : outlives (throw e : ST Net E A).
Proof. by intros n. Qed.
Lemma outlives_lift {E A} (o : outcome E A) : outlives (lift o : ST Net E A).
Proof. by intros n. Qed.
Lemma outlives_gets {E A} (f : Net → A) : outlives (gets f : ST Net E A).
Proof. by intros n. Qed.
Lemma outlives_map_err {E F A} (f : E → F) (m : ST Net E A) : outlives m → outlives (st_map_err f m).
Proof. intros Hm n. specialize (Hm n). unfold st_map_err. by destruct (m n). Qed.
Lemma outlives_bind {E A B} (m : ST Net E A) (k : A → ST Net E B) : outlives m → (∀ a, outlives (k a)) → outlives (m ≫= k).
Proof.
  intros Hm Hk n. specialize (Hm n). unfold mbind, ST_bind. destruct (m n) as [[a|e| |] n']; try done.
  etrans; [exact Hm|]. apply Hk.
Qed.
Lemma outlives_send r : outlives (send_request r).
Proof. intros n. unfold send_request. pose proof (later_send r (world n)) as Hl. by destruct (send r (world n)). Qed.
Lemma outlives_run c : outlives (run_command c).
Proof. intros n. unfold run_command. pose proof (later_spawn c (world n)) as Hl. by destruct (spawn c (world n)). Qed.

Create HintDb outlives discriminated.
#[local] Hint Resolve outlives_ret outlives_throw outlives_lift outlives_gets outlives_map_err outlives_bind
  outlives_send outlives_run : outlives.
Ltac outlive := repeat first [progress (eauto 3 with outlives) | apply outlives_bind; intros | apply outlives_map_err | case_match].

Lemma outlives_authenticate remote owner repo scope c : outlives (authenticate_http remote owner repo scope c).
Proof. unfold authenticate_http. outlive. Qed.
Lemma outlives_fill remote cwd : outlives (git_credential_fill remote cwd).
Proof. unfold git_credential_fill. outlive. Qed.
#[local] Hint Resolve outlives_authenticate outlives_fill : outlives.
Lemma outlives_fallback remote owner repo scope cwd : outlives (authenticate_http_with_fallback remote owner repo scope cwd).
Proof.
  unfold authenticate_http_with_fallback. set (creds := ('(_, _) ← _; _) : ST Net ResolveError SshAuthOutcome).
  assert (Hc : outlives creds) by (unfold creds; outlive).
  destruct (decide (scope = Read)); [|exact Hc]. intros n.
  pose proof (outlives_authenticate remote owner repo scope Anonymous n) as Ha.
  destruct (authenticate_http _ _ _ _ _ n) as [[a|[|e']| |] n']; try done. etrans; [exact Ha|]. apply Hc.
Qed.
Lemma outlives_ssh remote owner repo scope c : outlives (ssh_authenticate remote owner repo scope c).
Proof. unfold ssh_authenticate. outlive. Qed.
Lemma outlives_exchange url owner repo rev scope b : outlives (exchange_token url owner repo rev scope b).
Proof. unfold exchange_token. outlive. Qed.
#[local] Hint Resolve outlives_fallback outlives_ssh outlives_exchange : outlives.
Lemma outlives_expiration raw : outlives (expiration_or_far raw).
Proof. unfold expiration_or_far. outlive. Qed.
Lemma outlives_ask raw scope remote owner repo : outlives (ask_forge raw scope remote owner repo).
Proof. unfold ask_forge. outlive. Qed.
#[local] Hint Resolve outlives_expiration outlives_ask : outlives.
Lemma outlives_resolve raw scope r : outlives (resolve_for_remote raw scope r).
Proof. unfold resolve_for_remote, resolve_at. outlive. Qed.

(** ** While the upload runs

    The repository is only read, and what the server and the sessions have grows. *)

Record during (p p' : Push) : Prop := {
  du_markers : markers (p_repo p') = markers (p_repo p);
  du_objects : objects (p_repo p') = objects (p_repo p);
  du_world : later (world (p_net p)) (world (p_net p'));
}.
#[export] Instance during_preorder : PreOrder during.
Proof.
  split; [by split|]. intros p1 p2 p3 [A1 B1 C1] [A2 B2 C2]. split; [congruence|congruence|by etrans].
Qed.

(** [m] leaves a state that is [during] the upload, and when it answers, [Q]. *)
Definition keeps {E A} (m : ST Push E A) (p : Push) (Q : A → Push → Prop) : Prop :=
  let '(o, p') := m p in during p p' ∧ match o with Ok a => Q a p' | _ => True end.

Lemma keeps_ret {E A} (a : A) p (Q : A → Push → Prop) : Q a p → keeps (mret a : ST Push E A) p Q.
Proof. by split. Qed.
Lemma keeps_throw {E A} (e : E) p (Q : A → Push → Prop) : keeps (throw e : ST Push E A) p Q.
Proof. by split. Qed.
Lemma keeps_lift {E A} (o : outcome E A) p (Q : A → Push → Prop) :
  (∀ a, o = Ok a → Q a p) → keeps (lift o : ST Push E A) p Q.
Proof. intros Ho. split; [done|]. destruct o; auto. Qed.
Lemma keeps_gets {E A} (f : Push → A) p (Q : A → Push → Prop) : Q (f p) p → keeps (gets f : ST Push E A) p Q.
Proof. by split. Qed.
Lemma keeps_mono {E A} (m : ST Push E A) p (Q Q' : A → Push → Prop) :
  keeps m p Q → (∀ a p', during p p' → Q a p' → Q' a p') → keeps m p Q'.
Proof. unfold keeps. destruct (m p) as [[a|e| |] p']; intros [Hd Hq] Hm; split; auto. Qed.
Lemma keeps_bind {E A B} (m : ST Push E A) (k : A → ST Push E B) p (Q : B → Push → Prop) :
  keeps m p (λ a p', during p p' → keeps (k a) p' Q) → keeps (m ≫= k) p Q.
Proof.
  unfold keeps, mbind, ST_bind. destruct (m p) as [[a|e| |] p']; try done. intros [Hd Hk]. specialize (Hk Hd).
  destruct (k a p') as [o p'']. destruct Hk as [Hd' Hq]. split; [by etrans|done].
Qed.
Lemma keeps_map_err {E F A} (f : E → F) (m : ST Push E A) p (Q : A → Push → Prop) :
  keeps m p Q → keeps (st_map_err f m) p Q.
Proof. unfold keeps, st_map_err. by destruct (m p) as [[a|e| |] p']. Qed.
Lemma keeps_attempted {E A} (m : ST Push E A) p (Q : A + E → Push → Prop) :
  keeps m p (λ a, Q (inl a)) → (∀ e p', during p p' → Q (inr e) p') → keeps (attempted m) p Q.
Proof. unfold keeps, attempted. destruct (m p) as [[a|e| |] p']; intros [Hd Hq] He; split; auto. Qed.
Lemma keeps_on_net {E A} (m : ST Net E A) p : outlives m →
  keeps (on_net m) p (λ a p', ∃ n', m (p_net p) = (Ok a, n') ∧ world (p_net p') = world n').
Proof.
  intros Hm. unfold keeps, on_net, zoom. specialize (Hm (p_net p)). destruct (m (p_net p)) as [o n']. split; [by split|].
  destruct o; [|done..]. by exists n'.
Qed.
Lemma keeps_outside {A} (f : World → outcome str A * World) p :
  later (world (p_net p)) (f (world (p_net p))).2 →
  keeps (outside f) p (λ a p', f (world (p_net p)) = (Ok a, world (p_net p'))).
Proof. intros Hl. unfold keeps, outside. destruct (f (world (p_net p))) as [o w]. split; [by split|]. by destruct o. Qed.
Lemma keeps_disk {A} (m : R A) p : (let '(o, r') := m (p_repo p) in markers r' = markers (p_repo p) ∧ objects r' = objects (p_repo p)) →
  keeps (on_disk m) p (λ a p', m (p_repo p) = (Ok a, p_repo p')).
Proof.
  unfold keeps, on_disk, st_map_err, zoom. destruct (m (p_repo p)) as [[a|e| |] r']; intros [Hm Ho]; (split; [by split|done]).
Qed.
Lemma keeps_sources s p (Q : unit → Push → Prop) : Q tt (set_p_sources s p) → keeps (modify (set_p_sources s) : ST Push str unit) p Q.
Proof. by split. Qed.

Lemma keeps_for_each {A} (f : A → ST Push str unit) (Done : A → Push → Prop) l :
  (∀ x p, keeps (f x) p (λ _, Done x)) → (∀ x p p', during p p' → Done x p → Done x p') →
  ∀ p, keeps (for_each f l) p (λ _ p', ∀ x, x ∈ l → Done x p').
Proof.
  intros Hf Hst. induction l as [|z l IH]; intros p; cbn [for_each].
  - apply keeps_ret. intros x Hx. by apply not_elem_of_nil in Hx.
  - apply keeps_bind. eapply keeps_mono; [apply Hf|]. intros [] p1 _ Hz _. eapply keeps_mono; [apply IH|].
    intros [] p2 Hd Hl y [->|Hy]%elem_of_cons; [by eapply Hst|by apply Hl].
Qed.

(** ** Uploads *)

Lemma keeps_temp p : keeps (on_disk (writing id)) p (λ _ _, True).
Proof. eapply keeps_mono; [apply keeps_disk|done]. unfold writing, call. by destruct (default None _). Qed.

(** The session has the content that the source delivered. *)
Lemma keeps_re_translate dl u h n src p (From : bytes → Prop) :
  (∀ p1, during p p1 → keeps (dl (info_new h n) n) p1 (λ b _, From b)) →
  keeps (re_translate_one dl u h n src) p (λ _ p', ∃ c, in_session (world (p_net p')) u h c ∧ From c).
Proof.
  intros Hdl. unfold re_translate_one, because. 
  apply keeps_bind, keeps_map_err; eapply keeps_mono; [apply keeps_temp|]; intros [] q1 Hd1 _ _.
  apply keeps_bind, keeps_map_err; eapply keeps_mono; [apply keeps_temp|]; intros [] q2 Hd2 _ _.
  apply keeps_bind, keeps_map_err. eapply keeps_mono; [apply Hdl; by etrans|]. intros c p1 _ Hc _.
  apply keeps_bind, keeps_map_err. eapply keeps_mono; [apply keeps_outside, later_clean_file|]. intros info p2 _ Hi _.
  destruct (decide _) as [Hh|]; [|apply keeps_throw]. apply keeps_ret. exists c. split; [|done]. rewrite <-Hh. exact (clean_file_law _ _ _ _ _ Hi).
Qed.

Definition staged_done (u : UploadSession) (f : str * Z) (p : Push) : Prop := ∃ c,
  in_session (world (p_net p)) u f.1 c ∧ xet_download (objects (p_repo p)) (info_new f.1 f.2) f.2 = (Ok tt, c).

Lemma keeps_upload_staged u l p : keeps (upload_staged u l) p (λ _ p', ∀ f, f ∈ l → staged_done u f p').
Proof.
  assert (Hall : ∀ p, keeps (for_each (λ f, because (lit "re-translating staged file " ++ f.1)
        (re_translate_one from_staging_area u f.1 f.2 (lit "local"))) l) p (λ _ p', ∀ f, f ∈ l → staged_done u f p')).
  { apply keeps_for_each.
    - intros f q. apply keeps_map_err.
      eapply keeps_mono; [apply (keeps_re_translate _ _ _ _ _ _ (λ c, xet_download (objects (p_repo q)) (info_new f.1 f.2) f.2 = (Ok tt, c)))|].
      + intros q' Hd. unfold keeps, from_staging_area. rewrite <-(du_objects _ _ Hd).
        by destruct (xet_download _ _ _) as [[[]|e| |] b].
      + intros [] q' Hd (c & Hc & Hx). exists c. split; [done|]. by rewrite (du_objects _ _ Hd).
    - intros f q q' Hd (c & Hc & Hx). exists c. split; [by apply Hd|]. by rewrite (du_objects _ _ Hd). }
  unfold upload_staged. destruct l as [|x l]; [apply keeps_ret; intros f Hf; by apply not_elem_of_nil in Hf|].
  apply keeps_bind, keeps_map_err, keeps_lift. intros [] _ _. apply keeps_bind, keeps_lift. intros [] _ _. apply Hall.
Qed.

Lemma keeps_build raw remote p : keeps (build_read_session raw remote) p (λ _ _, True).
Proof.
  unfold build_read_session. apply keeps_bind, keeps_map_err. eapply keeps_mono; [apply keeps_on_net, outlives_resolve|]. intros a p1 _ _ _.
  apply keeps_bind, keeps_map_err, keeps_lift. intros [] _ _. apply keeps_map_err.
  eapply keeps_mono; [apply keeps_outside, later_download_new|done].
Qed.

Lemma keeps_session raw remote i p : keeps (session raw remote i) p (λ _ _, True).
Proof.
  unfold session. apply keeps_bind, keeps_gets. intros _. apply keeps_bind, keeps_lift. intros d _ _. destruct d; [by apply keeps_ret|].
  apply keeps_bind, keeps_lift. intros b _ _. destruct b; [by apply keeps_ret|]. apply keeps_bind, keeps_attempted.
  - eapply keeps_mono; [apply keeps_build|]. intros dl p1 _ _ _. apply keeps_bind, keeps_lift. intros l _ _.
    apply keeps_bind, keeps_sources. intros _. by apply keeps_ret.
  - intros e p1 _ _. apply keeps_bind, keeps_lift. intros l _ _. apply keeps_bind, keeps_sources. intros _. by apply keeps_ret.
Qed.

Lemma keeps_from_any raw remotes u h n : ∀ i p,
  keeps (re_translate_from_any raw remotes i u h n) p (λ _ p', ∃ c, in_session (world (p_net p')) u h c).
Proof.
  induction remotes as [|[name remote] remotes IH]; intros i p; cbn [re_translate_from_any]; [apply keeps_throw|].
  apply keeps_bind. eapply keeps_mono; [apply keeps_session|]. intros [dl|] p1 _ _ _; [|apply IH].
  apply keeps_bind, keeps_attempted; [|intros e p2 _ _; apply IH].
  eapply keeps_mono; [apply (keeps_re_translate _ _ _ _ _ _ (λ _, True))|].
  - intros p2 _. unfold from_session. eapply keeps_mono; [apply keeps_outside|done].
    pose proof (later_download dl (info_new h n) n (world (p_net p2))) as Hl. by destruct (download_to_writer _ _ _ _) as [[? ?] ?].
  - intros [] p2 _ (c & Hc & _) _. apply keeps_ret. by exists c.
Qed.

Lemma keeps_probe a h p : keeps (file_registered_on_target (ra_server_url a) (ra_token a) h) p
  (λ b p', b = true → ∃ c, registered (world (p_net p')) a h c).
Proof.
  unfold file_registered_on_target. apply keeps_bind, keeps_attempted.
  - eapply keeps_mono; [apply keeps_on_net, outlives_send|]. intros resp p1 _ (n' & Hs & Hw) _. apply keeps_ret. intros Hok.
    unfold send_request in Hs. destruct (send _ (world (p_net p))) as [o w] eqn:He. injection Hs as -> <-. cbn in Hw. rewrite Hw.
    exact (probe_law _ _ _ _ _ He Hok).
  - intros e p1 _ _. by apply keeps_ret.
Qed.

Definition ref_done (u : UploadSession) (a : ResolvedAuth) (f : str * Z) (p : Push) : Prop := ∃ c,
  in_session (world (p_net p)) u f.1 c ∨ registered (world (p_net p)) a f.1 c.

Lemma keeps_upload_refs probing a raw remotes u l p :
  keeps (upload_from_refs probing a raw remotes u l) p (λ _ p', ∀ f, f ∈ l → ref_done u a f p').
Proof.
  unfold upload_from_refs. destruct l as [|x l]; [apply keeps_ret; intros f Hf; by apply not_elem_of_nil in Hf|].
  apply keeps_bind, keeps_sources. intros _. apply keeps_for_each.
  - intros f q. apply keeps_bind.
    apply (keeps_mono _ _ (λ b p', b = true → ∃ c, registered (world (p_net p')) a f.1 c)).
    { destruct probing; [apply keeps_probe|by apply keeps_ret]. }
    intros here q1 _ Hhere _. destruct here.
    + apply keeps_ret. destruct (Hhere eq_refl) as [c Hc]. exists c. by right.
    + apply keeps_map_err. eapply keeps_mono; [apply keeps_from_any|]. intros [] q2 _ [c Hc]. exists c. by left.
  - intros f q q' Hd [c [Hc|Hc]]; exists c; [left|right]; by apply Hd.
Qed.

(** What the success of the upload means. *)
Definition available (a : ResolvedAuth) (objs : gmap str bytes) (staged from_refs : list (str * Z)) (w : World) : Prop :=
  (∀ f, f ∈ staged → ∃ c, registered w a f.1 c ∧ xet_download objs (info_new f.1 f.2) f.2 = (Ok tt, c)) ∧
  (∀ f, f ∈ from_refs → ∃ c, registered w a f.1 c).

Lemma keeps_upload_all probing a raw remotes staged from_refs p :
  keeps (upload_all probing a raw remotes staged from_refs) p
    (λ _ p', available a (objects (p_repo p)) staged from_refs (world (p_net p'))).
Proof.
  unfold upload_all. apply keeps_bind. eapply keeps_mono; [apply keeps_outside, later_upload_new|]. intros u p1 D1 Hu _.
  apply upload_new_law in Hu. apply keeps_bind. eapply keeps_mono; [apply keeps_upload_staged|]. intros [] p2 D2 Hs _.
  apply keeps_bind. eapply keeps_mono; [apply keeps_upload_refs|]. intros [] p3 D3 Hr _.
  eapply keeps_mono; [apply keeps_outside, later_finalize|]. intros [] p4 D4 Hf. rewrite <-Hu. split; intros f Hin.
  - destruct (Hs f Hin) as (c & Hc & Hx). exists c. split; [eapply finalize_law; [exact Hf|by apply D3]|].
    rewrite <-(du_objects _ _ D1), <-(du_objects _ _ D2). exact Hx.
  - destruct (Hr f Hin) as [c [Hc|Hc]]; exists c; [eapply finalize_law; [exact Hf|exact Hc]|]. rewrite Hu. by apply D4.
Qed.

End push_spec.

(** ** What the pushed commits point to *)
Section pushed.
Context {C : Crates} {G : GitObjects} {O : Outside} {S : Sessions} (git : GitRepo) {L : GitLaws git}.
#[local] Set Default Proof Using "Type*".

(** The object is a pointer of the file [h] with a size. *)
Definition sized_pointer (h : str) (id : ObjectId) : Prop := ∃ data info n,
  find_header git id = Some (Blob, len data) ∧ find_object git id = Some data ∧
  parse_pointer data = Ok info ∧ info_hash info = h ∧ info_size info = Some n.

(** A commit that is pushed has the file, and no commit has it that the pushed
    refs had before. *)
Definition pushed (updates : list (ObjectId * option ObjectId)) (h : str) : Prop := ∃ c,
  reaches (filter (λ id, is_commit git id = true) updates.*1) c ∧ commit_has git (sized_pointer h) c ∧
  ∀ c', reaches (omap snd updates) c' → ¬ commit_has git (sized_pointer h) c'.

Lemma considered_grows id out h : is_Some (out !! h) → is_Some (consider_pushed_blob git id out !! h).
Proof using Type. intros Hh. unfold consider_pushed_blob. repeat case_match; try done. rewrite lookup_insert_is_Some'. by right. Qed.

Lemma considered_has id out h : sized_pointer h id → is_Some (consider_pushed_blob git id out !! h).
Proof using Type.
  intros (data & info & n & Hd & Ho & Hp & <- & Hn). unfold consider_pushed_blob. rewrite Hd. destruct (pointer_size _ _ Hp).
  rewrite bool_decide_true by done. cbn [negb orb]. rewrite (proj2 (Z.eqb_neq _ _)), (proj2 (Z.ltb_ge _ _)) by done. cbn [orb].
  rewrite Ho, Hp, Hn. rewrite lookup_insert_is_Some'. by left.
Qed.

(** A fold of steps that only add. *)
Lemma fold_grows {A} (f : gmap str Z → A → gmap str Z) h l : (∀ out x, is_Some (out !! h) → is_Some (f out x !! h)) →
  ∀ out, is_Some (out !! h) → is_Some (foldl f out l !! h).
Proof using Type. intros Hf. induction l as [|x l IH]; intros out Ho; cbn [foldl]; [done|]. by apply IH, Hf. Qed.
Lemma fold_meets {A} (f : gmap str Z → A → gmap str Z) h l x : (∀ out x, is_Some (out !! h) → is_Some (f out x !! h)) →
  x ∈ l → (∀ out, is_Some (f out x !! h)) → ∀ out, is_Some (foldl f out l !! h).
Proof using Type.
  intros Hf Hx Hm. induction l as [|y l IH]; intros out; [by apply not_elem_of_nil in Hx|]. cbn [foldl].
  apply elem_of_cons in Hx as [->|Hx]; [|by apply IH]. apply fold_grows; [done|apply Hm].
Qed.

Lemma changes_grow p c out h : is_Some (out !! h) → is_Some (collect_pushed_changes git p c out !! h).
Proof using Type.
  intros Ho. unfold collect_pushed_changes. destruct (tree_changes git p c); [|done]. apply fold_grows; [|done].
  intros out' [m id] Hs. cbn. destruct (is_blob m); [by apply considered_grows|done].
Qed.
Lemma commit_grows out info h : is_Some (out !! h) → is_Some (collect_commit git out info !! h).
Proof using Type. intros Ho. unfold collect_commit. destruct info as [[[c|] p]|]; [by apply changes_grow|done..]. Qed.

Lemma delta_has walk i out h : shown git walk i → sized_pointer h i → is_Some (foldl (collect_commit git) out walk !! h).
Proof using Type.
  intros (c & p & m & l & Hin & Hl & Hi & Hm) Hp.
  apply (fold_meets _ h walk (Some (mkWalkInfo (Some c) p))); [intros; by apply commit_grows|done|].
  intros out'. cbn. unfold collect_pushed_changes. rewrite Hl. apply (fold_meets _ h l (m, i)); [|done|].
  - intros o [m' id] Hs. cbn. destruct (is_blob m'); [by apply considered_grows|done].
  - intros o. cbn. rewrite Hm. by apply considered_has.
Qed.

Lemma pushed_is_found updates h : (∀ tips, is_Some (rev_walk git tips [])) → pushed updates h →
  is_Some (reachable_pointers (Some git) updates !! h).
Proof.
  intros Hwalks (c & Hreach & Hhas & Hhid). unfold reachable_pointers. set (tips := filter _ updates.*1) in *.
  assert (Hdelta : ∀ hidden walk, rev_walk git tips hidden = Some walk → (∀ c', reaches hidden c' → ¬ commit_has git (sized_pointer h) c') →
    is_Some (foldl (collect_commit git) ∅ walk !! h)).
  { intros hidden walk Hw Hno.
    destruct (introduced git tips hidden walk _ (walk_meets _ _ _ Hw) Hno (Datatypes.S (rank c)) c ltac:(lia) Hreach Hhas) as (i & Hi & Hp).
    by eapply delta_has. }
  assert (Hempty : ∀ c' : ObjectId, ¬ reaches ([] : list ObjectId) c') by (intros c' (t & Ht & _); by apply not_elem_of_nil in Ht).
  destruct tips as [|t tips'] eqn:Ht; [by destruct (Hempty c)|]. unfold collect_delta. rewrite <-Ht in *.
  destruct (rev_walk git tips (omap snd updates)) as [walk|] eqn:Hw; [by apply (Hdelta (omap snd updates))|]. cbn.
  destruct (Hwalks tips) as [walk Hw0]. destruct (omap snd updates); [congruence|]. rewrite Hw0. cbn.
  apply (Hdelta []); [done|]. intros c' Hc'. by destruct (Hempty c').
Qed.
End pushed.


(** ** The command *)
Section command.
Context {C : Crates} {G : GitObjects} {O : Outside} {S : Sessions} {L : SessionLaws}.
#[local] Set Default Proof Using "Type*".

(** The target's repository, as the token for writing names it. *)
Definition granted (i : Invocation) (raw : RawConfig) (a : ResolvedAuth) : Prop := ∃ target a0 n1 n2,
  push_target (i_args i) = Ok target ∧ resolve_for_remote raw Write target n1 = (Ok a0, n2) ∧ a = trimmed a0.

Definition staged_available (i : Invocation) (raw : RawConfig) (r : Repo) (w : World) : Prop := ∀ h,
  is_64_lower_hex h = true → is_Some (markers r !! h) →
  ∃ a n c, granted i raw a ∧ registered w a h c ∧ xet_download (objects r) (info_new h n) n = (Ok tt, c).
Definition advertised_available (i : Invocation) (raw : RawConfig) (w : World) : Prop := ∀ updates h,
  is_Some (remote_name (i_args i)) → read_ref_updates_from_stdin (i_stdin i) = Ok updates →
  is_Some (reachable_pointers (i_repo i) updates !! h) → ∃ a c, granted i raw a ∧ registered w a h c.

Lemma advertised_lookup i staged m updates h :
  advertised i staged = Ok m → is_Some (remote_name (i_args i)) → read_ref_updates_from_stdin (i_stdin i) = Ok updates →
  is_Some (reachable_pointers (i_repo i) updates !! h) → is_Some (staged !! h) ∨ is_Some (m !! h).
Proof using Type.
  unfold advertised. intros Ha [name Hname] Hu [n Hn]. rewrite Hname, Hu in Ha. cbn in Ha. injection Ha as <-.
  destruct (staged !! h) as [k|] eqn:Hs; [left; by exists k|right]. exists n. by apply map_lookup_filter_Some.
Qed.

Lemma keeps_upload_pending i raw p :
  keeps (upload_pending i raw) p (λ staged p',
    staged_available i raw (p_repo p) (world (p_net p')) ∧ advertised_available i raw (world (p_net p')) ∧
    ∀ h, h ∈ staged → is_Some (markers (p_repo p) !! h)).
Proof.
  unfold upload_pending. apply keeps_bind, keeps_map_err, keeps_lift. intros gd _ _.
  apply keeps_bind, keeps_lift. intros target Htarget _. apply keeps_bind, keeps_map_err. unfold because at 1. apply keeps_map_err.
  pose proof (same_list_staged (p_repo p)) as Hlist.
  eapply keeps_mono; [apply keeps_disk; unfold wps in Hlist; destruct (list_staged_files (p_repo p)) as [[l|e| |] r']; [apply Hlist|apply Hlist|done|done]|].
  intros l p1 D1 Hl _. unfold wps in Hlist. rewrite Hl in Hlist. destruct Hlist as [_ Hin].
  apply keeps_bind, keeps_map_err, keeps_lift. intros staged Hst _. pose proof (sized_staged_all _ _ Hst) as Hall.
  assert (Hdom : ∀ h, is_Some (staged !! h) → is_Some (markers (p_repo p) !! h)).
  { intros h Hh. apply Hin. by eapply sized_staged_dom. }
  apply keeps_bind, keeps_map_err, keeps_lift. intros refs Hrefs _. case_bool_decide as Hs; [case_bool_decide as Hr|]; cbn [andb].
  { apply keeps_ret. split_and!; [| |intros h Hh; by apply not_elem_of_nil in Hh].
    - intros h Hh Hm. destruct (Hall h) as [n Hn]; [by apply Hin|]. by rewrite Hs, lookup_empty in Hn.
    - intros updates h Hname Hu Hh. destruct (advertised_lookup _ _ _ _ _ Hrefs Hname Hu Hh) as [[n Hn]|[n Hn]];
        [by rewrite Hs, lookup_empty in Hn|by rewrite Hr, lookup_empty in Hn]. }
  all: apply keeps_bind, keeps_map_err, keeps_map_err, keeps_lift; intros [] _ _; apply keeps_bind, keeps_map_err;
    (eapply keeps_mono; [apply keeps_on_net, outlives_resolve|]); intros a0 p2 D2 (n2 & Hres & _) _;
    apply keeps_bind, keeps_map_err, keeps_map_err, keeps_lift; intros [] _ _; apply keeps_bind, keeps_map_err;
    (eapply keeps_mono; [apply keeps_upload_all|]); intros [] p3 D3 [Ha1 Ha2] _; apply keeps_ret;
    (assert (Hg : granted i raw (trimmed a0)) by (by exists target, a0, (p_net p1), n2)).
  1,2: split_and!;
   [ intros h Hh Hm; destruct (Hall h) as [n Hn]; [by apply Hin|]; destruct (Ha1 (h, n)) as (c & Hc & Hx);
       [by apply elem_of_btree_iter|]; exists (trimmed a0), n, c; rewrite <-(du_objects _ _ D1), <-(du_objects _ _ D2); by split_and!
   | intros updates h Hname Hu Hh; destruct (advertised_lookup _ _ _ _ _ Hrefs Hname Hu Hh) as [[n Hn]|[n Hn]];
       [destruct (Ha1 (h, n)) as (c & Hc & _)|destruct (Ha2 (h, n)) as (c & Hc)]; try (by apply elem_of_btree_iter); by exists (trimmed a0), c
   | intros h ([h' n] & -> & Hn%elem_of_btree_iter)%list_elem_of_fmap; apply Hdom; by exists n ].
Qed.

(** C3. A push that is let through has made its files available: when
    [push-pending] answers without an error (out of local mode), the target's
    repository has every file that was staged, with the very bytes that the
    staging area held, and, run as a hook, every file that a pushed commit points
    to and no commit does that the remote had before, whichever remote its bytes
    came from; if it fails, every staged marker and object is still there for
    the next attempt.  (A pointer without a size is not pushed; the walk from the
    pushed commits that hides nothing can be set up.) *)
Theorem push_makes_available (i : Invocation) (raw : RawConfig) (p : Push) :
  i_config i = Ok raw → local_mode raw = false →
  let '(o, p') := run i p in
  (is_ok o = true →
    staged_available i raw (p_repo p) (world (p_net p')) ∧
    ∀ git (LG : GitLaws git) updates h,
      i_repo i = Some git → is_Some (remote_name (i_args i)) → read_ref_updates_from_stdin (i_stdin i) = Ok updates →
      (∀ tips, is_Some (rev_walk git tips [])) → pushed git (L := LG) updates h →
      ∃ a c, granted i raw a ∧ registered (world (p_net p')) a h c) ∧
  (is_ok o = false → markers (p_repo p') = markers (p_repo p) ∧ objects (p_repo p') = objects (p_repo p)).
Proof.
  intros Hraw Hmode. unfold run. rewrite Hraw.
  assert (Hlift : (st_map_err Failed (lift (Ok raw)) : ST Push PushError RawConfig) p = (Ok raw, p)) by done.
  rewrite (ST_bind_step _ _ _ _ _ Hlift), Hmode. clear Hlift.
  pose proof (keeps_upload_pending i raw p) as Hk. unfold keeps in Hk. unfold mbind, ST_bind.
  destruct (upload_pending i raw p) as [[staged|e| |] p1]; destruct Hk as [Hd Hk]; try (split; [done|]; intros _; split; apply Hd).
  destruct Hk as (Hs & Ha & _). pose proof (drain_total staged (p_repo p1)) as Hdrain. unfold wps in Hdrain.
  unfold st_map_err, on_disk, zoom, st_map_err. destruct (drain staged (p_repo p1)) as [[[]|e| |] r']; try done. cbn. split; [|done].
  intros _. split; [exact Hs|]. intros git Hg updates h Hr Hname Hu Hw Hp. apply (Ha updates h Hname Hu). rewrite Hr.
  exact (pushed_is_found git updates h Hw Hp).
Qed.
End command.

(** C22. The drain of a push touches what was pushed alone: markers that are not
    of the pushed files stay whatever call fails, such as those of files that
    were cleaned while the upload ran; when no call fails the pushed markers are
    gone, the objects stay as long as any other marker does, and are swept when
    none is left. *)
Theorem drain_keeps_others (staged : list str) (r : Repo) :
  let '(o, r') := drain staged r in
  o = Ok tt ∧ (∀ h, h ∉ staged → markers r' !! h = markers r !! h) ∧
  (faults r = [] → staged ≠ [] →
    (∀ h, h ∈ staged → markers r' !! h = None) ∧
    ((∃ h, is_64_lower_hex h = true ∧ (h ∉ staged) ∧ is_Some (markers r !! h)) → objects r' = objects r) ∧
    ((∀ h, is_64_lower_hex h = true → h ∉ staged → markers r !! h = None) →
      ∀ name, is_object_name name = true → objects r' !! name = None)).
Proof.
  pose proof (drain_total staged r) as Ht. unfold wps in Ht. destruct (drain staged r) as [[[]|e| |] r'] eqn:Hd; try done.
  split; [done|]. split; [done|]. intros Hf Hne. unfold drain in Hd. destruct staged as [|x l]; [done|].
  revert Hd. generalize (x :: l) as staged. clear Hne Ht. intros staged.
  assert (Hlock : ignore acquire_exclusive r = (Ok (Some tt), r)).
  { apply run_ignore. unfold acquire_exclusive. rewrite !(ST_bind_step _ _ _ _ _ (run_writing id r Hf)). exact (run_writing id r Hf). }
  rewrite (ST_bind_step _ _ _ _ _ Hlock), (ST_bind_step _ _ _ _ _ (run_remove_markers staged r Hf)).
  set (r1 := set_markers _ r). assert (Hm1 : ∀ h, markers r1 !! h = if bool_decide (h ∈ staged) then None else markers r !! h)
    by (intros h; apply lookup_removed).
  destruct (run_list_staged r1 Hf) as (rest & Hl & Hin). rewrite (ST_bind_step _ _ _ _ _ (run_ignore _ _ _ _ Hl)). cbn [default from_option id].
  destruct rest as [|y rest]; cbn [length Nat.eqb].
  - destruct (run_remove_objects r1 Hf) as (objs & Ho & Hobjs). rewrite (ST_bind_step _ _ _ _ _ (run_ignore _ _ _ _ Ho)). intros [= <-].
    split_and!.
    + intros h Hh. cbn. by rewrite Hm1, bool_decide_true.
    + intros (h & Hhex & Hh & Hs). exfalso. apply (not_elem_of_nil h), Hin. split; [|done]. by rewrite Hm1, bool_decide_false.
    + intros _ name Hname. cbn. by rewrite Hobjs, Hname.
  - intros [= <-]. split_and!.
    + intros h Hh. by rewrite Hm1, bool_decide_true.
    + done.
    + intros Hno. exfalso. assert (y.1 ∈ (y :: rest).*1) as [[m Hm] Hhex]%Hin by (by left).
      rewrite Hm1 in Hm. case_bool_decide; [done|]. by rewrite Hno in Hm.
Qed.
