(* ===== verification/PushToy.v ===== *)
(** * A target that registers, and a push to it *)

From stdpp Require Import gmap list.
From S2P Require Import Prelude RustStd RustText Pktline CleanCache Config Repo Filter FilterToy Gc GcSpec GcToy Remote Resolver ResolverSpec Push PushSpec.

(** What a target has and what a session has cleaned, under the address of their
    reconstruction. *)
Record toy_world := mkToyWorld { registered_files : gset (str * bytes); session_files : gset (str * bytes) }.
Definition reconstruction_url (a : ResolvedAuth) (h : str) : str := ra_server_url a ++ lit "/v1/reconstructions/" ++ h.
Definition known_url (u : str) (w : toy_world) : bool := existsb (λ p, bool_decide (p.1 = u)) (elements (registered_files w)).

#[export] Instance toy_target : Outside := {|
  World := toy_world;
  now_utc _ := 0;
  send r w := (Ok (mkResponse (if str_contains (url r) (lit "/v1/reconstructions/") && known_url (url r) w then 200 else 404) (Ok [])), w);
  spawn _ w := (Err [], w);
  http_client := Ok tt;
  discover _ := None;
  authenticate_from_json _ := Err [];
  ssh_from_json _ := Err [];
  exchange_from_json _ := Err [];
|}.

#[export] Instance toy_sessions : Sessions := {|
  UploadSession := ResolvedAuth;
  DownloadSession := unit;
  xet_runtime := Ok tt;
  online_config _ := Ok tt;
  upload_new a w := (Ok a, w);
  clean_file u c w := (Ok tt, mkToyWorld (registered_files w) ({[ (reconstruction_url u toy_hash_name, c) ]} ∪ session_files w));
  finalize _ w := (Ok tt, mkToyWorld (session_files w ∪ registered_files w) (session_files w));
  local_config := Ok tt;
  local_download_new := Ok tt;
  download_new _ w := (Ok tt, w);
  download_to_writer _ _ _ w := (Err (lit "404"), [], w);
  oid_from_hex s := if decide (s = lit "10") then Some 10%nat else if decide (s = lit "20") then Some 20%nat else Some 0%nat;
  oid_is_null := λ o : nat, bool_decide (o = 0%nat);
|}.

#[export] Instance toy_session_laws : SessionLaws.
Proof.
  refine {| registered := λ w a h c, (reconstruction_url a h, c) ∈ registered_files w;
            in_session := λ w u h c, (reconstruction_url u h, c) ∈ session_files w;
            session_auth := λ u, u |}; cbn.
  - done.
  - done.
  - done.
  - intros u c w. split; set_solver.
  - intros u w. split; set_solver.
  - done.
  - done.
  - by intros a w u w' [= <- _].
  - intros u c w info w' [= _ <-]. cbn. set_solver.
  - intros u w w' h c [= <-] Hin. cbn. set_solver.
  - intros a h w resp w' [= <- <-]. cbn [status]. destruct (str_contains _ _ && known_url _ w) eqn:Hk; [|done]. intros _.
    apply andb_prop in Hk as [_ Hk]. unfold known_url in Hk. apply existsb_exists in Hk as ([u c] & Hin & Hu).
    apply bool_decide_eq_true in Hu. cbn in Hu. exists c. apply list_elem_of_In, elem_of_elements in Hin. unfold reconstruction_url. rewrite Hu in Hin. exact Hin.
Defined.

Definition toy_push_config : RawConfig :=
  mkRawConfig (Some (lit "https://cas/")) (Some (lit "tok")) (Some 5) (lit "cache") (Some (lit ".git")) false None false None.
Definition toy_invocation : Invocation := mkInvocation (mkArgs (Some (lit "origin")) None) (Ok toy_push_config)
  (Ok (lit "refs/heads/main 10 refs/heads/main 0" ++ [x0a])) (Some toy_git) None true None.
Definition toy_pushing : Push := mkPush (mkRepo {[ toy_hash_name := mkMarker (lit "2") 0 ]} {[ lit "k" := toy_content ]} ∅ ∅ None true 0 [])
  (mkNet (mkToyWorld ∅ ∅) []) (SourceSessions_new 0).

Lemma push_makes_available_witness :
  ∃ p', run toy_invocation toy_pushing = (Ok tt, p') ∧ markers (p_repo p') = ∅ ∧
    ∃ a c, registered (world (p_net p')) a toy_hash_name c.
Proof.
  pose proof (push_makes_available toy_invocation toy_push_config toy_pushing eq_refl eq_refl) as H.
  assert (Hrun : run toy_invocation toy_pushing = (Ok tt, (run toy_invocation toy_pushing).2)).
  { rewrite (surjective_pairing (run toy_invocation toy_pushing)) at 1. f_equal. }
  exists (run toy_invocation toy_pushing).2. split; [exact Hrun|]. split; [vm_compute; reflexivity|].
  rewrite Hrun in H. destruct H as [H _]. destruct (H eq_refl) as [Hs _].
  destruct (Hs toy_hash_name) as (a & n & c & _ & Hr & _); [reflexivity|by eexists|]. exists a, c. exact Hr.
Defined.

(** A listing that fails after the upload costs the objects of a file that was
    cleaned meanwhile: its marker stays, without what it stands for. *)
Example failed_listing_sweeps_others :
  let other := replicate 64 x62 in
  let object := lit "default." ++ replicate 64 x63 in
  let r := mkRepo {[ toy_hash_name := mkMarker (lit "2") 0; other := mkMarker (lit "3") 0 ]} {[ object := [] ]} ∅ ∅ None true 0
    [None; None; None; None; Some (lit "Too many open files")] in
  let r' := (drain [toy_hash_name] r).2 in
  markers r' !! other = Some (mkMarker (lit "3") 0) ∧ objects r' !! object = None.
Proof. vm_compute. done. Qed.

(** An annotated tag names a tag object, which is no commit: a push of it looks
    at nothing, though the tag's commit has a pointer. *)
Definition tagged_git : GitRepo := mkGitRepo (index_entries toy_git) (head_id toy_git) (references toy_git)
  (λ id : nat, if decide (id = 20%nat) then Some (Tag, 100) else find_header toy_git id)
  (find_object toy_git) (rev_walk toy_git) (tree_changes toy_git).
Example annotated_tag_is_skipped :
  reachable_pointers (Some tagged_git) [(10%nat, None)] !! toy_hash_name = Some 2 ∧
  reachable_pointers (Some tagged_git) [(20%nat, None)] !! toy_hash_name = None.
Proof. split; vm_compute; reflexivity. Qed.
