(* ===== verification/Prune.v ===== *)
(** * Compacting a shared local store

    [crates/git-bale/src/prune.rs] and the registry of [store.rs]: the files that
    the registered repositories still reach are rebuilt into a new store, which
    is swapped for the old one.  xet-core's local sessions and gix are
    parameters. *)

From stdpp Require Import gmap list sorting.
From S2P Require Import Prelude RustStd Pktline CleanCache Config Repo Gc.

(** An upload session into a store: what it cleans is there once it is finalized. *)
Class LocalSessions `{Crates} := {
  LocalUpload : Type;
  local_config : str → outcome str unit;
  local_download_new : outcome str unit;
  local_upload_new : outcome str LocalUpload;
  local_clean : LocalUpload → bytes → outcome str XetFileInfo * LocalUpload;
  local_finalize : LocalUpload → gmap str bytes → outcome str unit * gmap str bytes;
  xet_runtime : outcome str unit;
  canonicalize : str → option str;
}.

Section prune.
Context {C : Crates} {G : GitObjects} {S : LocalSessions}.

(** ** The machine: directories of stores, by path, and git directories *)

(** The xorbs and shards of a store, by name, and the files of its registry. *)
Record Store := mkStore { st_objects : gmap str bytes; st_registry : option (gmap str bytes) }.
Record GitDir := mkGitDir { gd_repo : Repo; gd_git : option GitRepo }.
Record Machine := mkMachine { stores : gmap str Store; gits : gmap str GitDir; m_faults : list (option str) }.
Definition set_stores s m := mkMachine s (gits m) (m_faults m).
Definition set_gits g m := mkMachine (stores m) g (m_faults m).
Definition m_pop m := mkMachine (stores m) (gits m) (tail (m_faults m)).

Abbreviation M := (ST Machine str).

Definition mcall {A} (f : Machine → outcome str A * Machine) : M A := λ m,
  match default None (head (m_faults m)) with
  | Some e => (Err e, m_pop m)
  | None => f (m_pop m)
  end.
Definition mread {A} (f : Machine → A) : M A := mcall (λ m, (Ok (f m), m)).
Definition mwrite (f : Machine → Machine) : M unit := mcall (λ m, (Ok tt, f m)).
Definition mtry {A} (m : M A) : M (option A) := λ s,
  match m s with
  | (Ok a, s') => (Ok (Some a), s')
  | (Err _, s') => (Ok None, s')
  | (Panic, s') => (Panic, s')
  | (Diverged, s') => (Diverged, s')
  end.
Definition because {A} (c : str) (m : M A) : M A := st_map_err (λ e, c ++ lit ": " ++ e) m.

Definition create_dir_all (p : str) : M unit :=
  mwrite (λ m, set_stores (<[p := default (mkStore ∅ None) (stores m !! p)]> (stores m)) m).
Definition remove_dir_all (p : str) : M unit := mwrite (λ m, set_stores (delete p (stores m)) m).
(** Onto a directory that is there, a rename of a directory fails. *)
Definition rename (a b : str) : M unit := mcall (λ m,
  match stores m !! a, stores m !! b with
  | None, _ => (Err (lit "No such file or directory"), m)
  | Some _, Some _ => (Err (lit "Directory not empty"), m)
  | Some s, None => (Ok tt, set_stores (<[b := s]> (delete a (stores m))) m)
  end).

(** ** The registry of a store *)

Definition registry_file (s : Store) (name : str) : option bytes := r ← st_registry s; r !! name.

Definition with_registry (s : Store) : Store := mkStore (st_objects s) (Some (default ∅ (st_registry s))).
Definition registry_insert (name : str) (body : bytes) (s : Store) : Store :=
  mkStore (st_objects s) (Some (<[name := body]> (default ∅ (st_registry s)))).
Definition create_registry (store_root : str) : M unit :=
  mwrite (λ m, set_stores (<[store_root := with_registry (default (mkStore ∅ None) (stores m !! store_root))]> (stores m)) m).

(** [abs]: what the git directory canonicalizes to; the temporary file is
    complete before it is renamed. *)
Definition register_repo (store_root git_dir : str) : M unit :=
  _ ← because (lit "creating shared-store registry " ++ registry_dir store_root) (create_registry store_root);
  abs ← because (lit "canonicalizing git dir " ++ git_dir)
    (mcall (λ m, (ok_or (lit "No such file or directory") (canonicalize git_dir), m)));
  _ ← mwrite id; _ ← mwrite id; _ ← mwrite id;
  mwrite (λ m, set_stores (alter (registry_insert (path_key abs) abs) store_root (stores m)) m).

(** Paths that occur once, in order. *)
Fixpoint dedup_sorted (l : list str) : list str :=
  match l with
  | x :: ((y :: _) as l') => if decide (x = y) then dedup_sorted l' else x :: dedup_sorted l'
  | l => l
  end.
Definition sort_names (l : list str) : list str := merge_sort (λ a b, Is_true (str_le a b)) l.

Definition read_registration (store_root name : str) (out : list str) : M (list str) :=
  if starts_with name (lit ".") then mret out
  else
    body ← mread (λ m, s ← stores m !! store_root; registry_file s name);
    text ← lift (match body with Some b => from_utf8 b | None => Err (lit "No such file or directory") end);
    mret (match trim text with [] => out | p => out ++ [p] end).

Definition registered_repos (store_root : str) : M (list str) :=
  registry ← because (lit "reading registry " ++ registry_dir store_root) (mread (λ m, s ← stores m !! store_root; st_registry s));
  match registry with
  | None => mret []
  | Some r =>
      out ← fold_st (λ out name, read_registration store_root name out) [] (map_to_list r).*1;
      mret (dedup_sorted (sort_names out))
  end.

(** ** Which files live *)

(** The markers of a git directory; a listing that fails counts as empty. *)
Definition markers_of (git_dir : str) : M (list (str * option Z)) := λ m,
  match gits m !! git_dir with
  | None => (Ok [], m)
  | Some g =>
      match or_else [] list_staged_files (gd_repo g) with
      | (Ok l, r') => (Ok l, set_gits (<[git_dir := mkGitDir r' (gd_git g)]> (gits m)) m)
      | (Err e, r') => (Err (io_error_text e), m)
      | (Panic, r') => (Panic, m)
      | (Diverged, r') => (Diverged, m)
      end
  end.

Definition git_exists (git_dir : str) (m : Machine) : bool := bool_decide (is_Some (gits m !! git_dir)).

(** A repository that cannot be opened has no refs. *)
Definition reachable_in_repo (git_dir : str) (want : gset str) (m : Machine) : gset str :=
  match (g ← gits m !! git_dir; gd_git g) with Some git => reachable_all git want | None => ∅ end.

(** The live files and all that have a marker. *)
Fixpoint live_files (force : bool) (repos : list str) (live want_all : gset str) : M (gset str * gset str) :=
  match repos with
  | [] => mret (live, want_all)
  | g :: repos =>
      present ← gets (git_exists g);
      if negb present then
        if force then live_files force repos live want_all
        else throw (lit "registered repo " ++ g ++ lit " is missing; its objects might be the only copy. Re-attach it, deregister it, or pass --force to prune anyway.")
      else
        l ← markers_of g;
        let markers : gset str := list_to_set l.*1 in
        reachable ← gets (reachable_in_repo g markers);
        live_files force repos (live ∪ reachable) (want_all ∪ markers)
  end.

(** The size of a file, from the first repository that has one for it. *)
Definition add_sizes (live : gset str) (sizes : gmap str Z) (l : list (str * option Z)) : gmap str Z :=
  foldl (λ sizes p, match p.2 with
    | Some n => if bool_decide (p.1 ∈ live) then <[p.1 := default n (sizes !! p.1)]> sizes else sizes
    | None => sizes
    end) sizes l.

Definition collect_sizes (repos : list str) (live : gset str) : M (gmap str Z) :=
  sizes ← fold_st (λ sizes g,
    present ← gets (git_exists g);
    if present : bool then l ← markers_of g; mret (add_sizes live sizes l) else mret sizes) ∅ repos;
  _ ← for_each (λ h, match sizes !! h with
    | Some _ => mret tt
    | None => throw (lit "live file " ++ h ++ lit " has no sized marker in any registered repo; cannot reconstruct")
    end) (sort_names (elements live));
  mret sizes.

(** ** The rebuilt store *)

Definition is_store_file (name : str) : bool :=
  starts_with name (lit "default.") || match strip_suffix name (lit ".mdb") with Some _ => true | None => false end.
(** A directory that cannot be read has no files. *)
Definition object_fingerprint (store : str) : M (gset str) :=
  names ← mtry (mread (λ m, match stores m !! store with Some s => dom (st_objects s) | None => ∅ end));
  mret (filter (λ n, is_store_file n = true) (default ∅ names)).

Definition compact_one (store : str) (up : LocalUpload) (f : str * Z) : M LocalUpload :=
  _ ← because (lit "temp file for compaction") (mwrite id);
  _ ← because (lit "reopening temp file for download write") (mwrite id);
  objs ← gets (λ m, match stores m !! store with Some s => st_objects s | None => ∅ end);
  content ← because (lit "reconstructing " ++ f.1 ++ lit " from old store")
    (lift match xet_download objs (info_new f.1 f.2) f.2 with
          | (Ok _, b) => Ok b | (Err e, _) => Err e | (Panic, _) => Panic | (Diverged, _) => Diverged end);
  let '(r, up') := local_clean up content in
  new_info ← because (lit "re-cleaning " ++ f.1 ++ lit " into new store") (lift r);
  if decide (info_hash new_info = f.1) then mret up'
  else throw (lit "compaction hash mismatch for " ++ f.1 ++ lit " (got " ++ info_hash new_info ++ lit "); aborting before swap").

Definition rebuild (store new_store : str) (live_sized : list (str * Z)) : M unit :=
  _ ← lift local_download_new;
  up ← lift local_upload_new;
  up ← fold_st (compact_one store) up live_sized;
  objs ← gets (λ m, match stores m !! new_store with Some s => st_objects s | None => ∅ end);
  let '(r, objs') := local_finalize up objs in
  _ ← modify (λ m, set_stores (alter (λ s, mkStore objs' (st_registry s)) new_store (stores m)) m);
  lift r.

Definition copy_registration (src dst name : str) : M unit :=
  because (lit "copying registry entry " ++ name) (mwrite (λ m,
    match s ← stores m !! src; registry_file s name with
    | Some body => set_stores (alter (registry_insert name body) dst (stores m)) m
    | None => m
    end)).
Definition copy_registry (src dst : str) : M unit :=
  _ ← because (lit "creating registry dir " ++ registry_dir dst) (create_registry dst);
  registry ← because (lit "reading registry " ++ registry_dir src) (mread (λ m, s ← stores m !! src; st_registry s));
  match registry with
  | None => mret tt
  | Some r => for_each (copy_registration src dst) (map_to_list r).*1
  end.

(** ** The swap *)

Definition with_file_name (p name : str) : str := join (parent p) name.
Definition sibling (store : str) (kind : string) (pid : Z) : str :=
  with_file_name store (file_name store ++ lit "." ++ lit kind ++ lit "." ++ to_string pid).

(** On a failure of the second rename the first is undone, if that can be. *)
Definition swap (store new_store backup : str) : M unit :=
  _ ← because (lit "moving old store " ++ store ++ lit " aside") (rename store backup);
  swapped ← mtry (rename new_store store);
  match swapped with
  | None => _ ← mtry (rename backup store); throw (lit "swapping compacted store into place")
  | Some _ => _ ← mtry (remove_dir_all backup); mret tt
  end.

(** What other processes did to the store while it was rebuilt. *)
Variable others : Store → Store.

Definition changed_during_prune (store : str) : str :=
  lit "the shared store at " ++ store ++ lit " changed during prune (a concurrent `git add`?) — no changes made. Re-run `git-bale prune --shared` when no git operations are in flight.".

Definition compact (pid : Z) (store : str) (repos : list str) (live : gset str) : M unit :=
  sizes ← collect_sizes repos live;
  before ← object_fingerprint store;
  _ ← because (lit "starting xet runtime") (lift xet_runtime);
  let new_store := sibling store "compact" pid in
  _ ← because (lit "creating temp store " ++ new_store) (create_dir_all new_store);
  _ ← because (lit "building download config for old store") (lift (local_config store));
  _ ← because (lit "building upload config for new store") (lift (local_config new_store));
  live_sized ← lift (fold_out (λ l h, n ← ok_or (lit "no size for live file " ++ h) (sizes !! h); mret (l ++ [(h, n)]))
    [] (sort_names (elements live)));
  _ ← rebuild store new_store live_sized;
  _ ← modify (λ m, set_stores (alter others store (stores m)) m);
  after ← object_fingerprint store;
  if negb (bool_decide (before = after)) then
    _ ← mtry (remove_dir_all new_store);
    throw (changed_during_prune store)
  else
    copied ← mtry (copy_registry store new_store);
    match copied with
    | None =>
        _ ← mtry (remove_dir_all new_store);
        throw (lit "copying shared-store registry into the compacted store")
    | Some _ => swap store new_store (sibling store "old" pid)
    end.

Definition prune (force : bool) (pid : Z) (config : outcome str RawConfig) : M unit :=
  raw ← lift config;
  if negb (local_mode raw) || negb (local_shared raw)
  then throw (lit "`git-bale prune --shared` must run in a repo using a shared local store")
  else
    store ← lift (object_store_root raw);
    _ ← because (lit "locking shared store for prune") (_ ← mwrite id; _ ← mwrite id; mwrite id);
    repos ← registered_repos store;
    match repos with
    | [] => throw (lit "no repos registered against " ++ store)
    | _ =>
        '(live, want_all) ← live_files force repos ∅ ∅;
        if (size (want_all ∖ live) =? 0)%nat then mret tt
        else compact pid store repos live
    end.
End prune.
