(* ===== verification/PruneSpec.v ===== *)
(** * Pruning never loses what is needed *)

From stdpp Require Import gmap list sorting.
From S2P Require Import Prelude RustStd RustText Pktline CleanCache Config PathFacts Repo Gc GcSpec Prune.

(** ** Paths of siblings *)

Lemma sibling_name store kind pid : x2f ∉ lit kind → 0 ≤ pid →
  file_name (sibling store kind pid) = file_name store ++ lit "." ++ lit kind ++ lit "." ++ to_string pid.
Proof.
  intros Hk Hp. unfold sibling, with_file_name. apply file_name_join. rewrite !not_elem_of_app.
  split_and!; [apply file_name_plain|by_lit|done|by_lit|by apply to_string_not_in].
Qed.

Lemma siblings_apart store pid : 0 ≤ pid →
  sibling store "compact" pid ≠ store ∧ sibling store "old" pid ≠ store ∧ sibling store "compact" pid ≠ sibling store "old" pid.
Proof.
  intros Hp. pose proof (sibling_name store "compact" pid ltac:(by_lit) Hp) as Hc.
  pose proof (sibling_name store "old" pid ltac:(by_lit) Hp) as Ho.
  split_and!; intros He.
  - rewrite He in Hc. apply (f_equal length) in Hc. rewrite !length_app in Hc. simpl in Hc. lia.
  - rewrite He in Ho. apply (f_equal length) in Ho. rewrite !length_app in Ho. simpl in Ho. lia.
  - rewrite He, Ho in Hc. by apply app_inv_head in Hc.
Qed.

(** ** What is relied on *)

(** A session that is finalized has what it cleaned: what any store reconstructs
    of such a file, the new one does. *)
Class LocalSessionLaws `{LocalSessions} := {
  cleaned : LocalUpload → str → bytes → Prop;
  local_clean_law u c info u' : local_clean u c = (Ok info, u') → cleaned u' (info_hash info) c;
  cleaned_stays u c h b : cleaned u h b → cleaned (local_clean u c).2 h b;
  local_finalize_law u o o' h c n old : local_finalize u o = (Ok tt, o') → cleaned u h c →
    xet_download old (info_new h n) n = (Ok tt, c) → xet_download o' (info_new h n) n = (Ok tt, c);
}.

(** ** Steps *)
Section steps.
Context {S : Type}.

(** [m] answers and [Q] holds, or it does not and [R] does. *)
Definition holds {A} (m : ST S str A) (s : S) (Q : A → S → Prop) (R : S → Prop) : Prop :=
  let '(o, s') := m s in match o with Ok a => Q a s' | _ => R s' end.

Lemma holds_bind {A B} (m : ST S str A) (k : A → ST S str B) s Q R :
  holds m s (λ a s', holds (k a) s' Q R) R → holds (m ≫= k) s Q R.
Proof. unfold holds, mbind, ST_bind. by destruct (m s) as [[a|e| |] s']. Qed.
Lemma holds_mono {A} (m : ST S str A) s (Q Q' : A → S → Prop) (R R' : S → Prop) :
  holds m s Q R → (∀ a s', Q a s' → Q' a s') → (∀ s', R s' → R' s') → holds m s Q' R'.
Proof. unfold holds. destruct (m s) as [[a|e| |] s']; auto. Qed.
Lemma holds_map_err {A} (f : str → str) (m : ST S str A) s Q R : holds m s Q R → holds (st_map_err f m) s Q R.
Proof. unfold holds, st_map_err. by destruct (m s) as [[a|e| |] s']. Qed.
Lemma holds_lift {A} (o : outcome str A) s (Q : A → S → Prop) (R : S → Prop) :
  (∀ a, o = Ok a → Q a s) → R s → holds (lift o) s Q R.
Proof. intros HQ HR. unfold holds, lift. destruct o; auto. Qed.
Lemma holds_fold {A B} (f : B → A → ST S str B) (Inv : list A → B → S → Prop) (R : S → Prop) l :
  (∀ dn acc x s, Inv dn acc s → x ∈ l → holds (f acc x) s (λ acc', Inv (dn ++ [x]) acc') R) →
  ∀ acc s, Inv [] acc s → holds (fold_st f acc l) s (λ acc', Inv l acc') R.
Proof.
  intros Hf. assert (Hgen : ∀ k dn, l = dn ++ k → ∀ acc s, Inv dn acc s → holds (fold_st f acc k) s (λ acc', Inv l acc') R).
  { induction k as [|x k IH]; intros dn -> acc s Hs; cbn [fold_st]; [by rewrite app_nil_r|].
    apply holds_bind. eapply holds_mono; [apply Hf; [exact Hs|set_solver]| |done]. intros acc' s' Hs'.
    apply (IH (dn ++ [x])); [by rewrite <-app_assoc|done]. }
  intros acc s Hs. by apply (Hgen l []).
Qed.
Lemma holds_for_each {A} (f : A → ST S str unit) (Inv : list A → S → Prop) (R : S → Prop) l :
  (∀ dn x s, Inv dn s → x ∈ l → holds (f x) s (λ _, Inv (dn ++ [x])) R) → ∀ s, Inv [] s → holds (for_each f l) s (λ _, Inv l) R.
Proof.
  intros Hf. assert (Hgen : ∀ k dn, l = dn ++ k → ∀ s, Inv dn s → holds (for_each f k) s (λ _, Inv l) R).
  { induction k as [|x k IH]; intros dn -> s Hs; cbn [for_each]; [by rewrite app_nil_r|].
    apply holds_bind. eapply holds_mono; [apply Hf; [exact Hs|set_solver]| |done]. intros [] s' Hs'.
    apply (IH (dn ++ [x])); [by rewrite <-app_assoc|done]. }
  intros s Hs. by apply (Hgen l []).
Qed.
End steps.

Section machine.
Context {C : Crates} {G : GitObjects} {S : LocalSessions}.
#[local] Set Default Proof Using "Type".

Lemma holds_mcall {A} (f : Machine → outcome str A * Machine) m (Q : A → Machine → Prop) (R : Machine → Prop) :
  R (m_pop m) → (let '(o, m') := f (m_pop m) in match o with Ok a => Q a m' | _ => R m' end) → holds (mcall f) m Q R.
Proof. intros HR HQ. unfold holds, mcall. by destruct (default None _). Qed.
Lemma holds_mwrite f m (Q : unit → Machine → Prop) (R : Machine → Prop) : R (m_pop m) → Q tt (f (m_pop m)) → holds (mwrite f) m Q R.
Proof. intros HR HQ. by apply holds_mcall. Qed.
Lemma holds_mread {A} (f : Machine → A) m (Q : A → Machine → Prop) (R : Machine → Prop) :
  R (m_pop m) → Q (f (m_pop m)) (m_pop m) → holds (mread f) m Q R.
Proof. intros HR HQ. by apply holds_mcall. Qed.
Lemma holds_mtry {A} (p : ST Machine str A) m (Q : option A → Machine → Prop) (R : Machine → Prop) :
  (let '(o, m') := p m in match o with Ok a => Q (Some a) m' | Err _ => Q None m' | _ => R m' end) → holds (mtry p) m Q R.
Proof. unfold holds, mtry. by destruct (p m) as [[a|e| |] m']. Qed.

(** Only faults may have been met. *)
Record still (m m' : Machine) : Prop := {
  still_stores : stores m' = stores m;
  still_gits : gits m' = gits m;
  still_calm : m_faults m = [] → m_faults m' = [];
}.
#[export] Instance still_preorder : PreOrder still.
Proof. split; [by split|]. intros m1 m2 m3 [A1 B1 C1] [A2 B2 C2]. split; [congruence|congruence|auto]. Qed.
Lemma still_pop m m' : still m m' → still m (m_pop m').
Proof. intros [A B Hc]. split; [done..|]. intros H. cbn. by rewrite (Hc H). Qed.
#[local] Hint Resolve still_pop : core.

Definition registered_in (s : Store) (g : str) : Prop := ∃ name body, registry_file s name = Some body ∧
  starts_with name (lit ".") = false ∧ utf8_valid body = true ∧ trim body = g ∧ g ≠ [].

Lemma dedup_sorted_elem l g : g ∈ dedup_sorted l ↔ g ∈ l.
Proof.
  induction l as [|x l IH]; [done|]. destruct l as [|y l]; [done|]. cbn [dedup_sorted]. destruct (decide (x = y)) as [->|].
  - rewrite IH. set_solver.
  - rewrite !elem_of_cons, IH. set_solver.
Qed.

Lemma sort_names_elem l g : g ∈ sort_names l ↔ g ∈ l.
Proof. unfold sort_names. by rewrite (merge_sort_Permutation (λ a b, Is_true (str_le a b)) l). Qed.

(** Every repository that is registered is listed. *)
Lemma repos_listed store s m : stores m !! store = Some s →
  holds (registered_repos store) m (λ l m', still m m' ∧ ∀ g, registered_in s g → g ∈ l) (still m).
Proof.
  intros Hs. unfold registered_repos, because. apply holds_bind, holds_map_err, holds_mread; [by apply still_pop|]. cbn [stores m_pop]. rewrite Hs. cbn.
  destruct (st_registry s) as [r|] eqn:Hr.
  2: { split; [by apply still_pop|]. intros g (name & body & Hf & _). unfold registry_file in Hf. by rewrite Hr in Hf. }
  apply holds_bind. eapply holds_mono; [apply (holds_fold _ (λ dn out m', still m m' ∧
    ∀ name body, name ∈ dn → registry_file s name = Some body → starts_with name (lit ".") = false → utf8_valid body = true →
      trim body ≠ [] → trim body ∈ out) (still m))| |done].
  - intros dn out name m1 [Hst Hout] _. unfold read_registration. destruct (starts_with name (lit ".")) eqn:Hdot.
    + split; [done|]. intros n b [Hn| ->%list_elem_of_singleton]%elem_of_app Hf Hd; [by apply (Hout n b)|congruence].
    + apply holds_bind, holds_mread; [by apply still_pop|]. cbn [stores m_pop]. rewrite (still_stores _ _ Hst), Hs. cbn.
      apply holds_bind, holds_lift; [|by apply still_pop]. intros text Ht. split; [by apply still_pop|]. intros n b [Hn| ->%list_elem_of_singleton]%elem_of_app Hf Hd Hu Hne.
      * pose proof (Hout n b Hn Hf Hd Hu Hne). destruct (trim text); [done|]. apply elem_of_app. by left.
      * rewrite Hf in Ht. unfold from_utf8 in Ht. rewrite Hu in Ht. injection Ht as <-.
        destruct (trim b) as [|c t] eqn:Htr; [done|]. apply elem_of_app. right. by left.
  - split; [by apply still_pop|]. intros name body Hn. by apply not_elem_of_nil in Hn.
  - intros out m1 [Hst Hout]. split; [done|]. intros g (name & body & Hf & Hd & Hu & <- & Hne).
    rewrite dedup_sorted_elem, sort_names_elem. apply (Hout name body); try done. apply list_elem_of_fmap.
    exists (name, body). split; [done|]. apply elem_of_map_to_list. unfold registry_file in Hf. by rewrite Hr in Hf.
Qed.

(** A repository is readable when its markers can be listed. *)
Definition readable (m : Machine) : Prop := ∀ g gd, gits m !! g = Some gd → Repo.faults (gd_repo gd) = [].

Lemma markers_listed g m : readable m → ∃ l, markers_of g m = (Ok l, m) ∧
  ∀ gd, gits m !! g = Some gd → ∀ h, h ∈ l.*1 ↔ is_Some (markers (gd_repo gd) !! h) ∧ is_64_lower_hex h = true.
Proof.
  intros Hr. unfold markers_of. destruct (gits m !! g) as [[r git]|] eqn:Hg; [|by exists []].
  destruct (run_list_staged r (Hr _ _ Hg)) as (l & Hl & Hin). cbn [gd_repo gd_git]. rewrite (run_or_else _ _ _ _ _ Hl).
  exists l. split; [|by intros gd [= <-]]. f_equal. unfold set_gits. rewrite insert_id by done. by destruct m.
Qed.

(** What a repository cannot do without: a staged file that its index or any of
    its refs reaches. *)
Definition needs (m : Machine) (g h : str) : Prop := ∃ gd git (L : GitLaws git),
  gits m !! g = Some gd ∧ gd_git gd = Some git ∧ walks_set_up git ∧
  is_64_lower_hex h = true ∧ is_Some (markers (gd_repo gd) !! h) ∧
  needed git ((ref_tips git).1 ++ (ref_tips git).2) [] h.

Lemma needs_reachable m g h l gd : needs m g h → gits m !! g = Some gd →
  (∀ h, h ∈ l ↔ is_Some (markers (gd_repo gd) !! h) ∧ is_64_lower_hex h = true) → h ∈ reachable_in_repo g (list_to_set l) m.
Proof.
  intros (gd' & git & L & Hg & Hgit & Hw & Hh & Hm & Hn) Hg' Hl. assert (gd' = gd) as -> by congruence.
  unfold reachable_in_repo. rewrite Hg. cbn. rewrite Hgit. unfold reachable_all. destruct (ref_tips git) as [lt rt].
  eapply needed_is_reachable; [done| |exact Hn]. by apply elem_of_list_to_set, Hl.
Qed.

Lemma live_found force repos m : readable m → ∀ live want,
  holds (live_files force repos live want) m
    (λ p m', m' = m ∧ live ⊆ p.1 ∧ ∀ g h, g ∈ repos → needs m g h → h ∈ p.1) (λ m', m' = m).
Proof.
  intros Hr. induction repos as [|g repos IH]; intros live want; cbn [live_files].
  - split_and!; [done|done|]. intros g h Hg. by apply not_elem_of_nil in Hg.
  - apply holds_bind. change (gets (git_exists g) m) with (Ok (git_exists g m) : outcome str bool, m). unfold holds at 1. cbn [gets].
    destruct (git_exists g m) eqn:He; cbn [negb].
    + destruct (markers_listed g m Hr) as (l & Hl & Hin). apply holds_bind. unfold holds at 1. rewrite Hl.
      apply holds_bind. unfold holds at 1. cbn [gets]. eapply holds_mono; [apply IH| |done].
      intros [lv wt] m' (-> & Hsub & Hneed). cbn [fst] in *. split_and!; [done|set_solver|].
      intros g' h [->|Hg']%elem_of_cons Hn; [|by apply (Hneed g')]. apply Hsub, elem_of_union_r.
      unfold git_exists in He. apply bool_decide_eq_true in He as [gd Hgd]. eapply needs_reachable; [done|exact Hgd|]. by apply Hin.
    + assert (Hno : ∀ h, ¬ needs m g h).
      { intros h (gd & git & L & Hg & _). unfold git_exists in He. apply bool_decide_eq_false in He. by destruct He; exists gd. }
      destruct force; [|done]. eapply holds_mono; [apply IH| |done]. intros p m' (-> & Hsub & Hneed). split_and!; [done|done|].
      intros g' h [->|Hg']%elem_of_cons Hn; [by destruct (Hno h)|by apply (Hneed g')].
Qed.

Lemma sizes_found repos live m : readable m →
  holds (collect_sizes repos live) m (λ sizes m', m' = m ∧ ∀ h, h ∈ live → is_Some (sizes !! h)) (λ m', m' = m).
Proof.
  intros Hr. unfold collect_sizes. apply holds_bind.
  eapply holds_mono; [apply (holds_fold _ (λ _ _ m', m' = m) (λ m', m' = m))| |done]; [|done|].
  - intros _ sizes g m1 -> _. apply holds_bind. unfold holds at 1. cbn [gets]. destruct (git_exists g m); [|done].
    destruct (markers_listed g m Hr) as (l & Hl & _). apply holds_bind. unfold holds at 1. by rewrite Hl.
  - intros sizes m1 ->. apply holds_bind. eapply holds_mono; [apply (holds_for_each _ (λ dn m', m' = m ∧ ∀ h, h ∈ dn → is_Some (sizes !! h)) (λ m', m' = m))| |done].
    + intros dn h m1 [-> Hdn] _. destruct (sizes !! h) as [n|] eqn:Hh; [|done]. split; [done|].
      intros h' [Hin| ->%list_elem_of_singleton]%elem_of_app; [by apply Hdn|by exists n].
    + split; [done|]. intros h Hh. by apply not_elem_of_nil in Hh.
    + intros [] m1 [-> Hall]. split; [done|]. intros h Hh. by apply Hall, sort_names_elem, elem_of_elements.
Qed.
End machine.

(** ** The new store *)
Section compaction.
Context {C : Crates} {G : GitObjects} {S : LocalSessions} {L : LocalSessionLaws}.
Variables (others : Store → Store) (pid : Z) (store : str) (s : Store).
Hypothesis pid_nonneg : 0 ≤ pid.
#[local] Set Default Proof Using "All".

Let new_store := sibling store "compact" pid.
Let backup := sibling store "old" pid.

Definition store_files (s : Store) : gset str := filter (λ n, is_store_file n = true) (dom (st_objects s)).
(** The old store gives the file, as its registered marker says it. *)
Definition rebuilt (objs : gmap str bytes) (h : str) (n : Z) : Prop := ∃ c,
  xet_download (st_objects s) (info_new h n) n = (Ok tt, c) ∧ xet_download objs (info_new h n) n = (Ok tt, c).
(** Nothing is lost: the store is in place, or aside. *)
Definition kept (m : Machine) : Prop :=
  stores m !! store = Some s ∨ stores m !! store = Some (others s) ∨ stores m !! backup = Some (others s).

Lemma compacted up l m : stores m !! store = Some s →
  holds (fold_st (compact_one store) up l) m
    (λ up' m', still m m' ∧ ∀ h n, (h, n) ∈ l → ∃ c, cleaned up' h c ∧ xet_download (st_objects s) (info_new h n) n = (Ok tt, c)) (still m).
Proof.
  intros Hs. apply (holds_fold _ (λ dn up' m', still m m' ∧
    ∀ h n, (h, n) ∈ dn → ∃ c, cleaned up' h c ∧ xet_download (st_objects s) (info_new h n) n = (Ok tt, c))).
  2: { split; [done|]. intros h n Hn. by apply not_elem_of_nil in Hn. }
  intros dn up1 [h n] m1 [Hst Hdn] _. unfold compact_one, because. cbn [fst snd].
  do 2 (apply holds_bind, holds_map_err, holds_mwrite; [by repeat apply still_pop|]; unfold id at 1).
  assert (Hst2 : still m (m_pop (m_pop m1))) by (by repeat apply still_pop).
  apply holds_bind. unfold holds at 1. cbn [gets]. rewrite (still_stores _ _ Hst2), Hs.
  apply holds_bind, holds_map_err, holds_lift; [|done]. intros c Hc.
  destruct (local_clean up1 c) as [r up2] eqn:Hclean. apply holds_bind, holds_map_err, holds_lift; [|done]. intros info ->.
  destruct (decide _) as [Hh|]; [|done]. split; [done|]. intros h' n' [Hin|[= -> ->]%list_elem_of_singleton]%elem_of_app.
  - destruct (Hdn h' n' Hin) as (c' & Hc' & Hx). exists c'. split; [|done].
    pose proof (cleaned_stays up1 c h' c' Hc') as Hk. by rewrite Hclean in Hk.
  - exists c. split; [rewrite <-Hh; by eapply local_clean_law|].
    destruct (xet_download _ _ _) as [[[]|e| |] b]; congruence.
Qed.

Lemma apart : new_store ≠ store ∧ backup ≠ store ∧ new_store ≠ backup.
Proof using pid_nonneg. by apply siblings_apart. Qed.

(** Everything but the new store is as it was. *)
Record beside (m m' : Machine) : Prop := {
  be_stores p : p ≠ new_store → stores m' !! p = stores m !! p;
  be_gits : gits m' = gits m;
  be_calm : m_faults m = [] → m_faults m' = [];
}.
#[local] Instance beside_preorder : PreOrder beside.
Proof using Type.
  split; [by split|]. intros m1 m2 m3 [A1 B1 C1] [A2 B2 C2]. split; [|congruence|auto]. intros p Hp. by rewrite A2, A1.
Qed.
Lemma still_beside m m' : still m m' → beside m m'.
Proof using Type. intros [A B Hc]. split; [by rewrite A|done..]. Qed.
Lemma beside_pop m : beside m (m_pop m).
Proof using Type. apply still_beside, still_pop. done. Qed.
Lemma beside_set m f : (∀ p, p ≠ new_store → f (stores m) !! p = stores m !! p) → beside m (set_stores (f (stores m)) m).
Proof using Type. by split. Qed.

Lemma rebuild_spec l m : stores m !! store = Some s → is_Some (stores m !! new_store) →
  holds (rebuild store new_store l) m
    (λ _ m', beside m m' ∧ ∃ s', stores m' !! new_store = Some s' ∧ ∀ h n, (h, n) ∈ l → rebuilt (st_objects s') h n) (beside m).
Proof.
  intros Hs [sn Hn]. unfold rebuild. apply holds_bind, holds_lift; [|done]. intros [] _. apply holds_bind, holds_lift; [|done]. intros up _.
  apply holds_bind. eapply holds_mono; [by apply compacted| |intros m' Hst; by apply still_beside].
  intros up' m1 [Hst Hl]. apply holds_bind. unfold holds at 1. cbn [gets]. rewrite (still_stores _ _ Hst), Hn.
  destruct (local_finalize up' (st_objects sn)) as [r objs'] eqn:Hfin. apply holds_bind. unfold holds at 1. cbn [modify].
  assert (Hb : beside m (set_stores (alter (λ s, mkStore objs' (st_registry s)) new_store (stores m1)) m1)).
  { etrans; [by apply still_beside|]. apply (beside_set m1 (alter _ new_store)). intros p Hp. by rewrite lookup_alter_ne. }
  apply holds_lift; [|done]. intros [] ->. split; [done|]. exists (mkStore objs' (st_registry sn)). split.
  { cbn. by rewrite lookup_alter_eq, (still_stores _ _ Hst), Hn. }
  intros h n Hin. destruct (Hl h n Hin) as (c & Hc & Hx). exists c. split; [done|]. by eapply local_finalize_law.
Qed.

Lemma copy_spec mid s1 m : stores m !! store = Some mid → stores m !! new_store = Some s1 →
  holds (copy_registry store new_store) m
    (λ _ m', beside m m' ∧ ∃ s', stores m' !! new_store = Some s' ∧ st_objects s' = st_objects s1 ∧
       ∀ name b, registry_file mid name = Some b → registry_file s' name = Some b) (beside m).
Proof.
  intros Hm Hn. destruct apart as (Hap & _). unfold copy_registry, because, create_registry.
  apply holds_bind, holds_map_err, holds_mwrite; [apply beside_pop|].
  set (m1 := set_stores _ _). assert (Hb1 : beside m m1).
  { etrans; [apply beside_pop|]. apply (beside_set (m_pop m) (λ st, <[new_store := _]> st)). intros p Hp. by rewrite lookup_insert_ne. }
  assert (Hs1 : stores m1 !! new_store = Some (with_registry s1)) by (cbn; by rewrite lookup_insert_eq, Hn).
  assert (Hm1 : stores m1 !! store = Some mid) by (by rewrite (be_stores _ _ Hb1)).
  apply holds_bind, holds_map_err, holds_mread; [by etrans; [|apply beside_pop]|]. cbn [stores m_pop]. rewrite Hm1. cbn.
  assert (Hb2 : beside m (m_pop m1)) by (by etrans; [|apply beside_pop]).
  destruct (st_registry mid) as [r|] eqn:Hreg.
  2: { split; [done|]. exists (with_registry s1). split_and!; [done|done|]. intros name b Hf. unfold registry_file in Hf. by rewrite Hreg in Hf. }
  eapply holds_mono; [apply (holds_for_each _ (λ dn m', beside m m' ∧ ∃ s', stores m' !! new_store = Some s' ∧ st_objects s' = st_objects s1 ∧
    ∀ name b, name ∈ dn → registry_file mid name = Some b → registry_file s' name = Some b) (beside m))| |done].
  - intros dn name m2 (Hb & s' & Hs' & Ho & Hdn) _. unfold copy_registration, because.
    assert (Hmid : stores m2 !! store = Some mid) by (by rewrite (be_stores _ _ Hb)).
    apply holds_map_err, holds_mwrite; [by etrans; [|apply beside_pop]|]. cbn [stores m_pop]. rewrite Hmid. cbn.
    assert (Hb3 : beside m (m_pop m2)) by (by etrans; [|apply beside_pop]).
    destruct (registry_file mid name) as [body|] eqn:Hf.
    + split. { etrans; [exact Hb3|]. apply (beside_set (m_pop m2) (alter _ new_store)). intros p Hp. by rewrite lookup_alter_ne. }
      exists (registry_insert name body s'). split_and!; [cbn; by rewrite lookup_alter_eq, Hs'|done|].
      intros n b Hin Hb'. unfold registry_file. cbn. destruct (decide (n = name)) as [->|Hne].
      * rewrite lookup_insert_eq. congruence.
      * rewrite lookup_insert_ne by done. assert (registry_file s' n = Some b) as Hold by (apply Hdn; set_solver).
        unfold registry_file in Hold. by destruct (st_registry s').
    + split; [done|]. exists s'. split_and!; [done|done|]. intros n b [Hin| ->%list_elem_of_singleton]%elem_of_app Hb'; [by apply Hdn|congruence].
  - split; [done|]. exists (with_registry s1). split_and!; [done|done|]. intros name b Hn'. by apply not_elem_of_nil in Hn'.
  - intros [] m2 (Hb & s' & Hs' & Ho & Hall). split; [done|]. exists s'. split_and!; [done|done|]. intros name b Hf. apply Hall; [|done].
    apply list_elem_of_fmap. exists (name, b). split; [done|]. apply elem_of_map_to_list. unfold registry_file in Hf. by rewrite Hreg in Hf.
Qed.

Lemma rename_spec a b m x : stores m !! a = Some x → a ≠ b →
  holds (rename a b) m (λ _ m', stores m' = <[b := x]> (delete a (stores m)) ∧ stores m !! b = None) (λ m', stores m' = stores m).
Proof using Type. intros Ha Hab. unfold rename. apply holds_mcall; [done|]. cbn [stores m_pop]. rewrite Ha. by destruct (stores m !! b) eqn:Hb. Qed.

Lemma swap_spec s' m : stores m !! store = Some (others s) → stores m !! new_store = Some s' →
  holds (swap store new_store backup) m (λ _ m', stores m' !! store = Some s') kept.
Proof.
  intros Hs Hn. destruct apart as (Hap & Hbp & Hnb). unfold swap. apply holds_bind, holds_map_err.
  eapply holds_mono; [by apply (rename_spec store backup m (others s))| |intros m' Hm'; right; left; by rewrite Hm'].
  intros [] m1 [Hm1 Hfree]. apply holds_bind, holds_mtry.
  assert (Hn1 : stores m1 !! new_store = Some s') by (rewrite Hm1, lookup_insert_ne, lookup_delete_ne by done; done).
  pose proof (rename_spec new_store store m1 s' Hn1 Hap) as Hr. unfold holds in Hr.
  destruct (rename new_store store m1) as [[[]|e| |] m2].
  - destruct Hr as [Hm2 _]. apply holds_bind, holds_mtry. unfold remove_dir_all, mwrite, mcall.
    assert (Hgoal : stores m2 !! store = Some s') by (by rewrite Hm2, lookup_insert_eq).
    destruct (default None _); [exact Hgoal|]. unfold holds, mret, ST_ret. cbn. by rewrite lookup_delete_ne.
  - assert (Hb : stores m2 !! backup = Some (others s)) by (by rewrite Hr, Hm1, lookup_insert_eq).
    apply holds_bind, holds_mtry. pose proof (rename_spec backup store m2 (others s) Hb Hbp) as Hr2. unfold holds in Hr2.
    destruct (rename backup store m2) as [[[]|e'| |] m3]; unfold holds, throw.
    + destruct Hr2 as [Hm3 _]. right. left. by rewrite Hm3, lookup_insert_eq.
    + right. right. by rewrite Hr2.
    + right. right. by rewrite Hr2.
    + right. right. by rewrite Hr2.
  - right. right. by rewrite Hr, Hm1, lookup_insert_eq.
  - right. right. by rewrite Hr, Hm1, lookup_insert_eq.
Qed.

(** The fingerprint of a store, if it can be read. *)
Lemma fingerprint_spec x m : stores m !! store = Some x →
  holds (object_fingerprint store) m (λ f m', still m m' ∧ (m_faults m = [] → f = store_files x)) (λ _, False).
Proof.
  intros Hx. unfold object_fingerprint. apply holds_bind, holds_mtry. unfold mread, mcall, mret, ST_ret, holds.
  destruct (default None (head (m_faults m))) eqn:Hf.
  - split; [by apply still_pop|]. intros Hnil. by rewrite Hnil in Hf.
  - split; [by apply still_pop|]. intros _. cbn. by rewrite Hx.
Qed.

Lemma sized_list (sizes : gmap str Z) l acc sized :
  fold_out (λ l h, n ← ok_or (lit "no size for live file " ++ h) (sizes !! h); mret (l ++ [(h, n)])) acc l = Ok sized →
  ∀ h, h ∈ l ∨ (∃ n, (h, n) ∈ acc) → ∃ n, (h, n) ∈ sized.
Proof.
  revert acc. induction l as [|x l IH]; intros acc Hf h Hh; cbn [fold_out] in Hf.
  - injection Hf as <-. destruct Hh as [Hh|Hh]; [by apply not_elem_of_nil in Hh|done].
  - destruct (sizes !! x) as [n|]; [|done]. cbn in Hf. apply (IH _ Hf). destruct Hh as [[->|Hh]%elem_of_cons|[k Hk]]; [right|by left|right].
    + exists n. apply elem_of_app. right. by left.
    + exists k. apply elem_of_app. by left.
Qed.

(** What the store is after a compaction that came to its end. *)
Definition compacted_to (live : gset str) (calm : Prop) (s' : Store) : Prop :=
  (∀ h, h ∈ live → ∃ n, rebuilt (st_objects s') h n) ∧
  (∀ name b, registry_file (others s) name = Some b → registry_file s' name = Some b) ∧
  (calm → store_files (others s) = store_files s).

Lemma compact_spec repos live m : readable m → stores m !! store = Some s →
  holds (compact others pid store repos live) m
    (λ _ m', ∃ s', stores m' !! store = Some s' ∧ compacted_to live (m_faults m = []) s') kept.
Proof.
  intros Hr Hs. destruct apart as (Hap & Hbp & Hnb).
  assert (Hkeep : ∀ m', beside m m' → kept m') by (intros m' Hb; left; by rewrite (be_stores _ _ Hb)).
  unfold compact, because. fold new_store backup. apply holds_bind. eapply holds_mono; [by apply sizes_found| |intros m' ->; by apply Hkeep].
  intros sizes m1 [-> Hsizes]. apply holds_bind. eapply holds_mono; [by apply (fingerprint_spec s)| |done].
  intros before m1 [Hst1 Hbefore]. apply still_beside in Hst1. apply holds_bind, holds_map_err, holds_lift; [|by apply Hkeep]. intros [] _.
  apply holds_bind, holds_map_err, holds_mwrite; [apply Hkeep; by etrans; [|apply beside_pop]|].
  set (m2 := set_stores _ _). assert (Hb2 : beside m m2).
  { etrans; [exact Hst1|]. etrans; [apply beside_pop|]. apply (beside_set (m_pop m1) (λ st, <[new_store := _]> st)).
    intros p Hp. by rewrite lookup_insert_ne. }
  assert (Hn2 : is_Some (stores m2 !! new_store)) by (cbn; rewrite lookup_insert_eq; eauto).
  assert (Hs2 : stores m2 !! store = Some s) by (by rewrite (be_stores _ _ Hb2)).
  do 2 (apply holds_bind, holds_map_err, holds_lift; [|by apply Hkeep]; intros [] _).
  apply holds_bind, holds_lift; [|by apply Hkeep]. intros sized Hsized. apply holds_bind.
  eapply holds_mono; [by apply rebuild_spec| |intros m' Hb; apply Hkeep; by etrans].
  intros [] m3 (Hb3 & s1 & Hs1 & Hbuilt). assert (Hb : beside m m3) by (by etrans).
  apply holds_bind. unfold holds at 1. cbn [modify]. set (m4 := set_stores _ m3).
  assert (Hs4 : stores m4 !! store = Some (others s)) by (cbn; by rewrite lookup_alter_eq, (be_stores _ _ Hb), Hs).
  assert (Hn4 : stores m4 !! new_store = Some s1) by (cbn; by rewrite lookup_alter_ne).
  assert (Hkeep4 : ∀ m', beside m4 m' → kept m') by (intros m' Hb'; right; left; by rewrite (be_stores _ _ Hb')).
  apply holds_bind. eapply holds_mono; [by apply (fingerprint_spec (others s))| |done].
  intros after m5 [Hst5' Hafter]. pose proof (still_beside _ _ Hst5') as Hst5. case_bool_decide as Hsame; cbn [negb].
  2: { apply holds_bind, holds_mtry. unfold remove_dir_all, mwrite, mcall. assert (Hm : beside m4 (m_pop m5)) by (by etrans; [|apply beside_pop]).
       destruct (default None _); [by apply Hkeep4|]. unfold holds, throw. apply Hkeep4. etrans; [exact Hm|].
       apply (beside_set (m_pop m5) (delete new_store)). intros p Hp. by rewrite lookup_delete_ne. }
  assert (Hs5 : stores m5 !! store = Some (others s)) by (by rewrite (be_stores _ _ Hst5)).
  assert (Hn5 : stores m5 !! new_store = Some s1) by (by rewrite (still_stores _ _ Hst5')).
  apply holds_bind, holds_mtry. pose proof (copy_spec (others s) s1 m5 Hs5 Hn5) as Hcopy. unfold holds in Hcopy.
  destruct (copy_registry store new_store m5) as [[[]|e| |] m6].
  - destruct Hcopy as (Hb6 & s' & Hs' & Ho & Hreg).
    cbv beta iota. eapply holds_mono; [apply (swap_spec s'); [by rewrite (be_stores _ _ Hb6)|done]| |intros m' Hk; exact Hk]. intros [] m7 Hm7. exists s'. split; [done|]. split_and!.
    + intros h Hh. destruct (sized_list _ _ _ _ Hsized h) as [n Hn]; [left; by apply sort_names_elem, elem_of_elements|].
      exists n. rewrite Ho. by apply Hbuilt.
    + done.
    + intros Hcalm. rewrite <-Hafter by (by apply (be_calm _ _ Hb)). by rewrite <-Hsame, Hbefore.
  - apply holds_bind, holds_mtry. unfold remove_dir_all, mwrite, mcall. assert (Hm : beside m4 m6) by (by etrans).
    assert (Hm' : beside m4 (m_pop m6)) by (by etrans; [|apply beside_pop]).
    destruct (default None _); [by apply Hkeep4|]. unfold holds, throw. apply Hkeep4. etrans; [exact Hm'|].
    apply (beside_set (m_pop m6) (delete new_store)). intros p Hp. by rewrite lookup_delete_ne.
  - apply Hkeep4. by etrans.
  - apply Hkeep4. by etrans.
Qed.
End compaction.

(** ** The command *)
Section command.
Context {C : Crates} {G : GitObjects} {S : LocalSessions} {L : LocalSessionLaws}.
#[local] Set Default Proof Using "All".

(** C8. Pruning a shared store loses nothing that is needed, provided that the
    marker lists of the registered repositories can be read ([readable]): any other
    call may fail, and others may change the store meanwhile.  When it answers
    without an error the store is untouched, or it was compacted: every staged
    file that the index or a ref of a registered repository reaches, one that opens
    and whose walks can be set up ([needs]), is rebuilt, byte for byte what the old
    store reconstructed; the registrations are all carried over; and no object was
    added meanwhile (if no call failed).  On an error the old store is in place,
    with what others added to it, or it is aside, whole, under its backup name.
    (A failing list of markers and a repository that does not open do lose files:
    the examples show it.) *)
Theorem prune_keeps_needed (others : Store → Store) (force : bool) (pid : Z) (raw : RawConfig) (store : str) (s : Store) (m : Machine) :
  0 ≤ pid → object_store_root raw = Ok store → stores m !! store = Some s → readable m →
  let '(o, m') := prune others force pid (Ok raw) m in
  if is_ok o then
    stores m' !! store = Some s ∨
    ∃ s', stores m' !! store = Some s' ∧
      (∀ g h, registered_in s g → needs m g h → ∃ n, rebuilt s (st_objects s') h n) ∧
      (∀ name b, registry_file (others s) name = Some b → registry_file s' name = Some b) ∧
      (m_faults m = [] → store_files (others s) = store_files s)
  else kept others pid store s m'.
Proof.
  intros Hpid Hroot Hs Hr.
  assert (Hall : holds (prune others force pid (Ok raw)) m (λ _ m', stores m' !! store = Some s ∨
    ∃ s', stores m' !! store = Some s' ∧ (∀ g h, registered_in s g → needs m g h → ∃ n, rebuilt s (st_objects s') h n) ∧
      (∀ name b, registry_file (others s) name = Some b → registry_file s' name = Some b) ∧
      (m_faults m = [] → store_files (others s) = store_files s)) (kept others pid store s)).
  2: { unfold holds in Hall. by destruct (prune others force pid (Ok raw) m) as [[[]|e| |] m']. }
  unfold prune. apply holds_bind. unfold holds at 1. cbn [lift]. destruct (negb _ || negb _); [by left|].
  apply holds_bind, holds_lift; [|by left]. intros store' Hst. assert (store' = store) as -> by congruence.
  assert (Hkept : ∀ m', still m m' → kept others pid store s m') by (intros m' Hm; left; by rewrite (still_stores _ _ Hm)).
  unfold because. apply holds_bind, holds_map_err.
  do 2 (apply holds_bind, holds_mwrite; [apply Hkept; by repeat apply still_pop|]; unfold id at 1).
  apply holds_mwrite; [apply Hkept; by repeat apply still_pop|]. unfold id at 1.
  set (m1 := m_pop (m_pop (m_pop m))). assert (Hm1 : still m m1) by (by repeat apply still_pop).
  apply holds_bind. eapply holds_mono; [apply (repos_listed store s); by rewrite (still_stores _ _ Hm1)| |intros m' Hm'; apply Hkept; by etrans].
  intros repos m2 [Hm2 Hrepos]. assert (Hm : still m m2) by by etrans. destruct repos as [|g0 repos']; [by apply Hkept|].
  generalize dependent (g0 :: repos'). clear g0 repos'. intros repos Hrepos.
  assert (Hr2 : readable m2) by (intros g gd; rewrite (still_gits _ _ Hm); apply Hr).
  apply holds_bind. eapply holds_mono; [apply (live_found force repos m2 Hr2)| |intros m' ->; by apply Hkept].
  intros [live want] m3 (-> & _ & Hneed). cbn [fst] in Hneed. destruct (_ =? 0)%nat; [left; by rewrite (still_stores _ _ Hm)|].
  eapply holds_mono; [apply (compact_spec others pid store s Hpid repos live m2 Hr2); by rewrite (still_stores _ _ Hm)| |done].
  intros [] m4 (s' & Hs' & Hb & Hreg & Hfp). right. exists s'. split_and!; [done| |done|].
  - intros g h Hg Hn. apply Hb, (Hneed g h); [by apply Hrepos|]. unfold needs in *. by rewrite (still_gits _ _ Hm).
  - intros Hcalm. by apply Hfp, (still_calm _ _ Hm).
Qed.

End command.
