(* ===== verification/PruneToy.v ===== *)
(** * A shared store that is pruned *)

From stdpp Require Import gmap list.
From S2P Require Import Prelude RustStd Pktline CleanCache Config Repo Filter FilterToy Gc GcSpec GcToy Prune PruneSpec.

(** A session counts what it cleaned: there is one content. *)
#[export] Instance toy_local_sessions : LocalSessions := {|
  LocalUpload := nat;
  local_config _ := Ok tt;
  local_download_new := Ok tt;
  local_upload_new := Ok O;
  local_clean u c := if decide (c = toy_content) then (Ok tt, S u) else (Err (lit "full"), u);
  local_finalize u o := (Ok tt, match u with O => o | S _ => <[lit "k" := toy_content]> o end);
  xet_runtime := Ok tt;
  canonicalize p := Some p;
|}.

#[export] Instance toy_local_session_laws : LocalSessionLaws.
Proof.
  refine {| cleaned := λ (u : LocalUpload) h c, (u : nat) ≠ O ∧ c = toy_content |}; cbn.
  - intros u c info u'. destruct (decide _) as [->|]; [|done]. intros [= _ <-]. by split.
  - intros u c h b [Hu ->]. by destruct (decide _).
  - intros u o o' h c n old [= <-] [Hu ->]. unfold toy_download. destruct (decide (old !! _ = _ ∧ n = 2)) as [[_ ->]|]; [|done].
    intros _. rewrite decide_True; [done|]. split; [|done]. destruct u; [done|]. by rewrite lookup_insert_eq.
Defined.

Definition toy_shared : RawConfig := mkRawConfig None None None (lit "cache") (Some (lit "/g/.git")) true (Some (lit "/s/store")) true None.
Definition toy_other : str := replicate 64 x62.
Definition toy_markers (hs : list str) : gmap str marker := list_to_map ((λ h, (h, mkMarker (lit "2") 0)) <$> hs).
Definition toy_store : Store := mkStore {[ lit "k" := toy_content; lit "default.x" := [] ]}
  (Some {[ lit "a" := lit "/g/.git"; lit "b" := lit "/h/.git" ]}).
(** Two repositories: the first has a commit that points to the file, and so has
    the second; a marker of the first is dead. *)
Definition toy_machine (git_h : option GitRepo) (faults_h : list (option str)) : Machine := mkMachine
  {[ lit "/s/store" := toy_store ]}
  {[ lit "/g/.git" := mkGitDir (mkRepo (toy_markers [toy_other]) ∅ ∅ ∅ None true 0 []) (Some toy_git);
     lit "/h/.git" := mkGitDir (mkRepo (toy_markers [toy_hash_name]) ∅ ∅ ∅ None true 0 faults_h) git_h ]} [].
Definition pruned (git_h : option GitRepo) (faults_h : list (option str)) : outcome str unit * option Store :=
  let '(o, m') := prune id false 7 (Ok toy_shared) (toy_machine git_h faults_h) in (o, stores m' !! lit "/s/store").

(** What the store gives of the file. *)
Definition gives (p : outcome str unit * option Store) : bool * option (outcome str unit * bytes) :=
  (is_ok p.1, (λ s, xet_download (st_objects s) (info_new toy_hash_name 2) 2) <$> p.2).

Lemma toy_needs : needs (toy_machine (Some toy_git) []) (lit "/h/.git") toy_hash_name.
Proof.
  exists (mkGitDir (mkRepo (toy_markers [toy_hash_name]) ∅ ∅ ∅ None true 0 []) (Some toy_git)), toy_git, toy_git_laws.
  split_and!; [reflexivity|reflexivity| |vm_compute; reflexivity|by exists (mkMarker (lit "2") 0)|].
  - intros tips hidden. by eexists.
  - exact toy_needed.
Qed.

Lemma prune_keeps_needed_witness :
  ∃ s', pruned (Some toy_git) [] = (Ok tt, Some s') ∧
    (stores (toy_machine (Some toy_git) []) !! lit "/s/store" = Some s' ∨ ∃ n, rebuilt toy_store (st_objects s') toy_hash_name n).
Proof.
  pose proof (prune_keeps_needed id false 7 toy_shared (lit "/s/store") toy_store (toy_machine (Some toy_git) []) ltac:(lia) eq_refl eq_refl) as H.
  assert (Hr : readable (toy_machine (Some toy_git) [])).
  { intros g gd Hg. cbn in Hg. apply lookup_insert_Some in Hg as [[_ <-]|[_ Hg]]; [done|]. apply lookup_singleton_Some in Hg as [_ <-]. done. }
  specialize (H Hr). unfold pruned.
  assert (Hok : is_ok (prune id false 7 (Ok toy_shared) (toy_machine (Some toy_git) [])).1 = true) by (vm_compute; reflexivity).
  destruct (prune _ _ _ _ _) as [[[]|e| |] m']; try discriminate Hok. clear Hok. cbn [is_ok] in H. destruct H as [H|(s' & Hs' & Hneed & _)].
  - exists toy_store. rewrite H. split; [reflexivity|]. left. reflexivity.
  - exists s'. rewrite Hs'. split; [reflexivity|]. right. apply (Hneed (lit "/h/.git")); [|exact toy_needs].
    exists (lit "b"), (lit "/h/.git"). split_and!; [vm_compute; reflexivity..|done].
Defined.

(** Both repositories are read: the file is rebuilt. *)
Example pruned_keeps_file : gives (pruned (Some toy_git) []) = (true, Some (Ok tt, toy_content)).
Proof. vm_compute. reflexivity. Qed.
(** A repository that cannot be opened counts as one without refs, and its
    files are dropped. *)
Example unopened_repository_loses_files : gives (pruned None []) = (true, Some (Err (lit "missing"), [])).
Proof. vm_compute. reflexivity. Qed.
(** So do they when its markers cannot be listed. *)
Example unlisted_markers_lose_files : gives (pruned (Some toy_git) [Some (lit "Too many open files")]) = (true, Some (Err (lit "missing"), [])).
Proof. vm_compute. reflexivity. Qed.
