(* ===== verification/Vfs.v ===== *)
(** * The read-only tree of a mount

    [crates/git-bale/src/mount/{diff, vfs, mod}.rs] and the path walk of
    [mount/backend/mod.rs]: the changed files of two commits, the tree built from
    them, the tree of one revision read directory by directory, and what the
    backends ask of either.  Trees, diffs and names are gix's. *)

From stdpp Require Import gmap list sorting.
From S2P Require Import Prelude RustStd RustText Repo.

(** ** What gix provides *)

Inductive EntryMode := ModeTree | ModeBlob | ModeOther.
Definition is_tree (m : EntryMode) : bool := match m with ModeTree => true | _ => false end.
Definition is_blob (m : EntryMode) : bool := match m with ModeBlob => true | _ => false end.

Record TreeEntry (O : Type) := mkTreeEntry { te_filename : bytes; te_mode : EntryMode; te_oid : O }.
Arguments mkTreeEntry {O}. Arguments te_filename {O}. Arguments te_mode {O}. Arguments te_oid {O}.

Inductive Change (O : Type) :=
  | Addition (location : bytes) (id : O) (entry_mode : EntryMode)
  | Deletion (location : bytes) (id : O) (entry_mode : EntryMode)
  | Modification (location : bytes) (previous_id id : O) (previous_entry_mode entry_mode : EntryMode)
  | Rewrite (source location : bytes).
Arguments Addition {O}. Arguments Deletion {O}. Arguments Modification {O}. Arguments Rewrite {O}.

Class GitTrees := {
  ObjectId : Type;
  ObjectId_eq_dec :: EqDecision ObjectId;
  oid_hex : ObjectId → str;
  (** [to_string] and [to_str_lossy] of a [BStr]. *)
  bstr_string : bytes → str;
  (** [find_object] and [into_tree], then the entries as they decode. *)
  find_tree : ObjectId → outcome str (list (outcome str (TreeEntry ObjectId)));
  (** The commit and the tree a revision names. *)
  rev_parse_commit : str → outcome str str;
  resolve_tree : str → outcome str ObjectId;
  (** The changes between two trees, without the tracking of renames. *)
  tree_changes : ObjectId → ObjectId → outcome str (list (Change ObjectId));
  (** The configuration and the reader of blobs start. *)
  start_reader : outcome str unit;
}.

(** ** The changed files of two commits *)

Inductive DiffStatus := Added | Deleted | Modified | OtherStatus.
Record DiffEntry := mkDiffEntry {
  path_a : option str; path_b : option str; oid_a : option str; oid_b : option str; status : DiffStatus }.

(** Literal prefixes of raw paths. *)
Definition bstr_path_matches (location : bytes) (filters : list str) : bool :=
  existsb (λ f, let f := trim_end_matches f x2f in
    match f with
    | [] => true
    | _ => bool_decide (location = f) ||
           ((length f <? length location)%nat && starts_with location f && bool_decide (location !! length f = Some x2f))
    end) filters.

Section diff.
Context {G : GitTrees}.

Definition change_in_pathspec (change : Change ObjectId) (filters : list str) : bool :=
  match filters with
  | [] => true
  | _ => match change with
         | Addition location _ _ | Deletion location _ _ | Modification location _ _ _ _ => bstr_path_matches location filters
         | Rewrite _ _ => false
         end
  end.

Definition change_to_entry (change : Change ObjectId) : option DiffEntry :=
  match change with
  | Addition location id mode =>
      if negb (is_blob mode) then None
      else Some (mkDiffEntry None (Some (bstr_string location)) None (Some (oid_hex id)) Added)
  | Deletion location id mode =>
      if negb (is_blob mode) then None
      else Some (mkDiffEntry (Some (bstr_string location)) None (Some (oid_hex id)) None Deleted)
  | Modification location previous_id id previous_mode mode =>
      if negb (is_blob mode) && negb (is_blob previous_mode) then None
      else if bool_decide (previous_id = id) then None
      else Some (mkDiffEntry (Some (bstr_string location)) (Some (bstr_string location))
                             (Some (oid_hex previous_id)) (Some (oid_hex id)) Modified)
  | Rewrite _ _ => None
  end.

Definition ensure_distinct_commits (rev_a rev_b : str) : outcome str unit :=
  a ← rev_parse_commit rev_a;
  b ← rev_parse_commit rev_b;
  if decide (a = b) then Err (rev_a ++ lit " and " ++ rev_b ++ lit " both resolve to " ++ a) else mret tt.

Definition run_diff (rev_a rev_b : str) (paths : list str) : outcome str (list DiffEntry) :=
  tree_a ← resolve_tree rev_a;
  tree_b ← resolve_tree rev_b;
  changes ← tree_changes tree_a tree_b;
  mret (omap (M:=list) (λ c, if change_in_pathspec c paths then change_to_entry c else None) changes).
End diff.

(** ** The state of a mount *)

Definition ROOT_INODE : Z := 1.
Record BlobSource := mkBlobSource { oid : str }.
Inductive NodeKind := Dir | File (size : Z) (source : BlobSource).
Record Node := mkNode { inode : Z; kind : NodeKind }.

Section vfs.
Context {G : GitTrees}.

Record LazyDir := mkLazyDir { tree_oid : ObjectId; path_prefix : str }.
Record DirState := mkDirState { children : gmap str Z; lazy : option LazyDir }.
Record VfsState := mkVfs { nodes : gmap Z Node; dirs : gmap Z DirState; next_inode : Z }.

Abbreviation V := (ST VfsState str).

Definition empty_state : VfsState := mkVfs ∅ ∅ (ROOT_INODE + 1).
Definition insert_node (i : Z) (k : NodeKind) (s : VfsState) : VfsState :=
  mkVfs (<[i := mkNode i k]> (nodes s)) (dirs s) (next_inode s).
Definition insert_dir (i : Z) (d : DirState) (s : VfsState) : VfsState :=
  mkVfs (nodes s) (<[i := d]> (dirs s)) (next_inode s).
Definition add_eager_root (s : VfsState) : VfsState :=
  insert_dir ROOT_INODE (mkDirState ∅ None) (insert_node ROOT_INODE Dir s).

Definition alloc_inode : V Z := λ s, (Ok (next_inode s), mkVfs (nodes s) (dirs s) (as_u64 (next_inode s + 1))).

(** [dirs.get_mut(&parent).expect("parent dir exists")]. *)
Definition with_dir (parent : Z) (f : DirState → DirState) : V unit := λ s,
  match dirs s !! parent with
  | Some d => (Ok tt, insert_dir parent (f d) s)
  | None => (Panic, s)
  end.
Definition add_child (parent : Z) (name : str) (i : Z) : V unit :=
  with_dir parent (λ d, mkDirState (<[name := i]> (children d)) (lazy d)).

Definition child_inode (s : VfsState) (parent : Z) (name : str) : option Z :=
  d ← dirs s !! parent; children d !! name.

Definition existing_dir (s : VfsState) (parent : Z) (name : str) : option Z :=
  i ← child_inode s parent name; n ← nodes s !! i;
  match kind n with Dir => Some i | File _ _ => None end.

Definition ensure_dir (parent : Z) (name : str) : V Z :=
  existing ← gets (λ s, existing_dir s parent name);
  match existing with
  | Some i => mret i
  | None =>
      i ← alloc_inode;
      _ ← modify (insert_node i Dir);
      _ ← modify (insert_dir i (mkDirState ∅ None));
      _ ← add_child parent name i;
      mret i
  end.

(** [foo.tar.gz] and [main] give [foo.tar__main.gz]; a dot in front is no extension. *)
Definition label_filename (name label : str) : str :=
  match rsplit_once name x2e with
  | Some ((_ :: _) as stem, ext) => stem ++ lit "__" ++ label ++ [x2e] ++ ext
  | _ => name ++ lit "__" ++ label
  end.

(** [path.split('/').filter(|c| !c.is_empty())]. *)
Definition components (path : str) : list str := List.filter (λ c, match c with [] => false | _ => true end) (split_char x2f path).

Definition eager_insert (path oid : str) (label : option str) : V unit :=
  match last (components path) with
  | None => mret tt
  | Some file_component =>
      parent ← fold_st ensure_dir ROOT_INODE (removelast (components path));
      let final_name := match label with Some l => label_filename file_component l | None => file_component end in
      taken ← gets (λ s, bool_decide (is_Some (child_inode s parent final_name)));
      if taken : bool then mret tt
      else
        i ← alloc_inode;
        _ ← modify (insert_node i (File u64_max (mkBlobSource oid)));
        add_child parent final_name i
  end.

Definition insert_side (path oid : option str) (label : str) : V unit :=
  match path, oid with
  | Some p, Some o => eager_insert p o (Some label)
  | _, _ => mret tt
  end.

Definition build (entries : list DiffEntry) (label_a label_b : str) : outcome str VfsState :=
  match for_each (λ entry, _ ← insert_side (path_a entry) (oid_a entry) label_a;
                           insert_side (path_b entry) (oid_b entry) label_b) entries (add_eager_root empty_state) with
  | (Ok _, s) => Ok s
  | (Err e, _) => Err e
  | (Panic, _) => Panic
  | (Diverged, _) => Diverged
  end.

(** ** Directories read from git *)

Definition pathspec_matches_file (path : str) (filters : list str) : bool :=
  match filters with
  | [] => true
  | _ => existsb (λ f, let f := trim_end_matches f x2f in bool_decide (path = f) || starts_with path (f ++ [x2f])) filters
  end.
Definition pathspec_intersects_dir (path : str) (filters : list str) : bool :=
  match filters with
  | [] => true
  | _ => existsb (λ f, let f := trim_end_matches f x2f in
           bool_decide (path = f) || starts_with path (f ++ [x2f]) || starts_with f (path ++ [x2f])) filters
  end.

Inductive PendingKind := PendingDir (tree_oid : ObjectId) (full_path : str) | PendingFile (oid_hex : str).
Record PendingChild := mkPending { pending_name : str; pending_kind : PendingKind }.

Definition join_path (prefix name : str) : str := match prefix with [] => name | _ => prefix ++ [x2f] ++ name end.

Definition pending_of (prefix : str) (pathspec : list str) (e : TreeEntry ObjectId) : option PendingChild :=
  let name := bstr_string (te_filename e) in
  let full_path := join_path prefix name in
  if is_tree (te_mode e) then
    if pathspec_intersects_dir full_path pathspec then Some (mkPending name (PendingDir (te_oid e) full_path)) else None
  else if is_blob (te_mode e) then
    if pathspec_matches_file full_path pathspec then Some (mkPending name (PendingFile (oid_hex (te_oid e)))) else None
  else None.

Definition collect_pending (prefix : str) (pathspec : list str) (entries : list (outcome str (TreeEntry ObjectId))) : outcome str (list PendingChild) :=
  fold_out (λ pending entry, e ← entry; mret (pending ++ option_list (pending_of prefix pathspec e))) [] entries.

Definition insert_pending (parent : Z) (p : PendingChild) : V unit :=
  i ← alloc_inode;
  _ ← match pending_kind p with
      | PendingDir o full_path =>
          _ ← modify (insert_node i Dir);
          modify (insert_dir i (mkDirState ∅ (Some (mkLazyDir o full_path))))
      | PendingFile hex => modify (insert_node i (File u64_max (mkBlobSource hex)))
      end;
  add_child parent (pending_name p) i.

(** A mounted tree, and what the next reads of the object database report. *)
Record DiffVfs := mkDiffVfs { state : VfsState; pathspec : option (list str); odb_faults : list (option str) }.
Definition set_state s (v : DiffVfs) := mkDiffVfs s (pathspec v) (odb_faults v).

Abbreviation M := (ST DiffVfs str).
Definition on_state {A} (m : V A) : M A := zoom state set_state m.
Definition read_tree (o : ObjectId) : M (list (outcome str (TreeEntry ObjectId))) := λ v,
  let v' := mkDiffVfs (state v) (pathspec v) (tail (odb_faults v)) in
  match default None (head (odb_faults v)) with
  | Some e => (Err e, v')
  | None => (find_tree o, v')
  end.

Definition lazy_of (s : VfsState) (parent : Z) : option LazyDir := d ← dirs s !! parent; lazy d.

Definition populate_dir_locked (parent : Z) (filters : list str) : M unit :=
  dir ← gets (λ v, lazy_of (state v) parent);
  match dir with
  | None => mret tt
  | Some l =>
      entries ← read_tree (tree_oid l);
      pending ← lift (collect_pending (path_prefix l) filters entries);
      _ ← on_state (for_each (insert_pending parent) pending);
      on_state (with_dir parent (λ d, mkDirState (children d) None))
  end.

(** A tree that cannot be read is not read again. *)
Definition populate_if_lazy (parent : Z) : M unit := λ v,
  match pathspec v with
  | None => (Ok tt, v)
  | Some filters =>
      match lazy_of (state v) parent with
      | None => (Ok tt, v)
      | Some _ =>
          match populate_dir_locked parent filters v with
          | (Err _, v') =>
              (Ok tt, match dirs (state v') !! parent with
                      | Some d => set_state (insert_dir parent (mkDirState (children d) None) (state v')) v'
                      | None => v'
                      end)
          | r => r
          end
      end
  end.

Definition build_single_lazy (root_tree : ObjectId) (filters : list str) (faults : list (option str)) : DiffVfs :=
  mkDiffVfs (insert_dir ROOT_INODE (mkDirState ∅ (Some (mkLazyDir root_tree []))) (insert_node ROOT_INODE Dir empty_state))
    (Some filters) faults.

(** ** What the backends ask *)

Definition lookup_by_inode (i : Z) : M (option Node) := gets (λ v, nodes (state v) !! i).

Definition lookup_child (parent : Z) (name : str) : M (option Node) :=
  _ ← populate_if_lazy parent;
  gets (λ v, i ← child_inode (state v) parent name; nodes (state v) !! i).

(** Sorted by name; the order of the map is not observable. *)
Definition readdir (parent : Z) : M (option (list (str * Node))) :=
  _ ← populate_if_lazy parent;
  gets (λ v, d ← dirs (state v) !! parent;
    Some (merge_sort (λ a b, Is_true (str_le a.1 b.1))
      (omap (λ e, n ← nodes (state v) !! e.2; Some (e.1, n)) (map_to_list (children d))))).

Definition walk_step (current : option Node) (component : str) : M (option Node) :=
  match current with Some n => lookup_child (inode n) component | None => mret None end.
Definition lookup_path (path : str) : M (option Node) :=
  root ← lookup_by_inode ROOT_INODE;
  fold_st walk_step root (components path).

(** The answer to [op_readdir], without the two dots: no such file, no directory, or its entries. *)
Inductive Listing := NoEntry | NotDir | Entries (l : list (str * Node)).
Definition op_readdir (path : str) : M Listing :=
  node ← lookup_path path;
  match node with
  | None => mret NoEntry
  | Some n =>
      match kind n with
      | File _ _ => mret NotDir
      | Dir => l ← readdir (inode n); mret (Entries (default [] l))
      end
  end.

(** ** The commands *)

Inductive MountError := Failed (m : str) | NoneDiffer (rev_a rev_b : str) (paths : list str) | LabelsEqual (label : str)
  | NoFiles (rev : str) (paths : list str).

(** One [_] per character that is not kept; only the first byte of a character counts. *)
Definition sanitize_label (rev : str) : str :=
  let keep (c : byte) := is_digit c || in_range c 65 90 || in_range c 97 122 || bool_decide (c ∈ [x5f; x2d; x2e]) in
  let out := omap (λ c, if cont c then None else Some (if keep c then c else x5f)) rev in
  match out with [] => lit "rev" | _ => out end.

Record MountDiffArgs := mkDiffArgs { rev_a : str; rev_b : str; label_a : option str; label_b : option str; paths : list str }.

(** [run], until the backend takes over. *)
Definition mount_diff (args : MountDiffArgs) : outcome MountError VfsState :=
  _ ← map_err Failed (ensure_distinct_commits (rev_a args) (rev_b args));
  entries ← map_err Failed (run_diff (rev_a args) (rev_b args) (paths args));
  _ ← match entries with [] => Err (NoneDiffer (rev_a args) (rev_b args) (paths args)) | _ => mret tt end;
  let a := default (sanitize_label (rev_a args)) (label_a args) in
  let b := default (sanitize_label (rev_b args)) (label_b args) in
  _ ← (if decide (a = b) then Err (LabelsEqual a) else mret tt);
  _ ← map_err Failed start_reader;
  map_err Failed (build entries a b).

(** [run_rev], until the backend takes over: an empty root is an error. *)
Definition mount_rev (rev : str) (filters : list str) (faults : list (option str)) : outcome MountError DiffVfs :=
  tree ← map_err Failed (resolve_tree rev);
  _ ← map_err Failed start_reader;
  match readdir ROOT_INODE (build_single_lazy tree filters faults) with
  | (Ok l, v) => match default [] l with [] => Err (NoFiles rev filters) | _ => mret v end
  | (Err e, _) => Err (Failed e)
  | (Panic, _) => Panic
  | (Diverged, _) => Diverged
  end.
End vfs.
