(* ===== verification/VfsTree.v ===== *)
(** * The shape of a mounted tree

    The invariant that the two ways of building a mounted tree share: inodes
    stand for distinct paths, every path but the root's is an entry of its
    parent, and a node shows what a specification says of its path. *)

From stdpp Require Import gmap list sorting.
From S2P Require Import Prelude RustStd Repo Vfs.

(** A directory shows [None], a file its object. *)
Definition view (k : NodeKind) : option str := match k with Dir => None | File _ s => Some (oid s) end.

Section tree.
Context {G : GitTrees}.

(** The state once the next inode is a child of [parent]; a new directory comes
    with its own entries. *)
Definition with_child (parent : Z) (d : DirState) (name : str) (k : NodeKind) (own : option DirState) (s : VfsState) : VfsState :=
  let i := next_inode s in
  mkVfs (<[i := mkNode i k]> (nodes s))
    (<[parent := mkDirState (<[name := i]> (children d)) (lazy d)]> (from_option (λ d', <[i := d']> (dirs s)) (dirs s) own))
    (as_u64 (i + 1)).

Lemma with_child_dirs parent d name k own s j d' : dirs s !! next_inode s = None →
  dirs (with_child parent d name k own s) !! j = Some d' →
  (j = parent ∧ d' = mkDirState (<[name := next_inode s]> (children d)) (lazy d)) ∨ (j = next_inode s ∧ j ≠ parent ∧ own = Some d') ∨
  (j ≠ next_inode s ∧ j ≠ parent ∧ dirs s !! j = Some d').
Proof.
  intros Hfresh H. unfold with_child in H. simpl in H. apply lookup_insert_Some in H as [[<- <-]|[Hj H]]; [by left|right].
  destruct own as [own|]; simpl in H; [apply lookup_insert_Some in H as [[<- <-]|[? H]]; eauto|].
  right. split; [|eauto]. intros ->. congruence.
Qed.

Lemma with_child_dirs_ne parent d name k own s j : j ≠ parent → j ≠ next_inode s →
  dirs (with_child parent d name k own s) !! j = dirs s !! j.
Proof. intros. unfold with_child. simpl. rewrite lookup_insert_ne by done. destruct own; simpl; [by rewrite lookup_insert_ne|done]. Qed.

Lemma with_child_next parent d name k own s : 1 ≤ next_inode s → next_inode s + 1 < 2 ^ 64 →
  next_inode (with_child parent d name k own s) = next_inode s + 1.
Proof. intros. unfold with_child, as_u64. simpl. apply Z.mod_small. lia. Qed.

(** [place]: the path an inode stands for; [V]: what is at a path. *)
Record Tree (V : list str → option (option str)) (s : VfsState) (place : gmap Z (list str)) : Prop := {
  t_root : place !! ROOT_INODE = Some [];
  t_inj i j c : place !! i = Some c → place !! j = Some c → i = j;
  t_node i c : place !! i = Some c → 1 ≤ i < next_inode s ∧ ∃ k, nodes s !! i = Some (mkNode i k) ∧ V c = Some (view k);
  t_dir i d : dirs s !! i = Some d → ∃ c, place !! i = Some c ∧ V c = Some None;
  t_isdir i c : place !! i = Some c → V c = Some None → is_Some (dirs s !! i);
  t_child i d c name j : dirs s !! i = Some d → place !! i = Some c → children d !! name = Some j → place !! j = Some (c ++ [name]);
  t_parent j c name : place !! j = Some (c ++ [name]) → ∃ i d, place !! i = Some c ∧ dirs s !! i = Some d ∧ children d !! name = Some j;
}.

Context (V : list str → option (option str)).

Lemma tree_fresh s place : Tree V s place → place !! next_inode s = None ∧ dirs s !! next_inode s = None ∧ 1 < next_inode s.
Proof.
  intros HT. assert (place !! next_inode s = None) as Hfresh.
  { destruct (place !! next_inode s) as [c'|] eqn:H; [|done]. apply (t_node _ _ _ HT) in H as [? _]. lia. }
  split_and!; [done| |].
  - destruct (dirs s !! next_inode s) as [d'|] eqn:H; [|done]. apply (t_dir _ _ _ HT) in H as (? & ? & _). congruence.
  - pose proof (t_node _ _ _ HT _ _ (t_root _ _ _ HT)) as [? _]. unfold ROOT_INODE in *. lia.
Qed.

(** An entry that is not listed stands for no inode. *)
Lemma tree_absent s place parent d c name : Tree V s place → dirs s !! parent = Some d → place !! parent = Some c →
  children d !! name = None → ∀ j, place !! j ≠ Some (c ++ [name]).
Proof.
  intros HT Hd Hc Hfree j Hj. apply (t_parent _ _ _ HT) in Hj as (i' & d' & Hi' & Hd' & Hch).
  pose proof (t_inj _ _ _ HT _ _ _ Hi' Hc) as ->. congruence.
Qed.

Lemma tree_entry s place i d c name j : Tree V s place → dirs s !! i = Some d → place !! i = Some c → children d !! name = Some j →
  ∃ k, nodes s !! j = Some (mkNode j k) ∧ place !! j = Some (c ++ [name]) ∧ V (c ++ [name]) = Some (view k).
Proof.
  intros HT Hd Hc Hj. pose proof (t_child _ _ _ HT _ _ _ _ _ Hd Hc Hj) as Hp.
  destruct (t_node _ _ _ HT _ _ Hp) as (_ & k & ? & ?). eauto.
Qed.

(** Only the paths with an inode matter. *)
Lemma tree_ext (V' : list str → option (option str)) s place : (∀ i c, place !! i = Some c → V' c = V c) → Tree V s place → Tree V' s place.
Proof.
  intros Heq HT. split; try apply HT.
  - intros i c Hi. rewrite (Heq _ _ Hi). by apply HT.
  - intros i d Hd. destruct (t_dir _ _ _ HT _ _ Hd) as (c & Hc & ?). exists c. by rewrite (Heq _ _ Hc).
  - intros i c Hi. rewrite (Heq _ _ Hi). by apply HT.
Qed.

Definition own_ok (k : NodeKind) (own : option DirState) : Prop :=
  match k, own with Dir, Some d => children d = ∅ | File _ _, None => True | _, _ => False end.

Lemma own_children k d name j : own_ok k (Some d) → children d !! name ≠ Some j.
Proof. destruct k; [|done]. simpl. intros ->. done. Qed.

Lemma tree_add s place parent d c name k own : Tree V s place → dirs s !! parent = Some d → place !! parent = Some c →
  children d !! name = None → V (c ++ [name]) = Some (view k) → own_ok k own → next_inode s + 1 < 2 ^ 64 →
  Tree V (with_child parent d name k own s) (<[next_inode s := c ++ [name]]> place).
Proof.
  intros HT Hd Hc Hfree HV Hown Hmax. destruct (tree_fresh _ _ HT) as (Hfresh & Hdfresh & Hnext).
  pose proof (tree_absent _ _ _ _ _ _ HT Hd Hc Hfree) as Hnew.
  assert (Hne : parent ≠ next_inode s) by (intros ->; congruence).
  pose proof (λ j d', with_child_dirs parent d name k own s j d' Hdfresh) as Hdirs.
  assert (Hout : ∀ j c', place !! j = Some c' → j ≠ next_inode s) by (intros j c' ? ->; congruence).
  split.
  - rewrite lookup_insert_ne by (unfold ROOT_INODE; lia). apply HT.
  - intros a b c0 [[<- <-]|[? Ha]]%lookup_insert_Some [[<- Hb]|[? Hb]]%lookup_insert_Some; try done.
    + by destruct (Hnew b).
    + subst c0. by destruct (Hnew a).
    + by apply (t_inj _ _ _ HT _ _ c0).
  - intros a c0 Ha. rewrite with_child_next by lia. cbn [with_child nodes]. apply lookup_insert_Some in Ha as [[<- <-]|[Hai Ha]].
    + split; [lia|]. exists k. by rewrite lookup_insert_eq.
    + apply (t_node _ _ _ HT) in Ha as [? (k' & Hk & Hv)]. split; [lia|]. exists k'. by rewrite lookup_insert_ne by done.
  - intros a d' [[-> ->]|[(-> & _ & ->)|(Hai & Hap & Ha)]]%Hdirs.
    + destruct (t_dir _ _ _ HT _ _ Hd) as (c0 & ? & ?). exists c0. by rewrite lookup_insert_ne.
    + exists (c ++ [name]). rewrite lookup_insert_eq. by destruct k.
    + apply (t_dir _ _ _ HT) in Ha as (c0 & ? & ?). exists c0. by rewrite lookup_insert_ne.
  - intros a c0 Ha Hv. destruct (decide (a = parent)) as [->|Hap]; [unfold with_child; simpl; rewrite lookup_insert_eq; eauto|].
    apply lookup_insert_Some in Ha as [[<- <-]|[Hai Ha]]; [|rewrite with_child_dirs_ne by done; by apply (t_isdir _ _ _ HT) with c0].
    unfold with_child. simpl. rewrite lookup_insert_ne by done. destruct k, own; simpl in *; try done; [rewrite lookup_insert_eq; eauto|congruence].
  - intros a d' c0 n j [[-> ->]|[(-> & _ & ->)|(Hai & Hap & Ha)]]%Hdirs Hc0 Hj; [|by edestruct own_children|].
    + rewrite lookup_insert_ne in Hc0 by done. simplify_eq. simpl in Hj. apply lookup_insert_Some in Hj as [[<- <-]|[Hn Hj]].
      * by rewrite lookup_insert_eq.
      * pose proof (t_child _ _ _ HT _ _ _ _ _ Hd Hc Hj) as H. rewrite lookup_insert_ne; [done|]. intros <-. congruence.
    + rewrite lookup_insert_ne in Hc0 by done. pose proof (t_child _ _ _ HT _ _ _ _ _ Ha Hc0 Hj) as H.
      rewrite lookup_insert_ne; [done|]. intros <-. congruence.
  - intros j c0 n [[<- Hj]|[Hji Hj]]%lookup_insert_Some.
    + apply app_inj_tail in Hj as [<- <-]. exists parent. eexists. rewrite lookup_insert_ne by done. split; [done|].
      unfold with_child. simpl. rewrite lookup_insert_eq. split; [done|]. simpl. by rewrite lookup_insert_eq.
    + apply (t_parent _ _ _ HT) in Hj as (a & d' & Ha & Hd' & Hch). exists a. rewrite lookup_insert_ne by (symmetry; eauto).
      destruct (decide (a = parent)) as [->|Hap]; [|exists d'; rewrite with_child_dirs_ne by eauto; done].
      simplify_eq. unfold with_child. simpl. rewrite lookup_insert_eq. eexists. split; [done|]. split; [done|]. simpl.
      rewrite lookup_insert_ne; [done|]. intros <-. congruence.
Qed.

(** Nothing changes when a directory keeps its entries. *)
Lemma tree_same_children s place i d d' : Tree V s place → dirs s !! i = Some d → children d' = children d →
  Tree V (insert_dir i d' s) place.
Proof.
  intros HT Hd Hch. split; try apply HT; cbn [insert_dir dirs].
  - intros j d0 [[<- <-]|[? H]]%lookup_insert_Some; by eapply (t_dir _ _ _ HT).
  - intros j c Hj Hv. destruct (decide (i = j)) as [->|?]; [rewrite lookup_insert_eq; eauto|].
    rewrite lookup_insert_ne by done. by apply (t_isdir _ _ _ HT) with c.
  - intros j d0 c n k [[<- <-]|[? H]]%lookup_insert_Some; [rewrite Hch|]; by eapply (t_child _ _ _ HT).
  - intros j c n Hj. apply (t_parent _ _ _ HT) in Hj as (k & d0 & Hk & Hd0 & Hn). exists k.
    destruct (decide (i = k)) as [<-|?]; [|exists d0; by rewrite lookup_insert_ne].
    simplify_eq. exists d'. by rewrite lookup_insert_eq, Hch.
Qed.

(** A root without entries. *)
Lemma tree_start d : V [] = Some None → children d = ∅ →
  Tree V (insert_dir ROOT_INODE d (insert_node ROOT_INODE Dir empty_state)) {[ROOT_INODE := []]}.
Proof.
  intros HV Hd. split; cbn [insert_dir insert_node empty_state dirs nodes next_inode].
  - by rewrite lookup_singleton_eq.
  - intros i j c [<- _]%lookup_singleton_Some [<- _]%lookup_singleton_Some. done.
  - intros i c [<- <-]%lookup_singleton_Some. split; [done|]. exists Dir. by rewrite lookup_insert_eq.
  - intros i d' [[<- <-]|[_ H]]%lookup_insert_Some; [|done]. exists []. by rewrite lookup_singleton_eq.
  - intros i c [<- <-]%lookup_singleton_Some _. rewrite lookup_insert_eq. eauto.
  - intros i d' c name j [[<- <-]|[_ H]]%lookup_insert_Some _; [by rewrite Hd|done].
  - intros j c name [_ H]%lookup_singleton_Some. by destruct c.
Qed.
End tree.
