(* ===== verification/VfsServe.v ===== *)
(** * Sessions on a mounted tree

    Lookups and listings, and what they answer.  [Mounted] is what a way of
    building the tree promises: reading a directory keeps the shape of the tree
    and leaves the directory complete; every session is then answered correctly. *)

From stdpp Require Import gmap list sorting.
From S2P Require Import Prelude RustStd Repo Vfs VfsTree.

Lemma components_nonempty p : Forall (λ n, n ≠ []) (components p).
Proof. unfold components. apply Forall_forall. intros n [_ H]%list_elem_of_In%filter_In. by destruct n. Qed.

Lemma str_le_total a b : Is_true (str_le a b) ∨ Is_true (str_le b a).
Proof.
  revert b. induction a as [|x a IH]; intros [|y b]; simpl; auto.
  destruct (Z.lt_trichotomy (byte_to_Z x) (byte_to_Z y)) as [H|[H|H]].
  - left. by rewrite (proj2 (Z.ltb_lt _ _) H).
  - rewrite H, !Z.ltb_irrefl, !Z.eqb_refl. simpl. apply IH.
  - right. by rewrite (proj2 (Z.ltb_lt _ _) H).
Qed.

(** What [readdir] makes of a map of children. *)
Lemma listing_spec (ch : gmap str Z) (ns : gmap Z Node)
  (l := merge_sort (λ a b, Is_true (str_le a.1 b.1)) (omap (λ e, n ← ns !! e.2; Some (e.1, n)) (map_to_list ch))) :
  Sorted (λ a b, Is_true (str_le a.1 b.1)) l ∧ NoDup l.*1 ∧
  ∀ name n, (name, n) ∈ l ↔ ∃ j, ch !! name = Some j ∧ ns !! j = Some n.
Proof.
  set (l0 := omap _ _) in l. pose proof (merge_sort_Permutation (λ a b : str * Node, Is_true (str_le a.1 b.1)) l0) as Hperm.
  fold l in Hperm. split_and!.
  - apply Sorted_merge_sort. intros x y. apply str_le_total.
  - rewrite Hperm. unfold l0. clear. pose proof (NoDup_fst_map_to_list ch) as Hnd. induction (map_to_list ch) as [|[name j] m IH]; [constructor|].
    cbn in Hnd |- *. apply NoDup_cons in Hnd as [Hno Hnd]. destruct (ns !! j); simpl; [|by apply IH].
    apply NoDup_cons. split; [|by apply IH]. intros ([name' n'] & Heq & ([name'' j'] & He & H)%list_elem_of_omap)%list_elem_of_fmap.
    simpl in *. destruct (ns !! j'); simplify_eq/=. apply Hno. by apply (list_elem_of_fmap_2 fst m (_, j')).
  - intros name n. rewrite Hperm. unfold l0. rewrite list_elem_of_omap. split.
    + intros ([name' j] & He & H). apply elem_of_map_to_list in He. simpl in H. destruct (ns !! j) eqn:Hj; simplify_eq/=. eauto.
    + intros (j & He & H). exists (name, j). rewrite elem_of_map_to_list. simpl. by rewrite H.
Qed.

(** ** Sessions *)
Section sessions.
Context {G : GitTrees}.

Inductive mount_op := Lookup (path : str) | ReadDir (path : str).
Inductive mount_answer := Found (o : option Node) | Listed (l : Listing).
Definition op_path (op : mount_op) : list str := match op with Lookup p | ReadDir p => components p end.

Definition serve_op (op : mount_op) : ST DiffVfs str mount_answer :=
  match op with
  | Lookup p => o ← lookup_path p; mret (Found o)
  | ReadDir p => l ← op_readdir p; mret (Listed l)
  end.
Definition serve_ops (ops : list mount_op) : ST DiffVfs str (list mount_answer) :=
  fold_st (λ answers op, a ← serve_op op; mret (answers ++ [a])) [] ops.

(** The directories the operations may read. *)
Definition reads_of (ops : list mount_op) : Z := sumZ ((λ op, len (op_path op) + 1) <$> ops).
Lemma reads_of_app a b : reads_of (a ++ b) = reads_of a + reads_of b.
Proof. unfold reads_of. by rewrite fmap_app, sumZ_app. Qed.
Lemma reads_of_cons op b : reads_of (op :: b) = len (op_path op) + 1 + reads_of b.
Proof. done. Qed.

(** ** Answers

    [V] is what there is at a path; [failed] excuses what is missing. *)
Context (V : list str → option (option str)) (failed : Prop).

(** An answer about a path. *)
Definition sound (place : gmap Z (list str)) (c : list str) (o : option Node) : Prop :=
  match o with
  | Some n => place !! inode n = Some c ∧ V c = Some (view (kind n))
  | None => V c = None ∨ failed
  end.

Lemma sound_mono place place' c o : place ⊆ place' → sound place c o → sound place' c o.
Proof. intros Hsub. destruct o; [|done]. intros [? ?]. split; [by eapply lookup_weaken|done]. Qed.

(** The entries of a directory: sorted, distinct, and all that is visible. *)
Definition listing_ok (place : gmap Z (list str)) (c : list str) (l : list (str * Node)) : Prop :=
  Sorted (λ a b, Is_true (str_le a.1 b.1)) l ∧ NoDup l.*1 ∧
  (∀ name n, (name, n) ∈ l → sound place (c ++ [name]) (Some n)) ∧
  (∀ name, name ∉ l.*1 → V (c ++ [name]) = None ∨ failed).

(** An answer says what the tree says; that something is missing may also be
    due to a failed read. *)
Definition answer_ok (place : gmap Z (list str)) (op : mount_op) (a : mount_answer) : Prop :=
  match op, a with
  | Lookup p, Found o => sound place (components p) o
  | ReadDir p, Listed NoEntry => V (components p) = None ∨ failed
  | ReadDir p, Listed NotDir => ∃ hex, V (components p) = Some (Some hex)
  | ReadDir p, Listed (Entries l) => V (components p) = Some None ∧ listing_ok place (components p) l
  | _, _ => False
  end.

Lemma answer_mono place place' op a : place ⊆ place' → answer_ok place op a → answer_ok place' op a.
Proof.
  intros Hsub. destruct op, a as [o|[| |l]]; simpl; try done; [by apply sound_mono|].
  intros (Hv & Hs & Hnd & Hin & Hno). repeat split; try done; destruct (Hin _ _ H) as [? ?]; [by eapply lookup_weaken|done].
Qed.

(** ** The interface

    [P] is the builder's own invariant, [width] how many inodes a directory may take. *)
Record Mounted (P : DiffVfs → gmap Z (list str) → Prop) (width : Z) : Prop := {
  m_tree v place : P v place → Tree V (state v) place;
  m_width : 0 ≤ width;
  m_below c r : Forall (λ n, n ≠ []) (c ++ r) → V c = None → V (c ++ r) = None;
  m_file c n hex : V c = Some (Some hex) → V (c ++ [n]) = None;
  m_populate i v place : P v place → next_inode (state v) + width < 2 ^ 64 →
    wps (populate_if_lazy i) v (λ _ v', ∃ place', place ⊆ place' ∧ P v' place' ∧
      next_inode (state v') ≤ next_inode (state v) + width ∧
      ∀ d c name, dirs (state v') !! i = Some d → place' !! i = Some c → children d !! name = None → V (c ++ [name]) = None ∨ failed)
      (λ _ _, False);
}.

#[local] Set Default Proof Using "Type*".
Context {P : DiffVfs → gmap Z (list str) → Prop} {width : Z} (Mt : Mounted P width).

Lemma node_sound v place j c : P v place → place !! j = Some c → ∃ n, nodes (state v) !! j = Some n ∧ sound place c (Some n).
Proof. intros HP Hj. destruct (t_node _ _ _ (m_tree _ _ Mt _ _ HP) _ _ Hj) as [_ (k & Hk & Hv)]. by exists (mkNode j k). Qed.

Lemma wps_lookup_child i c name v place : P v place → place !! i = Some c → next_inode (state v) + width < 2 ^ 64 →
  wps (lookup_child i name) v (λ o v', ∃ place', place ⊆ place' ∧ P v' place' ∧
    next_inode (state v') ≤ next_inode (state v) + width ∧ sound place' (c ++ [name]) o) (λ _ _, False).
Proof.
  intros HM Hc Hmax. apply wps_bind. eapply wps_mono; [by apply (m_populate _ _ Mt)| |done].
  intros u v' (place' & Hsub & HM' & Hn & Hset). apply wps_gets. exists place'. split_and!; try done.
  pose proof (lookup_weaken _ _ _ _ Hc Hsub) as Hc'. pose proof (m_tree _ _ Mt _ _ HM') as HT. unfold child_inode.
  destruct (dirs (state v') !! i) as [d|] eqn:Hd; cbn [mbind option_bind] in *.
  - destruct (children d !! name) as [j|] eqn:Hj; cbn.
    + pose proof (t_child _ _ _ HT _ _ _ _ _ Hd Hc' Hj) as Hpj.
      destruct (node_sound _ _ _ _ HM' Hpj) as (n & -> & Hs). done.
    + by eapply Hset.
  - left. destruct (node_sound _ _ _ _ HM' Hc') as (n & _ & _ & Hv). destruct (view (kind n)) as [hex|] eqn:Hk.
    + by eapply (m_file _ _ Mt).
    + apply (t_isdir _ _ _ HT) in Hc' as [? ?]; [congruence|done].
Qed.

Lemma wps_walk rest : ∀ c o v place, P v place → sound place c o → Forall (λ n, n ≠ []) (c ++ rest) →
  next_inode (state v) + len rest * width < 2 ^ 64 →
  wps (fold_st walk_step o rest) v (λ o' v', ∃ place', place ⊆ place' ∧ P v' place' ∧
    next_inode (state v') ≤ next_inode (state v) + len rest * width ∧ sound place' (c ++ rest) o') (λ _ _, False).
Proof.
  induction rest as [|name rest IH]; intros c o v place HM Hs Hne Hmax; pose proof (m_width _ _ Mt) as Hw.
  { apply wps_ret. exists place. rewrite app_nil_r. change (len (@nil str)) with 0. split_and!; try done. lia. }
  cbn [fold_st]. unfold len in *. simpl in Hmax. rewrite cons_middle, app_assoc in Hne. rewrite cons_middle, app_assoc.
  apply wps_bind. destruct o as [n|]; cbn [walk_step].
  - destruct Hs as [Hi _]. eapply wps_mono; [eapply (wps_lookup_child _ c name); eauto; nia| |done].
    intros o' v' (place' & Hsub & HM' & Hn & Hs'). eapply wps_mono; [eapply (IH (c ++ [name])); eauto; nia| |done].
    intros o'' v'' (place'' & ? & ? & ? & ?). exists place''. split_and!; try done; [by etrans|simpl; nia].
  - apply wps_ret. eapply wps_mono; [eapply (IH (c ++ [name]) None); eauto; [|nia]| |done].
    + destruct Hs as [Hs|?]; [left|by right]. apply (m_below _ _ Mt); [|done]. by apply Forall_app in Hne as [? _].
    + intros o'' v'' (place'' & ? & ? & ? & ?). exists place''. split_and!; try done. simpl. nia.
Qed.

Lemma wps_lookup_path path v place : P v place →
  next_inode (state v) + len (components path) * width < 2 ^ 64 →
  wps (lookup_path path) v (λ o v', ∃ place', place ⊆ place' ∧ P v' place' ∧
    next_inode (state v') ≤ next_inode (state v) + len (components path) * width ∧ sound place' (components path) o) (λ _ _, False).
Proof.
  intros HM Hmax. pose proof (t_root _ _ _ (m_tree _ _ Mt _ _ HM)) as Hroot.
  destruct (node_sound _ _ _ _ HM Hroot) as (n & Hn & Hs).
  apply wps_bind, wps_gets. rewrite Hn. apply (wps_walk (components path) [] (Some n)); try done. apply components_nonempty.
Qed.

Lemma wps_readdir i c v place : P v place → place !! i = Some c → V c = Some None →
  next_inode (state v) + width < 2 ^ 64 →
  wps (readdir i) v (λ o v', ∃ place' l, o = Some l ∧ place ⊆ place' ∧ P v' place' ∧
    next_inode (state v') ≤ next_inode (state v) + width ∧ listing_ok place' c l) (λ _ _, False).
Proof.
  intros HM Hc Hv Hmax. apply wps_bind. eapply wps_mono; [by apply (m_populate _ _ Mt)| |done].
  intros u v' (place' & Hsub & HM' & Hn & Hset). apply wps_gets.
  pose proof (lookup_weaken _ _ _ _ Hc Hsub) as Hc'. pose proof (m_tree _ _ Mt _ _ HM') as HT.
  destruct (t_isdir _ _ _ HT _ _ Hc' Hv) as [d Hd]. rewrite Hd. cbn [mbind option_bind].
  exists place'. eexists. split; [done|]. split_and!; try done.
  destruct (listing_spec (children d) (nodes (state v'))) as (Hsorted & Hnd & Hin). split_and!; [done|done| |].
  - intros name n (j & Hj & Hnj)%Hin. pose proof (t_child _ _ _ HT _ _ _ _ _ Hd Hc' Hj) as Hpj.
    destruct (node_sound _ _ _ _ HM' Hpj) as (n' & Hn' & Hs'). simplify_eq. done.
  - intros name Hno. destruct (children d !! name) as [j|] eqn:Hj; [|by eapply Hset].
    pose proof (t_child _ _ _ HT _ _ _ _ _ Hd Hc' Hj) as Hpj. destruct (node_sound _ _ _ _ HM' Hpj) as (n' & Hn' & _).
    destruct Hno. apply list_elem_of_fmap. exists (name, n'). split; [done|]. apply Hin. eauto.
Qed.

Lemma wps_serve_op op v place : P v place →
  next_inode (state v) + (len (op_path op) + 1) * width < 2 ^ 64 →
  wps (serve_op op) v (λ a v', ∃ place', place ⊆ place' ∧ P v' place' ∧
    next_inode (state v') ≤ next_inode (state v) + (len (op_path op) + 1) * width ∧ answer_ok place' op a) (λ _ _, False).
Proof.
  intros HM Hmax. pose proof (m_width _ _ Mt) as Hw. destruct op as [p|p]; cbn [op_path serve_op] in *.
  - apply wps_bind. eapply wps_mono; [apply (wps_lookup_path p v place); try done; nia| |done].
    intros o v' (place' & ? & ? & ? & ?). apply wps_ret. exists place'. split_and!; try done. nia.
  - apply wps_bind, wps_bind. eapply wps_mono; [apply (wps_lookup_path p v place); try done; nia| |done].
    intros [n|] v' (place' & Hsub & HM' & Hn & Hs); [|apply wps_ret, wps_ret; exists place'; split_and!; try done; nia].
    destruct Hs as [Hi Hv]. destruct (kind n) as [|size src] eqn:Hk; simpl in Hv.
    + apply wps_bind. eapply wps_mono; [eapply wps_readdir; try done; nia| |done].
      intros o v'' (place'' & l & -> & ? & ? & ? & ?). apply wps_ret, wps_ret. exists place''. split_and!; try done; [by etrans|nia].
    + apply wps_ret, wps_ret. exists place'. split_and!; try done; [nia|]. simpl in *. eauto.
Qed.

Lemma wps_serve_ops ops v place : P v place →
  next_inode (state v) + reads_of ops * width < 2 ^ 64 →
  wps (serve_ops ops) v (λ answers v', ∃ place', place ⊆ place' ∧ P v' place' ∧
    Forall2 (answer_ok place') ops answers) (λ _ _, False).
Proof.
  intros HM Hmax. pose proof (m_width _ _ Mt) as Hw.
  eapply wps_mono; [apply (wps_fold_st _ (λ dn answers v', ∃ place', place ⊆ place' ∧ P v' place' ∧
    next_inode (state v') ≤ next_inode (state v) + reads_of dn * width ∧ Forall2 (answer_ok place') dn answers) (λ _ _, False))| |done].
  - intros dn answers op rest v' Hops (place' & Hsub & HM' & Hn & Hall).
    assert (Hr : reads_of ops = reads_of dn + (len (op_path op) + 1) + reads_of rest).
    { rewrite Hops, reads_of_app, reads_of_cons. lia. }
    assert (0 ≤ reads_of rest) by (apply sumZ_nonneg, Forall_fmap, Forall_true; intros ?; unfold len; simpl; lia).
    apply wps_bind. eapply wps_mono; [eapply wps_serve_op; try done; nia| |done].
    intros a v'' (place'' & Hsub' & HM'' & Hn' & Ha). apply wps_ret. exists place''. split_and!; try done; [by etrans| |].
    + rewrite reads_of_app, reads_of_cons. change (reads_of []) with 0. nia.
    + apply Forall2_app; [|by constructor]. eapply Forall2_impl; [done|]. intros ??. by apply answer_mono.
  - exists place. split_and!; try done. change (reads_of []) with 0. lia.
  - intros answers v' (place' & ? & ? & _ & ?). eauto.
Qed.
End sessions.
