(* ===== verification/VfsSpec.v ===== *)
(** * A mounted revision shows the tree

    The mount of [Vfs] that reads directories on demand refines the tree of the
    commit, restricted to the pathspec: what a path names, which entries a
    directory has, and inodes that are stable and never shared.  A directory that
    could not be read is empty from then on. *)

From stdpp Require Import gmap list sorting.
From S2P Require Import Prelude RustStd Repo Vfs VfsTree VfsServe.

(** ** Trees as gix reads them *)
Fixpoint decoded {A} (l : list (outcome str A)) : option (list A) :=
  match l with
  | [] => Some []
  | Ok a :: l => match decoded l with Some es => Some (a :: es) | None => None end
  | _ => None
  end.
Definition entries_of `{G : GitTrees} (o : ObjectId) : option (list (TreeEntry ObjectId)) :=
  match find_tree o with Ok l => decoded l | _ => None end.
Definition entry_name `{G : GitTrees} (e : TreeEntry ObjectId) : str := bstr_string (te_filename e).

(** ** Paths *)

Definition path_of (comps : list str) : str := foldl join_path [] comps.

Lemma path_of_snoc c n : path_of (c ++ [n]) = join_path (path_of c) n.
Proof. unfold path_of. by rewrite foldl_app. Qed.

Lemma path_of_nonempty c : c ≠ [] → Forall (λ n, n ≠ []) c → path_of c ≠ [].
Proof.
  destruct c as [|n c _] using rev_ind; [done|]. intros _ [_ Hn]%Forall_app. rewrite path_of_snoc.
  rewrite Forall_singleton in Hn. unfold join_path. by destruct (path_of c).
Qed.

(** What lies below a directory has the directory and a slash in front. *)
Lemma path_of_app c n r : c ≠ [] → Forall (λ n, n ≠ []) c → ∃ t, path_of (c ++ n :: r) = path_of c ++ x2f :: t.
Proof.
  intros Hc Hne. pose proof (path_of_nonempty c Hc Hne) as Hp.
  induction r as [|m r IH] using rev_ind.
  - rewrite path_of_snoc. unfold join_path. destruct (path_of c); [done|]. by exists n.
  - destruct IH as [t IH]. rewrite app_comm_cons, app_assoc, path_of_snoc, IH. exists (t ++ x2f :: m).
    unfold join_path. destruct (path_of c); [done|]. simpl. by rewrite <-!app_assoc.
Qed.

(** ** What a pathspec selects

    A filter, without its slashes at the end, names a file or everything below a
    directory; paths are compared as if each ended in a slash. *)
Definition within (f p : str) : Prop := (f ++ [x2f]) `prefix_of` (p ++ [x2f]).
Definition selected (filters : list str) (p : str) : Prop :=
  filters = [] ∨ Exists (λ f, within (trim_end_matches f x2f) p) filters.
(** What is selected itself, or what leads to something that is. *)
Definition on_the_way (filters : list str) (p : str) : Prop :=
  filters = [] ∨ Exists (λ f, within (trim_end_matches f x2f) p ∨ within p (trim_end_matches f x2f)) filters.

#[export] Instance selected_dec filters p : Decision (selected filters p).
Proof. unfold selected, within. apply _. Defined.
#[export] Instance on_the_way_dec filters p : Decision (on_the_way filters p).
Proof. unfold on_the_way, within. apply _. Defined.

Lemma within_iff f p : within f p ↔ p = f ∨ ∃ k, p = f ++ x2f :: k.
Proof.
  unfold within. split.
  - intros [k Hk]. rewrite <-app_assoc in Hk. destruct k as [|c k _] using rev_ind.
    + left. by apply app_inj_tail in Hk as [-> _].
    + right. exists k. change ([x2f] ++ k ++ [c]) with ((x2f :: k) ++ [c]) in Hk. rewrite app_assoc in Hk. by apply app_inj_tail in Hk as [-> _].
  - intros [->|[k ->]]; [done|]. exists (k ++ [x2f]). by rewrite <-!app_assoc.
Qed.

Lemma pathspec_matches_iff p filters : pathspec_matches_file p filters = bool_decide (selected filters p).
Proof.
  apply eq_iff_eq_true. rewrite bool_decide_eq_true. unfold pathspec_matches_file, selected.
  destruct filters as [|f0 filters]; [split; auto|]. rewrite existsb_exists, Exists_exists.
  split; [intros (f & Hf & Hm); right|intros [?|(f & Hf & Hm)]; [done|]]; exists f; (split; [by apply list_elem_of_In|]); cbv zeta in *.
  - apply within_iff. apply orb_prop in Hm as [H%bool_decide_eq_true|[k H]%starts_with_spec]; [by left|right].
    exists k. by rewrite H, <-app_assoc.
  - apply orb_true_intro. apply within_iff in Hm as [H|[k H]]; [left; by rewrite bool_decide_eq_true|right].
    apply starts_with_spec. exists k. by rewrite H, <-app_assoc.
Qed.
Lemma pathspec_intersects_iff p filters : pathspec_intersects_dir p filters = bool_decide (on_the_way filters p).
Proof.
  apply eq_iff_eq_true. rewrite bool_decide_eq_true. unfold pathspec_intersects_dir, on_the_way.
  destruct filters as [|f0 filters]; [split; auto|]. rewrite existsb_exists, Exists_exists.
  split; [intros (f & Hf & Hm); right|intros [?|(f & Hf & Hm)]; [done|]]; exists f; (split; [by apply list_elem_of_In|]); cbv zeta in *.
  - rewrite !within_iff. apply orb_prop in Hm as [[H%bool_decide_eq_true|[k H]%starts_with_spec]%orb_prop|[k H]%starts_with_spec]; [by auto|left; right|right; right];
      exists k; by rewrite H, <-app_assoc.
  - rewrite !within_iff in Hm. apply orb_true_intro. destruct Hm as [[H|[k H]]|[H|[k H]]].
    + left. apply orb_true_intro. left. by rewrite bool_decide_eq_true.
    + left. apply orb_true_intro. right. apply starts_with_spec. exists k. by rewrite H, <-app_assoc.
    + left. apply orb_true_intro. left. by rewrite bool_decide_eq_true.
    + right. apply starts_with_spec. exists k. by rewrite H, <-app_assoc.
Qed.

(** What lies above a path that is selected, or on the way, is on the way. *)
Lemma on_the_way_above filters p n : on_the_way filters (p ++ x2f :: n) → on_the_way filters p.
Proof.
  intros [?|H]; [by left|right]. eapply Exists_impl; [exact H|]. intros f. cbn beta. unfold within.
  set (g := trim_end_matches f x2f).
  assert (Hp : (p ++ [x2f]) `prefix_of` ((p ++ x2f :: n) ++ [x2f])) by (exists (n ++ [x2f]); by rewrite <-!app_assoc).
  intros [Hg|Hg]; [by eapply prefix_weak_total|right; by etrans].
Qed.
Lemma selected_on_the_way filters p : selected filters p → on_the_way filters p.
Proof. intros [?|H]; [by left|right]. eapply Exists_impl; [exact H|]. by left. Qed.

(** ** The specification

    What the tree holds at a path, and what of it the pathspec leaves visible:
    [Some None] is a directory, [Some (Some hex)] a file. *)
Section spec.
Context {G : GitTrees}.

Inductive raw := RTree (o : ObjectId) | RBlob (hex : str).
Definition raw_of (e : TreeEntry ObjectId) : option raw :=
  match te_mode e with
  | ModeTree => Some (RTree (te_oid e))
  | ModeBlob => Some (RBlob (oid_hex (te_oid e)))
  | ModeOther => None
  end.
Definition raw_child (o : ObjectId) (name : str) : option raw :=
  es ← entries_of o; ie ← list_find (λ e, entry_name e = name) es; raw_of ie.2.
Definition raw_step (k : option raw) (name : str) : option raw :=
  match k with Some (RTree o) => raw_child o name | _ => None end.
Definition raw_at (root : ObjectId) (comps : list str) : option raw := foldl raw_step (Some (RTree root)) comps.

(** The root is always there; a directory is shown when it is on the way, a file
    when it is selected. *)
Definition visible (root : ObjectId) (filters : list str) (comps : list str) : option (option str) :=
  match raw_at root comps with
  | Some (RTree _) => if bool_decide (comps = [] ∨ on_the_way filters (path_of comps)) then Some None else None
  | Some (RBlob hex) => if bool_decide (selected filters (path_of comps)) then Some (Some hex) else None
  | None => None
  end.

(** What the mount relies on: every directory of the tree can be asked for (gix
    reads a tree object; for anything else [into_tree] would panic), and its
    entries, at most [width], have distinct names as text (they are distinct as
    bytes; the conversion loses what is not UTF-8). *)
Record SoundTree (root : ObjectId) (width : Z) : Prop := {
  dir_read c o : raw_at root c = Some (RTree o) → wp (find_tree o) (Forall (λ r, Is_true (returned r))) (λ _, True);
  dir_names c o es : raw_at root c = Some (RTree o) → entries_of o = Some es → NoDup (entry_name <$> es);
  dir_width c o es : raw_at root c = Some (RTree o) → entries_of o = Some es → len es ≤ width;
}.
End spec.

Section spec_lemmas.
Context {G : GitTrees} (root : ObjectId) (filters : list str).
#[local] Abbreviation vis := (visible root filters).

Lemma raw_at_snoc c n : raw_at root (c ++ [n]) = raw_step (raw_at root c) n.
Proof. unfold raw_at. by rewrite foldl_app. Qed.

Lemma path_of_child c n : c ≠ [] → Forall (λ n, n ≠ []) c → path_of (c ++ [n]) = path_of c ++ x2f :: n.
Proof.
  intros Hc Hne. pose proof (path_of_nonempty c Hc Hne) as Hp. rewrite path_of_snoc. unfold join_path. by destruct (path_of c).
Qed.

(** An entry below a directory. *)
Lemma visible_child c o n : raw_at root c = Some (RTree o) →
  vis (c ++ [n]) = match raw_child o n with
    | Some (RTree _) => if bool_decide (on_the_way filters (path_of (c ++ [n]))) then Some None else None
    | Some (RBlob hex) => if bool_decide (selected filters (path_of (c ++ [n]))) then Some (Some hex) else None
    | None => None
    end.
Proof.
  unfold visible. rewrite raw_at_snoc. intros ->. cbn [raw_step]. destruct (raw_child o n) as [[o'|hex]|]; [|done|done].
  assert (c ++ [n] ≠ []) by by destruct c.
  by rewrite (bool_decide_ext (c ++ [n] = [] ∨ on_the_way filters (path_of (c ++ [n]))) (on_the_way filters (path_of (c ++ [n])))) by tauto.
Qed.

(** What is visible lies in a visible directory. *)
Lemma visible_parent c n v : Forall (λ n, n ≠ []) c → vis (c ++ [n]) = Some v →
  vis c = Some None ∧ ∃ o, raw_at root c = Some (RTree o).
Proof.
  intros Hne H. assert (∃ o, raw_at root c = Some (RTree o)) as [o Ho].
  { unfold visible in H. rewrite raw_at_snoc in H. destruct (raw_at root c) as [[o|hex]|]; [eauto|done..]. }
  split; [|eauto]. rewrite (visible_child _ _ _ Ho) in H. unfold visible. rewrite Ho. rewrite bool_decide_true; [done|].
  destruct (decide (c = [])) as [->|Hc]; [by left|right]. rewrite path_of_child in H by done.
  apply (on_the_way_above _ _ n). destruct (raw_child o n) as [[o'|hex]|]; [| |done]; case_bool_decide; try done.
  by apply selected_on_the_way.
Qed.

Lemma invisible_below c r : Forall (λ n, n ≠ []) (c ++ r) → vis c = None → vis (c ++ r) = None.
Proof.
  induction r as [|n r IH] using rev_ind; intros Hne Hc; [by rewrite app_nil_r|].
  rewrite app_assoc in Hne |- *. pose proof Hne as [Hne' _]%Forall_app.
  destruct (vis ((c ++ r) ++ [n])) eqn:Hv; [|done]. apply visible_parent in Hv as [Hv _]; [|done].
  rewrite IH in Hv by done. done.
Qed.

Lemma visible_below_file c n hex : vis c = Some (Some hex) → vis (c ++ [n]) = None.
Proof.
  unfold visible. rewrite raw_at_snoc. destruct (raw_at root c) as [[o|h]|]; [|done|done].
  by case_bool_decide.
Qed.

(** ** The entries a directory is populated with *)
Definition pending_view (p : PendingChild) : option str :=
  match pending_kind p with PendingDir _ _ => None | PendingFile hex => Some hex end.

Lemma pending_of_name prefix e p : pending_of prefix filters e = Some p → pending_name p = entry_name e.
Proof. unfold pending_of. repeat case_match; intros; by simplify_eq. Qed.

Lemma raw_child_entry o es e : entries_of o = Some es → NoDup (entry_name <$> es) → e ∈ es → raw_child o (entry_name e) = raw_of e.
Proof.
  intros Hes Hnd He. unfold raw_child. rewrite Hes. cbn [mbind option_bind].
  assert (∃ i, list_find (λ e', entry_name e' = entry_name e) es = Some (i, e)) as [i ->]; [|done].
  apply list_elem_of_lookup in He as [i Hi]. exists i. apply list_find_Some. split; [done|]. split; [done|].
  intros j e' Hj Hlt Heq. enough (j = i) by lia.
  apply (NoDup_lookup (entry_name <$> es) _ _ (entry_name e) Hnd); rewrite list_lookup_fmap; [by rewrite Hj; simpl; rewrite Heq|by rewrite Hi].
Qed.

Lemma pending_of_visible c o es e : raw_at root c = Some (RTree o) →
  entries_of o = Some es → NoDup (entry_name <$> es) → e ∈ es →
  vis (c ++ [entry_name e]) = pending_view <$> pending_of (path_of c) filters e.
Proof.
  intros Hr Hes Hnd He. rewrite (visible_child _ _ _ Hr), (raw_child_entry _ _ _ Hes Hnd He).
  rewrite path_of_snoc, <-pathspec_intersects_iff, <-pathspec_matches_iff. unfold raw_of, pending_of, entry_name.
  destruct (te_mode e); cbn [is_tree is_blob]; [by destruct (pathspec_intersects_dir _ _)|by destruct (pathspec_matches_file _ _)|done].
Qed.

Lemma no_entry_invisible c o es n : raw_at root c = Some (RTree o) →
  entries_of o = Some es → n ∉ (entry_name <$> es) → vis (c ++ [n]) = None.
Proof.
  intros Hr Hes Hn. rewrite (visible_child _ _ _ Hr). unfold raw_child. rewrite Hes. cbn [mbind option_bind].
  destruct (list_find _ es) as [[i e]|] eqn:H; [|done]. apply list_find_Some in H as (Hi & <- & _).
  destruct Hn. apply list_elem_of_fmap. exists e. split; [done|]. by eapply list_elem_of_lookup_2.
Qed.

Lemma collect_pending_decoded prefix l es : decoded l = Some es →
  collect_pending prefix filters l = Ok (omap (pending_of prefix filters) es).
Proof.
  unfold collect_pending. rewrite <-(app_nil_l (omap _ es)). generalize (@nil PendingChild) as acc.
  intros acc H. revert es acc H. induction l as [|r l IH]; intros es acc H; simplify_eq/=; [by rewrite app_nil_r|].
  destruct r as [e| | |]; simplify_eq/=. destruct (decoded l) as [es'|]; simplify_eq/=. rewrite (IH es' _ eq_refl). f_equal.
  destruct (pending_of prefix filters e); simpl; by rewrite <-app_assoc.
Qed.

Lemma collect_pending_broken prefix l : Forall (λ r, Is_true (returned r)) l → decoded l = None →
  ∃ e, collect_pending prefix filters l = Err e.
Proof.
  unfold collect_pending. generalize (@nil PendingChild) as acc. intros acc H Hd. revert acc Hd.
  induction H as [|r l Hr _ IH]; intros acc Hd; simplify_eq/=. destruct r as [e|m| |]; simplify_eq/=; try done; [|eauto].
  destruct (decoded l); simplify_eq/=. apply (IH (acc ++ _) eq_refl).
Qed.
End spec_lemmas.

(** ** The invariant of the mounted state

    [failed]: some read of the object database has failed; [hole] is a directory
    being populated. *)
Section invariant.
Context {G : GitTrees} (root : ObjectId) (filters : list str) (failed : Prop).
#[local] Abbreviation vis := (visible root filters).

Definition settled (c : list str) (d : DirState) : Prop :=
  match lazy d with
  | Some l => children d = ∅ ∧ raw_at root c = Some (RTree (tree_oid l)) ∧ path_prefix l = path_of c
  | None => ∀ name, children d !! name = None → vis (c ++ [name]) = None ∨ failed
  end.

Record Inv (s : VfsState) (place : gmap Z (list str)) (hole : option Z) : Prop := {
  inv_tree : Tree vis s place;
  inv_settled i d c : dirs s !! i = Some d → place !! i = Some c → hole ≠ Some i → settled c d;
}.

Definition pending_node (p : PendingChild) : NodeKind :=
  match pending_kind p with PendingDir _ _ => Dir | PendingFile hex => File u64_max (mkBlobSource hex) end.
Definition pending_own (p : PendingChild) : option DirState :=
  match pending_kind p with PendingDir o full_path => Some (mkDirState ∅ (Some (mkLazyDir o full_path))) | PendingFile _ => None end.

Lemma insert_pending_run parent p s d : dirs s !! parent = Some d → parent ≠ next_inode s →
  insert_pending parent p s = (Ok tt, with_child parent d (pending_name p) (pending_node p) (pending_own p) s).
Proof.
  intros Hd Hne. unfold insert_pending, pending_node, pending_own, with_child, add_child, with_dir.
  unfold mbind, ST_bind, alloc_inode, modify, insert_node, insert_dir.
  destruct (pending_kind p); simpl; rewrite ?lookup_insert_ne by done; by rewrite Hd.
Qed.

(** What a child to be inserted says is what the tree says. *)
Definition pending_ok (c : list str) (p : PendingChild) : Prop :=
  vis (c ++ [pending_name p]) = Some (pending_view p) ∧
  match pending_kind p with
  | PendingDir o full_path => raw_at root (c ++ [pending_name p]) = Some (RTree o) ∧ full_path = path_of (c ++ [pending_name p])
  | PendingFile _ => True
  end.

Lemma inv_add s place parent d c p :
  Inv s place (Some parent) → dirs s !! parent = Some d → place !! parent = Some c →
  children d !! pending_name p = None → pending_ok c p → next_inode s + 1 < 2 ^ 64 →
  Inv (with_child parent d (pending_name p) (pending_node p) (pending_own p) s)
      (<[next_inode s := c ++ [pending_name p]]> place) (Some parent).
Proof.
  intros [HT HS] Hd Hc Hfree [Hvis Hok] Hmax. destruct (tree_fresh _ _ _ HT) as (Hfresh & Hdfresh & _). split.
  - apply tree_add; try done; unfold pending_node, pending_own, pending_view in *; by destruct (pending_kind p).
  - intros a d' c0 [[-> ->]|[(-> & _ & Hown)|(Hai & Hap & Ha)]]%with_child_dirs Hc0 Hhole; try done.
    + rewrite lookup_insert_eq in Hc0. simplify_eq. unfold pending_own in Hown. destruct (pending_kind p); simplify_eq.
      destruct Hok as [Hr ->]. by unfold settled.
    + rewrite lookup_insert_ne in Hc0 by done. by apply (HS a).
Qed.

(** The whole loop: every child is there, the rest is unchanged. *)
Lemma wps_insert_all parent c ps : ∀ s place d,
  Inv s place (Some parent) → dirs s !! parent = Some d → place !! parent = Some c →
  NoDup (pending_name <$> ps) → Forall (λ p, children d !! pending_name p = None ∧ pending_ok c p) ps →
  next_inode s + len ps < 2 ^ 64 →
  wps (for_each (insert_pending parent) ps) s (λ _ s', ∃ place' d', place ⊆ place' ∧ Inv s' place' (Some parent) ∧
    dirs s' !! parent = Some d' ∧ next_inode s' = next_inode s + len ps ∧
    ∀ name, is_Some (children d !! name) ∨ name ∈ (pending_name <$> ps) → is_Some (children d' !! name)) (λ _ _, False).
Proof.
  induction ps as [|p ps IH]; intros s place d HI Hd Hc Hnd Hps Hmax; cbn [for_each].
  { apply wps_ret. exists place, d. change (len (@nil PendingChild)) with 0. rewrite Z.add_0_r. split_and!; try done.
    intros name [?|[]%elem_of_nil]; done. }
  unfold len in Hmax. simpl in Hmax. apply Forall_cons in Hps as [[Hfree Hok] Hps]. apply NoDup_cons in Hnd as [Hp Hnd].
  destruct (tree_fresh _ _ _ (inv_tree _ _ _ HI)) as (Hfresh & Hdfresh & Hnext).
  apply wps_bind. unfold wps at 1. rewrite (insert_pending_run _ _ _ d Hd) by congruence.
  pose proof (with_child_next parent d (pending_name p) (pending_node p) (pending_own p) s) as Hn.
  eapply wps_mono; [eapply (IH _ (<[next_inode s := c ++ [pending_name p]]> place)
    (mkDirState (<[pending_name p := next_inode s]> (children d)) (lazy d)))| |done].
  - apply (inv_add _ _ _ _ _ _ HI Hd Hc Hfree Hok). lia.
  - unfold with_child. simpl. by rewrite lookup_insert_eq.
  - rewrite lookup_insert_ne by congruence. done.
  - done.
  - rewrite Forall_forall in Hps |- *. intros q Hq. destruct (Hps q Hq) as [Hfq Hoq]. split; [|done]. simpl. rewrite lookup_insert_ne; [done|].
    intros Heq. apply Hp. rewrite Heq. by apply list_elem_of_fmap_2.
  - rewrite Hn by lia. unfold len. lia.
  - intros u s' (place' & d' & Hsub & HI' & Hd' & Hn' & Hch). exists place', d'. split_and!; try done.
    + etrans; [|done]. by apply insert_subseteq.
    + rewrite Hn', Hn by lia. unfold len. simpl. lia.
    + intros name Hname. apply Hch. simpl. destruct (decide (name = pending_name p)) as [->|Hne].
      * left. rewrite lookup_insert_eq. eauto.
      * rewrite lookup_insert_ne by done. destruct Hname as [?|Hin]; [by left|right]. by apply elem_of_cons in Hin as [->|?].
Qed.

Lemma inv_open s place i : Inv s place None → Inv s place (Some i).
Proof. intros [HT HS]. split; [done|]. intros. by eapply HS. Qed.

(** A directory is done: what it lacks is not visible, or could not be read. *)
Lemma inv_close s place i d c : Inv s place (Some i) → dirs s !! i = Some d → place !! i = Some c →
  (∀ name, children d !! name = None → vis (c ++ [name]) = None ∨ failed) →
  Inv (insert_dir i (mkDirState (children d) None) s) place None.
Proof.
  intros [HT HS] Hd Hc Hall. split; [by eapply tree_same_children|].
  cbn [insert_dir dirs]. intros j d' c' [[<- <-]|[Hj H]]%lookup_insert_Some Hc' _; [by simplify_eq|]. apply (HS j); congruence.
Qed.

Definition no_fault (v : DiffVfs) : Prop := Forall (λ f, f = None) (odb_faults v) ∨ failed.

Record MInv (v : DiffVfs) (place : gmap Z (list str)) : Prop := {
  minv_pathspec : pathspec v = Some filters;
  minv_faults : no_fault v;
  minv_state : Inv (state v) place None;
}.

#[local] Set Default Proof Using "Type*".
Context (width : Z) (Hsound : SoundTree root width).

(** The children a tree gives: distinct, as the tree says, and all there is to see. *)
Lemma pendings_ok c o es (ps := omap (pending_of (path_of c) filters) es) :
  raw_at root c = Some (RTree o) → entries_of o = Some es →
  NoDup (pending_name <$> ps) ∧ Forall (pending_ok c) ps ∧ len ps ≤ len es ∧
  ∀ name, name ∉ pending_name <$> ps → vis (c ++ [name]) = None.
Proof.
  intros Hr Hes. pose proof (dir_names _ _ Hsound _ _ _ Hr Hes) as Hnd. unfold ps.
  assert (Hname : ∀ e p, pending_of (path_of c) filters e = Some p → pending_name p = entry_name e) by (intros; by eapply pending_of_name).
  split_and!.
  - clear Hes. induction es as [|e es IH]; [constructor|]. cbn. apply NoDup_cons in Hnd as [He Hnd].
    destruct (pending_of _ _ e) as [p|] eqn:Hp; [|by apply IH]. apply NoDup_cons. split; [|by apply IH].
    intros (q & Hq & (e' & He' & Hq')%list_elem_of_omap)%list_elem_of_fmap. apply He. apply list_elem_of_fmap. exists e'.
    split; [|done]. rewrite <-(Hname _ _ Hp), Hq. by apply Hname.
  - apply Forall_forall. intros p (e & He & Hp)%list_elem_of_omap.
    pose proof (pending_of_visible _ filters _ _ _ _ Hr Hes Hnd He) as Hvis. rewrite Hp in Hvis.
    split; rewrite (Hname _ _ Hp); [done|]. unfold pending_of in Hp.
    destruct (te_mode e) eqn:Hm; cbn in Hp; [|by destruct (pathspec_matches_file _ _); simplify_eq|done].
    destruct (pathspec_intersects_dir _ _) eqn:Hi; simplify_eq. simpl. rewrite path_of_snoc. split; [|done].
    rewrite raw_at_snoc, Hr. simpl. rewrite (raw_child_entry _ _ _ Hes Hnd He). unfold raw_of. by rewrite Hm.
  - clear. induction es as [|e es IH]; [done|]. unfold len in *. cbn. destruct (pending_of _ _ e); simpl; lia.
  - intros name Hn. destruct (decide (name ∈ entry_name <$> es)) as [(e & -> & He)%list_elem_of_fmap|Hno].
    + rewrite (pending_of_visible _ filters _ _ _ _ Hr Hes Hnd He). destruct (pending_of _ _ e) as [p|] eqn:Hp; [|done].
      destruct Hn. apply list_elem_of_fmap. exists p. rewrite (Hname _ _ Hp). split; [done|]. apply list_elem_of_omap. eauto.
    + by apply (no_entry_invisible _ filters _ _ _ _ Hr Hes).
Qed.

(** Reading a tree: its entries, or a reason why nothing of it is visible. *)
Lemma wps_read_tree c o v : raw_at root c = Some (RTree o) → no_fault v →
  wps (read_tree o) v (λ l v', state v' = state v ∧ pathspec v' = pathspec v ∧ no_fault v' ∧
      Forall (λ r, Is_true (returned r)) l ∧ entries_of o = decoded l)
    (λ _ v', state v' = state v ∧ pathspec v' = pathspec v ∧ no_fault v' ∧ (entries_of o = None ∨ failed)).
Proof.
  intros Hr0 Hf. assert (Hf' : no_fault (mkDiffVfs (state v) (pathspec v) (tail (odb_faults v)))).
  { destruct Hf as [Hf|?]; [left|by right]. by destruct Hf. }
  unfold wps, read_tree. destruct (default None (head (odb_faults v))) as [e|] eqn:Hh.
  - split_and!; try done. right. destruct Hf as [Hf|?]; [|done]. by destruct Hf as [|?? ->].
  - pose proof (dir_read _ _ Hsound _ _ Hr0) as Hr. unfold wp in Hr. unfold entries_of.
    destruct (find_tree o); try done; split_and!; try done. by left.
Qed.

Lemma wps_on_state {A} (m : ST VfsState str A) v (Q : A → DiffVfs → Prop) (R : str → DiffVfs → Prop) :
  wps m (state v) (λ a s, Q a (set_state s v)) (λ e s, R e (set_state s v)) → wps (on_state m) v Q R.
Proof. unfold wps, on_state, zoom. by destruct (m (state v)) as [[?|?| |] ?]. Qed.

Lemma wps_populate_dir i l v place : lazy_of (state v) i = Some l → MInv v place → next_inode (state v) + width < 2 ^ 64 →
  wps (populate_dir_locked i filters) v
    (λ _ v', ∃ place', place ⊆ place' ∧ MInv v' place' ∧ next_inode (state v') ≤ next_inode (state v) + width ∧ lazy_of (state v') i = None)
    (λ _ v', state v' = state v ∧ pathspec v' = pathspec v ∧ no_fault v' ∧
       ∀ c name, place !! i = Some c → vis (c ++ [name]) = None ∨ failed).
Proof.
  intros Hl [Hp Hf HI] Hmax. unfold lazy_of in Hl. destruct (dirs (state v) !! i) as [d|] eqn:Hd; [|done]. simpl in Hl.
  destruct (t_dir _ _ _ (inv_tree _ _ _ HI) _ _ Hd) as (c & Hc & Hv). pose proof (inv_settled _ _ _ HI _ _ _ Hd Hc) as Hset.
  unfold settled in Hset. rewrite Hl in Hset. destruct Hset as (Hch & Hr & Hpre); [done|]. set (o := tree_oid l) in *.
  unfold populate_dir_locked. apply wps_bind, wps_gets. unfold lazy_of at 1. rewrite Hd. cbn [mbind option_bind]. rewrite Hl, Hpre. fold o.
  assert (Hnone : entries_of o = None → ∀ c' name, place !! i = Some c' → vis (c' ++ [name]) = None).
  { intros He c' name Hc'. assert (c' = c) as -> by congruence. rewrite (visible_child _ filters _ _ _ Hr). unfold raw_child. by rewrite He. }
  apply wps_bind. eapply wps_mono; [by eapply wps_read_tree| |].
  2:{ intros e v' (? & ? & ? & Hbad). split_and!; try done. intros c' name Hc'. destruct Hbad; [left; by eapply Hnone|by right]. }
  intros es v' (Hst & Hpv & Hf' & Hret & Hes). apply wps_bind, wps_lift.
  destruct (decoded es) as [es'|] eqn:Hdec.
  2:{ destruct (collect_pending_broken filters (path_of c) _ Hret Hdec) as [e ->]. simpl. split_and!; try done.
      intros c' name Hc'. left. by eapply Hnone. }
  rewrite (collect_pending_decoded _ _ _ _ Hdec). simpl.
  destruct (pendings_ok _ _ _ Hr Hes) as (Hnd & Hok & Hlen & Hrest). pose proof (dir_width _ _ Hsound _ _ _ Hr Hes) as Hw.
  set (ps := omap (pending_of (path_of c) filters) es') in *.
  apply wps_bind, wps_on_state. rewrite Hst. eapply wps_mono; [eapply (wps_insert_all i c ps _ place d)| |done]; try done.
  - by apply inv_open.
  - eapply Forall_impl; [exact Hok|]. intros p Hpk. by rewrite Hch, lookup_empty.
  - lia.
  - intros u s' (place' & d' & Hsub & HI' & Hd' & Hn' & Hkids). cbn [set_state]. apply wps_on_state. unfold with_dir, wps. simpl. rewrite Hd'.
    exists place'. split_and!; [done| | |].
    + split; [by rewrite <-Hp|by destruct Hf'; [left|right]|]. simpl.
      eapply inv_close; [done|done|by eapply lookup_weaken|]. intros name Hname. left. apply Hrest. intros Hin.
      destruct (Hkids name (or_intror Hin)) as [? ?]. congruence.
    + simpl. rewrite Hn'. lia.
    + unfold lazy_of. simpl. by rewrite lookup_insert_eq.
Qed.

(** The interface of [VfsServe]. *)
Lemma lazy_mounted : 0 ≤ width → Mounted vis failed MInv width.
Proof.
  intros Hw. split; [by intros v place [_ _ [HT _]]|done|by apply invisible_below|by apply visible_below_file|].
  intros i v place HM Hmax. pose proof HM as [Hp Hf HI]. unfold wps, populate_if_lazy. rewrite Hp.
  assert (Hdone : ∀ v' place', MInv v' place' → lazy_of (state v') i = None → ∀ d c name, dirs (state v') !! i = Some d →
    place' !! i = Some c → children d !! name = None → vis (c ++ [name]) = None ∨ failed).
  { intros v' place' [_ _ HI'] Hl d c name Hd Hc. pose proof (inv_settled _ _ _ HI' _ _ _ Hd Hc) as Hset.
    unfold lazy_of in Hl. rewrite Hd in Hl. simpl in Hl. unfold settled in Hset. rewrite Hl in Hset. by apply Hset. }
  destruct (lazy_of (state v) i) as [l|] eqn:Hl; [|exists place; split_and!; try done; [lia|by apply Hdone]].
  pose proof (wps_populate_dir _ _ _ _ Hl HM Hmax) as H. unfold wps in H.
  destruct (populate_dir_locked i filters v) as [[u|e| |] v'] eqn:Hrun; try done.
  { destruct H as (place' & ? & ? & ? & ?). exists place'. split_and!; try done. by apply Hdone. }
  destruct H as (Hst & Hpv & Hf' & Hbad). exists place. rewrite Hst. unfold lazy_of in Hl.
  destruct (dirs (state v) !! i) as [d|] eqn:Hd; [|done]. simpl in Hl.
  destruct (t_dir _ _ _ (inv_tree _ _ _ HI) _ _ Hd) as (c & Hc & Hv).
  assert (HM' : MInv (set_state (insert_dir i (mkDirState (children d) None) (state v)) v') place).
  { split; [by rewrite <-Hp|done|]. simpl. eapply inv_close; [by apply inv_open|done|done|]. intros name _. by apply Hbad. }
  split_and!; [done|done|simpl; lia|]. apply (Hdone _ _ HM'). unfold lazy_of. simpl. by rewrite lookup_insert_eq.
Qed.
End invariant.

(** ** The mounted revision *)

Lemma mounted_start `{G : GitTrees} root filters faults :
  MInv root filters (∃ e, Some e ∈ faults) (build_single_lazy root filters faults) {[ROOT_INODE := []]}.
Proof.
  split; [done| |].
  - unfold no_fault. simpl. destruct (decide (Forall (λ f, f = None) faults)) as [?|H]; [by left|right].
    apply not_Forall_Exists in H; [|apply _]. apply Exists_exists in H as (f & Hf & Hn). destruct f as [e|]; [eauto|by destruct Hn].
  - simpl. split; [by apply tree_start|]. cbn [insert_dir dirs].
    intros i d c [[<- <-]|[_ H]]%lookup_insert_Some [_ <-]%lookup_singleton_Some _; done.
Qed.

(** C10. A mounted revision is the tree of the commit under the pathspec.  When the
    command refuses to mount, with the error that names the revision and the
    filters, no file is selected; when it mounts, something is shown at the root,
    and every session of lookups and listings is answered, without a panic, and
    each answer is what the tree holds: a path names the file that is selected or
    the directory that is on the way there, a listing is sorted and has every
    visible entry once, and inodes are stable and never shared by two paths.  Only
    if a read of the object database failed may something be missing; nothing is
    ever wrong.  (A filter below a directory that has nothing of that name is not
    refused, against the comment at the probe of the root; the theorem allows
    both.)  The directories of the tree are tree objects whose names stay distinct
    as text, and [width] bounds their entries, so that inode numbers do not run
    out ([SoundTree]). *)
Theorem mount_refines_tree `{G : GitTrees} (rev : str) (root : ObjectId) (filters : list str) (faults : list (option str)) (width : Z)
  (failed := ∃ e, Some e ∈ faults) :
  resolve_tree rev = Ok root → start_reader = Ok tt →
  0 ≤ width → SoundTree root width → 2 + width < 2 ^ 64 →
  match mount_rev rev filters faults with
  | Err e => e = NoFiles rev filters ∧
      ∀ c hex, Forall (λ n, n ≠ []) c → visible root filters c = Some (Some hex) → failed
  | Ok v => (∃ name, visible root filters [name] ≠ None) ∧
      ∀ ops, 2 + (1 + reads_of ops) * width < 2 ^ 64 →
      ∃ answers v' place, serve_ops ops v = (Ok answers, v') ∧
        (∀ i j c, place !! i = Some c → place !! j = Some c → i = j) ∧
        Forall2 (answer_ok (visible root filters) failed place) ops answers
  | _ => False
  end.
Proof.
  intros Hrev Hst Hw Hsound Hmax. unfold mount_rev. rewrite Hrev, Hst. cbn [map_err mbind outcome_bind].
  pose proof (mounted_start root filters faults) as HM. fold failed in HM.
  pose proof (lazy_mounted root filters failed width Hsound Hw) as Mt.
  assert (wps (readdir ROOT_INODE) (build_single_lazy root filters faults) (λ o v', ∃ place' l, o = Some l ∧
    {[ROOT_INODE := []]} ⊆ place' ∧ MInv root filters failed v' place' ∧
    next_inode (state v') ≤ 2 + width ∧ listing_ok (visible root filters) failed place' [] l) (λ _ _, False)) as H.
  { by apply (wps_readdir _ _ Mt). }
  unfold wps in H. destruct (readdir _ _) as [[o|e| |] v]; try done.
  destruct H as (place & l & -> & _ & HM' & Hn & Hl). simpl. destruct l as [|[name n] l].
  - split; [done|]. intros c hex Hne Hc.
    assert (Hnone : ∀ name, visible root filters [name] = None ∨ failed) by (intros name; apply Hl; by apply not_elem_of_nil).
    destruct c as [|name c]; [by unfold visible in Hc; simpl in Hc|]. destruct (Hnone name) as [Hname|?]; [|done].
    pose proof (invisible_below root filters [name] c Hne Hname) as Hb. simpl in Hb. congruence.
  - split.
    { exists name. destruct Hl as (_ & _ & Hin & _). destruct (Hin name n) as [_ Hv]; [by left|]. simpl in Hv. by rewrite Hv. }
    intros ops Hops. pose proof (wps_serve_ops _ _ Mt ops v place HM') as H.
    unfold wps in H. specialize (H ltac:(nia)). destruct (serve_ops ops v) as [[answers|e| |] v']; try done.
    destruct H as (place' & _ & HM'' & Hall). exists answers, v', place'. split_and!; try done.
    apply (t_inj _ _ _ (inv_tree _ _ _ _ _ _ (minv_state _ _ _ _ _ HM''))).
Qed.
