(* ===== verification/VfsDiff.v ===== *)
(** * A mounted diff shows both sides

    The tree that [build] makes of the changed files: the directories of all
    paths, and under each labelled name the first object inserted there; a
    directory hides a file of the same name. *)

From stdpp Require Import gmap list sorting.
From S2P Require Import Prelude RustStd Repo Vfs VfsTree VfsServe.

(** ** The specification *)

(** A file to show: its directories, its labelled name, its object. *)
Record item := mkItem { it_dirs : list str; it_name : str; it_oid : str }.
Definition it_path (it : item) : list str := it_dirs it ++ [it_name it].

Definition item_of (path : str) (oid : str) (label : str) : option item :=
  f ← last (components path); Some (mkItem (removelast (components path)) (label_filename f label) oid).
Definition side_items (path oid : option str) (label : str) : list item :=
  match path, oid with Some p, Some o => option_list (item_of p o label) | _, _ => [] end.
Definition items_of (entries : list DiffEntry) (a b : str) : list item :=
  entries ≫= λ e, side_items (path_a e) (oid_a e) a ++ side_items (path_b e) (oid_b e) b.

Definition is_dir_of (items : list item) (c : list str) : Prop := c = [] ∨ ∃ it, it ∈ items ∧ c `prefix_of` it_dirs it.
#[export] Instance is_dir_of_dec items c : Decision (is_dir_of items c).
Proof.
  refine (cast_if (decide (c = [] ∨ Exists (λ it, c `prefix_of` it_dirs it) items)));
    unfold is_dir_of; rewrite <-Exists_exists; done.
Defined.

(** What is at a path: [Some None] a directory, [Some (Some oid)] a file. *)
Definition diff_at (items : list item) (c : list str) : option (option str) :=
  if decide (is_dir_of items c) then Some None
  else match list_find (λ it, it_path it = c) items with
       | Some (_, it) => Some (Some (it_oid it))
       | None => None
       end.

(** ** One step at a time *)

Definition set_dir (V : list str → option (option str)) (c : list str) : list str → option (option str) :=
  λ c', if decide (c' = c) then Some None else V c'.
Definition set_file (V : list str → option (option str)) (c : list str) (oid : str) : list str → option (option str) :=
  λ c', if decide (c' = c) then match V c with Some v => Some v | None => Some (Some oid) end else V c'.
Definition set_dirs (V : list str → option (option str)) (ds : list str) : list str → option (option str) :=
  λ c', if decide (c' `prefix_of` ds) then Some None else V c'.

Lemma prefix_snoc_inv {A} (c ds : list A) n : c `prefix_of` ds ++ [n] → c = ds ++ [n] ∨ c `prefix_of` ds.
Proof.
  intros [k Hk]. destruct k as [|x k _] using rev_ind; [left; by rewrite app_nil_r in Hk|right].
  rewrite app_assoc in Hk. apply app_inj_tail in Hk as [-> _]. by apply prefix_app_r.
Qed.

Lemma set_dirs_snoc V ds n c : set_dirs V (ds ++ [n]) c = set_dir (set_dirs V ds) (ds ++ [n]) c.
Proof.
  unfold set_dirs, set_dir. destruct (decide (c = ds ++ [n])) as [->|Hne]; [by rewrite decide_True|].
  apply decide_ext. split; [|intros; by apply prefix_app_r].
  intros Hp. by destruct (prefix_snoc_inv _ _ _ Hp).
Qed.

Lemma diff_at_snoc items it c : diff_at (items ++ [it]) c = set_file (set_dirs (diff_at items) (it_dirs it)) (it_path it) (it_oid it) c.
Proof.
  assert (Hd : is_dir_of (items ++ [it]) c ↔ c `prefix_of` it_dirs it ∨ is_dir_of items c).
  { unfold is_dir_of. setoid_rewrite elem_of_app. setoid_rewrite list_elem_of_singleton. naive_solver. }
  unfold set_file, set_dirs, diff_at.
  destruct (decide (c `prefix_of` it_dirs it)) as [Hp|Hp].
  { rewrite decide_True by (apply Hd; by left). rewrite decide_False; [done|]. intros ->. by apply prefix_snoc_not in Hp. }
  destruct (decide (is_dir_of items c)) as [Hi|Hi].
  { rewrite decide_True by (apply Hd; by right). destruct (decide (c = it_path it)) as [->|?]; [|done].
    by rewrite decide_False, decide_True. }
  rewrite decide_False by (rewrite Hd; tauto).
  destruct (list_find (λ it, it_path it = c) items) as [[i it']|] eqn:Hf.
  - rewrite (list_find_app_l _ _ _ _ _ Hf). destruct (decide (c = it_path it)) as [<-|?]; [|done].
    by rewrite !decide_False, Hf.
  - rewrite (list_find_app_r _ _ _ Hf). cbn. destruct (decide (c = it_path it)) as [<-|?].
    + by rewrite decide_True, !decide_False, Hf by done.
    + by rewrite decide_False.
Qed.

(** ** The state *)
Section diff.
Context {G : GitTrees}.

(** The shape of the tree, with nothing missing and nothing left to read. *)
Record Full (V : list str → option (option str)) (s : VfsState) (place : gmap Z (list str)) : Prop := {
  f_tree : Tree V s place;
  f_all c v : V c = Some v → ∃ i, place !! i = Some c;
  f_eager i d : dirs s !! i = Some d → lazy d = None;
}.

Lemma full_ext V V' s place : (∀ c, V' c = V c) → Full V s place → Full V' s place.
Proof. intros Heq [HT Ha He]. split; [by eapply tree_ext; [intros ???; apply Heq|]|intros c v; rewrite Heq; apply Ha|done]. Qed.

(** What is there lies in a directory that is there. *)
Lemma full_parent V s place c n v : Full V s place → V (c ++ [n]) = Some v → V c = Some None.
Proof.
  intros [HT Ha _] Hv. apply Ha in Hv as [j Hj]. apply (t_parent _ _ _ HT) in Hj as (i & d & Hi & Hd & _).
  apply (t_dir _ _ _ HT) in Hd as (c' & Hc' & Hv). congruence.
Qed.

Lemma full_below V s place c r : Full V s place → V c = None → V (c ++ r) = None.
Proof.
  intros HF Hc. induction r as [|n r IH] using rev_ind; [by rewrite app_nil_r|]. rewrite app_assoc.
  destruct (V ((c ++ r) ++ [n])) eqn:Hv; [|done]. apply (full_parent _ _ _ _ _ _ HF) in Hv. congruence.
Qed.

Definition own_of (k : NodeKind) : option DirState := match k with Dir => Some (mkDirState ∅ None) | File _ _ => None end.

(** A child that was not there. *)
Lemma full_add V V' s place parent d c name k : Full V s place → dirs s !! parent = Some d → place !! parent = Some c →
  children d !! name = None → next_inode s + 1 < 2 ^ 64 →
  V' (c ++ [name]) = Some (view k) → (∀ c', c' ≠ c ++ [name] → V' c' = V c') →
  Full V' (with_child parent d name k (own_of k) s) (<[next_inode s := c ++ [name]]> place).
Proof.
  intros [HT Ha He] Hd Hc Hfree Hmax Hk Hrest. destruct (tree_fresh _ _ _ HT) as (Hfresh & Hdfresh & _).
  pose proof (tree_absent _ _ _ _ _ _ _ HT Hd Hc Hfree) as Hnew. split.
  - apply tree_add; try done; [|by destruct k]. eapply tree_ext; [|done].
    intros i c' Hi. apply Hrest. intros ->. by destruct (Hnew i).
  - intros c' v Hv. destruct (decide (c' = c ++ [name])) as [->|Hne]; [exists (next_inode s); by rewrite lookup_insert_eq|].
    rewrite Hrest in Hv by done. apply Ha in Hv as [i Hi]. exists i. rewrite lookup_insert_ne; [done|]. congruence.
  - intros i d' [[-> ->]|[(-> & _ & Hown)|(_ & _ & H)]]%with_child_dirs; [exact (He _ _ Hd)| |by apply (He i)|done].
    destruct k; by simplify_eq/=.
Qed.

(** A file that gives way to a directory. *)
Definition without_child (parent : Z) (d : DirState) (name : str) (s : VfsState) : VfsState :=
  insert_dir parent (mkDirState (delete name (children d)) (lazy d)) s.
Definition unset (V : list str → option (option str)) (c : list str) : list str → option (option str) :=
  λ c', if decide (c' = c) then None else V c'.

Lemma full_drop V s place parent d c name j hex : Full V s place → dirs s !! parent = Some d → place !! parent = Some c →
  children d !! name = Some j → V (c ++ [name]) = Some (Some hex) →
  Full (unset V (c ++ [name])) (without_child parent d name s) (delete j place).
Proof.
  intros [HT Ha He] Hd Hc Hj Hv. pose proof (t_child _ _ _ HT _ _ _ _ _ Hd Hc Hj) as Hpj.
  assert (Hjfile : dirs s !! j = None).
  { destruct (dirs s !! j) eqn:H; [|done]. apply (t_dir _ _ _ HT) in H as (c' & Hc' & ?). congruence. }
  assert (Hlive : ∀ i d', dirs s !! i = Some d' → i ≠ j) by (intros i d' ? ->; congruence).
  assert (Hpl : ∀ i c', place !! i = Some c' → i ≠ j → unset V (c ++ [name]) c' = V c').
  { intros i c' Hi Hne. unfold unset. rewrite decide_False; [done|]. intros ->. by apply Hne, (t_inj _ _ _ HT _ _ _ Hi). }
  assert (Hdirs : ∀ i d', dirs (without_child parent d name s) !! i = Some d' → is_Some (dirs s !! i) ∧ lazy d' = None ∧
    ∃ d0, dirs s !! i = Some d0 ∧ ∀ n k, children d' !! n = Some k → children d0 !! n = Some k ∧ (i = parent → n ≠ name)).
  { unfold without_child. cbn [insert_dir dirs]. intros i d' [[<- <-]|[Hne H]]%lookup_insert_Some.
    - split; [eauto|]. split; [exact (He _ _ Hd)|]. exists d. split; [done|]. intros n k H. simpl in H. apply lookup_delete_Some in H as [? ?]. auto.
    - split; [eauto|]. split; [by eapply He|]. exists d'. split; [done|]. intros n k ?. split; [done|]. congruence. }
  split; [split|..].
  - rewrite lookup_delete_ne; [apply HT|]. intros ->. rewrite (t_root _ _ _ HT) in Hpj. by destruct c.
  - intros i k c' [_ Hi]%lookup_delete_Some [_ Hk]%lookup_delete_Some. by eapply (t_inj _ _ _ HT).
  - intros i c' [Hne Hi]%lookup_delete_Some. rewrite (Hpl i) by done. by apply HT.
  - intros i d' ([d0 Hd0] & _)%Hdirs. destruct (t_dir _ _ _ HT _ _ Hd0) as (c' & Hc' & ?). exists c'.
    pose proof (Hlive _ _ Hd0). rewrite lookup_delete_ne by done. split; [done|]. by rewrite (Hpl i).
  - intros i c' [Hne Hi]%lookup_delete_Some. rewrite (Hpl i) by done. intros Hv'. unfold without_child. cbn [insert_dir dirs].
    destruct (decide (parent = i)) as [->|?]; [rewrite lookup_insert_eq; eauto|]. rewrite lookup_insert_ne by done.
    by apply (t_isdir _ _ _ HT) with c'.
  - intros i d' c' n k (_ & _ & d0 & Hd0 & Hch)%Hdirs [_ Hc']%lookup_delete_Some [Hk Hn]%Hch.
    pose proof (t_child _ _ _ HT _ _ _ _ _ Hd0 Hc' Hk) as Hpk. rewrite lookup_delete_ne; [done|]. intros <-.
    rewrite Hpk in Hpj. apply (inj Some), app_inj_tail in Hpj as [-> ->]. apply Hn; [|done]. by apply (t_inj _ _ _ HT _ _ c).
  - intros k c' n [Hne Hk]%lookup_delete_Some. apply (t_parent _ _ _ HT) in Hk as (i & d' & Hi & Hd' & Hch). exists i.
    pose proof (Hlive _ _ Hd'). rewrite lookup_delete_ne by done. unfold without_child. cbn [insert_dir dirs].
    destruct (decide (parent = i)) as [<-|?]; [|exists d'; by rewrite lookup_insert_ne]. simplify_eq.
    rewrite lookup_insert_eq. eexists. split; [done|]. split; [done|]. simpl. rewrite lookup_delete_ne; [done|]. congruence.
  - intros c' v Hv'. unfold unset in Hv'. destruct (decide (c' = c ++ [name])) as [|Hne]; [done|]. apply Ha in Hv' as [i Hi].
    exists i. rewrite lookup_delete_ne; [done|]. congruence.
  - intros i d' (_ & ? & _)%Hdirs. done.
Qed.

Lemma with_child_over parent d name k own s : parent ≠ next_inode s →
  with_child parent (mkDirState (delete name (children d)) (lazy d)) name k own (without_child parent d name s) = with_child parent d name k own s.
Proof.
  intros Hne. unfold with_child, without_child. simpl. rewrite insert_delete_eq. f_equal.
  destruct own; simpl; [rewrite (insert_insert_ne _ _ parent) by done|]; by rewrite insert_insert_eq.
Qed.

(** Directories and files that are inserted. *)
Lemma add_dir_run parent name s d : dirs s !! parent = Some d → parent ≠ next_inode s →
  (i ← alloc_inode; _ ← modify (insert_node i Dir); _ ← modify (insert_dir i (mkDirState ∅ None));
   _ ← add_child parent name i; mret i) s = (Ok (next_inode s), with_child parent d name Dir (own_of Dir) s).
Proof.
  intros Hd Hne. unfold with_child, add_child, with_dir, mbind, ST_bind, alloc_inode, modify, insert_node, insert_dir, mret, ST_ret.
  simpl. rewrite lookup_insert_ne by done. by rewrite Hd.
Qed.

Lemma add_file_run parent name size src s d : dirs s !! parent = Some d →
  (i ← alloc_inode; _ ← modify (insert_node i (File size src)); add_child parent name i) s =
  (Ok tt, with_child parent d name (File size src) (own_of (File size src)) s).
Proof.
  intros Hd. unfold with_child, add_child, with_dir, mbind, ST_bind, alloc_inode, modify, insert_node, insert_dir.
  simpl. by rewrite Hd.
Qed.

Lemma child_of_full V s place parent d c name : Full V s place → dirs s !! parent = Some d → place !! parent = Some c →
  match children d !! name with
  | Some j => ∃ k, nodes s !! j = Some (mkNode j k) ∧ place !! j = Some (c ++ [name]) ∧ V (c ++ [name]) = Some (view k)
  | None => V (c ++ [name]) = None
  end.
Proof.
  intros [HT Ha He] Hd Hc. destruct (children d !! name) as [j|] eqn:Hj; [by eapply tree_entry|].
  destruct (V (c ++ [name])) as [v|] eqn:Hv; [|done]. apply Ha in Hv as [i Hi]. by destruct (tree_absent _ _ _ _ _ _ _ HT Hd Hc Hj i).
Qed.

Lemma ensure_dir_unfold parent name s : ensure_dir parent name s =
  match existing_dir s parent name with
  | Some i => (Ok i, s)
  | None => (i ← alloc_inode; _ ← modify (insert_node i Dir); _ ← modify (insert_dir i (mkDirState ∅ None));
             _ ← add_child parent name i; mret i) s
  end.
Proof. unfold ensure_dir, gets, mbind at 1, ST_bind at 1. by destruct (existing_dir s parent name). Qed.

Lemma wps_ensure_dir V s place parent c name : Full V s place → place !! parent = Some c → V c = Some None → next_inode s + 1 < 2 ^ 64 →
  wps (ensure_dir parent name) s (λ i s', ∃ place', Full (set_dir V (c ++ [name])) s' place' ∧
    place' !! i = Some (c ++ [name]) ∧ next_inode s' ≤ next_inode s + 1) (λ _ _, False).
Proof.
  intros HF Hc Hv Hmax. pose proof HF as [HT Ha He]. destruct (t_isdir _ _ _ HT _ _ Hc Hv) as [d Hd].
  destruct (tree_fresh _ _ _ HT) as (Hfresh & Hdfresh & Hnext). assert (Hne : parent ≠ next_inode s) by congruence.
  pose proof (child_of_full _ _ _ _ _ _ name HF Hd Hc) as Hch.
  unfold wps. rewrite ensure_dir_unfold. unfold existing_dir, child_inode. rewrite Hd. cbn [mbind option_bind].
  pose proof (add_dir_run parent name s d Hd Hne) as Hrun.
  pose proof (with_child_next parent d name Dir (own_of Dir) s) as Hn.
  assert (Hset : ∀ c', c' ≠ c ++ [name] → set_dir V (c ++ [name]) c' = V c') by (intros; unfold set_dir; by rewrite decide_False).
  destruct (children d !! name) as [j|] eqn:Hj; cbn [mbind option_bind].
  - destruct Hch as (k & Hk & Hpj & Hvj). rewrite Hk. cbn [mbind option_bind kind]. destruct k as [|size src].
    + exists place. split_and!; [|done|lia]. eapply full_ext; [|done]. intros c'. unfold set_dir. by destruct (decide _) as [->|].
    + rewrite Hrun, <-with_child_over by done. eexists. split_and!; [eapply (full_add _ (set_dir V (c ++ [name])) (without_child parent d name s))| |].
      * by eapply full_drop.
      * unfold without_child. cbn [insert_dir dirs]. by rewrite lookup_insert_eq.
      * rewrite lookup_delete_ne; [done|]. intros ->. rewrite Hc in Hpj. apply (inj Some), (f_equal length) in Hpj. rewrite length_app in Hpj. simpl in Hpj. lia.
      * simpl. by rewrite lookup_delete_eq.
      * done.
      * unfold set_dir. by rewrite decide_True.
      * intros c' Hc'. rewrite Hset by done. unfold unset. by rewrite decide_False.
      * simpl. by rewrite lookup_insert_eq.
      * rewrite with_child_over, Hn by (done || lia). lia.
  - rewrite Hrun. exists (<[next_inode s := c ++ [name]]> place). rewrite lookup_insert_eq, Hn by lia. split_and!; [|done|lia].
    eapply (full_add _ _ _ _ _ _ _ _ Dir); try done. unfold set_dir. by rewrite decide_True.
Qed.

Lemma wps_ensure_dirs V s place ds : Full V s place → V [] = Some None → next_inode s + len ds < 2 ^ 64 →
  wps (fold_st ensure_dir ROOT_INODE ds) s (λ i s', ∃ place', Full (set_dirs V ds) s' place' ∧
    place' !! i = Some ds ∧ next_inode s' ≤ next_inode s + len ds) (λ _ _, False).
Proof.
  intros HF Hv Hmax. apply (wps_fold_st _ (λ dn i s', ∃ place', Full (set_dirs V dn) s' place' ∧
    place' !! i = Some dn ∧ next_inode s' ≤ next_inode s + len dn)).
  - intros dn i name rest s' Hds (place' & HF' & Hi & Hn). rewrite Hds in Hmax. unfold len in *. rewrite length_app in *. simpl in Hmax.
    eapply wps_mono; [eapply (wps_ensure_dir _ _ _ _ dn); try done; [unfold set_dirs; by rewrite decide_True|lia]| |done].
    intros j s'' (place'' & HF'' & Hj & Hn'). exists place''. split_and!; [|done|simpl; lia].
    eapply full_ext; [|done]. intros. apply set_dirs_snoc.
  - exists place. split_and!; [|apply HF|unfold len; simpl; lia]. eapply full_ext; [|done]. intros c. unfold set_dirs.
    destruct (decide _) as [->%prefix_nil_inv|]; done.
Qed.

Lemma wps_eager_insert V s place path oid label it : Full V s place → V [] = Some None → item_of path oid label = Some it →
  next_inode s + len (it_path it) < 2 ^ 64 →
  wps (eager_insert path oid (Some label)) s (λ _ s', ∃ place', Full (set_file (set_dirs V (it_dirs it)) (it_path it) (it_oid it)) s' place' ∧
    next_inode s' ≤ next_inode s + len (it_path it)) (λ _ _, False).
Proof.
  intros HF Hv Hit Hmax. unfold item_of in Hit. unfold eager_insert. destruct (last (components path)) as [f|]; [|done].
  simpl in Hit. simplify_eq. unfold it_path, len in *. simpl in *. rewrite length_app in *. simpl in *.
  set (ds := removelast (components path)) in *. set (name := label_filename f label) in *.
  apply wps_bind. eapply wps_mono; [eapply wps_ensure_dirs; [done|done|unfold len; lia]| |done]. unfold len.
  intros parent s' (place' & HF' & Hp & Hn). apply wps_bind, wps_gets. unfold child_inode.
  assert (Hvd : set_dirs V ds ds = Some None) by (unfold set_dirs; by rewrite decide_True).
  pose proof HF' as [HT _ _]. destruct (t_isdir _ _ _ HT _ _ Hp Hvd) as [d Hd]. rewrite Hd. cbn [mbind option_bind].
  pose proof (child_of_full _ _ _ _ _ _ name HF' Hd Hp) as Hch. destruct (children d !! name) as [j|] eqn:Hj.
  - rewrite bool_decide_true by eauto. apply wps_ret. destruct Hch as (k & _ & _ & Hvj). exists place'. split; [|lia].
    eapply full_ext; [|done]. intros c. unfold set_file. destruct (decide _) as [->|]; [by rewrite Hvj|done].
  - rewrite bool_decide_false by (intros [? ?]; done). destruct (tree_fresh _ _ _ HT) as (Hfresh & Hdfresh & Hnext).
    pose proof (add_file_run parent name u64_max (mkBlobSource oid) s' d Hd) as Hrun.
    pose proof (with_child_next parent d name (File u64_max (mkBlobSource oid)) None s') as Hn'.
    cbn [own_of] in Hrun. unfold wps. rewrite Hrun. exists (<[next_inode s' := ds ++ [name]]> place'). split; [|lia].
    eapply (full_add _ _ _ _ _ _ _ _ (File u64_max (mkBlobSource oid))); try done; [lia| |].
    + unfold set_file. by rewrite decide_True, Hch.
    + intros c Hc. unfold set_file. by rewrite decide_False.
Qed.

Lemma eager_insert_none path oid label s : item_of path oid label = None → eager_insert path oid (Some label) s = (Ok tt, s).
Proof. unfold item_of, eager_insert. by destruct (last (components path)). Qed.

(** The inodes a list of files may take. *)
Definition slots (items : list item) : Z := sumZ (len ∘ it_path <$> items).
Lemma slots_app a b : slots (a ++ b) = slots a + slots b.
Proof. unfold slots. by rewrite fmap_app, sumZ_app. Qed.
Lemma slots_nonneg a : 0 ≤ slots a.
Proof. apply sumZ_nonneg, Forall_fmap, Forall_true. intros it. unfold len. simpl. lia. Qed.

Lemma diff_at_root items : diff_at items [] = Some None.
Proof. unfold diff_at. rewrite decide_True; [done|]. by left. Qed.

Lemma wps_insert_side items path oid label s place : Full (diff_at items) s place → next_inode s + slots (side_items path oid label) < 2 ^ 64 →
  wps (insert_side path oid label) s (λ _ s', ∃ place', Full (diff_at (items ++ side_items path oid label)) s' place' ∧
    next_inode s' ≤ next_inode s + slots (side_items path oid label)) (λ _ _, False).
Proof.
  intros HF Hmax. pose proof (slots_nonneg (side_items path oid label)) as Hnn. unfold insert_side, side_items in *.
  destruct path as [p|]; [|apply wps_ret; exists place; rewrite app_nil_r; split; [done|lia]].
  destruct oid as [o|]; [|apply wps_ret; exists place; rewrite app_nil_r; split; [done|lia]].
  destruct (item_of p o label) as [it|] eqn:Hit.
  - change (option_list (Some it)) with [it] in *. assert (slots [it] = len (it_path it)) as Hs by (unfold slots; simpl; lia). rewrite Hs in Hmax, Hnn |- *.
    eapply wps_mono; [by eapply wps_eager_insert; [..|apply diff_at_root| |]| |done].
    intros u s' (place' & HF' & Hn). exists place'. split; [|done]. eapply full_ext; [|done]. intros c. apply diff_at_snoc.
  - change (option_list None) with (@nil item) in *. unfold wps. rewrite eager_insert_none by done. exists place. rewrite app_nil_r. split; [done|lia].
Qed.

Lemma wps_build a b entries : ∀ items s place, Full (diff_at items) s place → next_inode s + slots (items_of entries a b) < 2 ^ 64 →
  wps (for_each (λ entry, _ ← insert_side (path_a entry) (oid_a entry) a; insert_side (path_b entry) (oid_b entry) b) entries) s
    (λ _ s', ∃ place', Full (diff_at (items ++ items_of entries a b)) s' place' ∧
      next_inode s' ≤ next_inode s + slots (items_of entries a b)) (λ _ _, False).
Proof.
  induction entries as [|e entries IH]; intros items s place HF Hmax; cbn [for_each].
  { apply wps_ret. exists place. unfold items_of. simpl. rewrite app_nil_r. split; [done|]. change (slots []) with 0. lia. }
  change (items_of (e :: entries) a b) with ((side_items (path_a e) (oid_a e) a ++ side_items (path_b e) (oid_b e) b) ++ items_of entries a b) in *.
  rewrite !slots_app in Hmax. pose proof (slots_nonneg (items_of entries a b)). pose proof (slots_nonneg (side_items (path_b e) (oid_b e) b)).
  apply wps_bind, wps_bind. eapply wps_mono; [apply (wps_insert_side items _ _ _ _ place HF); lia| |done].
  intros u s' (place' & HF' & Hn). eapply wps_mono; [eapply wps_insert_side; [done|lia]| |done].
  intros u' s'' (place'' & HF'' & Hn'). eapply wps_mono; [eapply IH; [done|lia]| |done].
  intros u'' s3 (place3 & HF3 & Hn3). exists place3. rewrite <-!app_assoc in *. split; [done|]. rewrite !slots_app. lia.
Qed.

(** The interface of [VfsServe]: nothing is left to read. *)
Lemma eager_mounted V : (∀ c n hex, V c = Some (Some hex) → V (c ++ [n]) = None) → (∀ c r, V c = None → V (c ++ r) = None) →
  Mounted V False (λ v place, pathspec v = None ∧ Full V (state v) place) 0.
Proof.
  intros Hfile Hbelow. split; [by intros v place [_ [HT _ _]]|done|by intros; apply Hbelow|done|].
  intros i v place [Hp HF] _. unfold wps, populate_if_lazy. rewrite Hp. exists place. split_and!; try done; [lia|].
  intros d c name Hd Hc Hn. left. pose proof (child_of_full _ _ _ _ _ _ name HF Hd Hc) as Hch. by rewrite Hn in Hch.
Qed.

Lemma full_file V s place c n hex : Full V s place → V c = Some (Some hex) → V (c ++ [n]) = None.
Proof.
  intros HF Hc. destruct (V (c ++ [n])) eqn:Hv; [|done]. apply (full_parent _ _ _ _ _ _ HF) in Hv. congruence.
Qed.

Lemma wps_build_state entries a b : 2 + slots (items_of entries a b) < 2 ^ 64 →
  ∃ s place, build entries a b = Ok s ∧ Full (diff_at (items_of entries a b)) s place ∧ next_inode s < 2 ^ 64.
Proof.
  intros Hmax. assert (Full (diff_at []) (add_eager_root empty_state) {[ROOT_INODE := []]}) as H0.
  { split; [by apply tree_start| |].
    - intros c v. unfold diff_at. destruct (decide _) as [[->|(it & H & _)]|]; [|by apply elem_of_nil in H|done]. exists ROOT_INODE. by rewrite lookup_singleton_eq.
    - intros i d Hd. cbn [add_eager_root insert_dir insert_node dirs empty_state] in Hd. by apply lookup_insert_Some in Hd as [[_ <-]|[_ ?]]. }
  pose proof (wps_build a b entries [] _ _ H0 Hmax) as H. unfold wps in H. unfold build.
  destruct (for_each _ _ _) as [[u|e| |] s]; try done. destruct H as (place & HF & Hn). exists s, place. split_and!; try done.
  change (next_inode (add_eager_root empty_state)) with 2 in Hn. lia.
Qed.
End diff.

(** ** Labels *)

Definition U (label : str) : str := lit "__" ++ label.
(** Labels that keep their sides apart: without a dot, neither the end of the other. *)
Definition labels_apart (a b : str) : Prop := (x2e ∉ a) ∧ (x2e ∉ b) ∧ ¬ suffix (U a) (U b) ∧ ¬ suffix (U b) (U a).

Definition name_parts (f : str) : str * str :=
  match rsplit_once f x2e with Some ((_ :: _) as stem, ext) => (stem, x2e :: ext) | _ => (f, []) end.

Lemma label_filename_parts f l : label_filename f l = (name_parts f).1 ++ U l ++ (name_parts f).2.
Proof. unfold label_filename, name_parts, U. destruct (rsplit_once f x2e) as [[[|x s] e]|]; simpl; by rewrite <-?app_assoc, ?app_nil_r. Qed.

Lemma rsplit_once_parts s c a b : rsplit_once s c = Some (a, b) → s = a ++ c :: b ∧ c ∉ b.
Proof.
  unfold rsplit_once. destruct (split_once (rev s) c) as [[x y]|] eqn:H; [|done]. intros [= <- <-].
  apply split_once_Some in H as [H Hn]. split; [|by rewrite list_elem_of_In, <-in_rev, <-list_elem_of_In].
  rewrite <-(rev_involutive s), H, rev_app_distr. simpl. by rewrite <-app_assoc.
Qed.
Lemma rsplit_once_none s c : rsplit_once s c = None → c ∉ s.
Proof.
  unfold rsplit_once. destruct (split_once (rev s) c) as [[x y]|] eqn:H; [done|]. intros _.
  apply split_once_None in H. by rewrite list_elem_of_In, <-in_rev, <-list_elem_of_In in H.
Qed.

(** The parts make up the name: an extension after the last dot, or a name
    whose only dot may be the first character. *)
Lemma name_parts_spec f (p := name_parts f) : f = p.1 ++ p.2 ∧
  ((∃ e, p.2 = x2e :: e ∧ (x2e ∉ e) ∧ p.1 ≠ []) ∨ (p.2 = [] ∧ (x2e ∉ f ∨ ∃ r, f = x2e :: r ∧ x2e ∉ r))).
Proof.
  unfold p, name_parts. destruct (rsplit_once f x2e) as [[[|x s] e]|] eqn:H; simpl.
  - apply rsplit_once_parts in H as [-> He]. rewrite app_nil_r. split; [done|right]. eauto.
  - apply rsplit_once_parts in H as [-> He]. split; [done|left]. eauto.
  - apply rsplit_once_none in H. rewrite app_nil_r. auto.
Qed.

(** No dot after the first character, against a dot in the middle. *)
Lemma dotless_ext_ne f l s e : x2e ∉ U l → s ≠ [] → (x2e ∉ f ∨ ∃ r, f = x2e :: r ∧ x2e ∉ r) → f ++ U l ≠ s ++ x2e :: e.
Proof.
  intros Hl Hs Hf Heq. destruct Hf as [Hf|(r & -> & Hr)].
  - assert (x2e ∈ f ++ U l) as H by (rewrite Heq; set_solver). apply elem_of_app in H as [?|?]; done.
  - destruct s as [|x s]; [done|]. injection Heq as _ Heq.
    assert (x2e ∈ r ++ U l) as H by (rewrite Heq; set_solver). apply elem_of_app in H as [?|?]; done.
Qed.

Lemma label_filename_inj f g a b : a = b ∧ x2e ∉ a ∨ labels_apart a b → label_filename f a = label_filename g b → f = g ∧ a = b.
Proof.
  intros Hab Heq. rewrite !label_filename_parts in Heq.
  assert ((x2e ∉ U a) ∧ (x2e ∉ U b)) as [Ha Hb].
  { unfold U. destruct Hab as [[-> ?]|(? & ? & _)]; rewrite !not_elem_of_app; repeat split; try done; by apply (bool_decide_unpack _). }
  destruct (name_parts_spec f) as [Hf Hfp], (name_parts_spec g) as [Hg Hgp].
  set (p := name_parts f) in *. set (q := name_parts g) in *. clearbody p q. rewrite Hf, Hg.
  assert (p.1 ++ U a = q.1 ++ U b ∧ p.2 = q.2) as [H1 H2].
  { destruct Hfp as [(e & He & Hne & Hp)|[He Hd]], Hgp as [(e' & He' & Hne' & Hq)|[He' Hd']]; rewrite He, He' in *.
    - rewrite !app_assoc in Heq. apply not_elem_of_app_cons_inv_r in Heq as (? & _ & ->); done.
    - rewrite app_nil_r, app_assoc in Heq. symmetry in Heq. apply dotless_ext_ne in Heq; [done|done| |].
      + by destruct p.1.
      + by rewrite Hg, app_nil_r in Hd'.
    - rewrite app_nil_r, app_assoc in Heq. apply dotless_ext_ne in Heq; [done|done| |].
      + by destruct q.1.
      + by rewrite Hf, app_nil_r in Hd.
    - by rewrite !app_nil_r in Heq. }
  rewrite H2. destruct Hab as [[-> _]|(_ & _ & Hs & Hs')]; [apply app_inv_tail in H1 as ->; done|].
  apply app_eq_inv in H1 as [(k & _ & H)|(k & _ & H)]; [destruct Hs|destruct Hs']; rewrite H; by apply suffix_app_r.
Qed.

(** Every side of every change is shown, unless a directory has its name. *)
Definition each_once (entries : list DiffEntry) : Prop :=
  ∀ e e' p p', e ∈ entries → e' ∈ entries → components p = components p' →
    (path_a e = Some p ∧ path_a e' = Some p') ∨ (path_b e = Some p ∧ path_b e' = Some p') → e = e'.

Lemma items_of_elem entries a b it : it ∈ items_of entries a b → ∃ e p o l, e ∈ entries ∧ item_of p o l = Some it ∧
  ((l = a ∧ path_a e = Some p ∧ oid_a e = Some o) ∨ (l = b ∧ path_b e = Some p ∧ oid_b e = Some o)).
Proof.
  unfold items_of. intros (e & Hit & He)%list_elem_of_bind. exists e. unfold side_items in Hit.
  apply elem_of_app in Hit as [Hit|Hit].
  - destruct (path_a e) as [p|]; [|by apply elem_of_nil in Hit]. destruct (oid_a e) as [o|]; [|by apply elem_of_nil in Hit].
    destruct (item_of p o a) eqn:Hi; [apply list_elem_of_singleton in Hit as ->|by apply elem_of_nil in Hit]. exists p, o, a. auto 10.
  - destruct (path_b e) as [p|]; [|by apply elem_of_nil in Hit]. destruct (oid_b e) as [o|]; [|by apply elem_of_nil in Hit].
    destruct (item_of p o b) eqn:Hi; [apply list_elem_of_singleton in Hit as ->|by apply elem_of_nil in Hit]. exists p, o, b. auto 10.
Qed.

Lemma snoc_of_last {A} (l : list A) x : last l = Some x → l = removelast l ++ [x].
Proof.
  destruct l as [|y l _] using rev_ind; [done|]. rewrite last_snoc, removelast_last. by intros [= ->].
Qed.

Lemma same_path_same_oid entries a b it it' : labels_apart a b → each_once entries → it ∈ items_of entries a b → it' ∈ items_of entries a b →
  it_path it' = it_path it → it_oid it' = it_oid it.
Proof.
  intros Hab Honce (e & p & o & l & He & Hit & Hl)%items_of_elem (e' & p' & o' & l' & He' & Hit' & Hl')%items_of_elem Heq.
  unfold item_of in Hit, Hit'. destruct (last (components p)) as [f|] eqn:Hf; [|done]. destruct (last (components p')) as [f'|] eqn:Hf'; [|done].
  simpl in *. simplify_eq. unfold it_path in Heq. simpl in *. apply app_inj_tail in Heq as [Hd Hn].
  assert (f' = f ∧ l' = l) as [-> ->].
  { apply label_filename_inj in Hn; [done|]. destruct Hab as (? & ? & ? & ?).
    destruct Hl as [[-> _]|[-> _]], Hl' as [[-> _]|[-> _]]; [left|right|right|left]; done. }
  assert (components p' = components p) as Hc by (rewrite (snoc_of_last _ _ Hf), (snoc_of_last _ _ Hf'); congruence).
  destruct Hl as [(-> & Hp & Ho)|(-> & Hp & Ho)], Hl' as [(? & Hp' & Ho')|(? & Hp' & Ho')]; subst;
    try (destruct Hab as (_ & _ & [] & _); done).
  - assert (e = e') as <- by (apply (Honce e e' p p'); auto). congruence.
  - assert (e = e') as <- by (apply (Honce e e' p p'); auto). congruence.
Qed.

Lemma diff_at_shown items it : it ∈ items → (∀ it', it' ∈ items → it_path it' = it_path it → it_oid it' = it_oid it) →
  (∀ it', it' ∈ items → ¬ prefix (it_path it) (it_dirs it')) → diff_at items (it_path it) = Some (Some (it_oid it)).
Proof.
  intros Hin Hsame Hno. unfold diff_at. rewrite decide_False.
  2:{ intros [H|(it' & Hit' & Hp)]; [by apply app_eq_nil in H as [_ ?]|by eapply Hno]. }
  destruct (list_find _ items) as [[i it']|] eqn:Hf.
  - apply list_find_Some in Hf as (Hi & Hp & _). rewrite (Hsame it'); [done| |done]. by eapply list_elem_of_lookup_2.
  - apply list_find_None in Hf. rewrite Forall_forall in Hf. by destruct (Hf _ Hin).
Qed.

(** ** The mounted diff *)

(** No two sides meet under one name: the labels are apart, every path is changed
    once, and no directory has the name of a side. *)
Definition clash_free (entries : list DiffEntry) (a b : str) : Prop :=
  labels_apart a b ∧ each_once entries ∧
  ∀ it it', it ∈ items_of entries a b → it' ∈ items_of entries a b → ¬ prefix (it_path it) (it_dirs it').

(** Then the tree has the directories of the sides, and the sides. *)
Lemma diff_at_clash_free entries a b c v : clash_free entries a b →
  diff_at (items_of entries a b) c = Some v ↔
  match v with
  | None => c = [] ∨ ∃ it, it ∈ items_of entries a b ∧ prefix c (it_dirs it)
  | Some hex => ∃ it, it ∈ items_of entries a b ∧ it_path it = c ∧ it_oid it = hex
  end.
Proof.
  intros (Hap & Honce & Hno).
  assert (Hshown : ∀ it, it ∈ items_of entries a b → diff_at (items_of entries a b) (it_path it) = Some (Some (it_oid it))).
  { intros it Hin. apply diff_at_shown; [done| |by intros; apply Hno]. intros it' Hin' Heq. by apply (same_path_same_oid entries a b). }
  split.
  - unfold diff_at. destruct (decide _) as [Hd|Hd]; [by intros [= <-]|]. destruct (list_find _ _) as [[i it]|] eqn:Hf; [|done].
    intros [= <-]. apply list_find_Some in Hf as (Hi & Hp & _). exists it. split_and!; [by eapply list_elem_of_lookup_2|done..].
  - destruct v as [hex|]; [by intros (it & Hin & <- & <-); apply Hshown|]. intros Hd. unfold diff_at. by rewrite decide_True.
Qed.

(** C14. A mounted diff shows both sides of every change.  The command refuses
    equal commits, an empty difference and equal labels.  Otherwise, when no two
    sides meet under one name ([clash_free]: no label has a dot or is the end of
    the other, each path is changed once, and no directory has the name of a
    side), it mounts, without a panic, and the tree it shows has exactly the
    directories of the changed files and, under its labelled name, each side of
    each change with its object: every session of lookups and listings is answered
    with that tree, listings sorted and complete, inodes stable and never shared.
    (What happens when sides do meet contradicts the comments of the code, and is
    recorded apart.) *)
Theorem diff_mount_shows_sides `{G : GitTrees} (args : MountDiffArgs) (entries : list DiffEntry)
  (a := default (sanitize_label (rev_a args)) (label_a args)) (b := default (sanitize_label (rev_b args)) (label_b args))
  (items := items_of entries a b) :
  run_diff (rev_a args) (rev_b args) (paths args) = Ok entries →
  start_reader = Ok tt → 2 + slots items < 2 ^ 64 →
  (∀ ca cb, rev_parse_commit (rev_a args) = Ok ca → rev_parse_commit (rev_b args) = Ok cb → ca = cb →
    ∃ m, mount_diff args = Err (Failed m)) ∧
  (ensure_distinct_commits (rev_a args) (rev_b args) = Ok tt →
    (entries = [] → mount_diff args = Err (NoneDiffer (rev_a args) (rev_b args) (paths args))) ∧
    (entries ≠ [] → a = b → mount_diff args = Err (LabelsEqual a)) ∧
    (entries ≠ [] → clash_free entries a b → ∃ s tree, mount_diff args = Ok s ∧
      (∀ c v, tree c = Some v ↔
        match v with
        | None => c = [] ∨ ∃ it, it ∈ items ∧ prefix c (it_dirs it)
        | Some hex => ∃ it, it ∈ items ∧ it_path it = c ∧ it_oid it = hex
        end) ∧
      ∀ ops, ∃ answers v' place, serve_ops ops (mkDiffVfs s None []) = (Ok answers, v') ∧
        (∀ i j c, place !! i = Some c → place !! j = Some c → i = j) ∧
        Forall2 (answer_ok tree False place) ops answers)).
Proof.
  intros Hrun Hst Hmax. split.
  { intros ca cb Ha Hb ->. unfold mount_diff, ensure_distinct_commits. rewrite Ha, Hb. cbn [map_err mbind outcome_bind].
    destruct (decide (cb = cb)); [|done]. cbn [map_err mbind outcome_bind]. eauto. }
  intros Hdist. unfold mount_diff. rewrite Hdist, Hrun, Hst. cbn [map_err mbind outcome_bind]. fold a b.
  split_and!; [by intros ->| |].
  - intros Hne Hab. destruct entries; [done|]. simpl. by rewrite decide_True.
  - intros Hne Hfree. destruct (wps_build_state entries a b Hmax) as (s & place & Hb & HF & Hn).
    exists s, (diff_at items). split_and!; [|by intros; apply diff_at_clash_free|].
    + assert (a ≠ b) by (intros Hab; destruct Hfree as [(_ & _ & Hs & _) _]; by rewrite Hab in Hs).
      destruct entries; [done|]. simpl. rewrite decide_False by done. simpl. by rewrite Hb.
    + intros ops. pose proof (eager_mounted (diff_at items)) as Mt.
      assert (Mounted (diff_at items) False (λ v place, pathspec v = None ∧ Full (diff_at items) (state v) place) 0) as Mt'.
      { apply Mt; intros; [by eapply full_file|by eapply full_below]. }
      pose proof (wps_serve_ops _ _ Mt' ops (mkDiffVfs s None []) place) as H. unfold wps in H.
      destruct (serve_ops ops _) as [[answers|e| |] v'];
        (destruct H as (place' & _ & [_ [HT _ _]] & Hall) || destruct H); try (by split); try (simpl in *; lia).
      exists answers, v', place'. split_and!; try done. apply (t_inj _ _ _ HT).
Qed.
