(* ===== verification/VfsToy.v ===== *)
(** * A small repository, mounted

    Two commits of a few files, where the theorems on mounts apply. *)

From stdpp Require Import gmap list sorting.
From S2P Require Import Prelude RustStd Repo Vfs VfsTree VfsServe VfsSpec VfsDiff.

Definition entry (name : string) (m : EntryMode) (o : nat) : outcome str (TreeEntry nat) := Ok (mkTreeEntry (lit name) m o).

(** Trees 1 and 4 are roots; 6 does not decode. *)
Definition toy_find (o : nat) : outcome str (list (outcome str (TreeEntry nat))) :=
  match o with
  | 1 => Ok [entry "README.md" ModeBlob 10; entry "link" ModeOther 11; entry "src" ModeTree 2]
  | 2 => Ok [entry "lib" ModeTree 3; entry "main.rs" ModeBlob 20]
  | 3 => Ok [entry "a.txt" ModeBlob 30]
  | 4 => Ok [entry "README.md" ModeBlob 12; entry "new.txt" ModeBlob 13; entry "src" ModeTree 5]
  | 5 => Ok [entry "broken" ModeTree 6; entry "main.rs" ModeBlob 20]
  | 6 => Ok [Err (lit "bad entry")]
  | _ => Err (lit "not found")
  end%nat.

#[export] Instance toy_trees : GitTrees := {
  ObjectId := nat;
  ObjectId_eq_dec := _;
  oid_hex n := to_string (Z.of_nat n);
  bstr_string b := b;
  find_tree := toy_find;
  rev_parse_commit rev := if decide (rev = lit "main") then Ok (lit "c1") else Ok (lit "c2");
  resolve_tree rev := if decide (rev = lit "main") then Ok 1%nat else Ok 4%nat;
  tree_changes _ _ := Ok [Modification (lit "README.md") 10%nat 12%nat ModeBlob ModeBlob;
                          Addition (lit "new.txt") 13%nat ModeBlob;
                          Deletion (lit "src/lib/a.txt") 30%nat ModeBlob];
  start_reader := Ok tt;
}.

Lemma toy_sound root : SoundTree root 3.
Proof.
  split; [intros c o _|intros c o es _..]; do 7 (destruct o as [|o]; [try (by vm_compute; repeat constructor);
    try (intros H; vm_compute in H; simplify_eq; first [apply (bool_decide_unpack _); by vm_compute|vm_compute; done])|]); done.
Qed.

Definition toy_ops : list mount_op := [ReadDir (lit "/"); Lookup (lit "/src/main.rs"); Lookup (lit "/README.md"); ReadDir (lit "/src/lib"); Lookup (lit "src/lib/a.txt/x")].

Example toy_session : match mount_rev (lit "main") [lit "src/"] [] with
  | Ok v => match serve_ops toy_ops v with
            | (Ok answers, _) => (λ a, match a with Found o => inl (inode <$> o) | Listed (Entries l) => inr (prod_map id inode <$> l) | Listed _ => inr [] end) <$> answers
            | _ => []
            end
  | _ => []
  end = [inr [(lit "src", 2)]; inl (Some 4); inl None; inr [(lit "a.txt", 5)]; inl None].
Proof. by vm_compute. Qed.

Lemma toy_mounts : is_ok (mount_rev (G := toy_trees) (lit "main") [lit "src/"] []) = true.
Proof. by vm_compute. Qed.

Lemma mount_refines_tree_witness : ∃ v, mount_rev (lit "main") [lit "src/"] [] = Ok v ∧
  visible (G := toy_trees) 1%nat [lit "src/"] [lit "src"; lit "main.rs"] = Some (Some (lit "20")) ∧
  visible (G := toy_trees) 1%nat [lit "src/"] [lit "README.md"] = None ∧
  ∃ answers v' place, serve_ops toy_ops v = (Ok answers, v') ∧ length answers = 5%nat ∧
    Forall2 (answer_ok (visible (G := toy_trees) 1%nat [lit "src/"]) (∃ e : str, Some e ∈ []) place) toy_ops answers.
Proof.
  pose proof (mount_refines_tree (G := toy_trees) (lit "main") 1%nat [lit "src/"] [] 3 eq_refl eq_refl
    ltac:(lia) (toy_sound 1%nat) ltac:(lia)) as H.
  pose proof toy_mounts as Hok. destruct (mount_rev (G := toy_trees) (lit "main") [lit "src/"] []) as [v| | |] eqn:Hv; try discriminate Hok.
  exists v. split; [reflexivity|]. split; [by vm_compute|]. split; [by vm_compute|].
  destruct H as [_ Hops]. destruct (Hops toy_ops) as (answers & v' & place & Hrun & _ & Hall); [by vm_compute|].
  exists answers, v', place. split; [exact Hrun|]. split; [|exact Hall].
  rewrite <-(Forall2_length _ _ _ Hall). reflexivity.
Defined.

(** Of two entries with the same name, as text, the later one is seen. *)
Example later_name_wins :
  let s := (for_each (insert_pending (G := toy_trees) ROOT_INODE) [mkPending (lit "a") (PendingFile (lit "10")); mkPending (lit "a") (PendingFile (lit "20"))]
    (add_eager_root empty_state)).2 in
  (i ← child_inode s ROOT_INODE (lit "a"); kind <$> nodes s !! i) = Some (File u64_max (mkBlobSource (lit "20"))).
Proof. vm_compute. reflexivity. Qed.

Definition toy_args : MountDiffArgs := mkDiffArgs (lit "main") (lit "dev") None None [].
Definition toy_entries : list DiffEntry := match run_diff (G := toy_trees) (lit "main") (lit "dev") [] with Ok l => l | _ => [] end.
Definition toy_items : list item := items_of toy_entries (lit "main") (lit "dev").

Lemma toy_once : each_once toy_entries.
Proof.
  assert (∃ e1 e2 e3, toy_entries = [e1; e2; e3] ∧ (path_a <$> toy_entries, path_b <$> toy_entries) =
    ([Some (lit "README.md"); None; Some (lit "src/lib/a.txt")], [Some (lit "README.md"); Some (lit "new.txt"); None])) as (e1 & e2 & e3 & -> & Hp).
  { do 3 eexists. by vm_compute. }
  injection Hp as A1 A2 A3 B1 B2 B3.
  intros e e' p p' He He' Hc H. rewrite !elem_of_cons in He, He'.
  destruct He as [->|[->|[->|?%elem_of_nil]]], He' as [->|[->|[->|?%elem_of_nil]]]; try done;
    destruct H as [[H H']|[H H']]; rewrite ?A1, ?A2, ?A3, ?B1, ?B2, ?B3 in *; simplify_eq; vm_compute in Hc; discriminate.
Qed.

Lemma toy_apart : labels_apart (lit "main") (lit "dev").
Proof. unfold labels_apart. repeat split; apply (bool_decide_unpack _); by vm_compute. Qed.

Lemma toy_clash_free : clash_free toy_entries (lit "main") (lit "dev").
Proof.
  split; [exact toy_apart|]. split; [exact toy_once|]. intros it it' Hit Hit'. revert it' Hit'. apply Forall_forall.
  revert it Hit. apply Forall_forall. apply (bool_decide_unpack _). by vm_compute.
Qed.

Lemma diff_mount_shows_sides_witness : ∃ s tree, mount_diff toy_args = Ok s ∧
  tree [lit "README__main.md"] = Some (Some (lit "10")) ∧ tree [lit "README__dev.md"] = Some (Some (lit "12")) ∧
  ∃ answers v' place, serve_ops toy_ops (mkDiffVfs s None []) = (Ok answers, v') ∧
    Forall2 (answer_ok tree False place) toy_ops answers.
Proof.
  assert (Hsize : 2 + slots toy_items < 2 ^ 64) by by vm_compute.
  destruct (diff_mount_shows_sides (G := toy_trees) toy_args toy_entries eq_refl eq_refl Hsize) as [_ H].
  destruct (H eq_refl) as (_ & _ & Hmount). destruct Hmount as (s & tree & Hs & Htree & Hops); [by vm_compute|exact toy_clash_free|].
  assert (Hside : ∀ name oid, (name, oid) ∈ ((λ it, (it_path it, it_oid it)) <$> toy_items) → tree name = Some (Some oid)).
  { intros name oid (it & [= -> ->] & Hit)%list_elem_of_fmap. apply Htree. by exists it. }
  exists s, tree. split; [exact Hs|]. split; [|split].
  1,2: apply Hside; apply (bool_decide_unpack _); by vm_compute.
  destruct (Hops toy_ops) as (answers & v' & place & Hrun & _ & Hall). by exists answers, v', place.
Defined.

(** Labels that are not apart: two files meet under one name, and the second is not shown. *)
Example labels_meet : build (G := toy_trees)
  [mkDiffEntry None (Some (lit "y")) None (Some (lit "20")) Added; mkDiffEntry (Some (lit "y.1")) None (Some (lit "10")) None Deleted]
  (lit "v") (lit "v.1") = build (G := toy_trees) [mkDiffEntry None (Some (lit "y")) None (Some (lit "20")) Added] (lit "v") (lit "v.1").
Proof. vm_compute. reflexivity. Qed.

(** A filter that is only slashes selects everything in a diff and nothing in a revision. *)
Example slash_filter : bstr_path_matches (lit "README.md") [lit "/"] = true ∧ pathspec_matches_file (lit "README.md") [lit "/"] = false.
Proof. split; by vm_compute. Qed.

(** A filter that names nothing below an existing directory is not refused: the mount has an empty directory. *)
Example mistargeted_mount : match mount_rev (G := toy_trees) (lit "main") [lit "src/none"] [] with
  | Ok v => match serve_ops [ReadDir (lit "/src")] v with (Ok [Listed (Entries [])], _) => True | _ => False end
  | _ => False
  end.
Proof. by vm_compute. Qed.

(** A directory takes the name of a file that was inserted first. *)
Example directory_hides_file : match build (G := toy_trees)
  [mkDiffEntry (Some (lit "x")) None (Some (lit "10")) None Deleted; mkDiffEntry None (Some (lit "x__v/y")) None (Some (lit "20")) Added]
  (lit "v") (lit "w") with
  | Ok s => match serve_ops [Lookup (lit "x__v")] (mkDiffVfs s None []) with (Ok [Found (Some n)], _) => kind n = Dir | _ => False end
  | _ => False
  end.
Proof. by vm_compute. Qed.
