(* ===== verification/Reader.v ===== *)
(** * The bytes behind a mount

    [crates/git-bale/src/mount/reader.rs]: sizes without reconstruction, files
    opened as handles, plain blobs and reconstructed files with their caches.
    The object database is gix's, reconstruction uses what [Repo] and [Filter]
    already model.  Each method runs as a whole. *)

From stdpp Require Import gmap list.
From S2P Require Import Prelude RustStd Pktline CleanCache Config Repo Filter.

Definition PLAIN_BLOB_MAX_BYTES : Z := 16 * 1024 * 1024.
Definition BALE_LRU_BUDGET_BYTES : Z := 1024 * 1024 * 1024.

(** ** The cache of reconstructed files *)

Record BaleLru := mkLru { lru_map : gmap str bytes; order : list str; bytes_used : Z; budget : Z }.
Definition lru_new (budget : Z) : BaleLru := mkLru ∅ [] 0 budget.

(** The key is moved to the back, its first position counts. *)
Definition touch (key : str) (l : list str) : list str :=
  match list_find (λ k, k = key) l with Some (i, k) => delete i l ++ [k] | None => l end.
Definition lru_get (key : str) (c : BaleLru) : option bytes * BaleLru :=
  match lru_map c !! key with
  | None => (None, c)
  | Some v => (Some v, mkLru (lru_map c) (touch key (order c)) (bytes_used c) (budget c))
  end.

(** [while bytes_used + size > budget]: the oldest goes. *)
Fixpoint evict (ord : list str) (m : gmap str bytes) (used budget size : Z) : list str * gmap str bytes * Z :=
  if budget <? as_u64 (used + size) then
    match ord with
    | [] => ([], m, used)
    | victim :: ord =>
        match m !! victim with
        | Some old => evict ord (delete victim m) (saturating_sub used (len old)) budget size
        | None => evict ord m used budget size
        end
    end
  else (ord, m, used).

Definition lru_put (key : str) (blob : bytes) (c : BaleLru) : BaleLru :=
  let size := len blob in
  if budget c <? size then c
  else
    let '(ord, m, used) := evict (order c) (lru_map c) (bytes_used c) (budget c) size in
    mkLru (<[key := blob]> m) (ord ++ [key]) (as_u64 (used + size)) (budget c).

(** ** The reader *)

Inductive ObjectKind := KTree | KBlob | KCommit | KTag.
Definition kind_debug (k : ObjectKind) : str :=
  match k with KTree => lit "Tree" | KBlob => lit "Blob" | KCommit => lit "Commit" | KTag => lit "Tag" end.
Definition is_kblob (k : ObjectKind) : bool := match k with KBlob => true | _ => false end.

(** gix's object database: parse an object id, load an object.  A positional read
    of a file may come back short. *)
Class Odb := {
  OdbId : Type;
  from_hex : str → outcome str OdbId;
  find_object : OdbId → outcome str (ObjectKind * bytes);
  read_at : bytes → Z → nat → outcome io_error bytes;
}.

Section reader.
Context {C : Crates} {Env : Environment} {O : Odb}.

(** Bytes in memory, or a temporary file and the size that its pointer names. *)
Inductive HandleData := HBytes (b : bytes) | HTempfile (content : bytes) (size : Z).

Record Reader := mkReader {
  r_repo : Repo;
  r_chunks : ChunkCache;
  bale_cfg : option BaleConfig;
  size_cache : gmap str Z;
  plain_cache : gmap str bytes;
  bale_cache : BaleLru;
  handles : gmap Z HandleData;
  next_handle : Z;
}.
Definition set_r_repo x (r : Reader) := mkReader x (r_chunks r) (bale_cfg r) (size_cache r) (plain_cache r) (bale_cache r) (handles r) (next_handle r).
Definition set_r_chunks x (r : Reader) := mkReader (r_repo r) x (bale_cfg r) (size_cache r) (plain_cache r) (bale_cache r) (handles r) (next_handle r).
Definition set_bale_cfg x (r : Reader) := mkReader (r_repo r) (r_chunks r) x (size_cache r) (plain_cache r) (bale_cache r) (handles r) (next_handle r).
Definition set_size_cache x (r : Reader) := mkReader (r_repo r) (r_chunks r) (bale_cfg r) x (plain_cache r) (bale_cache r) (handles r) (next_handle r).
Definition set_plain_cache x (r : Reader) := mkReader (r_repo r) (r_chunks r) (bale_cfg r) (size_cache r) x (bale_cache r) (handles r) (next_handle r).
Definition set_bale_cache x (r : Reader) := mkReader (r_repo r) (r_chunks r) (bale_cfg r) (size_cache r) (plain_cache r) x (handles r) (next_handle r).
Definition set_handles x (r : Reader) := mkReader (r_repo r) (r_chunks r) (bale_cfg r) (size_cache r) (plain_cache r) (bale_cache r) x (next_handle r).
Definition set_next_handle x (r : Reader) := mkReader (r_repo r) (r_chunks r) (bale_cfg r) (size_cache r) (plain_cache r) (bale_cache r) (handles r) x.

Definition reader_new (repo : Repo) (cache : ChunkCache) : Reader :=
  mkReader repo cache None ∅ ∅ (lru_new BALE_LRU_BUDGET_BYTES) ∅ 0.

Abbreviation RD := (ST Reader str).
Definition on_rrepo {A} (m : R A) : RD A := st_map_err io_error_text (zoom r_repo set_r_repo m).
Definition on_rrepo_str {A} (m : ST Repo str A) : RD A := zoom r_repo set_r_repo m.

(** The blob of an object id; reading the object database may fail. *)
Definition load_blob (oid : str) : RD bytes :=
  obj_id ← lift (map_err (λ e, lit "parsing OID " ++ oid ++ lit ": " ++ e) (from_hex oid));
  _ ← on_rrepo (writing id);
  obj ← lift (map_err (λ e, lit "loading object " ++ oid ++ lit ": " ++ e) (find_object obj_id));
  if is_kblob obj.1 then mret obj.2
  else throw (lit "expected blob for OID " ++ oid ++ lit ", found " ++ kind_debug obj.1).

Definition missing_size : str := lit "bale pointer missing file_size".

(** The size of a pointer's file, or of the blob. *)
Definition logical_size (oid : str) (data : bytes) : outcome str Z :=
  if looks_like_pointer data then
    match parse_pointer data with
    | Ok info => ok_or (lit "bale pointer " ++ oid ++ lit " missing file_size") (info_size info)
    | Err _ => Ok (len data)
    | Panic => Panic
    | Diverged => Diverged
    end
  else Ok (len data).

Definition size_of (oid : str) : RD Z :=
  cached ← gets (λ r, size_cache r !! oid);
  match cached with
  | Some s => mret s
  | None =>
      data ← load_blob oid;
      size ← lift (logical_size oid data);
      _ ← modify (λ r, set_size_cache (<[oid := size]> (size_cache r)) r);
      mret size
  end.

Section with_config.
Context (raw : RawConfig) (stall_secs : Z).

Definition resolved_cfg : RD BaleConfig :=
  slot ← gets bale_cfg;
  match slot with
  | Some cfg => mret cfg
  | None =>
      res ← lift resolve_read;
      let '(url, tok, exp) := res in
      let cfg := mkBaleConfig url tok exp (cache_dir raw) (git_dir raw) in
      _ ← modify (set_bale_cfg (Some cfg));
      mret cfg
  end.

(** The hot path: whether the chunk cache has the whole file, and the temporary file. *)
Definition from_chunk_cache (file_id_hex : str) (file_size : Z) : RD (bool * bytes) :=
  match git_dir raw with
  | None => mret (false, [])
  | Some _ =>
      loaded ← on_rrepo (manifest_load file_id_hex);
      match loaded with
      | Some manifest =>
          _ ← on_rrepo (writing id);
          cache ← gets r_chunks;
          '(o, out) ← on_rrepo_str (try_reconstruct_from_cache cache manifest file_size);
          mret (match o with Wrote _ => true | Miss => false end, out)
      | None => mret (false, [])
      end
  end.

(** The manifest is kept for the next mount, if it can be had. *)
Definition backfill (cfg : BaleConfig) (info : XetFileInfo) : RD unit :=
  match git_dir raw with
  | None => mret tt
  | Some _ =>
      match info_merkle info with
      | Ok merkle =>
          match fetch_manifest cfg merkle with
          | Ok manifest => _ ← on_rrepo (ignore (manifest_save (info_hash info) manifest)); mret tt
          | Err _ => mret tt
          | Panic => lift Panic
          | Diverged => lift Diverged
          end
      | Err _ => mret tt
      | Panic => lift Panic
      | Diverged => lift Diverged
      end
  end.

(** The cold path: the file is emptied, then downloaded under the watchdog. *)
Definition download (info : XetFileInfo) (file_size : Z) : RD bytes :=
  _ ← on_rrepo (writing id);
  _ ← on_rrepo (writing id);
  _ ← on_rrepo (writing id);
  cfg ← resolved_cfg;
  _ ← lift (build_translator cfg);
  _ ← on_rrepo (writing id);
  cache ← gets r_chunks;
  let '(events, written, cache') := net_download cfg cache info file_size in
  _ ← modify (set_r_chunks cache');
  _ ← lift (download_cold (info_hash info) stall_secs events);
  _ ← backfill cfg info;
  mret written.

(** The content of the temporary file. *)
Definition reconstruct_bale_to_tempfile (info : XetFileInfo) : RD bytes :=
  file_size ← lift (ok_or missing_size (info_size info));
  if negb (is_safe_file_id (info_hash info))
  then throw (lit "bale pointer hash is not canonical hex (got " ++ to_string (len (info_hash info)) ++ lit " chars)")
  else
    _ ← on_rrepo (writing id);
    '(cache_hit, tmp) ← from_chunk_cache (info_hash info) file_size;
    if cache_hit : bool then mret tmp else download info file_size.

Definition materialize_pointer (info : XetFileInfo) : RD HandleData :=
  cached ← (λ r, let '(o, c) := lru_get (info_hash info) (bale_cache r) in (Ok o, set_bale_cache c r));
  match cached with
  | Some b => mret (HBytes b)
  | None =>
      file_size ← lift (ok_or missing_size (info_size info));
      tmp ← reconstruct_bale_to_tempfile info;
      if file_size <=? BALE_LRU_BUDGET_BYTES then
        buf ← on_rrepo (reading (λ _, tmp));
        _ ← modify (λ r, set_bale_cache (lru_put (info_hash info) buf (bale_cache r)) r);
        mret (HBytes buf)
      else
        _ ← st_map_err (λ e, lit "opening reconstruction tempfile for read: " ++ e) (on_rrepo (writing id));
        mret (HTempfile tmp file_size)
  end.

Definition materialize_plain (oid : str) (data : bytes) : RD HandleData :=
  if PLAIN_BLOB_MAX_BYTES <? len data
  then throw (lit "plain blob " ++ oid ++ lit " is " ++ to_string (len data) ++ lit " bytes (> " ++ to_string PLAIN_BLOB_MAX_BYTES ++
    lit "); mount-diff only handles plain blobs up to 16 MiB. Track it via `git-bale track` so it's stored as a Bale pointer.")
  else
    _ ← modify (λ r, set_plain_cache (<[oid := data]> (plain_cache r)) r);
    mret (HBytes data).

Definition materialize (oid : str) : RD HandleData :=
  cached ← gets (λ r, plain_cache r !! oid);
  match cached with
  | Some b => mret (HBytes b)
  | None =>
      data ← load_blob oid;
      match (if looks_like_pointer data then parse_pointer data else Err NotAPointer) with
      | Ok info => materialize_pointer info
      | Err _ => materialize_plain oid data
      | Panic => lift Panic
      | Diverged => lift Diverged
      end
  end.

Definition open (oid : str) : RD Z :=
  data ← materialize oid;
  fh ← (λ r, (Ok (as_u64 (next_handle r + 1)), set_next_handle (as_u64 (next_handle r + 1)) r));
  _ ← modify (λ r, set_handles (<[fh := data]> (handles r)) r);
  mret fh.
End with_config.

(** [len] wraps around at the end of a [usize]; a range that is then inverted panics. *)
Definition pread (fh offset : Z) (len_ : Z) : RD bytes :=
  handle ← gets (λ r, handles r !! fh);
  match handle with
  | None => throw (lit "unknown open handle " ++ to_string fh)
  | Some (HBytes b) =>
      if len b <=? offset then mret []
      else lift (or_panic (slice b (Z.to_nat offset) (Z.to_nat (Z.min (as_u64 (offset + len_)) (len b)))))
  | Some (HTempfile content size) =>
      if size <=? offset then mret []
      else
        let want := Z.min len_ (size - offset) in
        lift (map_err (λ e, lit "pread fh=" ++ to_string fh ++ lit " off=" ++ to_string offset ++ lit " len=" ++ to_string want ++ lit ": " ++ io_error_text e)
                (read_at content offset (Z.to_nat want)))
  end.

Definition close (fh : Z) : RD bool := λ r,
  (Ok (bool_decide (is_Some (handles r !! fh))), set_handles (delete fh (handles r)) r).
End reader.
