(* ===== verification/ReaderSpec.v ===== *)
(** * What a mount reads

    The cache of reconstructed files stays within its budget under every use, and
    what an open binds to a handle is what every later read of it answers. *)

From stdpp Require Import gmap list.
From S2P Require Import Prelude RustStd Pktline CleanCache Config Repo Filter FilterSpec CleanSpec SmudgeSpec Reader.

(** ** The cache *)

Definition held (c : BaleLru) : Z := map_sum len (lru_map c).

(** [n] bounds how often the cache was filled, so that the counter never wraps. *)
Record lru_ok (n : Z) (c : BaleLru) : Prop := {
  lru_order k : is_Some (lru_map c !! k) → k ∈ order c;
  lru_counted : held c ≤ bytes_used c;
  lru_held : held c ≤ budget c;
  lru_used : 0 ≤ bytes_used c ≤ n * budget c;
}.

Lemma held_nonneg m : 0 ≤ map_sum len (m : gmap str bytes).
Proof. apply map_sum_nonneg. intros b. unfold len. lia. Qed.

Lemma evict_spec size bud ord : ∀ m used, (∀ k, is_Some (m !! k) → k ∈ ord) → map_sum len m ≤ used → 0 ≤ used →
  used + size < 2 ^ 64 → 0 ≤ size →
  let '(ord', m', used') := evict ord m used bud size in
  (∀ k, is_Some (m' !! k) → k ∈ ord') ∧ m' ⊆ m ∧ map_sum len m' ≤ used' ∧ 0 ≤ used' ≤ used ∧ (used' + size ≤ bud ∨ m' = ∅).
Proof.
  induction ord as [|victim ord IH]; intros m used Hord Hsum Hused Hmax Hsize; cbn [evict].
  - assert (m = ∅) as ->.
    { apply map_empty. intros k. destruct (m !! k) eqn:Hk; [|done]. exfalso. apply (not_elem_of_nil k), Hord. eauto. }
    destruct (bud <? _); split_and!; try done; (lia || by right).
  - assert (as_u64 (used + size) = used + size) as Hu by (apply Z.mod_small; lia). rewrite Hu.
    destruct (Z.ltb_spec bud (used + size)); [|split_and!; try done; (lia || (left; lia))].
    destruct (m !! victim) as [old|] eqn:Hv.
    + pose proof (map_sum_delete len m victim old Hv) as Hdel. pose proof (held_nonneg (delete victim m)) as Hnn.
      assert (0 ≤ len old) by (unfold len; lia). unfold saturating_sub. rewrite Z.max_l by lia.
      specialize (IH (delete victim m) (used - len old)).
      destruct (evict ord (delete victim m) (used - len old) bud size) as [[ord' m'] used'].
      destruct IH as (? & Hsub & ? & ? & ?); try lia.
      { intros k [v [Hne Hk]%lookup_delete_Some]. assert (k ∈ victim :: ord) as [->|?]%elem_of_cons by eauto; done. }
      split_and!; try done; try lia. etrans; [done|]. apply delete_subseteq.
    + specialize (IH m used). destruct (evict ord m used bud size) as [[ord' m'] used']. apply IH; try done.
      intros k [v Hk]. assert (k ∈ victim :: ord) as [->|?]%elem_of_cons by eauto; [congruence|done].
Qed.

Lemma map_sum_overwrite (m : gmap str bytes) k b : map_sum len (<[k := b]> m) ≤ map_sum len m + len b.
Proof.
  destruct (m !! k) as [old|] eqn:Hk; [|rewrite map_sum_insert by done; lia].
  rewrite <-insert_delete_eq, map_sum_insert by (by rewrite lookup_delete_eq).
  rewrite (map_sum_delete len m k old Hk). unfold len. lia.
Qed.

(** What is held after a fill was held before, or is the blob. *)
Lemma lru_put_ok n key blob c : lru_ok n c → (n + 1) * budget c < 2 ^ 64 → 0 ≤ budget c →
  lru_ok (n + 1) (lru_put key blob c) ∧ budget (lru_put key blob c) = budget c ∧
  ∀ k v, lru_map (lru_put key blob c) !! k = Some v → (k = key ∧ v = blob) ∨ lru_map c !! k = Some v.
Proof.
  intros [Hord Hcount Hheld Hused] Hmax Hb. unfold lru_put. assert (0 ≤ len blob) by (unfold len; lia).
  destruct (Z.ltb_spec (budget c) (len blob)) as [|Hfit]; [split_and!; [split; try done; nia|done|by right]|].
  pose proof (evict_spec (len blob) (budget c) (order c) (lru_map c) (bytes_used c) Hord Hcount) as He.
  destruct (evict _ _ _ _ _) as [[ord m] used]. destruct He as (Ho & Hsub & Hs & Hu & Hroom); try nia.
  pose proof (map_sum_overwrite m key blob) as Hins. pose proof (held_nonneg m).
  assert (as_u64 (used + len blob) = used + len blob) as -> by (apply Z.mod_small; nia).
  split_and!; [split; unfold held; simpl|done|].
  - intros k [v Hv]. apply lookup_insert_Some in Hv as [[<- _]|[_ Hk]]; apply elem_of_app; [right; by left|left; apply Ho; eauto].
  - lia.
  - destruct Hroom as [? | -> ]; [lia|]. rewrite map_sum_empty in Hins. lia.
  - nia.
  - simpl. intros k v [[<- <-]|[Hne Hk]]%lookup_insert_Some; [by left|right]. by eapply lookup_weaken.
Qed.

Lemma lru_get_ok n key c : lru_ok n c → lru_ok n (lru_get key c).2 ∧ budget (lru_get key c).2 = budget c ∧
  lru_map (lru_get key c).2 = lru_map c ∧ (lru_get key c).1 = lru_map c !! key.
Proof.
  intros [Hord Hcount Hheld Hused]. unfold lru_get. destruct (lru_map c !! key) as [v|] eqn:Hv; [|done].
  split_and!; [split; simpl; try done|done|done|done].
  intros k Hk. apply Hord in Hk. unfold touch. destruct (list_find (λ k, k = key) (order c)) as [[i k']|] eqn:Hf; [|done].
  apply list_find_Some in Hf as (Hi & -> & _). rewrite (delete_Permutation _ _ _ Hi) in Hk.
  apply elem_of_cons in Hk as [->|Hk]; apply elem_of_app; [right; by left|by left].
Qed.

(** ** Calls that only come back *)

Definition back {A} (m : R A) : Prop := ∀ r, wps m r (λ _ _, True) (λ _ _, True).
Lemma back_bind {A B} (m : R A) (k : A → R B) : back m → (∀ a, back (k a)) → back (m ≫= k).
Proof. intros Hm Hk r. apply wps_bind. eapply wps_mono; [apply Hm|intros a s _; apply Hk|done]. Qed.
Lemma back_ret {A} (a : A) : back (mret a).
Proof. by intros r. Qed.
Lemma back_call {A} (f : Repo → outcome io_error A * Repo) : (∀ r, returned (f r).1) → back (call f).
Proof.
  intros Hf r. unfold wps, call. destruct (default None _); [done|]. specialize (Hf (pop_fault r)).
  by destruct (f (pop_fault r)) as [[]].
Qed.
Lemma back_reading {A} (f : Repo → A) : back (reading f).
Proof. by apply back_call. Qed.
Lemma back_writing f : back (writing f).
Proof. by apply back_call. Qed.
Lemma back_ignore {A} (m : R A) : back m → back (ignore m).
Proof. intros Hm r. specialize (Hm r). unfold wps, ignore in *. by destruct (m r) as [[?|?| |] ?]. Qed.
Lemma back_lift {A} (o : outcome io_error A) : returned o → back (lift o).
Proof. intros Ho r. apply wps_lift. by destruct o. Qed.
Lemma back_throw {A} e : back (throw (A:=A) e).
Proof. by intros r. Qed.

Create HintDb back.
#[export] Hint Resolve back_ret back_reading back_writing back_lift back_throw : back.
Ltac back := repeat first [apply back_bind; [|intros ?] | apply back_ignore | solve [auto with back] | case_match].

Lemma reading_const {C : Crates} {Env : Environment} {A} (a b : A) (r r' : Reader) :
  on_rrepo (reading (λ _, a)) r = (Ok b, r') → b = a.
Proof.
  unfold on_rrepo, st_map_err, zoom, reading, call. destruct (default None _); simpl; intros; by simplify_eq.
Qed.

(** ** Calls that change no cache and no handle *)

Class OdbLaws `{O : Odb} := {
  from_hex_returns s : returned (from_hex s);
  find_object_returns o : returned (find_object o);
  read_at_reads b : reads_file (read_at b) b;
}.

Lemma returned_map_err {E F A} (f : E → F) (o : outcome E A) : returned o → returned (map_err f o).
Proof. by destruct o. Qed.
Lemma returned_ok_or {E A} (e : E) (o : option A) : returned (ok_or e o).
Proof. by destruct o. Qed.

Section frames.
Context {C : Crates} {CL : CrateLaws} {Env : Environment} {EL : EnvironmentLaws} {O : Odb} {OL : OdbLaws}.
Abbreviation RD := (ST Reader str).

Record keeps (r r' : Reader) : Prop := {
  k_sizes : size_cache r' = size_cache r;
  k_plain : plain_cache r' = plain_cache r;
  k_lru : bale_cache r' = bale_cache r;
  k_handles : handles r' = handles r;
  k_next : next_handle r' = next_handle r;
}.
#[export] Instance keeps_preorder : PreOrder keeps.
Proof. split; [done|]. intros r1 r2 r3 [] []. split; congruence. Qed.

Definition frame {A} (m : RD A) : Prop := ∀ r, wps m r (λ _ r', keeps r r') (λ _ r', keeps r r').
Lemma frame_bind {A B} (m : RD A) (k : A → RD B) : frame m → (∀ a, frame (k a)) → frame (m ≫= k).
Proof.
  intros Hm Hk r. apply wps_bind. eapply wps_mono; [apply Hm| |done]. intros a r1 H1.
  eapply wps_mono; [apply Hk|intros b r2 H2; exact (transitivity H1 H2)|intros e r2 H2; exact (transitivity H1 H2)].
Qed.
Lemma frame_ret {A} (a : A) : frame (mret a).
Proof. by intros r. Qed.
Lemma frame_throw {A} e : frame (throw (A:=A) e).
Proof. by intros r. Qed.
Lemma frame_gets {A} (f : Reader → A) : frame (gets f).
Proof. by intros r. Qed.
Lemma frame_modify f : (∀ r, keeps r (f r)) → frame (modify f).
Proof. intros Hf r. by apply wps_modify. Qed.
Lemma frame_lift {A} (o : outcome str A) : returned o → frame (lift o).
Proof. intros Ho r. apply wps_lift. by destruct o. Qed.
Lemma frame_map_err {A} (f : str → str) (m : RD A) : frame m → frame (st_map_err f m).
Proof. intros Hm r. apply wps_map_err, Hm. Qed.
Lemma frame_repo {A} (m : R A) : back m → frame (on_rrepo m).
Proof.
  intros Hm r. specialize (Hm (r_repo r)). apply wps_map_err. unfold wps, zoom in *.
  by destruct (m (r_repo r)) as [[?|?| |] ?].
Qed.

#[local] Set Default Proof Using "Type*".
Lemma back_manifest_load h : back (manifest_load h).
Proof. unfold manifest_load. back. Qed.
Lemma back_manifest_save h m : back (manifest_save h m).
Proof.
  unfold manifest_save, create_bale_subdir, restrict_bale_perms. back.
  apply back_lift, returned_map_err, manifest_json_returns.
Qed.

(** Frames, one line of the code at a time. *)
Ltac framing := repeat first
  [ apply frame_bind; [|intros ?] | apply frame_map_err | apply frame_repo; back | apply frame_ret | apply frame_throw | apply frame_gets
  | apply frame_modify; by intros | apply frame_lift; (done || apply returned_map_err || apply returned_ok_or) ].

Lemma frame_try_terms cache terms : ∀ out n, frame (on_rrepo_str (try_terms cache terms out n)).
Proof.
  assert (Hw : ∀ out n r, wps (try_terms cache terms out n) r (λ _ _, True) (λ _ _, True)).
  { induction terms as [|t terms IH]; intros out n r; cbn [try_terms]; [by wsteps|]. wsteps.
    pose proof (merkle_from_returns (ct_xorb_hash t)). destruct (merkle_from_hex _) as [h|e| |]; try done; cbn [map_err wp].
    pose proof (cache_get_returns cache h (ct_chunk_start t) (ct_chunk_end t)).
    destruct (cache_get _ _ _ _) as [[data|]| | |]; try done; [|by wsteps..].
    destruct (negb _); [by wsteps|]. wsteps. eapply wps_mono; [apply back_writing|intros [] r1 _; apply IH|done]. }
  intros out n r. specialize (Hw out n (r_repo r)). unfold wps, on_rrepo_str, zoom in *.
  by destruct (try_terms cache terms out n (r_repo r)) as [[?|?| |] ?].
Qed.

Lemma frame_try_reconstruct cache m n : frame (on_rrepo_str (try_reconstruct_from_cache cache m n)).
Proof.
  intros r. pose proof (frame_try_terms cache (cm_terms m) [] 0 r) as H. unfold try_reconstruct_from_cache.
  unfold wps, on_rrepo_str, zoom, mbind, ST_bind in *.
  destruct (try_terms cache (cm_terms m) [] 0 (r_repo r)) as [[[[|] out]|e| |] r']; try done. by destruct (negb _).
Qed.

Lemma frame_load_blob oid : frame (load_blob oid).
Proof.
  unfold load_blob. framing; [apply from_hex_returns|apply find_object_returns|]. destruct (is_kblob _); framing.
Qed.

Section config.
Context (raw : RawConfig) (stall_secs : Z).
Hypothesis network_ends : ∀ cfg cache info n label,
  returned (download_cold label stall_secs (net_download cfg cache info n).1.1).

Lemma frame_from_chunk_cache hex n : frame (from_chunk_cache raw hex n).
Proof.
  unfold from_chunk_cache. destruct (git_dir raw); [|framing].
  apply frame_bind; [apply frame_repo, back_manifest_load|]. intros [m|]; [|framing].
  apply frame_bind; [framing|intros _]. apply frame_bind; [framing|intros cache].
  apply frame_bind; [apply frame_try_reconstruct|]. intros [o out]. framing.
Qed.

Lemma frame_backfill cfg info : frame (backfill raw cfg info).
Proof.
  unfold backfill. destruct (git_dir raw); [|framing].
  pose proof (merkle_of_returns info). destruct (info_merkle info) as [h|e| |]; try done.
  pose proof (get_reconstruction_returns cfg h). unfold fetch_manifest.
  destruct (get_reconstruction_v1 cfg h) as [[terms|]|e| |]; try done.
  apply frame_bind; [apply frame_repo, back_ignore, back_manifest_save|intros _; framing].
Qed.

Lemma frame_resolved_cfg : frame (resolved_cfg raw).
Proof.
  unfold resolved_cfg. apply frame_bind; [framing|]. intros [cfg|]; [framing|].
  apply frame_bind; [apply frame_lift, resolve_read_returns|]. intros [[url tok] ex]. framing.
Qed.

Lemma frame_reconstruct info : frame (reconstruct_bale_to_tempfile raw stall_secs info).
Proof.
  unfold reconstruct_bale_to_tempfile. apply frame_bind; [framing|intros n].
  destruct (negb _); [framing|]. apply frame_bind; [framing|intros _].
  apply frame_bind; [apply frame_from_chunk_cache|]. intros [[|] tmp]; [framing|]. unfold download.
  do 3 (apply frame_bind; [framing|intros _]). apply frame_bind; [apply frame_resolved_cfg|intros cfg].
  apply frame_bind; [apply frame_lift, build_translator_returns|intros _]. apply frame_bind; [framing|intros _].
  apply frame_bind; [framing|intros cache].
  pose proof (network_ends cfg cache info n (info_hash info)) as Hev. destruct (net_download cfg cache info n) as [[events written] cache'].
  apply frame_bind; [framing|intros _]. apply frame_bind; [by apply frame_lift|intros _].
  apply frame_bind; [apply frame_backfill|intros _]. framing.
Qed.

(** ** What is served *)

Definition blob_of (oid : str) (b : bytes) : Prop := ∃ o, from_hex oid = Ok o ∧ find_object o = Ok (KBlob, b).
Definition pointer_in (b : bytes) : outcome PointerError XetFileInfo :=
  if looks_like_pointer b then parse_pointer b else Err NotAPointer.
(** A reconstruction answered the content. *)
Definition rebuilt (info : XetFileInfo) (c : bytes) : Prop :=
  ∃ r r', reconstruct_bale_to_tempfile raw stall_secs info r = (Ok c, r').

(** A plain blob is itself; a pointer's file is a reconstruction of its hash, in
    memory, or on disk with the size of the pointer when the cache cannot hold it. *)
Definition serves (oid : str) (d : HandleData) : Prop := ∃ b, blob_of oid b ∧
  match pointer_in b with
  | Ok info => (∃ info' c, info_hash info' = info_hash info ∧ rebuilt info' c ∧ d = HBytes c) ∨
               (∃ c n, info_size info = Some n ∧ BALE_LRU_BUDGET_BYTES < n ∧ rebuilt info c ∧ d = HTempfile c n)
  | _ => d = HBytes b ∧ len b ≤ PLAIN_BLOB_MAX_BYTES
  end.

(** [n] bounds the operations so far. *)
Record RInv (n : Z) (r : Reader) : Prop := {
  ri_plain oid b : plain_cache r !! oid = Some b → serves oid (HBytes b);
  ri_sizes oid s : size_cache r !! oid = Some s → ∃ b, blob_of oid b ∧ logical_size oid b = Ok s;
  ri_bale hex c : lru_map (bale_cache r) !! hex = Some c → ∃ info, info_hash info = hex ∧ rebuilt info c;
  ri_lru : lru_ok n (bale_cache r);
  ri_budget : budget (bale_cache r) = BALE_LRU_BUDGET_BYTES;
  ri_handles h : is_Some (handles r !! h) → 1 ≤ h ≤ next_handle r;
  ri_next : 0 ≤ next_handle r ≤ n;
}.

Lemma lru_ok_mono n n' c : lru_ok n c → n ≤ n' → 0 ≤ budget c → lru_ok n' c.
Proof using Type. intros [] Hn Hb. split; try done. nia. Qed.

Lemma rinv_keeps n r r' : keeps r r' → RInv n r → RInv n r'.
Proof using Type. intros [K1 K2 K3 K4 K5] []. split; rewrite ?K1, ?K2, ?K3, ?K4, ?K5; done. Qed.

Lemma rinv_mono n n' r : RInv n r → n ≤ n' → RInv n' r.
Proof using Type.
  intros [] Hn. split; try done; [|lia]. eapply lru_ok_mono; [done|done|]. rewrite ri_budget0. done.
Qed.

Lemma pointer_in_returns b : returned (pointer_in b).
Proof. unfold pointer_in. destruct (looks_like_pointer b); [apply parse_pointer_returns|done]. Qed.

Lemma wps_load_blob oid r : wps (load_blob oid) r (λ b r', keeps r r' ∧ blob_of oid b) (λ _ r', keeps r r').
Proof.
  unfold load_blob. apply wps_bind, wps_lift. pose proof (from_hex_returns oid). destruct (from_hex oid) as [o|e| |] eqn:Ho; try done. simpl.
  apply wps_bind. eapply wps_mono; [apply (frame_repo (writing id)); back| |done]. intros [] r1 H1.
  apply wps_bind, wps_lift. pose proof (find_object_returns o). destruct (find_object o) as [[k b]|e| |] eqn:Hf; try done. simpl.
  destruct k; simpl; wsteps; try done. split; [done|]. by exists o.
Qed.

Lemma logical_size_returns oid b : returned (logical_size oid b).
Proof.
  unfold logical_size. destruct (looks_like_pointer b); [|done]. pose proof (parse_pointer_returns b).
  destruct (parse_pointer b); try done. apply returned_ok_or.
Qed.

Lemma wps_size_of n oid r : RInv n r →
  wps (size_of oid) r (λ s r', RInv n r' ∧ handles r' = handles r ∧ ∃ b, blob_of oid b ∧ logical_size oid b = Ok s)
    (λ _ r', RInv n r' ∧ handles r' = handles r).
Proof.
  intros HR. unfold size_of. apply wps_bind, wps_gets. destruct (size_cache r !! oid) as [s|] eqn:Hs.
  { apply wps_ret. split_and!; try done. by apply (ri_sizes _ _ HR). }
  apply wps_bind. eapply wps_mono; [apply wps_load_blob| |intros e r1 H1; split; [exact (rinv_keeps _ _ _ H1 HR)|apply H1]].
  intros b r1 [H1 Hb]. pose proof (rinv_keeps _ _ _ H1 HR) as HR1. apply wps_bind, wps_lift.
  pose proof (logical_size_returns oid b). destruct (logical_size oid b) as [s|e| |] eqn:Hl; try done; simpl; [|split; [done|apply H1]].
  apply wps_bind, wps_modify, wps_ret. split_and!; [|apply H1|eauto]. destruct HR1. split; simpl; try done.
  intros oid' s' [[<- <-]|[_ ?]]%lookup_insert_Some; eauto.
Qed.

Lemma rinv_lru n n' r c : RInv n r → n ≤ n' → lru_ok n' c → budget c = BALE_LRU_BUDGET_BYTES →
  (∀ hex b, lru_map c !! hex = Some b → ∃ info, info_hash info = hex ∧ rebuilt info b) → RInv n' (set_bale_cache c r).
Proof using Type. intros [] Hn Hc Hb Hall. split; simpl; try done. lia. Qed.

(** The handles are as before. *)
Definition same_handles (r r' : Reader) : Prop := handles r' = handles r ∧ next_handle r' = next_handle r.

Lemma wps_materialize_pointer n oid b info r : RInv n r → (n + 1) * BALE_LRU_BUDGET_BYTES < 2 ^ 64 → blob_of oid b → pointer_in b = Ok info →
  wps (materialize_pointer raw stall_secs info) r (λ d r', RInv (n + 1) r' ∧ same_handles r r' ∧ serves oid d)
    (λ _ r', RInv (n + 1) r' ∧ same_handles r r').
Proof.
  intros HR Hmax Hb Hp. destruct (lru_get_ok n (info_hash info) (bale_cache r) (ri_lru _ _ HR)) as (Hok & Hbud & Hmap & Hget).
  assert (HR0 : RInv n (set_bale_cache (lru_get (info_hash info) (bale_cache r)).2 r)).
  { eapply rinv_lru; [done|lia|done|by rewrite Hbud; apply HR|]. rewrite Hmap. apply HR. }
  set (r0 := set_bale_cache _ r) in HR0. unfold materialize_pointer. apply wps_bind. unfold wps at 1.
  destruct (lru_get (info_hash info) (bale_cache r)) as [o c] eqn:Hlru. cbn [fst snd] in *. subst o.
  pose proof (rinv_mono n (n + 1) r0 HR0 ltac:(lia)) as HR0'. destruct (lru_map (bale_cache r) !! info_hash info) as [v|] eqn:Hv.
  { apply wps_ret. split_and!; try done. destruct (ri_bale _ _ HR _ _ Hv) as (info' & Hh & Hre). exists b. split; [done|]. rewrite Hp. left. by exists info', v. }
  apply wps_bind, wps_lift. destruct (info_size info) as [size|] eqn:Hs; simpl; [|done].
  apply wps_bind. eapply wps_mono; [apply wps_run, (frame_reconstruct info r0)| |].
  2:{ intros e r1 [H1 _]. split; [exact (rinv_keeps _ _ _ H1 HR0')|]. by split; [rewrite (k_handles _ _ H1)|rewrite (k_next _ _ H1)]. }
  intros tmp r1 [H1 Hrun]. assert (Hre : rebuilt info tmp) by by exists r0, r1.
  pose proof (rinv_keeps _ _ _ H1 HR0) as HR1. assert (Hsame : same_handles r r1) by by split; [rewrite (k_handles _ _ H1)|rewrite (k_next _ _ H1)].
  assert (Hkeep : ∀ r2, keeps r1 r2 → RInv n r2 ∧ RInv (n + 1) r2 ∧ same_handles r r2).
  { intros r2 H2. pose proof (rinv_keeps _ _ _ H2 HR1) as HR2. split; [done|]. split; [apply (rinv_mono n); [done|lia]|].
    destruct Hsame. split; [rewrite (k_handles _ _ H2)|rewrite (k_next _ _ H2)]; done. }
  destruct (Z.leb_spec size BALE_LRU_BUDGET_BYTES).
  - apply wps_bind. eapply wps_mono; [apply wps_run, (frame_repo (reading (λ _, tmp))); back| |intros e r2 [H2 _]; by apply Hkeep].
    intros buf r2 [H2 Hread]. destruct (Hkeep _ H2) as (HR2 & _ & Hsame2).
    assert (buf = tmp) as -> by (eapply reading_const; done).
    destruct (lru_put_ok n (info_hash info) tmp (bale_cache r2) (ri_lru _ _ HR2)) as (Hput & Hpb & Hpm);
      [by rewrite (ri_budget _ _ HR2)|by rewrite (ri_budget _ _ HR2)|].
    apply wps_bind, wps_modify, wps_ret. split_and!.
    + eapply rinv_lru; [done|lia|done|by rewrite Hpb; apply HR2|].
      intros hex v [[-> ->]|Hv']%Hpm; [by exists info|by apply (ri_bale _ _ HR2)].
    + done.
    + exists b. split; [done|]. rewrite Hp. left. by exists info, tmp.
  - apply wps_bind. eapply wps_mono; [apply frame_map_err, frame_repo; back| |intros e r2 H2; by apply Hkeep].
    intros [] r2 H2. apply wps_ret. destruct (Hkeep _ H2) as (_ & ? & ?). split_and!; try done.
    exists b. split; [done|]. rewrite Hp. right. by exists tmp, size.
Qed.

Lemma wps_materialize n oid r : RInv n r → (n + 1) * BALE_LRU_BUDGET_BYTES < 2 ^ 64 →
  wps (materialize raw stall_secs oid) r (λ d r', RInv (n + 1) r' ∧ same_handles r r' ∧ serves oid d)
    (λ _ r', RInv (n + 1) r' ∧ same_handles r r').
Proof.
  intros HR Hmax. unfold materialize. apply wps_bind, wps_gets. destruct (plain_cache r !! oid) as [b|] eqn:Hc.
  { apply wps_ret. split_and!; [apply (rinv_mono n); [done|lia]|done|]. by apply (ri_plain _ _ HR). }
  assert (Hkeep : ∀ r2, keeps r r2 → RInv n r2 ∧ RInv (n + 1) r2 ∧ same_handles r r2).
  { intros r2 H2. pose proof (rinv_keeps _ _ _ H2 HR) as HR2. split; [done|]. split; [apply (rinv_mono n); [done|lia]|].
    by split; [rewrite (k_handles _ _ H2)|rewrite (k_next _ _ H2)]. }
  apply wps_bind. eapply wps_mono; [apply wps_load_blob| |intros e r1 H1; by apply Hkeep].
  intros b r1 [H1 Hb]. destruct (Hkeep _ H1) as (HR1 & HR1' & Hs1). pose proof (pointer_in_returns b) as Hret.
  fold (pointer_in b). destruct (pointer_in b) as [info|e| |] eqn:Hp; try done.
  - eapply wps_mono; [by apply (wps_materialize_pointer n oid b)| |].
    + intros d r2 (? & [] & ?). split_and!; try done. destruct Hs1. split; congruence.
    + intros e r2 (? & []). split_and!; try done. destruct Hs1. split; congruence.
  - unfold materialize_plain. destruct (Z.ltb_spec PLAIN_BLOB_MAX_BYTES (len b)); [by apply wps_throw|].
    assert (Hsv : serves oid (HBytes b)) by (exists b; split; [done|]; by rewrite Hp).
    apply wps_bind, wps_modify, wps_ret. split_and!; try done. destruct HR1'. split; simpl; try done.
    intros oid' b' [[<- <-]|[_ ?]]%lookup_insert_Some; eauto.
Qed.

(** ** Operations *)

Inductive rd_op := OSize (oid : str) | OOpen (oid : str) | OPread (fh off n : Z) | OClose (fh : Z).
Definition rd_run (op : rd_op) (r : Reader) : Reader :=
  match op with
  | OSize oid => (size_of oid r).2
  | OOpen oid => (open raw stall_secs oid r).2
  | OPread fh off n => (pread fh off n r).2
  | OClose fh => (close fh r).2
  end.
Definition rd_history (ops : list rd_op) (r : Reader) : Reader := foldl (λ r op, rd_run op r) r ops.

(** A new handle is fresh; the others stay. *)
Lemma wps_open n oid r : RInv n r → (n + 1) * BALE_LRU_BUDGET_BYTES < 2 ^ 64 →
  wps (open raw stall_secs oid) r
    (λ fh r', RInv (n + 1) r' ∧ ∃ d, serves oid d ∧ handles r !! fh = None ∧ 1 ≤ fh ∧ handles r' = <[fh := d]> (handles r))
    (λ _ r', RInv (n + 1) r' ∧ handles r' = handles r).
Proof.
  intros HR Hmax. unfold open. apply wps_bind. eapply wps_mono; [by apply (wps_materialize n)| |intros e r1 (? & ? & _); done].
  intros d r1 (HR1 & [Hh Hn] & Hsv). apply wps_bind. unfold wps at 1. pose proof (ri_next _ _ HR) as Hnext.
  assert (as_u64 (next_handle r1 + 1) = next_handle r + 1) as -> by (rewrite Hn; apply Z.mod_small; unfold BALE_LRU_BUDGET_BYTES in *; lia).
  apply wps_bind, wps_modify, wps_ret. simpl. rewrite Hh. split.
  - destruct HR1. split; simpl; try done; [|lia]. intros h [x Hx].
    apply lookup_insert_Some in Hx as [[<- _]|[_ Hx]]; [lia|]. pose proof (ri_handles _ _ HR h ltac:(eauto)). lia.
  - exists d. split_and!; try done; [|lia]. destruct (handles r !! (next_handle r + 1)) eqn:Hx; [|done].
    pose proof (ri_handles _ _ HR _ (ex_intro _ _ Hx)). lia.
Qed.

Lemma pread_state fh off n r : (pread fh off n r).2 = r.
Proof using Type.
  unfold pread, mbind, ST_bind, gets. destruct (handles r !! fh) as [[b|c size]|]; [|by destruct (_ <=? _)|done].
  destruct (_ <=? _); [done|]. unfold lift, or_panic. by destruct (slice _ _ _).
Qed.

Lemma rd_run_inv n op r : RInv n r → (n + 1) * BALE_LRU_BUDGET_BYTES < 2 ^ 64 →
  RInv (n + 1) (rd_run op r) ∧ ∀ fh d, handles r !! fh = Some d → op ≠ OClose fh → handles (rd_run op r) !! fh = Some d.
Proof.
  intros HR Hmax. pose proof (rinv_mono n (n + 1) r HR ltac:(lia)) as HR'. destruct op as [oid|oid|fh off m|fh]; simpl.
  - pose proof (wps_size_of (n + 1) oid r HR') as H. unfold wps in H.
    destruct (size_of oid r) as [[s|e| |] r']; try done; simpl; destruct H as [? Hh]; (split; [done|]).
    + destruct Hh as [-> _]. done.
    + by rewrite Hh.
  - pose proof (wps_open n oid r HR Hmax) as H. unfold wps in H.
    destruct (open raw stall_secs oid r) as [[s|e| |] r']; try done; simpl; destruct H as [? Hh]; (split; [done|]); intros fh d Hd _.
    + destruct Hh as (d' & _ & Hnone & _ & ->). rewrite lookup_insert_ne; [done|]. congruence.
    + by rewrite Hh.
  - rewrite pread_state. split; [done|]. by intros.
  - split; [|intros fh' d Hd Hne; rewrite lookup_delete_ne; [done|congruence]]. destruct HR'. split; simpl; try done.
    intros h [x [_ Hx]%lookup_delete_Some]. eauto.
Qed.

Lemma rd_history_inv ops : ∀ n r, RInv n r → (n + len ops) * BALE_LRU_BUDGET_BYTES < 2 ^ 64 →
  RInv (n + len ops) (rd_history ops r) ∧
  ∀ fh d, handles r !! fh = Some d → OClose fh ∉ ops → handles (rd_history ops r) !! fh = Some d.
Proof.
  unfold rd_history. induction ops as [|op ops IH]; intros n r HR Hmax; cbn [foldl].
  { change (len []) with 0. rewrite Z.add_0_r. by split. }
  unfold len in *. cbn [length] in *. assert (Hn : n + Z.of_nat (S (length ops)) = n + 1 + Z.of_nat (length ops)) by lia. rewrite Hn in Hmax |- *.
  destruct (rd_run_inv n op r HR) as [HR1 Hh1]; [unfold BALE_LRU_BUDGET_BYTES in *; lia|].
  destruct (IH _ _ HR1) as [HR2 Hh2]; [lia|]. split; [done|]. intros fh d Hd Hno. apply not_elem_of_cons in Hno as [? ?].
  apply Hh2; [|done]. by apply Hh1.
Qed.

Lemma rinv_new repo cache : RInv 0 (reader_new repo cache).
Proof using Type.
  split; simpl; try done; [|by intros h [? ?]].
  split; simpl; try done; [by intros k [? ?]|unfold held; simpl; by rewrite map_sum_empty..].
Qed.

(** What a read of an open file answers. *)
Definition reads_as (d : HandleData) (off n : Z) (o : outcome str bytes) : Prop :=
  match d with
  | HBytes c => o = Ok (take (Z.to_nat n) (drop (Z.to_nat off) c))
  | HTempfile c size =>
      match o with
      | Ok p => len p ≤ n ∧ (size ≤ off → p = []) ∧ (off < size → off + len p ≤ size) ∧ (∃ rest, drop (Z.to_nat off) c = p ++ rest) ∧
                (p = [] → n = 0 ∨ size ≤ off ∨ len c ≤ off)
      | Err _ => True
      | _ => False
      end
  end.

Lemma pread_open fh off n r d : handles r !! fh = Some d → 0 ≤ off → 0 ≤ n → off + n < 2 ^ 64 → reads_as d off n (pread fh off n r).1.
Proof.
  intros Hd Hoff Hn Hmax. unfold pread, mbind, ST_bind, gets. rewrite Hd. destruct d as [c|c size]; simpl.
  - destruct (Z.leb_spec (len c) off) as [Hle|Hlt]; unfold len in *; [rewrite drop_ge by lia; by rewrite take_nil|].
    assert (as_u64 (off + n) = off + n) as -> by (apply Z.mod_small; lia).
    rewrite slice_ok by lia. simpl. f_equal. destruct (Z.le_ge_cases (off + n) (Z.of_nat (length c))).
    + f_equal. lia.
    + rewrite !take_ge by (rewrite length_drop; lia). done.
  - destruct (Z.leb_spec size off) as [Hle|Hlt]; simpl.
    + unfold len. simpl. split_and!; try done; [lia..| |auto]. eauto.
    + pose proof (read_at_reads c off (Z.to_nat (Z.min n (size - off))) Hoff) as H. unfold len in *.
      destruct (read_at _ _ _) as [p|e| |]; simpl; try done. destruct H as (Hlen & Hrest & Hnil).
      split_and!; try done; [lia..|]. intros Hp. destruct (Hnil Hp); [left|right; right]; lia.
Qed.

(** The files of a mount read back.  After any use of the reader its cache
    of reconstructed files is within its budget, a size is that of the blob or of
    its pointer, and an open comes back: an error leaves the handles alone, and
    an answer is a handle that was not in use, bound to what the object serves: the
    blob itself, at most 16 MiB of it, or a reconstruction of the pointer's file.
    Whatever happens until the handle is closed, every read of it answers exactly
    the part of that content at its offset (a part of it, from a file on disk); the
    close succeeds once, and the handle is then unknown. *)
Theorem opened_files_read_back (repo : Repo) (cache : ChunkCache) (ops : list rd_op) (oid : str) (r := rd_history ops (reader_new repo cache)) :
  (len ops + 1) * BALE_LRU_BUDGET_BYTES < 2 ^ 64 →
  held (bale_cache r) ≤ BALE_LRU_BUDGET_BYTES ∧
  match (size_of oid r).1 with
  | Ok s => ∃ b, blob_of oid b ∧ logical_size oid b = Ok s
  | Err _ => True
  | _ => False
  end ∧
  match open raw stall_secs oid r with
  | (Ok fh, r1) => ∃ d, serves oid d ∧ 1 ≤ fh ∧ handles r !! fh = None ∧
      ∀ later, OClose fh ∉ later → (len ops + 1 + len later) * BALE_LRU_BUDGET_BYTES < 2 ^ 64 →
        let r2 := rd_history later r1 in
        (∀ off n, 0 ≤ off → 0 ≤ n → off + n < 2 ^ 64 → reads_as d off n (pread fh off n r2).1) ∧
        (close fh r2).1 = Ok true ∧ (close fh (close fh r2).2).1 = Ok false ∧
        ∀ off n, is_ok (pread fh off n (close fh r2).2).1 = false
  | (Err _, r1) => handles r1 = handles r
  | _ => False
  end.
Proof.
  intros Hmax. destruct (rd_history_inv ops 0 (reader_new repo cache) (rinv_new repo cache)) as [HR _]; [unfold BALE_LRU_BUDGET_BYTES in *; lia|].
  fold r in HR. rewrite Z.add_0_l in HR. split_and!.
  - rewrite <-(ri_budget _ _ HR). apply (lru_held _ _ (ri_lru _ _ HR)).
  - pose proof (wps_size_of (len ops) oid r HR) as H. unfold wps in H. destruct (size_of oid r) as [[s|e| |] r']; try done. apply H.
  - pose proof (wps_open (len ops) oid r HR Hmax) as H. unfold wps in H.
    destruct (open raw stall_secs oid r) as [[fh|e| |] r1]; try done; [|apply H].
    destruct H as (HR1 & d & Hsv & Hfree & Hfh & Hh). exists d. split_and!; try done. intros later Hno Hl.
    destruct (rd_history_inv later _ _ HR1 Hl) as [HR2 Hkept].
    assert (Hd : handles (rd_history later r1) !! fh = Some d) by (apply Hkept; [by rewrite Hh, lookup_insert_eq|done]).
    split_and!; [intros; by apply pread_open| | |]; unfold close; simpl.
    + by rewrite bool_decide_true by eauto.
    + rewrite bool_decide_false; [done|]. rewrite lookup_delete_eq. by intros [? ?].
    + intros off n. unfold pread, mbind, ST_bind, gets. simpl. by rewrite lookup_delete_eq.
Qed.
End config.
End frames.
