(* ===== verification/ReaderToy.v ===== *)
(** * A reader at work

    A plain blob and a pointer whose file a download answers, and the witness of
    the theorem of [ReaderSpec]. *)

From stdpp Require Import gmap list.
From S2P Require Import Prelude RustStd Pktline CleanCache Config Repo Filter FilterSpec SmudgeSpec FilterToy Reader ReaderSpec.

#[export] Instance online : Environment := {|
  runtime_new := Ok tt;
  get_cache := Ok tt;
  resolve_read := Ok (lit "https://store", lit "token", 100);
  build_translator _ := Ok tt;
  net_download _ cache _ _ := ([Poll 1; Finished (Ok tt)], toy_content, cache);
  get_reconstruction_v1 _ _ := Ok None;
  verify_file := verify_chunks_in_memory toy_hash;
|}.

#[export] Instance online_laws : EnvironmentLaws.
Proof. split; try done. exact (verify_file_runs (EnvironmentLaws := toy_environment_laws)). Qed.

Definition toy_object (o : str) : outcome str (ObjectKind * bytes) :=
  if decide (o = lit "01") then Ok (KBlob, lit "hello")
  else if decide (o = lit "02") then Ok (KBlob, toy_json ++ [x0a])
  else if decide (o = lit "03") then Ok (KTree, []) else Err (lit "not found").

(** Positional reads come back one byte at a time. *)
#[export] Instance toy_odb : Odb := {|
  OdbId := str;
  from_hex s := if decide (s = []) then Err (lit "empty") else Ok s;
  find_object := toy_object;
  read_at b off n := Ok (take (Nat.min n 1) (drop (Z.to_nat off) b));
|}.

#[export] Instance toy_odb_laws : OdbLaws.
Proof.
  split; simpl.
  - intros s. by destruct (decide _).
  - intros o. unfold toy_object. repeat destruct (decide _); done.
  - intros b off n Hoff. split; [rewrite length_take; lia|]. split.
    + exists (drop (Nat.min n 1) (drop (Z.to_nat off) b)). by rewrite take_drop.
    + intros Hnil. apply (f_equal length) in Hnil. rewrite length_take, length_drop in Hnil. unfold len. simpl in *. lia.
Qed.

Lemma online_ends cfg cache info n label : returned (download_cold label 30 (net_download cfg cache info n).1.1).
Proof. done. Qed.

Definition toy_ops : list rd_op := [OSize (lit "02"); OOpen (lit "03"); OOpen (lit "01"); OPread 1 1 2; OClose 1].

Example toy_reads :
  let r0 := rd_history toy_raw 30 toy_ops (reader_new toy_repo tt) in
  let '(fh, r1) := open toy_raw 30 (lit "02") r0 in
  fh = Ok 2 ∧ (pread 2 0 10 r1).1 = Ok (lit "ab") ∧ (pread 2 1 10 r1).1 = Ok (lit "b") ∧ (size_of (lit "02") r1).1 = Ok 2 ∧
  (size_of (lit "01") r1).1 = Ok 5.
Proof. by vm_compute. Qed.

Lemma opened_files_read_back_witness :
  let r := rd_history toy_raw 30 toy_ops (reader_new toy_repo tt) in
  ∃ fh r1 d, open toy_raw 30 (lit "02") r = (Ok fh, r1) ∧ serves toy_raw 30 (lit "02") d ∧
    reads_as d 0 10 (pread fh 0 10 (rd_history toy_raw 30 [OOpen (lit "01"); OClose 3] r1)).1 ∧ fh = 2.
Proof.
  destruct (opened_files_read_back toy_raw 30 online_ends toy_repo tt toy_ops (lit "02")) as (_ & _ & H); [by vm_compute|].
  cbv zeta. match type of H with context [rd_history ?a ?b ?c ?e] => set (r := rd_history a b c e) in * end.
  assert (Hrun : (open toy_raw 30 (lit "02") r).1 = Ok 2) by (by vm_compute).
  destruct (open toy_raw 30 (lit "02") r) as [o r1]. simpl in Hrun. subst o.
  destruct H as (d & Hsv & _ & _ & Hlater). exists 2, r1, d. split; [reflexivity|]. split; [exact Hsv|]. split; [|reflexivity].
  destruct (Hlater [OOpen (lit "01"); OClose 3]) as [Hread _]; [rewrite !not_elem_of_cons; split_and!; [done|done|apply not_elem_of_nil]|by vm_compute|].
  apply Hread; lia.
Defined.
