(* ===== verification/Fuse.v ===== *)
(** * The callbacks of a mount

    [crates/git-bale/src/mount/backend/]: [libfuse.rs], [winfsp.rs] and the decoding
    of paths in [mod.rs].  A callback takes C pointers, where [None] is null, and
    answers an errno as a negative number.  A panic in a callback ends the process.
    Loading the library and what the kernel asks for are parameters. *)

From stdpp Require Import gmap list.
From S2P Require Import Prelude RustStd RustText Pktline CleanCache Config Repo Filter Vfs Reader.

(** [libc], and the constants of [winfsp.rs]. *)
Definition ENOENT : Z := 2.
Definition EIO : Z := 5.
Definition EBADF : Z := 9.
Definition EFAULT : Z := 14.
Definition ENOTDIR : Z := 20.
Definition EISDIR : Z := 21.
Definition EROFS : Z := 30.
Definition O_ACCMODE : Z := 3.
Definition O_RDONLY : Z := 0.
Definition S_IFDIR : Z := 0x4000.
Definition S_IFREG : Z := 0x8000.
(** [0o555] and [0o444]. *)
Definition DIR_MODE : Z := 0x16D.
Definition FILE_MODE : Z := 0x124.
(** [n as c_int] *)
Definition as_i32 (z : Z) : Z := if z mod 2 ^ 32 <? 2 ^ 31 then z mod 2 ^ 32 else z mod 2 ^ 32 - 2 ^ 32.

(** The fields of [stat] that are written, and those of [fuse_file_info] that are read. *)
Record Stat := mkStat { st_ino : Z; st_mode : Z; st_nlink : Z; st_uid : Z; st_gid : Z; st_size : Z }.
Definition zeroed : Stat := mkStat 0 0 0 0 0 0.
Record FileInfo := mkFi { fi_flags : Z; fi_fh : Z }.

(** [CStr::to_str]. *)
Definition cstr_to_path (p : option bytes) : option str :=
  match p with
  | Some s => if utf8_valid s then Some s else None
  | None => None
  end.
(** [CString::new] *)
Definition c_string (name : str) : option bytes := if bool_decide (x00 ∈ name) then None else Some name.

Section fuse.
Context {G : GitTrees} {C : Crates} {Env : Environment} {O : Odb}.

(** [DiffVfs] with its reader; [ACTIVE_VFS] has it once it was set. *)
Record Mount := mkMount { m_vfs : DiffVfs; m_reader : Reader }.
Definition set_m_vfs v m := mkMount v (m_reader m).
Definition set_m_reader r m := mkMount (m_vfs m) r.

Abbreviation CB := (ST (option Mount) str).
Abbreviation MT := (ST Mount str).
Definition on_vfs {A} (m : ST DiffVfs str A) : MT A := zoom m_vfs set_m_vfs m.
Definition on_reader {A} (m : ST Reader str A) : MT A := zoom m_reader set_m_reader m.

(** [let Some(vfs) = vfs() else { return none }]. *)
Definition with_vfs {A} (none : A) (m : MT A) : CB A := λ s,
  match s with
  | None => (Ok none, None)
  | Some v => let '(o, v') := m v in (o, Some v')
  end.
(** [match call { Ok(a) => .., Err(e) => .. }] *)
Definition attempt {A} (m : MT A) : MT (str + A) := λ s,
  match m s with
  | (Ok a, s') => (Ok (inr a), s')
  | (Err e, s') => (Ok (inl e), s')
  | (Panic, s') => (Panic, s')
  | (Diverged, s') => (Diverged, s')
  end.
End fuse.

(** ** libfuse *)

Module Libfuse.
Section callbacks.
Context {G : GitTrees} {C : Crates} {Env : Environment} {O : Odb} (raw : RawConfig) (stall_secs getuid getgid : Z).
Abbreviation CB := (ST (option Mount) str).

Definition op_getattr (path : option bytes) (stbuf : option Stat) : CB (Z * option Stat) :=
  match stbuf with
  | None => mret (- EFAULT, None)
  | Some _ =>
      match cstr_to_path path with
      | None => mret (- ENOENT, Some zeroed)
      | Some p =>
          with_vfs (- EIO, Some zeroed)
            (node ← on_vfs (lookup_path p);
             match node with
             | None => mret (- ENOENT, Some zeroed)
             | Some node =>
                 match kind node with
                 | Dir => mret (0, Some (mkStat (inode node) (Z.lor S_IFDIR DIR_MODE) 2 getuid getgid 0))
                 | File _ source =>
                     size ← attempt (on_reader (size_of (oid source)));
                     mret match size with
                          | inr n => (0, Some (mkStat (inode node) (Z.lor S_IFREG FILE_MODE) 1 getuid getgid (as_i64 n)))
                          | inl _ => (- EIO, Some (mkStat (inode node) (Z.lor S_IFREG FILE_MODE) 1 getuid getgid 0))
                          end
                 end
             end)
      end
  end.

Definition op_open (path : option bytes) (fi : option FileInfo) : CB (Z * option FileInfo) :=
  match cstr_to_path path with
  | None => mret (- ENOENT, fi)
  | Some p =>
      with_vfs (- EIO, fi)
        (node ← on_vfs (lookup_path p);
         match node with
         | None => mret (- ENOENT, fi)
         | Some node =>
             match kind node, fi with
             | Dir, _ => mret (- EISDIR, fi)
             | File _ _, None => mret (- EIO, fi)
             | File _ source, Some f =>
                 if negb (Z.land (fi_flags f) O_ACCMODE =? O_RDONLY) then mret (- EROFS, fi)
                 else
                   handle ← attempt (on_reader (open raw stall_secs (oid source)));
                   mret match handle with
                        | inr h => (0, Some (mkFi (fi_flags f) h))
                        | inl _ => (- EIO, fi)
                        end
             end
         end)
  end.

(** The bytes are those copied to [buf], which [has_buf] says is there. *)
Definition op_read (has_buf : bool) (size offset : Z) (fi : option FileInfo) : CB (Z * bytes) :=
  if negb has_buf then mret (- EFAULT, [])
  else
    with_vfs (- EIO, [])
      match fi with
      | None => mret (- EBADF, [])
      | Some f =>
          if fi_fh f =? 0 then mret (- EBADF, [])
          else
            bytes ← attempt (on_reader (pread (fi_fh f) (as_u64 offset) size));
            mret match bytes with
                 | inr b => (as_i32 (len b), b)
                 | inl _ => (- EIO, [])
                 end
      end.

Definition op_release (fi : option FileInfo) : CB Z :=
  match fi with
  | None => mret 0
  | Some f => if fi_fh f =? 0 then mret 0 else with_vfs 0 (_ ← on_reader (close (fi_fh f)); mret 0)
  end.

(** With the names given to [filler], whose answers are ignored. *)
Definition op_readdir (path : option bytes) : CB (Z * list bytes) :=
  match cstr_to_path path with
  | None => mret (- ENOENT, [])
  | Some p =>
      with_vfs (- EIO, [])
        (node ← on_vfs (lookup_path p);
         match node with
         | None => mret (- ENOENT, [])
         | Some node =>
             match kind node with
             | File _ _ => mret (- ENOTDIR, [])
             | Dir =>
                 let dots := [lit "."; lit ".."] in
                 children ← on_vfs (readdir (inode node));
                 mret match children with
                      | None => (0, dots)
                      | Some l => (0, dots ++ omap (λ c, c_string c.1) l)
                      end
             end
         end)
  end.
End callbacks.
End Libfuse.

(** ** WinFsp *)

Module Winfsp.
Section callbacks.
Context {G : GitTrees} {C : Crates} {Env : Environment} {O : Odb} (raw : RawConfig) (stall_secs : Z).
Abbreviation CB := (ST (option Mount) str).

Definition op_getattr (path : option bytes) (stbuf : option Stat) : CB (Z * option Stat) :=
  match stbuf with
  | None => mret (- EFAULT, None)
  | Some _ =>
      match cstr_to_path path with
      | None => mret (- ENOENT, Some zeroed)
      | Some p =>
          with_vfs (- EIO, Some zeroed)
            (node ← on_vfs (lookup_path p);
             match node with
             | None => mret (- ENOENT, Some zeroed)
             | Some node =>
                 match kind node with
                 | Dir => mret (0, Some (mkStat (inode node) (Z.lor S_IFDIR DIR_MODE) 2 0 0 0))
                 | File _ source =>
                     size ← attempt (on_reader (size_of (oid source)));
                     mret match size with
                          | inr n => (0, Some (mkStat (inode node) (Z.lor S_IFREG FILE_MODE) 1 0 0 (as_i64 n)))
                          | inl _ => (- EIO, Some (mkStat (inode node) (Z.lor S_IFREG FILE_MODE) 1 0 0 0))
                          end
                 end
             end)
      end
  end.

Definition op_open (path : option bytes) (fi : option FileInfo) : CB (Z * option FileInfo) :=
  match cstr_to_path path with
  | None => mret (- ENOENT, fi)
  | Some p =>
      with_vfs (- EIO, fi)
        (node ← on_vfs (lookup_path p);
         match node with
         | None => mret (- ENOENT, fi)
         | Some node =>
             match kind node, fi with
             | Dir, _ => mret (- EISDIR, fi)
             | File _ _, None => mret (- EIO, fi)
             | File _ source, Some f =>
                 handle ← attempt (on_reader (open raw stall_secs (oid source)));
                 mret match handle with
                      | inr h => (0, Some (mkFi (fi_flags f) h))
                      | inl _ => (- EIO, fi)
                      end
             end
         end)
  end.

(** The bytes are those copied to [buf], which [has_buf] says is there. *)
Definition op_read (has_buf : bool) (size offset : Z) (fi : option FileInfo) : CB (Z * bytes) :=
  if negb has_buf then mret (- EFAULT, [])
  else
    with_vfs (- EIO, [])
      match fi with
      | None => mret (- EBADF, [])
      | Some f =>
          if fi_fh f =? 0 then mret (- EBADF, [])
          else
            bytes ← attempt (on_reader (pread (fi_fh f) (Z.max offset 0) size));
            mret match bytes with
                 | inr b => (as_i32 (Z.min (len b) size), take (Z.to_nat (Z.min (len b) size)) b)
                 | inl _ => (- EIO, [])
                 end
      end.

Definition op_release (fi : option FileInfo) : CB Z :=
  match fi with
  | None => mret 0
  | Some f => if fi_fh f =? 0 then mret 0 else with_vfs 0 (_ ← on_reader (close (fi_fh f)); mret 0)
  end.

(** With the names given to [filler], whose answers are ignored. *)
Definition op_readdir (path : option bytes) : CB (Z * list bytes) :=
  match cstr_to_path path with
  | None => mret (- ENOENT, [])
  | Some p =>
      with_vfs (- EIO, [])
        (node ← on_vfs (lookup_path p);
         match node with
         | None => mret (- ENOENT, [])
         | Some node =>
             match kind node with
             | File _ _ => mret (- ENOTDIR, [])
             | Dir =>
                 let dots := [lit "."; lit ".."] in
                 children ← on_vfs (readdir (inode node));
                 mret match children with
                      | None => (0, dots)
                      | Some l => (0, dots ++ omap (λ c, c_string c.1) l)
                      end
             end
         end)
  end.
End callbacks.
End Winfsp.

(** ** A session

    What the kernel asks, with the pointers it passes, and what it gets back. *)

Inductive backend := OnUnix | OnWindows.
Inductive call :=
  | Getattr (path : option bytes) (stbuf : option Stat)
  | Open (path : option bytes) (fi : option FileInfo)
  | Read (has_buf : bool) (size offset : Z) (fi : option FileInfo)
  | Release (fi : option FileInfo)
  | Readdir (path : option bytes).
Inductive reply :=
  | RAttr (rc : Z) (stbuf : option Stat)
  | ROpen (rc : Z) (fi : option FileInfo)
  | RRead (rc : Z) (copied : bytes)
  | RRelease (rc : Z)
  | RReaddir (rc : Z) (filled : list bytes).

(** What loading a library and its entry point answers, and the session that the
    library then runs: the calls and its status. *)
Class FuseLibrary := {
  dlopen : str → outcome str unit;
  fuse_symbol : str → outcome str unit;
  fuse_session : list bytes → list call * Z;
}.

Section mount.
Context {G : GitTrees} {C : Crates} {Env : Environment} {O : Odb} {F : FuseLibrary}.
Context (raw : RawConfig) (stall_secs getuid getgid : Z).
Abbreviation CB := (ST (option Mount) str).

(** [build_operations]: the callbacks that are not null. *)
Definition unix_call (c : call) : CB reply :=
  match c with
  | Getattr p s => '(rc, st) ← Libfuse.op_getattr getuid getgid p s; mret (RAttr rc st)
  | Open p fi => '(rc, fi) ← Libfuse.op_open raw stall_secs p fi; mret (ROpen rc fi)
  | Read hb n off fi => '(rc, b) ← Libfuse.op_read hb n off fi; mret (RRead rc b)
  | Release fi => rc ← Libfuse.op_release fi; mret (RRelease rc)
  | Readdir p => '(rc, l) ← Libfuse.op_readdir p; mret (RReaddir rc l)
  end.
Definition windows_call (c : call) : CB reply :=
  match c with
  | Getattr p s => '(rc, st) ← Winfsp.op_getattr p s; mret (RAttr rc st)
  | Open p fi => '(rc, fi) ← Winfsp.op_open raw stall_secs p fi; mret (ROpen rc fi)
  | Read hb n off fi => '(rc, b) ← Winfsp.op_read hb n off fi; mret (RRead rc b)
  | Release fi => rc ← Winfsp.op_release fi; mret (RRelease rc)
  | Readdir p => '(rc, l) ← Winfsp.op_readdir p; mret (RReaddir rc l)
  end.
Definition run_call (b : backend) : call → CB reply := match b with OnUnix => unix_call | OnWindows => windows_call end.
Definition run_calls (b : backend) (calls : list call) : CB (list reply) :=
  fold_st (λ replies c, r ← run_call b c; mret (replies ++ [r])) [] calls.

(** [libfuse_candidates] on Linux. *)
Definition libfuse_candidates : list str :=
  [lit "libfuse.so.2"; lit "libfuse.so"; lit "/usr/lib/x86_64-linux-gnu/libfuse.so.2";
   lit "/usr/lib/aarch64-linux-gnu/libfuse.so.2"; lit "/usr/lib64/libfuse.so.2"].

(** The first library that loads; otherwise every name that was tried, with its error. *)
Fixpoint try_candidates (names : list str) (tried : list (str * str)) : outcome (list (str * str)) str :=
  match names with
  | [] => Err tried
  | name :: names =>
      match dlopen name with
      | Ok _ => Ok name
      | Err e => try_candidates names (tried ++ [(name, e)])
      | Panic => Panic
      | Diverged => Diverged
      end
  end.
Definition ensure_available (names : list str) : outcome (list (str * str)) unit := _ ← try_candidates names []; mret tt.
Definition join_errs (errs : list (str * str)) : str :=
  match (λ e, e.1 ++ lit ": " ++ e.2) <$> errs with
  | [] => []
  | e :: es => e ++ mjoin ((λ e, lit "; " ++ e) <$> es)
  end.
Definition load_libfuse : outcome str str :=
  map_err (λ errs, lit "libfuse disappeared between availability check and mount. Tried: " ++ join_errs errs)
    (try_candidates libfuse_candidates []).

(** A mount point: its path, and what the file system says of it. *)
Record MountPoint := mkPoint { mp_path : bytes; mp_exists : bool; mp_is_dir : bool }.
Definition mp_display (mp : MountPoint) : str := from_utf8_lossy (mp_path mp).

(** [ACTIVE_VFS.set] *)
Definition set_active (m : Mount) : CB unit := λ s,
  match s with
  | Some _ => (Err (lit "mount: another mount is already active in this process"), s)
  | None => (Ok tt, Some m)
  end.

(** [format!("{rc}")] *)
Definition show_i32 (z : Z) : str := if z <? 0 then lit "-" ++ to_string (- z) else to_string z.

(** The session, as [fuse_main_real] runs it until the file system is unmounted. *)
Definition mount (mp : MountPoint) (m : Mount) : CB (list reply) :=
  if negb (mp_exists mp) then throw (lit "mount point " ++ mp_display mp ++ lit " does not exist; create it first (mkdir)")
  else if negb (mp_is_dir mp) then throw (lit "mount point " ++ mp_display mp ++ lit " is not a directory")
  else
    _ ← set_active m;
    _ ← lift (map_err (λ e, lit "loading libfuse / fuse-t: " ++ e) load_libfuse);
    _ ← lift (map_err (λ e, lit "looking up fuse_main_real in libfuse: " ++ e) (fuse_symbol (lit "fuse_main_real")));
    mount_str ← lift (ok_or (lit "mount point path is not UTF-8: " ++ mp_display mp) (cstr_to_path (Some (mp_path mp))));
    c_mount ← lift (ok_or (lit "CString for mount point") (c_string mount_str));
    let argv := [lit "git-bale-mount"; c_mount; lit "-f"; lit "-o";
      lit "ro,default_permissions,use_ino,kernel_cache,attr_timeout=30,entry_timeout=30,fsname=git-bale"] in
    let '(calls, rc) := fuse_session argv in
    replies ← run_calls OnUnix calls;
    if negb (rc =? 0) then throw (lit "fuse_main_real returned non-zero status " ++ show_i32 rc ++ lit "; check stderr")
    else mret replies.

(** *** Windows *)

Definition WINFSP_DLL : str := lit "winfsp-x64.dll".
(** [PathBuf::join] of a relative name: a separator is added unless there is one, or only a drive. *)
Definition win_join (p name : str) : str :=
  match last p with
  | None => name
  | Some c =>
      let drive_only := match p with [_; x3a] => true | _ => false end in
      if bool_decide (c = x5c) || bool_decide (c = x2f) || drive_only then p ++ name else p ++ x5c :: name
  end.
Definition winfsp_candidates (var_os : str → option str) : list str :=
  [WINFSP_DLL] ++
  omap (λ var, pf ← var_os var; Some (win_join (win_join (win_join pf (lit "WinFsp")) (lit "bin")) WINFSP_DLL))
    [lit "ProgramFiles(x86)"; lit "ProgramW6432"; lit "ProgramFiles"] ++
  [win_join (lit "C:\Program Files (x86)\WinFsp\bin") WINFSP_DLL; win_join (lit "C:\Program Files\WinFsp\bin") WINFSP_DLL].
Definition load_winfsp (var_os : str → option str) : outcome str str :=
  map_err (λ errs, lit "WinFsp disappeared between availability check and mount. Tried: " ++ join_errs errs)
    (try_candidates (winfsp_candidates var_os) []).

(** Whether the mount point exists is left to WinFsp. *)
Definition mount_windows (var_os : str → option str) (mp : MountPoint) (m : Mount) : CB (list reply) :=
  _ ← set_active m;
  _ ← lift (map_err (λ e, lit "loading WinFsp: " ++ e) (load_winfsp var_os));
  _ ← lift (map_err (λ e, lit "looking up fsp_fuse_main_real in winfsp DLL: " ++ e) (fuse_symbol (lit "fsp_fuse_main_real")));
  mount_str ← lift (ok_or (lit "mount point path is not UTF-8: " ++ mp_display mp) (cstr_to_path (Some (mp_path mp))));
  c_mount ← lift (ok_or (lit "CString for mount point") (c_string mount_str));
  let argv := [lit "git-bale-mount"; lit "-f"; lit "-o"; lit "uid=-1,gid=-1"; c_mount] in
  let '(calls, rc) := fuse_session argv in
  replies ← run_calls OnWindows calls;
  if negb (rc =? 0) then throw (lit "fsp_fuse_main_real returned status " ++ show_i32 rc ++
    lit "; check that the WinFsp driver is installed and the mount point (" ++ mount_str ++ lit ") is a free drive letter or a non-existent directory")
  else mret replies.

(** ** The commands *)

(** [write!] of a line. *)
Definition writeln (l : str) : str := l ++ [x0a].
Definition tried_lines (tried : list (str * str)) : str := mjoin ((λ t, writeln (lit "  - " ++ t.1 ++ lit ": " ++ t.2)) <$> tried).
(** [Display] of [LibfuseUnavailable] on Linux, and of [WinfspUnavailable]. *)
Definition LibfuseUnavailable_display (tried : list (str * str)) : str :=
  mjoin (writeln <$> [lit "git-bale mount-diff needs libfuse at runtime, but it couldn't be loaded." ++ [x0a]; lit "Install one of:";
    lit "  • Debian/Ubuntu:  sudo apt install libfuse2"; lit "  • Fedora/RHEL:    sudo dnf install fuse-libs";
    lit "  • Arch:           sudo pacman -S fuse2"; []; lit "Tried these library names:"]) ++ tried_lines tried.
Definition WinfspUnavailable_display (tried : list (str * str)) : str :=
  mjoin (writeln <$> [lit "git-bale mount needs WinFsp at runtime, but " ++ WINFSP_DLL ++ lit " couldn't be loaded." ++ [x0a]; lit "Install WinFsp:";
    lit "  • winget install WinFsp.WinFsp"; lit "  • or download from https://winfsp.dev/"; []; lit "Tried these locations:"]) ++ tried_lines tried.

(** The end of a command: the process exits after printing, or an error. *)
Inductive RunError := Exits (code : Z) (printed : str) | NotMounted (e : MountError) | SessionFailed (e : str).

Section commands.
Context (var_os : str → option str) (b : backend).
Definition fail_fast : outcome RunError unit :=
  match b with
  | OnUnix => map_err (λ tried, Exits 2 (writeln (LibfuseUnavailable_display tried))) (ensure_available libfuse_candidates)
  | OnWindows => map_err (λ tried, Exits 2 (writeln (WinfspUnavailable_display tried))) (ensure_available (winfsp_candidates var_os))
  end.
Definition backend_mount (mp : MountPoint) (m : Mount) : CB (list reply) :=
  match b with OnUnix => mount mp m | OnWindows => mount_windows var_os mp m end.
(** [mount-diff] and [mount]. *)
Definition run (args : MountDiffArgs) (mp : MountPoint) (reader : Reader) : ST (option Mount) RunError (list reply) :=
  _ ← lift fail_fast;
  s ← lift (map_err NotMounted (mount_diff args));
  st_map_err SessionFailed (backend_mount mp (mkMount (mkDiffVfs s None []) reader)).
Definition run_rev (rev : str) (filters : list str) (odb_faults : list (option str)) (mp : MountPoint) (reader : Reader)
    : ST (option Mount) RunError (list reply) :=
  _ ← lift fail_fast;
  v ← lift (map_err NotMounted (mount_rev rev filters odb_faults));
  st_map_err SessionFailed (backend_mount mp (mkMount v reader)).
End commands.
End mount.
