(* ===== verification/FuseSpec.v ===== *)
(** * What a mount promises to the kernel

    An abstract read-only file system over a tree of names, whose only state is the
    open files, and the callbacks of both backends as an implementation of it. *)

From stdpp Require Import gmap list.
From S2P Require Import Prelude RustStd Pktline CleanCache Config Repo Filter FilterSpec CleanSpec SmudgeSpec.
From S2P Require Import Vfs VfsTree VfsServe VfsSpec VfsDiff Reader ReaderSpec Fuse.

Section spec.
Context {G : GitTrees} {C : Crates} {CL : CrateLaws} {Env : Environment} {EL : EnvironmentLaws} {O : Odb} {OL : OdbLaws}.
Context (raw : RawConfig) (stall_secs getuid getgid : Z).

(** ** The file system

    [V] is what there is at a path and [failed] excuses what is missing, as in
    [VfsServe]; [place] says which path an inode number belongs to. *)
Section abstract.
Context (V : list str → option (option str)) (failed : Prop).

Definition at_path (p : option bytes) (c : list str) (v : option str) : Prop :=
  ∃ s, cstr_to_path p = Some s ∧ c = components s ∧ V c = Some v.
Definition missing (p : option bytes) : Prop :=
  match cstr_to_path p with Some s => V (components s) = None ∨ failed | None => True end.

(** WinFsp is told the owner by an option of the mount. *)
Definition owner (b : backend) : Z * Z := match b with OnUnix => (getuid, getgid) | OnWindows => (0, 0) end.
(** The attributes of a directory, or those of a file with the size of its object. *)
Definition attr_of (b : backend) (c : list str) (i : Z) (st : Stat) : Prop :=
  match V c with
  | Some None => st = mkStat i (Z.lor S_IFDIR DIR_MODE) 2 (owner b).1 (owner b).2 0
  | Some (Some hex) => ∃ content n, blob_of hex content ∧ logical_size hex content = Ok n ∧
      st = mkStat i (Z.lor S_IFREG FILE_MODE) 1 (owner b).1 (owner b).2 (as_i64 n)
  | None => False
  end.

(** The names of a directory, in order; a name with a zero byte cannot be told. *)
Definition names_of (c : list str) (l : list bytes) : Prop :=
  Sorted (λ a b, Is_true (str_le a b)) l ∧ NoDup l ∧ (∀ n, n ∈ l → V (c ++ [n]) ≠ None) ∧
  ∀ n, x00 ∉ n → n ∉ l → V (c ++ [n]) = None ∨ failed.

Definition for_writing (b : backend) (fi : option FileInfo) : Prop :=
  b = OnUnix ∧ ∃ f, fi = Some f ∧ Z.land (fi_flags f) O_ACCMODE ≠ O_RDONLY.

(** One call: the reply, and the open files afterwards. *)
Definition call_ok (b : backend) (place : gmap Z (list str)) (opens : gmap Z HandleData) (c : call) (r : reply) (opens' : gmap Z HandleData) : Prop :=
  match c, r with
  | Getattr p buf, RAttr rc st => opens' = opens ∧
      match buf with
      | None => rc = - EFAULT ∧ st = None
      | Some _ => (rc = - ENOENT ∧ missing p) ∨ (rc = - EIO ∧ ∃ c hex, at_path p c (Some hex)) ∨
          (rc = 0 ∧ ∃ c v i a, at_path p c v ∧ place !! i = Some c ∧ st = Some a ∧ attr_of b c i a)
      end
  | Open p fi, ROpen rc fi' =>
      (opens' = opens ∧ fi' = fi ∧
        ((rc = - ENOENT ∧ missing p) ∨ (rc = - EISDIR ∧ ∃ c, at_path p c None) ∨ (rc = - EIO ∧ ∃ c hex, at_path p c (Some hex)) ∨
         (rc = - EROFS ∧ for_writing b fi ∧ ∃ c hex, at_path p c (Some hex)))) ∨
      (rc = 0 ∧ ¬ for_writing b fi ∧ ∃ f h c hex d, fi = Some f ∧ fi' = Some (mkFi (fi_flags f) h) ∧ at_path p c (Some hex) ∧
        serves raw stall_secs hex d ∧ 1 ≤ h ∧ opens !! h = None ∧ opens' = <[h := d]> opens)
  | Read has_buf size off fi, RRead rc copied => opens' = opens ∧
      match has_buf, fi with
      | false, _ => rc = - EFAULT ∧ copied = []
      | true, None => rc = - EBADF ∧ copied = []
      | true, Some f =>
          if decide (fi_fh f = 0) then rc = - EBADF ∧ copied = []
          else match opens !! fi_fh f with
               | None => (rc = - EBADF ∨ rc = - EIO) ∧ copied = []
               | Some d => (rc = len copied ∧ len copied ≤ size ∧ reads_as d off size (Ok copied)) ∨
                           (rc = - EIO ∧ copied = [] ∧ ∃ c n, d = HTempfile c n)
               end
      end
  | Release fi, RRelease rc => rc = 0 ∧ opens' = match fi with Some f => delete (fi_fh f) opens | None => opens end
  | Readdir p, RReaddir rc l => opens' = opens ∧
      ((rc = - ENOENT ∧ l = [] ∧ missing p) ∨ (rc = - ENOTDIR ∧ l = [] ∧ ∃ c hex, at_path p c (Some hex)) ∨
       (rc = 0 ∧ ∃ c names, at_path p c None ∧ l = [lit "."; lit ".."] ++ names ∧ names_of c names))
  | _, _ => False
  end.

Fixpoint session_ok (b : backend) (place : gmap Z (list str)) (opens : gmap Z HandleData) (calls : list call) (replies : list reply) : Prop :=
  match calls, replies with
  | [], [] => True
  | c :: calls, r :: replies => ∃ opens', call_ok b place opens c r opens' ∧ session_ok b place opens' calls replies
  | _, _ => False
  end.

(** ** The callbacks

    [P] and [width] are those of the tree's builder, as in [VfsServe]. *)
#[local] Set Default Proof Using "Type*".
Context {P : DiffVfs → gmap Z (list str) → Prop} {width : Z} (Mt : Mounted V failed P width).
Hypothesis network_ends : ∀ cfg cache info n label,
  returned (download_cold label stall_secs (net_download cfg cache info n).1.1).

(** [n] counts the calls so far. *)
Record Serving (n : Z) (m : Mount) (place : gmap Z (list str)) : Prop := {
  sv_tree : P (m_vfs m) place;
  sv_reader : RInv raw stall_secs n (m_reader m);
}.
Definition inodes (m : Mount) : Z := next_inode (state (m_vfs m)).

Definition call_path (p : option bytes) : list str := match cstr_to_path p with Some s => components s | None => [] end.
Definition call_reads (c : call) : Z :=
  match c with Getattr p _ | Open p _ | Readdir p => len (call_path p) + 1 | Read _ _ _ _ | Release _ => 0 end.
(** What the kernel guarantees of a read. *)
Definition call_wf (c : call) : Prop :=
  match c with Read _ size off _ => 0 ≤ off < 2 ^ 63 ∧ 0 ≤ size < 2 ^ 31 | _ => True end.

Definition served (b : backend) (n : Z) (m : Mount) (place : gmap Z (list str)) (c : call) (r : reply) (s' : option Mount) : Prop :=
  ∃ m' place', s' = Some m' ∧ place ⊆ place' ∧ Serving (n + 1) m' place' ∧ inodes m' ≤ inodes m + call_reads c * width ∧
    call_ok b place' (handles (m_reader m)) c r (handles (m_reader m')).

Lemma wps_attempt {A} (m : ST Mount str A) s (Q : str + A → Mount → Prop) R :
  wps m s (λ a, Q (inr a)) (λ e, Q (inl e)) → wps (attempt m) s Q R.
Proof using Type. unfold wps, attempt. by destruct (m s) as [[?|?| |] ?]. Qed.
Lemma wps_on_reader {A} (m : ST Reader str A) s (Q : A → Mount → Prop) R :
  wps m (m_reader s) (λ a r, Q a (set_m_reader r s)) (λ e r, R e (set_m_reader r s)) → wps (on_reader m) s Q R.
Proof using Type. unfold wps, on_reader, zoom. by destruct (m (m_reader s)) as [[?|?| |] ?]. Qed.
Lemma wps_on_vfs {A} (m : ST DiffVfs str A) s (Q : A → Mount → Prop) R :
  wps m (m_vfs s) (λ a v, Q a (set_m_vfs v s)) (λ e v, R e (set_m_vfs v s)) → wps (on_vfs m) s Q R.
Proof using Type. unfold wps, on_vfs, zoom. by destruct (m (m_vfs s)) as [[?|?| |] ?]. Qed.
Lemma wps_with_vfs {A} (none : A) (m : ST Mount str A) s (Q : A → option Mount → Prop) R :
  wps m s (λ a s', Q a (Some s')) (λ e s', R e (Some s')) → wps (with_vfs none m) (Some s) Q R.
Proof using Type. unfold wps, with_vfs. by destruct (m s) as [[?|?| |] ?]. Qed.

Lemma serving_mono n m place : Serving n m place → Serving (n + 1) m place.
Proof. intros [? ?]. split; [done|]. eapply rinv_mono; [done|lia]. Qed.
Lemma call_reads_nonneg c : 0 ≤ call_reads c * width.
Proof. pose proof (m_width _ _ _ _ Mt). destruct c; cbn [call_reads]; unfold len; nia. Qed.

(** A reply before anything is looked up. *)
Lemma served_early b n m place c r : Serving n m place → call_ok b place (handles (m_reader m)) c r (handles (m_reader m)) →
  served b n m place c r (Some m).
Proof. intros HS ?. pose proof (call_reads_nonneg c). exists m, place. split_and!; try done; [by apply serving_mono|lia]. Qed.

(** After the path [s] of a call was looked up; one more directory may be read. *)
Record Looked (n : Z) (m : Mount) (place : gmap Z (list str)) (c : call) (s : str) (o : option Node) (m1 : Mount) (place1 : gmap Z (list str)) : Prop := {
  lk_sub : place ⊆ place1;
  lk_serving : Serving n m1 place1;
  lk_reader : m_reader m1 = m_reader m;
  lk_inodes : inodes m1 + width ≤ inodes m + call_reads c * width;
  lk_sound : sound V failed place1 (components s) o;
}.

Lemma wps_resolved {A} b p s n m place c (none : A) k (rep : A → reply) :
  cstr_to_path p = Some s → call_reads c = len (call_path p) + 1 → Serving n m place → inodes m + call_reads c * width < 2 ^ 64 →
  (∀ o m1 place1, Looked n m place c s o m1 place1 → wps (k o) m1 (λ a m', served b n m place c (rep a) (Some m')) (λ _ _, False)) →
  wps (with_vfs none (on_vfs (lookup_path s) ≫= k)) (Some m) (λ a, served b n m place c (rep a)) (λ _ _, False).
Proof.
  intros Hp Hc [HP HR] Hmax Hk. pose proof (m_width _ _ _ _ Mt). unfold call_path in Hc. rewrite Hp in Hc. rewrite Hc in Hmax.
  apply wps_with_vfs, wps_bind, wps_on_vfs. unfold inodes in *. eapply wps_mono; [apply (wps_lookup_path _ _ Mt); [exact HP|nia]| |done].
  intros o v (place1 & Hsub & HP1 & Hn1 & Hs). apply (Hk o _ place1). split; try done. unfold inodes. rewrite Hc. simpl. nia.
Qed.

Lemma served_looked b n m place c s o m1 place1 r : Looked n m place c s o m1 place1 →
  call_ok b place1 (handles (m_reader m)) c r (handles (m_reader m)) → served b n m place c r (Some m1).
Proof.
  intros [Hsub HS Hr Hn _] ?. pose proof (m_width _ _ _ _ Mt). exists m1, place1. rewrite Hr. split_and!; try done; [by apply serving_mono|lia].
Qed.
(** A reply after a call of the reader. *)
Lemma served_reader b n m place c s o m1 place1 rep r : Looked n m place c s o m1 place1 → RInv raw stall_secs (n + 1) r →
  call_ok b place1 (handles (m_reader m)) c rep (handles r) → served b n m place c rep (Some (set_m_reader r m1)).
Proof.
  intros [Hsub [HP _] Hr Hn _] ? ?. pose proof (m_width _ _ _ _ Mt). exists (set_m_reader r m1), place1. split_and!; try done.
  unfold inodes in *. simpl. lia.
Qed.

Lemma missing_bad p : cstr_to_path p = None → missing p.
Proof using Type. unfold missing. by intros ->. Qed.
Lemma missing_looked n m place c p s m1 place1 : cstr_to_path p = Some s → Looked n m place c s None m1 place1 → missing p.
Proof using Type. unfold missing. intros -> [_ _ _ _ H]. done. Qed.
Lemma at_path_looked n m place c p s node m1 place1 : cstr_to_path p = Some s → Looked n m place c s (Some node) m1 place1 →
  at_path p (components s) (view (kind node)).
Proof using Type. intros Hp [_ _ _ _ [_ Hv]]. by exists s. Qed.
#[local] Hint Resolve missing_bad missing_looked at_path_looked : core.

Lemma wps_getattr b u g p buf n m place : owner b = (u, g) → Serving n m place → inodes m + call_reads (Getattr p buf) * width < 2 ^ 64 →
  wps (Libfuse.op_getattr u g p buf) (Some m) (λ a, served b n m place (Getattr p buf) (RAttr a.1 a.2)) (λ _ _, False).
Proof.
  intros Hown HS Hmax. unfold Libfuse.op_getattr. destruct buf as [st0|]; [|by apply wps_ret, served_early].
  destruct (cstr_to_path p) as [s|] eqn:Hp; [|apply wps_ret, served_early; [done|]; split; [done|]; left; by auto].
  apply (wps_resolved b p s n m place _ _ _ (λ a, RAttr a.1 a.2)); try done. intros [node|] m1 place1 HL.
  2:{ eapply wps_ret, served_looked; [done|]. split; [done|]. left. eauto. }
  pose proof (at_path_looked _ _ _ _ _ _ _ _ _ Hp HL) as Hat. pose proof (lk_sound _ _ _ _ _ _ _ _ HL) as [Hi Hv].
  destruct (kind node) as [|sz source] eqn:Hk; cbn [view] in *.
  - eapply wps_ret, served_looked; [done|]. split; [done|]. right; right. split; [done|].
    exists (components s), None, (inode node). eexists. split_and!; try done. unfold attr_of. by rewrite Hv, Hown.
  - apply wps_bind, wps_attempt, wps_on_reader.
    eapply wps_mono; [apply (wps_size_of raw stall_secs network_ends n), (sv_reader _ _ _ (lk_serving _ _ _ _ _ _ _ _ HL))| |].
    + intros size r (HR & Hh & content & Hb & Hl). eapply wps_ret, served_reader; [done|eapply rinv_mono; [exact HR|lia]|].
      rewrite Hh, (lk_reader _ _ _ _ _ _ _ _ HL). split; [done|]. right; right. split; [done|].
      exists (components s), (Some (oid source)), (inode node). eexists. split_and!; try done. unfold attr_of. rewrite Hv, Hown. by exists content, size.
    + intros e r (HR & Hh). eapply wps_ret, served_reader; [done|eapply rinv_mono; [exact HR|lia]|].
      rewrite Hh, (lk_reader _ _ _ _ _ _ _ _ HL). split; [done|]. right; left. split; [done|]. by exists (components s), (oid source).
Qed.

(** Opening, once the flags are accepted. *)
Lemma wps_open_file b p f s source n m place node m1 place1 : cstr_to_path p = Some s → ¬ for_writing b (Some f) →
  Looked n m place (Open p (Some f)) s node m1 place1 → at_path p (components s) (Some (oid source)) → (n + 1) * BALE_LRU_BUDGET_BYTES < 2 ^ 64 →
  wps (handle ← attempt (on_reader (open raw stall_secs (oid source)));
       mret match handle with inr h => (0, Some (mkFi (fi_flags f) h)) | inl _ => (- EIO, Some f) end) m1
    (λ a m', served b n m place (Open p (Some f)) (ROpen a.1 a.2) (Some m')) (λ _ _, False).
Proof.
  intros Hp Hw HL Hat Hmax. pose proof (lk_reader _ _ _ _ _ _ _ _ HL) as Hr1. apply wps_bind, wps_attempt, wps_on_reader.
  eapply wps_mono; [apply (wps_open raw stall_secs network_ends n), Hmax; apply (lk_serving _ _ _ _ _ _ _ _ HL)| |].
  - intros h r (HR & d & Hsv & Hfree & Hh & Hhs). eapply wps_ret, served_reader; [done|done|].
    right. split; [done|]. split; [done|]. exists f, h, (components s), (oid source), d. rewrite Hr1 in Hfree, Hhs. by split_and!.
  - intros e r (HR & Hhs). eapply wps_ret, served_reader; [done|done|].
    left. rewrite Hhs, Hr1. split_and!; try done. right; right; left. split; [done|]. by exists (components s), (oid source).
Qed.

Lemma wps_open_call b p fi n m place : Serving n m place → inodes m + call_reads (Open p fi) * width < 2 ^ 64 →
  (n + 1) * BALE_LRU_BUDGET_BYTES < 2 ^ 64 →
  wps (match b with OnUnix => Libfuse.op_open raw stall_secs p fi | OnWindows => Winfsp.op_open raw stall_secs p fi end) (Some m)
    (λ a, served b n m place (Open p fi) (ROpen a.1 a.2)) (λ _ _, False).
Proof.
  intros HS Hmax Hn.
  assert (Hfail : ∀ s node m1 place1 rc, cstr_to_path p = Some s → Looked n m place (Open p fi) s (Some node) m1 place1 →
    match view (kind node) with None => rc = - EISDIR | Some _ => rc = - EIO ∨ (rc = - EROFS ∧ for_writing b fi) end →
    served b n m place (Open p fi) (ROpen rc fi) (Some m1)).
  { intros s node m1 place1 rc Hp HL Hrc. pose proof (at_path_looked _ _ _ _ _ _ _ _ _ Hp HL) as Hat. eapply served_looked; [done|].
    left. split_and!; [done..|]. right. destruct (view (kind node)) as [hex|]; [right|left; eauto].
    destruct Hrc as [->|[-> ?]]; [left|right]; eauto. }
  assert (Hnone : ∀ s m1 place1, cstr_to_path p = Some s → Looked n m place (Open p fi) s None m1 place1 →
    served b n m place (Open p fi) (ROpen (- ENOENT) fi) (Some m1)).
  { intros. eapply served_looked; [done|]. left. split_and!; [done..|]. left. eauto. }
  destruct b; unfold Libfuse.op_open, Winfsp.op_open;
    (destruct (cstr_to_path p) as [s|] eqn:Hp;
      [|apply wps_ret, served_early; [done|]; left; split_and!; [done..|]; left; by auto]);
    apply (wps_resolved _ p s n m place _ _ _ (λ a, ROpen a.1 a.2)); try done;
    (intros [node|] m1 place1 HL; [|by eapply wps_ret, Hnone]);
    pose proof (at_path_looked _ _ _ _ _ _ _ _ _ Hp HL) as Hat; specialize (Hfail s node m1 place1);
    (destruct (kind node) as [|sz source]; cbn [view] in *; [by apply wps_ret, Hfail|]);
    (destruct fi as [f|]; [|by apply wps_ret, Hfail; auto]).
  - destruct (Z.eqb_spec (Z.land (fi_flags f) O_ACCMODE) O_RDONLY) as [Hro|Hrw]; cbn [negb].
    + eapply wps_open_file; try done. intros [_ (f' & [= <-] & Hne)]. done.
    + apply wps_ret, Hfail; auto. right. split; [done|]. split; [done|]. eauto.
  - eapply wps_open_file; try done. by intros [? _].
Qed.

(** A read changes nothing, whatever it answers. *)
Lemma read_reply b hb size off off' fh f n m place (k : bytes → Z * bytes) : Serving n m place → 0 ≤ off < 2 ^ 63 → 0 ≤ size < 2 ^ 31 →
  off' = off → fi_fh f = fh → fh ≠ 0 → hb = true → (∀ c, len c ≤ size → k c = (len c, c)) →
  wps (bytes ← attempt (on_reader (pread fh off' size)); mret match bytes with inr c => k c | inl _ => (- EIO, []) end) m
    (λ a m', served b n m place (Read hb size off (Some f)) (RRead a.1 a.2) (Some m')) (λ _ _, False).
Proof.
  intros HS Hoff Hsize -> <- Hfh -> Hk. apply wps_bind, wps_attempt, wps_on_reader. unfold wps.
  pose proof (pread_state (fi_fh f) off size (m_reader m)) as Hst.
  assert (set_m_reader (m_reader m) m = m) as Hsame by by destruct m.
  destruct (handles (m_reader m) !! fi_fh f) as [d|] eqn:Hd.
  2:{ unfold pread, mbind, ST_bind, gets. rewrite Hd. cbn. rewrite Hsame. apply served_early; [done|]. split; [done|]. rewrite decide_False, Hd by done. auto. }
  pose proof (pread_open stall_secs network_ends (fi_fh f) off size (m_reader m) d Hd) as Hr. destruct (pread (fi_fh f) off size (m_reader m)) as [o r'].
  simpl in Hst, Hr. subst r'. specialize (Hr ltac:(lia) ltac:(lia) ltac:(lia)).
  assert (∀ rc c, (rc = len c ∧ len c ≤ size ∧ reads_as d off size (Ok c)) ∨ (rc = - EIO ∧ c = [] ∧ ∃ c n, d = HTempfile c n) →
    served b n m place (Read true size off (Some f)) (RRead rc c) (Some m)) as Hok.
  { intros rc c H. apply served_early; [done|]. split; [done|]. by rewrite decide_False, Hd. }
  destruct o as [c|e| |]; [| |by destruct d..]; cbn; rewrite Hsame.
  - assert (len c ≤ size) as Hlen.
    { destruct d as [b0|b0 s0]; simpl in Hr; [|by destruct Hr]. injection Hr as ->. unfold len. rewrite length_take. lia. }
    rewrite Hk by done. apply Hok. by left.
  - apply Hok. right. destruct d as [b0|b0 s0]; simpl in Hr; [done|]. split_and!; eauto.
Qed.

Lemma wps_read b hb size off fi n m place : Serving n m place → 0 ≤ off < 2 ^ 63 → 0 ≤ size < 2 ^ 31 →
  wps (match b with OnUnix => Libfuse.op_read hb size off fi | OnWindows => Winfsp.op_read hb size off fi end) (Some m)
    (λ a, served b n m place (Read hb size off fi) (RRead a.1 a.2)) (λ _ _, False).
Proof.
  intros HS Hoff Hsize. assert (∀ rc, call_ok b place (handles (m_reader m)) (Read hb size off fi) (RRead rc []) (handles (m_reader m)) →
    served b n m place (Read hb size off fi) (RRead rc []) (Some m)) as Hearly by (intros; by apply served_early).
  destruct b; unfold Libfuse.op_read, Winfsp.op_read;
    (destruct hb; cbn [negb]; [|by apply wps_ret, Hearly; destruct fi]); apply wps_with_vfs;
    (destruct fi as [f|]; [|by apply wps_ret, Hearly]);
    (destruct (Z.eqb_spec (fi_fh f) 0); [by apply wps_ret, Hearly; split; [|rewrite decide_True]|]).
  - eapply read_reply; try done; [apply Z.mod_small; lia|]. intros c Hc. unfold as_i32, len in *. rewrite Z.mod_small by lia.
    by rewrite (proj2 (Z.ltb_lt _ _)) by lia.
  - eapply read_reply; try done; [lia|]. intros c Hc. rewrite Z.min_l by done. unfold as_i32, len in *. rewrite Nat2Z.id, take_ge by lia.
    rewrite Z.mod_small by lia. by rewrite (proj2 (Z.ltb_lt _ _)) by lia.
Qed.

Lemma wps_release b fi n m place : Serving n m place → (n + 1) * BALE_LRU_BUDGET_BYTES < 2 ^ 64 →
  wps (Libfuse.op_release fi) (Some m) (λ a, served b n m place (Release fi) (RRelease a)) (λ _ _, False).
Proof.
  intros HS Hn. unfold Libfuse.op_release. destruct fi as [f|]; [|by apply wps_ret, served_early].
  destruct (Z.eqb_spec (fi_fh f) 0) as [H0|H0].
  - apply wps_ret, served_early; [done|]. split; [done|]. rewrite delete_id; [done|].
    destruct (handles (m_reader m) !! fi_fh f) as [d|] eqn:Hd; [|done]. pose proof (ri_handles _ _ _ _ (sv_reader _ _ _ HS) (fi_fh f) ltac:(eauto)). lia.
  - apply wps_with_vfs, wps_bind, wps_on_reader. unfold wps, close. cbn.
    destruct (rd_run_inv raw stall_secs network_ends n (OClose (fi_fh f)) (m_reader m) (sv_reader _ _ _ HS) Hn) as [HR _].
    pose proof (call_reads_nonneg (Release (Some f))). exists (set_m_reader (set_handles (delete (fi_fh f) (handles (m_reader m))) (m_reader m)) m), place.
    split_and!; try done; [split; [apply HS|done]|unfold inodes; simpl; lia].
Qed.

Lemma str_le_trans a b c : Is_true (str_le a b) → Is_true (str_le b c) → Is_true (str_le a c).
Proof using Type.
  revert b c. induction a as [|x a IH]; intros [|y b] [|z c]; simpl; try done.
  rewrite !Is_true_true, !orb_true_iff, !andb_true_iff, !Z.ltb_lt, !Z.eqb_eq. intros [?|[? ?]] [?|[? ?]]; try (left; lia).
  right. split; [lia|]. apply Is_true_true, (IH b); by apply Is_true_true.
Qed.

(** The entries of a listing whose names are C strings. *)
Lemma listed_names place c l : listing_ok V failed place c l → names_of c (omap (λ e, c_string e.1) l).
Proof using Type.
  intros (Hsort & Hnd & Hin & Hno).
  assert (∀ n, n ∈ omap (λ e : str * Node, c_string e.1) l ↔ (x00 ∉ n) ∧ n ∈ l.*1) as Helem.
  { intros n. rewrite list_elem_of_omap, list_elem_of_fmap. unfold c_string. split.
    - intros (e & He & H). case_bool_decide; simplify_eq. eauto.
    - intros (Hz & e & -> & He). exists e. by rewrite bool_decide_false. }
  split_and!.
  - apply StronglySorted_Sorted. apply Sorted_StronglySorted in Hsort; [|intros x y z; apply str_le_trans].
    clear -Hsort. induction Hsort as [|e l _ IH Hall]; cbn; [constructor|]. destruct (c_string e.1) as [n|] eqn:Hc; [|done].
    constructor; [done|]. unfold c_string in Hc. case_bool_decide; simplify_eq. apply Forall_forall. intros n (e' & He' & Hc')%list_elem_of_omap. unfold c_string in Hc'. case_bool_decide; simplify_eq. by apply (proj1 (Forall_forall _ _) Hall).
  - clear -Hnd. induction l as [|e l IH]; cbn in *; [constructor|]. apply NoDup_cons in Hnd as [Hno Hnd].
    unfold c_string at 1. case_bool_decide; [by apply IH|]. constructor; [|by apply IH]. intros (e' & He' & Hc)%list_elem_of_omap.
    unfold c_string in Hc. case_bool_decide; simplify_eq. apply Hno. rewrite <-Hc. by apply list_elem_of_fmap_2.
  - intros n [_ ([n' nd] & -> & He)%list_elem_of_fmap]%Helem. apply Hin in He as [_ Hv]. simpl. by rewrite Hv.
  - intros n Hz Hn. apply Hno. intros Hl. apply Hn, Helem. by split.
Qed.

Lemma wps_readdir_call b p n m place : Serving n m place → inodes m + call_reads (Readdir p) * width < 2 ^ 64 →
  wps (Libfuse.op_readdir p) (Some m) (λ a, served b n m place (Readdir p) (RReaddir a.1 a.2)) (λ _ _, False).
Proof.
  intros HS Hmax. unfold Libfuse.op_readdir.
  destruct (cstr_to_path p) as [s|] eqn:Hp; [|apply wps_ret, served_early; [done|]; split; [done|]; left; by auto].
  apply (wps_resolved b p s n m place _ _ _ (λ a, RReaddir a.1 a.2)); try done. intros [node|] m1 place1 HL.
  2:{ eapply wps_ret, served_looked; [done|]. split; [done|]. left. eauto. }
  pose proof (at_path_looked _ _ _ _ _ _ _ _ _ Hp HL) as Hat. pose proof (lk_sound _ _ _ _ _ _ _ _ HL) as [Hi Hv].
  destruct (kind node) as [|sz source] eqn:Hk; cbn [view] in *.
  2:{ eapply wps_ret, served_looked; [done|]. split; [done|]. right; left. split_and!; eauto. }
  pose proof (lk_inodes _ _ _ _ _ _ _ _ HL) as Hn1. pose proof (lk_serving _ _ _ _ _ _ _ _ HL) as [HP1 HR1]. unfold inodes in *.
  apply wps_bind, wps_on_vfs. eapply wps_mono; [eapply (wps_readdir _ _ Mt); [done|done|done|lia]| |done].
  intros o v (place2 & l & -> & Hsub2 & HP2 & Hn2 & Hl). apply wps_ret. exists (set_m_vfs v m1), place2.
  split_and!; [done|etrans; [apply (lk_sub _ _ _ _ _ _ _ _ HL)|done]|apply serving_mono; by split|unfold inodes; cbn [set_m_vfs m_vfs]; lia|].
  simpl. rewrite (lk_reader _ _ _ _ _ _ _ _ HL). split; [done|]. right; right. split; [done|].
  exists (components s), (omap (λ e, c_string e.1) l). split_and!; [done|done|by eapply listed_names].
Qed.

Lemma wps_run_call b c n m place : Serving n m place → call_wf c → inodes m + call_reads c * width < 2 ^ 64 →
  (n + 1) * BALE_LRU_BUDGET_BYTES < 2 ^ 64 →
  wps (run_call raw stall_secs getuid getgid b c) (Some m) (λ r s', served b n m place c r s') (λ _ _, False).
Proof.
  intros HS Hwf Hmax Hn.
  assert (∀ A B (call : ST (option Mount) str (A * B)) (f : A → B → reply),
    wps call (Some m) (λ a s', served b n m place c (f a.1 a.2) s') (λ _ _, False) →
    wps ('(x, y) ← call; mret (f x y)) (Some m) (λ r s', served b n m place c r s') (λ _ _, False)) as Hpair.
  { intros A B call f H. apply wps_bind. eapply wps_mono; [exact H| |done]. intros [x y] s' Hs. by apply wps_ret. }
  destruct c as [p buf|p fi|hb size off fi|fi|p].
  - destruct b; cbn [run_call unix_call windows_call]; apply Hpair; [by apply wps_getattr|]. by apply (wps_getattr OnWindows 0 0).
  - pose proof (wps_open_call b p fi n m place HS Hmax Hn) as H. by destruct b; cbn [run_call unix_call windows_call]; apply Hpair.
  - destruct Hwf as [Hoff Hsize]. pose proof (wps_read b hb size off fi n m place HS Hoff Hsize) as H.
    by destruct b; cbn [run_call unix_call windows_call]; apply Hpair.
  - pose proof (wps_release b fi n m place HS Hn) as H.
    destruct b; cbn [run_call unix_call windows_call]; apply wps_bind; (eapply wps_mono; [exact H| |done]); intros rc s' Hs; by apply wps_ret.
  - pose proof (wps_readdir_call b p n m place HS Hmax) as H. by destruct b; cbn [run_call unix_call windows_call]; apply Hpair.
Qed.

Lemma call_ok_mono b place place' opens c r opens' : place ⊆ place' → call_ok b place opens c r opens' → call_ok b place' opens c r opens'.
Proof using Type.
  intros Hsub. destruct c as [p [st|]| | | |], r; cbn [call_ok]; try done. intros [? [?|[?|(? & c & v & i & a & ? & ? & ? & ?)]]]; split; auto.
  right; right. split; [done|]. exists c, v, i, a. split_and!; try done. by eapply lookup_weaken.
Qed.
Lemma session_ok_mono b place place' calls : place ⊆ place' → ∀ opens replies, session_ok b place opens calls replies → session_ok b place' opens calls replies.
Proof using Type.
  intros Hsub. induction calls as [|c calls IH]; intros opens [|r replies]; cbn; try done.
  intros (opens' & Hc & Hs). exists opens'. split; [by eapply call_ok_mono|by apply IH].
Qed.

Definition calls_read (calls : list call) : Z := sumZ (call_reads <$> calls).

Lemma wps_run_calls b calls : ∀ n m place acc, Serving n m place → Forall call_wf calls →
  inodes m + calls_read calls * width < 2 ^ 64 → (n + len calls) * BALE_LRU_BUDGET_BYTES < 2 ^ 64 →
  wps (fold_st (λ replies c, r ← run_call raw stall_secs getuid getgid b c; mret (replies ++ [r])) acc calls) (Some m)
    (λ out s', ∃ replies m' place', out = acc ++ replies ∧ s' = Some m' ∧ place ⊆ place' ∧ Serving (n + len calls) m' place' ∧
      session_ok b place' (handles (m_reader m)) calls replies) (λ _ _, False).
Proof.
  induction calls as [|c calls IH]; intros n m place acc HS Hwf Hmax Hn; cbn [fold_st].
  { apply wps_ret. exists [], m, place. change (len []) with 0. rewrite app_nil_r, Z.add_0_r. by split_and!. }
  apply Forall_cons in Hwf as [Hc Hwf]. unfold len in *. cbn [length] in *.
  assert (Hsum : calls_read (c :: calls) = call_reads c + calls_read calls) by done.
  assert (0 ≤ calls_read calls * width).
  { pose proof (m_width _ _ _ _ Mt). apply Z.mul_nonneg_nonneg; [|done]. apply sumZ_nonneg, Forall_fmap, Forall_true.
    intros d. destruct d; cbn; unfold len; lia. }
  rewrite Hsum in Hmax. apply wps_bind, wps_bind. eapply wps_mono; [apply (wps_run_call b c n); try done; [nia|unfold BALE_LRU_BUDGET_BYTES in *; lia]| |done].
  intros r s' (m1 & place1 & -> & Hsub & HS1 & Hn1 & Hok). apply wps_ret. eapply wps_mono; [apply (IH (n + 1) m1 place1 (acc ++ [r])); try done; [nia|unfold BALE_LRU_BUDGET_BYTES in *; lia]| |done].
  intros out s' (replies & m' & place' & -> & -> & Hsub' & HS' & Hses). exists (r :: replies), m', place'.
  split_and!; [by rewrite <-app_assoc|done|by etrans|by replace (n + Z.of_nat (S (length calls))) with (n + 1 + Z.of_nat (length calls)) by lia|].
  exists (handles (m_reader m1)). split; [by eapply call_ok_mono|done].
Qed.
End abstract.

(** ** What the two commands mount

    A revision under its filters, or a diff in which no two sides meet. *)

Inductive mounted : (list str → option (option str)) → Prop → Z → DiffVfs → Prop :=
  | mounted_rev rev root filters odb_faults width v :
      resolve_tree rev = Ok root → 0 ≤ width → SoundTree root width →
      2 + width < 2 ^ 64 → mount_rev rev filters odb_faults = Ok v →
      mounted (visible root filters) (∃ e, Some e ∈ odb_faults) width v
  | mounted_diff args entries s
      (items := items_of entries (default (sanitize_label (rev_a args)) (label_a args)) (default (sanitize_label (rev_b args)) (label_b args))) :
      run_diff (rev_a args) (rev_b args) (paths args) = Ok entries →
      clash_free entries (default (sanitize_label (rev_a args)) (label_a args)) (default (sanitize_label (rev_b args)) (label_b args)) →
      2 + slots items < 2 ^ 64 → mount_diff args = Ok s →
      mounted (diff_at items) False 0 (mkDiffVfs s None []).
End spec.

(** A command that succeeds has mounted what it names and served the session of
    the library, whose status was 0. *)
Section commands.
Context {G : GitTrees} {C : Crates} {Env : Environment} {O : Odb} {F : FuseLibrary}.
Context (raw : RawConfig) (stall_secs getuid getgid : Z) (var_os : str → option str) (b : backend).

Lemma bind_ok_inv {S E A B} (m : ST S E A) (k : A → ST S E B) s r s' : (m ≫= k) s = (Ok r, s') →
  ∃ a s1, m s = (Ok a, s1) ∧ k a s1 = (Ok r, s').
Proof. unfold mbind, ST_bind. destruct (m s) as [[a|e| |] s1]; try done. intros H. by exists a, s1. Qed.
Lemma map_err_ok_inv {S E E' A} (f : E → E') (m : ST S E A) s r s' : st_map_err f m s = (Ok r, s') → m s = (Ok r, s').
Proof. unfold st_map_err. destruct (m s) as [[a|e| |] s1]; cbn; by intros [= -> ->]. Qed.
Lemma lift_ok_inv {S E A} (o : outcome E A) (s : S) r s' : lift o s = (Ok r, s') → o = Ok r ∧ s' = s.
Proof. unfold lift. by intros [= -> ->]. Qed.
Lemma outcome_map_ok {E E' A} (f : E → E') (o : outcome E A) a : map_err f o = Ok a → o = Ok a.
Proof. by destruct o; intros [= ->]. Qed.

Ltac ok_steps := repeat match goal with
  | H : (_ ≫= _) _ = (Ok _, _) |- _ => apply bind_ok_inv in H as (? & ? & ? & H)
  | H : lift _ _ = (Ok _, _) |- _ => apply lift_ok_inv in H as [? ->]
  end.
Lemma backend_mount_serves mp m replies s : backend_mount raw stall_secs getuid getgid var_os b mp m None = (Ok replies, s) →
  ∃ argv, run_calls raw stall_secs getuid getgid b (fuse_session argv).1 (Some m) = (Ok replies, s) ∧ (fuse_session argv).2 = 0.
Proof.
  assert (∀ (m1 : ST (option Mount) str (list reply)) rc e, (replies ← m1; if negb (rc =? 0) then throw e else mret replies) (Some m) = (Ok replies, s) →
    m1 (Some m) = (Ok replies, s) ∧ rc = 0) as Hend.
  { intros m1 rc e (l & s1 & Hm & H)%bind_ok_inv. destruct (Z.eqb_spec rc 0); [|done]. cbn in H. by injection H as -> ->. }
  unfold backend_mount. destruct b; unfold mount, mount_windows; [destruct (negb (mp_exists mp)); [done|destruct (negb (mp_is_dir mp)); [done|]]|];
    intros H; ok_steps; unfold set_active in *; simplify_eq; destruct (fuse_session _) as [calls rc] eqn:Hs in H; apply Hend in H as [H ->];
    eexists; rewrite Hs; done.
Qed.
Lemma run_rev_serves rev filters odb_faults mp reader replies s :
  run_rev raw stall_secs getuid getgid var_os b rev filters odb_faults mp reader None = (Ok replies, s) →
  ∃ v argv, mount_rev rev filters odb_faults = Ok v ∧
    run_calls raw stall_secs getuid getgid b (fuse_session argv).1 (Some (mkMount v reader)) = (Ok replies, s) ∧ (fuse_session argv).2 = 0.
Proof.
  intros H. unfold run_rev in H. ok_steps. apply map_err_ok_inv, backend_mount_serves in H as (argv & ? & ?).
  repeat match goal with H : map_err _ _ = Ok _ |- _ => apply outcome_map_ok in H end. by eexists _, argv.
Qed.
Lemma run_serves args mp reader replies s :
  run raw stall_secs getuid getgid var_os b args mp reader None = (Ok replies, s) →
  ∃ v argv, mount_diff args = Ok v ∧
    run_calls raw stall_secs getuid getgid b (fuse_session argv).1 (Some (mkMount (mkDiffVfs v None []) reader)) = (Ok replies, s) ∧ (fuse_session argv).2 = 0.
Proof.
  intros H. unfold run in H. ok_steps. apply map_err_ok_inv, backend_mount_serves in H as (argv & ? & ?).
  repeat match goal with H : map_err _ _ = Ok _ |- _ => apply outcome_map_ok in H end. by eexists _, argv.
Qed.
End commands.

Section theorem.
Context {G : GitTrees} {C : Crates} {CL : CrateLaws} {Env : Environment} {EL : EnvironmentLaws} {O : Odb} {OL : OdbLaws}.
Context (raw : RawConfig) (stall_secs getuid getgid : Z).
Hypothesis network_ends : ∀ cfg cache info n label,
  returned (download_cold label stall_secs (net_download cfg cache info n).1.1).

Lemma mounted_builder V failed width v : mounted V failed width v → ∃ P place, Mounted V failed P width ∧ P v place ∧
  ∀ k, 0 ≤ k → 2 + (1 + k) * width < 2 ^ 64 → next_inode (state v) + k * width < 2 ^ 64.
Proof using Type.
  intros [rev root filters faults w v' Hrev Hw Hwidth Hmax Hrun|args entries s items Hrun _ Hmax Hs].
  - set (failed' := ∃ e, Some e ∈ faults). pose proof (mounted_start root filters faults) as HM. fold failed' in HM.
    pose proof (lazy_mounted root filters failed' w Hwidth Hw) as Mt.
    exists (MInv root filters failed'). unfold mount_rev in Hrun. rewrite Hrev in Hrun. cbn [map_err mbind outcome_bind] in Hrun.
    destruct start_reader as [u|e| |]; try done. cbn [map_err mbind outcome_bind] in Hrun.
    assert (wps (readdir ROOT_INODE) (build_single_lazy root filters faults) (λ o v', ∃ place' l, o = Some l ∧
      {[ROOT_INODE := []]} ⊆ place' ∧ MInv root filters failed' v' place' ∧ next_inode (state v') ≤ 2 + w ∧
      listing_ok (visible root filters) failed' place' [] l) (λ _ _, False)) as H by by apply (wps_readdir _ _ Mt).
    unfold wps in H. destruct (readdir _ _) as [[o|e| |] v1]; try done. destruct H as (place & l & -> & _ & HM' & Hn & _).
    destruct l as [|e l]; [done|injection Hrun as <-]. exists place. split; [exact Mt|split; [exact HM'|]]. intros k Hk Hb. simpl in *. nia.
  - set (a := default (sanitize_label (rev_a args)) (label_a args)) in *. set (b := default (sanitize_label (rev_b args)) (label_b args)) in *.
    destruct (wps_build_state entries a b Hmax) as (s' & place & Hb & HF & Hn).
    unfold mount_diff in Hs. destruct (ensure_distinct_commits _ _) as [u|e| |]; try done. rewrite Hrun in Hs. cbn [map_err mbind outcome_bind] in Hs.
    destruct entries as [|e0 entries]; [done|]. cbn [mbind outcome_bind] in Hs. fold a b in Hs. destruct (decide (a = b)); [done|].
    cbn [mbind outcome_bind] in Hs. destruct start_reader as [u'|e| |]; try done. cbn [map_err mbind outcome_bind] in Hs. rewrite Hb in Hs.
    simplify_eq/=. exists (λ v place, pathspec v = None ∧ Full (diff_at items) (state v) place), place. split_and!; try done.
    + apply eager_mounted; intros; [by eapply full_file|by eapply full_below].
    + intros k Hk _. simpl. lia.
Qed.

(** C15. A mount, of a revision or of a diff in which no two sides meet under one
    name ([mounted]), is a read-only file system over the tree it shows.  Whatever the
    kernel asks of either backend, in any order and with any pointers, every
    callback answers, without a panic, as the abstract file system does: attributes
    carry the path's own inode number and the size of its object, an open binds a
    new handle to what the object serves, every read of it answers the part of that
    content at its offset and never more bytes than the buffer holds (of a file on
    disk as much of the part as one read of the system gives), releasing forgets the
    handle, a listing has every visible name once and in order, and each refusal has
    its errno: unknown paths, directories, null pointers and, on libfuse, opening
    for writing; a handle that is not open is an error (the code answers EIO, its
    comment says EBADF; both are allowed). *)
Theorem mounts_serve_files (V : list str → option (option str)) (failed : Prop) (width : Z) (v : DiffVfs)
  (b : backend) (repo : Repo) (cache : ChunkCache) (calls : list call) :
  mounted V failed width v → Forall call_wf calls →
  2 + (1 + calls_read calls) * width < 2 ^ 64 → len calls * BALE_LRU_BUDGET_BYTES < 2 ^ 64 →
  ∃ replies s' place, run_calls raw stall_secs getuid getgid b calls (Some (mkMount v (reader_new repo cache))) = (Ok replies, s') ∧
    (∀ i j c, place !! i = Some c → place !! j = Some c → i = j) ∧
    session_ok raw stall_secs getuid getgid V failed b place ∅ calls replies.
Proof using CL EL OL network_ends.
  intros (P & place & Mt & HP & Hroom)%mounted_builder Hwf Hmax Hn.
  assert (0 ≤ calls_read calls) as Hpos by (apply sumZ_nonneg, Forall_fmap, Forall_true; intros []; cbn; unfold len; lia).
  assert (Serving raw stall_secs (P := P) 0 (mkMount v (reader_new repo cache)) place) as HS by (split; [done|apply rinv_new]).
  pose proof (wps_run_calls raw stall_secs getuid getgid V failed Mt network_ends b calls 0 _ _ [] HS Hwf (Hroom _ Hpos Hmax) ltac:(lia)) as H.
  unfold wps in H. unfold run_calls.
  destruct (fold_st _ _ _ _) as [[out|e| |] s']; try done. destruct H as (replies & m' & place' & -> & -> & _ & [HP' _] & Hses).
  exists replies, (Some m'), place'. split_and!; [done| |done]. apply (t_inj _ _ _ (m_tree _ _ _ _ Mt _ _ HP')).
Qed.
End theorem.
