(* ===== verification/FuseToy.v ===== *)
(** * A mount at work

    The revision of [VfsToy] with a plain blob and a pointer, asked by a kernel, and
    the witness of the theorem of [FuseSpec]. *)

From stdpp Require Import gmap list.
From S2P Require Import Prelude RustStd Pktline CleanCache Config Repo Filter FilterSpec SmudgeSpec FilterToy.
From S2P Require Import Vfs VfsTree VfsServe VfsSpec VfsDiff VfsToy Reader ReaderSpec ReaderToy Fuse FuseSpec.

Definition mount_object (o : str) : outcome str (ObjectKind * bytes) :=
  if decide (o = lit "20") then Ok (KBlob, lit "fn main")
  else if decide (o = lit "30") then Ok (KBlob, toy_json ++ [x0a]) else Err (lit "not found").

#[export] Instance mount_odb : Odb := {|
  OdbId := str;
  from_hex := @from_hex toy_odb;
  find_object := mount_object;
  read_at := @read_at toy_odb;
|}.
#[export] Instance mount_odb_laws : OdbLaws (O := mount_odb).
Proof.
  split; [exact (@from_hex_returns toy_odb toy_odb_laws)| |exact (@read_at_reads toy_odb toy_odb_laws)].
  intros o. cbn. unfold mount_object. repeat destruct (decide _); done.
Qed.

Definition mount_calls : list call :=
  [Readdir (Some (lit "/src")); Getattr (Some (lit "/src/main.rs")) (Some zeroed); Open (Some (lit "/src/main.rs")) (Some (mkFi 0 0));
   Read true 3 1 (Some (mkFi 0 1)); Open (Some (lit "/src/lib/a.txt")) (Some (mkFi 0 0)); Read true 100 0 (Some (mkFi 0 2));
   Open (Some (lit "/src/main.rs")) (Some (mkFi 1 0)); Release (Some (mkFi 0 1)); Read true 3 1 (Some (mkFi 0 1));
   Open (Some (lit "/src")) (Some (mkFi 0 0)); Getattr None (Some zeroed); Getattr (Some (lit "/none")) None].
Definition mount_start (v : DiffVfs) : option Mount := Some (mkMount v (reader_new toy_repo tt)).

Example mount_replies : match mount_rev (lit "main") [lit "src/"] [] with
  | Ok v => (run_calls toy_raw 30 1000 1000 OnUnix mount_calls (mount_start v)).1
  | _ => Panic
  end = Ok [RReaddir 0 [lit "."; lit ".."; lit "lib"; lit "main.rs"]; RAttr 0 (Some (mkStat 4 0x8124 1 1000 1000 7));
            ROpen 0 (Some (mkFi 0 1)); RRead 3 (lit "n m"); ROpen 0 (Some (mkFi 0 2)); RRead 2 (lit "ab");
            ROpen (- EROFS) (Some (mkFi 1 0)); RRelease 0; RRead (- EIO) []; ROpen (- EISDIR) (Some (mkFi 0 0));
            RAttr (- ENOENT) (Some zeroed); RAttr (- EFAULT) None].
Proof. by vm_compute. Qed.

Lemma mounts_serve_files_witness : ∃ v, mount_rev (lit "main") [lit "src/"] [] = Ok v ∧
  mounted (visible (G := toy_trees) 1%nat [lit "src/"]) (∃ e : str, Some e ∈ []) 3 v ∧
  ∃ replies s' place, run_calls toy_raw 30 1000 1000 OnWindows mount_calls (mount_start v) = (Ok replies, s') ∧
    session_ok toy_raw 30 1000 1000 (visible (G := toy_trees) 1%nat [lit "src/"]) (∃ e : str, Some e ∈ []) OnWindows place ∅ mount_calls replies.
Proof.
  pose proof toy_mounts as Hok. destruct (mount_rev (G := toy_trees) (lit "main") [lit "src/"] []) as [v| | |] eqn:Hv; try discriminate Hok.
  assert (mounted (visible (G := toy_trees) 1%nat [lit "src/"]) (∃ e : str, Some e ∈ []) 3 v) as Hm.
  { eapply (mounted_rev (G := toy_trees) (lit "main") 1%nat); [done|lia|apply toy_sound|lia|exact Hv]. }
  exists v. split; [reflexivity|]. split; [exact Hm|].
  destruct (mounts_serve_files toy_raw 30 1000 1000 online_ends _ _ 3 v OnWindows toy_repo tt mount_calls Hm) as (replies & s' & place & Hrun & _ & Hs).
  - repeat constructor; vm_compute; done.
  - by vm_compute.
  - by vm_compute.
  - exists replies, s', place. split; [exact Hrun|exact Hs].
Defined.
