(* ===== verification/Progress.v ===== *)
(** * The progress line of an upload

    [crates/git-bale/src/progress.rs]: the text of the line, with binary64 numbers as
    [SpecFloat] computes them, and the thread that draws it until it is told to stop. *)

From Stdlib Require Import SpecFloat.
From stdpp Require Import list.
From S2P Require Import Prelude RustStd.

(** ** [f64] *)

Definition f64 : Type := spec_float.
(** [n as f64], division and product, to nearest, ties to even. *)
Definition f64_of (n : Z) : f64 := binary_normalize 53 1024 n 0 false.
Definition f64_div : f64 → f64 → f64 := SFdiv 53 1024.
Definition f64_mul : f64 → f64 → f64 := SFmul 53 1024.
(** [clamp(0.0, 1.0)] *)
Definition clamp01 (f : f64) : f64 :=
  if SFltb f (f64_of 0) then f64_of 0 else if SFltb (f64_of 1) f then f64_of 1 else f.
(** [f as u64], and of [f.round()], whose ties go away from zero. *)
Definition saturate (f : f64) (int : positive → Z → Z) : Z :=
  match f with
  | S754_zero _ | S754_nan => 0
  | S754_infinity s => if s then 0 else u64_max
  | S754_finite s m e => if s then 0 else Z.min u64_max (int m e)
  end.
Definition f64_as_u64 (f : f64) : Z :=
  saturate f (λ m e, if 0 <=? e then Z.shiftl (Z.pos m) e else Z.shiftr (Z.pos m) (- e)).
Definition round_as_u64 (f : f64) : Z :=
  saturate f (λ m e, if 0 <=? e then Z.shiftl (Z.pos m) e else Z.shiftr (Z.pos m + 2 ^ (- e - 1)) (- e)).
(** [format!("{f:.1}")] of a number that is not negative: the tenths, ties to even. *)
Definition tenths (m : positive) (e : Z) : Z :=
  if 0 <=? e then Z.shiftl (10 * Z.pos m) e
  else
    let d := 2 ^ (- e) in
    let q := 10 * Z.pos m / d in
    let r := 10 * Z.pos m mod d in
    if 2 * r <? d then q else if d <? 2 * r then q + 1 else if Z.even q then q else q + 1.
Definition fmt_1 (f : f64) : str :=
  let text t := to_string (t / 10) ++ lit "." ++ to_string (t mod 10) in
  match f with
  | S754_zero _ => text 0
  | S754_infinity _ => lit "inf"
  | S754_nan => lit "NaN"
  | S754_finite _ m e => text (tenths m e)
  end.

(** ** The line *)

Record UploadSnapshot := mkSnapshot {
  bytes_uploaded : Z;
  bytes_total : Z;
  rate_bytes_per_sec : option f64;
  bytes_deduped : Z;
}.

Definition UNITS : list str := [lit "B"; lit "KiB"; lit "MiB"; lit "GiB"; lit "TiB"].
(** The loop over the units: how many steps were made, and the number left. *)
Fixpoint scale (u : nat) (v : f64) (more : nat) : nat * f64 :=
  match more with
  | O => (u, v)
  | S more => if SFleb (f64_of 1024) v then scale (S u) (f64_div v (f64_of 1024)) more else (u, v)
  end.
Definition fmt_bytes (n : Z) : str :=
  let '(u, v) := scale 0 (f64_of n) (length UNITS - 1) in
  match u with
  | O => to_string n ++ lit " B"
  | _ => fmt_1 v ++ lit " " ++ default [] (UNITS !! u)
  end.

Definition rate_clause (s : UploadSnapshot) : str :=
  match rate_bytes_per_sec s with
  | Some r => if SFleb (f64_of 1) r then lit " | " ++ fmt_bytes (f64_as_u64 r) ++ lit "/s" else []
  | None => []
  end.
Definition dedup_clause (s : UploadSnapshot) : str :=
  if bytes_deduped s =? 0 then [] else lit " (+ " ++ fmt_bytes (bytes_deduped s) ++ lit " deduped)".

Definition files_done (s : UploadSnapshot) (file_count : Z) : Z :=
  if (file_count =? 0) || (bytes_total s =? 0) then 0
  else if bytes_total s <=? bytes_uploaded s then file_count
  else
    let frac := f64_div (f64_of (bytes_uploaded s)) (f64_of (bytes_total s)) in
    Z.min (f64_as_u64 (f64_mul frac (f64_of file_count))) (saturating_sub file_count 1).

Definition render (s : UploadSnapshot) (file_count : Z) : str :=
  if bytes_total s =? 0 then lit "Uploading bales: 0% (0/" ++ to_string file_count ++ lit ")"
  else
    let frac := clamp01 (f64_div (f64_of (bytes_uploaded s)) (f64_of (bytes_total s))) in
    let pct := round_as_u64 (f64_mul frac (f64_of 100)) in
    let n := files_done s file_count in
    lit "Uploading bales: " ++ to_string pct ++ lit "% (" ++ to_string n ++ lit "/" ++ to_string file_count ++ lit "), "
      ++ fmt_bytes (bytes_uploaded s) ++ rate_clause s.

Definition summary (s : UploadSnapshot) (file_count : Z) : str :=
  let head := lit "Uploading bales: 100% (" ++ to_string file_count ++ lit "/" ++ to_string file_count ++ lit ")" in
  if bytes_uploaded s =? 0 then
    if bytes_deduped s =? 0 then head ++ lit ", done."
    else head ++ lit ", " ++ fmt_bytes (bytes_deduped s) ++ lit " already on server, done."
  else head ++ lit ", " ++ fmt_bytes (bytes_uploaded s) ++ rate_clause s ++ dedup_clause s ++ lit ", done.".

(** ** The handle and its thread *)

(** What a wait on the channel answers: the time is up, a message, or no sender. *)
Inductive received := Timeout | Message (success : bool) | Disconnected.

(** The sender and the thread, each until it is taken; what was sent. *)
Record UploadProgress := mkProgress { stop : bool; handle : bool; sent : list received }.
Definition start : UploadProgress := mkProgress true true [].
Definition stop_with (success : bool) (p : UploadProgress) : UploadProgress :=
  mkProgress false false (sent p ++ (if stop p then [Message success] else [])).
(** Dropping, and [finish], which takes the handle and drops it. *)
Definition drop_progress (p : UploadProgress) : UploadProgress := stop_with false p.
Definition finish (p : UploadProgress) : UploadProgress := drop_progress (stop_with true p).

Definition CLEAR : str := [x1b] ++ lit "[K".
Section reporter.
(** The [i]-th snapshot that is polled. *)
Context (poll : nat → UploadSnapshot) (file_count : Z).

(** The waits answer as listed; a list that ends is a wait without an end. *)
Fixpoint recv (events : list received) : outcome str bool :=
  match events with
  | [] => Diverged
  | Timeout :: events => recv events
  | Message b :: _ => Ok b
  | Disconnected :: _ => Ok false
  end.
Fixpoint redraw (i : nat) (out : str) (events : list received) : outcome str (nat * str * bool) :=
  let out := out ++ [x0d] ++ render (poll i) file_count ++ CLEAR in
  match events with
  | [] => Diverged
  | Message b :: _ => Ok (S i, out, b)
  | Disconnected :: _ => Ok (S i, out, false)
  | Timeout :: events => redraw (S i) out events
  end.
Definition run_reporter (tty : bool) (events : list received) : outcome str str :=
  if negb tty then
    success ← recv events;
    mret (if success : bool then summary (poll O) file_count ++ [x0a] else [])
  else
    '(i, out, success) ← match events with
      | [] => Diverged
      | Message b :: _ => Ok (O, [], b)
      | Disconnected :: _ => Ok (O, [], false)
      | Timeout :: events => redraw 0 [] events
      end;
    mret (if success : bool then out ++ [x0d] ++ summary (poll i) file_count ++ CLEAR ++ [x0a]
          else out ++ [x0d] ++ CLEAR).
End reporter.

(** ** What is shown *)

Definition snap (u t d : Z) : UploadSnapshot := mkSnapshot u t None d.
Example rendered : render (mkSnapshot 15204352 32000000 (Some (f64_of 3145728)) 0) 8 =
  lit "Uploading bales: 48% (3/8), 14.5 MiB | 3.0 MiB/s".
Proof. by vm_compute. Qed.
Example summarized : summary (mkSnapshot 33554432 33554432 None 71303168) 8 =
  lit "Uploading bales: 100% (8/8), 32.0 MiB (+ 68.0 MiB deduped), done.".
Proof. by vm_compute. Qed.
(** Sizes just below a unit are rounded up to 1024 of the smaller one. *)
Example below_a_unit : fmt_bytes 1048575 = lit "1024.0 KiB".
Proof. by vm_compute. Qed.

(** ** What the reporter writes *)

Lemma told finished : sent (if finished : bool then finish start else drop_progress start) = [Message finished].
Proof. by destruct finished. Qed.

Section written.
Context (poll : nat → UploadSnapshot) (file_count : Z).
(** One drawing of the live line. *)
Definition live (i : nat) : str := [x0d] ++ render (poll i) file_count ++ CLEAR.

Lemma recv_told n b : recv (replicate n Timeout ++ [Message b]) = Ok b.
Proof. by induction n. Qed.
Lemma redraw_told n b : ∀ i out, redraw poll file_count i out (replicate n Timeout ++ [Message b]) =
  Ok ((i + S n)%nat, out ++ mjoin (live <$> seq i (S n)), b).
Proof.
  induction n as [|n IH]; intros i out; cbn [replicate app redraw].
  - cbn. by rewrite app_nil_r, Nat.add_comm.
  - rewrite IH. cbn [seq fmap list_fmap mjoin list_join]. f_equal. f_equal; [f_equal; [lia|by rewrite <-(app_assoc out)]].
Qed.

Lemma files_done_range s : 0 ≤ file_count → 0 ≤ files_done s file_count ≤ file_count ∧
  (0 < file_count → 0 < bytes_total s → files_done s file_count = file_count ↔ bytes_total s ≤ bytes_uploaded s).
Proof.
  intros Hf. unfold files_done, saturating_sub. assert (∀ f, 0 ≤ f64_as_u64 f) as Hpos.
  { intros [|[]| |[] m e]; cbn; try lia; [done|]. unfold u64_max. destruct (Z.leb_spec 0 e); apply Z.min_glb; try lia.
    - by apply Z.shiftl_nonneg.
    - by apply Z.shiftr_nonneg. }
  pose proof (Hpos (f64_mul (f64_div (f64_of (bytes_uploaded s)) (f64_of (bytes_total s))) (f64_of file_count))).
  destruct (Z.eqb_spec file_count 0), (Z.eqb_spec (bytes_total s) 0); cbn [orb]; try lia.
  destruct (Z.leb_spec (bytes_total s) (bytes_uploaded s)); lia.
Qed.
End written.

(** The progress of an upload ends with the upload.  Whether it finishes or is
    dropped on an error, the thread is told so once and stops.  On a terminal it
    draws the line once for every wait that timed out, nothing when the first did
    not; elsewhere it draws nothing.  Success is always the last thing written, one
    summary with a line end, and an error leaves no summary: nothing, or a cleared
    line.  The line counts at most the files of the push, and all of them only when
    all bytes were sent. *)
Theorem progress_ends_with_upload (poll : nat → UploadSnapshot) (file_count : Z) (tty finished : bool) (timeouts : nat) :
  0 < file_count →
  run_reporter poll file_count tty (replicate timeouts Timeout ++ sent (if finished then finish start else drop_progress start)) = Ok
    (match tty, finished with
     | true, true => mjoin (live poll file_count <$> seq 0%nat timeouts) ++ [x0d] ++ summary (poll timeouts) file_count ++ CLEAR ++ [x0a]
     | true, false => mjoin (live poll file_count <$> seq 0%nat timeouts) ++ [x0d] ++ CLEAR
     | false, true => summary (poll O) file_count ++ [x0a]
     | false, false => []
     end) ∧
  ∀ s, 0 < bytes_total s → 0 ≤ files_done s file_count ≤ file_count ∧
    (files_done s file_count = file_count ↔ bytes_total s ≤ bytes_uploaded s).
Proof.
  intros Hf. split; [|intros s Hs; destruct (files_done_range file_count s) as [? Hall]; [lia|split; [done|by apply Hall]]].
  rewrite told. unfold run_reporter. destruct tty; cbn [negb].
  - destruct timeouts as [|n]; [by destruct finished|]. cbn [replicate app]. rewrite redraw_told. by destruct finished.
  - rewrite recv_told. by destruct finished.
Qed.

Lemma progress_ends_with_upload_witness :
  run_reporter (λ i, snap (Z.of_nat i * 1000) 1000 0) 2 true (replicate 2 Timeout ++ [Message true]) =
    Ok ([x0d] ++ lit "Uploading bales: 0% (0/2), 0 B" ++ CLEAR ++ [x0d] ++ lit "Uploading bales: 100% (2/2), 1000 B" ++ CLEAR ++
        [x0d] ++ lit "Uploading bales: 100% (2/2), 2.0 KiB, done." ++ CLEAR ++ [x0a]).
Proof.
  destruct (progress_ends_with_upload (λ i, snap (Z.of_nat i * 1000) 1000 0) 2 true true 2) as [H _]; [reflexivity|].
  exact (eq_trans H ltac:(vm_compute; reflexivity)).
Defined.
