(* ===== verification/Track.v ===== *)
(** * Tracking patterns

    [crates/git-bale/src/track.rs]: lines appended to [.gitattributes].  The file
    is absent or has bytes; any call may fail, and a write that fails may have
    written a part. *)

From stdpp Require Import gmap list.
From S2P Require Import Prelude RustStd RustText Pktline.

Definition FILTER_SUFFIX : str := lit "filter=bale -text".

(** What the next calls report: a failure, and how much a write still wrote. *)
Record Attributes := mkAttributes { attrs : option bytes; attr_faults : list (option (str * nat)); printed : list str }.
Abbreviation T := (ST Attributes str).
Definition set_attrs x a := mkAttributes x (attr_faults a) (printed a).

(** One call of the file system; the effect of a failing one is [partial]. *)
Definition attr_call {A} (context : str) (f : Attributes → outcome str A * Attributes) (partial : nat → Attributes → Attributes) : T A := λ a,
  let a' := mkAttributes (attrs a) (tail (attr_faults a)) (printed a) in
  match default None (head (attr_faults a)) with
  | Some (e, n) => (Err (context ++ e), partial n a')
  | None => f a'
  end.
(** [fs::read_to_string], where no file is the empty string. *)
Definition read_attrs : T str :=
  attr_call (lit "reading .gitattributes: ")
    (λ a, (match attrs a with
           | None => Ok []
           | Some b => if utf8_valid b then Ok b else Err (lit "reading .gitattributes: stream did not contain valid UTF-8")
           end, a)) (λ _ a, a).
(** [OpenOptions::new().create(true).append(true).open]. *)
Definition open_append : T unit :=
  attr_call (lit "opening .gitattributes: ") (λ a, (Ok tt, set_attrs (Some (default [] (attrs a))) a)) (λ _ a, a).
Definition append (context : str) (b : bytes) : T unit :=
  attr_call context (λ a, (Ok tt, set_attrs (Some (default [] (attrs a) ++ b)) a))
    (λ n a, set_attrs (Some (default [] (attrs a) ++ take n b)) a).
Definition println (l : str) : T unit := modify (λ a, mkAttributes (attrs a) (attr_faults a) (printed a ++ [l])).

Definition line_tracks (pattern line : str) : bool :=
  match trim line with
  | [] => false
  | (c :: _) as trimmed =>
      if bool_decide (c = x23) then false
      else match split_whitespace trimmed with
           | [] => false
           | first :: parts => bool_decide (first = pattern) && existsb (λ t, bool_decide (t = lit "filter=bale")) parts
           end
  end.
Definition pattern_already_tracked (existing pattern : str) : bool := existsb (line_tracks pattern) (lines existing).

Definition track_line (pattern : str) : str := pattern ++ [x20] ++ FILTER_SUFFIX ++ [x0a].
Definition track_one (existing raw : str) : T unit :=
  match trim raw with
  | [] => mret tt
  | pattern =>
      if pattern_already_tracked existing pattern then println ([x22] ++ pattern ++ [x22] ++ lit " already tracked")
      else _ ← append (lit ".gitattributes write: ") (track_line pattern); println (lit "Tracking " ++ [x22] ++ pattern ++ [x22])
  end.

Definition track (patterns : list str) : T unit :=
  existing ← read_attrs;
  let line_end := if str_contains existing [x0d; x0a] then [x0d; x0a] else [x0a] in
  _ ← open_append;
  _ ← match last existing with
      | Some c => if decide (c = x0a) then mret tt else append [] line_end
      | None => mret tt
      end;
  for_each (track_one existing) patterns.

(** ** Words and lines *)

Lemma lines_from_app a b : ∀ w, lines_from (a ++ x0a :: b) w = lines_from (a ++ [x0a]) w ++ lines b.
Proof.
  induction a as [|c a IH]; intros w; cbn [app lines_from].
  - by rewrite decide_True by done.
  - destruct (decide (c = x0a)); rewrite IH; done.
Qed.
(** A content whose last line is ended. *)
Definition ended (s : str) : Prop := s = [] ∨ ∃ t, s = t ++ [x0a].
Lemma lines_app a b : ended a → lines (a ++ b) = lines a ++ lines b.
Proof. intros [->|[t ->]]; [done|]. unfold lines at 1. rewrite <-app_assoc. apply lines_from_app. Qed.
Lemma lines_from_line s : ∀ w, x0a ∉ s → lines_from (s ++ [x0a]) w = [strip_cr (w ++ s)].
Proof.
  induction s as [|c s IH]; intros w Hs; cbn [app lines_from]; [by rewrite decide_True, app_nil_r by done|].
  rewrite decide_False by set_solver. rewrite IH by set_solver. by rewrite <-app_assoc.
Qed.

(** A pattern without white space that is no comment. *)
Definition plain (p : str) : Prop := graphic p ∧ ∃ c q, p = c :: q ∧ c ≠ x23.

Lemma graphic_byte c s : in_range c 33 126 = true → whitespace_len (c :: s) = O.
Proof. intros Hc. unfold in_range in Hc. by destruct c. Qed.
(** White space does not end in a printable byte. *)
Lemma whitespace_len_end x c : in_range c 33 126 = true → whitespace_len [x; c] ≠ 2%nat.
Proof. intros Hc. destruct x; try done; by destruct c. Qed.
Lemma whitespace_len_end3 x y c : in_range c 33 126 = true → whitespace_len [x; y; c] ≠ 3%nat.
Proof. intros Hc. destruct x; try done; destruct y; try done; by destruct c. Qed.

Lemma trim_between c s d : in_range c 33 126 = true → in_range d 33 126 = true → trim (c :: s ++ [d]) = c :: s ++ [d].
Proof.
  intros Hc Hd. unfold trim, trim_start. cbn [length trim_start_fuel]. rewrite graphic_byte by done.
  unfold trim_end. cbn [length trim_end_fuel]. rewrite app_comm_cons, rev_app_distr. cbn [rev app].
  assert (whitespace_len_rev (d :: rev s ++ [c]) = O) as ->; [|cbn [rev]; by rewrite rev_app_distr, rev_involutive].
  unfold whitespace_len_rev. cbn [take]. rewrite graphic_byte by done. rewrite decide_False by done.
  destruct (rev s ++ [c]) as [|x r]; cbn [take rev app]; [by rewrite graphic_byte, !decide_False by done|].
  rewrite decide_False by (by apply whitespace_len_end).
  destruct r as [|y r]; cbn [take rev app]; rewrite decide_False; try done; [|by apply whitespace_len_end3].
  destruct x; try done; by destruct d.
Qed.

Lemma words_word p rest : graphic p → p ≠ [] → ∀ fuel w, (length p < fuel)%nat →
  words_fuel fuel (p ++ x20 :: rest) w = (w ++ p) :: words_fuel (fuel - S (length p)) rest [].
Proof.
  intros Hp Hne. revert Hne. induction Hp as [|c p Hc Hp IH]; intros Hne fuel w Hf; [done|].
  destruct fuel as [|fuel]; cbn [length] in Hf; [lia|]. cbn [app words_fuel]. rewrite graphic_byte by done.
  destruct (decide (p = [])) as [->|Hne'].
  - cbn [app length]. destruct fuel as [|fuel]; [simpl in Hf; lia|]. cbn [words_fuel whitespace_len drop].
    rewrite Nat.sub_succ, Nat.sub_succ, Nat.sub_0_r. by destruct (w ++ [c]) eqn:E; [apply app_nil in E as [? ?]|].
  - rewrite IH by (done || lia). cbn [length]. by rewrite <-app_assoc.
Qed.

Lemma track_line_tracks p : plain p → line_tracks p (p ++ [x20] ++ FILTER_SUFFIX) = true.
Proof.
  intros [Hp (c & q & -> & Hc)]. unfold line_tracks.
  assert ((c :: q) ++ [x20] ++ FILTER_SUFFIX = c :: (q ++ [x20] ++ lit "filter=bale -tex") ++ [x74]) as Heq.
  { cbn [app]. by rewrite <-!app_assoc. }
  assert (in_range c 33 126 = true) as Hcg by (by apply Forall_cons in Hp as [? _]).
  rewrite Heq. rewrite (trim_between c _ x74) by done. rewrite bool_decide_false by done.
  rewrite <-Heq. unfold split_whitespace. cbn [app]. change (c :: q ++ x20 :: FILTER_SUFFIX) with ((c :: q) ++ x20 :: FILTER_SUFFIX).
  rewrite words_word; [|done|done|rewrite length_app; cbn [length]; lia]. cbn [app]. rewrite bool_decide_true by done.
  replace (_ - _)%nat with 18%nat by (cbn [length]; rewrite length_app; change (length (x20 :: FILTER_SUFFIX)) with 18%nat; lia).
  by vm_compute.
Qed.

Lemma pattern_tracked_app a b p : ended a → pattern_already_tracked (a ++ b) p = pattern_already_tracked a p || pattern_already_tracked b p.
Proof. intros Ha. unfold pattern_already_tracked. by rewrite lines_app, existsb_app by done. Qed.

Lemma lines_track_line p : graphic p → lines (track_line p) = [p ++ [x20] ++ FILTER_SUFFIX].
Proof.
  intros Hp. unfold track_line, lines. rewrite !app_assoc. rewrite lines_from_line; [cbn [app]|].
  - unfold strip_cr. rewrite <-app_assoc. destruct (strip_suffix _ _) as [t|] eqn:Hs; [|done].
    unfold strip_suffix in Hs. rewrite !rev_app_distr in Hs. by vm_compute in Hs.
  - assert (x0a ∉ [x20] ++ FILTER_SUFFIX) by by_lit. rewrite <-app_assoc. intros [Hin|Hin]%elem_of_app; [|done].
    unfold graphic in Hp. rewrite Forall_forall in Hp. by apply Hp in Hin.
Qed.

(** ** What is appended *)

Definition line_break (old : str) : str :=
  match last old with
  | Some c => if decide (c = x0a) then [] else if str_contains old [x0d; x0a] then [x0d; x0a] else [x0a]
  | None => []
  end.
(** The patterns that get a line. *)
Definition untracked (old : str) (patterns : list str) : list str :=
  List.filter (λ p, negb (pattern_already_tracked old p)) (List.filter (λ p, match p with [] => false | _ => true end) (trim <$> patterns)).
Definition tracked_file (old : str) (patterns : list str) : str := old ++ line_break old ++ mjoin (track_line <$> untracked old patterns).

Lemma line_break_ended old : ended (old ++ line_break old).
Proof.
  unfold line_break. destruct (last old) as [c|] eqn:Hl; [|left; apply last_None in Hl as ->; done].
  apply last_Some in Hl as [t ->]. destruct (decide (c = x0a)) as [->|]; [right; exists t; by rewrite app_nil_r|].
  right. destruct (str_contains _ _); [exists ((t ++ [c]) ++ [x0d]); by rewrite <-(app_assoc _ [x0d])|by exists (t ++ [c])].
Qed.
Lemma join_ended l : ended (mjoin (track_line <$> l)).
Proof.
  induction l as [|p l IH]; [by left|]. right. change (mjoin (track_line <$> p :: l)) with (track_line p ++ mjoin (track_line <$> l)).
  destruct IH as [->|[t ->]].
  - exists (p ++ [x20] ++ FILTER_SUFFIX). unfold track_line. by rewrite app_nil_r, <-!app_assoc.
  - exists (track_line p ++ t). by rewrite app_assoc.
Qed.
Lemma ended_app a b : ended a → ended b → ended (a ++ b).
Proof. intros Ha [->|[t ->]]; [by rewrite app_nil_r|]. right. exists (a ++ t). by rewrite app_assoc. Qed.

Lemma join_tracks l p : p ∈ l → Forall plain l → pattern_already_tracked (mjoin (track_line <$> l)) p = true.
Proof.
  intros Hin Hl. induction Hl as [|q l Hq Hl IH]; [by apply elem_of_nil in Hin|].
  change (mjoin (track_line <$> q :: l)) with (track_line q ++ mjoin (track_line <$> l)). rewrite pattern_tracked_app by (right; exists (q ++ [x20] ++ FILTER_SUFFIX); unfold track_line; by rewrite <-!app_assoc). apply orb_true_iff.
  apply elem_of_cons in Hin as [->|Hin]; [left|right; by apply IH].
  unfold pattern_already_tracked. rewrite lines_track_line by apply Hq. cbn [existsb]. by rewrite track_line_tracks.
Qed.

(** *** The line that is not ended *)

Lemma whitespace_len_cr w : w ≠ [] → whitespace_len (w ++ [x0d]) = whitespace_len w.
Proof.
  intros Hw. destruct w as [|a [|b [|c w]]]; [done| | |]; cbn [app].
  - by destruct a.
  - destruct a; try done; by destruct b.
  - by destruct a.
Qed.
Lemma trim_start_cr w : trim_start (w ++ [x0d]) = match trim_start w with [] => [] | t => t ++ [x0d] end.
Proof.
  unfold trim_start. rewrite length_app, Nat.add_comm. cbn [length Nat.add].
  assert (∀ n m w, (length w < n)%nat → (length w ≤ m)%nat →
    trim_start_fuel n (w ++ [x0d]) = match trim_start_fuel m w with [] => [] | t => t ++ [x0d] end) as H; [|apply H; lia].
  clear w. induction n as [|n IH]; intros m w Hn Hm; [lia|]. destruct w as [|c w].
  { cbn [app trim_start_fuel whitespace_len drop]. destruct n, m; done. }
  destruct m as [|m]; cbn [length] in Hm; [lia|]. cbn [trim_start_fuel]. rewrite whitespace_len_cr by done.
  destruct (whitespace_len (c :: w)) as [|k] eqn:Hk; [done|].
  assert (S k ≤ length (c :: w))%nat as Hle.
  { unfold whitespace_len in Hk. repeat case_match; simplify_eq; cbn [length]; lia. }
  rewrite drop_app_le by done. apply IH; rewrite length_drop; cbn [length] in *; lia.
Qed.
Lemma trim_cr w : trim (w ++ [x0d]) = trim w.
Proof.
  unfold trim. rewrite trim_start_cr. destruct (trim_start w) as [|c t]; [done|]. unfold trim_end.
  rewrite length_app, rev_app_distr, Nat.add_comm. cbn [rev app length Nat.add trim_end_fuel].
  assert (whitespace_len_rev (x0d :: rev t ++ [c]) = 1%nat) as ->; [|done]. unfold whitespace_len_rev. by rewrite decide_True.
Qed.

(** The lines that are ended, and what follows. *)
Lemma split_last_line s : ∃ a w, s = a ++ w ∧ ended a ∧ x0a ∉ w.
Proof.
  induction s as [|c s IH] using rev_ind; [by exists [], []; split_and!; [|left|apply not_elem_of_nil]|].
  destruct (decide (c = x0a)) as [->|Hc].
  - exists (s ++ [x0a]), []. split_and!; [by rewrite app_nil_r|right; eauto|apply not_elem_of_nil].
  - destruct IH as (a & w & -> & Ha & Hw). exists a, (w ++ [c]). split_and!; [by rewrite app_assoc|done|set_solver].
Qed.
Lemma lines_from_rest s : ∀ w, x0a ∉ s → lines_from s w = match w ++ s with [] => [] | l => [l] end.
Proof.
  induction s as [|c s IH]; intros w Hs; cbn [lines_from]; [by rewrite app_nil_r; destruct w|].
  rewrite decide_False, IH by set_solver. by rewrite <-app_assoc.
Qed.

Lemma strip_suffix_Some s p k : strip_suffix s p = Some k → s = k ++ p.
Proof.
  unfold strip_suffix. destruct (starts_with _ _) eqn:Hs; [|done]. intros [= <-].
  apply starts_with_spec in Hs as [t Ht]. apply (f_equal (@rev byte)) in Ht. rewrite rev_app_distr, !rev_involutive in Ht. subst s.
  by rewrite length_app, Nat.add_sub, take_app_length.
Qed.

(** Ending the last line does not change what is tracked. *)
Lemma line_break_tracks old p : pattern_already_tracked (old ++ line_break old) p = pattern_already_tracked old p.
Proof.
  destruct (split_last_line old) as (a & w & -> & Ha & Hw). rewrite <-app_assoc.
  rewrite (pattern_tracked_app a w), (pattern_tracked_app a (w ++ _)) by done. f_equal.
  unfold line_break. destruct w as [|c w _] using rev_ind.
  { rewrite app_nil_r. destruct Ha as [->|[t ->]]; [done|]. by rewrite last_snoc, decide_True. }
  rewrite (app_assoc a w), last_snoc, decide_False by set_solver. unfold pattern_already_tracked, lines.
  rewrite (lines_from_rest (w ++ [c])) by done. cbn [app]. destruct (w ++ [c]) as [|d l] eqn:Hwc; [by destruct w|].
  destruct (str_contains _ _).
  - change [x0d; x0a] with ([x0d] ++ [x0a]). rewrite app_assoc, lines_from_line by set_solver. cbn [existsb app].
    rewrite app_comm_cons. unfold strip_cr. by rewrite strip_suffix_app.
  - rewrite lines_from_line by set_solver. cbn [existsb app]. rewrite !orb_false_r. unfold strip_cr.
    destruct (strip_suffix (d :: l) [x0d]) as [k|] eqn:Hs; [|done]. cbn [default].
    apply strip_suffix_Some in Hs as ->. unfold line_tracks. by rewrite trim_cr.
Qed.

Ltac character IH' H := repeat match goal with |- context [if ?c then _ else _] => destruct c end; try done;
  rewrite ?andb_true_iff in H; destruct_and?; repeat match goal with E : _ = true |- _ => rewrite E end; cbn [andb];
  try (apply IH'; cbn [length]; try lia; done).
(** Each character is decided by its own bytes. *)
Lemma utf8_valid_app a b : utf8_valid a = true → utf8_valid (a ++ b) = utf8_valid b.
Proof.
  remember (length a) as n eqn:Hn. revert a Hn. induction (lt_wf n) as [n _ IH]. intros a -> H.
  assert (∀ a', (length a' < length a)%nat → utf8_valid a' = true → utf8_valid (a' ++ b) = utf8_valid b) as IH' by eauto. clear IH.
  destruct a as [|b0 s1]; [done|]. cbn [app]. unfold utf8_valid in *. fold utf8_valid in *.
  destruct (in_range b0 0 127); [apply IH'; [cbn [length]; lia|done]|].
  destruct s1 as [|b1 s2]; [done|]. cbn [app].
  destruct (in_range b0 194 223); [character IH' H|]. destruct s2 as [|b2 s3]; [done|]. cbn [app].
  do 3 (destruct (in_range b0 _ _); [character IH' H|]). destruct s3 as [|b3 s4]; [done|]. cbn [app].
  character IH' H.
Qed.
Lemma utf8_valid_graphic s : graphic s → utf8_valid s = true.
Proof.
  intros Hs. induction Hs as [|c s Hc _ IH]; [done|]. cbn [utf8_valid].
  assert (in_range c 0 127 = true) as ->; [|done]. unfold in_range in *. apply andb_true_iff in Hc. lia.
Qed.

(** ** Runs *)

Definition grows (a a' : Attributes) : Prop := attrs a' = attrs a ∨ ∃ added, attrs a' = Some (default [] (attrs a) ++ added).
#[export] Instance grows_preorder : PreOrder grows.
Proof.
  split; [by left|]. intros a b c [Hab|[x Hab]] [Hbc|[y Hbc]]; rewrite Hab in Hbc; [by left|right; by eauto|right; by eauto|].
  right. exists (x ++ y). by rewrite app_assoc.
Qed.
Definition growing {A} (m : T A) : Prop := ∀ a, wps m a (λ _ a', grows a a') (λ _ a', grows a a').
Lemma growing_bind {A B} (m : T A) (k : A → T B) : growing m → (∀ x, growing (k x)) → growing (m ≫= k).
Proof.
  intros Hm Hk a. apply wps_bind. eapply wps_mono; [apply Hm| |done]. intros x a1 H1.
  eapply wps_mono; [apply Hk|intros y a2 H2; exact (transitivity H1 H2)|intros e a2 H2; exact (transitivity H1 H2)].
Qed.
Lemma growing_append c b : growing (append c b).
Proof.
  intros a. unfold wps, append, attr_call. destruct (default None _) as [[e n]|]; right; simpl; eauto.
Qed.
Lemma growing_println l : growing (println l).
Proof. intros a. apply wps_modify. by left. Qed.
Lemma growing_track_one old raw : growing (track_one old raw).
Proof.
  unfold track_one. destruct (trim raw) as [|c p]; [by intros a; apply wps_ret; left|].
  destruct (pattern_already_tracked _ _); [apply growing_println|]. apply growing_bind; [apply growing_append|intros _; apply growing_println].
Qed.
Lemma growing_each old l : growing (for_each (track_one old) l).
Proof. induction l as [|raw l IH]; cbn [for_each]; [by intros a; apply wps_ret; left|]. by apply growing_bind; [apply growing_track_one|]. Qed.

Lemma growing_track patterns : growing (track patterns).
Proof.
  unfold track. apply growing_bind.
  { intros a. unfold wps, read_attrs, attr_call. destruct (default None _) as [[e n]|]; [by left|]. simpl.
    by destruct (attrs a) as [b|] eqn:Ha; [destruct (utf8_valid b)|]; left. }
  intros old. apply growing_bind.
  { intros a. unfold wps, open_append, attr_call. destruct (default None _) as [[e n]|]; [by left|]. right. exists []. by rewrite app_nil_r. }
  intros _. apply growing_bind; [|intros _; apply growing_each].
  destruct (last old) as [c|]; [destruct (decide _)|]; try apply growing_append; by intros a; apply wps_ret; left.
Qed.

(** Without a failure, the lines of the untracked patterns are appended. *)
Lemma append_runs c b s p : append c b (mkAttributes (Some s) [] p) = (Ok tt, mkAttributes (Some (s ++ b)) [] p).
Proof. done. Qed.
Lemma println_runs l s f p : println l (mkAttributes s f p) = (Ok tt, mkAttributes s f (p ++ [l])).
Proof. done. Qed.
Lemma open_runs s p : open_append (mkAttributes s [] p) = (Ok tt, mkAttributes (Some (default [] s)) [] p).
Proof. done. Qed.
Lemma track_one_unfold old raw : track_one old raw = match trim raw with
  | [] => mret tt
  | c :: q => if pattern_already_tracked old (c :: q) then println ([x22] ++ (c :: q) ++ [x22] ++ lit " already tracked")
              else _ ← append (lit ".gitattributes write: ") (track_line (c :: q)); println (lit "Tracking " ++ [x22] ++ (c :: q) ++ [x22])
  end.
Proof. done. Qed.
Lemma each_runs old patterns : ∀ s p, ∃ p', for_each (track_one old) patterns (mkAttributes (Some s) [] p) =
  (Ok tt, mkAttributes (Some (s ++ mjoin (track_line <$> untracked old patterns))) [] p').
Proof.
  unfold untracked. induction patterns as [|raw patterns IH]; intros s p; cbn [for_each fmap list_fmap].
  { exists p. cbn. by rewrite app_nil_r. }
  rewrite track_one_unfold. cbn [List.filter]. destruct (trim raw) as [|c q] eqn:Ht; [apply IH|]. cbn [List.filter].
  destruct (pattern_already_tracked old (c :: q)); cbn [negb].
  - rewrite (ST_bind_step _ _ _ _ _ (println_runs _ _ _ _)). apply IH.
  - rewrite ST_bind_assoc. rewrite (ST_bind_step _ _ _ _ _ (append_runs _ _ _ _)). rewrite (ST_bind_step _ _ _ _ _ (println_runs _ _ _ _)).
    cbn [fmap list_fmap]. change (mjoin (track_line (c :: q) :: ?l)) with (track_line (c :: q) ++ mjoin l).
    edestruct IH as [p' Hrun]. exists p'. etrans; [exact Hrun|]. by rewrite <-app_assoc.
Qed.
Lemma track_runs old patterns a p : default [] a = old → utf8_valid old = true →
  ∃ p', track patterns (mkAttributes a [] p) = (Ok tt, mkAttributes (Some (tracked_file old patterns)) [] p').
Proof.
  intros Hold Hv. unfold track.
  assert (read_attrs (mkAttributes a [] p) = (Ok old, mkAttributes a [] p)) as Hr.
  { unfold read_attrs, attr_call. simpl. destruct a as [b|]; simpl in Hold; subst; [|done]. by rewrite Hv. }
  rewrite (ST_bind_step _ _ _ _ _ Hr). cbv zeta. rewrite (ST_bind_step _ _ _ _ _ (open_runs _ _)). rewrite Hold.
  assert (∀ f, (match last old with
    | Some c => if decide (c = x0a) then mret tt else append [] (if str_contains old [x0d; x0a] then [x0d; x0a] else [x0a])
    | None => mret tt end ≫= f) (mkAttributes (Some old) [] p) = f (tt : unit) (mkAttributes (Some (old ++ line_break old)) [] p)) as ->.
  { intros f. unfold line_break. destruct (last old) as [c|]; [destruct (decide _)|]; by rewrite ?app_nil_r. }
  destruct (each_runs old patterns (old ++ line_break old) p) as [p' ->]. exists p'. unfold tracked_file. by rewrite app_assoc.
Qed.

Lemma untracked_elem old patterns p : p ∈ untracked old patterns ↔ p ∈ trim <$> patterns ∧ p ≠ [] ∧ pattern_already_tracked old p = false.
Proof.
  unfold untracked. rewrite !list_elem_of_In, !filter_In, <-!list_elem_of_In, negb_true_iff. destruct p; naive_solver.
Qed.
Lemma tracked_file_valid old patterns : utf8_valid old = true → Forall plain (untracked old patterns) → utf8_valid (tracked_file old patterns) = true.
Proof.
  intros Ho Hl. unfold tracked_file. rewrite utf8_valid_app by done.
  assert (utf8_valid (line_break old) = true) as Hb by (unfold line_break; repeat case_match; done). rewrite utf8_valid_app by done.
  clear Hb. induction Hl as [|p l [Hp _] Hl IH]; [done|].
  change (mjoin (track_line <$> p :: l)) with ((p ++ [x20] ++ FILTER_SUFFIX ++ [x0a]) ++ mjoin (track_line <$> l)).
  rewrite <-app_assoc, utf8_valid_app by (by apply utf8_valid_graphic). by rewrite utf8_valid_app.
Qed.

Lemma pattern_tracked_after old patterns p : Forall plain (untracked old patterns) → p ∈ trim <$> patterns → p ≠ [] →
  pattern_already_tracked (tracked_file old patterns) p = true.
Proof.
  intros Hl Hin Hne. unfold tracked_file. rewrite app_assoc, pattern_tracked_app by apply line_break_ended.
  rewrite line_break_tracks. apply orb_true_iff. destruct (pattern_already_tracked old p) eqn:Hp; [by left|right].
  apply join_tracks; [|done]. by apply untracked_elem.
Qed.

(** C37. Tracking adds lines and loses none.  Whatever fails and whenever, the
    command comes back and the file is as it was or has something appended.
    Without a failure it succeeds and the file is exactly the old content, its last
    line ended, and one line per given pattern that was not tracked.  When those
    patterns are printable, have no white space and are no comments, every given
    pattern is then tracked, and the same command once more changes nothing. *)
Theorem track_adds_lines (patterns : list str) (a : Attributes) (old := default [] (attrs a)) :
  let '(o, a') := track patterns a in
  returned o ∧ (attrs a' = attrs a ∨ ∃ added, attrs a' = Some (old ++ added)) ∧
  (attr_faults a = [] → utf8_valid old = true →
    o = Ok tt ∧ attrs a' = Some (tracked_file old patterns) ∧
    (Forall plain (untracked old patterns) →
      (∀ raw, raw ∈ patterns → trim raw ≠ [] → pattern_already_tracked (tracked_file old patterns) (trim raw) = true) ∧
      attrs (track patterns a').2 = attrs a')).
Proof.
  pose proof (growing_track patterns a) as Hg. unfold wps in Hg.
  destruct (track patterns a) as [o a'] eqn:Hrun. split; [by destruct o|]. split; [by destruct o|].
  intros Hf Hv. destruct a as [b f p]. simpl in Hf, old. subst f.
  destruct (track_runs old patterns b p eq_refl Hv) as [p' Hrun']. rewrite Hrun' in Hrun. simplify_eq. split_and!; try done. intros Hl.
  assert (∀ raw, raw ∈ patterns → trim raw ≠ [] → pattern_already_tracked (tracked_file old patterns) (trim raw) = true) as Hall.
  { intros raw Hin. apply pattern_tracked_after; [done|]. apply list_elem_of_fmap. eauto. }
  split; [done|].
  destruct (track_runs (tracked_file old patterns) patterns (Some (tracked_file old patterns)) p' eq_refl) as [p'' Hagain];
    [by apply tracked_file_valid|]. rewrite Hagain. simpl. f_equal.
  assert (untracked (tracked_file old patterns) patterns = []) as Hnone.
  { destruct (untracked (tracked_file old patterns) patterns) as [|q l] eqn:Hq; [done|]. assert (q ∈ untracked (tracked_file old patterns) patterns) as Hin by (rewrite Hq; by left).
    apply untracked_elem in Hin as (Hin & Hne & Hno). rewrite (pattern_tracked_after old) in Hno by done. done. }
  unfold tracked_file at 1. rewrite Hnone. cbn [fmap list_fmap mjoin list_join]. rewrite app_nil_r.
  assert (ended (tracked_file old patterns)) as He by (unfold tracked_file; rewrite app_assoc; apply ended_app; [apply line_break_ended|apply join_ended]).
  unfold line_break at 1. destruct He as [->|[t ->]]; [done|]. by rewrite last_snoc, decide_True, app_nil_r.
Qed.

(** ** Examples *)

Definition toy_attributes : Attributes := mkAttributes (Some (lit "*.png filter=bale -text" ++ [x0d; x0a] ++ lit "# *.zip")) [] [].
Definition toy_patterns : list str := [lit " *.png "; lit "*.zip"; []].

Lemma track_adds_lines_witness :
  let '(o, a') := track toy_patterns toy_attributes in
  o = Ok tt ∧ attrs a' = Some (lit "*.png filter=bale -text" ++ [x0d; x0a] ++ lit "# *.zip" ++ [x0d; x0a] ++ lit "*.zip filter=bale -text" ++ [x0a]) ∧
  attrs (track toy_patterns a').2 = attrs a'.
Proof.
  pose proof (track_adds_lines toy_patterns toy_attributes) as H. destruct (track toy_patterns toy_attributes) as [o a'].
  destruct H as (_ & _ & H). destruct H as (Ho & Ha & Hmore); [reflexivity|by vm_compute|].
  assert (plain (lit "*.zip")) as Hplain by (split; [apply (bool_decide_unpack _); by vm_compute|by eexists _, _]).
  assert (untracked (default [] (attrs toy_attributes)) toy_patterns = [lit "*.zip"]) as Hu by by vm_compute.
  destruct Hmore as [_ Hagain]; [by rewrite Hu; apply Forall_singleton|]. split; [exact Ho|]. split; [|exact Hagain].
  rewrite Ha. by vm_compute.
Defined.

(** A pattern with a space is never recognised: every call appends it once more. *)
Example spaced_pattern_is_appended_again :
  let a := (track [lit "my file.bin"] (mkAttributes None [] [])).2 in
  attrs (track [lit "my file.bin"] a).2 = Some (track_line (lit "my file.bin") ++ track_line (lit "my file.bin")).
Proof. by vm_compute. Qed.

(** A pattern that is given twice gets two lines. *)
Example repeated_pattern_has_two_lines :
  attrs (track [lit "*.bin"; lit "*.bin"] (mkAttributes None [] [])).2 = Some (track_line (lit "*.bin") ++ track_line (lit "*.bin")).
Proof. by vm_compute. Qed.
