(* ===== verification/Install.v ===== *)
(** * Installing the filter

    [crates/git-bale/src/install.rs]: the configuration of git, and the hooks of a
    repository.  [git config] is a process that answers anything; every call of the
    file system may fail.  Directories are not modelled. *)

From stdpp Require Import gmap list.
From S2P Require Import Prelude RustStd RustText Config.

Definition SECTION : str := lit "filter.bale".
Definition PROCESS_VALUE : str := lit "git-bale filter-process".
Definition HOOK_MARKER : str := lit "# bale-marker: managed-by-git-bale-do-not-edit".
Definition GC_HOOKS : list str := [lit "post-checkout"; lit "post-commit"; lit "post-merge"].

Inductive OnConflict := FailConflict | SkipConflict.

(** A process [git] with its directory, and what it answers. *)
Record GitCall := mkGitCall { gc_dir : option str; gc_args : list str }.
Record GitOutput := mkGitOutput { success : bool; code : option Z; stderr : bytes }.

(** What the module asks of its surroundings: gix's discovery gives the git
    directory and the configuration. *)
Class Surroundings := {
  run_git : list GitCall → GitCall → outcome str GitOutput;
  current_dir : option str;
  discover : str → outcome str (str * (str → option str));
  pid : Z;
}.

(** Regular files by path; [stat_faults] says which of the next existence checks
    fail, [io_faults] what the other calls report, and how much a write still wrote. *)
Record HookFile := mkHook { body : bytes; mode : Z }.
Record Machine := mkMachine {
  files : gmap str HookFile;
  git_calls : list GitCall;
  stat_faults : list bool;
  io_faults : list (option (str * nat));
}.
Definition set_files x m := mkMachine x (git_calls m) (stat_faults m) (io_faults m).

Section install.
Context {W : Surroundings}.
Abbreviation I := (ST Machine str).

(** A call of the file system; [partial] is what a failing one leaves. *)
Definition io {A} (f : Machine → outcome str A * Machine) (partial : nat → Machine → Machine) : I A := λ m,
  let m' := mkMachine (files m) (git_calls m) (stat_faults m) (tail (io_faults m)) in
  match default None (head (io_faults m)) with
  | Some (e, n) => (Err e, partial n m')
  | None => f m'
  end.
Definition io_ok (f : Machine → Machine) : I unit := io (λ m, (Ok tt, f m)) (λ _ m, m).
Definition in_context {A} (c : str) (m : I A) : I A := st_map_err (λ e, c ++ lit ": " ++ e) m.

(** [Path::exists]: a check that fails counts as no. *)
Definition path_exists (p : str) : I bool := λ m,
  (Ok (negb (default false (head (stat_faults m))) && bool_decide (is_Some (files m !! p))),
   mkMachine (files m) (git_calls m) (tail (stat_faults m)) (io_faults m)).
Definition read_to_string (p : str) : I str :=
  io (λ m, (match files m !! p with
            | Some f => if utf8_valid (body f) then Ok (body f) else Err (lit "stream did not contain valid UTF-8")
            | None => Err (lit "No such file or directory (os error 2)")
            end, m)) (λ _ m, m).
(** [unwrap_or_default] *)
Definition or_empty (m : I str) : I str := λ s,
  match m s with (Err _, s') => (Ok [], s') | r => r end.
(** [let _ = m] *)
Definition ignored (m : I unit) : I unit := λ s,
  match m s with (Err _, s') => (Ok tt, s') | r => r end.

Definition tmp_name (path : str) : str := join (parent path) (lit "." ++ file_name path ++ lit ".tmp." ++ to_string pid).
Definition NEW_FILE_MODE : Z := 420. (* 0o644, the usual umask *)
Definition HOOK_MODE : Z := 493. (* 0o755 *)

Definition write_atomic (path : str) (b : bytes) : I unit :=
  let tmp := tmp_name path in
  let put (c : bytes) (m : Machine) := set_files (<[tmp := mkHook c (default NEW_FILE_MODE (mode <$> files m !! tmp))]> (files m)) m in
  _ ← io_ok (put []);
  _ ← io (λ m, (Ok tt, put b m)) (λ n m, put (take n b) m);
  _ ← io_ok id;
  io (λ m, match files m !! tmp with
           | Some f => (Ok tt, set_files (<[path := f]> (delete tmp (files m))) m)
           | None => (Err (lit "No such file or directory (os error 2)"), m)
           end) (λ _ m, m).

Definition chmod_hook (path : str) : I unit :=
  _ ← io (λ m, (match files m !! path with Some _ => Ok tt | None => Err (lit "No such file or directory (os error 2)") end, m)) (λ _ m, m);
  io_ok (λ m, set_files (alter (λ f, mkHook (body f) HOOK_MODE) path (files m)) m).

(** The configured hooks directory is taken as it is written. *)
Definition hooks_root (repo : str * (str → option str)) : str :=
  let default_root := join repo.1 (lit "hooks") in
  match repo.2 (lit "core.hooksPath") with
  | Some p => match trim p with [] => default_root | trimmed => trimmed end
  | None => default_root
  end.
Definition resolve_hook_path (repo : option str) (hook_name : str) : outcome str str :=
  start_dir ← ok_or (lit "can't resolve cwd to anchor hook path") (match repo with Some p => Some p | None => current_dir end);
  found ← map_err (λ e, lit "opening repo at " ++ start_dir ++ lit ": " ++ e) (discover start_dir);
  mret (join (hooks_root found) hook_name).

Definition hook_body (command description : str) : str :=
  lit "#!/bin/sh" ++ [x0a] ++ HOOK_MARKER ++ [x0a] ++ lit "# " ++ description ++ [x0a] ++ command ++ [x0a].

Definition install_managed_hook (repo : option str) (hook_name command description : str) (on_conflict : OnConflict) : I unit :=
  hook_path ← lift (resolve_hook_path repo hook_name);
  _ ← in_context (lit "creating hooks dir " ++ parent hook_path) (io_ok id);
  there ← path_exists hook_path;
  existing ← (if there : bool then or_empty (read_to_string hook_path) else mret []);
  match (there : bool) && negb (str_contains existing HOOK_MARKER), on_conflict with
  | true, FailConflict => 
      throw (lit "refusing to overwrite existing " ++ hook_name ++ lit " hook at " ++ hook_path ++ [x0a] ++ lit "add this line to it manually:" ++ [x0a] ++
        [x09] ++ command ++ [x0a] ++ lit "(or move the existing hook aside and re-run `git-bale install --local`)")
  | true, SkipConflict => mret tt
  | false, _ =>
      _ ← in_context (lit "writing " ++ hook_name ++ lit " hook to " ++ hook_path) (write_atomic hook_path (hook_body command description));
      chmod_hook hook_path
  end.

Definition uninstall_managed_hook (repo : option str) (hook_name : str) : I unit :=
  hook_path ← lift (resolve_hook_path repo hook_name);
  there ← path_exists hook_path;
  if negb there then mret tt
  else
    existing ← read_to_string hook_path;
    if negb (str_contains existing HOOK_MARKER) then mret tt
    else in_context (lit "removing " ++ hook_name ++ lit " hook " ++ hook_path)
           (io_ok (λ m, set_files (delete hook_path (files m)) m)).

(** ** The configuration of git *)

Definition scope_flag (s : InstallScope) : str :=
  match s with Global => lit "--global" | System => lit "--system" | Local => lit "--local" end.
Definition run_git_config (scope : InstallScope) (repo : option str) (args : list str) : I GitOutput := λ m,
  let c := mkGitCall (match scope with Local => repo | _ => None end) ([lit "config"; scope_flag scope] ++ args) in
  (map_err (λ e, lit "spawning git config: " ++ e) (run_git (git_calls m) c),
   mkMachine (files m) (git_calls m ++ [c]) (stat_faults m) (io_faults m)).
Definition set_key (scope : InstallScope) (repo : option str) (full_key value : str) : I unit :=
  out ← run_git_config scope repo [full_key; value];
  if success out then mret tt
  else throw (lit "git config " ++ scope_flag scope ++ lit " " ++ full_key ++ lit " " ++ value ++ lit " failed: " ++ trim (from_utf8_lossy (stderr out))).
Definition set_bale_config (scope : InstallScope) (repo : option str) (key value : str) : I unit :=
  set_key scope repo (lit "bale." ++ key) value.
Definition set_config (scope : InstallScope) (repo : option str) (key value : str) : I unit :=
  set_key scope repo (SECTION ++ lit "." ++ key) value.
Definition unset_config (scope : InstallScope) (repo : option str) (key : str) : I unit :=
  let full_key := SECTION ++ lit "." ++ key in
  out ← run_git_config scope repo [lit "--unset-all"; full_key];
  if success out || bool_decide (code out = Some 5) then mret tt
  else throw (lit "git config " ++ scope_flag scope ++ lit " --unset-all " ++ full_key ++ lit " failed: " ++ trim (from_utf8_lossy (stderr out))).

(** ** The commands *)

Definition PRE_PUSH_COMMAND : str := lit "exec git-bale push-pending " ++ [x22] ++ lit "$@" ++ [x22].
Definition PRE_PUSH_DESCRIPTION : str :=
  lit "Ensure xorbs/shards for every bale file this push advertises reach the" ++ [x0a] ++
  lit "# target remote (" ++ [x22] ++ lit "$@" ++ [x22] ++ lit " = remote name + URL; ref updates arrive on stdin)" ++ [x0a] ++
  lit "# before git pushes refs that reference them. Aborts the push on failure.".
Definition GC_COMMAND : str := lit "git-bale gc || true".
Definition GC_DESCRIPTION : str := lit "Reclaim staging for bale files that were unstaged or discarded.".
Definition LOCAL_GC_DESCRIPTION : str := lit "Reclaim local-store objects for bale files that were unstaged or discarded.".

Definition install (scope : InstallScope) (repo : option str) : I unit :=
  _ ← set_config scope repo (lit "process") PROCESS_VALUE;
  _ ← set_config scope repo (lit "required") (lit "true");
  match scope with
  | Local =>
      _ ← install_managed_hook repo (lit "pre-push") PRE_PUSH_COMMAND PRE_PUSH_DESCRIPTION FailConflict;
      for_each (λ hook, install_managed_hook repo hook GC_COMMAND GC_DESCRIPTION SkipConflict) GC_HOOKS
  | _ => mret tt
  end.

Definition init_local (repo : option str) (store : str) (shared : bool) : I unit :=
  _ ← set_config Local repo (lit "process") PROCESS_VALUE;
  _ ← set_config Local repo (lit "required") (lit "true");
  _ ← set_bale_config Local repo (lit "local") (lit "true");
  _ ← set_bale_config Local repo (lit "localStore") store;
  _ ← (if shared then set_bale_config Local repo (lit "localShared") (lit "true") else mret tt);
  for_each (λ hook, install_managed_hook repo hook GC_COMMAND LOCAL_GC_DESCRIPTION SkipConflict) GC_HOOKS.

Definition uninstall (scope : InstallScope) (repo : option str) : I unit :=
  _ ← ignored (unset_config scope repo (lit "process"));
  _ ← ignored (unset_config scope repo (lit "required"));
  match scope with
  | Local =>
      _ ← ignored (uninstall_managed_hook repo (lit "pre-push"));
      for_each (λ hook, ignored (uninstall_managed_hook repo hook)) GC_HOOKS
  | _ => mret tt
  end.

Definition uninstall_all (repo : option str) : I unit :=
  _ ← ignored (uninstall System None);
  _ ← ignored (uninstall Global None);
  ignored (uninstall Local repo).
End install.
