(* ===== verification/InstallSpec.v ===== *)
(** * Hooks that are not ours are left alone

    What the commands of [Install] change, whatever fails, and what they leave when
    they succeed. *)

From stdpp Require Import gmap list.
From S2P Require Import Prelude RustStd RustText Config PathFacts Install.

(** A hook that the commands may replace or remove: text with the marker. *)
Definition managed (f : HookFile) : bool := utf8_valid (body f) && str_contains (body f) HOOK_MARKER.

Create HintDb safe.

Section install.
Context {W : Surroundings}.
Hypothesis pid_pos : 0 ≤ pid.
Hypothesis git_returns : ∀ h c, returned (run_git h c).
Hypothesis discover_returns : ∀ d, returned (discover d).
#[local] Set Default Proof Using "Type*".
Abbreviation I := (ST Machine str).

Definition is_tmp (q : str) : Prop := ∃ p, q = tmp_name p.
Lemma tmp_file_name p : file_name (tmp_name p) = lit "." ++ file_name p ++ lit ".tmp." ++ to_string pid.
Proof.
  unfold tmp_name. apply file_name_join. rewrite !not_elem_of_app.
  split_and!; [by_lit|apply file_name_plain|by_lit|by apply to_string_not_in].
Qed.
(** A plain name that does not start with a dot is no temporary file. *)
Lemma not_tmp d n : x2f ∉ n → head n ≠ Some x2e → ¬ is_tmp (join d n).
Proof.
  intros Hn Hd [p Hp]. apply (f_equal file_name) in Hp. rewrite file_name_join, tmp_file_name in Hp by done. by subst n.
Qed.

(** Existence checks that are honest. *)
Definition honest (m : Machine) : Prop := Forall (λ b, b = false) (stat_faults m).
Lemma honest_head m : honest m → default false (head (stat_faults m)) = false.
Proof using Type. unfold honest. by destruct 1. Qed.
Lemma honest_tail m : honest m → Forall (λ b, b = false) (tail (stat_faults m)).
Proof using Type. unfold honest. by destruct 1; [constructor|]. Qed.

(** Nothing but [p] and temporary files changed. *)
Definition only (p : str) (m m' : Machine) : Prop :=
  stat_faults m' = stat_faults m ∧ ∀ q, q ≠ p → ¬ is_tmp q → files m' !! q = files m !! q.
#[local] Instance only_preorder p : PreOrder (only p).
Proof using Type.
  split; [by split|]. intros m1 m2 m3 [S1 F1] [S2 F2]. split; [congruence|]. intros q Hq Ht. by rewrite F2, F1.
Qed.

Definition changes (p : str) {A} (m : I A) : Prop := ∀ s, wps m s (λ _ s', only p s s') (λ _ s', only p s s').
Lemma changes_bind {A B} p (m : I A) (k : A → I B) : changes p m → (∀ a, changes p (k a)) → changes p (m ≫= k).
Proof using Type.
  intros Hm Hk s. apply wps_bind. eapply wps_mono; [apply Hm| |done]. intros a s1 H1.
  eapply wps_mono; [apply Hk|intros b s2 H2; exact (transitivity H1 H2)|intros e s2 H2; exact (transitivity H1 H2)].
Qed.
Lemma changes_context {A} p c (m : I A) : changes p m → changes p (in_context c m).
Proof using Type. intros Hm s. apply wps_map_err, Hm. Qed.

(** A call of the file system, from what it does and what a failing one leaves. *)
Lemma wps_io {A} (f : Machine → outcome str A * Machine) (part : nat → Machine → Machine) s (Q : A → Machine → Prop) R
  (s1 := mkMachine (files s) (git_calls s) (stat_faults s) (tail (io_faults s))) :
  (∀ e n, R e (part n s1)) → wps f s1 Q R → wps (io f part) s Q R.
Proof using Type. intros Hpart Hf. unfold wps, io. destruct (default None (head (io_faults s))) as [[e n]|]; [apply Hpart|exact Hf]. Qed.

Lemma changes_io {A} p (f : Machine → outcome str A * Machine) part :
  (∀ s, wps f s (λ _ s', only p s s') (λ _ s', only p s s')) → (∀ n s, only p s (part n s)) → changes p (io f part).
Proof using Type.
  intros Hf Hp s. set (s1 := mkMachine (files s) (git_calls s) (stat_faults s) (tail (io_faults s))).
  apply wps_io; [intros e n; exact (Hp n s1)|exact (Hf s1)].
Qed.
Lemma changes_io_ok p f : (∀ s, only p s (f s)) → changes p (io_ok f).
Proof using Type. intros Hf. apply changes_io; [done|]. by intros n s. Qed.

Lemma only_tmp p t f s : t = tmp_name p → only p s (set_files (<[t := f]> (files s)) s).
Proof using Type. intros ->. split; [done|]. intros q Hq Ht. simpl. rewrite lookup_insert_ne; [done|]. intros <-. apply Ht. by exists p. Qed.

Lemma changes_write_atomic p b : changes p (write_atomic p b).
Proof using Type.
  unfold write_atomic. apply changes_bind; [apply changes_io_ok; intros s; by apply only_tmp|intros _].
  apply changes_bind; [apply changes_io; [intros s; by apply only_tmp|intros n s; by apply only_tmp]|intros _].
  apply changes_bind; [by apply changes_io_ok|intros _]. apply changes_io; [|by intros n s].
  intros s. unfold wps. destruct (files s !! tmp_name p) as [f|]; [|done]. split; [done|]. intros q Hq Ht. simpl.
  rewrite lookup_insert_ne, lookup_delete_ne; [done| |done]. intros <-. apply Ht. by exists p.
Qed.
Lemma changes_chmod p : changes p (chmod_hook p).
Proof using Type.
  unfold chmod_hook. apply changes_bind; [apply changes_io; [|by intros n s]|intros _].
  - intros s. unfold wps. by destruct (files s !! p).
  - apply changes_io_ok. intros s. split; [done|]. intros q Hq _. simpl. by rewrite lookup_alter_ne.
Qed.

(** ** What stays *)

Definition keeps (m m' : Machine) : Prop :=
  honest m' ∧ ∀ q f, files m !! q = Some f → managed f = false → ¬ is_tmp q → files m' !! q = Some f.
Definition safe {A} (m : I A) : Prop := ∀ s, honest s → wps m s (λ _ s', keeps s s') (λ _ s', keeps s s').
Lemma keeps_trans m1 m2 m3 : keeps m1 m2 → keeps m2 m3 → keeps m1 m3.
Proof using Type. intros [_ H1] [? H2]. split; auto. Qed.
Lemma safe_then {A B} (m : I A) (k : A → I B) : safe m → (∀ a, safe (k a)) → safe (m ≫= k).
Proof using Type.
  intros Hm Hk s Hs. apply wps_bind. eapply wps_mono; [by apply Hm| |done]. intros a s1 H1.
  eapply wps_mono; [apply Hk, H1|intros b s2 H2; exact (keeps_trans _ _ _ H1 H2)|intros e s2 H2; exact (keeps_trans _ _ _ H1 H2)].
Qed.
Lemma safe_done {A} (a : A) : safe (mret a).
Proof using Type. intros s Hs. apply wps_ret. by split. Qed.
Lemma safe_ignored m : safe m → safe (ignored m).
Proof using Type. intros Hm s Hs. specialize (Hm s Hs). unfold wps, ignored in *. by destruct (m s) as [[?|?| |] ?]. Qed.
Lemma safe_all (f : str → I unit) l : (∀ h, safe (f h)) → safe (for_each f l).
Proof using Type. intros Hf. induction l as [|h l IH]; [apply safe_done|]. by apply safe_then. Qed.

Lemma only_keeps p m m' : honest m → (∀ f, files m !! p = Some f → managed f = true) → only p m m' → keeps m m'.
Proof using Type.
  intros Hh Hp [Hst Hf]. split; [unfold honest; by rewrite Hst|]. intros q f Hq Hm Ht.
  destruct (decide (q = p)) as [->|Hne]; [apply Hp in Hq; congruence|]. by rewrite Hf.
Qed.

Lemma wps_read_hook p s : wps (read_to_string p) s
  (λ b s', files s' = files s ∧ stat_faults s' = stat_faults s ∧ ∃ f, files s !! p = Some f ∧ body f = b ∧ utf8_valid b = true)
  (λ _ s', files s' = files s ∧ stat_faults s' = stat_faults s).
Proof using Type.
  apply wps_io; [done|]. unfold wps. simpl. destruct (files s !! p) as [f|]; [|done].
  destruct (utf8_valid (body f)) eqn:Hv; [|done]. split_and!; eauto.
Qed.

(** ** The hooks *)

Lemma wps_write_atomic p b s : wps (write_atomic p b) s
  (λ _ s', only p s s' ∧ ∃ md, files s' !! p = Some (mkHook b md)) (λ _ s', only p s s').
Proof using Type.
  pose proof (changes_write_atomic p b s) as Hc. unfold wps in *. destruct (write_atomic p b s) as [o s'] eqn:Hrun.
  destruct o as [[]|e| |]; try done. split; [done|]. unfold write_atomic in Hrun. inv_ok.
  unfold io_ok, io in *. repeat case_match; simplify_eq/=. rewrite lookup_insert_eq in *. simplify_eq. rewrite lookup_insert_eq. eauto.
Qed.
Lemma wps_chmod p s f : files s !! p = Some f → wps (chmod_hook p) s
  (λ _ s', only p s s' ∧ files s' !! p = Some (mkHook (body f) HOOK_MODE)) (λ _ s', only p s s').
Proof using Type.
  intros Hf. pose proof (changes_chmod p s) as Hc. unfold wps in *. destruct (chmod_hook p s) as [o s'] eqn:Hrun.
  destruct o as [[]|e| |]; try done. split; [done|]. unfold chmod_hook in Hrun. inv_ok.
  unfold io_ok, io in *. repeat case_match; simplify_eq/=. rewrite lookup_alter_eq, Hf. done.
Qed.

Lemma resolve_returns repo n : returned (resolve_hook_path repo n).
Proof.
  unfold resolve_hook_path. destruct (match repo with Some p => Some p | None => current_dir end) as [d|]; [|done].
  cbn. pose proof (discover_returns d). by destruct (discover d).
Qed.

(** The existence check and the reading of what is there: whoever passes may be replaced. *)
Lemma wps_existing p s : honest s →
  wps (there ← path_exists p; existing ← (if there : bool then or_empty (read_to_string p) else mret []); mret (there, existing)) s
    (λ r s', files s' = files s ∧ honest s' ∧
      (r.1 && negb (str_contains r.2 HOOK_MARKER) = false → ∀ f, files s !! p = Some f → managed f = true) ∧
      (r.1 = true → is_Some (files s !! p))) (λ _ _, False).
Proof using Type.
  intros Hs. apply wps_bind. unfold wps at 1, path_exists. rewrite honest_head by done. cbn [negb andb].
  set (s1 := mkMachine _ _ _ _). assert (Hs1 : honest s1) by by apply honest_tail.
  apply wps_bind. case_bool_decide as Hp.
  - pose proof (wps_read_hook p s1) as Hr. unfold wps, or_empty in *.
    destruct (read_to_string p s1) as [[b|e| |] s2]; try done.
    + destruct Hr as (Hf & Hst & f & Hpf & <- & Hv). cbn. split_and!; [by rewrite Hf|unfold honest; by rewrite Hst| |done].
      intros Hm f' Hf'. simpl in Hpf. simplify_eq. unfold managed. rewrite Hv. by destruct (str_contains _ _).
    + destruct Hr as [Hf Hst]. cbn. split_and!; [by rewrite Hf|unfold honest; by rewrite Hst| |done]. intros Hm. by vm_compute in Hm.
  - apply wps_ret, wps_ret. split_and!; try done. intros _ f Hf. destruct Hp. eauto.
Qed.

(** Two answers, then the rest. *)
Lemma wps_both {A B D} (m1 : I A) (m2 : A → I B) (k : A → B → I D) s (Q : A * B → Machine → Prop) (Q' : D → Machine → Prop) (R' : str → Machine → Prop) :
  wps (a ← m1; b ← m2 a; mret (a, b)) s Q (λ _ _, False) → (∀ a b s', Q (a, b) s' → wps (k a b) s' Q' R') →
  wps (a ← m1; b ← m2 a; k a b) s Q' R'.
Proof using Type.
  intros H Hk. apply wps_bind. rewrite wps_bind in H. eapply wps_mono; [exact H| |done]. intros a s1 H1. cbn beta in H1.
  apply wps_bind. rewrite wps_bind in H1. eapply wps_mono; [exact H1| |done]. intros b s2 H2. by apply Hk.
Qed.

(** After a managed hook was installed: ours, or what was there. *)
Definition installed (p command description : str) (c : OnConflict) (s s' : Machine) : Prop :=
  files s' !! p = Some (mkHook (hook_body command description) HOOK_MODE) ∨
  (c = SkipConflict ∧ ∃ f, files s !! p = Some f ∧ files s' !! p = Some f).

Lemma wps_install_hook repo n command description c s : honest s →
  wps (install_managed_hook repo n command description c) s
    (λ _ s', ∃ p, resolve_hook_path repo n = Ok p ∧ keeps s s' ∧ only p s (mkMachine (files s') (git_calls s') (stat_faults s) (io_faults s')) ∧
      installed p command description c s s')
    (λ _ s', keeps s s').
Proof.
  intros Hs. unfold install_managed_hook. apply wps_bind, wps_lift. pose proof (resolve_returns repo n) as Hr.
  destruct (resolve_hook_path repo n) as [p|e| |]; try done; simpl; try by split.
  apply wps_bind, wps_map_err, wps_io; [by split|]. unfold wps at 1. set (s1 := mkMachine _ _ _ _).
  assert (Hs1 : honest s1) by done. pose proof (wps_existing p s1 Hs1) as H.
  eapply (wps_both _ _ _ _ _ _ _ H). intros there existing s3 (Hf & Hh & Hfree & Hthere). cbn [fst snd] in *. clear H.
  assert (Hk3 : keeps s s3) by (split; [done|intros q f Hq _ _; by rewrite Hf]).
  destruct (there && negb (str_contains existing HOOK_MARKER)) eqn:Hb.
  - destruct c; [exact Hk3|]. apply wps_ret. exists p. split_and!; [done|done|split; [done|intros q _ _; simpl; by rewrite Hf]|].
    right. split; [done|]. apply andb_true_iff in Hb as [-> _]. destruct (Hthere eq_refl) as [f Hpf]. exists f. by rewrite Hf.
  - specialize (Hfree eq_refl). assert (Hfree' : ∀ f, files s3 !! p = Some f → managed f = true) by (rewrite Hf; exact Hfree).
    apply wps_bind, wps_map_err. eapply wps_mono; [apply wps_write_atomic| |].
    2:{ intros e s4 Ho. eapply keeps_trans; [exact Hk3|]. by eapply only_keeps. }
    intros [] s4 [Ho4 [md Hp4]]. eapply wps_mono; [by apply (wps_chmod p s4)| |].
    2:{ intros e s5 Ho5. eapply keeps_trans; [exact Hk3|]. eapply only_keeps; [done|done|exact (transitivity Ho4 Ho5)]. }
    intros [] s5 [Ho5 Hp5]. pose proof (transitivity Ho4 Ho5) as Ho. exists p. split; [done|].
    split; [eapply keeps_trans; [exact Hk3|]; by eapply only_keeps|]. split; [|by left].
    split; [done|]. intros q Hq Ht. simpl. rewrite (proj2 Ho) by done. by rewrite Hf.
Qed.

Lemma safe_uninstall_hook repo n : safe (uninstall_managed_hook repo n).
Proof.
  intros s Hs. unfold uninstall_managed_hook. apply wps_bind, wps_lift. pose proof (resolve_returns repo n) as Hr.
  destruct (resolve_hook_path repo n) as [p|e| |]; try done; simpl; try by split.
  apply wps_bind. unfold wps at 1, path_exists. set (s1 := mkMachine _ _ _ _). assert (Hs1 : honest s1) by by apply honest_tail.
  assert (Hk1 : keeps s s1) by by split. destruct (negb _); [by apply wps_ret|].
  apply wps_bind. eapply wps_mono; [apply wps_read_hook| |].
  2:{ intros e s2 [Hf Hst]. split; [unfold honest; by rewrite Hst|]. intros q f Hq _ _. by rewrite Hf. }
  intros b s2 (Hf & Hst & f & Hp & Hb & Hv). assert (Hs2 : honest s2) by (unfold honest; by rewrite Hst).
  assert (Hk2 : keeps s s2) by (split; [done|]; intros q f' Hq _ _; by rewrite Hf).
  destruct (str_contains b HOOK_MARKER) eqn:Hm; cbn [negb]; [|by apply wps_ret].
  apply wps_map_err, wps_io.
  - intros e _. split; [done|]. intros q f' Hq _ _. simpl. by rewrite Hf.
  - unfold wps. split; [done|]. intros q f' Hq Hman _. simpl. rewrite Hf.
    rewrite lookup_delete_ne; [done|]. intros <-. simpl in Hp. simplify_eq. unfold managed in Hman. by rewrite Hv, Hm in Hman.
Qed.

(** ** The commands *)

Lemma safe_git scope repo args : safe (run_git_config scope repo args).
Proof.
  intros s Hs. unfold wps, run_git_config. cbv zeta. set (c := mkGitCall _ _). pose proof (git_returns (git_calls s) c) as H.
  destruct (run_git (git_calls s) c); done.
Qed.
Lemma safe_error {A} e : safe (throw (A:=A) e).
Proof using Type. intros s Hs. apply wps_throw. by split. Qed.
Lemma safe_set_key scope repo k v : safe (set_key scope repo k v).
Proof. apply safe_then; [apply safe_git|]. intros out. destruct (success out); [apply safe_done|apply safe_error]. Qed.
Lemma safe_unset scope repo k : safe (unset_config scope repo k).
Proof. apply safe_then; [apply safe_git|]. intros out. destruct (_ || _); [apply safe_done|apply safe_error]. Qed.
Lemma safe_install_hook repo n command description c : safe (install_managed_hook repo n command description c).
Proof. intros s Hs. eapply wps_mono; [by apply wps_install_hook|by intros [] s' (p & _ & ? & _)|done]. Qed.
#[local] Hint Resolve safe_set_key safe_unset safe_install_hook safe_uninstall_hook safe_done safe_ignored safe_all : safe.
Ltac safe := repeat first [solve [auto with safe] | apply safe_ignored; solve [auto with safe] | apply safe_all; intros ? | apply safe_then; [|intros ?] | case_match].

Lemma safe_uninstall scope repo : safe (uninstall scope repo).
Proof. unfold uninstall. safe. Qed.
#[local] Hint Resolve safe_uninstall : safe.

Inductive command := CInstall (scope : InstallScope) (repo : option str) | CInitLocal (repo : option str) (store : str) (shared : bool)
  | CUninstall (scope : InstallScope) (repo : option str) | CUninstallAll (repo : option str).
Definition run_command (c : command) : I unit :=
  match c with
  | CInstall scope repo => install scope repo
  | CInitLocal repo store shared => init_local repo store shared
  | CUninstall scope repo => uninstall scope repo
  | CUninstallAll repo => uninstall_all repo
  end.
Definition run_history (cs : list command) (m : Machine) : Machine := foldl (λ m c, (run_command c m).2) m cs.

Lemma safe_command c : safe (run_command c).
Proof.
  destruct c; cbn [run_command]; [unfold install|unfold init_local, set_bale_config|apply safe_uninstall|unfold uninstall_all];
    unfold set_config, set_bale_config; safe.
Qed.
Lemma commands_keep cs : ∀ m, honest m → keeps m (run_history cs m).
Proof.
  induction cs as [|c cs IH]; intros m Hm; [by split|]. cbn. pose proof (safe_command c m Hm) as H. unfold wps in H.
  destruct (run_command c m) as [[[]|e| |] m1]; try done; (eapply keeps_trans; [exact H|apply IH, H]).
Qed.

Lemma resolve_join repo n p : resolve_hook_path repo n = Ok p → ∃ root, p = join root n ∧ ∀ n', resolve_hook_path repo n' = Ok (join root n').
Proof using Type.
  unfold resolve_hook_path. intros H. destruct (match repo with Some p => Some p | None => current_dir end) as [d|]; [|done]. cbn in *.
  destruct (discover d) as [found|e| |]; try done. cbn in *. injection H as <-. by exists (hooks_root found).
Qed.

(** The hooks of a list of plain names. *)
Lemma wps_install_each repo root command description l : NoDup l → Forall (λ n, (x2f ∉ n) ∧ head n ≠ Some x2e) l →
  (∀ n, resolve_hook_path repo n = Ok (join root n)) → ∀ s, honest s →
  wps (for_each (λ h, install_managed_hook repo h command description SkipConflict) l) s
    (λ _ s', honest s' ∧ (∀ q, (∀ h, h ∈ l → q ≠ join root h) → ¬ is_tmp q → files s' !! q = files s !! q) ∧
      ∀ h, h ∈ l → installed (join root h) command description SkipConflict s s')
    (λ _ _, True).
Proof.
  intros Hnd Hl Hroot. induction l as [|n l IH]; intros s Hs; cbn [for_each].
  { apply wps_ret. split_and!; try done. by intros h ?%elem_of_nil. }
  apply NoDup_cons in Hnd as [Hn Hnd]. apply Forall_cons in Hl as [[Hslash Hdot] Hl].
  apply wps_bind. eapply wps_mono; [by apply wps_install_hook| |done]. intros [] s1 (p & Hp & [Hh1 _] & [_ Ho] & Hin).
  rewrite Hroot in Hp. injection Hp as <-. eapply wps_mono; [by apply IH| |done]. intros [] s' (Hh' & Hrest & Hall).
  assert (Hother : ∀ h, h ∈ l → join root n ≠ join root h).
  { intros h Hh Heq. rewrite Forall_forall in Hl. apply join_inj in Heq as ->; [done|done|by apply Hl]. }
  split_and!; [done| |].
  - intros q Hq Ht. rewrite Hrest; [|set_solver|done]. apply Ho; [apply Hq; by left|done].
  - intros h [->|Hh]%elem_of_cons.
    + assert (files s' !! join root n = files s1 !! join root n) as Heq by (apply Hrest; [done|by apply not_tmp]).
      unfold installed in *. by rewrite Heq.
    + destruct (Hall h Hh) as [?|(_ & f & Hf & Hf')]; [by left|]. right. split; [done|]. exists f. split; [|done].
      rewrite <-Hf. symmetry. apply Ho; [by apply not_eq_sym, Hother|]. rewrite Forall_forall in Hl. by apply not_tmp; apply Hl.
Qed.

(** What an installation for one repository leaves. *)
Definition hooks_in_place (repo : option str) (s s' : Machine) : Prop := ∃ root, (∀ n, resolve_hook_path repo n = Ok (join root n)) ∧
  files s' !! join root (lit "pre-push") = Some (mkHook (hook_body PRE_PUSH_COMMAND PRE_PUSH_DESCRIPTION) HOOK_MODE) ∧
  ∀ h, h ∈ GC_HOOKS → installed (join root h) GC_COMMAND GC_DESCRIPTION SkipConflict s s'.

Lemma gc_hooks_plain : NoDup GC_HOOKS ∧ Forall (λ n, (x2f ∉ n) ∧ head n ≠ Some x2e) GC_HOOKS.
Proof using Type. split; by_lit. Qed.

Lemma git_files scope repo k v s : files (set_config scope repo k v s).2 = files s ∧ stat_faults (set_config scope repo k v s).2 = stat_faults s.
Proof using Type.
  unfold set_config, set_key, run_git_config, mbind, ST_bind. destruct (run_git _ _) as [out|e| |]; cbn; try done. by destruct (success out).
Qed.

Lemma install_local_hooks repo s : honest s → wps (install Local repo) s (λ _ s', hooks_in_place repo s s') (λ _ _, True).
Proof.
  intros Hs. unfold install. apply wps_bind.
  pose proof (git_files Local repo (lit "process") PROCESS_VALUE s) as [F1 T1].
  pose proof (safe_set_key Local repo (SECTION ++ lit "." ++ lit "process") PROCESS_VALUE s Hs) as W1. fold (set_config Local repo (lit "process") PROCESS_VALUE) in W1.
  unfold wps in W1 |- * at 1. destruct (set_config _ _ _ _ s) as [[[]|e| |] s1]; try done. simpl in F1, T1. clear W1.
  assert (Hs1 : honest s1) by (unfold honest; by rewrite T1). apply wps_bind.
  pose proof (git_files Local repo (lit "required") (lit "true") s1) as [F2 T2].
  pose proof (safe_set_key Local repo (SECTION ++ lit "." ++ lit "required") (lit "true") s1 Hs1) as W2. fold (set_config Local repo (lit "required") (lit "true")) in W2.
  unfold wps in W2 |- * at 1. destruct (set_config _ _ _ _ s1) as [[[]|e| |] s2]; try done. simpl in F2, T2. clear W2.
  assert (Hs2 : honest s2) by (unfold honest; by rewrite T2). rewrite F1 in F2. apply wps_bind.
  eapply wps_mono; [by apply wps_install_hook| |done]. intros [] s3 (p & Hp & [Hh3 _] & [_ Ho] & Hin).
  apply resolve_join in Hp as (root & -> & Hroot). destruct gc_hooks_plain as [Hnd Hpl].
  assert (Hpre : ∀ h, h ∈ GC_HOOKS → join root (lit "pre-push") ≠ join root h).
  { intros h Hh Heq. rewrite Forall_forall in Hpl. apply join_inj in Heq; [|by_lit|by apply Hpl]. subst h. revert Hh. by_lit. }
  eapply wps_mono; [by apply (wps_install_each repo root _ _ GC_HOOKS Hnd Hpl Hroot)| |done].
  intros [] s4 (_ & Hrest & Hall). exists root. split; [done|]. split.
  - rewrite Hrest; [|done|apply not_tmp; by_lit]. destruct Hin as [?|[? _]]; done.
  - intros h Hh. destruct (Hall h Hh) as [?|(_ & f & Hf & Hf')]; [by left|]. right. split; [done|]. exists f. split; [|done].
    rewrite <-F2, <-Hf. symmetry. apply Ho; [by apply not_eq_sym, Hpre|]. rewrite Forall_forall in Hpl. by apply not_tmp; apply Hpl.
Qed.

(** C27. The commands never touch a hook that is not ours.  After any sequence of
    installing, removing and local initialisation, whatever fails on the way apart
    from the checks whether a hook exists, every file without the marker is still
    there with its content and mode, temporary names apart, and the next command comes back.  An installation for a repository
    that succeeds leaves the pre-push hook with its exact script, executable, and in
    the place of each gc hook ours or the file that was there before. *)
Theorem user_hooks_kept (cs : list command) (m : Machine) (m1 := run_history cs m) : honest m →
  keeps m m1 ∧ (∀ c, returned (run_command c m1).1) ∧
  ∀ repo, match install Local repo m1 with (Ok _, m2) => hooks_in_place repo m1 m2 | _ => True end.
Proof.
  intros Hm. pose proof (commands_keep cs m Hm) as Hk. fold m1 in Hk. assert (Hm1 : honest m1) by apply Hk. split_and!; [done| |].
  - intros c. pose proof (safe_command c m1 Hm1) as H. unfold wps in H. by destruct (run_command c m1) as [[?|?| |] ?].
  - intros repo. pose proof (install_local_hooks repo m1 Hm1) as H. unfold wps in H. by destruct (install Local repo m1) as [[?|?| |] ?].
Qed.
End install.
