(* ===== verification/InstallToy.v ===== *)
(** * An installation at work

    A repository with a hook of its own, and the witness of the theorem of
    [InstallSpec]. *)

From stdpp Require Import gmap list.
From S2P Require Import Prelude RustStd RustText Config PathFacts Install InstallSpec.

(** The repository is found from below [/r]; nothing is configured, or a relative directory. *)
Definition toy_surroundings (hooks_path : option str) : Surroundings := {|
  run_git _ _ := Ok (mkGitOutput true (Some 0) []);
  current_dir := Some (lit "/r/sub");
  discover d := if starts_with d (lit "/r") then Ok (lit "/r/.git", λ k, if decide (k = lit "core.hooksPath") then hooks_path else None)
                else Err (lit "not a repository");
  pid := 7;
|}.
#[export] Instance plain_surroundings : Surroundings := toy_surroundings None.

Definition own_hook : HookFile := mkHook (lit "#!/bin/sh" ++ [x0a] ++ lit "make check") HOOK_MODE.
Definition toy_machine : Machine := mkMachine {[lit "/r/.git/hooks/post-commit" := own_hook]} [] [] [].
Definition toy_commands : list command := [CInstall Local None; CUninstallAll None; CInitLocal (Some (lit "/r")) (lit "/s") true].

Lemma user_hooks_kept_witness :
  let m1 := run_history toy_commands toy_machine in
  files m1 !! lit "/r/.git/hooks/post-commit" = Some own_hook ∧
  match install Local None m1 with
  | (Ok _, m2) => files m2 !! lit "/r/.git/hooks/pre-push" = Some (mkHook (hook_body PRE_PUSH_COMMAND PRE_PUSH_DESCRIPTION) HOOK_MODE) ∧
      length (git_calls m2) = 15%nat
  | _ => False
  end.
Proof.
  assert (Hg : ∀ h c, returned (run_git h c)) by done.
  assert (Hd : ∀ d, returned (discover d)) by (intros d; unfold discover, plain_surroundings, toy_surroundings; by destruct (starts_with d (lit "/r"))).
  assert (Hp : 0 ≤ pid) by (vm_compute; discriminate).
  destruct (user_hooks_kept Hp Hg Hd toy_commands toy_machine) as (Hk & _ & Hi); [by constructor|].
  cbv zeta. set (m1 := run_history toy_commands toy_machine) in *. split.
  - apply (proj2 Hk (lit "/r/.git/hooks/post-commit") own_hook); [by vm_compute|by vm_compute|].
    apply (not_tmp Hp Hg Hd (lit "/r/.git/hooks") (lit "post-commit")); by_lit.
  - assert (match install Local None m1 with (Ok _, m2) => length (git_calls m2) = 15%nat | _ => False end) as Hrun by by vm_compute.
    specialize (Hi None). destruct (install Local None m1) as [[u|e| |] m2]; try done. destruct Hi as (root & Hroot & Hpre & _).
    split; [|exact Hrun]. specialize (Hroot (lit "pre-push")). assert (join root (lit "pre-push") = lit "/r/.git/hooks/pre-push") as Heq.
    { transitivity (match resolve_hook_path None (lit "pre-push") with Ok p => p | _ => [] end); [by rewrite Hroot|by vm_compute]. }
    by rewrite <-Heq.
Defined.

(** An existence check that fails counts as no hook: the user's is replaced. *)
Example failed_check_replaces_hook :
  files (install_managed_hook None (lit "post-commit") GC_COMMAND GC_DESCRIPTION SkipConflict
    (mkMachine {[lit "/r/.git/hooks/post-commit" := own_hook]} [] [true] [])).2 !! lit "/r/.git/hooks/post-commit" =
  Some (mkHook (hook_body GC_COMMAND GC_DESCRIPTION) HOOK_MODE).
Proof. by vm_compute. Qed.

(** A relative [core.hooksPath] is taken relative to the working directory, not to the repository. *)
Example relative_hooks_path : resolve_hook_path (W := toy_surroundings (Some (lit ".githooks"))) (Some (lit "/r")) (lit "pre-push") = Ok (lit ".githooks/pre-push").
Proof. by vm_compute. Qed.
