(* ===== verification/Cli.v ===== *)
(** * The command line of the client

    [crates/git-bale/src/main.rs]: the commands with their parsed arguments, and
    what each does.  A command that another module carries out entirely ends in
    the call of that module.  The directories of the process, git and the
    repository are those of [Install]; the stores and their registries those of
    [Prune]; the file of [Track] is the one of the working directory. *)

From stdpp Require Import gmap list.
From S2P Require Import Prelude RustStd Pktline CleanCache Config Repo Gc Prune Install Track.

(** ** The arguments *)

Record InstallArgs := mkInstallArgs { ia_system : bool; ia_local : bool; ia_path : option str }.
Record UninstallArgs := mkUninstallArgs { ua_all : bool; ua_system : bool; ua_local : bool; ua_path : option str }.
Record PushPendingArgs := mkPushPendingArgs { pp_remote_name : option str; pp_remote_url : option str }.
Record TrackArgs := mkTrackArgs { patterns : list str }.
Record MountDiffCliArgs := mkMountDiffCliArgs {
  md_rev_a : str; md_rev_b : str; md_mount : str; md_label_a : option str; md_label_b : option str; md_paths : list str }.
Record MountCliArgs := mkMountCliArgs { mc_rev : str; mc_mount : str; mc_paths : list str }.
Record InitLocalArgs := mkInitLocalArgs { il_store : option str; il_shared : bool }.
Record PruneArgs := mkPruneArgs { pr_shared : bool; pr_force : bool }.

Inductive Command :=
  | Install (a : InstallArgs)
  | Uninstall (a : UninstallArgs)
  | Track (a : TrackArgs)
  | FilterProcess
  | PushPending (a : PushPendingArgs)
  | Gc
  | MountDiff (a : MountDiffCliArgs)
  | Mount (a : MountCliArgs)
  | InitLocal (a : InitLocalArgs)
  | Prune (a : PruneArgs).
Record Cli := mkCli { verbose : Z; command : Command }.

(** The last call of a command, in another module. *)
Inductive Call :=
  | RunFilterProcess
  | RunPushPending (remote_name remote_url : option str)
  | RunGc
  | RunMountDiff (rev_a rev_b mount_point : str) (label_a label_b : option str) (paths : list str)
  | RunMountRev (rev mount_point : str) (paths : list str).

(** ** The process *)

Section main.
Context {W : Surroundings} {C : Crates} {G : GitObjects} {S : LocalSessions}.

Record Client := mkClient {
  installing : Install.Machine;
  tracking : Attributes;
  sharing : Prune.Machine;
  warned : list str;
  xet_cache : option str;
  log_filter : option str;
}.
Definition set_installing x c := mkClient x (tracking c) (sharing c) (warned c) (xet_cache c) (log_filter c).
Definition set_tracking x c := mkClient (installing c) x (sharing c) (warned c) (xet_cache c) (log_filter c).
Definition set_sharing x c := mkClient (installing c) (tracking c) x (warned c) (xet_cache c) (log_filter c).
Definition set_warned x c := mkClient (installing c) (tracking c) (sharing c) x (xet_cache c) (log_filter c).
Definition set_startup x y c := mkClient (installing c) (tracking c) (sharing c) (warned c) x y.

Variable env : str → option str.
(** What other processes do to a store while it is pruned. *)
Variable others : Store → Store.
Abbreviation CLI := (ST Client str).

Definition on_install {A} (m : ST Install.Machine str A) : CLI A := zoom installing set_installing m.
Definition on_attributes {A} (m : ST Attributes str A) : CLI A := zoom tracking set_tracking m.
Definition on_stores {A} (m : ST Prune.Machine str A) : CLI A := zoom sharing set_sharing m.
Definition say (l : str) : CLI unit := on_attributes (println l).
Definition warn (l : str) : CLI unit := modify (λ c, set_warned (warned c ++ [l]) c).

(** What [RawConfig::load] sees from a directory. *)
Definition sources_at (dir : str) : Sources :=
  mkSources env (match discover dir with Ok r => Some r | _ => None end).
Definition working_dir : outcome str str := ok_or (lit "No such file or directory (os error 2)") current_dir.

Definition log_level (verbose : Z) : str :=
  if verbose =? 0 then lit "info" else if verbose =? 1 then lit "debug" else lit "trace".
(** [RUST_LOG], when it can be parsed, else the level asked for. *)
Definition env_filter (from_env : option str) (verbose : Z) : str :=
  match from_env with Some f => f | None => lit "git_bale=" ++ log_level verbose end.

Definition choose_scope (system local : bool) : CLI InstallScope :=
  _ ← (if system && local then warn (lit "warning: --system and --local both set; using --local") else mret tt);
  mret (pick_scope system local).

Definition run_install (a : InstallArgs) : CLI unit :=
  scope ← choose_scope (ia_system a) (ia_local a);
  _ ← on_install (install scope (ia_path a));
  say (lit "git-bale installed (" ++ describe_scope scope ++ lit ")").

Definition run_uninstall (a : UninstallArgs) : CLI unit :=
  if ua_all a then
    _ ← on_install (uninstall_all (ua_path a));
    say (lit "git-bale uninstalled from all scopes")
  else
    scope ← choose_scope (ua_system a) (ua_local a);
    _ ← on_install (uninstall scope (ua_path a));
    say (lit "git-bale uninstalled (" ++ describe_scope scope ++ lit ")").

Definition run_track (a : TrackArgs) : CLI unit :=
  match patterns a with
  | [] => throw (lit "no patterns given; e.g. `git-bale track '*.bin'`")
  | _ => _ ← lift working_dir; on_attributes (track (patterns a))
  end.

Definition repo_git_dir (cwd : str) : outcome str str :=
  r ← map_err (λ e, lit "opening repo at " ++ cwd ++ lit ": " ++ e) (discover cwd); mret r.1.

Definition run_init_local (a : InitLocalArgs) : CLI unit :=
  cwd ← lift working_dir;
  store ← lift (resolve_init_store (sources_at cwd) cwd (il_store a) (il_shared a));
  _ ← on_install (init_local (Some cwd) store (il_shared a));
  _ ← (if il_shared a then git_dir ← lift (repo_git_dir cwd); on_stores (register_repo store git_dir) else mret tt);
  say (lit "git-bale local mode enabled (store: " ++ store ++ (if il_shared a then lit ", shared" else []) ++ lit ")").

Definition run_prune (a : PruneArgs) : CLI unit :=
  if negb (pr_shared a) then throw (lit "`git-bale prune` currently only supports --shared")
  else
    cwd ← lift working_dir;
    on_stores (prune others (pr_force a) pid (RawConfig_load (sources_at cwd))).

(** [rust_log]: the filter that the environment asks for. *)
Definition main (rust_log : option str) (cli : Cli) : CLI (option Call) :=
  _ ← modify (λ c, set_startup (set_default_xet_cache_root (mkSources env None)) (Some (env_filter rust_log (verbose cli))) c);
  match command cli with
  | Install a => _ ← run_install a; mret None
  | Uninstall a => _ ← run_uninstall a; mret None
  | Track a => _ ← run_track a; mret None
  | FilterProcess => mret (Some RunFilterProcess)
  | PushPending a => mret (Some (RunPushPending (pp_remote_name a) (pp_remote_url a)))
  | Gc => mret (Some RunGc)
  | MountDiff a => mret (Some (RunMountDiff (md_rev_a a) (md_rev_b a) (md_mount a) (md_label_a a) (md_label_b a) (md_paths a)))
  | Mount a => mret (Some (RunMountRev (mc_rev a) (mc_mount a) (mc_paths a)))
  | InitLocal a => _ ← run_init_local a; mret None
  | Prune a => _ ← run_prune a; mret None
  end.
End main.
