(* ===== verification/CliSpec.v ===== *)
(** * Local mode is switched on

    After [init-local] succeeds, the configuration that the other commands load is
    the one they loaded before with local mode on and the store set; the hooks are
    in place; and a shared store has the repository in its registry, where [Prune]
    finds it. *)

From stdpp Require Import gmap list.
From S2P Require Import Prelude RustStd RustText Pktline CleanCache Config PathFacts Repo Gc Prune PruneSpec Install InstallSpec Track Cli.

(** ** Absolute paths have their start *)

Lemma whitespace_len_slash s : whitespace_len (x2f :: s) = O.
Proof. done. Qed.
(** What trimming the end leaves still ends (reversed) in a slash. *)
Lemma trim_end_slash fuel : ∀ r, ∃ r', trim_end_fuel fuel (r ++ [x2f]) = r' ++ [x2f].
Proof.
  induction fuel as [|fuel IH]; intros r; [by exists r|]. cbn [trim_end_fuel].
  assert (Hlt : ∀ n, (n ≤ length r)%nat → ∃ r', trim_end_fuel fuel (drop n (r ++ [x2f])) = r' ++ [x2f]).
  { intros n Hn. rewrite drop_app_le by done. apply IH. }
  unfold whitespace_len_rev.
  destruct r as [|a [|b [|c r]]]; cbn [app take rev]; rewrite ?whitespace_len_slash;
    repeat case_decide; try (exfalso; done); try (by eexists; rewrite app_comm_cons || by exists []);
    try (apply Hlt; cbn [length]; lia).
  all: try (by exists []); try (by exists [a]); try (by exists [a; b]); try (by exists (a :: b :: c :: r)).
Qed.
Lemma trim_absolute p : is_absolute p = true → is_absolute (trim p) = true.
Proof.
  intros Hp. unfold is_absolute in *. apply starts_with_spec in Hp as [t ->]. change (lit "/" ++ t) with (x2f :: t).
  unfold trim, trim_start. cbn [length trim_start_fuel]. rewrite whitespace_len_slash. unfold trim_end. cbn [rev].
  destruct (trim_end_slash (length (x2f :: t)) (rev t)) as [r' ->]. rewrite rev_app_distr. done.
Qed.
Lemma absolute_cons p : is_absolute p = true → ∃ t, p = x2f :: t.
Proof. intros Hp. apply starts_with_spec in Hp as [t ->]. by exists t. Qed.
Lemma absolute_join a b : is_absolute a = true → is_absolute (join a b) = true.
Proof.
  intros Ha. unfold join. destruct (is_absolute b) eqn:Hb; [done|]. apply absolute_cons in Ha as [t ->].
  destruct (last _) as [c|] eqn:Hl; [|by destruct t using rev_ind; rewrite ?app_comm_cons, ?last_snoc in Hl].
  by case_decide.
Qed.
Lemma expand_tilde_absolute s p : is_absolute p = true → expand_tilde s p = p.
Proof. intros [t ->]%absolute_cons. done. Qed.

(** ** The configuration before and after *)

Definition bale_keys : list str := [lit "bale.local"; lit "bale.localStore"; lit "bale.localShared"].
Definition filter_keys : list str := [SECTION ++ lit ".process"; SECTION ++ lit ".required"].

(** [after] answers as [before] does but for local mode. *)
Record local_mode_set (store : str) (shared : bool) (before after : str → option str) : Prop := {
  set_on : after (lit "bale.local") = Some (lit "true");
  set_store : after (lit "bale.localStore") = Some store;
  set_shared : after (lit "bale.localShared") = if shared then Some (lit "true") else before (lit "bale.localShared");
  set_others : ∀ k, to_ascii_lowercase k ∉ to_ascii_lowercase <$> (filter_keys ++ bale_keys) → after k = before k;
}.

(** No variable of the environment speaks of local mode. *)
Definition env_silent (env : str → option str) : Prop :=
  Forall (λ k, match env k with Some (_ :: _) => False | _ => True end) [lit "BALE_LOCAL"; lit "BALE_LOCAL_STORE"; lit "BALE_LOCAL_SHARED"].

(** The configuration that was loaded, with local mode on. *)
Definition switched_on (store : str) (shared : bool) (raw : RawConfig) : RawConfig :=
  mkRawConfig (server_url raw) (token raw) (token_expiration raw) (cache_dir raw) (git_dir raw)
    true (Some store) (shared || local_shared raw) (ssh_command raw).

Lemma silent_nonempty s k : match env_var s k with Some (_ :: _) => False | _ => True end → env_nonempty s k = None.
Proof. unfold env_nonempty. by destruct (env_var s k) as [[|]|]. Qed.

Section load.
Context (env : str → option str) (gd store : str) (shared : bool) (before after : str → option str).
Context (Hset : local_mode_set store shared before after) (Henv : env_silent env) (Habs : is_absolute store = true).
#[local] Set Default Proof Using "All".
Let s0 := mkSources env (Some (gd, before)).
Let s1 := mkSources env (Some (gd, after)).
Lemma snapshot_after : snapshot s1 = Some after.
Proof. done. Qed.
Lemma snapshot_before : snapshot s0 = Some before.
Proof. done. Qed.

Lemma same_key env_key key : to_ascii_lowercase (lit key) ∉ to_ascii_lowercase <$> (filter_keys ++ bale_keys) → env_or_cfg s1 env_key key = env_or_cfg s0 env_key key.
Proof. intros Hk. unfold env_or_cfg. rewrite snapshot_after, snapshot_before. cbn [mbind option_bind]. by rewrite (set_others _ _ _ _ Hset). Qed.
Lemma same_cache_dir : resolve_cache_dir s1 = resolve_cache_dir s0.
Proof. unfold resolve_cache_dir. rewrite snapshot_after, snapshot_before. cbn [mbind option_bind]. by rewrite (set_others _ _ _ _ Hset (lit "bale.cacheDir")) by by_lit. Qed.
Lemma local_is_on : bool_from s1 "BALE_LOCAL" "bale.local" = true.
Proof.
  pose proof Henv as [Hl _]%Forall_cons. unfold bool_from, env_or_cfg. rewrite silent_nonempty by done.
  rewrite snapshot_after. cbn [mbind option_bind]. by rewrite (set_on _ _ _ _ Hset).
Qed.
Lemma shared_is_on : bool_from s1 "BALE_LOCAL_SHARED" "bale.localShared" = shared || bool_from s0 "BALE_LOCAL_SHARED" "bale.localShared".
Proof.
  pose proof Henv as [_ [_ [Hl _]%Forall_cons]%Forall_cons]%Forall_cons. unfold bool_from, env_or_cfg. rewrite !silent_nonempty by done.
  rewrite snapshot_after, snapshot_before. cbn [mbind option_bind]. rewrite (set_shared _ _ _ _ Hset). by destruct shared.
Qed.
Lemma store_is_set : expand_tilde s1 <$> env_or_cfg s1 "BALE_LOCAL_STORE" "bale.localStore" = Some (trim store).
Proof.
  pose proof Henv as [_ [Hl _]%Forall_cons]%Forall_cons. unfold env_or_cfg. rewrite silent_nonempty by done.
  rewrite snapshot_after. cbn [mbind option_bind]. rewrite (set_store _ _ _ _ Hset). cbn [mbind option_bind]. pose proof (trim_absolute _ Habs) as Ht.
  destruct (absolute_cons _ Ht) as [t Heq]. rewrite Heq. change (Some (expand_tilde s1 (x2f :: t)) = Some (x2f :: t)). by rewrite expand_tilde_absolute.
Qed.

Lemma load_switched_on : RawConfig_load s1 = switched_on (trim store) shared <$> RawConfig_load s0.
Proof.
  unfold RawConfig_load. rewrite store_is_set, same_cache_dir, local_is_on, shared_is_on, !same_key by by_lit.
  set (te := match env_or_cfg s0 "BALE_TOKEN_EXPIRATION" _ with Some v => _ | None => _ end).
  destruct te as [t|e| |]; try done. cbn. by destruct (resolve_cache_dir s0).
Qed.
End load.

(** ** What git stores *)

Definition config_call (cwd k v : str) : GitCall := mkGitCall (Some cwd) [lit "config"; lit "--local"; k; v].
(** The configuration of the repository at [cwd] after some calls of git: a value
    that git accepted is what the key reads as (nothing of a higher precedence
    sets it), and keys are told apart without regard to case. *)
Class GitConfig {W : Surroundings} (cwd : str) := {
  config_after : list GitCall → str → option str;
  config_stored h k v out : run_git h (config_call cwd k v) = Ok out → success out = true →
    config_after (h ++ [config_call cwd k v]) k = Some v;
  config_frame h k v k' : to_ascii_lowercase k ≠ to_ascii_lowercase k' →
    config_after (h ++ [config_call cwd k v]) k' = config_after h k';
}.

Section set.
Context {W : Surroundings} (cwd : str).
Abbreviation I := (ST Install.Machine str).

(** [m] does not run git. *)
Definition silent {A} (m : I A) : Prop := ∀ s, git_calls (m s).2 = git_calls s.
Lemma silent_bind {A B} (m : I A) (k : A → I B) : silent m → (∀ a, silent (k a)) → silent (m ≫= k).
Proof. intros Hm Hk s. specialize (Hm s). unfold mbind, ST_bind. destruct (m s) as [[a|e| |] s1]; try done. cbn in Hm. by rewrite Hk. Qed.
Lemma silent_map_err {A} f (m : I A) : silent m → silent (st_map_err f m).
Proof. intros Hm s. specialize (Hm s). unfold st_map_err. by destruct (m s) as [[a|e| |] s1]. Qed.
Lemma silent_io {A} (f : Install.Machine → outcome str A * Install.Machine) part : silent f → (∀ n s, git_calls (part n s) = git_calls s) → silent (io f part).
Proof. intros Hf Hp s. unfold io. destruct (default None _) as [[e n]|]; cbn; [by rewrite Hp|by rewrite Hf]. Qed.
Lemma silent_io_ok f : (∀ s, git_calls (f s) = git_calls s) → silent (io_ok f).
Proof. intros Hf. by apply silent_io; [|done]. Qed.
Lemma silent_lift {A} (o : outcome str A) : silent (lift o).
Proof. done. Qed.
Lemma silent_ret {A} (a : A) : silent (mret a).
Proof. done. Qed.
Lemma silent_throw {A} e : silent (throw (A:=A) e).
Proof. done. Qed.
Lemma silent_exists p : silent (path_exists p).
Proof. done. Qed.
Lemma silent_read p : silent (read_to_string p).
Proof. apply silent_io; done. Qed.
Lemma silent_or_empty m : silent m → silent (or_empty m).
Proof. intros Hm s. specialize (Hm s). unfold or_empty. by destruct (m s) as [[a|e| |] s1]. Qed.
Lemma silent_each {A} (f : A → I unit) l : (∀ x, silent (f x)) → silent (for_each f l).
Proof. intros Hf. induction l as [|x l IH]; [done|]. by apply silent_bind. Qed.
Create HintDb silent.
#[local] Hint Resolve silent_lift silent_ret silent_throw silent_exists silent_read silent_or_empty : silent.
Ltac silent := repeat first [solve [auto with silent] | apply silent_map_err | apply silent_io_ok; intros ?; done | apply silent_bind; [|intros ?] | case_match].

Lemma silent_write p b : silent (write_atomic p b).
Proof.
  unfold write_atomic. silent; apply silent_io; try done. intros s. by destruct (files s !! _).
Qed.
Lemma silent_chmod p : silent (chmod_hook p).
Proof. unfold chmod_hook. silent. apply silent_io; [|done]. intros s. by destruct (files s !! _). Qed.
#[local] Hint Resolve silent_write silent_chmod : silent.
Lemma silent_hook repo n command description c : silent (install_managed_hook repo n command description c).
Proof. unfold install_managed_hook, in_context. silent. Qed.

Lemma set_key_Ok k v s u s' : set_key Local (Some cwd) k v s = (Ok u, s') →
  ∃ out, run_git (git_calls s) (config_call cwd k v) = Ok out ∧ success out = true ∧
    s' = mkMachine (files s) (git_calls s ++ [config_call cwd k v]) (stat_faults s) (io_faults s).
Proof.
  unfold set_key. intros H. inv_ok. rename x into out. destruct (success out) eqn:Hs; [|by inv_ok]. inv_ok.
  unfold run_git_config in *. destruct (run_git _ _) eqn:Hr; simplify_eq/=. eexists. split; [done|]. done.
Qed.

Context {V : GitConfig cwd} (V_returns : ∀ h c, returned (run_git h c)) (V_finds : ∀ d, returned (discover d)) (V_pid : 0 ≤ pid).
#[local] Set Default Proof Using "All".

(** One key was set. *)
Definition sets (k v : str) (h h' : list GitCall) : Prop :=
  config_after h' k = Some v ∧ ∀ k', to_ascii_lowercase k ≠ to_ascii_lowercase k' → config_after h' k' = config_after h k'.
Lemma set_key_sets k v s u s' : set_key Local (Some cwd) k v s = (Ok u, s') →
  sets k v (git_calls s) (git_calls s') ∧ files s' = files s ∧ stat_faults s' = stat_faults s.
Proof.
  intros (out & Hr & Hs & ->)%set_key_Ok. split; [|done]. split; [by eapply config_stored|]. intros k' Hk. by apply config_frame.
Qed.

Lemma sets_local_mode store (shared : bool) h0 h1 h2 h3 h4 h5 :
  sets (SECTION ++ lit ".process") PROCESS_VALUE h0 h1 → sets (SECTION ++ lit ".required") (lit "true") h1 h2 →
  sets (lit "bale.local") (lit "true") h2 h3 → sets (lit "bale.localStore") store h3 h4 →
  (if shared then sets (lit "bale.localShared") (lit "true") h4 h5 else h5 = h4) →
  local_mode_set store shared (config_after h0) (config_after h5).
Proof.
  intros [_ F1] [_ F2] [S3 F3] [S4 F4] H5.
  assert (Hframe : ∀ k, to_ascii_lowercase (lit "bale.localShared") ≠ to_ascii_lowercase k → config_after h5 k = config_after h4 k).
  { intros k Hk. destruct shared; [by apply H5|by subst]. }
  split.
  - rewrite Hframe, F4 by by_lit. done.
  - by rewrite Hframe by by_lit.
  - destruct shared; [apply H5|]. subst h5. by rewrite F4, F3, F2, F1 by by_lit.
  - intros k Hk. rewrite Hframe, F4, F3, F2, F1; [done|..]; intros Heq; apply Hk; rewrite <-Heq; by_lit.
Qed.

(** The hooks of [init_local]. *)
Definition gc_hooks_in_place (s s' : Install.Machine) : Prop := ∃ root,
  ∀ h, h ∈ GC_HOOKS → resolve_hook_path (Some cwd) h = Ok (join root h) ∧ installed (join root h) GC_COMMAND LOCAL_GC_DESCRIPTION SkipConflict s s'.

Lemma gc_hooks_installed s u s' : honest s →
  for_each (λ hook, install_managed_hook (Some cwd) hook GC_COMMAND LOCAL_GC_DESCRIPTION SkipConflict) GC_HOOKS s = (Ok u, s') → gc_hooks_in_place s s'.
Proof.
  intros Hs Hrun. assert (is_ok (resolve_hook_path (Some cwd) (lit "post-checkout")) = true) as Hok.
  { unfold GC_HOOKS in Hrun. cbn [for_each] in Hrun. apply ST_bind_Ok in Hrun as (? & ? & Hh & _).
    unfold install_managed_hook in Hh. apply ST_bind_Ok in Hh as (p & s1 & Hl & _). unfold lift in Hl. by injection Hl as -> _. }
  destruct (resolve_hook_path _ _) as [p|e| |] eqn:Hp; try done. destruct (resolve_join _ _ _ Hp) as (root & _ & Hroot).
  destruct gc_hooks_plain as [Hnd Hpl]. pose proof (wps_install_each V_pid V_returns V_finds (Some cwd) root GC_COMMAND LOCAL_GC_DESCRIPTION GC_HOOKS Hnd Hpl Hroot s Hs) as Hw.
  unfold wps in Hw. rewrite Hrun in Hw. destruct Hw as (_ & _ & Hall). exists root. intros h Hh. split; [done|by apply Hall].
Qed.

Lemma init_local_sets store shared s u s' : honest s → init_local (Some cwd) store shared s = (Ok u, s') →
  local_mode_set store shared (config_after (git_calls s)) (config_after (git_calls s')) ∧ gc_hooks_in_place s s'.
Proof.
  intros Hs Hrun. unfold init_local, set_config, set_bale_config in Hrun. apply ST_bind_Ok in Hrun as ([] & s1 & (S1 & F1 & T1)%set_key_sets & Hrun).
  apply ST_bind_Ok in Hrun as ([] & s2 & (S2 & F2 & T2)%set_key_sets & Hrun).
  apply ST_bind_Ok in Hrun as ([] & s3 & (S3 & F3 & T3)%set_key_sets & Hrun).
  apply ST_bind_Ok in Hrun as ([] & s4 & (S4 & F4 & T4)%set_key_sets & Hrun).
  apply ST_bind_Ok in Hrun as ([] & s5 & H5 & Hrun).
  assert ((if shared then sets (lit "bale.localShared") (lit "true") (git_calls s4) (git_calls s5) else git_calls s5 = git_calls s4) ∧
    files s5 = files s4 ∧ stat_faults s5 = stat_faults s4) as (S5 & F5 & T5).
  { destruct shared; [by apply set_key_sets in H5|]. by inv_ok. }
  split.
  - pose proof (silent_each _ GC_HOOKS (λ h, silent_hook (Some cwd) h GC_COMMAND LOCAL_GC_DESCRIPTION SkipConflict) s5) as Hq.
    rewrite Hrun in Hq. cbn in Hq. rewrite Hq. eapply sets_local_mode; [exact S1|exact S2|exact S3|exact S4|exact S5].
  - apply gc_hooks_installed in Hrun; [|unfold honest; by rewrite T5, T4, T3, T2, T1]. unfold gc_hooks_in_place, installed in *.
    by setoid_rewrite F5 in Hrun; setoid_rewrite F4 in Hrun; setoid_rewrite F3 in Hrun; setoid_rewrite F2 in Hrun; setoid_rewrite F1 in Hrun.
Qed.
End set.

(** ** The store and its registry *)

Lemma expand_home s : expand_tilde s (lit "~") = default (lit "~") (home_dir s).
Proof. unfold expand_tilde. by destruct (home_dir s). Qed.
Lemma init_store_absolute s cwd explicit shared store : is_absolute cwd = true →
  (∀ h, env_nonempty s (lit "HOME") = Some h → is_absolute h = true) → (∀ gd, fst <$> git_repo s = Some gd → is_absolute gd = true) →
  resolve_init_store s cwd explicit shared = Ok store → is_absolute store = true.
Proof.
  intros Hcwd Hhome Hgd. unfold resolve_init_store. destruct explicit as [p|]; [|destruct shared].
  - intros [= <-]. unfold absolutize. destruct (is_absolute (expand_tilde s p)) eqn:Ha; [done|]. by apply absolute_join.
  - case_decide as Ht; [done|]. intros [= <-]. apply absolute_join. rewrite expand_home in *. unfold home_dir in *.
    destruct (env_nonempty s (lit "HOME")) as [h|]; [by apply Hhome|by destruct Ht].
  - destruct (fst <$> git_repo s) as [gd|]; [|done]. cbn. intros [= <-]. unfold default_local_store. by do 2 apply absolute_join; apply Hgd.
Qed.

Section registry.
Context {C : Crates} {G : GitObjects} {S : LocalSessions}.
(** Canonical paths are absolute, and the key of a path is a plain name. *)
Context (canonical : ∀ p abs, canonicalize p = Some abs → is_absolute abs = true ∧ utf8_valid abs = true ∧ starts_with (path_key abs) (lit ".") = false).
#[local] Set Default Proof Using "All".

Definition registry_entry (m : Prune.Machine) (store name : str) : option bytes := s ← stores m !! store; registry_file s name.
(** The repository is registered with the store, and nothing else changed there. *)
Definition newly_registered (git_dir store : str) (m m' : Prune.Machine) : Prop := ∃ abs s,
  canonicalize git_dir = Some abs ∧ stores m' !! store = Some s ∧ registered_in s (trim abs) ∧
  st_objects s = default ∅ (st_objects <$> stores m !! store) ∧
  (∀ name, name ≠ path_key abs → registry_entry m' store name = registry_entry m store name) ∧
  (∀ p, p ≠ store → stores m' !! p = stores m !! p) ∧ gits m' = gits m.

Lemma mcall_Ok {A} (f : Prune.Machine → outcome str A * Prune.Machine) m a m' : mcall f m = (Ok a, m') → f (m_pop m) = (Ok a, m').
Proof using Type. unfold mcall. by destruct (default None _). Qed.
Lemma because_Ok {A} c (p : ST Prune.Machine str A) m a m' : because c p m = (Ok a, m') → p m = (Ok a, m').
Proof using Type. unfold because, st_map_err. destruct (p m) as [[b|e| |] m1]; try done. Qed.

Lemma register_repo_registers git_dir store m u m' : register_repo store git_dir m = (Ok u, m') → newly_registered git_dir store m m'.
Proof.
  unfold register_repo. intros Hrun. inv_ok. repeat match goal with
  | H : because _ _ _ = (Ok _, _) |- _ => apply because_Ok in H
  | H : mwrite _ _ = (Ok _, _) |- _ => apply mcall_Ok in H; injection H as <- <-
  | H : create_registry _ _ = (Ok _, _) |- _ => unfold create_registry in H
  | H : mcall _ _ = (Ok _, _) |- _ => apply mcall_Ok in H
  end.
  destruct (canonicalize git_dir) as [a|] eqn:Hc; simplify_eq/=. match type of Hc with _ = Some ?a => rename a into abs end.
  destruct (canonical _ _ Hc) as (Habs & Hutf & Hkey).
  eexists abs, _. split; [done|]. split; [by cbn; rewrite lookup_alter_eq, lookup_insert_eq|]. split_and!.
  - exists (path_key abs), abs. split_and!; [by cbn; rewrite lookup_insert_eq|done..|].
    apply trim_absolute, absolute_cons in Habs as [t ->]. done.
  - cbn. by destruct (stores m !! store).
  - intros name Hn. unfold registry_entry. cbn. rewrite lookup_alter_eq, lookup_insert_eq. cbn. rewrite lookup_insert_ne by done.
    destruct (stores m !! store) as [s|]; cbn; [|done]. unfold registry_file. by destruct (st_registry s).
  - intros p Hp. cbn. by rewrite lookup_alter_ne, lookup_insert_ne.
  - done.
Qed.
End registry.

(** ** The command *)

Section command.
Context {W : Surroundings} {C : Crates} {G : GitObjects} {S : LocalSessions}.
Context (env : str → option str) (others : Store → Store) (cwd git_dir : str) {V : GitConfig cwd}.
Context (V_returns : ∀ h c, returned (run_git h c)) (V_finds : ∀ d, returned (discover d)) (V_pid : 0 ≤ pid).
Context (canonical : ∀ p abs, canonicalize p = Some abs → is_absolute abs = true ∧ utf8_valid abs = true ∧ starts_with (path_key abs) (lit ".") = false).
#[local] Set Default Proof Using "All".

(** The process is in a repository, with absolute paths, and its environment leaves local mode to git. *)
Record in_repository (c : Client) : Prop := {
  in_cwd : current_dir = Some cwd;
  in_git : discover cwd = Ok (git_dir, config_after (git_calls (installing c)));
  in_absolute : is_absolute cwd = true ∧ is_absolute git_dir = true ∧ ∀ h, env (lit "HOME") = Some h → h ≠ [] → is_absolute h = true;
  in_silent : env_silent env;
  in_honest : honest (installing c);
}.

Lemma zoom_Ok {X T A} (proj : T → X) upd (m : ST X str A) t a t' : zoom proj upd m t = (Ok a, t') → ∃ x', m (proj t) = (Ok a, x') ∧ t' = upd x' t.
Proof using Type. unfold zoom. destruct (m (proj t)) as [o x']. intros [= -> <-]. eauto. Qed.

(** C26. What [git-bale init-local] promises.  When it succeeds, a command that
    afterwards loads its configuration in the repository gets what it got before,
    its error included, with local mode on and the objects in the store that the
    options name (without white space around its name), shared if the option says
    so or it was so before; the hooks that reclaim objects are in place, ours or
    the user's own; and a shared store, with its objects and other registrations
    as they were, has the repository in the registry that a prune reads. *)
Theorem init_local_takes_effect (rust_log : option str) (verbose : Z) (a : InitLocalArgs) (c c' : Client) (r : option Call) :
  in_repository c → main env others rust_log (mkCli verbose (InitLocal a)) c = (Ok r, c') →
  ∃ store, resolve_init_store (sources_at env cwd) cwd (il_store a) (il_shared a) = Ok store ∧
    RawConfig_load (mkSources env (Some (git_dir, config_after (git_calls (installing c'))))) =
      switched_on (trim store) (il_shared a) <$> RawConfig_load (sources_at env cwd) ∧
    gc_hooks_in_place cwd (installing c) (installing c') ∧
    if il_shared a then newly_registered git_dir store (sharing c) (sharing c') else sharing c' = sharing c.
Proof.
  intros [Hcwd Hgit (Hcabs & Hgabs & Hhome) Hsilent Hhonest] Hrun. unfold main in Hrun.
  apply ST_bind_Ok in Hrun as ([] & c1 & H1 & Hrun). unfold modify in H1. injection H1 as <-. cbn [command] in Hrun.
  apply ST_bind_Ok in Hrun as ([] & c2 & H2 & Hrun). injection Hrun as _ <-. unfold run_init_local, working_dir in H2. rewrite Hcwd in H2.
  apply ST_bind_Ok in H2 as (d & c3 & H3 & H2). injection H3 as <- <-. apply ST_bind_Ok in H2 as (store & c4 & H4 & H2).
  unfold lift in H4. injection H4 as Hstore <-. exists store. split; [done|].
  apply ST_bind_Ok in H2 as ([] & c5 & (s' & Hinit & ->)%zoom_Ok & H2).
  destruct (init_local_sets cwd V_returns V_finds V_pid store (il_shared a) _ _ _ Hhonest Hinit) as [Hset Hhooks].
  assert (Habs : is_absolute store = true).
  { eapply (init_store_absolute (sources_at env cwd)); [exact Hcabs| | |exact Hstore]; unfold sources_at; rewrite Hgit.
    - intros h Hh. unfold env_nonempty in Hh. cbn [env_var] in Hh. destruct (env (lit "HOME")) as [[|x h']|] eqn:He; try done.
      injection Hh as <-. by apply Hhome.
    - by intros gd [= <-]. }
  apply ST_bind_Ok in H2 as ([] & c6 & Hreg & H2). apply zoom_Ok in H2 as (t & _ & ->). cbn in Hset.
  assert (installing c6 = s' ∧ if il_shared a then newly_registered git_dir store (sharing c) (sharing c6) else sharing c6 = sharing c) as [Hi Hs].
  { destruct (il_shared a); [|by injection Hreg as <-]. apply ST_bind_Ok in Hreg as (gd & c7 & H7 & Hreg). unfold lift in H7. injection H7 as Hgd <-.
    unfold repo_git_dir in Hgd. rewrite Hgit in Hgd. injection Hgd as <-. apply zoom_Ok in Hreg as (m' & Hreg & ->). split; [done|].
    by apply (register_repo_registers canonical) in Hreg. }
  cbn. rewrite Hi. split_and!; [|done|done]. unfold sources_at. rewrite Hgit. by apply load_switched_on.
Qed.
End command.
