(* ===== verification/CliToy.v ===== *)
(** * Local mode switched on in a repository

    The witness of the theorem of [CliSpec], and what a second [init-local] and a
    store with a blank at its end come to. *)

From stdpp Require Import gmap list.
From S2P Require Import Prelude RustStd RustText Pktline CleanCache Config PathFacts Repo Filter FilterToy Gc GcSpec GcToy Prune PruneSpec PruneToy Install InstallSpec Track Cli CliSpec.

(** A git that stores what it is told, over a cache directory that is configured. *)
Definition git_reads (k : str) (found : option str) (c : GitCall) : option str :=
  match gc_args c with
  | [_; _; k0; v] => if decide (to_ascii_lowercase k0 = to_ascii_lowercase k) then Some v else found
  | _ => found
  end.
Definition git_config (h : list GitCall) (k : str) : option str :=
  foldl (git_reads k) (if decide (k = lit "bale.cacheDir") then Some (lit "/c") else None) h.

#[local] Instance git_surroundings : Surroundings := {|
  run_git _ _ := Ok (mkGitOutput true (Some 0) []);
  current_dir := Some (lit "/r");
  discover d := if starts_with d (lit "/r") then Ok (lit "/r/.git", git_config []) else Err (lit "not a repository");
  pid := 7;
|}.
#[local] Instance git_stores : GitConfig (lit "/r").
Proof.
  refine {| config_after := git_config |}; unfold git_config.
  - intros h k v out _ _. rewrite foldl_app. cbn. by rewrite decide_True.
  - intros h k v k' Hk. rewrite foldl_app. cbn. by rewrite decide_False.
Defined.
#[local] Instance one_path : LocalSessions := {|
  LocalUpload := nat;
  local_config := local_config (LocalSessions := toy_local_sessions);
  local_download_new := local_download_new (LocalSessions := toy_local_sessions);
  local_upload_new := local_upload_new (LocalSessions := toy_local_sessions);
  local_clean := local_clean (LocalSessions := toy_local_sessions);
  local_finalize := local_finalize (LocalSessions := toy_local_sessions);
  xet_runtime := Ok tt;
  canonicalize p := if decide (p = lit "/r/.git") then Some p else None;
|}.

Definition no_env : str → option str := λ _, None.
(** A repository with a hook of the user's, and a store that is shared already. *)
Definition fresh_client : Client := mkClient
  (Install.mkMachine {[lit "/r/.git/hooks/post-commit" := mkHook (lit "make check") HOOK_MODE]} [] [] [])
  (mkAttributes None [] [])
  (Prune.mkMachine {[ lit "/s" := toy_store ]} ∅ []) [] None None.
Definition init (store : string) (shared : bool) (c : Client) : Client :=
  (main no_env id None (mkCli 0 (InitLocal (mkInitLocalArgs (Some (lit store)) shared))) c).2.
Definition loaded (c : Client) : outcome str RawConfig :=
  RawConfig_load (mkSources no_env (Some (lit "/r/.git", config_after (git_calls (installing c))))).

Lemma git_answers h c : returned (run_git h c).
Proof. done. Qed.
Lemma git_finds d : returned (discover d).
Proof. unfold discover, git_surroundings. by destruct (starts_with d (lit "/r")). Qed.
Lemma git_pid : 0 ≤ pid.
Proof. vm_compute. discriminate. Qed.
Lemma one_canonical p abs : canonicalize p = Some abs → is_absolute abs = true ∧ utf8_valid abs = true ∧ starts_with (path_key abs) (lit ".") = false.
Proof. unfold canonicalize, one_path. destruct (decide (p = lit "/r/.git")) as [->|]; [intros [= <-]; by vm_compute|done]. Qed.
Lemma init_succeeds : main no_env id None (mkCli 0 (InitLocal (mkInitLocalArgs (Some (lit "/s")) true))) fresh_client = (Ok None, init "/s" true fresh_client).
Proof.
  unfold init. assert (Hok : (main no_env id None (mkCli 0 (InitLocal (mkInitLocalArgs (Some (lit "/s")) true))) fresh_client).1 = Ok None) by (vm_compute; reflexivity).
  revert Hok. destruct (main _ _ _ _ _) as [o c']. by intros [= ->].
Qed.

Lemma init_local_takes_effect_witness :
  loaded (init "/s" true fresh_client) = Ok (mkRawConfig None None None (lit "/c") (Some (lit "/r/.git")) true (Some (lit "/s")) true None) ∧
  ∃ s, stores (sharing (init "/s" true fresh_client)) !! lit "/s" = Some s ∧ registered_in s (lit "/r/.git") ∧ st_objects s = st_objects toy_store.
Proof.
  assert (Hin : in_repository no_env (lit "/r") (lit "/r/.git") fresh_client).
  { split; [reflexivity|reflexivity|by split_and!|repeat constructor|constructor]. }
  pose proof (init_local_takes_effect no_env id (lit "/r") (lit "/r/.git") git_answers git_finds git_pid one_canonical
    None 0 (mkInitLocalArgs (Some (lit "/s")) true) fresh_client (init "/s" true fresh_client) None Hin init_succeeds) as H.
  destruct H as (store & Hstore & Hload & _ & abs & s & Habs & Hs & Hreg & Hobj & _).
  assert (store = lit "/s") as -> by (injection Hstore as <-; reflexivity).
  split; [unfold loaded; rewrite Hload; vm_compute; reflexivity|].
  exists s. assert (abs = lit "/r/.git") as -> by (unfold canonicalize, one_path in Habs; rewrite decide_True in Habs by done; by injection Habs as <-).
  split; [exact Hs|]. split; [exact Hreg|exact Hobj].
Defined.

(** A store of its own after a shared one: [bale.localShared] is never unset, so
    gc leaves the new store alone, and a prune finds no repository in it. *)
Example second_init_stays_shared :
  let c := init "/own" false (init "/s" true fresh_client) in
  (local_shared <$> loaded c, object_store_root <$> loaded c) = (Ok true, Ok (Ok (lit "/own"))) ∧
  (prune id false 7 (loaded c) (sharing c)).1 = Err (lit "no repos registered against /own").
Proof. vm_compute. split; reflexivity. Qed.

(** A name that ends in a blank: the repository is registered with one store and
    keeps its objects in another. *)
Example blank_parts_registry_from_store :
  let c := init "/t " true fresh_client in
  object_store_root <$> loaded c = Ok (Ok (lit "/t")) ∧ is_Some (stores (sharing c) !! lit "/t ") ∧ stores (sharing c) !! lit "/t" = None.
Proof. vm_compute. split_and!; [reflexivity|by eexists|reflexivity]. Qed.
